(* ===== verification/_CoqProject ===== *)
-Q . S2P
Prelude.v
Task.v
TaskAwaiters.v
TaskOwner.v
TaskNest.v
Status.v
Coding.v
Crc32c.v
WriteBatch.v
WriteBatchStore.v
Wal.v
MemTable.v
MemTableReaders.v
MemTableStatsReader.v
Io.v
Db.v
DbTheorems.v
WriterQueue.v
WriterQueueFacts.v
DbConcurrent.v
WriterReentry.v
DbClient.v
Bench.v
BenchThreads.v
UringExecutor.v
UringKernel.v
UringFacts.v
UringTheorems.v
UringLifecycle.v
UringIo.v
DbOpen.v
DbSession.v
UringConcurrent.v
UringSqPoll.v
UringHistory.v
UringConcurrentFacts.v
UringConcurrentTheorems.v
UringSim.v
Stack.v
BenchMain.v
UringConcurrentRuns.v
Tests.v
