(* ===== verification/Prelude.v ===== *)
(** * storage_engine: a verification development

    [storage_engine] is an embedded key-value store. A client builds a [WriteBatch] and
    hands it to a [DB]; the batches of several writers are collected into a group; a group
    is encoded as one record of a write-ahead log, written and synced with two linked
    io_uring requests, and only then applied to a sharded table in memory, which alone
    answers [Get]. Opening a database reads the log and replays it.

    ** Parts of the program and the files that model them

    - [Prelude.v] (this file): unsigned integers with their wrap-around written out, bytes,
      vectors with a capacity, accesses that may be undefined, the automation and the lemmas
      the components share; [Libc], what the C and C++ libraries leave open.
    - [Task.v]: include/storage_engine/task.h. The promise, [run], [co_await] and the final
      suspension, as the accesses of two threads ([tstep]).
    - [TaskAwaiters.v]: any number of coroutines that await one task, which one of them or
      [run] has started ([await_step]).
    - [TaskOwner.v]: the special members of [Task] and [start], on a heap of coroutine
      frames, for any number of task objects ([run_ops]).
    - [TaskNest.v]: tasks whose bodies make and await tasks, to any depth, on one thread
      ([nest_step], [run_task]).
    - [Status.v]: include/storage_engine/status.h and [errnoMessage] of src/common.cc;
      [Result] as a union and as the class it is.
    - [Coding.v]: the fixed-width little-endian helpers of src/common.h.
    - [Crc32c.v]: the checksum of src/wal.cc, table-driven and with the processor's
      instructions ([Cpu], [CpuSpec]).
    - [WriteBatch.v]: src/write_batch.cc and its part of include/storage_engine/db.h, a batch
      as the value it has. [WriteBatchStore.v]: batches as objects in memory, with their
      strings in arenas ([BatchObject]).
    - [Wal.v]: src/wal.h and src/wal.cc: [EncodeBatchInto], [EncodeBatchFragmentsInto] and
      [DecodeLog].
    - [MemTable.v]: src/memtable.h and src/memtable.cc.
    - [MemTableReaders.v]: [Get] beside a running [ApplyBatches]: the steps of the writer
      ([astep]) and of any number of readers ([gstep]) that the shards' locks allow.
      [MemTableStatsReader.v]: [Stats] beside them ([sstep]).
    - [Io.v]: what the database asks of the system, as the classes [Io] (operations) and
      [IoSpec] (their laws): a file with contents and with what the device holds of them.
    - [Db.v], [DbTheorems.v]: [DB::writeGroup], [DB::recover] and [DB::Get] of src/db.cc, the
      database invariant and the theorems about runs, crashes and reopening.
    - [WriterQueue.v], [WriterQueueFacts.v], [DbConcurrent.v]: [DB::enqueueAsyncWriter],
      [DB::writerLoop] and the destructor's request to stop. Every section of code run with
      [writeMutex_] held is a definition; [istep] (the threads) and [estep] (callers,
      spurious wake-ups, the destructor) interleave them, with notifications that are still
      to be made and a collection window that may expire at any time.
    - [WriterReentry.v]: a blocking write made by a coroutine that the writer thread resumes
      ([nstep]).
    - [DbClient.v]: [Put], [Delete], [Write] and [Get] of one client, as executions of the
      writer queue.
    - [Bench.v]: benchmarks/bench_common.cc and the benchmarks of
      benchmarks/storage_engine_bench.cc that have one thread, on that client.
    - [BenchThreads.v]: the two benchmarks with threads: [fstep], writers as clients of the
      threads of [DbConcurrent.v], and [read_step].
    - [UringExecutor.v]: src/io/uring_executor.cc: the rings shared with the kernel,
      [submitRaw], [submit], [submitLinked], [completionLoop] and the three operations.
    - [UringKernel.v]: io_uring as it is documented ([KernelSpec]: what the kernel does is a
      sequence of [kstep]s) and the rings seen as queues.
    - [UringFacts.v], [UringTheorems.v], [UringIo.v]: a submitted chain of requests is
      followed to its end; the executor implements [Io] and satisfies [IoSpec].
    - [UringConcurrent.v], [UringConcurrentFacts.v], [UringConcurrentTheorems.v]: any number
      of operations in flight on one executor: submissions under [sqMutex], cut at the
      store that publishes them ([pushRaw], [pushLinked], [kick]), the completion thread,
      the kernel and the coroutines that return, interleaved ([cstep]).
      [UringHistory.v]: what a sequence of completed requests leaves in the file.
    - [UringSqPoll.v]: the wake-up of the kernel's polling thread, with the store buffer of
      the submitting processor ([pstep]).
    - [UringLifecycle.v]: [init], [Create] and [closeRing], with descriptors and mappings,
      and with the exception of a thread that cannot be started ([Outcome]).
    - [DbOpen.v]: [DB::Open] with its exceptions, the constructor, the destructor and
      [DebugStatsForTest].
    - [DbSession.v]: the life of a database on the executor: calls, [Get]s, restarts and
      crashes in any order ([lifetime]), and threads followed by a restart.
    - [BenchMain.v]: [openFreshDb], [runBenchmark] and [main] of the benchmark program.
    - [Tests.v]: tests/test_db.cc, with and without assertions, and the examples for
      [DbSession.v].
    - [UringSim.v], [Stack.v], [UringConcurrentRuns.v]: a kernel for the examples, the
      theorems about the whole stack, and a run with three operations in flight.

    A theorem about a client is proved against the class of what it uses: [Db.v] and
    everything that builds on it against [Io] and [IoSpec], the executor against [Kernel] and
    [KernelSpec]. [uring_IoSpec] joins the two, so that every theorem about the database
    holds of the database on the executor ([database_on_uring]). Instances are given for all
    classes ([reference_libc], [reference_cpu], [sim_IoSpec], [simk_KernelSpec],
    [simk_SetupSpec], [simk_OpenSpec]), so that no law is empty.

    ** What the theorems show

    - The log: the two encoders agree; decoding inverts encoding; decoding ends on any bytes
      without an access out of range; a torn last record is dropped and nothing else;
      damage to adjacent bytes is detected; the checksum does not depend on the processor;
      a record reads back exactly if its payload is shorter than 2^32 bytes.
    - The table: it refines a map from keys to the last write, whatever the sharding;
      readers beside a writer are linearizable key by key (not batch by batch,
      [batch_seen_in_part]), and neither blocks the other for good; [Stats] counts between
      what was there when it began and when it returned.
    - The database: [writeGroup] is all or nothing; runs of groups refine a key-value map;
      acknowledged groups survive a crash; recovery reports what decoding reports, is
      idempotent, and leaves a database that can go on; [Open] and the destructor release
      what they acquire on every path that does not throw; no [Result] is made of an OK
      status. Over restarts and crashes it is one persistent map
      ([lifetime_is_persistent_map]).
    - Batches: whatever is copied, assigned, destroyed or passed as a view, a batch in memory
      shows the entries of its value ([batches_are_values]).
    - Concurrent writers: one writer at a time; writers are written in the order they came,
      once, and get their group's status; every state of the threads is a state of a
      sequential run; the threads run out of steps only when every writer is served; what
      they wrote is there after a restart ([concurrent_writes_survive_restart]).
    - The executor: the rings stay well formed and are never indexed out of range; every
      operation returns, with the bytes in the file and on the device when it returns OK;
      the completion thread ends on shutdown. With several operations in flight each gets
      its own results, once, a write that returned OK is durable if the others stay away
      from its bytes, and every waiting coroutine is resumed.
    - Tasks: a caller gets what the body ended with, and no wake-up is lost; every coroutine
      frame has one owner, and is started and destroyed at most once; a nest of tasks does
      what the same code without coroutines does ([nested_tasks_run_inline]).
    - The benchmark driver: its text functions invert each other; the benchmarks end, with
      one thread or several, and leave the database with what they report to have written;
      a database that was loaded answers every read; the program gives back every
      descriptor and mapping it takes, on every path that does not throw.
    - The tests: those of the database's contents pass on every system that behaves as
      documented ([content_tests_pass]), the one with eight threads in every execution, and
      the others on the simulated kernel ([suite_passes]), but for the one that depends on
      the schedule.
    - Where the code does not do what it means to, a theorem states what it does:
      [short_read_loses_acknowledged_write], [failed_write_makes_log_unreadable],
      [refused_submission_leaves_requests], [run_destroys_promise_in_use],
      [decode_zero_tail], [decode_long_length], [open_loses_log_descriptor],
      [blocking_write_in_coroutine_deadlocks], [sqpoll_submission_forgotten],
      [started_task_loses_awaiter], [too_large_count_accepted], [reads_without_keys],
      [largest_value_never_made], [root_is_removed], [release_tests_write_nothing],
      [group_commit_test_depends_on_schedule].

    ** Conventions, bounds and fuel

    Integers are [Z] with [u8], [u32], [u64] written where the source wraps. A result [None]
    is undefined behaviour or an exhausted loop bound; theorems that an operation returns
    state that the result is [Some]. [DecodeLog] runs its loops on the number of bytes left,
    which every iteration decreases ([decode_total]). [makeValue] of the benchmarks is given
    as many rounds as the value has bytes, [split] one more than the input has. The benchmarks
    with threads are step relations and need no fuel; [fill_work] and [read_work] bound their
    steps. The completion thread is given [8 + k_patience] steps for an operation and
    [3 + k_patience] for its shutdown, where [k_patience] bounds how often the kernel still
    interrupts a wait: a chain of two requests needs a wait, a look and a take for each. A nest
    of tasks is given as many steps as it needs ([nested_tasks_run_inline] states that some
    number is enough). Logs are assumed shorter than 2^62 bytes, records shorter than 2^32
    ([encodable], the width of the length field) and sequence numbers below 2^64; where a
    database is opened again the log is assumed no longer than one request reads.

    ** What is not modelled

    Where in an arena a string is, and whether that is the inline buffer or the heap, which
    the standard library leaves open; weak memory, except in [UringSqPoll.v]: an acquire load
    reads the last store; with several operations in flight, the bytes that a read delivers
    (its count is followed); exceptions for want of memory; the directory entry of the log,
    which a crash is assumed to keep although [Open] does not sync the directory; of the
    benchmarks the clocks, the seconds and percentiles (floating point) and the printing.
    Addresses of writers and operations are not reused within a run. What is left of the
    sources are declarations, includes and namespaces. *)

From Stdlib Require Export ZArith Lia Btauto.
From Stdlib Require Import Strings.Byte Strings.String.
From stdpp Require Export base numbers list gmap strings.

#[global] Open Scope Z_scope.
#[global] Set Default Goal Selector "!".

#[global] Arguments Z.of_nat : simpl never.
#[global] Arguments Z.to_nat : simpl never.
#[global] Arguments Z.pow : simpl never.

(** ** Machine integers

    A C++ unsigned integer of width [w] is a [Z]; every operation of the source
    that can wrap is followed by the reduction written out here. *)

Definition u8 (z : Z) : Z := z mod 2 ^ 8.
Definition u32 (z : Z) : Z := z mod 2 ^ 32.
Definition u64 (z : Z) : Z := z mod 2 ^ 64.

(** [int32_t] results of the kernel are plain [Z]s with a range hypothesis; the library does
    not convert values out of range to a signed type. *)

Abbreviation byte := Byte.byte.
Abbreviation bytes := (list Byte.byte).

(** [static_cast<uint8_t>(b)] and [static_cast<std::byte>(z)]. *)
Definition b2z (b : byte) : Z := Z.of_N (Byte.to_N b).
Definition z2b (z : Z) : byte := default Byte.x00 (Byte.of_N (Z.to_N (u8 z))).

(** The bytes of a string literal of the source. *)
Definition str (s : string) : bytes := list_byte_of_string s.

(** [std::vector::size] and [std::span::size]. *)
Abbreviation zlen l := (Z.of_nat (length l)).

(** ** Undefined behaviour

    Code whose C++ meaning can be undefined (an index out of range) returns an
    [option]: [None] is undefined behaviour, or a loop that ran out of fuel, and
    the safety theorems show it does not arise. *)

Definition vec_get {A} (l : list A) (i : Z) : option A :=
  if (0 <=? i) then l !! Z.to_nat i else None.

Definition vec_set {A} (l : list A) (i : Z) (x : A) : option (list A) :=
  if (0 <=? i) && (i <? zlen l) then Some (<[Z.to_nat i := x]> l) else None.

(** [std::span::subspan(offset, count)]. *)
Definition subspan {A} (l : list A) (off n : Z) : option (list A) :=
  if (0 <=? off) && (0 <=? n) && (off + n <=? zlen l)
  then Some (take (Z.to_nat n) (drop (Z.to_nat off) l)) else None.

(** A [for] loop over a range, its body threading a state that may be undefined. *)
Fixpoint foldM {A S} (f : S -> A -> option S) (s : S) (l : list A) : option S :=
  match l with
  | [] => Some s
  | x :: l => match f s x with Some s' => foldM f s' l | None => None end
  end.

(** ** What the platform leaves open

    The text of an error number, the hash of a string (a [size_t]), the capacity a
    [std::vector] of capacity [cap] takes when it must hold [n] elements and the number
    of buckets an [std::unordered_map] of [b] buckets takes then are the library's
    choice: parameters of the development. *)

Class Libc := {
  strerror : Z -> string;
  string_hash : bytes -> Z;
  vector_grow : Z -> Z -> Z;
  map_rehash : Z -> Z -> Z;
}.

(** The standard asks that a container can hold what it was asked to hold (an
    [unordered_map] has a load factor of at most 1). *)
Class LibcSpec (L : Libc) : Prop := {
  vector_grow_enough : forall cap n, cap < n -> n <= vector_grow cap n;
  map_rehash_enough : forall b n, b < n -> n <= map_rehash b n;
}.

(** A choice that meets them, for the examples. *)
Definition reference_libc : Libc := {|
  strerror := fun _ => "Input/output error";
  string_hash := fun s => fold_left (fun h b => u64 (h * 31 + b2z b)) s 7;
  vector_grow := fun cap n => Z.max (2 * cap) n;
  map_rehash := fun b n => Z.max (2 * b + 1) n;
|}.

#[global] Instance reference_libc_spec : LibcSpec reference_libc.
Proof. split; intros; cbn; lia. Qed.

(** ** [std::vector], where the program looks at its capacity *)

Record vector (A : Type) := mkVector { items : list A; capacity : Z }.
Arguments mkVector {A} items capacity.
Arguments items {A} v.
Arguments capacity {A} v.

Definition vector_new {A} : vector A := mkVector [] 0.

Definition grow_to `{Libc} (cap n : Z) : Z := if n <=? cap then cap else vector_grow cap n.

Definition vector_clear {A} (v : vector A) : vector A := mkVector [] (capacity v).

Definition vector_reserve `{Libc} {A} (v : vector A) (n : Z) : vector A :=
  mkVector (items v) (grow_to (capacity v) n).

Definition vector_push_back `{Libc} {A} (v : vector A) (x : A) : vector A :=
  mkVector (items v ++ [x]) (grow_to (capacity v) (zlen (items v) + 1)).

(** [resize(n)] of a vector that was just cleared: [n] value-initialised elements. *)
Definition vector_resize_fresh `{Libc} {A} (v : vector A) (n : Z) (zero : A) : vector A :=
  mkVector (replicate (Z.to_nat n) zero) (grow_to (capacity v) n).

(** ** Instances *)

#[global] Instance byte_eq_dec : EqDecision byte := Byte.byte_eq_dec.

#[global] Program Instance byte_countable : Countable byte :=
  inj_countable Byte.to_N Byte.of_N _.
Next Obligation. intros b. apply Byte.of_to_N. Qed.

#[global] Instance byte_inhabited : Inhabited byte := populate Byte.x00.

(** ** Automation *)

Create HintDb se.
Create Rewrite HintDb se.

Ltac zb :=
  repeat match goal with
  | H : context [Z.leb ?a ?b] |- _ => destruct (Z.leb_spec a b)
  | H : context [Z.ltb ?a ?b] |- _ => destruct (Z.ltb_spec a b)
  | H : context [Z.eqb ?a ?b] |- _ => destruct (Z.eqb_spec a b)
  | H : context [Z.geb ?a ?b] |- _ => rewrite Z.geb_leb in H
  | H : context [Z.gtb ?a ?b] |- _ => rewrite Z.gtb_ltb in H
  | |- context [Z.geb ?a ?b] => rewrite Z.geb_leb
  | |- context [Z.gtb ?a ?b] => rewrite Z.gtb_ltb
  | |- context [Z.leb ?a ?b] => destruct (Z.leb_spec a b)
  | |- context [Z.ltb ?a ?b] => destruct (Z.ltb_spec a b)
  | |- context [Z.eqb ?a ?b] => destruct (Z.eqb_spec a b)
  end; cbn [andb orb negb] in *.

(** List lengths pushed to arithmetic, then [lia]. *)
Ltac len := autorewrite with len in *; simpl in *; try lia.

Create Rewrite HintDb len.
Lemma length_cons_S {A} (x : A) l : length (x :: l) = S (length l).
Proof. done. Qed.

#[export] Hint Rewrite @length_cons_S @length_app @length_take @length_drop @length_insert
  @length_map @length_replicate @length_fmap @length_seq : len.

(** ** Integer lemmas *)

Lemma u32_range z : 0 <= u32 z < 2 ^ 32.
Proof. apply Z.mod_pos_bound. lia. Qed.

Lemma u64_range z : 0 <= u64 z < 2 ^ 64.
Proof. apply Z.mod_pos_bound. lia. Qed.

Lemma u32_small z : 0 <= z < 2 ^ 32 -> u32 z = z.
Proof. apply Z.mod_small. Qed.

Lemma u64_small z : 0 <= z < 2 ^ 64 -> u64 z = z.
Proof. apply Z.mod_small. Qed.

Lemma u32_idemp z : u32 (u32 z) = u32 z.
Proof. apply Z.mod_mod. lia. Qed.

Lemma u64_idemp z : u64 (u64 z) = u64 z.
Proof. apply Z.mod_mod. lia. Qed.

Lemma u64_add_l a b : u64 (u64 a + b) = u64 (a + b).
Proof. apply Zplus_mod_idemp_l. Qed.

#[export] Hint Resolve u32_range u64_range : se.
#[export] Hint Rewrite u32_idemp u64_idemp : se.

Lemma b2z_range b : 0 <= b2z b < 256.
Proof.
  unfold b2z. pose proof (Byte.to_N_bounded b). split; [lia|].
  apply N2Z.inj_lt with (m := 256%N). lia.
Qed.

Lemma b2z_z2b z : b2z (z2b z) = z mod 256.
Proof.
  unfold b2z, z2b, u8. change (2 ^ 8) with 256.
  pose proof (Z.mod_pos_bound z 256 ltac:(lia)) as Hr.
  destruct (Byte.of_N (Z.to_N (z mod 256))) as [b|] eqn:E; simpl.
  - apply Byte.to_of_N in E. rewrite E. lia.
  - apply Byte.of_N_None_iff in E. lia.
Qed.

Lemma b2z_inj b1 b2 : b2z b1 = b2z b2 -> b1 = b2.
Proof.
  unfold b2z. intros H%N2Z.inj.
  pose proof (Byte.of_to_N b1). pose proof (Byte.of_to_N b2). congruence.
Qed.

Lemma z2b_b2z b : z2b (b2z b) = b.
Proof.
  apply b2z_inj. rewrite b2z_z2b. apply Z.mod_small, b2z_range.
Qed.

#[export] Hint Resolve b2z_range : se.
#[export] Hint Rewrite b2z_z2b z2b_b2z : se.

(** ** Lemmas on lists *)

Lemma vec_get_app_r {A} (l k : list A) i :
  0 <= i -> vec_get (l ++ k) (zlen l + i) = vec_get k i.
Proof.
  intros Hi. unfold vec_get. zb; try lia.
  rewrite lookup_app_r by lia. f_equal. lia.
Qed.

Lemma vec_get_middle {A} (l k : list A) x : vec_get (l ++ x :: k) (zlen l) = Some x.
Proof. unfold vec_get. zb; [|lia]. rewrite Nat2Z.id. by apply list_lookup_middle. Qed.

Lemma vec_get_lt {A} (l : list A) i :
  0 <= i < zlen l -> is_Some (vec_get l i).
Proof.
  intros Hi. unfold vec_get. zb; [|lia]. apply lookup_lt_is_Some_2. lia.
Qed.

Lemma vec_get_nat {A} (l : list A) (n : nat) : vec_get l (Z.of_nat n) = l !! n.
Proof. unfold vec_get. destruct (Z.leb_spec 0 (Z.of_nat n)); [by rewrite Nat2Z.id|lia]. Qed.

Lemma vec_set_nat {A} (l l' : list A) (n : nat) x :
  vec_set l (Z.of_nat n) x = Some l' <-> (n < length l)%nat /\ l' = <[n := x]> l.
Proof.
  unfold vec_set. rewrite Nat2Z.id.
  destruct (Z.leb_spec 0 (Z.of_nat n)), (Z.ltb_spec (Z.of_nat n) (zlen l)); cbn [andb]; try lia.
  - split; [intros [= <-]; split; [lia|done]|intros [_ ->]; done].
  - split; [done|]. lia.
Qed.

(** Setting an element to what it is. *)
Lemma vec_set_same {A} (l : list A) i x : vec_get l i = Some x -> vec_set l i x = Some l.
Proof.
  unfold vec_get, vec_set. intros H. destruct (0 <=? i) eqn:Ei; [|done].
  pose proof (lookup_lt_Some _ _ _ H). zb; try lia. cbn [andb]. by rewrite list_insert_id.
Qed.

Lemma vec_set_middle {A} (l k : list A) x y :
  vec_set (l ++ x :: k) (zlen l) y = Some (l ++ y :: k).
Proof.
  unfold vec_set. zb; len.
  rewrite Nat2Z.id, insert_app_r_alt, Nat.sub_diag by lia. done.
Qed.

Lemma subspan_middle {A} (l m k : list A) off n :
  off = zlen l -> n = zlen m -> subspan (l ++ m ++ k) off n = Some m.
Proof.
  intros -> ->. unfold subspan. zb; len.
  by rewrite !Nat2Z.id, drop_app_length, take_app_length.
Qed.

Lemma subspan_lt {A} (l : list A) off n : 0 <= off -> 0 <= n -> off + n <= zlen l ->
  exists k, subspan l off n = Some k /\ zlen k = n.
Proof. intros H1 H2 H3. unfold subspan. zb; try lia. eexists. split; [done|]. len. Qed.

Lemma subspan_length {A} (l k : list A) off n :
  subspan l off n = Some k -> zlen k = n.
Proof. unfold subspan. intros H. zb; simplify_eq. len. Qed.

Lemma foldM_app {A S} (f : S -> A -> option S) s l k :
  foldM f s (l ++ k) = foldM f s l ≫= λ s', foldM f s' k.
Proof.
  revert s. induction l as [|x l IH]; intros s; simpl; [done|].
  destruct (f s x); simpl; [apply IH|done].
Qed.

(** Rewriting with this keeps [f] folded, where [simpl] would not. *)
Lemma fold_left_cons {A B} (f : A -> B -> A) x l a :
  fold_left f (x :: l) a = fold_left f l (f a x).
Proof. done. Qed.

Lemma split_at {A} (l : list A) n :
  (n <= length l)%nat -> exists k m, l = k ++ m /\ length k = n.
Proof.
  intros H. exists (take n l), (drop n l). rewrite take_drop. split; [done|len].
Qed.

Lemma foldr_add_acc z l : foldr Z.add z l = foldr Z.add 0 l + z.
Proof. induction l as [|x l IH]; simpl; lia. Qed.

Lemma fold_left_inv {A B} (P : A -> Prop) (f : A -> B -> A) l a :
  (forall a b, P a -> P (f a b)) -> P a -> P (fold_left f l a).
Proof. intros Hf. revert a. induction l as [|x l IH]; simpl; auto. Qed.
