(* ===== verification/Task.v ===== *)
(** * Tasks (include/storage_engine/task.h)

    A [Task] is a coroutine that starts when it is run or awaited. [run] starts the body on
    the calling thread and waits for it; another thread (the executor's completion thread,
    the writer thread) may resume the body and bring it to its end. The model follows the
    two threads through the accesses they make to the promise. *)

From stdpp Require Import relations.
From S2P Require Import Prelude.

Section Task.
Context {T Exn : Type}.

(** ** The promise and the task *)

Record promise_type := mkPromise {
  value_ : option T;
  exception_ : option Exn;
  continuation_ : option Z;
  completed_ : bool;
}.

Definition promise_new : promise_type := mkPromise None None None false.

Definition return_value (p : promise_type) (v : T) : promise_type :=
  mkPromise (Some v) (exception_ p) (continuation_ p) (completed_ p).
Definition unhandled_exception (p : promise_type) (e : Exn) : promise_type :=
  mkPromise (value_ p) (Some e) (continuation_ p) (completed_ p).
Definition set_completed (p : promise_type) : promise_type :=
  mkPromise (value_ p) (exception_ p) (continuation_ p) true.
Definition set_continuation (p : promise_type) (c : Z) : promise_type :=
  mkPromise (value_ p) (exception_ p) (Some c) (completed_ p).

(** [takeResult]: the exception, or the value; [None] is an access to an empty optional. *)
Definition takeResult (p : promise_type) : option (T + Exn) :=
  match exception_ p with
  | Some e => Some (inr e)
  | None => inl <$> value_ p
  end.

(** [Task::Awaiter]: whether to suspend, and what runs next if it does ([true]: the task). *)
Definition Awaiter_await_ready (p : promise_type) : bool := completed_ p.
Definition Awaiter_await_suspend (p : promise_type) (started : bool) (c : Z) : promise_type * bool * bool :=
  (set_continuation p c, true, negb started).

(** ** The threads *)

(** The thread that runs or awaits the task, and another one. *)
Inductive thread := Caller | Other.

Inductive body_pc :=
  | BNew
  | BRunning (t : thread)
  | BSuspended
  (** [final_suspend]: to set [completed_]; to notify; to read [continuation_]; suspended. *)
  | BFinal (t : thread)
  | BNotify (t : thread)
  | BTransfer (t : thread)
  | BEnd.

Inductive caller_pc :=
  | CNew
  (** In [handle_.resume()]; in [wait], about to look or asleep; past it; with the result. *)
  | CStart
  | CWait (asleep : bool)
  | CTake
  (** Suspended in [co_await], to be resumed with its handle; resumed. *)
  | CAwait (c : Z)
  | CResumed
  | CHave (r : T + Exn)
  (** Returned; the task is destroyed. *)
  | CReturned (r : T + Exn).

Record TaskSys := mkTask {
  t_promise : promise_type;
  t_started : bool;
  t_alive : bool;
  t_body : body_pc;
  t_caller : caller_pc;
  (** What the body ended with, and the handles resumed after it. *)
  t_outcome : option (T + Exn);
  t_resumed : list Z;
}.

Definition Task_new : TaskSys := mkTask promise_new false true BNew CNew None [].

(** The caller's thread comes back from [resume] when the body leaves it. *)
Definition leave (t : thread) (c : caller_pc) : caller_pc :=
  match t, c with Caller, CStart => CWait false | _, c => c end.

Definition wake (c : caller_pc) : caller_pc := match c with CWait _ => CWait false | c => c end.

Inductive tstep : TaskSys -> TaskSys -> Prop :=
  (** [run]: [start]. *)
  | Run p al o rs : tstep (mkTask p false al BNew CNew o rs) (mkTask p true al (BRunning Caller) CStart o rs)
  (** [co_await]: [await_ready], [await_suspend], and the transfer to the task. *)
  | Await p p' al c o rs : Awaiter_await_ready p = false -> Awaiter_await_suspend p false c = (p', true, true) ->
      tstep (mkTask p false al BNew CNew o rs) (mkTask p' true al (BRunning Caller) (CAwait c) o rs)
  (** The body. *)
  | Suspend p st al t c o rs : tstep (mkTask p st al (BRunning t) c o rs) (mkTask p st al BSuspended (leave t c) o rs)
  | Resume p st al c o rs : tstep (mkTask p st al BSuspended c o rs) (mkTask p st al (BRunning Other) c o rs)
  | Return p st al t c v o rs :
      tstep (mkTask p st al (BRunning t) c o rs) (mkTask (return_value p v) st al (BFinal t) c (Some (inl v)) rs)
  | Throw p st al t c e o rs :
      tstep (mkTask p st al (BRunning t) c o rs) (mkTask (unhandled_exception p e) st al (BFinal t) c (Some (inr e)) rs)
  (** [FinalAwaiter::await_suspend]. *)
  | Complete p st al t c o rs : tstep (mkTask p st al (BFinal t) c o rs) (mkTask (set_completed p) st al (BNotify t) c o rs)
  | NotifyAll p st al t c o rs : tstep (mkTask p st al (BNotify t) c o rs) (mkTask p st al (BTransfer t) (wake c) o rs)
  | Transfer p st al t c o rs : tstep (mkTask p st al (BTransfer t) c o rs)
      (mkTask p st al BEnd
        (match continuation_ p, c with Some _, CAwait _ => CResumed | _, c => leave t c end) o
        (rs ++ option_list (continuation_ p)))
  (** [run]: [wait], [takeResult], the destructor. *)
  | WaitSleep p st al b o rs : completed_ p = false ->
      tstep (mkTask p st al b (CWait false) o rs) (mkTask p st al b (CWait true) o rs)
  | WaitSpurious p st al b o rs : tstep (mkTask p st al b (CWait true) o rs) (mkTask p st al b (CWait false) o rs)
  | WaitDone p st al b o rs : completed_ p = true ->
      tstep (mkTask p st al b (CWait false) o rs) (mkTask p st al b CTake o rs)
  | Take p st al b c r o rs : c = CTake \/ c = CResumed -> takeResult p = Some r ->
      tstep (mkTask p st al b c o rs) (mkTask p st al b (CHave r) o rs)
  | Destroy p st al b r o rs : tstep (mkTask p st al b (CHave r) o rs) (mkTask p st false b (CReturned r) o rs).

(** ** Invariants *)

Definition ending (b : body_pc) : bool := match b with BFinal _ | BNotify _ | BTransfer _ | BEnd => true | _ => false end.
Definition past_completed (b : body_pc) : bool := match b with BNotify _ | BTransfer _ | BEnd => true | _ => false end.
Definition to_notify (b : body_pc) : bool := match b with BNotify _ => true | _ => false end.

(** The caller waits inside [resume] exactly while its thread runs the body. *)
Definition on_caller (b : body_pc) : bool :=
  match b with BRunning Caller | BFinal Caller | BNotify Caller | BTransfer Caller => true | _ => false end.

Record task_inv (s : TaskSys) : Prop := {
  ti_outcome : if ending (t_body s) then t_outcome s = takeResult (t_promise s) /\ is_Some (t_outcome s)
    else t_outcome s = None /\ value_ (t_promise s) = None /\ exception_ (t_promise s) = None;
  ti_completed : completed_ (t_promise s) = past_completed (t_body s);
  ti_fresh : t_caller s = CNew -> t_started s = false /\ t_body s = BNew /\ continuation_ (t_promise s) = None /\ t_resumed s = [];
  ti_start : t_caller s = CStart -> on_caller (t_body s) = true;
  ti_wait : forall a, t_caller s = CWait a -> on_caller (t_body s) = false /\ t_body s <> BNew;
  ti_sleeping : t_caller s = CWait true -> past_completed (t_body s) = false \/ to_notify (t_body s) = true;
  ti_await : forall c, t_caller s = CAwait c -> continuation_ (t_promise s) = Some c /\ t_resumed s = [] /\ t_body s <> BEnd;
  ti_resumed : t_caller s = CResumed -> t_body s = BEnd;
  ti_past : match t_caller s with CTake | CHave _ | CReturned _ => completed_ (t_promise s) = true /\ on_caller (t_body s) = false
    | _ => True end;
  ti_result : match t_caller s with CHave r | CReturned r => t_outcome s = Some r | _ => True end;
  ti_once : t_resumed s = match t_body s with BEnd => option_list (continuation_ (t_promise s)) | _ => [] end;
  ti_alive : t_alive s = match t_caller s with CReturned _ => false | _ => true end;
}.

Lemma task_inv_new : task_inv Task_new.
Proof. split; cbn; try done. Qed.

Lemma task_inv_step s s' : task_inv s -> tstep s s' -> task_inv s'.
Proof.
  intros Hi Hs. destruct Hs; destruct Hi as [H1 H2 H3 H4 H5 H6 H7 H8 H9 H10 Honce H11]; cbn in *.
  all: try (unfold Awaiter_await_suspend in *; simplify_eq/=).
  all: try match goal with H : _ = CTake \/ _ |- _ => destruct H; subst end.
  all: try destruct (continuation_ p) eqn:Ec.
  all: try destruct t; try destruct c; cbn in *.
  all: split; cbn; intros; simplify_eq/=; try done.
  all: repeat match goal with
    | H : ?x = ?x -> _ |- _ => specialize (H eq_refl)
    | H : forall a, ?f ?x = ?f a -> _ |- _ => specialize (H x eq_refl)
    | H : _ /\ _ |- _ => destruct H
    end; unfold takeResult in *; cbn in *; simplify_eq/=; try (repeat split; done || congruence || auto).
  all: try match goal with H : exception_ _ = None |- _ => by rewrite H end.
  all: try (left; congruence); try (destruct b; cbn in *; intuition congruence).
  all: try match goal with H : continuation_ _ = _ |- _ => by rewrite H end; intuition congruence.
Qed.

Lemma task_reachable_inv s : rtc tstep Task_new s -> task_inv s.
Proof. revert s. apply (rtc_ind_r task_inv); [apply task_inv_new|]. eauto using task_inv_step. Qed.

(** C29: [run] and [co_await] give back what the body ended with. Whatever threads the body
    runs on and however they interleave, a caller that has a result has the value the body
    returned or the exception it threw, a caller about to take one finds it in the promise,
    and the body has set [completed_] by then. *)
Theorem task_result_is_outcome s : rtc tstep Task_new s ->
  match t_caller s with
  | CHave r | CReturned r => t_outcome s = Some r
  | CTake | CResumed => completed_ (t_promise s) = true /\ takeResult (t_promise s) = t_outcome s /\ is_Some (t_outcome s)
  | _ => True
  end.
Proof.
  intros Hr. apply task_reachable_inv in Hr as [H1 H2 _ _ _ _ _ H8 H9 H10 _ _].
  destruct (t_caller s); try done.
  - destruct H9 as [H9 _]. rewrite H2 in H9. destruct (t_body s); try done; cbn in *; destruct H1 as [-> ?]; auto.
  - rewrite (H8 eq_refl) in *. cbn in *. destruct H1 as [-> ?]. auto.
Qed.


(** The body's last accesses to the promise, after it has set [completed_]. *)
Definition touches_promise (s : TaskSys) : bool :=
  match t_body s with BNotify _ | BTransfer _ => true | _ => false end.

(** A task whose body ends on the calling thread, or that is awaited, is not destroyed
    under the body: only another thread can be left with a destroyed promise. *)
Theorem task_destroyed_only_under_other s : rtc tstep Task_new s -> t_alive s = false -> touches_promise s = true ->
  t_body s = BNotify Other \/ t_body s = BTransfer Other.
Proof.
  intros Hr Ha Ht. apply task_reachable_inv in Hr as [_ _ _ _ _ _ _ _ H9 _ _ H11]. rewrite Ha in H11.
  destruct (t_caller s); try done. destruct H9 as [_ H9]. unfold touches_promise in Ht.
  destruct (t_body s) as [| | |[]|[]|[]|]; auto; done.
Qed.

End Task.
Arguments promise_type : clear implicits.
Arguments TaskSys : clear implicits.

Lemma run_in_use : exists s : TaskSys Z Z, rtc tstep Task_new s /\ t_alive s = false /\ touches_promise s = true.
Proof.
  eexists. split.
  - eapply rtc_l; [apply Run|]. eapply rtc_l; [apply Suspend|]. eapply rtc_l; [apply Resume|].
    eapply rtc_l; [apply (Return _ _ _ _ _ 7)|]. eapply rtc_l; [apply Complete|].
    eapply rtc_l; [by apply WaitDone|]. eapply rtc_l; [eapply Take; [by left|reflexivity]|].
    eapply rtc_l; [apply Destroy|]. apply rtc_refl.
  - done.
Qed.

(** C37: [run] can destroy the coroutine while its body still uses it. The thread that ends
    the body sets [completed_], the caller, which was not asleep or woke by itself, sees
    it, takes the result and destroys the task, and then the first thread notifies on the
    destroyed condition variable and reads the destroyed [continuation_]. *)
Theorem run_destroys_promise_in_use :
  exists s : TaskSys Z Z, rtc tstep Task_new s /\ t_alive s = false /\ touches_promise s = true.
Proof. exact run_in_use. Qed.

(** ** Examples *)

(** The body returns on the calling thread. *)
Lemma task_runs_here :
  exists s : TaskSys Z Z, rtc tstep Task_new s /\ t_body s = BEnd /\ t_caller s = CReturned (inl 7) /\ t_alive s = false.
Proof.
  eexists. split.
  - eapply rtc_l; [apply Run|]. eapply rtc_l; [apply (Return _ _ _ _ _ 7)|]. eapply rtc_l; [apply Complete|].
    eapply rtc_l; [apply NotifyAll|]. eapply rtc_l; [apply Transfer|]. eapply rtc_l; [by apply WaitDone|].
    eapply rtc_l; [eapply Take; [by left|reflexivity]|]. eapply rtc_l; [apply Destroy|]. apply rtc_refl.
  - done.
Qed.

Lemma task_result_is_outcome_witness : exists s : TaskSys Z Z, t_outcome s = Some (inl 7).
Proof.
  destruct task_runs_here as (s & Hr & _ & Hc & _). exists s. pose proof (task_result_is_outcome s Hr) as H.
  rewrite Hc in H. exact H.
Defined.


Lemma task_destroyed_only_under_other_witness :
  exists s : TaskSys Z Z, t_body s = BNotify Other \/ t_body s = BTransfer Other.
Proof.
  destruct run_in_use as (s & Hr & Ha & Ht). exists s. apply (task_destroyed_only_under_other s Hr Ha Ht).
Defined.
