(* ===== verification/TaskAwaiters.v ===== *)
(** * Awaiting a task that has started (include/storage_engine/task.h)

    [Task::Awaiter] has a branch for a task that runs already: [await_suspend] then only
    leaves its continuation in the promise. Here any number of coroutines await one task,
    which one of them or a call of [run] starts; the model follows them through
    [await_ready] and [await_suspend], and the body through [final_suspend]. *)

From stdpp Require Import relations.
From S2P Require Import Prelude Task.

Section Awaiters.
Context {T Exn : Type}.

(** Where a coroutine that awaits is: before [await_ready]; told to suspend, before
    [await_suspend]; suspended; past [await_resume], with the result. *)
Inductive await_pc := ANew | ASuspending | ASuspended | AResumed (r : T + Exn).

(** The body: not started, running or suspended, and through [final_suspend]. *)
Inductive task_pc := TNew | TRunning | TFinal | TNotify | TTransfer | TEnd.

#[global] Instance task_pc_eq_dec : EqDecision task_pc.
Proof. solve_decision. Defined.

Record AwaitSys := mkAwait {
  a_promise : promise_type T Exn;
  a_started : bool;
  a_body : task_pc;
  a_awaiters : list await_pc;
  (** What the body ended with. *)
  a_outcome : option (T + Exn);
}.

Definition await_start (n : nat) : AwaitSys := mkAwait promise_new false TNew (replicate n ANew) None.

(** The awaiter whose handle the final suspension transfers to; handles are positions. *)
Definition transfer_to (aw : list await_pc) (c : option Z) (r : T + Exn) : list await_pc :=
  match c with
  | Some c => match aw !! Z.to_nat c with Some ASuspended => <[Z.to_nat c := AResumed r]> aw | _ => aw end
  | None => aw
  end.

Inductive await_step : AwaitSys -> AwaitSys -> Prop :=
  (** [run] on some thread: [start]. *)
  | ARun p aw o : await_step (mkAwait p false TNew aw o) (mkAwait p true TRunning aw o)
  (** [await_ready]: go on with the result, or suspend. *)
  | AReadyNow p st b aw i r o : aw !! i = Some ANew -> Awaiter_await_ready p = true -> takeResult p = Some r ->
      await_step (mkAwait p st b aw o) (mkAwait p st b (<[i := AResumed r]> aw) o)
  | AReadyNot p st b aw i o : aw !! i = Some ANew -> Awaiter_await_ready p = false ->
      await_step (mkAwait p st b aw o) (mkAwait p st b (<[i := ASuspending]> aw) o)
  (** [await_suspend]: the task is started, or left to whoever runs it. *)
  | ASuspendStep p p' st go b aw i o : aw !! i = Some ASuspending ->
      Awaiter_await_suspend p st (Z.of_nat i) = (p', true, go) ->
      await_step (mkAwait p st b aw o)
        (mkAwait p' true (if go : bool then TRunning else b) (<[i := ASuspended]> aw) o)
  (** The body and its end. *)
  | AReturn p st aw v o : await_step (mkAwait p st TRunning aw o) (mkAwait (return_value p v) st TFinal aw (Some (inl v)))
  | AThrow p st aw e o : await_step (mkAwait p st TRunning aw o) (mkAwait (unhandled_exception p e) st TFinal aw (Some (inr e)))
  | AComplete p st aw o : await_step (mkAwait p st TFinal aw o) (mkAwait (set_completed p) st TNotify aw o)
  | ANotify p st aw o : await_step (mkAwait p st TNotify aw o) (mkAwait p st TTransfer aw o)
  | ATransfer p st aw r o : takeResult p = Some r ->
      await_step (mkAwait p st TTransfer aw o) (mkAwait p st TEnd (transfer_to aw (continuation_ p) r) o).

(** ** Invariant *)

Definition task_over (b : task_pc) : bool := match b with TFinal | TNotify | TTransfer | TEnd => true | _ => false end.
Definition task_completed (b : task_pc) : bool := match b with TNotify | TTransfer | TEnd => true | _ => false end.

Record await_inv (s : AwaitSys) : Prop := {
  ai_outcome : if task_over (a_body s) then a_outcome s = takeResult (a_promise s) /\ is_Some (a_outcome s)
    else a_outcome s = None /\ value_ (a_promise s) = None /\ exception_ (a_promise s) = None;
  ai_completed : completed_ (a_promise s) = task_completed (a_body s);
  ai_started : a_started s = bool_decide (a_body s <> TNew);
  ai_resumed : forall i r, a_awaiters s !! i = Some (AResumed r) -> a_outcome s = Some r;
}.

Lemma await_inv_start n : await_inv (await_start n).
Proof. split; cbn; try done. intros i r Hi. apply lookup_replicate in Hi as [? _]. discriminate. Qed.

(** A new entry of the awaiters. *)
Lemma resumed_insert (aw : list await_pc) i x (o : option (T + Exn)) :
  (forall j r, aw !! j = Some (AResumed r) -> o = Some r) -> (forall r, x = AResumed r -> o = Some r) ->
  forall j r, <[i := x]> aw !! j = Some (AResumed r) -> o = Some r.
Proof.
  intros Ho Hx j r Hj. apply list_lookup_insert_Some in Hj as [(-> & Hr & _)|[_ Hj]]; eauto.
Qed.

Lemma await_inv_step s s' : await_inv s -> await_step s s' -> await_inv s'.
Proof.
  intros [Ho Hc Hst Hr] Hstep. destruct Hstep; cbn in *.
  - by split.
  - split; cbn; try done. apply resumed_insert; [done|]. intros r' [= <-].
    unfold Awaiter_await_ready in *. destruct b; cbn in *; try congruence; destruct Ho as [-> _]; done.
  - split; cbn; try done. by apply resumed_insert.
  - match goal with H : Awaiter_await_suspend _ _ _ = _ |- _ => injection H as <- <- end.
    destruct st; cbn.
    + split; cbn; try done. by apply resumed_insert.
    + symmetry in Hst. apply bool_decide_eq_false in Hst. destruct b; try (by destruct Hst).
      split; cbn in *; try done. by apply resumed_insert.
  - destruct Ho as (-> & Hv & He). split; cbn; try done. { unfold takeResult. cbn. by rewrite He. }
    intros i r Hi. by apply Hr in Hi.
  - destruct Ho as (-> & Hv & He). split; cbn; try done. intros i r Hi. by apply Hr in Hi.
  - split; cbn; done.
  - split; cbn; done.
  - split; cbn; try done. unfold transfer_to. destruct (continuation_ p) as [c|]; [|done].
    destruct (aw !! Z.to_nat c) as [[]|]; try done. apply resumed_insert; [done|]. intros r' [= <-]. by destruct Ho as [-> _].
Qed.

Lemma await_reachable_inv n s : rtc await_step (await_start n) s -> await_inv s.
Proof. revert s. apply (rtc_ind_r await_inv); [apply await_inv_start|]. eauto using await_inv_step. Qed.

(** Nothing more happens. *)
Definition at_end (s : AwaitSys) : Prop := forall s', ~ await_step s s'.

(** The body has ended, and awaiter [i] stays suspended for ever. *)
Definition lost (s : AwaitSys) (i : nat) : Prop := at_end s /\ a_body s = TEnd /\ a_awaiters s !! i = Some ASuspended.

End Awaiters.
Arguments await_pc T Exn : clear implicits.
Arguments AwaitSys T Exn : clear implicits.

(** C40: a task that has started may lose a coroutine that awaits it. What a coroutine gets
    is always the outcome of the body. But of two coroutines that await the task, the one
    whose continuation the other overwrites is never resumed; and one that awaits a task
    started by [run] is never resumed if the body reaches its end between [await_ready],
    which found it running, and [await_suspend], which leaves the continuation to nobody. *)
Theorem started_task_loses_awaiter :
  (forall n (s : AwaitSys Z Z) i r, rtc await_step (await_start n) s -> a_awaiters s !! i = Some (AResumed r) -> a_outcome s = Some r) /\
  (exists s : AwaitSys Z Z, rtc await_step (await_start 2) s /\ lost s 0 /\ a_awaiters s !! 1%nat = Some (AResumed (inl 7))) /\
  (exists s : AwaitSys Z Z, rtc await_step (await_start 1) s /\ lost s 0).
Proof.
  split; [|split].
  - intros n s i r Hs Hi. exact (ai_resumed _ (await_reachable_inv n s Hs) i r Hi).
  - eexists. split; [|split; [split; [|split]|]].
    + eapply rtc_l; [by eapply (AReadyNot _ _ _ _ 0)|]. eapply rtc_l; [by eapply (ASuspendStep _ _ _ _ _ _ 0)|].
      eapply rtc_l; [by eapply (AReadyNot _ _ _ _ 1)|]. eapply rtc_l; [by eapply (ASuspendStep _ _ _ _ _ _ 1)|].
      eapply rtc_l; [apply (AReturn _ _ _ 7)|]. eapply rtc_l; [apply AComplete|]. eapply rtc_l; [apply ANotify|].
      eapply rtc_l; [by eapply ATransfer|]. apply rtc_refl.
    + intros s' Hs. inversion Hs; subst; destruct i as [|[|i]]; discriminate.
    + reflexivity.
    + reflexivity.
    + reflexivity.
  - eexists. split; [|split; [|split]].
    + eapply rtc_l; [apply ARun|]. eapply rtc_l; [by eapply (AReadyNot _ _ _ _ 0)|].
      eapply rtc_l; [apply (AReturn _ _ _ 7)|]. eapply rtc_l; [apply AComplete|]. eapply rtc_l; [apply ANotify|].
      eapply rtc_l; [by eapply ATransfer|]. eapply rtc_l; [by eapply (ASuspendStep _ _ _ _ _ _ 0)|]. apply rtc_refl.
    + intros s' Hs. inversion Hs; subst; destruct i as [|i]; discriminate.
    + reflexivity.
    + reflexivity.
Qed.
