(* ===== verification/TaskOwner.v ===== *)
(** * Who owns a coroutine (include/storage_engine/task.h)

    A [Task] object owns the frame of its coroutine: it is constructed from the frame's
    handle, moved, and destroys the frame when it dies or is assigned over. This file
    models the special members on a heap of frames, next to the members that start the
    coroutine, for any number of task objects. *)

From S2P Require Import Prelude.

#[local] Set Warnings "-clear-no-such-hyp".

(** A [Task] object: the handle, 0 when empty, and whether the body was started. *)
Record TaskObj := mkTaskObj { handle_ : Z; started_ : bool }.

(** The objects by their storage, the frames that exist, and those whose body was
    started. *)
Record Tasks := mkTasks {
  ts_objs : gmap nat TaskObj;
  ts_live : gset Z;
  ts_begun : gset Z;
}.

Definition tasks0 : Tasks := mkTasks ∅ ∅ ∅.

(** [handle.destroy()] and the first [handle.resume()]; destroying a frame that does not
    exist and starting one that does not or was started are undefined. *)
Definition frame_destroy (s : Tasks) (h : Z) : option Tasks :=
  if bool_decide (h ∈ ts_live s)
  then Some (mkTasks (ts_objs s) (ts_live s ∖ {[h]}) (ts_begun s ∖ {[h]})) else None.

Definition frame_start (s : Tasks) (h : Z) : option Tasks :=
  if bool_decide (h ∈ ts_live s /\ h ∉ ts_begun s)
  then Some (mkTasks (ts_objs s) (ts_live s) ({[h]} ∪ ts_begun s)) else None.

Definition set_obj (s : Tasks) (t : nat) (ob : TaskObj) : Tasks :=
  mkTasks (<[t := ob]> (ts_objs s)) (ts_live s) (ts_begun s).

(** [std::exchange(handle_, {})] and [std::exchange(started_, false)]. *)
Definition take_obj (s : Tasks) (t : nat) : option (TaskObj * Tasks) :=
  ob ← ts_objs s !! t;
  Some (ob, set_obj s t (mkTaskObj 0 false)).

(** [get_return_object]: the frame is allocated and a task made of its handle. *)
Definition Task_make (s : Tasks) (t : nat) (h : Z) : option Tasks :=
  Some (mkTasks (<[t := mkTaskObj h false]> (ts_objs s)) ({[h]} ∪ ts_live s) (ts_begun s)).

Definition Task_move (s : Tasks) (t other : nat) : option Tasks :=
  '(ob, s) ← take_obj s other;
  Some (set_obj s t ob).

(** [if (handle_) handle_.destroy()] *)
Definition destroy_handle (s : Tasks) (t : nat) : option Tasks :=
  ob ← ts_objs s !! t;
  if handle_ ob =? 0 then Some s else frame_destroy s (handle_ ob).

Definition Task_assign (s : Tasks) (t other : nat) : option Tasks :=
  if (t =? other)%nat then Some s else
  s ← destroy_handle s t;
  '(ob, s) ← take_obj s other;
  Some (set_obj s t ob).

Definition Task_destroy (s : Tasks) (t : nat) : option Tasks :=
  s ← destroy_handle s t;
  Some (mkTasks (delete t (ts_objs s)) (ts_live s) (ts_begun s)).

(** [start], and the part of [Awaiter::await_suspend] that does the same. *)
Definition Task_start (s : Tasks) (t : nat) : option Tasks :=
  ob ← ts_objs s !! t;
  if started_ ob then Some s else
  frame_start (set_obj s t (mkTaskObj (handle_ ob) true)) (handle_ ob).

(** ** Programs

    What a program may do with task objects: C++ constructs an object where there is
    none and uses objects that exist, the allocator gives out frames that are not in
    use, and a task is started only while it has a coroutine. *)
Inductive task_op :=
  | OMake (t : nat) (h : Z)
  | OMove (t other : nat)
  | OAssign (t other : nat)
  | ODestroy (t : nat)
  | OStart (t : nat).

Definition has_obj (s : Tasks) (t : nat) : bool := bool_decide (is_Some (ts_objs s !! t)).

Definition allowed (s : Tasks) (o : task_op) : bool :=
  match o with
  | OMake t h => negb (has_obj s t) && negb (h =? 0) && bool_decide (h ∉ ts_live s)
  | OMove t other => negb (has_obj s t) && has_obj s other
  | OAssign t other => has_obj s t && has_obj s other
  | ODestroy t => has_obj s t
  | OStart t => match ts_objs s !! t with Some ob => negb (handle_ ob =? 0) | None => false end
  end.

Definition exec_op (s : Tasks) (o : task_op) : option Tasks :=
  match o with
  | OMake t h => Task_make s t h
  | OMove t other => Task_move s t other
  | OAssign t other => Task_assign s t other
  | ODestroy t => Task_destroy s t
  | OStart t => Task_start s t
  end.

(** A program; what the language does not let it do, it does not do. *)
Definition run_ops (s : Tasks) (os : list task_op) : option Tasks :=
  foldM (fun s o => if allowed s o then exec_op s o else Some s) s os.

(** ** Ownership *)

Definition owns (s : Tasks) (t : nat) (h : Z) : Prop :=
  exists ob, ts_objs s !! t = Some ob /\ handle_ ob = h /\ h <> 0.

Record owner_inv (s : Tasks) : Prop := {
  oi_live : forall h, h ∈ ts_live s <-> exists t, owns s t h;
  oi_once : forall t1 t2 h, owns s t1 h -> owns s t2 h -> t1 = t2;
  oi_begun : forall h, h ∈ ts_begun s <->
    exists t ob, ts_objs s !! t = Some ob /\ handle_ ob = h /\ h <> 0 /\ started_ ob = true;
}.

Lemma owns_insert s t ob t' h : owns (set_obj s t ob) t' h <->
  (t' = t /\ handle_ ob = h /\ h <> 0) \/ (t' <> t /\ owns s t' h).
Proof.
  unfold owns, set_obj. cbn. split.
  - intros (ob' & H & ?). apply lookup_insert_Some in H as [[<- <-]|[? H]]; [by left|right; eauto].
  - intros [(-> & ? & ?)|(? & ob' & ? & ?)]; [exists ob|exists ob']; by simplify_map_eq.
Qed.

(** The three ways a program changes who owns what: a frame gets its first owner, changes
    hands, or goes with its owner. *)
Lemma make_inv s t h : owner_inv s -> ts_objs s !! t = None -> h <> 0 -> h ∉ ts_live s ->
  owner_inv (mkTasks (<[t := mkTaskObj h false]> (ts_objs s)) ({[h]} ∪ ts_live s) (ts_begun s)).
Proof.
  intros [Hl Ho Hb] Ht Hh Hn.
  assert (forall t' h', owns (mkTasks (<[t := mkTaskObj h false]> (ts_objs s)) ({[h]} ∪ ts_live s) (ts_begun s)) t' h'
    <-> (t' = t /\ h' = h) \/ owns s t' h') as Hi.
  { intros t' h'. etransitivity; [apply (owns_insert s t (mkTaskObj h false))|]. cbn. split.
    - intros [(-> & <- & _)|[_ ?]]; auto.
    - intros [[-> ->]|H]; [by left|]. right. split; [|done]. intros ->.
      destruct H as (ob & H & _). congruence. }
  split; cbn.
  - intros h'. rewrite elem_of_union, elem_of_singleton, Hl. setoid_rewrite Hi. naive_solver.
  - intros t1 t2 h'. rewrite !Hi. intros [[-> ->]|H1] [[-> E]|H2]; try done; subst.
    + destruct Hn. apply Hl. eauto.
    + destruct Hn. apply Hl. eauto.
    + by apply (Ho t1 t2 h').
  - intros h'. rewrite Hb. split; intros (t' & ob & H & He & ?).
    + exists t', ob. split; [|done]. rewrite lookup_insert_ne; [done|]. congruence.
    + apply lookup_insert_Some in H as [[_ <-]|[_ H]]; [naive_solver|eauto].
Qed.

Lemma transfer_inv s t other ob : owner_inv s -> t <> other ->
  ts_objs s !! t = None -> ts_objs s !! other = Some ob ->
  owner_inv (set_obj (set_obj s other (mkTaskObj 0 false)) t ob).
Proof.
  intros [Hl Ho Hb] Hne Ht Hob.
  assert (forall t' h, owns (set_obj (set_obj s other (mkTaskObj 0 false)) t ob) t' h <->
    (t' = t /\ owns s other h) \/ (t' <> t /\ t' <> other /\ owns s t' h)) as Hi.
  { intros t' h. rewrite !owns_insert. cbn. unfold owns at 2. rewrite Hob. naive_solver. }
  split; cbn.
  - intros h. rewrite Hl. setoid_rewrite Hi. split.
    + intros [t' H]. destruct (decide (t' = other)) as [->|]; [eauto|]. exists t'. right.
      split; [|done]. intros ->. destruct H as (? & H & _). congruence.
    + intros [t' [[_ H]|(_ & _ & H)]]; eauto.
  - intros t1 t2 h. rewrite !Hi. intros [[-> H1]|(? & Hx & H1)] [[-> H2]|(? & Hy & H2)]; try done.
    + by destruct (Hy (Ho _ _ _ H2 H1)).
    + by destruct (Hx (Ho _ _ _ H1 H2)).
    + by apply (Ho t1 t2 h).
  - intros h. rewrite Hb. split; intros (t' & ob' & H & He).
    + destruct (decide (t' = other)) as [->|].
      * exists t, ob. rewrite lookup_insert_eq. split; [done|]. congruence.
      * exists t', ob'. rewrite !lookup_insert_ne by congruence. done.
    + apply lookup_insert_Some in H as [[_ <-]|[_ H]]; [eauto|].
      apply lookup_insert_Some in H as [[_ <-]|[_ H]]; [naive_solver|eauto].
Qed.

Lemma release_inv s t : owner_inv s -> has_obj s t = true ->
  exists s', destroy_handle s t = Some s' /\ ts_objs s' = ts_objs s /\
    owner_inv (mkTasks (delete t (ts_objs s)) (ts_live s') (ts_begun s')).
Proof.
  intros [Hl Ho Hb] Ht. apply bool_decide_eq_true in Ht as [ob Ht]. unfold destroy_handle. rewrite Ht.
  cbn [mbind option_bind].
  assert (forall l b t' h, owns (mkTasks (delete t (ts_objs s)) l b) t' h <-> t' <> t /\ owns s t' h) as Hi.
  { intros l b t' h. unfold owns. cbn. setoid_rewrite lookup_delete_Some. naive_solver. }
  destruct (Z.eqb_spec (handle_ ob) 0) as [Hz|Hz].
  - exists s. split; [done|]. split; [done|].
    assert (forall t' h, owns s t' h -> t' <> t) as Hnt by (intros t' h (? & ? & ? & ?) ->; congruence).
    split; cbn.
    + intros h. rewrite Hl. setoid_rewrite Hi. naive_solver.
    + intros t1 t2 h. rewrite !Hi. intros [_ ?] [_ ?]. by apply (Ho t1 t2 h).
    + intros h. rewrite Hb. setoid_rewrite lookup_delete_Some. naive_solver.
  - assert (owns s t (handle_ ob)) as Hot by (exists ob; auto).
    unfold frame_destroy. rewrite bool_decide_true by (apply Hl; eauto).
    eexists. split; [done|]. split; [done|]. split; cbn.
    + intros h. rewrite elem_of_difference, elem_of_singleton, Hl. setoid_rewrite Hi. split.
      * intros [[t' H] Hne]. exists t'. split; [|done]. intros ->. destruct H as (? & ? & ? & ?). congruence.
      * intros [t' [Hne H]]. split; [eauto|]. intros ->. by destruct (Hne (Ho _ _ _ H Hot)).
    + intros t1 t2 h. rewrite !Hi. intros [_ ?] [_ ?]. by apply (Ho t1 t2 h).
    + intros h. rewrite elem_of_difference, elem_of_singleton, Hb. setoid_rewrite lookup_delete_Some. split.
      * intros [(t' & ob' & H & ? & ?) Hne]. exists t', ob'. split; [|done]. split; [|done]. intros ->. congruence.
      * intros (t' & ob' & [Hne H] & He & Hn & Hst). split; [eauto 6|]. intros ->.
        apply Hne. symmetry. apply (Ho t' t (handle_ ob)); [exists ob'|]; auto.
Qed.

Lemma start_inv s t ob : owner_inv s -> ts_objs s !! t = Some ob -> handle_ ob <> 0 -> started_ ob = false ->
  exists s', frame_start (set_obj s t (mkTaskObj (handle_ ob) true)) (handle_ ob) = Some s' /\ owner_inv s'.
Proof.
  intros [Hl Ho Hb] Ht Hh Hst. assert (owns s t (handle_ ob)) as Hot by (exists ob; auto).
  assert (handle_ ob ∉ ts_begun s) as Hnb.
  { intros (t' & ob' & H & He & Hn & Hs)%Hb. assert (t' = t) as -> by (apply (Ho t' t (handle_ ob)); [exists ob'|]; auto).
    congruence. }
  unfold frame_start. cbn. rewrite bool_decide_true by (split; [apply Hl; eauto|done]).
  eexists. split; [done|].
  assert (forall l b t' h, owns (mkTasks (<[t := mkTaskObj (handle_ ob) true]> (ts_objs s)) l b) t' h <-> owns s t' h) as Hi.
  { intros l b t' h. etransitivity; [apply (owns_insert s t)|]. cbn. split.
    - intros [(-> & <- & _)|[_ ?]]; done.
    - intros H. destruct (decide (t' = t)) as [->|]; [left|by right]. destruct H as (ob' & ? & <- & ?).
      by replace ob' with ob by congruence. }
  split; cbn.
  - intros h. rewrite Hl. by setoid_rewrite Hi.
  - intros t1 t2 h. rewrite !Hi. apply Ho.
  - intros h. rewrite elem_of_union, elem_of_singleton, Hb. split.
    + intros [->|(t' & ob' & H & ?)].
      * exists t. eexists. by rewrite lookup_insert_eq.
      * exists t', ob'. rewrite lookup_insert_ne; [done|]. intros ->. intuition congruence.
    + intros (t' & ob' & H & He). apply lookup_insert_Some in H as [[_ <-]|[_ H]]; [left; naive_solver|right; eauto].
Qed.

Lemma has_obj_Some s t : has_obj s t = true -> exists ob, ts_objs s !! t = Some ob.
Proof. apply bool_decide_eq_true. Qed.

Lemma has_obj_None s t : has_obj s t = false -> ts_objs s !! t = None.
Proof. intros H%bool_decide_eq_false. by apply eq_None_not_Some. Qed.

Lemma assign_inv s t other : owner_inv s -> has_obj s t = true -> has_obj s other = true -> t <> other ->
  exists s', Task_assign s t other = Some s' /\ owner_inv s'.
Proof.
  intros Hi Ht Hot Hne. unfold Task_assign. destruct (Nat.eqb_spec t other); [done|].
  destruct (release_inv s t Hi Ht) as (s1 & -> & Hobjs & Hi1). apply has_obj_Some in Hot as [ob Hob].
  cbn [mbind option_bind]. unfold take_obj. rewrite Hobjs, Hob. cbn [mbind option_bind]. eexists. split; [done|].
  eapply (transfer_inv _ t other ob) in Hi1; [|done|cbn; apply lookup_delete_eq|cbn; by rewrite lookup_delete_ne].
  unfold set_obj in *. cbn in *. rewrite Hobjs. rewrite <- delete_insert_ne, insert_delete_eq in Hi1 by done. exact Hi1.
Qed.

Lemma exec_inv s o : owner_inv s -> allowed s o = true -> exists s', exec_op s o = Some s' /\ owner_inv s'.
Proof.
  intros Hi Ha. destruct o as [t h|t other|t other|t|t]; cbn in *.
  - destruct (has_obj s t) eqn:Ht; [done|]. destruct (Z.eqb_spec h 0); [done|]. apply bool_decide_eq_true in Ha.
    eexists. split; [done|]. apply make_inv; try done. by apply has_obj_None.
  - destruct (has_obj s t) eqn:Ht; [done|]. apply has_obj_None in Ht. apply has_obj_Some in Ha as [ob Hob].
    unfold Task_move, take_obj. rewrite Hob. cbn [mbind option_bind]. eexists. split; [done|].
    apply transfer_inv; try done. congruence.
  - apply andb_true_iff in Ha as [Ht Hot]. destruct (decide (t = other)) as [<-|Hne]; [|by apply assign_inv].
    unfold Task_assign. rewrite Nat.eqb_refl. eauto.
  - unfold Task_destroy. destruct (release_inv s t Hi Ha) as (s1 & -> & Hobjs & Hi1).
    cbn [mbind option_bind]. rewrite Hobjs. eauto.
  - unfold Task_start. destruct (ts_objs s !! t) as [ob|] eqn:Ht; [|done]. cbn [mbind option_bind].
    destruct (Z.eqb_spec (handle_ ob) 0); [done|]. destruct (started_ ob) eqn:Hst; [eauto|]. by apply start_inv.
Qed.

Lemma run_ops_inv os : forall s, owner_inv s -> exists s', run_ops s os = Some s' /\ owner_inv s'.
Proof.
  unfold run_ops. induction os as [|o os IH]; intros s Hi; cbn [foldM]; [eauto|].
  destruct (allowed s o) eqn:Ha; [|by apply IH].
  destruct (exec_inv s o Hi Ha) as (s1 & -> & Hi1). by apply IH.
Qed.

Lemma owner_inv0 : owner_inv tasks0.
Proof. split; cbn; unfold owns; cbn; intros; [set_solver|naive_solver|set_solver]. Qed.

(** C31: tasks own their coroutines. Whatever a program makes, moves, assigns, starts and
    destroys, no step is undefined: no frame is destroyed twice and none is started
    twice. At every point each frame belongs to exactly one task object, its [started_]
    flag says whether its body was started, wherever it was moved to, and moved-from
    tasks own nothing; so when the last object is gone no frame is left. *)
Theorem tasks_own_their_frames (os : list task_op) : exists s, run_ops tasks0 os = Some s /\
  (forall h, h ∈ ts_live s <-> exists t, owns s t h) /\
  (forall t1 t2 h, owns s t1 h -> owns s t2 h -> t1 = t2) /\
  (forall t ob, ts_objs s !! t = Some ob -> handle_ ob <> 0 -> started_ ob = true <-> handle_ ob ∈ ts_begun s) /\
  (ts_objs s = ∅ -> ts_live s = ∅).
Proof.
  destruct (run_ops_inv os tasks0 owner_inv0) as (s & E & [Hl Ho Hb]). exists s. split; [done|].
  split; [done|]. split; [done|]. split.
  - intros t ob Ht Hh. rewrite Hb. split; [eauto 6|]. intros (t' & ob' & H & He & Hn & Hst).
    assert (t' = t) as -> by (apply (Ho t' t (handle_ ob)); [exists ob'|exists ob]; auto). congruence.
  - intros He. apply set_eq. intros h. rewrite Hl. unfold owns. rewrite He. setoid_rewrite lookup_empty.
    set_solver.
Qed.
