(* ===== verification/TaskNest.v ===== *)
(** * Tasks that await tasks (include/storage_engine/task.h)

    A coroutine makes a task and awaits it, and the body of that task may do the same, as
    deep as one likes; nothing in them waits for another thread, so [run] carries the whole
    nest out on the caller's thread. A body is started by symmetric transfer from the
    [co_await] in its parent and, at its end, transfers back: the machine has a current
    coroutine and no stack. *)

From stdpp Require Import relations.
From S2P Require Import Prelude Task.

Section Nest.
Context {T Exn : Type}.

(** A body: [co_return], [throw], or a task made and awaited, whose value or exception
    the rest of the body gets. *)
Inductive body :=
  | Ret (v : T)
  | Raise (e : Exn)
  | Await (child : body) (k : T + Exn -> body).

(** What the same code without coroutines would return or throw. *)
Fixpoint denote (b : body) : T + Exn :=
  match b with
  | Ret v => inl v
  | Raise e => inr e
  | Await child k => denote (k (denote child))
  end.

(** The tasks it makes, itself included. *)
Fixpoint count_tasks (b : body) : Z :=
  match b with
  | Ret _ | Raise _ => 1
  | Await child k => count_tasks child + count_tasks (k (denote child))
  end.

(** Where a coroutine is: at its initial suspension; running; in the [co_await] of the
    task [child]; past its last statement, with its locals to be destroyed; in
    [final_suspend]; ended. *)
Inductive coro_pc :=
  | PNew (b : body)
  | PRunning (b : body)
  | PWaiting (child : Z) (k : T + Exn -> body)
  | PLeaving
  | PFinal
  | PDone.

(** A coroutine frame: the promise, and the tasks among the locals. *)
Record coro := mkCoro { co_promise : promise_type T Exn; co_pc : coro_pc; co_tasks : list Z }.

(** The frames, the next free handle, the coroutine that runs ([None]: control is back at
    the call of [resume]), and the coroutines that went through [final_suspend]. *)
Record NestSys := mkNest { n_frames : gmap Z coro; n_next : Z; n_cur : option Z; n_ended : list Z }.

Definition set_coro (s : NestSys) (h : Z) (f : coro) : NestSys :=
  mkNest (<[h := f]> (n_frames s)) (n_next s) (n_cur s) (n_ended s).

(** [~Task]: destroying the frame of a coroutine that has ended. [None]: there is no such
    frame, or it has not ended. *)
Definition destroy_coro (frames : gmap Z coro) (h : Z) : option (gmap Z coro) :=
  f ← frames !! h;
  match co_pc f with PDone => Some (delete h frames) | _ => None end.

Definition nest_step (s : NestSys) : option NestSys :=
  h ← n_cur s;
  f ← n_frames s !! h;
  let p := co_promise f in
  match co_pc f with
  | PNew b => Some (set_coro s h (mkCoro p (PRunning b) (co_tasks f)))
  | PRunning (Ret v) => Some (set_coro s h (mkCoro (return_value p v) PLeaving (co_tasks f)))
  | PRunning (Raise e) => Some (set_coro s h (mkCoro (unhandled_exception p e) PLeaving (co_tasks f)))
  | PRunning (Await child k) =>
      let c := n_next s in
      let started := false in
      if Awaiter_await_ready (promise_new : promise_type T Exn) then None else
      let '(p', _, go) := Awaiter_await_suspend promise_new started h in
      let frames := <[h := mkCoro p (PWaiting c k) (co_tasks f ++ [c])]> (n_frames s) in
      Some (mkNest (<[c := mkCoro p' (PNew child) []]> frames) (c + 1) (if go : bool then Some c else None) (n_ended s))
  | PWaiting c k =>
      child ← n_frames s !! c;
      r ← takeResult (co_promise child);
      Some (set_coro s h (mkCoro p (PRunning (k r)) (co_tasks f)))
  | PLeaving =>
      frames ← foldM destroy_coro (n_frames s) (rev (co_tasks f));
      Some (mkNest (<[h := mkCoro p PFinal []]> frames) (n_next s) (n_cur s) (n_ended s))
  | PFinal =>
      Some (mkNest (<[h := mkCoro (set_completed p) PDone []]> (n_frames s)) (n_next s) (continuation_ p) (n_ended s ++ [h]))
  | PDone => None
  end.

(** [handle_.resume()]: it returns when no coroutine is left to transfer to. *)
Fixpoint resume (fuel : nat) (s : NestSys) : option NestSys :=
  match n_cur s with
  | None => Some s
  | Some _ => match fuel with O => None | S fuel => s ← nest_step s; resume fuel s end
  end.

Definition nest_start (b : body) : NestSys := mkNest {[ 1 := mkCoro promise_new (PNew b) [] ]} 2 (Some 1) [].

(** A task for [b] is made, [run] and destroyed: the result, the frames that are left, the
    coroutines that ended. [wait] would not return if the promise were not completed. *)
Definition run_task (fuel : nat) (b : body) : option ((T + Exn) * gmap Z coro * list Z) :=
  s ← resume fuel (nest_start b);
  f ← n_frames s !! 1;
  if negb (completed_ (co_promise f)) then None else
  r ← takeResult (co_promise f);
  frames ← destroy_coro (n_frames s) 1;
  Some (r, frames, n_ended s).

(** ** The nest runs to its end *)

Definition goes (s s' : NestSys) : Prop := nest_step s = Some s'.

(** The frames without those of [cs]. *)
Definition without (cs : list Z) (F : gmap Z coro) : gmap Z coro := filter (fun p => p.1 ∉ cs) F.

Lemma lookup_without cs F i : without cs F !! i = if decide (i ∈ cs) then None else F !! i.
Proof.
  unfold without. destruct (decide (i ∈ cs)) as [Hi|Hi].
  - apply map_lookup_filter_None. right. intros x _ Hx. by apply Hx.
  - destruct (F !! i) as [x|] eqn:E; [by apply map_lookup_filter_Some|]. apply map_lookup_filter_None. by left.
Qed.

Definition task_ended (F : gmap Z coro) (c : Z) : Prop := exists f, F !! c = Some f /\ co_pc f = PDone.

(** The tasks among the locals, all of which have ended, are destroyed. *)
Lemma destroy_locals cs : forall F, NoDup cs -> Forall (task_ended F) cs ->
  foldM destroy_coro F (rev cs) = Some (without cs F).
Proof.
  induction cs as [|c cs IH] using rev_ind; intros F Hnd Hcs.
  - cbn. f_equal. apply map_eq. intros i. by rewrite lookup_without, decide_False by apply not_elem_of_nil.
  - apply NoDup_app in Hnd as (Hnd & Hc & _). apply Forall_app in Hcs as [Hcs Hl%Forall_inv]. destruct Hl as (f & Hf & Hd).
    rewrite rev_unit. cbn [foldM]. unfold destroy_coro at 1. rewrite Hf. cbn [mbind option_bind]. rewrite Hd, IH; [f_equal|done|].
    + apply map_eq. intros i. rewrite !lookup_without. destruct (decide (i = c)) as [->|Hne].
      * rewrite lookup_delete_eq, (decide_True (P := c ∈ cs ++ [c])); [by case_decide|].
        apply elem_of_app. right. by apply list_elem_of_singleton.
      * rewrite lookup_delete_ne by done. destruct (decide (i ∈ cs)) as [Hi|Hi]; [rewrite decide_True; [done|by apply elem_of_app; left]|].
        rewrite decide_False; [done|]. intros [?|?%list_elem_of_singleton]%elem_of_app; done.
    + apply Forall_forall. intros c' Hc'. rewrite Forall_forall in Hcs. destruct (Hcs c' Hc') as (f' & Hf' & Hd').
      exists f'. split; [|done]. rewrite lookup_delete_ne; [done|]. intros ->. apply (Hc c'); [done|]. by apply list_elem_of_singleton.
Qed.

(** Handles are given out in order. *)
Definition below (n : Z) (F : gmap Z coro) : Prop := forall i, is_Some (F !! i) -> i < n.

Lemma count_pos b : 1 <= count_tasks b.
Proof. induction b as [| |child IH k IHk]; cbn; [lia..|]. specialize (IHk (denote child)). lia. Qed.

(** After the last statement. *)
Lemma leaves F n h p cs en : F !! h = Some (mkCoro p PLeaving cs) -> NoDup cs -> Forall (task_ended F) cs ->
  rtc goes (mkNest F n (Some h) en)
    (mkNest (<[h := mkCoro (set_completed p) PDone []]> (without cs F)) n (continuation_ p) (en ++ [h])).
Proof.
  intros Hh Hnd Hcs. eapply rtc_l; [|eapply rtc_l; [|apply rtc_refl]].
  - unfold goes, nest_step. cbn [n_cur n_frames mbind option_bind]. rewrite Hh. cbn [mbind option_bind co_pc co_tasks].
    rewrite destroy_locals by done. reflexivity.
  - unfold goes, nest_step. cbn [n_cur n_frames mbind option_bind]. rewrite lookup_insert_eq.
    cbn [mbind option_bind co_pc co_promise n_next n_ended]. by rewrite insert_insert_eq.
Qed.

(** Whoever made them, the frames of a nest that has come back are those that were there. *)
Lemma nest_frames F h n f1 f2 f3 f3' f4 cs : F !! n = None -> h <> n -> h ∉ cs ->
  <[h := f4]> (without (cs ++ [n]) (<[h := f3]> (<[n := f2]> (without [] (<[n := f1]> (<[h := f3']> F))))))
  = <[h := f4]> (without cs F).
Proof.
  intros Hn Hne Hh. apply map_eq. intros i. destruct (decide (i = h)) as [->|Hi]; [by rewrite !lookup_insert_eq|].
  rewrite !lookup_insert_ne, !lookup_without by done. destruct (decide (i = n)) as [->|Hi'].
  - rewrite decide_True by (apply elem_of_app; right; by apply list_elem_of_singleton). rewrite Hn. by case_decide.
  - rewrite !lookup_insert_ne, lookup_without, !lookup_insert_ne by done. rewrite (decide_False (P := i ∈ [])) by apply not_elem_of_nil.
    destruct (decide (i ∈ cs)); [rewrite decide_True; [done|by apply elem_of_app; left]|].
    rewrite decide_False; [done|]. intros [?|?%list_elem_of_singleton]%elem_of_app; done.
Qed.

Lemma task_ended_other F h f cs : h ∉ cs -> Forall (task_ended F) cs -> Forall (task_ended (<[h := f]> F)) cs.
Proof.
  intros Hh. rewrite !Forall_forall. intros Hcs c Hc. destruct (Hcs c Hc) as (g & Hg & Hd). exists g. split; [|done].
  rewrite lookup_insert_ne; [done|]. by intros ->.
Qed.

Lemma without_other F h f g cs : <[h := f]> (without cs (<[h := g]> F)) = <[h := f]> (without cs F).
Proof.
  apply map_eq. intros i. destruct (decide (i = h)) as [->|Hi]; [by rewrite !lookup_insert_eq|].
  by rewrite !lookup_insert_ne, !lookup_without, lookup_insert_ne by done.
Qed.

(** The last statement and what follows it. *)
Lemma finishes F n h p cs en : h ∉ cs -> NoDup cs -> Forall (task_ended F) cs ->
  goes (mkNest F n (Some h) en) (mkNest (<[h := mkCoro p PLeaving cs]> F) n (Some h) en) ->
  rtc goes (mkNest F n (Some h) en)
    (mkNest (<[h := mkCoro (set_completed p) PDone []]> (without cs F)) n (continuation_ p) (en ++ [h])).
Proof.
  intros Hh Hnd Hcs Hs. eapply rtc_l; [exact Hs|]. rewrite <- (without_other F h _ (mkCoro p PLeaving cs)).
  apply leaves; [apply lookup_insert_eq|done|]. by apply task_ended_other.
Qed.

(** The coroutine [h] runs [b], with the tasks [cs] among its locals. *)
Record running_at (F : gmap Z coro) (n h : Z) (p : promise_type T Exn) (cs : list Z) (b : body) : Prop := {
  ra_frame : F !! h = Some (mkCoro p (PRunning b) cs);
  ra_value : value_ p = None;
  ra_exception : exception_ p = None;
  ra_below : below n F;
  ra_nodup : NoDup cs;
  ra_other : h ∉ cs;
  ra_ended : Forall (task_ended F) cs;
}.

(** It reaches its end and transfers to its continuation; by then every task made on the
    way has ended, once, and its frame is gone. *)
Definition comes_back (b : body) : Prop := forall F n h p cs en, running_at F n h p cs b ->
  exists p' l, rtc goes (mkNest F n (Some h) en)
      (mkNest (<[h := mkCoro p' PDone []]> (without cs F)) (n + count_tasks b - 1) (continuation_ p) (en ++ l)) /\
    takeResult p' = Some (denote b) /\ completed_ p' = true /\ l ≡ₚ h :: seqZ n (count_tasks b - 1).

(** Once the child runs; and once it has ended and the parent runs again. *)
Definition child_frames (F : gmap Z coro) (n h : Z) p cs child k : gmap Z coro :=
  <[n := mkCoro (set_continuation promise_new h) (PRunning child) []]> (<[h := mkCoro p (PWaiting n k) (cs ++ [n])]> F).

Definition parent_frames (F : gmap Z coro) (n h : Z) p cs p2 b : gmap Z coro :=
  <[h := mkCoro p (PRunning b) (cs ++ [n])]> (<[n := mkCoro p2 PDone []]> (without [] F)).

Lemma running_fresh F n h p cs b : running_at F n h p cs b -> F !! n = None /\ h < n /\ (n ∉ cs).
Proof.
  intros [Hh _ _ Hb _ _ Hcs]. assert (F !! n = None) as Hn by (apply eq_None_not_Some; intros Hs; specialize (Hb n Hs); lia).
  split; [done|]. split; [apply Hb; by rewrite Hh|]. intros Hc. rewrite Forall_forall in Hcs.
  destruct (Hcs n Hc) as (? & ? & _). congruence.
Qed.

Lemma child_running F n h p cs child k : running_at F n h p cs (Await child k) ->
  running_at (child_frames F n h p cs child k) (n + 1) n (set_continuation promise_new h) [] child.
Proof.
  intros Hr. destruct (running_fresh _ _ _ _ _ _ Hr) as (_ & Hlt & _). split; try done.
  - apply lookup_insert_eq.
  - intros i. unfold child_frames. rewrite !lookup_insert_is_Some. intros [->|[_ [->|[_ Hi%(ra_below _ _ _ _ _ _ Hr)]]]]; lia.
  - apply NoDup_nil_2.
  - apply not_elem_of_nil.
Qed.

Lemma parent_running F n h p cs child k p2 b n1 : running_at F n h p cs (Await child k) -> n < n1 ->
  running_at (parent_frames (child_frames F n h p cs child k) n h p cs p2 b) n1 h p (cs ++ [n]) b.
Proof.
  intros Hr Hlt1. destruct (running_fresh _ _ _ _ _ _ Hr) as (_ & Hlt & Hnc). destruct Hr as [_ Hv He Hb Hnd Hhc Hcs].
  set (F3 := parent_frames _ _ _ _ _ _ _). assert (forall i, i <> h -> i <> n -> F3 !! i = F !! i) as HF3.
  { intros i Hih Hin. unfold F3, parent_frames, child_frames. rewrite !lookup_insert_ne, lookup_without, !lookup_insert_ne by done.
    by rewrite decide_False by apply not_elem_of_nil. }
  split; try done.
  - apply lookup_insert_eq.
  - intros i. destruct (decide (i = h)) as [->|Hih]; [lia|]. destruct (decide (i = n)) as [->|Hin]; [lia|].
    rewrite HF3 by done. intros Hi%Hb. lia.
  - apply NoDup_app. split; [done|]. split; [|apply NoDup_singleton]. intros c Hc ->%list_elem_of_singleton. by apply Hnc.
  - intros [?| ->%list_elem_of_singleton]%elem_of_app; [done|lia].
  - apply Forall_app. split.
    + rewrite Forall_forall in Hcs |- *. intros c Hc. destruct (Hcs c Hc) as (f & Hf & Hd). exists f. split; [|done].
      rewrite HF3; [done|by intros ->..].
    + apply Forall_singleton. exists (mkCoro p2 PDone []). split; [|done].
      unfold F3, parent_frames. by rewrite lookup_insert_ne, lookup_insert_eq by lia.
Qed.

(** The [co_await]: to the child, and back with its result. *)
Lemma goes_to_child F n h p cs en child k : running_at F n h p cs (Await child k) ->
  rtc goes (mkNest F n (Some h) en) (mkNest (child_frames F n h p cs child k) (n + 1) (Some n) en).
Proof.
  intros [Hh _ _ _ _ _ _]. eapply rtc_l; [|eapply rtc_l; [|apply rtc_refl]].
  - unfold goes, nest_step. cbn. rewrite Hh. cbn. reflexivity.
  - unfold goes, nest_step. cbn. rewrite lookup_insert_eq. cbn. unfold set_coro, child_frames. cbn. by rewrite insert_insert_eq.
Qed.

Lemma goes_back F n h p cs en child k p2 n1 r : running_at F n h p cs (Await child k) -> takeResult p2 = Some r ->
  goes (mkNest (<[n := mkCoro p2 PDone []]> (without [] (child_frames F n h p cs child k))) n1 (Some h) en)
    (mkNest (parent_frames (child_frames F n h p cs child k) n h p cs p2 (k r)) n1 (Some h) en).
Proof.
  intros Hr Hp2. destruct (running_fresh _ _ _ _ _ _ Hr) as (_ & Hlt & _).
  assert (child_frames F n h p cs child k !! h = Some (mkCoro p (PWaiting n k) (cs ++ [n]))) as HFh
    by (unfold child_frames; by rewrite lookup_insert_ne, lookup_insert_eq by lia).
  unfold goes, nest_step. cbn [n_cur n_frames mbind option_bind].
  rewrite lookup_insert_ne, lookup_without, (decide_False (P := h ∈ [])) by (apply not_elem_of_nil || lia).
  rewrite HFh. cbn [mbind option_bind co_pc co_promise co_tasks].
  rewrite lookup_insert_eq. cbn [mbind option_bind co_promise]. by rewrite Hp2.
Qed.

Lemma body_comes_back b : comes_back b.
Proof.
  induction b as [v|e|child IH k IHk]; intros F n h p cs en Hr.
  - exists (set_completed (return_value p v)), [h]. cbn [count_tasks]. rewrite Z.add_simpl_r. destruct Hr as [Hh Hv He _ Hnd Hhc Hcs].
    split; [|unfold takeResult; cbn; by rewrite He].
    apply (finishes F n h (return_value p v)); [done..|]. unfold goes, nest_step. cbn. by rewrite Hh.
  - exists (set_completed (unhandled_exception p e)), [h]. cbn [count_tasks]. rewrite Z.add_simpl_r. destruct Hr as [Hh _ _ _ Hnd Hhc Hcs].
    split; [|done]. apply (finishes F n h (unhandled_exception p e)); [done..|]. unfold goes, nest_step. cbn. by rewrite Hh.
  - destruct (running_fresh _ _ _ _ _ _ Hr) as (Hn & Hlt & _). pose proof (count_pos child). pose proof (count_pos (k (denote child))).
    destruct (IH _ _ _ _ _ en (child_running _ _ _ _ _ _ _ Hr)) as (p2 & l1 & Hs1 & Hr1 & _ & Hl1).
    destruct (IHk (denote child) _ (n + 1 + count_tasks child - 1) h p (cs ++ [n]) (en ++ l1)
      (parent_running F n h p cs child k p2 (k (denote child)) (n + 1 + count_tasks child - 1) Hr ltac:(lia))) as (p3 & l2 & Hs2 & Hr2 & Hc2 & Hl2).
    exists p3, (l1 ++ l2). split; [|split; [done|split; [done|]]].
    + unfold parent_frames, child_frames in Hs2. rewrite nest_frames in Hs2 by (apply Hr || done || lia).
      replace (n + count_tasks (Await child k) - 1) with (n + 1 + count_tasks child - 1 + count_tasks (k (denote child)) - 1) by (cbn; lia).
      rewrite app_assoc. etransitivity; [by apply goes_to_child|]. etransitivity; [exact Hs1|].
      eapply rtc_l; [by apply (goes_back F n h p cs _ child k p2 _ (denote child))|]. exact Hs2.
    + rewrite Hl1, Hl2. cbn [count_tasks]. rewrite <- (Z.add_sub_assoc (count_tasks child)).
      rewrite seqZ_app, (seqZ_cons n (count_tasks child)) by lia.
      replace (Z.succ n) with (n + 1) by lia. replace (Z.pred (count_tasks child)) with (count_tasks child - 1) by lia.
      replace (n + 1 + count_tasks child - 1) with (n + count_tasks child) by lia. cbn [app].
      rewrite Permutation_swap. apply Permutation_skip. by rewrite <- Permutation_middle.
Qed.

Lemma resume_goes s s' : rtc goes s s' -> n_cur s' = None -> exists n, forall fuel, (n <= fuel)%nat -> resume fuel s = Some s'.
Proof.
  induction 1 as [s|s s1 s' Hs _ IH]; intros Hc.
  - exists 0%nat. intros [|fuel] _; cbn; by rewrite Hc.
  - destruct (IH Hc) as [n Hn]. exists (S n). intros [|fuel] Hf; [lia|]. cbn [resume].
    destruct (n_cur s) eqn:E; [|unfold goes, nest_step in Hs; by rewrite E in Hs]. rewrite Hs. apply Hn. lia.
Qed.

(** C32: tasks that await tasks run to their end on the caller's thread. Whatever a
    coroutine's body does, tasks made and awaited in it, to any depth and with exceptions
    thrown and caught, [run] returns, and returns or throws what the same code without
    coroutines would. Every task ended exactly once, no frame was used or destroyed after
    it was destroyed, and none is left. *)
Theorem nested_tasks_run_inline (b : body) : exists n l, NoDup l /\ l ≡ₚ seqZ 1 (count_tasks b) /\
  forall fuel, (n <= fuel)%nat -> run_task fuel b = Some (denote b, ∅, l).
Proof.
  destruct (body_comes_back b {[ 1 := mkCoro promise_new (PRunning b) [] ]} 2 1 promise_new [] []) as (p & l & Hs & Hr & Hc & Hl).
  { split; try done; [|apply NoDup_nil_2|apply not_elem_of_nil]. intros i [? Hi]. apply lookup_singleton_Some in Hi as [<- _]. lia. }
  pose proof (count_pos b). assert (l ≡ₚ seqZ 1 (count_tasks b)) as Hl'.
  { rewrite Hl, (seqZ_cons 1 (count_tasks b)) by lia. by replace (Z.pred (count_tasks b)) with (count_tasks b - 1) by lia. }
  edestruct (resume_goes (nest_start b)) as [n Hn]; [eapply rtc_l; [|exact Hs]|done|].
  { reflexivity. }
  exists n, l. split; [rewrite Hl'; apply NoDup_seqZ|]. split; [done|]. intros fuel Hf. unfold run_task. rewrite Hn by done.
  cbn [mbind option_bind n_frames n_ended app]. rewrite lookup_insert_eq. cbn [mbind option_bind co_promise]. rewrite Hc, Hr.
  cbn [negb mbind option_bind]. unfold destroy_coro. rewrite lookup_insert_eq. reflexivity.
Qed.

End Nest.
