(* ===== verification/Status.v ===== *)
(** * Status and Result (include/storage_engine/status.h, src/common.cc)

    The error values every component returns. *)

From S2P Require Import Prelude.

Inductive StatusCode :=
  | kOk
  | kNotFound
  | kInvalidArgument
  | kIoError
  | kCorruption.

#[global] Instance StatusCode_eq_dec : EqDecision StatusCode.
Proof. solve_decision. Defined.

Record StatusT := mkStatus { code_ : StatusCode; message_ : string }.

#[global] Instance StatusT_eq_dec : EqDecision StatusT.
Proof. solve_decision. Defined.

Module Status.

Definition Ok : StatusT := mkStatus kOk "".
Definition NotFound (message : string) : StatusT := mkStatus kNotFound message.
Definition InvalidArgument (message : string) : StatusT := mkStatus kInvalidArgument message.
Definition IoError (message : string) : StatusT := mkStatus kIoError message.
Definition Corruption (message : string) : StatusT := mkStatus kCorruption message.

Definition ok (s : StatusT) : bool := bool_decide (code_ s = kOk).
Definition code (s : StatusT) : StatusCode := code_ s.
Definition message (s : StatusT) : string := message_ s.

End Status.

(** [Result<T>]: the flag [ok_] selects the member that is meant, so the class is a
    tagged union. *)
Inductive Result (T : Type) :=
  | RValue (value : T)
  | RStatus (status : StatusT).
Arguments RValue {T} value.
Arguments RStatus {T} status.

Definition result_ok {T} (r : Result T) : bool :=
  match r with RValue _ => true | RStatus _ => false end.

(** [value()] and [error()] assert the flag: [None] is the failed assertion. *)
Definition result_value {T} (r : Result T) : option T :=
  match r with RValue v => Some v | RStatus _ => None end.

Definition result_error {T} (r : Result T) : option StatusT :=
  match r with RValue _ => None | RStatus s => Some s end.

(** The constructor from a [Status] asserts that the status is an error. *)
Definition result_wf {T} (r : Result T) : Prop :=
  match r with RValue _ => True | RStatus s => Status.ok s = false end.

(** The class itself: all three members are there, whichever is meant. [blank] is the value
    [T{}]; [ndebug] a build without assertions. *)
Module ResultClass.

Record obj (T : Type) := mkObj { ok_ : bool; value_ : T; status_ : StatusT }.
Arguments mkObj {T} ok_ value_ status_.
Arguments ok_ {T} o.
Arguments value_ {T} o.
Arguments status_ {T} o.

Definition of_value {T} (value : T) : obj T := mkObj true value Status.Ok.

(** [None]: the assertion in the constructor fails. *)
Definition of_status {T} (ndebug : bool) (blank : T) (status : StatusT) : option (obj T) :=
  if negb ndebug && Status.ok status then None else Some (mkObj false blank status).

Definition is_ok {T} (r : obj T) : bool := ok_ r.
Definition value {T} (ndebug : bool) (r : obj T) : option T := if negb ndebug && negb (ok_ r) then None else Some (value_ r).
Definition error {T} (ndebug : bool) (r : obj T) : option StatusT := if negb ndebug && ok_ r then None else Some (status_ r).

End ResultClass.

Definition errnoMessage `{Libc} (operation : string) (errno : Z) : string :=
  String.app operation (String.app ": " (strerror errno)).

(** ** Lemmas *)

Lemma status_ok_iff s : Status.ok s = true <-> code_ s = kOk.
Proof. unfold Status.ok. by rewrite bool_decide_eq_true. Qed.

Lemma IoError_not_ok m : Status.ok (Status.IoError m) = false.
Proof. done. Qed.

Lemma Corruption_not_ok m : Status.ok (Status.Corruption m) = false.
Proof. done. Qed.

#[export] Hint Resolve IoError_not_ok Corruption_not_ok : se.

(** What an object stands for, and that the class behaves as the union does: with assertions
    its members return the same, and without them a wrong use returns the blank value or OK. *)
Definition result_of {T} (r : ResultClass.obj T) : Result T :=
  if ResultClass.ok_ r then RValue (ResultClass.value_ r) else RStatus (ResultClass.status_ r).

Lemma result_class_refines {T} (blank : T) (r : Result T) : result_wf r ->
  exists x, (match r with
             | RValue v => x = ResultClass.of_value v
             | RStatus s => forall ndebug, ResultClass.of_status ndebug blank s = Some x
             end) /\ result_of x = r /\ ResultClass.is_ok x = result_ok r /\
    ResultClass.value false x = result_value r /\ ResultClass.error false x = result_error r /\
    ResultClass.value true x = Some (default blank (result_value r)) /\
    ResultClass.error true x = Some (default Status.Ok (result_error r)).
Proof.
  destruct r as [v|s]; intros Hwf.
  - exists (ResultClass.of_value v). done.
  - exists (ResultClass.mkObj false blank s). cbn in Hwf. unfold ResultClass.of_status. rewrite Hwf.
    split; [by intros []|done].
Qed.
