(* ===== verification/Coding.v ===== *)
(** * Fixed-width little-endian coding (src/common.h)

    [appendFixed*LE], [writeFixed*LE] and [readFixed*LE] as loops over the byte index,
    and the reference functions [le_bytes] and [le_val] they are proved equal to. *)

From S2P Require Import Prelude.

(** ** The source's loops *)

(** [(value >> (i * 8)) & 0xff] as a [std::byte]. *)
Definition byte_of_word (value : Z) (i : Z) : byte :=
  z2b (Z.land (Z.shiftr value (i * 8)) 255).

(** The loop [for (int i = 0; i < n; ++i)]. *)
Definition loop_range (n : nat) : list Z := Z.of_nat <$> seq 0 n.

Definition appendFixedLE (n : nat) (out : bytes) (value : Z) : bytes :=
  fold_left (fun out i => out ++ [byte_of_word value i]) (loop_range n) out.

Definition appendFixed32LE : bytes -> Z -> bytes := appendFixedLE 4.
Definition appendFixed64LE : bytes -> Z -> bytes := appendFixedLE 8.

Definition writeFixedLE (n : nat) (out : bytes) (offset : Z) (value : Z) : option bytes :=
  foldM (fun out i => vec_set out (u64 (offset + i)) (byte_of_word value i)) out (loop_range n).

Definition writeFixed32LE : bytes -> Z -> Z -> option bytes := writeFixedLE 4.
Definition writeFixed64LE : bytes -> Z -> Z -> option bytes := writeFixedLE 8.

(** The outer [option] is definedness; the inner one the returned [bool], with the new
    [value] and [offset] when it is true. *)
Definition readFixedLE (n : nat) (wrap : Z -> Z) (bs : bytes) (offset : Z)
    : option (option (Z * Z)) :=
  if u64 (offset + Z.of_nat n) >? zlen bs then Some None
  else
    value ← foldM (fun value i =>
        b ← vec_get bs (u64 (offset + i));
        Some (Z.lor value (wrap (Z.shiftl (b2z b) (i * 8))))) 0 (loop_range n);
    Some (Some (value, u64 (offset + Z.of_nat n))).

Definition readFixed32LE : bytes -> Z -> option (option (Z * Z)) := readFixedLE 4 u32.
Definition readFixed64LE : bytes -> Z -> option (option (Z * Z)) := readFixedLE 8 u64.

(** ** Reference functions *)

Fixpoint le_bytes (n : nat) (v : Z) : bytes :=
  match n with
  | O => []
  | S n => z2b v :: le_bytes n (v / 256)
  end.

Fixpoint le_val (bs : bytes) : Z :=
  match bs with
  | [] => 0
  | b :: bs => b2z b + 256 * le_val bs
  end.

Lemma length_le_bytes n v : length (le_bytes n v) = n.
Proof. revert v. induction n; intros v; simpl; auto. Qed.
#[export] Hint Rewrite length_le_bytes : len.

Lemma le_val_range bs : 0 <= le_val bs < 256 ^ zlen bs.
Proof.
  induction bs as [|b bs IH]; simpl; [lia|].
  pose proof (b2z_range b).
  rewrite Nat2Z.inj_succ, Z.pow_succ_r by lia. lia.
Qed.

Lemma le_val_le_bytes n v : le_val (le_bytes n v) = v mod 256 ^ Z.of_nat n.
Proof.
  revert v. induction n as [|n IH]; intros v; simpl le_bytes; simpl le_val.
  - by rewrite Z.mod_1_r.
  - rewrite IH, b2z_z2b, Nat2Z.inj_succ, Z.pow_succ_r by lia.
    rewrite Z.rem_mul_r by lia. lia.
Qed.

Lemma le_bytes_le_val bs : le_bytes (length bs) (le_val bs) = bs.
Proof.
  induction bs as [|b bs IH]; simpl; [done|]. pose proof (b2z_range b).
  f_equal.
  - apply b2z_inj. rewrite b2z_z2b, Z.mul_comm, Z.mod_add by lia.
    by apply Z.mod_small.
  - rewrite Z.mul_comm, Z.div_add, Z.div_small, Z.add_0_l by lia. done.
Qed.

Lemma le_val_word32 v : 0 <= v < 2 ^ 32 -> le_val (le_bytes 4 v) = v.
Proof. intros. rewrite le_val_le_bytes. by apply Z.mod_small. Qed.

Lemma le_val_word64 v : le_val (le_bytes 8 v) = u64 v.
Proof. apply le_val_le_bytes. Qed.

(** ** The loops compute the reference functions *)

Lemma byte_of_word_0 v : byte_of_word v 0 = z2b v.
Proof.
  unfold byte_of_word. rewrite Z.mul_0_l, Z.shiftr_0_r.
  change 255 with (Z.ones 8). rewrite Z.land_ones by lia.
  apply b2z_inj. rewrite !b2z_z2b. change (2 ^ 8) with 256. apply Z.mod_mod. lia.
Qed.

Lemma byte_of_word_succ v i : 0 <= i -> byte_of_word v (Z.succ i) = byte_of_word (v / 256) i.
Proof.
  intros Hi. unfold byte_of_word.
  change 256 with (2 ^ 8). rewrite <- (Z.shiftr_div_pow2 v 8) by lia.
  rewrite Z.shiftr_shiftr by lia. do 3 f_equal. lia.
Qed.

Lemma le_bytes_words n v : le_bytes n v = byte_of_word v <$> loop_range n.
Proof.
  unfold loop_range. revert v. induction n as [|n IH]; intros v; [done|].
  cbn [le_bytes seq fmap list_fmap]. rewrite <- fmap_S_seq.
  change (Z.of_nat 0) with 0. rewrite byte_of_word_0, IH. f_equal.
  rewrite <- !list_fmap_compose. apply list_fmap_ext. intros _ i _. simpl.
  rewrite Nat2Z.inj_succ, byte_of_word_succ by lia. done.
Qed.

Lemma appendFixedLE_spec n out v : appendFixedLE n out v = out ++ le_bytes n v.
Proof.
  unfold appendFixedLE. rewrite le_bytes_words. generalize (loop_range n). intros l.
  revert out. induction l as [|i l IH]; intros out; simpl; [by rewrite app_nil_r|].
  rewrite IH, <- app_assoc. done.
Qed.

Lemma loop_range_S n : loop_range (S n) = loop_range n ++ [Z.of_nat n].
Proof. unfold loop_range. rewrite seq_S, fmap_app. done. Qed.

Lemma writeFixedLE_loop n pre mid post v :
  length mid = n -> zlen pre + Z.of_nat n < 2 ^ 64 ->
  writeFixedLE n (pre ++ mid ++ post) (zlen pre) v = Some (pre ++ le_bytes n v ++ post).
Proof.
  unfold writeFixedLE. rewrite le_bytes_words. revert mid post.
  induction n as [|n IH]; intros mid post Hm Hb; [by destruct mid|].
  destruct mid as [|x mid] using rev_ind; [done|]. clear IHmid.
  rewrite length_app in Hm. simpl in Hm.
  rewrite loop_range_S, foldM_app, <- app_assoc, IH by lia. simpl.
  rewrite u64_small by lia. rewrite fmap_app, <- !app_assoc. simpl.
  replace (zlen pre + Z.of_nat n) with (zlen (pre ++ (byte_of_word v <$> loop_range n))).
  - by rewrite app_assoc, vec_set_middle, <- app_assoc.
  - unfold loop_range. len.
Qed.

Lemma le_val_app bs cs : le_val (bs ++ cs) = le_val bs + 256 ^ zlen bs * le_val cs.
Proof.
  induction bs as [|b bs IH]; simpl; [lia|].
  rewrite IH, Nat2Z.inj_succ, Z.pow_succ_r by lia. lia.
Qed.

(** Bytes land in disjoint bit positions, so [|=] is addition. *)
Lemma lor_disjoint a b k : 0 <= k -> 0 <= a < 2 ^ k -> 0 <= b ->
  Z.lor a (Z.shiftl b k) = a + 2 ^ k * b.
Proof.
  intros Hk Ha Hb. rewrite Z.shiftl_mul_pow2 by lia.
  pose proof (Z.add_lor_land a (b * 2 ^ k)) as E.
  enough (Z.land a (b * 2 ^ k) = 0) by lia. clear E.
  apply Z.bits_inj'. intros i Hi. rewrite Z.land_spec, Z.bits_0.
  destruct (decide (i < k)).
  - rewrite Z.mul_pow2_bits_low by lia. apply andb_false_r.
  - destruct (decide (a = 0)) as [->|]; [by rewrite Z.bits_0|].
    rewrite Z.bits_above_log2; [done|lia|].
    apply Z.log2_lt_pow2; [lia|]. apply Z.lt_le_trans with (2 ^ k); [lia|].
    apply Z.pow_le_mono_r; lia.
Qed.

Lemma readFixedLE_loop n wrap pre mid post :
  (forall z, 0 <= z < 256 ^ Z.of_nat n -> wrap z = z) ->
  length mid = n -> zlen pre + zlen mid + zlen post < 2 ^ 64 ->
  readFixedLE n wrap (pre ++ mid ++ post) (zlen pre)
    = Some (Some (le_val mid, zlen pre + Z.of_nat n)).
Proof.
  intros Hw <- Hb. unfold readFixedLE. rewrite u64_small by lia. zb; [len|].
  enough (forall k j, mid = k ++ j ->
    foldM (fun value i => b ← vec_get (pre ++ mid ++ post) (u64 (zlen pre + i));
      Some (Z.lor value (wrap (Z.shiftl (b2z b) (i * 8))))) 0 (loop_range (length k))
    = Some (le_val k)) as E.
  { rewrite (E mid []) by (by rewrite app_nil_r). done. }
  intros k. induction k as [|b k IH] using rev_ind; intros j Hk; [done|].
  rewrite length_app. simpl. rewrite Nat.add_1_r, loop_range_S, foldM_app.
  rewrite (IH (b :: j)) by (by rewrite Hk, <- app_assoc). simpl.
  assert (zlen mid = zlen k + 1 + zlen j) as Hl by (subst; len).
  rewrite u64_small by lia. rewrite Hk, vec_get_app_r by lia.
  replace (vec_get _ (zlen k)) with (Some b); simpl.
  - rewrite Hw, lor_disjoint, le_val_app.
    all: replace (2 ^ (zlen k * 8)) with (256 ^ zlen k)
      by (change 256 with (2 ^ 8); rewrite <- Z.pow_mul_r by lia; f_equal; lia).
    all: try pose proof (b2z_range b); try pose proof (le_val_range k); try lia.
    + simpl. f_equal. lia.
    + rewrite Z.shiftl_mul_pow2 by lia.
      replace (2 ^ (zlen k * 8)) with (256 ^ zlen k)
        by (change 256 with (2 ^ 8); rewrite <- Z.pow_mul_r by lia; f_equal; lia).
      rewrite Hl, !Z.pow_add_r by lia.
      assert (1 <= 256 ^ zlen j) by (apply (Z.pow_le_mono_r 256 0); lia). nia.
  - rewrite <- !app_assoc. symmetry. apply vec_get_middle.
Qed.

(** Both widths, with the offset as an equation so that [rewrite] finds it. *)

Lemma readFixed32LE_at pre mid post off :
  off = zlen pre -> length mid = 4%nat -> zlen (pre ++ mid ++ post) < 2 ^ 64 ->
  readFixed32LE (pre ++ mid ++ post) off = Some (Some (le_val mid, off + 4)).
Proof.
  intros -> Hm Hb. unfold readFixed32LE. rewrite readFixedLE_loop; [done| |done|len].
  intros z Hz. apply u32_small. done.
Qed.

Lemma readFixed64LE_at pre mid post off :
  off = zlen pre -> length mid = 8%nat -> zlen (pre ++ mid ++ post) < 2 ^ 64 ->
  readFixed64LE (pre ++ mid ++ post) off = Some (Some (le_val mid, off + 8)).
Proof.
  intros -> Hm Hb. unfold readFixed64LE. rewrite readFixedLE_loop; [done| |done|len].
  intros z Hz. apply u64_small. done.
Qed.

Lemma readFixedLE_short n wrap bs off :
  0 <= off -> off + Z.of_nat n < 2 ^ 64 -> zlen bs < off + Z.of_nat n ->
  readFixedLE n wrap bs off = Some None.
Proof. intros. unfold readFixedLE. rewrite u64_small by lia. zb; [done|lia]. Qed.

Lemma readFixed32LE_short bs off :
  0 <= off -> off + 4 < 2 ^ 64 -> zlen bs < off + 4 -> readFixed32LE bs off = Some None.
Proof. apply (readFixedLE_short 4 u32). Qed.

Lemma readFixed64LE_short bs off :
  0 <= off -> off + 8 < 2 ^ 64 -> zlen bs < off + 8 -> readFixed64LE bs off = Some None.
Proof. apply (readFixedLE_short 8 u64). Qed.

(** A read at an offset inside the buffer is defined: it fails short, or returns the
    word at the offset, within its width, and moves the offset past it. *)
Lemma readFixed32LE_cases bs off :
  0 <= off <= zlen bs -> zlen bs < 2 ^ 63 ->
  (zlen bs < off + 4 /\ readFixed32LE bs off = Some None) \/
  (off + 4 <= zlen bs /\ exists v, 0 <= v < 2 ^ 32 /\
     readFixed32LE bs off = Some (Some (v, off + 4))).
Proof.
  intros Ho Hb. destruct (decide (zlen bs < off + 4)); [left|right].
  - split; [done|]. apply readFixed32LE_short; lia.
  - split; [lia|].
    destruct (split_at bs (Z.to_nat off)) as (pre & r & -> & Hp); [lia|].
    destruct (split_at r 4) as (mid & post & -> & Hm); [len|].
    exists (le_val mid). split.
    + pose proof (le_val_range mid). rewrite Hm in *. done.
    + apply readFixed32LE_at; [lia|done|lia].
Qed.

Lemma readFixed64LE_cases bs off :
  0 <= off <= zlen bs -> zlen bs < 2 ^ 63 ->
  (zlen bs < off + 8 /\ readFixed64LE bs off = Some None) \/
  (off + 8 <= zlen bs /\ exists v, 0 <= v < 2 ^ 64 /\
     readFixed64LE bs off = Some (Some (v, off + 8))).
Proof.
  intros Ho Hb. destruct (decide (zlen bs < off + 8)); [left|right].
  - split; [done|]. apply readFixed64LE_short; lia.
  - split; [lia|].
    destruct (split_at bs (Z.to_nat off)) as (pre & r & -> & Hp); [lia|].
    destruct (split_at r 8) as (mid & post & -> & Hm); [len|].
    exists (le_val mid). split.
    + pose proof (le_val_range mid). rewrite Hm in *. done.
    + apply readFixed64LE_at; [lia|done|lia].
Qed.

Lemma writeFixed32LE_at pre mid post off v :
  off = zlen pre -> length mid = 4%nat -> zlen pre + 4 < 2 ^ 64 ->
  writeFixed32LE (pre ++ mid ++ post) off v = Some (pre ++ le_bytes 4 v ++ post).
Proof. intros ->. apply (writeFixedLE_loop 4). Qed.

Lemma writeFixed64LE_at pre mid post off v :
  off = zlen pre -> length mid = 8%nat -> zlen pre + 8 < 2 ^ 64 ->
  writeFixed64LE (pre ++ mid ++ post) off v = Some (pre ++ le_bytes 8 v ++ post).
Proof. intros ->. apply (writeFixedLE_loop 8). Qed.

