(* ===== verification/Crc32c.v ===== *)
(** * CRC-32C (src/wal.cc, the checksum routines)

    The table-driven software routine, the SSE4.2 routine, and [Crc32C], which picks
    one of them. The processor's CRC32 instruction is not code of the repository: the
    three intrinsics are parameters, and their documented meaning (the remainder of a
    division of polynomials over GF(2), on bit-reflected operands) is [crc32_insn]. *)

From S2P Require Import Prelude Coding.

(** ** The source *)

(** One round of the inner loop of [makeCrc32cTable]. *)
Definition crc32cTableBit (crc : Z) : Z :=
  let mask := u32 (0 - Z.land crc 1) in
  Z.lxor (Z.shiftr crc 1) (Z.land 0x82f63b78 mask).

Definition makeCrc32cTable : list Z :=
  (fun i => Nat.iter 8 crc32cTableBit i) <$> loop_range 256.

(** [constexpr]: evaluated when the program is compiled. *)
Definition kCrc32cTable : list Z := Eval vm_compute in makeCrc32cTable.

Definition crc32cIndex (crc : Z) (b : byte) : Z := Z.land (Z.lxor crc (b2z b)) 255.

Definition extendCrc32cSoftware (crc : Z) (bs : bytes) : Z :=
  fold_left (fun crc b =>
    Z.lxor (Z.shiftr crc 8) (nth (Z.to_nat (crc32cIndex crc b)) kCrc32cTable 0)) bs crc.

(** The intrinsics of <nmmintrin.h>, and the target: [cpu_x86_64] is the
    preprocessor's choice, [cpu_sse42] what [__builtin_cpu_supports] answers. *)
Class Cpu := {
  mm_crc32_u8 : Z -> Z -> Z;
  mm_crc32_u32 : Z -> Z -> Z;
  mm_crc32_u64 : Z -> Z -> Z;
  cpu_x86 : bool;
  cpu_x86_64 : bool;
  cpu_sse42 : bool;
}.

Section Hardware.
Context {C : Cpu}.

(** [std::memcpy] of a word from a little-endian machine's memory is [le_val]. *)
Fixpoint hardwareLoop64 (crc : Z) (data : bytes) : Z * bytes :=
  match data with
  | b0 :: b1 :: b2 :: b3 :: b4 :: b5 :: b6 :: b7 :: rest =>
      hardwareLoop64 (u32 (mm_crc32_u64 crc (le_val [b0; b1; b2; b3; b4; b5; b6; b7]))) rest
  | _ => (crc, data)
  end.

Fixpoint hardwareLoop32 (crc : Z) (data : bytes) : Z * bytes :=
  match data with
  | b0 :: b1 :: b2 :: b3 :: rest =>
      hardwareLoop32 (mm_crc32_u32 crc (le_val [b0; b1; b2; b3])) rest
  | _ => (crc, data)
  end.

Fixpoint hardwareLoop8 (crc : Z) (data : bytes) : Z :=
  match data with
  | b :: rest => hardwareLoop8 (mm_crc32_u8 crc (b2z b)) rest
  | [] => crc
  end.

Definition extendCrc32cHardware (crc : Z) (bs : bytes) : Z :=
  let '(crc, data) := if cpu_x86_64 then hardwareLoop64 crc bs else (crc, bs) in
  let '(crc, data) := hardwareLoop32 crc data in
  hardwareLoop8 crc data.

Definition hasHardwareCrc32c : bool := cpu_sse42.

Definition Crc32C (bs : bytes) : Z :=
  let crc := 0xffffffff in
  if cpu_x86 && hasHardwareCrc32c then u32 (Z.lnot (extendCrc32cHardware crc bs))
  else u32 (Z.lnot (extendCrc32cSoftware crc bs)).

End Hardware.

(** ** The documented instruction

    From the architecture manual: both operands bit-reflected, the source shifted up
    by 32 and the destination by the source's width, added, reduced modulo the
    polynomial 11EDC6F41H, and the remainder reflected back. *)

Fixpoint reflect (n : nat) (x : Z) : Z :=
  match n with
  | O => 0
  | S n => Z.lor (Z.shiftl (Z.b2z (Z.odd x)) (Z.of_nat n)) (reflect n (Z.shiftr x 1))
  end.

(** Long division of a polynomial of degree below [32 + n] by [p] of degree 32. *)
Fixpoint poly_mod (n : nat) (x p : Z) : Z :=
  match n with
  | O => x
  | S n => poly_mod n (if Z.testbit x (32 + Z.of_nat n)
                       then Z.lxor x (Z.shiftl p (Z.of_nat n)) else x) p
  end.

Definition crc32_insn (w : nat) (dest src : Z) : Z :=
  reflect 32 (poly_mod w (Z.lxor (Z.shiftl (reflect w src) 32)
                                 (Z.shiftl (reflect 32 dest) (Z.of_nat w))) 0x11EDC6F41).

(** What the routine relies on: each intrinsic is the documented instruction on
    operands of its width. *)
Class CpuSpec (C : Cpu) : Prop := {
  mm_crc32_u8_spec : forall crc v, 0 <= crc < 2 ^ 32 -> 0 <= v < 2 ^ 8 ->
    mm_crc32_u8 crc v = crc32_insn 8 crc v;
  mm_crc32_u32_spec : forall crc v, 0 <= crc < 2 ^ 32 -> 0 <= v < 2 ^ 32 ->
    mm_crc32_u32 crc v = crc32_insn 32 crc v;
  mm_crc32_u64_spec : forall crc v, 0 <= crc < 2 ^ 32 -> 0 <= v < 2 ^ 64 ->
    mm_crc32_u64 crc v = crc32_insn 64 crc v;
}.

(** ** The shift register

    The bit-serial register both routines implement. *)

Definition lfsr (x : Z) : Z := Z.lxor (Z.shiftr x 1) (if Z.odd x then 0x82f63b78 else 0).

Lemma crc32cTableBit_lfsr x : crc32cTableBit x = lfsr x.
Proof.
  unfold crc32cTableBit, lfsr. change 1 with (Z.ones 1) at 2.
  rewrite Z.land_ones, Zmod_odd by lia. by destruct (Z.odd x).
Qed.

Lemma lfsr_lxor x y : lfsr (Z.lxor x y) = Z.lxor (lfsr x) (lfsr y).
Proof.
  unfold lfsr. rewrite Z.shiftr_lxor.
  replace (Z.odd (Z.lxor x y)) with (xorb (Z.odd x) (Z.odd y))
    by (rewrite <- !Z.bit0_odd, Z.lxor_spec; done).
  apply Z.bits_inj'. intros i Hi. rewrite !Z.lxor_spec.
  destruct (Z.odd x), (Z.odd y); simpl xorb; rewrite ?Z.bits_0; btauto.
Qed.

Lemma iter_lfsr_lxor n x y :
  Nat.iter n lfsr (Z.lxor x y) = Z.lxor (Nat.iter n lfsr x) (Nat.iter n lfsr y).
Proof. induction n as [|n IH]; simpl; [done|]. by rewrite IH, lfsr_lxor. Qed.

Lemma lfsr_shiftl x k : 0 < k -> lfsr (Z.shiftl x k) = Z.shiftl x (k - 1).
Proof.
  intros Hk. unfold lfsr. rewrite <- Z.bit0_odd, Z.shiftl_spec_low by lia.
  rewrite Z.lxor_0_r, Z.shiftr_shiftl_l by lia. done.
Qed.

Lemma iter_lfsr_shiftl n x : Nat.iter n lfsr (Z.shiftl x (Z.of_nat n)) = x.
Proof.
  induction n as [|n IH]; [apply Z.shiftl_0_r|].
  rewrite Nat.iter_succ_r, lfsr_shiftl by lia.
  replace (Z.of_nat (S n) - 1) with (Z.of_nat n) by lia. done.
Qed.

(** ** The software routine is the shift register *)

Lemma lxor_range x y k : 0 <= k -> 0 <= x < 2 ^ k -> 0 <= y < 2 ^ k -> 0 <= Z.lxor x y < 2 ^ k.
Proof.
  intros Hk Hx Hy. assert (0 <= Z.lxor x y) by (apply Z.lxor_nonneg; lia). split; [done|].
  destruct (decide (Z.lxor x y = 0)) as [->|]; [apply Z.pow_pos_nonneg; lia|].
  apply Z.log2_lt_pow2; [lia|].
  apply Z.le_lt_trans with (Z.max (Z.log2 x) (Z.log2 y)); [apply Z.log2_lxor; lia|].
  destruct (decide (k = 0)) as [->|].
  { change (2 ^ 0) with 1 in *. destruct n. clear -Hx Hy.
    replace x with 0 by lia. replace y with 0 by lia. done. }
  assert (forall z, 0 <= z < 2 ^ k -> Z.log2 z < k); [|apply Z.max_lub_lt; auto].
  intros z Hz. destruct (decide (z = 0)) as [->|]; [simpl; lia|].
  apply Z.log2_lt_pow2; lia.
Qed.

Lemma lfsr_range x : 0 <= x < 2 ^ 32 -> 0 <= lfsr x < 2 ^ 32.
Proof.
  intros Hx. apply lxor_range; [lia| |destruct (Z.odd x); lia].
  rewrite Z.shiftr_div_pow2 by lia.
  split; [apply Z.div_pos; lia|apply Z.div_lt_upper_bound; lia].
Qed.

Lemma iter_lfsr_range n x : 0 <= x < 2 ^ 32 -> 0 <= Nat.iter n lfsr x < 2 ^ 32.
Proof. intros Hx. induction n; simpl; auto using lfsr_range. Qed.

Lemma kCrc32cTable_eq : kCrc32cTable = makeCrc32cTable.
Proof. vm_compute. reflexivity. Qed.

Lemma crc32cIndex_range crc b : 0 <= crc32cIndex crc b < 256.
Proof.
  unfold crc32cIndex. change 255 with (Z.ones 8). rewrite Z.land_ones by lia.
  apply Z.mod_pos_bound. lia.
Qed.

Lemma kCrc32cTable_nth i : 0 <= i < 256 -> nth (Z.to_nat i) kCrc32cTable 0 = Nat.iter 8 lfsr i.
Proof.
  intros Hi. rewrite kCrc32cTable_eq. unfold makeCrc32cTable.
  rewrite (nth_lookup_Some _ _ _ (Nat.iter 8 crc32cTableBit i)).
  - simpl. by rewrite !crc32cTableBit_lfsr.
  - unfold loop_range. rewrite !list_lookup_fmap, lookup_seq_lt by lia. simpl.
    rewrite Z2Nat.id by lia. done.
Qed.

Definition crc_byte (crc : Z) (b : byte) : Z := Nat.iter 8 lfsr (Z.lxor crc (b2z b)).
#[global] Strategy expand [crc_byte].

Lemma split_low8 x : 0 <= x -> x = Z.lxor (Z.land x 255) (Z.shiftl (Z.shiftr x 8) 8).
Proof.
  intros Hx. apply Z.bits_inj'. intros i Hi. change 255 with (Z.ones 8).
  rewrite Z.lxor_spec, Z.land_spec, Z.testbit_ones_nonneg by lia.
  rewrite Z.shiftl_spec by lia. zb.
  - rewrite (Z.testbit_neg_r _ (i - 8)) by lia. btauto.
  - rewrite Z.shiftr_spec by lia. replace (i - 8 + 8) with i by lia. btauto.
Qed.

Lemma table_step crc b : 0 <= crc ->
  Z.lxor (Z.shiftr crc 8) (nth (Z.to_nat (crc32cIndex crc b)) kCrc32cTable 0) = crc_byte crc b.
Proof.
  intros Hc. rewrite kCrc32cTable_nth by apply crc32cIndex_range.
  unfold crc_byte, crc32cIndex. pose proof (b2z_range b).
  rewrite (split_low8 (Z.lxor crc (b2z b))) at 2 by (apply Z.lxor_nonneg; lia).
  rewrite iter_lfsr_lxor, (iter_lfsr_shiftl 8), Z.shiftr_lxor, Z.lxor_comm.
  rewrite (Z.shiftr_div_pow2 (b2z b)), (Z.div_small (b2z b)), Z.lxor_0_r by lia. done.
Qed.

Lemma crc_byte_range crc b : 0 <= crc < 2 ^ 32 -> 0 <= crc_byte crc b < 2 ^ 32.
Proof.
  intros Hc. apply iter_lfsr_range, lxor_range; [lia|done|].
  pose proof (b2z_range b). lia.
Qed.

Lemma software_fold crc bs : 0 <= crc < 2 ^ 32 ->
  extendCrc32cSoftware crc bs = fold_left crc_byte bs crc.
Proof.
  unfold extendCrc32cSoftware. revert crc. induction bs as [|b bs IH]; intros crc Hc; [done|].
  rewrite !fold_left_cons, table_step by lia. by apply IH, crc_byte_range.
Qed.

Lemma crc_fold_range crc bs : 0 <= crc < 2 ^ 32 -> 0 <= fold_left crc_byte bs crc < 2 ^ 32.
Proof.
  revert crc. induction bs as [|b bs IH]; intros crc Hc; [done|].
  rewrite fold_left_cons. by apply IH, crc_byte_range.
Qed.

Lemma extendCrc32cSoftware_range crc bs :
  0 <= crc < 2 ^ 32 -> 0 <= extendCrc32cSoftware crc bs < 2 ^ 32.
Proof. intros. rewrite software_fold by done. by apply crc_fold_range. Qed.

(** The checksum of a record is taken over its pieces in turn. *)
Lemma extendCrc32cSoftware_app crc bs cs :
  extendCrc32cSoftware crc (bs ++ cs) = extendCrc32cSoftware (extendCrc32cSoftware crc bs) cs.
Proof. apply fold_left_app. Qed.

(** A word shifted in at once is its bytes shifted in one by one. *)
Lemma le_val_cons_lxor b bs : le_val (b :: bs) = Z.lxor (b2z b) (Z.shiftl (le_val bs) 8).
Proof.
  simpl. pose proof (b2z_range b). pose proof (le_val_range bs).
  change 256 with (2 ^ 8). rewrite <- (lor_disjoint (b2z b) (le_val bs) 8) by lia.
  symmetry. apply Z.lxor_lor. apply Z.bits_inj'. intros i Hi.
  rewrite Z.land_spec, Z.shiftl_spec, Z.bits_0 by lia.
  destruct (decide (i < 8)); [rewrite (Z.testbit_neg_r _ (i - 8)) by lia; apply andb_false_r|].
  destruct (decide (b2z b = 0)) as [->|]; [by rewrite Z.bits_0|].
  rewrite (Z.bits_above_log2 (b2z b)); [done|lia|].
  apply Z.log2_lt_pow2; [lia|]. apply Z.lt_le_trans with (2 ^ 8); [lia|].
  apply Z.pow_le_mono_r; lia.
Qed.

Lemma crc_word crc bs :
  fold_left crc_byte bs crc = Nat.iter (8 * length bs) lfsr (Z.lxor crc (le_val bs)).
Proof.
  revert crc. induction bs as [|b bs IH]; intros crc; [simpl; by rewrite Z.lxor_0_r|].
  replace (8 * length (b :: bs))%nat with (8 * length bs + 8)%nat by (simpl; lia).
  rewrite le_val_cons_lxor, <- Z.lxor_assoc, Nat.iter_add, iter_lfsr_lxor.
  rewrite (iter_lfsr_shiftl 8), fold_left_cons. apply IH.
Qed.

(** ** The documented instruction is the shift register *)

Lemma testbit_high x k i : 0 <= x < 2 ^ k -> 0 <= k <= i -> Z.testbit x i = false.
Proof.
  intros Hx Hk. rewrite <- (Z.mod_small x (2 ^ k)) by done.
  apply Z.mod_pow2_bits_high. lia.
Qed.

Lemma reflect_bits n x i : 0 <= i ->
  Z.testbit (reflect n x) i = (i <? Z.of_nat n) && Z.testbit x (Z.of_nat n - 1 - i).
Proof.
  intros Hi. revert x. induction n as [|n IH]; intros x.
  - cbn [reflect]. rewrite Z.bits_0. zb; [lia|done].
  - cbn [reflect]. rewrite Z.lor_spec, IH, Z.shiftl_spec by lia.
    rewrite Nat2Z.inj_succ.
    destruct (Z.compare_spec i (Z.of_nat n)) as [->|Hlt|Hgt].
    + rewrite Z.sub_diag. zb; try lia.
      replace (Z.succ (Z.of_nat n) - 1 - Z.of_nat n) with 0 by lia.
      rewrite !Z.bit0_odd. by destruct (Z.odd x).
    + rewrite (Z.testbit_neg_r _ (i - Z.of_nat n)) by lia. zb; try lia.
      rewrite Z.shiftr_spec by lia. f_equal. lia.
    + zb; try lia. rewrite orb_false_r. apply (testbit_high _ 1); [|lia].
      destruct (Z.odd x); simpl; lia.
Qed.

Lemma reflect_lxor n x y : reflect n (Z.lxor x y) = Z.lxor (reflect n x) (reflect n y).
Proof.
  apply Z.bits_inj'. intros i Hi.
  rewrite Z.lxor_spec, !reflect_bits, Z.lxor_spec by done. btauto.
Qed.

(** The reflected polynomial, less its leading coefficient, is the table's constant. *)
Lemma reflect_poly n : reflect (32 + n) (Z.shiftl 0x11EDC6F41 (Z.of_nat n)) = 0x82f63b78.
Proof.
  apply Z.bits_inj'. intros i Hi. rewrite reflect_bits by done.
  destruct (decide (32 <= i)).
  - rewrite (testbit_high 0x82f63b78 32) by lia. zb; [|done].
    rewrite Z.shiftl_spec_low by lia. done.
  - rewrite Z.shiftl_spec by lia. zb; [|lia].
    replace (Z.of_nat (32 + n) - 1 - i - Z.of_nat n) with (31 - i) by lia.
    assert (Forall (fun i => Z.testbit 0x11EDC6F41 (31 - i) = Z.testbit 0x82f63b78 i)
      (seqZ 0 32)) as HF by (vm_compute; repeat constructor).
    rewrite Forall_forall in HF. apply HF. apply elem_of_seqZ. lia.
Qed.

Lemma reflect_shift n x : 0 <= x < 2 ^ (Z.of_nat (S n)) ->
  Z.shiftr (reflect (S n) x) 1 = reflect n x.
Proof.
  intros Hx. apply Z.bits_inj'. intros i Hi.
  rewrite Z.shiftr_spec, !reflect_bits, Nat2Z.inj_succ by lia.
  replace (Z.succ (Z.of_nat n) - 1 - (i + 1)) with (Z.of_nat n - 1 - i) by lia.
  f_equal. zb; lia || done.
Qed.

Lemma reflect_odd n x : Z.odd (reflect (S n) x) = Z.testbit x (Z.of_nat n).
Proof.
  rewrite <- Z.bit0_odd, reflect_bits by lia. zb; [|lia]. f_equal. lia.
Qed.

Lemma poly_mod_step n x : 0 <= x < 2 ^ (32 + Z.of_nat (S n)) ->
  let x' := if Z.testbit x (32 + Z.of_nat n)
            then Z.lxor x (Z.shiftl 0x11EDC6F41 (Z.of_nat n)) else x in
  0 <= x' < 2 ^ (32 + Z.of_nat n) /\
  reflect (32 + n) x' = lfsr (reflect (32 + S n) x).
Proof.
  intros Hx x'. split.
  - assert (0 <= x') as Hn.
    { unfold x'. destruct (Z.testbit _ _); [|lia].
      apply Z.lxor_nonneg. split; intros _; [apply Z.shiftl_nonneg|]; lia. }
    assert (x' = x' mod 2 ^ (32 + Z.of_nat n)) as ->;
      [|apply Z.mod_pos_bound, Z.pow_pos_nonneg; lia].
    apply Z.bits_inj'. intros i Hi.
    destruct (decide (i < 32 + Z.of_nat n)); [by rewrite Z.mod_pow2_bits_low by lia|].
    rewrite Z.mod_pow2_bits_high by lia. unfold x'.
    destruct (decide (i = 32 + Z.of_nat n)) as [->|].
    + destruct (Z.testbit x (32 + Z.of_nat n)) eqn:E; [|done].
      rewrite Z.lxor_spec, E, Z.shiftl_spec by lia.
      by replace (32 + Z.of_nat n - Z.of_nat n) with 32 by lia.
    + assert (Z.testbit x i = false) as E
        by (apply (testbit_high x (32 + Z.of_nat (S n))); [done|lia]).
      destruct (Z.testbit x (32 + Z.of_nat n)); [|done].
      rewrite Z.lxor_spec, E, Z.shiftl_spec by lia. apply (testbit_high _ 33); lia.
  - unfold lfsr. change (32 + S n)%nat with (S (31 + S n)).
    rewrite reflect_odd, reflect_shift
      by (replace (Z.of_nat (S (31 + S n))) with (32 + Z.of_nat (S n)) by lia; done).
    replace (31 + S n)%nat with (32 + n)%nat by lia.
    replace (Z.of_nat (32 + n)) with (32 + Z.of_nat n) by lia.
    unfold x'. destruct (Z.testbit _ _); [by rewrite reflect_lxor, reflect_poly|].
    by rewrite Z.lxor_0_r.
Qed.

Lemma poly_mod_lfsr n x : 0 <= x < 2 ^ (32 + Z.of_nat n) ->
  reflect 32 (poly_mod n x 0x11EDC6F41) = Nat.iter n lfsr (reflect (32 + n) x).
Proof.
  revert x. induction n as [|n IH]; intros x Hx; [done|].
  destruct (poly_mod_step n x Hx) as [Hr He]. cbn [poly_mod].
  rewrite IH by exact Hr. by rewrite Nat.iter_succ_r, <- He.
Qed.

(** Reflecting a reflected field back in the wider register leaves it at the bottom. *)
Lemma reflect_field w k x : 0 <= x < 2 ^ Z.of_nat w ->
  reflect (w + k) (Z.shiftl (reflect w x) (Z.of_nat k)) = x.
Proof.
  intros Hx. apply Z.bits_inj'. intros i Hi. rewrite reflect_bits by done.
  destruct (decide (Z.of_nat w <= i)).
  - rewrite (testbit_high x (Z.of_nat w) i) by lia. zb; [|done].
    rewrite Z.shiftl_spec_low by lia. done.
  - rewrite Z.shiftl_spec, reflect_bits by lia. zb; try lia. f_equal. lia.
Qed.

Lemma reflect_range n x : 0 <= reflect n x < 2 ^ Z.of_nat n.
Proof.
  assert (reflect n x = reflect n x mod 2 ^ Z.of_nat n) as ->;
    [|apply Z.mod_pos_bound, Z.pow_pos_nonneg; lia].
  apply Z.bits_inj'. intros i Hi.
  destruct (decide (i < Z.of_nat n)); [by rewrite Z.mod_pow2_bits_low by lia|].
  rewrite Z.mod_pow2_bits_high, reflect_bits by lia. zb; [lia|done].
Qed.

Lemma shiftl_range x a b : 0 <= a -> 0 <= b -> 0 <= x < 2 ^ a -> 0 <= Z.shiftl x b < 2 ^ (a + b).
Proof.
  intros Ha Hb Hx. rewrite Z.shiftl_mul_pow2, Z.pow_add_r by lia.
  assert (0 < 2 ^ b) by (apply Z.pow_pos_nonneg; lia). nia.
Qed.

Lemma crc32_insn_lfsr w dest src :
  0 <= dest < 2 ^ 32 -> 0 <= src < 2 ^ Z.of_nat w ->
  crc32_insn w dest src = Nat.iter w lfsr (Z.lxor dest src).
Proof.
  intros Hd Hs. unfold crc32_insn. rewrite poly_mod_lfsr.
  - f_equal. rewrite reflect_lxor, Nat.add_comm, (reflect_field w 32) by done.
    rewrite Nat.add_comm, (reflect_field 32 w), Z.lxor_comm by done. done.
  - apply lxor_range; [lia| |].
    + rewrite (Z.add_comm 32). apply shiftl_range; [lia..|]. apply reflect_range.
    + apply shiftl_range; [lia..|]. apply (reflect_range 32).
Qed.

Lemma crc32_insn_word w crc bs : 0 <= crc < 2 ^ 32 -> w = (8 * length bs)%nat ->
  crc32_insn w crc (le_val bs) = fold_left crc_byte bs crc.
Proof.
  intros Hc ->. rewrite crc_word. apply crc32_insn_lfsr; [done|].
  pose proof (le_val_range bs) as H. rewrite Nat2Z.inj_mul, Z.pow_mul_r by lia. exact H.
Qed.

(** ** The hardware routine *)

Section HardwareFacts.
Context {C : Cpu} `{!CpuSpec C}.

Lemma hardwareLoop8_fold crc data : 0 <= crc < 2 ^ 32 ->
  hardwareLoop8 crc data = fold_left crc_byte data crc.
Proof.
  revert crc. induction data as [|b data IH]; intros crc Hc; [done|].
  cbn [hardwareLoop8]. rewrite fold_left_cons.
  rewrite mm_crc32_u8_spec; [|done|apply b2z_range].
  replace (b2z b) with (le_val [b]) by (simpl; lia).
  rewrite (crc32_insn_word 8 crc [b]) by done. apply IH. by apply crc_byte_range.
Qed.

Lemma hardwareLoop32_fold crc data : 0 <= crc < 2 ^ 32 ->
  let '(crc', rest) := hardwareLoop32 crc data in
  0 <= crc' < 2 ^ 32 /\ fold_left crc_byte rest crc' = fold_left crc_byte data crc.
Proof.
  remember (length data) as n eqn:Hn. revert crc data Hn.
  induction n as [n IH] using lt_wf_ind. intros crc data Hn Hc.
  destruct data as [|b0 [|b1 [|b2 [|b3 rest]]]]; try done.
  set (w := [b0; b1; b2; b3]).
  assert (mm_crc32_u32 crc (le_val w) = fold_left crc_byte w crc) as Hw.
  { rewrite mm_crc32_u32_spec by (done || apply (le_val_range w)).
    by rewrite (crc32_insn_word 32). }
  change (b0 :: b1 :: b2 :: b3 :: rest) with (w ++ rest). rewrite fold_left_app, <- Hw.
  change (hardwareLoop32 crc (w ++ rest))
    with (hardwareLoop32 (mm_crc32_u32 crc (le_val w)) rest).
  apply (IH (length rest)); [simpl in *; lia|done|]. rewrite Hw. by apply crc_fold_range.
Qed.

Lemma hardwareLoop64_fold crc data : 0 <= crc < 2 ^ 32 ->
  let '(crc', rest) := hardwareLoop64 crc data in
  0 <= crc' < 2 ^ 32 /\ fold_left crc_byte rest crc' = fold_left crc_byte data crc.
Proof.
  remember (length data) as n eqn:Hn. revert crc data Hn.
  induction n as [n IH] using lt_wf_ind. intros crc data Hn Hc.
  destruct data as [|b0 [|b1 [|b2 [|b3 [|b4 [|b5 [|b6 [|b7 rest]]]]]]]]; try done.
  set (w := [b0; b1; b2; b3; b4; b5; b6; b7]).
  assert (u32 (mm_crc32_u64 crc (le_val w)) = fold_left crc_byte w crc) as Hw.
  { rewrite mm_crc32_u64_spec by (done || apply (le_val_range w)).
    rewrite (crc32_insn_word 64) by done. apply u32_small. by apply crc_fold_range. }
  change (b0 :: b1 :: b2 :: b3 :: b4 :: b5 :: b6 :: b7 :: rest) with (w ++ rest).
  rewrite fold_left_app, <- Hw.
  change (hardwareLoop64 crc (w ++ rest))
    with (hardwareLoop64 (u32 (mm_crc32_u64 crc (le_val w))) rest).
  apply (IH (length rest)); [simpl in *; lia|done|]. apply u32_range.
Qed.

Lemma hardware_eq_software crc bs : 0 <= crc < 2 ^ 32 ->
  extendCrc32cHardware crc bs = extendCrc32cSoftware crc bs.
Proof.
  intros Hc. rewrite software_fold by done. unfold extendCrc32cHardware.
  assert (let '(crc', data) := if cpu_x86_64 then hardwareLoop64 crc bs else (crc, bs) in
    0 <= crc' < 2 ^ 32 /\ fold_left crc_byte data crc' = fold_left crc_byte bs crc) as H
    by (destruct cpu_x86_64; [by apply hardwareLoop64_fold|done]).
  destruct (if cpu_x86_64 then _ else _) as [crc1 data1]. destruct H as [Hr1 <-].
  pose proof (hardwareLoop32_fold crc1 data1 Hr1) as H.
  destruct (hardwareLoop32 crc1 data1) as [crc2 data2]. destruct H as [Hr2 <-].
  by apply hardwareLoop8_fold.
Qed.

(** Whatever processor it runs on, [Crc32C] is the table routine. *)
Lemma Crc32C_software bs : Crc32C bs = u32 (Z.lnot (extendCrc32cSoftware 0xffffffff bs)).
Proof.
  unfold Crc32C. destruct (cpu_x86 && hasHardwareCrc32c); [|done].
  by rewrite hardware_eq_software.
Qed.

End HardwareFacts.

Lemma Crc32C_range {C : Cpu} bs : 0 <= Crc32C bs < 2 ^ 32.
Proof. unfold Crc32C. destruct (_ && _); apply u32_range. Qed.

(** ** Error detection *)

(** The top bit of the new register tells whether the constant was added, so a step
    can be undone. *)
Lemma lfsr_inj x y : 0 <= x < 2 ^ 32 -> 0 <= y < 2 ^ 32 -> lfsr x = lfsr y -> x = y.
Proof.
  intros Hx Hy E.
  assert (forall z, 0 <= z < 2 ^ 32 -> Z.testbit (lfsr z) 31 = Z.odd z) as Htop.
  { intros z Hz. unfold lfsr. rewrite Z.lxor_spec, Z.shiftr_spec by lia.
    rewrite (testbit_high z 32) by lia. by destruct (Z.odd z). }
  assert (Z.odd x = Z.odd y) as Ho by (rewrite <- !Htop by done; congruence).
  unfold lfsr in E. rewrite Ho in E.
  apply (f_equal (fun z => Z.lxor z (if Z.odd y then 0x82f63b78 else 0))) in E.
  rewrite !Z.lxor_assoc, !Z.lxor_nilpotent, !Z.lxor_0_r in E.
  rewrite !Z.shiftr_div_pow2 in E by lia. change (2 ^ 1) with 2 in E.
  rewrite (Z.div_mod x 2), (Z.div_mod y 2), !Zmod_odd, Ho by lia. lia.
Qed.

Lemma iter_lfsr_inj n x y : 0 <= x < 2 ^ 32 -> 0 <= y < 2 ^ 32 ->
  Nat.iter n lfsr x = Nat.iter n lfsr y -> x = y.
Proof.
  intros Hx Hy. induction n as [|n IH]; [done|]. rewrite !Nat.iter_succ. intros E.
  apply lfsr_inj in E; auto using iter_lfsr_range.
Qed.

Lemma lxor_cancel_l a x y : Z.lxor a x = Z.lxor a y -> x = y.
Proof.
  intros E. apply (f_equal (Z.lxor a)) in E.
  by rewrite <- !Z.lxor_assoc, Z.lxor_nilpotent, !Z.lxor_0_l in E.
Qed.

Lemma crc_byte_inj b x y : 0 <= x < 2 ^ 32 -> 0 <= y < 2 ^ 32 ->
  crc_byte x b = crc_byte y b -> x = y.
Proof.
  intros Hx Hy E. assert (0 <= b2z b < 2 ^ 32) by (pose proof (b2z_range b); lia).
  apply (lxor_cancel_l (b2z b)). rewrite !(Z.lxor_comm (b2z b)).
  apply (iter_lfsr_inj 8); [apply lxor_range; lia..|]. exact E.
Qed.

Lemma crc_fold_inj_crc bs x y : 0 <= x < 2 ^ 32 -> 0 <= y < 2 ^ 32 ->
  fold_left crc_byte bs x = fold_left crc_byte bs y -> x = y.
Proof.
  revert x y. induction bs as [|b bs IH]; intros x y Hx Hy E; [exact E|].
  rewrite !fold_left_cons in E. apply (crc_byte_inj b); [done..|].
  apply IH; [by apply crc_byte_range..|]. exact E.
Qed.

Lemma le_val_inj bs cs : length bs = length cs -> le_val bs = le_val cs -> bs = cs.
Proof.
  intros Hl He. rewrite <- (le_bytes_le_val bs), <- (le_bytes_le_val cs). congruence.
Qed.

Lemma crc_fold_inj_window crc w w' : 0 <= crc < 2 ^ 32 -> length w = length w' ->
  (length w <= 4)%nat -> fold_left crc_byte w crc = fold_left crc_byte w' crc -> w = w'.
Proof.
  intros Hc Hl Hw E. rewrite !crc_word, <- Hl in E.
  assert (forall bs, (length bs <= 4)%nat -> 0 <= le_val bs < 2 ^ 32) as Hr.
  { intros bs Hbs. pose proof (le_val_range bs). split; [lia|].
    apply Z.lt_le_trans with (256 ^ zlen bs); [lia|].
    change (2 ^ 32) with (256 ^ 4). apply Z.pow_le_mono_r; lia. }
  apply iter_lfsr_inj in E; [|apply lxor_range; auto with lia..].
  apply lxor_cancel_l in E. by apply le_val_inj.
Qed.

Lemma u32_lnot_inj x y : 0 <= x < 2 ^ 32 -> 0 <= y < 2 ^ 32 ->
  u32 (Z.lnot x) = u32 (Z.lnot y) -> x = y.
Proof.
  intros Hx Hy. unfold u32, Z.lnot. intros E.
  rewrite <- (Z.mod_add (Z.pred (- x)) 1), <- (Z.mod_add (Z.pred (- y)) 1) in E by lia.
  rewrite !Z.mod_small in E by lia. lia.
Qed.

(** Two messages of the same length that differ only inside a window of four bytes have
    different checksums. *)
Lemma Crc32C_window {C : Cpu} `{!CpuSpec C} pre w w' post :
  length w = length w' -> (length w <= 4)%nat -> w <> w' ->
  Crc32C (pre ++ w ++ post) <> Crc32C (pre ++ w' ++ post).
Proof.
  intros Hl H4 Hne E. rewrite !Crc32C_software in E.
  apply u32_lnot_inj in E; [|apply extendCrc32cSoftware_range; lia..].
  rewrite !software_fold, !fold_left_app in E by lia.
  assert (0 <= fold_left crc_byte pre 0xffffffff < 2 ^ 32) by (apply crc_fold_range; lia).
  apply crc_fold_inj_crc in E; auto using crc_fold_range.
  apply crc_fold_inj_window in E; auto.
Qed.

(** ** Properties *)

(** A processor whose intrinsics are the documented instruction, for the examples. *)
Definition reference_cpu : Cpu := {|
  mm_crc32_u8 := crc32_insn 8;
  mm_crc32_u32 := crc32_insn 32;
  mm_crc32_u64 := crc32_insn 64;
  cpu_x86 := true;
  cpu_x86_64 := true;
  cpu_sse42 := true;
|}.

#[global] Instance reference_cpu_spec : CpuSpec reference_cpu.
Proof. by constructor. Qed.

(** A processor without the instruction. *)
Definition plain_cpu : Cpu := {|
  mm_crc32_u8 := fun _ _ => 0;
  mm_crc32_u32 := fun _ _ => 0;
  mm_crc32_u64 := fun _ _ => 0;
  cpu_x86 := false;
  cpu_x86_64 := false;
  cpu_sse42 := false;
|}.

(** C19: the checksum does not depend on the processor. On any processor whose CRC32
    intrinsics do what the manual says, with or without SSE4.2 and with or without the
    64-bit form, [Crc32C] is the table-driven routine, and that is the documented
    division by the Castagnoli polynomial carried out one byte at a time. *)
Theorem crc32c_processor_independent {C : Cpu} `{!CpuSpec C} (bs : bytes) :
  Crc32C bs = @Crc32C plain_cpu bs /\
  Crc32C bs = u32 (Z.lnot (fold_left (fun crc b => crc32_insn 8 crc (b2z b)) bs 0xffffffff)).
Proof.
  rewrite Crc32C_software. split; [done|]. do 2 f_equal. rewrite software_fold by lia.
  assert (0 <= 0xffffffff < 2 ^ 32) as H by lia. revert H. generalize 0xffffffff.
  induction bs as [|b bs IH]; intros crc Hc; [done|]. rewrite !fold_left_cons.
  pose proof (b2z_range b).
  rewrite crc32_insn_lfsr by (done || lia). by apply IH, crc_byte_range.
Qed.

Lemma crc32c_processor_independent_witness :
  @Crc32C reference_cpu (str "123456789") = 0xe3069283 /\
  @Crc32C reference_cpu (str "123456789") = @Crc32C plain_cpu (str "123456789").
Proof.
  split; [vm_compute; reflexivity|].
  apply (@crc32c_processor_independent reference_cpu reference_cpu_spec).
Defined.
