(* ===== verification/WriteBatch.v ===== *)
(** * WriteBatch (include/storage_engine/db.h, src/write_batch.cc)

    A batch is its sequence of entries. The arena the strings live in decides where the
    bytes are, not what they are: a copy constructs new strings from the bytes of the old
    ones, which is [appendEntry]. [WriteBatchStore.v] has the arenas and shows that this
    view is right. *)

From S2P Require Import Prelude.

(** [WriteBatch::Type], with the enumerators' values. *)
Inductive EntryType := kPut | kDelete.

#[global] Instance EntryType_eq_dec : EqDecision EntryType.
Proof. solve_decision. Defined.

Definition type_code (t : EntryType) : Z :=
  match t with kPut => 1 | kDelete => 2 end.

Record Entry := mkEntry { entry_type : EntryType; entry_key : bytes; entry_value : bytes }.

#[global] Instance Entry_eq_dec : EqDecision Entry.
Proof. solve_decision. Defined.

Record WriteBatchT := mkWriteBatch { entries_ : list Entry }.

Module WriteBatch.

Definition new : WriteBatchT := mkWriteBatch [].

Definition empty (b : WriteBatchT) : bool := bool_decide (entries_ b = []).
Definition entries (b : WriteBatchT) : list Entry := entries_ b.

Definition Put (b : WriteBatchT) (key value : bytes) : WriteBatchT :=
  mkWriteBatch (entries_ b ++ [mkEntry kPut key value]).

Definition Delete (b : WriteBatchT) (key : bytes) : WriteBatchT :=
  mkWriteBatch (entries_ b ++ [mkEntry kDelete key []]).

Definition appendEntry (b : WriteBatchT) (e : Entry) : WriteBatchT :=
  mkWriteBatch (entries_ b ++ [mkEntry (entry_type e) (entry_key e) (entry_value e)]).

(** The copy constructor: delegates to the default one, then appends. *)
Definition copy (other : WriteBatchT) : WriteBatchT :=
  fold_left appendEntry (entries_ other) new.

(** Copy assignment; [same] is [this == &other]. *)
Definition assign (this : WriteBatchT) (other : WriteBatchT) (same : bool) : WriteBatchT :=
  if negb same then fold_left appendEntry (entries_ other) (mkWriteBatch []) else this.

End WriteBatch.

(** ** Well-formed batches

    Only [Put] and [Delete] add new entries, and a deletion carries no value. *)

Definition entry_wf (e : Entry) : Prop := entry_type e = kDelete -> entry_value e = [].
Definition batch_wf (b : WriteBatchT) : Prop := Forall entry_wf (entries_ b).

(** A caller's way of building a batch. *)
Inductive batch_op := BPut (key value : bytes) | BDelete (key : bytes).

Definition batch_step (b : WriteBatchT) (o : batch_op) : WriteBatchT :=
  match o with
  | BPut k v => WriteBatch.Put b k v
  | BDelete k => WriteBatch.Delete b k
  end.

Definition build_batch (ops : list batch_op) : WriteBatchT := fold_left batch_step ops WriteBatch.new.

Lemma fold_appendEntry es b :
  fold_left WriteBatch.appendEntry es b = mkWriteBatch (entries_ b ++ es).
Proof.
  revert b. induction es as [|[t k v] es IH]; intros [l]; simpl; [by rewrite app_nil_r|].
  rewrite IH. simpl. by rewrite <- app_assoc.
Qed.

Lemma copy_id b : WriteBatch.copy b = b.
Proof. unfold WriteBatch.copy. rewrite fold_appendEntry. by destruct b. Qed.

Lemma assign_id this other same :
  (same = true -> this = other) -> WriteBatch.assign this other same = other.
Proof.
  intros Hs. destruct same; [by apply Hs|]. unfold WriteBatch.assign; cbn [negb].
  rewrite fold_appendEntry. by destruct other.
Qed.

Lemma new_wf : batch_wf WriteBatch.new.
Proof. constructor. Qed.

Lemma Put_wf b k v : batch_wf b -> batch_wf (WriteBatch.Put b k v).
Proof. intros H. apply Forall_app_2; [done|]. repeat constructor. done. Qed.

Lemma Delete_wf b k : batch_wf b -> batch_wf (WriteBatch.Delete b k).
Proof. intros H. apply Forall_app_2; [done|]. by repeat constructor. Qed.

#[export] Hint Resolve new_wf Put_wf Delete_wf : se.

Lemma build_batch_wf ops : batch_wf (build_batch ops).
Proof.
  unfold build_batch. generalize new_wf. generalize WriteBatch.new. intros b Hb.
  revert b Hb. induction ops as [|[k v|k] ops IH]; simpl; auto with se.
Qed.

(** ** The entries of a group of batches, in the order the loops visit them *)

Definition all_entries (bs : list WriteBatchT) : list Entry := concat (entries_ <$> bs).

Lemma all_entries_cons b bs : all_entries (b :: bs) = WriteBatch.entries b ++ all_entries bs.
Proof. done. Qed.

Lemma all_entries_app bs cs : all_entries (bs ++ cs) = all_entries bs ++ all_entries cs.
Proof. unfold all_entries. by rewrite fmap_app, concat_app. Qed.

(** A [for] over the batches with a [for] over the entries inside visits [all_entries]. *)
Lemma nested_loop {S} (f : S -> Entry -> S) bs s :
  fold_left (fun s b => fold_left f (WriteBatch.entries b) s) bs s = fold_left f (all_entries bs) s.
Proof.
  revert s. induction bs as [|b bs IH]; intros s; [done|].
  by rewrite fold_left_cons, IH, all_entries_cons, fold_left_app.
Qed.

Lemma nested_loopM {S} (f : S -> Entry -> option S) bs s :
  foldM (fun s b => foldM f s (WriteBatch.entries b)) s bs = foldM f s (all_entries bs).
Proof.
  revert s. induction bs as [|b bs IH]; intros s; [done|].
  rewrite all_entries_cons, foldM_app. cbn [foldM].
  destruct (foldM f s (WriteBatch.entries b)); [apply IH|done].
Qed.
