(* ===== verification/WriteBatchStore.v ===== *)
(** * Where the bytes of a batch are (include/storage_engine/db.h, src/write_batch.cc)

    A [WriteBatch] keeps its entries and their strings in an arena of its own, which gives
    memory back only when the batch dies. This file has batches as objects in memory, with
    the strings behind addresses, and shows that the entries of [WriteBatch.v] are what is
    read there: no string of one batch depends on another batch, and none is used after
    its arena is gone. *)

From S2P Require Import Prelude WriteBatch.

(** A [std::pmr::string]: a short one has its characters inside, a long one in the arena. *)
Inductive arena_string := Short (bs : bytes) | Long (a : Z).

(** An [Entry] as it is stored. *)
Record slot := mkSlot { sl_type : EntryType; sl_key : arena_string; sl_value : arena_string }.

(** What was allocated from an arena: the characters of a string, or the array behind
    [entries_], whose capacity is fixed by then. *)
Inductive block := BChars (bs : bytes) | BSlots (v : vector slot).

(** Memory: the blocks with the batch whose arena they come from; the next address; the
    batches, each with the address of the array of [entries_], if there is one. *)
Record Store := mkStore { st_blocks : gmap Z (Z * block); st_next : Z; st_objs : gmap Z (option Z) }.

Definition store0 : Store := mkStore ∅ 1 ∅.

Definition arena_alloc (s : Store) (o : Z) (b : block) : Store * Z :=
  (mkStore (<[st_next s := (o, b)]> (st_blocks s)) (st_next s + 1) (st_objs s), st_next s).

Definition set_block (s : Store) (a : Z) (o : Z) (b : block) : Store :=
  mkStore (<[a := (o, b)]> (st_blocks s)) (st_next s) (st_objs s).

Definition set_batch (s : Store) (o : Z) (p : option Z) : Store :=
  mkStore (st_blocks s) (st_next s) (<[o := p]> (st_objs s)).

(** Reading; [None] is an access to memory that is not there. *)
Definition read_string (s : Store) (x : arena_string) : option bytes :=
  match x with
  | Short bs => Some bs
  | Long a => match st_blocks s !! a with Some (_, BChars bs) => Some bs | _ => None end
  end.

Definition read_slots (s : Store) (o : Z) : option (vector slot) :=
  p ← st_objs s !! o;
  match p with
  | None => Some vector_new
  | Some a => match st_blocks s !! a with Some (_, BSlots v) => Some v | _ => None end
  end.

Definition read_slot (s : Store) (x : slot) : option Entry :=
  key ← read_string s (sl_key x);
  value ← read_string s (sl_value x);
  Some (mkEntry (sl_type x) key value).

(** What [entries()] shows. *)
Definition read_batch (s : Store) (o : Z) : option WriteBatchT :=
  v ← read_slots s o;
  es ← mapM (read_slot s) (items v);
  Some (mkWriteBatch es).

(** A [string_view] the caller passes: characters of its own, or of an entry of a batch. *)
Inductive view := VBytes (bs : bytes) | VKey (o : Z) (i : nat) | VValue (o : Z) (i : nat).

Definition read_view (s : Store) (v : view) : option bytes :=
  match v with
  | VBytes bs => Some bs
  | VKey o i => sl ← read_slots s o; x ← items sl !! i; read_string s (sl_key x)
  | VValue o i => sl ← read_slots s o; x ← items sl !! i; read_string s (sl_value x)
  end.

Module BatchObject.
Section Operations.
Context {L : Libc} (sso : Z).

(** [ArenaString(bytes, &arena_)]; strings up to [sso] bytes are short. *)
Definition ArenaString (s : Store) (o : Z) (bs : bytes) : Store * arena_string :=
  if zlen bs <=? sso then (s, Short bs) else
  let '(s, a) := arena_alloc s o (BChars bs) in
  (s, Long a).

(** [entries_.push_back]: a full array is replaced by a larger one, and the entries are
    moved there, with the addresses of their strings; the old one stays in the arena. *)
Definition push_back (s : Store) (o : Z) (x : slot) : option Store :=
  p ← st_objs s !! o;
  v ← read_slots s o;
  match p with
  | Some a =>
      if zlen (items v) <? capacity v then Some (set_block s a o (BSlots (vector_push_back v x))) else
      let s := set_block s a o (BSlots (vector_clear v)) in
      let '(s, a') := arena_alloc s o (BSlots (vector_push_back v x)) in
      Some (set_batch s o (Some a'))
  | None =>
      let '(s, a) := arena_alloc s o (BSlots (vector_push_back v x)) in
      Some (set_batch s o (Some a))
  end.

Definition make (s : Store) (o : Z) : Store := set_batch s o None.

Definition Put (s : Store) (o : Z) (key value : view) : option Store :=
  bs ← read_view s key;
  let '(s, k) := ArenaString s o bs in
  bs ← read_view s value;
  let '(s, v) := ArenaString s o bs in
  push_back s o (mkSlot kPut k v).

Definition Delete (s : Store) (o : Z) (key : view) : option Store :=
  bs ← read_view s key;
  let '(s, k) := ArenaString s o bs in
  let '(s, v) := ArenaString s o [] in
  push_back s o (mkSlot kDelete k v).

Definition appendEntry (s : Store) (o : Z) (entry : slot) : option Store :=
  bs ← read_string s (sl_key entry);
  let '(s, k) := ArenaString s o bs in
  bs ← read_string s (sl_value entry);
  let '(s, v) := ArenaString s o bs in
  push_back s o (mkSlot (sl_type entry) k v).

(** [for (const auto &entry : other.entries_) appendEntry(entry);] *)
Definition appendAll (s : Store) (o other : Z) : option Store :=
  v ← read_slots s other;
  foldM (fun s entry => appendEntry s o entry) s (items v).

Definition copy (s : Store) (o other : Z) : option Store := appendAll (make s o) o other.

(** [entries_.clear()]: the array stays, and so do the strings. *)
Definition clear (s : Store) (o : Z) : option Store :=
  p ← st_objs s !! o;
  v ← read_slots s o;
  Some (match p with Some a => set_block s a o (BSlots (vector_clear v)) | None => s end).

Definition assign (s : Store) (o other : Z) : option Store :=
  if negb (o =? other) then
    s ← clear s o;
    appendAll s o other
  else Some s.

(** The destructor: with the arena goes everything allocated from it. *)
Definition destroy (s : Store) (o : Z) : Store :=
  mkStore (filter (fun c => c.2.1 <> o) (st_blocks s)) (st_next s) (delete o (st_objs s)).

End Operations.
End BatchObject.

(** ** Programs *)

Inductive batch_action :=
  | DoMake (o : Z)
  | DoPut (o : Z) (key value : view)
  | DoDelete (o : Z) (key : view)
  | DoCopy (o other : Z)
  | DoAssign (o other : Z)
  | DoDestroy (o : Z).

Definition store_action {L : Libc} (sso : Z) (s : Store) (a : batch_action) : option Store :=
  match a with
  | DoMake o => Some (BatchObject.make s o)
  | DoPut o key value => BatchObject.Put sso s o key value
  | DoDelete o key => BatchObject.Delete sso s o key
  | DoCopy o other => BatchObject.copy sso s o other
  | DoAssign o other => BatchObject.assign sso s o other
  | DoDestroy o => Some (BatchObject.destroy s o)
  end.

(** The same program on batches that are values. [None]: it uses a batch or an entry that
    does not exist, or constructs a batch where there is one. *)
Definition value_view (m : gmap Z WriteBatchT) (v : view) : option bytes :=
  match v with
  | VBytes bs => Some bs
  | VKey o i => b ← m !! o; e ← WriteBatch.entries b !! i; Some (entry_key e)
  | VValue o i => b ← m !! o; e ← WriteBatch.entries b !! i; Some (entry_value e)
  end.

Definition value_action (m : gmap Z WriteBatchT) (a : batch_action) : option (gmap Z WriteBatchT) :=
  match a with
  | DoMake o => match m !! o with None => Some (<[o := WriteBatch.new]> m) | Some _ => None end
  | DoPut o key value =>
      b ← m !! o; k ← value_view m key; v ← value_view m value;
      Some (<[o := WriteBatch.Put b k v]> m)
  | DoDelete o key => b ← m !! o; k ← value_view m key; Some (<[o := WriteBatch.Delete b k]> m)
  | DoCopy o other =>
      b ← m !! other;
      match m !! o with None => Some (<[o := WriteBatch.copy b]> m) | Some _ => None end
  | DoAssign o other => this ← m !! o; b ← m !! other; Some (<[o := WriteBatch.assign this b (o =? other)]> m)
  | DoDestroy o => _ ← m !! o; Some (delete o m)
  end.

(** ** What the memory holds *)

Definition str_holds (s : Store) (o : Z) (x : arena_string) (bs : bytes) : Prop :=
  match x with Short bs' => bs' = bs | Long a => st_blocks s !! a = Some (o, BChars bs) end.

Record slot_holds (s : Store) (o : Z) (x : slot) (e : Entry) : Prop := {
  sh_type : sl_type x = entry_type e;
  sh_key : str_holds s o (sl_key x) (entry_key e);
  sh_value : str_holds s o (sl_value x) (entry_value e);
}.

(** The array of [o], and everything it refers to, is in the arena of [o]. *)
Definition array_holds (s : Store) (o : Z) (p : option Z) (b : WriteBatchT) : Prop :=
  match p with
  | None => entries_ b = []
  | Some a => exists v, st_blocks s !! a = Some (o, BSlots v) /\ Forall2 (slot_holds s o) (items v) (entries_ b)
  end.

Definition object_holds (s : Store) (o : Z) (p : option (option Z)) (b : option WriteBatchT) : Prop :=
  match p, b with Some p, Some b => array_holds s o p b | None, None => True | _, _ => False end.

Record stored (s : Store) (m : gmap Z WriteBatchT) : Prop := {
  st_fresh : forall a, is_Some (st_blocks s !! a) -> a < st_next s;
  st_owned : forall a o b, st_blocks s !! a = Some (o, b) -> is_Some (m !! o);
  st_holds : forall o, object_holds s o (st_objs s !! o) (m !! o);
}.

(** The strings in the arena of [o], or in all, are still there. *)
Definition chars_of (o : Z) (s s' : Store) : Prop :=
  forall a bs, st_blocks s !! a = Some (o, BChars bs) -> st_blocks s' !! a = Some (o, BChars bs).

Definition chars_kept (s s' : Store) : Prop := forall o, chars_of o s s'.

Lemma str_kept s s' o x bs : chars_of o s s' -> str_holds s o x bs -> str_holds s' o x bs.
Proof. intros Hk. destruct x; [done|]. apply Hk. Qed.

Lemma slots_kept s s' o xs es : chars_of o s s' -> Forall2 (slot_holds s o) xs es -> Forall2 (slot_holds s' o) xs es.
Proof. intros Hk H. eapply Forall2_impl; [exact H|]. intros x e [? ? ?]. split; [done|by eapply str_kept..]. Qed.

Lemma array_kept s s' o p b : chars_of o s s' ->
  (forall a v, p = Some a -> st_blocks s !! a = Some (o, BSlots v) -> st_blocks s' !! a = Some (o, BSlots v)) ->
  array_holds s o p b -> array_holds s' o p b.
Proof.
  intros Hk Ha. destruct p as [a|]; [|done]. intros (v & Hv & H). exists v. split; [by apply Ha|by eapply slots_kept].
Qed.

(** *** Reading *)

Lemma read_string_holds s o x bs : str_holds s o x bs -> read_string s x = Some bs.
Proof. destruct x; cbn; [by intros ->|by intros ->]. Qed.

Lemma read_slots_holds s m o b : stored s m -> m !! o = Some b ->
  exists p v, st_objs s !! o = Some p /\ array_holds s o p b /\ read_slots s o = Some v /\ Forall2 (slot_holds s o) (items v) (entries_ b).
Proof.
  intros [_ _ Hs] Hb. specialize (Hs o). rewrite Hb in Hs. unfold read_slots. destruct (st_objs s !! o) as [p|]; [|done].
  cbn [object_holds mbind option_bind] in *. exists p. destruct p as [a|].
  - destruct Hs as (v & Hv & H). exists v. rewrite Hv. split; [done|]. split; [by exists v|done].
  - exists vector_new. do 3 (split; [done|]). by rewrite Hs.
Qed.

Lemma read_slot_holds s o x e : slot_holds s o x e -> read_slot s x = Some e.
Proof.
  intros [Ht Hk Hv]. unfold read_slot. rewrite (read_string_holds _ _ _ _ Hk), (read_string_holds _ _ _ _ Hv). cbn.
  rewrite Ht. by destruct e.
Qed.

Lemma read_batch_holds s m o b : stored s m -> m !! o = Some b -> read_batch s o = Some b.
Proof.
  intros Hs Hb. destruct (read_slots_holds s m o b Hs Hb) as (_ & v & _ & _ & E & H). unfold read_batch. rewrite E. cbn.
  assert (mapM (read_slot s) (items v) = Some (entries_ b)) as ->; [|by destruct b].
  apply mapM_Some_2. eapply Forall2_impl; [exact H|]. apply read_slot_holds.
Qed.

Lemma read_view_holds s m v bs : stored s m -> value_view m v = Some bs -> read_view s v = Some bs.
Proof.
  intros Hs. destruct v as [bs'|o i|o i]; cbn; [done|..]; destruct (m !! o) as [b|] eqn:Hb; try done; cbn;
    destruct (read_slots_holds s m o b Hs Hb) as (_ & v & _ & _ & E & H); rewrite E; cbn; unfold WriteBatch.entries;
    destruct (entries_ b !! i) as [e|] eqn:Hi; try done; cbn; intros [= <-];
    destruct (Forall2_lookup_r _ _ _ _ _ H Hi) as (x & -> & Hx); cbn; eapply read_string_holds; apply Hx.
Qed.

(** *** Writing

    An operation on [o] changes nothing but the array of [o] and memory that was free. *)
Record only_changes (o : Z) (s s' : Store) : Prop := {
  oc_chars : chars_kept s s';
  oc_arrays : forall a o' v, o' <> o -> st_blocks s !! a = Some (o', BSlots v) -> st_blocks s' !! a = Some (o', BSlots v);
  oc_owner : forall a o' b, st_blocks s' !! a = Some (o', b) -> o' = o \/ exists b', st_blocks s !! a = Some (o', b');
  oc_objs : forall o', o' <> o -> st_objs s' !! o' = st_objs s !! o';
}.

Lemma stored_update s s' m o p b : stored s m -> only_changes o s s' -> (forall a, is_Some (st_blocks s' !! a) -> a < st_next s') ->
  st_objs s' !! o = Some p -> array_holds s' o p b -> stored s' (<[o := b]> m).
Proof.
  intros [_ Ho Hh] [Hc Ha Hw Hobj] Hf Hp Hb. split; [done|..].
  - intros a o' bl H. destruct (Hw _ _ _ H) as [->|(bl' & H')]; [by rewrite lookup_insert_eq|].
    apply lookup_insert_is_Some'. right. by eapply Ho.
  - intros o'. destruct (decide (o' = o)) as [->|Hne]; [by rewrite lookup_insert_eq, Hp|].
    rewrite lookup_insert_ne, Hobj by done. specialize (Hh o'). destruct (st_objs s !! o'), (m !! o'); try done.
    eapply array_kept; [apply Hc| |exact Hh]. intros a v _. by apply Ha.
Qed.

Lemma fresh_none s m : stored s m -> st_blocks s !! st_next s = None.
Proof. intros [Hf _ _]. destruct (st_blocks s !! st_next s) eqn:E; [|done]. pose proof (Hf _ (mk_is_Some _ _ E)). lia. Qed.

Lemma alloc_changes s m o b : stored s m -> only_changes o s (arena_alloc s o b).1.
Proof.
  intros Hs%fresh_none. split; cbn; try done.
  - intros o' a bs H. cbn. rewrite lookup_insert_ne; [done|congruence].
  - intros a o' v _ H. rewrite lookup_insert_ne; [done|congruence].
  - intros a o' bl [[_ [= -> _]]|[_ ?]]%lookup_insert_Some; eauto.
Qed.

Lemma alloc_fresh s m o b a : stored s m -> is_Some (st_blocks (arena_alloc s o b).1 !! a) -> a < st_next (arena_alloc s o b).1.
Proof. intros [Hf _ _]. cbn. intros [->|[_ H]]%lookup_insert_is_Some; [lia|]. specialize (Hf a H). lia. Qed.

(** A string is made. *)
Lemma ArenaString_spec sso s m o bs : stored s m -> is_Some (m !! o) ->
  exists s' x, BatchObject.ArenaString sso s o bs = (s', x) /\ stored s' m /\ chars_kept s s' /\ str_holds s' o x bs.
Proof.
  intros Hs [b Hb]. unfold BatchObject.ArenaString. destruct (zlen bs <=? sso); [by exists s, (Short bs); split_and!; try done; intros ???|].
  do 2 eexists. split; [reflexivity|]. pose proof (alloc_changes s m o (BChars bs) Hs) as Hc.
  split; [|split; [apply Hc|by cbn; rewrite lookup_insert_eq]].
  destruct (read_slots_holds s m o b Hs Hb) as (p & _ & Hp & Ha & _). rewrite <- (insert_id m o b) by done.
  eapply stored_update; [done|done|intros a; by apply alloc_fresh with m|exact Hp|].
  eapply array_kept; [apply Hc| |exact Ha]. intros a v _ H. cbn. rewrite lookup_insert_ne; [done|].
  pose proof (fresh_none s m Hs). congruence.
Qed.

(** The array is written in place. *)
Lemma set_array_changes s o a v v' : st_blocks s !! a = Some (o, BSlots v) -> only_changes o s (set_block s a o (BSlots v')).
Proof.
  intros H. split; cbn; try done.
  - intros o' a' bs H'. cbn. rewrite lookup_insert_ne; [done|congruence].
  - intros a' o' v'' Hne H'. rewrite lookup_insert_ne; [done|congruence].
  - intros a' o' bl [[_ [= -> _]]|[_ ?]]%lookup_insert_Some; eauto.
Qed.

Lemma set_array s m o b a v v' b' : stored s m -> m !! o = Some b -> st_objs s !! o = Some (Some a) ->
  st_blocks s !! a = Some (o, BSlots v) -> Forall2 (slot_holds s o) (items v') (entries_ b') ->
  stored (set_block s a o (BSlots v')) (<[o := b']> m) /\ chars_kept s (set_block s a o (BSlots v')).
Proof.
  intros Hs Hb Hp Hv H. pose proof (set_array_changes s o a v v' Hv) as Hc. split; [|apply Hc].
  eapply stored_update; [done|done| |exact Hp|].
  - intros a'. cbn. intros [<-|[_ H']]%lookup_insert_is_Some; apply Hs; [by eexists|done].
  - exists v'. cbn. rewrite lookup_insert_eq. split; [done|]. eapply slots_kept; [apply Hc|done].
Qed.

(** A new array takes the place of the one that is there, if any. *)
Lemma new_array s m o b v' b' : stored s m -> m !! o = Some b -> Forall2 (slot_holds s o) (items v') (entries_ b') ->
  stored (set_batch (arena_alloc s o (BSlots v')).1 o (Some (st_next s))) (<[o := b']> m) /\
  chars_kept s (set_batch (arena_alloc s o (BSlots v')).1 o (Some (st_next s))).
Proof.
  intros Hs Hb H. pose proof (alloc_changes s m o (BSlots v') Hs) as [Hc Ha Hw Ho]. split; [|exact Hc].
  eapply (stored_update s _ m o (Some (st_next s))); [done|split; try done|..].
  - intros o' Hne. cbn. by rewrite lookup_insert_ne.
  - intros a. by apply (alloc_fresh s m o (BSlots v')).
  - cbn. by rewrite lookup_insert_eq.
  - exists v'. cbn. rewrite lookup_insert_eq. split; [done|]. eapply slots_kept; [apply Hc|done].
Qed.

Lemma chars_trans s1 s2 s3 : chars_kept s1 s2 -> chars_kept s2 s3 -> chars_kept s1 s3.
Proof. intros H1 H2 o a bs H. by apply H2, H1. Qed.

Section Refinement.
Context {L : Libc} (sso : Z).

Lemma push_back_spec s m o b x e : stored s m -> m !! o = Some b -> slot_holds s o x e ->
  exists s', BatchObject.push_back s o x = Some s' /\ stored s' (<[o := mkWriteBatch (entries_ b ++ [e])]> m) /\ chars_kept s s'.
Proof.
  intros Hs Hb Hx. destruct (read_slots_holds s m o b Hs Hb) as (p & v & Hp & Ha & Hv & H). unfold BatchObject.push_back.
  rewrite Hp, Hv. cbn [mbind option_bind].
  assert (Forall2 (slot_holds s o) (items (vector_push_back v x)) (entries_ (mkWriteBatch (entries_ b ++ [e])))) as H'
    by (cbn; apply Forall2_app; [done|by apply Forall2_cons]).
  destruct p as [a|]; [|eexists; split; [reflexivity|by apply new_array with b]].
  assert (st_blocks s !! a = Some (o, BSlots v)) as Hva.
  { destruct Ha as (v' & Hv' & _). unfold read_slots in Hv. rewrite Hp in Hv. cbn [mbind option_bind] in Hv. rewrite Hv' in Hv. congruence. }
  destruct (zlen (items v) <? capacity v); [eexists; split; [reflexivity|by apply set_array with b v]|].
  destruct (set_array s m o b a v (vector_clear v) (mkWriteBatch [])) as [Hs1 Hc1]; try done.
  destruct (new_array _ _ o (mkWriteBatch []) (vector_push_back v x) (mkWriteBatch (entries_ b ++ [e])) Hs1) as [Hs2 Hc2];
    [by rewrite lookup_insert_eq|eapply slots_kept; [apply Hc1|done]|].
  eexists. split; [reflexivity|]. rewrite insert_insert_eq in Hs2. split; [exact Hs2|by eapply chars_trans].
Qed.

(** Two strings and an entry. *)
Lemma entry_spec s m o b t k v : stored s m -> m !! o = Some b ->
  exists s1 x s2 y s3, BatchObject.ArenaString sso s o k = (s1, x) /\ stored s1 m /\ chars_kept s s1 /\
    BatchObject.ArenaString sso s1 o v = (s2, y) /\ BatchObject.push_back s2 o (mkSlot t x y) = Some s3 /\
    stored s3 (<[o := mkWriteBatch (entries_ b ++ [mkEntry t k v])]> m) /\ chars_kept s s3.
Proof.
  intros Hs Hb. destruct (ArenaString_spec sso s m o k Hs (mk_is_Some _ _ Hb)) as (s1 & x & E1 & Hs1 & Hc1 & Hx).
  destruct (ArenaString_spec sso s1 m o v Hs1 (mk_is_Some _ _ Hb)) as (s2 & y & E2 & Hs2 & Hc2 & Hy).
  destruct (push_back_spec s2 m o b (mkSlot t x y) (mkEntry t k v) Hs2 Hb) as (s3 & E3 & Hs3 & Hc3);
    [split; [done|eapply str_kept; [apply Hc2|done]|done]|].
  exists s1, x, s2, y, s3. do 6 (split; [done|]). by eapply chars_trans, chars_trans.
Qed.

Lemma appendAll_loop o other xs : forall es s m b, stored s m -> m !! o = Some b -> Forall2 (slot_holds s other) xs es ->
  exists s', foldM (fun s entry => BatchObject.appendEntry sso s o entry) s xs = Some s' /\
    stored s' (<[o := fold_left WriteBatch.appendEntry es b]> m).
Proof.
  induction xs as [|x xs IH]; intros es s m b Hs Hb H.
  - apply Forall2_nil_inv_l in H as ->. exists s. split; [done|]. cbn [fold_left]. by rewrite insert_id.
  - apply Forall2_cons_inv_l in H as (e & es' & [Ht Hk Hv] & H & ->).
    destruct (entry_spec s m o b (sl_type x) (entry_key e) (entry_value e) Hs Hb)
      as (s1 & k & s2 & v & s3 & E1 & _ & Hc1 & E2 & E3 & Hs3 & Hc3).
    cbn [foldM]. unfold BatchObject.appendEntry at 1. rewrite (read_string_holds _ _ _ _ Hk). cbn [mbind option_bind]. rewrite E1.
    rewrite (read_string_holds _ _ _ _ (str_kept _ _ _ _ _ (Hc1 _) Hv)). cbn [mbind option_bind]. rewrite E2, E3. cbn [mbind option_bind].
    rewrite Ht in Hs3. destruct (IH es' s3 _ (WriteBatch.appendEntry b e) Hs3) as (s' & E4 & Hs');
      [by rewrite lookup_insert_eq|eapply slots_kept; [apply Hc3|done]|].
    exists s'. split; [done|]. by rewrite insert_insert_eq in Hs'.
Qed.

Lemma appendAll_spec s m o other b b' : stored s m -> m !! o = Some b -> m !! other = Some b' ->
  exists s', BatchObject.appendAll sso s o other = Some s' /\ stored s' (<[o := fold_left WriteBatch.appendEntry (entries_ b') b]> m).
Proof.
  intros Hs Hb Hb'. destruct (read_slots_holds s m other b' Hs Hb') as (_ & v & _ & _ & Hv & H).
  unfold BatchObject.appendAll. rewrite Hv. cbn [mbind option_bind]. by eapply appendAll_loop.
Qed.

Lemma make_spec s m o : stored s m -> m !! o = None -> stored (BatchObject.make s o) (<[o := WriteBatch.new]> m).
Proof.
  intros Hs Ho. eapply (stored_update s _ m o None); [done|split; cbn; try done|apply Hs| |done].
  - by intros o' a bs.
  - intros a o' b H. right. by eexists.
  - intros o' Hne. by rewrite lookup_insert_ne.
  - cbn. by rewrite lookup_insert_eq.
Qed.

Lemma clear_spec s m o b : stored s m -> m !! o = Some b ->
  exists s', BatchObject.clear s o = Some s' /\ stored s' (<[o := mkWriteBatch []]> m).
Proof.
  intros Hs Hb. destruct (read_slots_holds s m o b Hs Hb) as (p & v & Hp & Ha & Hv & _). unfold BatchObject.clear.
  rewrite Hp, Hv. cbn [mbind option_bind]. eexists. split; [reflexivity|]. destruct p as [a|].
  - destruct Ha as (v' & Hv' & _). by eapply set_array.
  - cbn in Ha. destruct b as [es]. cbn in Ha. subst es. by rewrite insert_id.
Qed.

Lemma destroy_spec_batch s m o : stored s m -> stored (BatchObject.destroy s o) (delete o m).
Proof.
  intros [Hf Ho Hh]. split.
  - intros a [c [H _]%map_lookup_filter_Some]. cbn. apply Hf. by eexists.
  - intros a o' b [H Hne]%map_lookup_filter_Some. cbn in Hne. rewrite lookup_delete_ne by done. by eapply Ho.
  - intros o'. destruct (decide (o' = o)) as [->|Hne]; [cbn; by rewrite !lookup_delete_eq|]. cbn [BatchObject.destroy st_objs].
    rewrite !lookup_delete_ne by done. specialize (Hh o'). destruct (st_objs s !! o'), (m !! o'); try done.
    eapply array_kept; [| |exact Hh].
    + intros a bs H. by apply map_lookup_filter_Some.
    + intros a v _ H. by apply map_lookup_filter_Some.
Qed.

(** One step of a program. *)
Lemma action_refines s m a m' : stored s m -> value_action m a = Some m' ->
  exists s', store_action sso s a = Some s' /\ stored s' m'.
Proof.
  intros Hs. destruct a as [o|o key value|o key|o other|o other|o]; cbn [value_action store_action].
  - destruct (m !! o) eqn:E; [done|]. intros [= <-]. eexists. split; [done|by apply make_spec].
  - destruct (m !! o) as [b|] eqn:Hb; [|done]. cbn [mbind option_bind]. destruct (value_view m key) as [k|] eqn:Hk; [|done].
    cbn [mbind option_bind]. destruct (value_view m value) as [v|] eqn:Hv; [|done]. intros [= <-].
    destruct (entry_spec s m o b kPut k v Hs Hb) as (s1 & x & s2 & y & s3 & E1 & Hs1 & _ & E2 & E3 & Hs3 & _).
    unfold BatchObject.Put. rewrite (read_view_holds s m _ _ Hs Hk). cbn [mbind option_bind].
    rewrite E1, (read_view_holds s1 m _ _ Hs1 Hv). cbn [mbind option_bind]. rewrite E2. by exists s3.
  - destruct (m !! o) as [b|] eqn:Hb; [|done]. cbn [mbind option_bind]. destruct (value_view m key) as [k|] eqn:Hk; [|done].
    intros [= <-]. destruct (entry_spec s m o b kDelete k [] Hs Hb) as (s1 & x & s2 & y & s3 & E1 & _ & _ & E2 & E3 & Hs3 & _).
    unfold BatchObject.Delete. rewrite (read_view_holds s m _ _ Hs Hk). cbn [mbind option_bind]. rewrite E1, E2. by exists s3.
  - destruct (m !! other) as [b|] eqn:Hb; [|done]. cbn [mbind option_bind]. destruct (m !! o) eqn:Ho; [done|]. intros [= <-].
    destruct (appendAll_spec _ _ o other WriteBatch.new b (make_spec s m o Hs Ho)) as (s' & E1 & Hs');
      [by rewrite lookup_insert_eq|rewrite lookup_insert_ne; congruence|].
    rewrite insert_insert_eq in Hs'. by exists s'.
  - destruct (m !! o) as [this|] eqn:Ho; [|done]. cbn [mbind option_bind]. destruct (m !! other) as [b|] eqn:Hb; [|done].
    intros [= <-]. unfold BatchObject.assign, WriteBatch.assign. destruct (Z.eqb_spec o other) as [->|Hne]; cbn [negb].
    { exists s. by rewrite insert_id. }
    destruct (clear_spec s m o this Hs Ho) as (s1 & -> & Hs1). cbn [mbind option_bind].
    destruct (appendAll_spec _ _ o other (mkWriteBatch []) b Hs1) as (s' & E1 & Hs');
      [by rewrite lookup_insert_eq|by rewrite lookup_insert_ne|].
    rewrite insert_insert_eq in Hs'. by exists s'.
  - destruct (m !! o) eqn:E; [|done]. intros [= <-]. eexists. split; [done|by apply destroy_spec_batch].
Qed.

(** C28: the batches a program makes in memory are the values of [WriteBatch.v]. Take any
    program that makes, fills, copies, assigns and destroys batches, in any order, with
    arguments that may be views of entries, of the same batch or another one, and that is
    correct for values. It never uses memory that is not there; in the end every batch that
    exists shows the entries of its value, so that no batch was changed or lost through
    another one; and when the last batch is gone nothing is left of the arenas. *)
Theorem batches_are_values actions m : foldM value_action ∅ actions = Some m ->
  exists s, foldM (store_action sso) store0 actions = Some s /\ (forall o b, m !! o = Some b -> read_batch s o = Some b) /\
    (forall o, is_Some (st_objs s !! o) <-> is_Some (m !! o)) /\ (m = ∅ -> st_blocks s = ∅).
Proof.
  intros H. assert (exists s, foldM (store_action sso) store0 actions = Some s /\ stored s m) as (s & E1 & Hs).
  { assert (stored store0 ∅) as H0 by (split; cbn; [intros a [? [=]]|intros a o b [=]|done]).
    revert H0 H. generalize store0 (∅ : gmap Z WriteBatchT). induction actions as [|a actions IH]; intros s m0 Hs; cbn [foldM].
    - intros [= <-]. by exists s.
    - destruct (value_action m0 a) as [m1|] eqn:Ea; [|done]. destruct (action_refines s m0 a m1 Hs Ea) as (s1 & -> & Hs1).
      by apply IH. }
  exists s. split; [done|]. split; [intros o b; by apply read_batch_holds|]. split.
  - intros o. pose proof (st_holds s m Hs o) as Ho. unfold object_holds in Ho.
    destruct (st_objs s !! o), (m !! o); try done; by split; intros [].
  - intros ->. apply map_empty. intros a. destruct (st_blocks s !! a) as [[o b]|] eqn:E; [|done].
    destruct (st_owned s _ Hs _ _ _ E) as [? ?%lookup_empty_Some]. done.
Qed.

End Refinement.

(** A batch filled from its own entry, copied, and changed and destroyed before the copy is
    looked at. *)
Lemma batches_are_values_witness : exists s,
  foldM (store_action (L := reference_libc) 3) store0
    [DoMake 1; DoPut 1 (VBytes (str "alpha")) (VBytes (str "one")); DoPut 1 (VKey 1 0) (VValue 1 0); DoCopy 2 1;
     DoDelete 1 (VBytes (str "alpha")); DoDestroy 1] = Some s /\
  read_batch s 2 = Some (mkWriteBatch [mkEntry kPut (str "alpha") (str "one"); mkEntry kPut (str "alpha") (str "one")]).
Proof.
  destruct (batches_are_values (L := reference_libc) 3
    [DoMake 1; DoPut 1 (VBytes (str "alpha")) (VBytes (str "one")); DoPut 1 (VKey 1 0) (VValue 1 0); DoCopy 2 1;
     DoDelete 1 (VBytes (str "alpha")); DoDestroy 1]
    {[ 2 := mkWriteBatch [mkEntry kPut (str "alpha") (str "one"); mkEntry kPut (str "alpha") (str "one")] ]}) as (s & E1 & Hr & _).
  - reflexivity.
  - exists s. split; [exact E1|]. apply Hr. reflexivity.
Defined.
