(* ===== verification/Wal.v ===== *)
(** * The write-ahead log (src/wal.h, src/wal.cc)

    Encoding of a group of batches as one log record, in one buffer
    ([EncodeBatchInto]) or as a list of fragments for [writev]
    ([EncodeBatchFragmentsInto]), and decoding of a whole log ([DecodeLog]). *)

From S2P Require Import Prelude Status Coding Crc32c WriteBatch.

Definition kBatchRecord : Z := 1.
Definition kRecordHeaderSize : Z := 4 + 4 + 1.
Definition kBatchHeaderSize : Z := 8 + 4.
Definition kEntryHeaderSize : Z := 1 + 4 + 4.

Ltac sizes := change kEntryHeaderSize with 9 in *; change kBatchHeaderSize with 12 in *;
  change kRecordHeaderSize with 9 in *.

Definition putBytes (out bs : bytes) : bytes := out ++ bs.

(** An [iov_base] points into the [fixed] buffer, whose contents are still written to
    after the pointer is taken, or at bytes that do not change while the record is in
    flight: a string of a [const] batch, or the finished fallback record. *)
Inductive iov_ptr := FixedPtr (offset : Z) | DataPtr (data : bytes).

Record iovec := mkIovec { iov_base : iov_ptr; iov_len : Z }.

Record EncodedBatchFragments := mkFragments {
  fixed : vector byte;
  iovecs : vector iovec;
  encoded_size : Z;
}.

Record DecodedBatch := mkDecodedBatch { baseSequence : Z; batch : WriteBatchT }.

Record DecodeResult := mkDecodeResult { batches : list DecodedBatch; validBytes : Z }.

Section Wal.
Context {L : Libc} {C : Cpu}.

Definition appendIovec (iovs : vector iovec) (data : iov_ptr) (sz : Z) : vector iovec :=
  if sz =? 0 then iovs else vector_push_back iovs (mkIovec data sz).

Definition countEntries (bs : list WriteBatchT) : Z :=
  fold_left (fun count b => u32 (count + u32 (zlen (WriteBatch.entries b)))) bs 0.

Definition EncodedBatchSize (bs : list WriteBatchT) : Z :=
  fold_left (fun sz b =>
    fold_left (fun sz e => u64 (sz + (kEntryHeaderSize + zlen (entry_key e) + zlen (entry_value e))))
      (WriteBatch.entries b) sz)
    bs (kRecordHeaderSize + kBatchHeaderSize).

(** ** Fragments *)

(** The locals the entry loop of [EncodeBatchFragmentsInto] carries. *)
Record FragState := mkFragState {
  fs_fixed : bytes;
  fs_iovecs : vector iovec;
  fs_crc : Z;
  fs_entryHeaderOffset : Z;
}.

Definition encodeEntryFragment (st : FragState) (e : Entry) : option FragState :=
  let off := fs_entryHeaderOffset st in
  fixed ← vec_set (fs_fixed st) off (z2b (type_code (entry_type e)));
  fixed ← writeFixed32LE fixed (u64 (off + 1)) (u32 (zlen (entry_key e)));
  fixed ← writeFixed32LE fixed (u64 (off + 5)) (u32 (zlen (entry_value e)));
  entryHeaderBytes ← subspan fixed off kEntryHeaderSize;
  let crc := extendCrc32cSoftware (fs_crc st) entryHeaderBytes in
  let crc := extendCrc32cSoftware crc (entry_key e) in
  let crc := extendCrc32cSoftware crc (entry_value e) in
  let iovs := appendIovec (fs_iovecs st) (FixedPtr off) kEntryHeaderSize in
  let iovs := appendIovec iovs (DataPtr (entry_key e)) (zlen (entry_key e)) in
  let iovs := appendIovec iovs (DataPtr (entry_value e)) (zlen (entry_value e)) in
  Some (mkFragState fixed iovs crc (u64 (off + kEntryHeaderSize))).

Definition encodeBatchFragment (st : FragState) (b : WriteBatchT) : option FragState :=
  foldM encodeEntryFragment st (WriteBatch.entries b).

Definition EncodeBatchFragmentsInto (baseSeq : Z) (bs : list WriteBatchT)
    (encoded : EncodedBatchFragments) : option EncodedBatchFragments :=
  let entryCount := countEntries bs in
  let sz := EncodedBatchSize bs in
  let fixedV := vector_resize_fresh (vector_clear (fixed encoded))
    (u64 (kRecordHeaderSize + kBatchHeaderSize + u64 (entryCount * kEntryHeaderSize))) Byte.x00 in
  let iovs := vector_reserve (vector_clear (iovecs encoded)) (u64 (2 + u64 (entryCount * 3))) in
  fx ← vec_set (items fixedV) 8 (z2b kBatchRecord);
  fx ← writeFixed64LE fx kRecordHeaderSize baseSeq;
  fx ← writeFixed32LE fx (kRecordHeaderSize + 8) entryCount;
  batchHeader ← subspan fx kRecordHeaderSize kBatchHeaderSize;
  let crc := extendCrc32cSoftware 0xffffffff batchHeader in
  let iovs := appendIovec iovs (FixedPtr 0) (kRecordHeaderSize + kBatchHeaderSize) in
  st ← foldM encodeBatchFragment
         (mkFragState fx iovs crc (kRecordHeaderSize + kBatchHeaderSize)) bs;
  fx ← writeFixed32LE (fs_fixed st) 0 (u32 (Z.lnot (fs_crc st)));
  fx ← writeFixed32LE fx 4 (u32 (u64 (sz - kRecordHeaderSize)));
  Some (mkFragments (mkVector fx (capacity fixedV)) (fs_iovecs st) sz).

(** ** One buffer *)

Definition encodeEntry (record : bytes) (e : Entry) : bytes :=
  let record := record ++ [z2b (type_code (entry_type e))] in
  let record := appendFixed32LE record (u32 (zlen (entry_key e))) in
  let record := appendFixed32LE record (u32 (zlen (entry_value e))) in
  let record := putBytes record (entry_key e) in
  putBytes record (entry_value e).

Definition EncodeBatchInto (baseSeq : Z) (bs : list WriteBatchT) : option bytes :=
  let record := appendFixed32LE [] 0 in
  let record := appendFixed32LE record 0 in
  let record := record ++ [z2b kBatchRecord] in
  let payloadOffset := zlen record in
  let record := appendFixed64LE record baseSeq in
  let record := appendFixed32LE record (countEntries bs) in
  let record := fold_left (fun record b =>
    fold_left encodeEntry (WriteBatch.entries b) record) bs record in
  payload ← subspan record payloadOffset (zlen record - payloadOffset);
  record ← writeFixed32LE record 0 (Crc32C payload);
  writeFixed32LE record 4 (u32 (zlen payload)).

(** ** Decoding *)

Definition corrupt {T} (m : string) : option (Result T) := Some (RStatus (Status.Corruption m)).

(** The loop over the entries of one payload, from index [i]. Every round consumes at
    least nine bytes, so the payload's length bounds the rounds. *)
Fixpoint decodeEntries (fuel : nat) (payload : bytes) (i entryCount payloadOffset : Z)
    (b : WriteBatchT) : option (Result WriteBatchT) :=
  if i <? entryCount then
    match fuel with
    | O => None
    | S fuel =>
      if payloadOffset >=? zlen payload then corrupt "truncated WAL batch entry" else
      typeByte ← vec_get payload payloadOffset;
      readKey ← readFixed32LE payload (u64 (payloadOffset + 1));
      match readKey with
      | None => corrupt "invalid WAL batch entry"
      | Some (keySize, payloadOffset) =>
        readValue ← readFixed32LE payload payloadOffset;
        match readValue with
        | None => corrupt "invalid WAL batch entry"
        | Some (valueSize, payloadOffset) =>
          if u64 (payloadOffset + keySize + valueSize) >? zlen payload
          then corrupt "truncated WAL batch payload" else
          key ← subspan payload payloadOffset keySize;
          let payloadOffset := u64 (payloadOffset + keySize) in
          value ← subspan payload payloadOffset valueSize;
          let payloadOffset := u64 (payloadOffset + valueSize) in
          if b2z typeByte =? type_code kPut then
            decodeEntries fuel payload (u32 (i + 1)) entryCount payloadOffset
              (WriteBatch.Put b key value)
          else if b2z typeByte =? type_code kDelete then
            decodeEntries fuel payload (u32 (i + 1)) entryCount payloadOffset
              (WriteBatch.Delete b key)
          else corrupt "unknown WAL entry type"
        end
      end
    end
  else Some (RValue b).

Definition decodePayload (payload : bytes) : option (Result DecodedBatch) :=
  readBase ← readFixed64LE payload 0;
  match readBase with
  | None => corrupt "invalid WAL batch header"
  | Some (base, payloadOffset) =>
    readCount ← readFixed32LE payload payloadOffset;
    match readCount with
    | None => corrupt "invalid WAL batch header"
    | Some (entryCount, payloadOffset) =>
      r ← decodeEntries (S (length payload)) payload 0 entryCount payloadOffset WriteBatch.new;
      Some (match r with
            | RValue b => RValue (mkDecodedBatch base b)
            | RStatus s => RStatus s
            end)
    end
  end.

(** What one round of the loop over records does: leave the loop, return an error, or
    add a batch and go on at the next offset. *)
Inductive RecordStep :=
  | StopTail
  | Fail (s : StatusT)
  | Next (d : DecodedBatch) (offset : Z).

Definition decodeRecord (bs : bytes) (recordOffset : Z) : option RecordStep :=
  readCrc ← readFixed32LE bs recordOffset;
  match readCrc with
  | None => Some StopTail
  | Some (expectedCrc, offset) =>
    readLength ← readFixed32LE bs offset;
    match readLength with
    | None => Some StopTail
    | Some (length, offset) =>
      if offset >=? zlen bs then Some StopTail else
      type ← vec_get bs offset;
      let offset := u64 (offset + 1) in
      if u64 (offset + length) >? zlen bs then Some StopTail else
      if negb (b2z type =? kBatchRecord)
      then Some (Fail (Status.Corruption "unknown WAL record type")) else
      payload ← subspan bs offset length;
      if negb (Crc32C payload =? expectedCrc) then
        if u64 (recordOffset + 9 + length) >=? zlen bs then Some StopTail
        else Some (Fail (Status.Corruption "WAL checksum mismatch"))
      else
        r ← decodePayload payload;
        Some (match r with
              | RValue d => Next d (u64 (offset + length))
              | RStatus s => Fail s
              end)
    end
  end.

(** The loop over records; a round that goes on consumes at least nine bytes. *)
Fixpoint decodeLoop (fuel : nat) (bs : bytes) (offset : Z) (result : DecodeResult)
    : option (Result DecodeResult) :=
  if offset <? zlen bs then
    match fuel with
    | O => None
    | S fuel =>
      step ← decodeRecord bs offset;
      match step with
      | StopTail => Some (RValue result)
      | Fail s => Some (RStatus s)
      | Next d offset =>
          decodeLoop fuel bs offset (mkDecodeResult (batches result ++ [d]) offset)
      end
    end
  else Some (RValue result).

Definition DecodeLog (bs : bytes) : option (Result DecodeResult) :=
  decodeLoop (S (length bs)) bs 0 (mkDecodeResult [] 0).

(** ** Gathering

    What [writev] transfers: the bytes each [iovec] points at, in order, read from the
    buffers as they are when the operation runs. *)

Definition iovec_bytes (fixedBuf : bytes) (v : iovec) : option bytes :=
  match iov_base v with
  | FixedPtr off => subspan fixedBuf off (iov_len v)
  | DataPtr data => subspan data 0 (iov_len v)
  end.

Definition materializeIovecs (fixedBuf : bytes) (vs : list iovec) : option bytes :=
  foldM (fun out v => bs ← iovec_bytes fixedBuf v; Some (out ++ bs)) [] vs.

End Wal.

(** ** The record format

    What a record holds, as a reference function of the base sequence number and the
    entries of the whole group. *)

Definition entry_header (e : Entry) : bytes :=
  z2b (type_code (entry_type e)) ::
    le_bytes 4 (zlen (entry_key e)) ++ le_bytes 4 (zlen (entry_value e)).

Definition entry_bytes (e : Entry) : bytes := entry_header e ++ entry_key e ++ entry_value e.

Definition entries_bytes (es : list Entry) : bytes := concat (entry_bytes <$> es).

Definition payload_bytes (base : Z) (es : list Entry) : bytes :=
  le_bytes 8 base ++ le_bytes 4 (zlen es) ++ entries_bytes es.

Definition record_image `{Cpu} (payload : bytes) : bytes :=
  le_bytes 4 (Crc32C payload) ++ le_bytes 4 (zlen payload) ++ [z2b kBatchRecord] ++ payload.

Definition record_bytes `{Cpu} (base : Z) (es : list Entry) : bytes :=
  record_image (payload_bytes base es).

(** A group fits the format's 32-bit length field. *)
Definition encodable (es : list Entry) : Prop := zlen (entries_bytes es) + 12 < 2 ^ 32.

(** Entries the encoders can hold in memory and count. *)
Definition storable (es : list Entry) : Prop := zlen es < 2 ^ 32 /\ zlen (entries_bytes es) < 2 ^ 62.

#[global] Instance encodable_dec es : Decision (encodable es).
Proof. apply _. Defined.

Lemma le_bytes_mod n v : le_bytes n (v mod 256 ^ Z.of_nat n) = le_bytes n v.
Proof.
  rewrite <- (le_bytes_le_val (le_bytes n v)), length_le_bytes, le_val_le_bytes. done.
Qed.

Lemma le_bytes_u32 v : le_bytes 4 (u32 v) = le_bytes 4 v.
Proof. apply (le_bytes_mod 4). Qed.

Lemma le_bytes_u64 v : le_bytes 8 (u64 v) = le_bytes 8 v.
Proof. apply (le_bytes_mod 8). Qed.
#[export] Hint Rewrite le_bytes_u32 le_bytes_u64 : se.

Lemma length_entry_header e : length (entry_header e) = 9%nat.
Proof. unfold entry_header. simpl. len. Qed.
#[export] Hint Rewrite length_entry_header : len.

Lemma length_entry_bytes e :
  length (entry_bytes e) = (9 + length (entry_key e) + length (entry_value e))%nat.
Proof. unfold entry_bytes. len. Qed.
#[export] Hint Rewrite length_entry_bytes : len.

Lemma entries_bytes_cons e es : entries_bytes (e :: es) = entry_bytes e ++ entries_bytes es.
Proof. done. Qed.

Lemma entries_bytes_app es fs : entries_bytes (es ++ fs) = entries_bytes es ++ entries_bytes fs.
Proof. unfold entries_bytes. by rewrite fmap_app, concat_app. Qed.

Lemma length_entries_bytes es : 9 * zlen es <= zlen (entries_bytes es).
Proof.
  induction es as [|e es IH]; [done|]. rewrite entries_bytes_cons. len.
Qed.

Lemma encodable_storable es : encodable es -> storable es.
Proof. unfold encodable, storable. pose proof (length_entries_bytes es). lia. Qed.

Lemma length_payload_bytes base es : zlen (payload_bytes base es) = 12 + zlen (entries_bytes es).
Proof. unfold payload_bytes. len. Qed.

Lemma length_record_image `{Cpu} p : zlen (record_image p) = 9 + zlen p.
Proof. unfold record_image. len. Qed.

Lemma length_record_bytes `{Cpu} base es :
  zlen (record_bytes base es) = 21 + zlen (entries_bytes es).
Proof. unfold record_bytes. rewrite length_record_image, length_payload_bytes. lia. Qed.

Section Encoding.
Context {L : Libc} {C : Cpu}.

Lemma countEntries_spec bs : countEntries bs = u32 (zlen (all_entries bs)).
Proof.
  unfold countEntries.
  enough (forall n, u32 n = n ->
    fold_left (fun count b => u32 (count + u32 (zlen (WriteBatch.entries b)))) bs n
    = u32 (n + zlen (all_entries bs))) as E by (by rewrite E).
  induction bs as [|b bs IH]; intros n Hn; [simpl; by rewrite Z.add_0_r|].
  rewrite fold_left_cons, IH by apply u32_idemp.
  rewrite all_entries_cons, length_app, Nat2Z.inj_add. unfold u32.
  rewrite Zplus_mod_idemp_r, Zplus_mod_idemp_l. f_equal. lia.
Qed.

Lemma EncodedBatchSize_spec bs : EncodedBatchSize bs = u64 (21 + zlen (entries_bytes (all_entries bs))).
Proof.
  unfold EncodedBatchSize. rewrite nested_loop. change (kRecordHeaderSize + kBatchHeaderSize) with 21.
  generalize (all_entries bs). intros es.
  enough (forall n, u64 n = n ->
    fold_left (fun sz e => u64 (sz + (kEntryHeaderSize + zlen (entry_key e) + zlen (entry_value e)))) es n
    = u64 (n + zlen (entries_bytes es))) as E by (by rewrite E).
  induction es as [|e es IH]; intros n Hn; [simpl; by rewrite Z.add_0_r|].
  rewrite fold_left_cons, IH by apply u64_idemp. rewrite entries_bytes_cons. unfold u64.
  rewrite Zplus_mod_idemp_l. f_equal. unfold kEntryHeaderSize. len.
Qed.

Lemma encodeEntry_spec record e : encodeEntry record e = record ++ entry_bytes e.
Proof.
  unfold encodeEntry, appendFixed32LE, putBytes, entry_bytes, entry_header.
  rewrite !appendFixedLE_spec, !le_bytes_u32, <- !app_assoc. cbn [app]. by rewrite <- ?app_assoc.
Qed.

Lemma encodeEntries_spec record es : fold_left encodeEntry es record = record ++ entries_bytes es.
Proof.
  revert record. induction es as [|e es IH]; intros record; [by rewrite app_nil_r|].
  by rewrite fold_left_cons, IH, encodeEntry_spec, entries_bytes_cons, app_assoc.
Qed.

(** The contiguous encoder is defined on every input and writes the reference record. *)
Lemma EncodeBatchInto_spec base bs :
  EncodeBatchInto base bs = Some (record_bytes base (all_entries bs)).
Proof.
  unfold EncodeBatchInto. rewrite nested_loop, encodeEntries_spec.
  unfold appendFixed32LE, appendFixed64LE.
  rewrite !appendFixedLE_spec, countEntries_spec, le_bytes_u32.
  set (hdr := _ ++ [z2b kBatchRecord]). set (p := payload_bytes base (all_entries bs)).
  replace (((hdr ++ _) ++ _) ++ _) with (hdr ++ p)
    by (unfold p, payload_bytes; by rewrite <- !app_assoc).
  replace (subspan _ _ _) with (Some p); cbn [mbind option_bind].
  - change hdr with ([] ++ le_bytes 4 0 ++ le_bytes 4 0 ++ [z2b kBatchRecord]).
    rewrite <- !app_assoc, writeFixed32LE_at by done. cbn [mbind option_bind].
    rewrite app_nil_l, writeFixed32LE_at, le_bytes_u32 by done. done.
  - rewrite <- (app_nil_r (hdr ++ p)), <- app_assoc. symmetry. apply subspan_middle; len.
Qed.

(** *** Fragments *)

Definition opt_iovec (p : iov_ptr) (n : Z) : list iovec := if n =? 0 then [] else [mkIovec p n].

Definition entry_iovecs (off : Z) (e : Entry) : list iovec :=
  mkIovec (FixedPtr off) 9 :: opt_iovec (DataPtr (entry_key e)) (zlen (entry_key e))
    ++ opt_iovec (DataPtr (entry_value e)) (zlen (entry_value e)).

Fixpoint entries_iovecs (off : Z) (es : list Entry) : list iovec :=
  match es with
  | [] => []
  | e :: es => entry_iovecs off e ++ entries_iovecs (off + 9) es
  end.

Lemma items_appendIovec iv p n : items (appendIovec iv p n) = items iv ++ opt_iovec p n.
Proof. unfold appendIovec, opt_iovec. zb; [by rewrite app_nil_r|done]. Qed.

Lemma encodeEntryFragment_spec hd rest iv crc off e :
  off = zlen hd -> off + 9 < 2 ^ 64 ->
  exists iv', encodeEntryFragment (mkFragState (hd ++ replicate 9 Byte.x00 ++ rest) iv crc off) e
    = Some (mkFragState (hd ++ entry_header e ++ rest) iv'
              (extendCrc32cSoftware crc (entry_bytes e)) (off + 9))
    /\ items iv' = items iv ++ entry_iovecs off e.
Proof.
  intros -> Hb. eexists. unfold encodeEntryFragment. sizes. cbn [fs_fixed fs_iovecs fs_crc fs_entryHeaderOffset].
  change (replicate 9 Byte.x00 ++ rest) with (Byte.x00 :: replicate 4 Byte.x00 ++ replicate 4 Byte.x00 ++ rest).
  rewrite vec_set_middle. cbn [mbind option_bind]. rewrite !u64_small by lia.
  set (t := z2b _). set (z4 := replicate 4 Byte.x00).
  replace (hd ++ t :: z4 ++ z4 ++ rest) with ((hd ++ [t]) ++ z4 ++ z4 ++ rest)
    by (by rewrite <- app_assoc).
  rewrite writeFixed32LE_at by len. cbn [mbind option_bind].
  rewrite (app_assoc (hd ++ [t])), writeFixed32LE_at by len. cbn [mbind option_bind].
  rewrite !le_bytes_u32.
  replace (((hd ++ [t]) ++ _) ++ _) with (hd ++ entry_header e ++ rest)
    by (unfold entry_header; cbn [app]; rewrite <- ?app_assoc; cbn [app]; by rewrite <- ?app_assoc).
  rewrite subspan_middle by len. cbn [mbind option_bind].
  rewrite <- !extendCrc32cSoftware_app. split; [done|].
  rewrite !items_appendIovec. unfold entry_iovecs. rewrite <- !app_assoc. done.
Qed.

Lemma encodeFragments_loop es hd iv crc off :
  off = zlen hd -> off + 9 * zlen es < 2 ^ 64 ->
  exists iv', foldM encodeEntryFragment
      (mkFragState (hd ++ replicate (9 * length es) Byte.x00) iv crc off) es
    = Some (mkFragState (hd ++ concat (entry_header <$> es)) iv'
              (extendCrc32cSoftware crc (entries_bytes es)) (off + 9 * zlen es))
    /\ items iv' = items iv ++ entries_iovecs off es.
Proof.
  revert hd iv crc off. induction es as [|e es IH]; intros hd iv crc off Ho Hb.
  - exists iv. simpl. rewrite !app_nil_r, Z.add_0_r. done.
  - cbn [length foldM] in *.
    replace (9 * S (length es))%nat with (9 + 9 * length es)%nat by lia.
    rewrite replicate_add.
    destruct (encodeEntryFragment_spec hd (replicate (9 * length es) Byte.x00) iv crc off e)
      as (iv1 & -> & H1); [done|lia|].
    destruct (IH (hd ++ entry_header e) iv1 (extendCrc32cSoftware crc (entry_bytes e)) (off + 9))
      as (iv2 & E2 & H2); [len|lia|].
    rewrite app_assoc, E2. exists iv2. split.
    + rewrite entries_bytes_cons, extendCrc32cSoftware_app. cbn [fmap list_fmap concat].
      rewrite <- app_assoc. do 2 f_equal. lia.
    + rewrite H2, H1, <- app_assoc. done.
Qed.

(** The gathered fragments are the record, read from the final buffer. *)
Lemma foldM_materialize fx vs out :
  foldM (fun out v => bs ← iovec_bytes fx v; Some (out ++ bs)) out vs
  = materializeIovecs fx vs ≫= λ bs, Some (out ++ bs).
Proof.
  unfold materializeIovecs. revert out. induction vs as [|v vs IH]; intros out.
  - simpl. by rewrite app_nil_r.
  - simpl. destruct (iovec_bytes fx v) as [bs|]; simpl; [|done].
    rewrite (IH (out ++ bs)), (IH bs). destruct (foldM _ [] vs); simpl; [|done].
    by rewrite app_assoc.
Qed.

Lemma materialize_cons fx v vs :
  materializeIovecs fx (v :: vs) =
    a ← iovec_bytes fx v; b ← materializeIovecs fx vs; Some (a ++ b).
Proof.
  unfold materializeIovecs at 1. simpl. destruct (iovec_bytes fx v); simpl; [|done].
  apply foldM_materialize.
Qed.

Lemma materialize_app fx vs ws :
  materializeIovecs fx (vs ++ ws) =
    a ← materializeIovecs fx vs; b ← materializeIovecs fx ws; Some (a ++ b).
Proof.
  unfold materializeIovecs at 1. rewrite foldM_app.
  change (foldM _ [] vs) with (materializeIovecs fx vs).
  destruct (materializeIovecs fx vs); simpl; [|done]. apply foldM_materialize.
Qed.

Lemma materialize_opt fx bs : materializeIovecs fx (opt_iovec (DataPtr bs) (zlen bs)) = Some bs.
Proof.
  unfold opt_iovec. zb; [by destruct bs|].
  rewrite materialize_cons. cbn [iovec_bytes iov_base iov_len].
  rewrite <- (app_nil_l bs) at 1. rewrite <- (app_nil_r bs) at 1.
  rewrite subspan_middle by len. simpl. by rewrite app_nil_r.
Qed.

Lemma materialize_entries hd es off : off = zlen hd ->
  materializeIovecs (hd ++ concat (entry_header <$> es)) (entries_iovecs off es)
  = Some (entries_bytes es).
Proof.
  revert hd off. induction es as [|e es IH]; intros hd off ->; [done|].
  cbn [entries_iovecs fmap list_fmap concat]. unfold entry_iovecs.
  rewrite <- app_comm_cons, materialize_cons. cbn [iovec_bytes iov_base iov_len].
  rewrite subspan_middle by len. cbn [mbind option_bind].
  rewrite materialize_app, materialize_app, !materialize_opt. cbn [mbind option_bind].
  rewrite app_assoc, IH by len. cbn [mbind option_bind].
  rewrite entries_bytes_cons. unfold entry_bytes. by rewrite <- !app_assoc.
Qed.

(** The fragment encoder is defined while the group's size fits its counters; its
    fragments, gathered from the final buffer, are the reference record. *)
Lemma materialize_record hd es : zlen hd = 21 ->
  materializeIovecs (hd ++ concat (entry_header <$> es)) (mkIovec (FixedPtr 0) 21 :: entries_iovecs 21 es)
  = Some (hd ++ entries_bytes es).
Proof.
  intros Hh. rewrite materialize_cons. cbn [iovec_bytes iov_base iov_len].
  rewrite <- (app_nil_l (hd ++ _)) at 1. rewrite subspan_middle by done. cbn [mbind option_bind].
  by rewrite (materialize_entries hd es 21).
Qed.

Lemma EncodeBatchFragmentsInto_spec `{!CpuSpec C} base bs old :
  storable (all_entries bs) ->
  exists fr, EncodeBatchFragmentsInto base bs old = Some fr /\
    materializeIovecs (items (fixed fr)) (items (iovecs fr))
      = Some (record_bytes base (all_entries bs)) /\
    encoded_size fr = zlen (record_bytes base (all_entries bs)) /\
    items (iovecs fr) = mkIovec (FixedPtr 0) 21 :: entries_iovecs 21 (all_entries bs).
Proof.
  intros [Hcount Henc]. unfold EncodeBatchFragmentsInto, encodeBatchFragment.
  rewrite countEntries_spec, EncodedBatchSize_spec, u32_small by lia.
  sizes. change (9 + 12) with 21. rewrite !(u64_small (_ * 9)), !u64_small by lia.
  set (es := all_entries bs) in *. set (n := length es).
  unfold vector_resize_fresh. cbn [items capacity].
  replace (Z.to_nat (21 + Z.of_nat n * 9)) with (21 + 9 * n)%nat by lia.
  rewrite replicate_add. set (zs := replicate (9 * n) Byte.x00).
  change (replicate 21 Byte.x00 ++ zs) with
    (replicate 8 Byte.x00 ++ Byte.x00 :: replicate 8 Byte.x00 ++ replicate 4 Byte.x00 ++ zs).
  rewrite (vec_set_middle (replicate 8 Byte.x00)). cbn [mbind option_bind].
  set (h8 := replicate 8 Byte.x00) at 1. set (k := z2b kBatchRecord).
  change (h8 ++ k :: ?l) with ((h8 ++ [k]) ++ l).
  rewrite writeFixed64LE_at by done. cbn [mbind option_bind].
  rewrite app_assoc, writeFixed32LE_at by done. cbn [mbind option_bind].
  replace (((h8 ++ [k]) ++ _) ++ _) with
    ((h8 ++ [k]) ++ (le_bytes 8 base ++ le_bytes 4 (Z.of_nat n)) ++ zs) by (by rewrite <- !app_assoc).
  rewrite subspan_middle by done. cbn [mbind option_bind].
  rewrite nested_loopM. fold es.
  set (bh := le_bytes 8 base ++ le_bytes 4 (Z.of_nat n)). rewrite (app_assoc _ bh zs).
  set (iv0 := vector_reserve _ _).
  destruct (encodeFragments_loop es ((h8 ++ [k]) ++ bh) (appendIovec iv0 (FixedPtr 0) 21)
    (extendCrc32cSoftware 0xffffffff bh) 21) as (iv & E & Hiv); [done|lia|].
  fold n in E. fold zs in E. rewrite E. cbn [mbind option_bind fs_fixed fs_crc fs_iovecs].
  set (hs := concat (entry_header <$> es)). set (z4 := replicate 4 Byte.x00).
  replace (((h8 ++ [k]) ++ bh) ++ hs) with ([] ++ z4 ++ z4 ++ [k] ++ bh ++ hs)
    by (by rewrite <- !app_assoc).
  rewrite writeFixed32LE_at, app_nil_l by done. cbn [mbind option_bind].
  rewrite writeFixed32LE_at by done. cbn [mbind option_bind].
  rewrite le_bytes_u32, <- extendCrc32cSoftware_app.
  eexists. split; [done|]. cbn [fixed iovecs encoded_size items].
  rewrite Hiv, items_appendIovec. unfold iv0. cbn [vector_reserve vector_clear items app].
  assert (bh ++ entries_bytes es = payload_bytes base es) as ->
    by (unfold bh, payload_bytes; by rewrite <- app_assoc).
  split; [|split; [by rewrite length_record_bytes|done]].
  unfold opt_iovec. cbn [Z.eqb app].
  match goal with |- context [materializeIovecs (?a ++ ?b ++ k :: bh ++ hs) _] =>
    replace (a ++ b ++ k :: bh ++ hs) with ((a ++ b ++ [k] ++ bh) ++ hs) by (by rewrite <- !app_assoc) end.
  unfold hs. rewrite materialize_record by done.
  unfold record_bytes, record_image. rewrite Crc32C_software, length_payload_bytes.
  f_equal. unfold payload_bytes, bh. rewrite <- !app_assoc. rewrite !le_bytes_u32.
  replace (21 + zlen (entries_bytes es) - 9) with (12 + zlen (entries_bytes es)) by lia. done.
Qed.

End Encoding.

(** ** Decoding *)

Section Decoding.
Context {C : Cpu}.

(** What a round does with a log whose unread part has a whole header, in terms of the
    header's fields and the bytes that follow it. *)
Lemma decodeRecord_header pre crcb lenb t rest :
  length crcb = 4%nat -> length lenb = 4%nat ->
  zlen (pre ++ crcb ++ lenb ++ [t] ++ rest) < 2 ^ 63 ->
  decodeRecord (pre ++ crcb ++ lenb ++ [t] ++ rest) (zlen pre) =
    if le_val lenb >? zlen rest then Some StopTail
    else if negb (b2z t =? kBatchRecord)
    then Some (Fail (Status.Corruption "unknown WAL record type"))
    else let payload := take (Z.to_nat (le_val lenb)) rest in
      if negb (Crc32C payload =? le_val crcb) then
        if le_val lenb >=? zlen rest then Some StopTail
        else Some (Fail (Status.Corruption "WAL checksum mismatch"))
      else r ← decodePayload payload;
        Some (match r with
              | RValue d => Next d (zlen pre + 9 + le_val lenb)
              | RStatus s => Fail s
              end).
Proof.
  intros H1 H2 Hb. pose proof (le_val_range lenb) as Hl. rewrite H2 in Hl.
  change (256 ^ Z.of_nat 4) with (2 ^ 32) in Hl.
  unfold decodeRecord. rewrite readFixed32LE_at by (done || lia). cbn [mbind option_bind].
  rewrite app_assoc, readFixed32LE_at by (rewrite <- ?app_assoc; len). cbn [mbind option_bind].
  autorewrite with len in Hb. cbn [length] in Hb.
  destruct (_ >=? _) eqn:E; [exfalso; zb; len|]. clear E.
  rewrite app_assoc.
  replace (zlen pre + 4 + 4) with (zlen ((pre ++ crcb) ++ lenb)) at 1 by len.
  cbn [app]. rewrite vec_get_middle. cbn [mbind option_bind].
  rewrite !(u64_small (zlen pre + 4 + 4 + 1)), !(u64_small (_ + 1 + _)), !(u64_small (_ + 9 + _)) by lia.
  replace (zlen (((pre ++ crcb) ++ lenb) ++ t :: rest)) with (zlen pre + 9 + zlen rest) by len.
  replace (zlen pre + 4 + 4 + 1) with (zlen pre + 9) by lia.
  rewrite !Z.gtb_ltb, !Z.geb_leb.
  destruct (Z.ltb_spec (zlen rest) (le_val lenb)); destruct (Z.ltb_spec (zlen pre + 9 + zlen rest) (zlen pre + 9 + le_val lenb)); try lia; [done|].
  destruct (negb (b2z t =? kBatchRecord)); [done|].
  replace (subspan _ _ _) with (Some (take (Z.to_nat (le_val lenb)) rest)).
  - cbn [mbind option_bind].
    destruct (negb (Crc32C _ =? _)); [|done].
    destruct (Z.leb_spec (zlen rest) (le_val lenb)); destruct (Z.leb_spec (zlen pre + 9 + zlen rest) (zlen pre + 9 + le_val lenb)); done || lia.
  - symmetry. rewrite <- (take_drop (Z.to_nat (le_val lenb)) rest) at 1.
    rewrite cons_middle, app_assoc. apply subspan_middle; len.
Qed.

Lemma decodeRecord_short pre rest :
  zlen rest < 9 -> zlen (pre ++ rest) < 2 ^ 63 ->
  decodeRecord (pre ++ rest) (zlen pre) = Some StopTail.
Proof.
  intros Hr Hb. unfold decodeRecord.
  destruct (decide (zlen rest < 4)); [rewrite readFixed32LE_short by len; done|].
  destruct (split_at rest 4) as (a & r1 & -> & Ha); [lia|].
  rewrite readFixed32LE_at by len. cbn [mbind option_bind].
  destruct (decide (zlen r1 < 4)); [rewrite readFixed32LE_short by len; done|].
  destruct (split_at r1 4) as (b & r2 & -> & Hb2); [lia|].
  rewrite app_assoc, readFixed32LE_at by len. cbn [mbind option_bind].
  destruct (_ >=? _) eqn:E; [done|]. exfalso. zb; len.
Qed.

Lemma header_split (rest : bytes) : 9 <= zlen rest -> exists crcb lenb t r,
  rest = crcb ++ lenb ++ [t] ++ r /\ length crcb = 4%nat /\ length lenb = 4%nat.
Proof.
  intros Hr. destruct (split_at rest 4) as (a & r1 & -> & Ha); [lia|].
  destruct (split_at r1 4) as (b & r2 & -> & Hb); [len|].
  destruct r2 as [|t r]; [len|]. exists a, b, t, r. done.
Qed.

(** *** Entries *)

(** One round of the entry loop on a payload whose unread part starts with an entry. *)
Lemma decodeEntries_cons fuel pre e post i n b :
  entry_wf e -> i < n -> zlen (pre ++ entry_bytes e ++ post) < 2 ^ 63 ->
  zlen (entry_key e) < 2 ^ 32 -> zlen (entry_value e) < 2 ^ 32 ->
  decodeEntries (S fuel) (pre ++ entry_bytes e ++ post) i n (zlen pre) b =
    decodeEntries fuel (pre ++ entry_bytes e ++ post) (u32 (i + 1)) n
      (zlen (pre ++ entry_bytes e)) (mkWriteBatch (entries_ b ++ [e])).
Proof.
  intros Hwf Hi Hb Hk Hv. destruct e as [t k v]. cbn [entry_key entry_value] in *.
  set (payload := pre ++ entry_bytes (mkEntry t k v) ++ post) in *.
  assert (payload = pre ++ z2b (type_code t) :: le_bytes 4 (zlen k) ++ le_bytes 4 (zlen v)
            ++ k ++ v ++ post) as Hp.
  { unfold payload, entry_bytes, entry_header. cbn [entry_type entry_key entry_value].
    rewrite <- !app_assoc. done. }
  assert (zlen payload = zlen pre + 9 + zlen k + zlen v + zlen post) as Hlen by (rewrite Hp; len).
  cbn [decodeEntries]. destruct (Z.ltb_spec i n); [|lia].
  rewrite Z.geb_leb. destruct (Z.leb_spec (zlen payload) (zlen pre)); [lia|].
  assert (vec_get payload (zlen pre) = Some (z2b (type_code t))) as ->
    by (rewrite Hp; apply vec_get_middle).
  cbn [mbind option_bind].
  rewrite (u64_small (zlen pre + 1)) by lia.
  assert (payload = (pre ++ [z2b (type_code t)]) ++ le_bytes 4 (zlen k) ++ le_bytes 4 (zlen v)
            ++ k ++ v ++ post) as Hp1 by (rewrite Hp, <- app_assoc; done).
  assert (readFixed32LE payload (zlen pre + 1) = Some (Some (zlen k, zlen pre + 1 + 4))) as ->.
  { rewrite Hp1, readFixed32LE_at by (rewrite <- ?Hp1; len).
    rewrite le_val_word32 by lia. done. }
  cbn [mbind option_bind].
  assert (readFixed32LE payload (zlen pre + 1 + 4) = Some (Some (zlen v, zlen pre + 1 + 4 + 4))) as ->.
  { rewrite Hp1, app_assoc, readFixed32LE_at by (rewrite <- ?(app_assoc (pre ++ _)), <- ?Hp1; len).
    rewrite le_val_word32 by lia. done. }
  cbn [mbind option_bind]. cbv zeta. replace (zlen pre + 1 + 4 + 4) with (zlen pre + 9) by lia.
  rewrite (u64_small (zlen pre + 9 + zlen k)), !u64_small, Z.gtb_ltb by lia.
  destruct (Z.ltb_spec (zlen payload) (zlen pre + 9 + zlen k + zlen v)); [lia|].
  set (h := pre ++ entry_header (mkEntry t k v)).
  assert (payload = h ++ k ++ v ++ post) as Hp2.
  { unfold h, payload, entry_bytes. cbn [entry_key entry_value]. by rewrite <- !app_assoc. }
  assert (subspan payload (zlen pre + 9) (zlen k) = Some k) as ->
    by (rewrite Hp2; apply subspan_middle; unfold h; len).
  cbn [mbind option_bind].
  assert (subspan payload (zlen pre + 9 + zlen k) (zlen v) = Some v) as ->
    by (rewrite Hp2, app_assoc; apply subspan_middle; unfold h; len).
  cbn [mbind option_bind].
  replace (zlen (pre ++ entry_bytes (mkEntry t k v))) with (zlen pre + 9 + zlen k + zlen v) by len.
  rewrite b2z_z2b. destruct t; [done|].
  assert (v = []) as Hnil by exact (Hwf eq_refl).
  unfold WriteBatch.Delete. cbn [type_code]. rewrite Hnil. done.
Qed.

Definition entries_fit (es : list Entry) : Prop :=
  Forall (fun e => zlen (entry_key e) < 2 ^ 32 /\ zlen (entry_value e) < 2 ^ 32) es.

Lemma encodable_fit es : encodable es -> entries_fit es.
Proof.
  unfold encodable, entries_fit. induction es as [|e es IH]; intros H; [constructor|].
  rewrite entries_bytes_cons in H. autorewrite with len in H.
  constructor; [lia|]. apply IH. lia.
Qed.

Lemma decodeEntries_all es : forall fuel pre post i b,
  Forall entry_wf es -> entries_fit es ->
  0 <= i -> i + zlen es < 2 ^ 32 -> zlen (pre ++ entries_bytes es ++ post) < 2 ^ 63 ->
  (length es < fuel)%nat ->
  decodeEntries fuel (pre ++ entries_bytes es ++ post) i (i + zlen es) (zlen pre) b =
    Some (RValue (mkWriteBatch (entries_ b ++ es))).
Proof.
  induction es as [|e es IH]; intros fuel pre post i b Hwf Hfit Hi Hn Hb Hf.
  - destruct fuel; [lia|]. cbn [length decodeEntries]. rewrite Z.add_0_r, Z.ltb_irrefl.
    rewrite app_nil_r. by destruct b.
  - destruct fuel as [|fuel]; [cbn [length] in *; lia|].
    apply Forall_cons in Hwf as [Hwe Hwf]. apply Forall_cons in Hfit as [[Hk Hv] Hfit].
    rewrite entries_bytes_cons, <- app_assoc in *. cbn [length] in *.
    rewrite decodeEntries_cons by (done || lia). rewrite u32_small by lia.
    replace (i + Z.of_nat (S (length es))) with (i + 1 + zlen es) by lia.
    rewrite app_assoc, IH by (done || lia || by rewrite <- app_assoc).
    cbn [entries_]. by rewrite <- app_assoc.
Qed.

Lemma decodePayload_bytes base es :
  Forall entry_wf es -> encodable es ->
  decodePayload (payload_bytes base es) = Some (RValue (mkDecodedBatch (u64 base) (mkWriteBatch es))).
Proof.
  intros Hwf Henc. pose proof (length_entries_bytes es). pose proof (encodable_fit es Henc).
  pose proof (length_payload_bytes base es) as Hlen. unfold encodable in Henc.
  unfold decodePayload, payload_bytes in *.
  pose proof (readFixed64LE_at [] (le_bytes 8 base)
    (le_bytes 4 (zlen es) ++ entries_bytes es) 0) as E0.
  cbn [app] in E0. rewrite E0 by len. clear E0. cbn [mbind option_bind].
  rewrite readFixed32LE_at by len. cbn [mbind option_bind].
  rewrite le_val_word64, le_val_word32 by lia.
  rewrite <- (app_nil_r (entries_bytes es)), !app_assoc, <- (app_assoc (_ ++ _)).
  rewrite (decodeEntries_all es) with (i := 0) by (done || lia || len).
  done.
Qed.

(** *** Records *)

(** A whole record with a matching checksum whose payload decodes to [d]. *)
Definition valid_image (img : bytes) (d : DecodedBatch) : Prop :=
  exists p, img = record_image p /\ zlen p < 2 ^ 32 /\ decodePayload p = Some (RValue d).

Lemma record_bytes_valid base es : Forall entry_wf es -> encodable es ->
  valid_image (record_bytes base es) (mkDecodedBatch (u64 base) (mkWriteBatch es)).
Proof.
  intros Hwf Henc. exists (payload_bytes base es). split; [done|].
  split; [|by apply decodePayload_bytes].
  rewrite length_payload_bytes. unfold encodable in Henc. lia.
Qed.

Lemma decodeRecord_image pre img d tail :
  valid_image img d -> zlen (pre ++ img ++ tail) < 2 ^ 63 ->
  decodeRecord (pre ++ img ++ tail) (zlen pre) = Some (Next d (zlen (pre ++ img))).
Proof.
  intros (p & -> & Hp & Hd) Hb. pose proof (Crc32C_range p).
  assert (pre ++ record_image p ++ tail =
    pre ++ le_bytes 4 (Crc32C p) ++ le_bytes 4 (zlen p) ++ [z2b kBatchRecord] ++ p ++ tail) as E
    by (unfold record_image; by rewrite <- !app_assoc).
  rewrite E in *. rewrite decodeRecord_header by (done || len).
  rewrite !le_val_word32, Nat2Z.id by lia.
  rewrite Z.gtb_ltb. destruct (Z.ltb_spec (zlen (p ++ tail)) (zlen p)); [len|].
  change (b2z (z2b kBatchRecord) =? kBatchRecord) with true. cbv zeta. cbn [negb].
  rewrite take_app_length, Z.eqb_refl, Hd. cbn [negb mbind option_bind].
  pose proof (length_record_image p). rewrite length_app. do 2 f_equal. lia.
Qed.

(** A record cut short anywhere ends the log. *)
Lemma decodeRecord_torn pre p cut :
  zlen p < 2 ^ 32 -> 0 <= cut < zlen (record_image p) ->
  zlen (pre ++ take (Z.to_nat cut) (record_image p)) < 2 ^ 63 ->
  decodeRecord (pre ++ take (Z.to_nat cut) (record_image p)) (zlen pre) = Some StopTail.
Proof.
  intros Hp Hc Hb. rewrite length_record_image in Hc.
  destruct (decide (cut < 9)); [apply decodeRecord_short; [len|done]|].
  unfold record_image in *. pose proof (Crc32C_range p).
  assert (forall crc len, length crc = 4%nat -> length len = 4%nat ->
    take (Z.to_nat cut) (crc ++ len ++ [z2b kBatchRecord] ++ p)
    = crc ++ len ++ [z2b kBatchRecord] ++ take (Z.to_nat (cut - 9)) p) as E.
  { intros crc ln H1 H2. rewrite !take_app_ge, H1, H2 by len.
    replace (Z.to_nat cut - 4 - 4 - length [z2b kBatchRecord])%nat with (Z.to_nat (cut - 9))
      by (cbn [length]; lia).
    done. }
  rewrite E in * by apply length_le_bytes.
  rewrite decodeRecord_header by (done || len).
  rewrite le_val_word32, Z.gtb_ltb by lia.
  destruct (Z.ltb_spec (zlen (take (Z.to_nat (cut - 9)) p)) (zlen p)); [done|len].
Qed.

(** A complete last record whose checksum does not match ends the log; the same record
    with anything after it is corruption. *)
Lemma decodeRecord_bad_crc pre crcb p tail :
  length crcb = 4%nat -> zlen p < 2 ^ 32 -> le_val crcb <> Crc32C p ->
  zlen (pre ++ crcb ++ le_bytes 4 (zlen p) ++ [z2b kBatchRecord] ++ p ++ tail) < 2 ^ 63 ->
  decodeRecord (pre ++ crcb ++ le_bytes 4 (zlen p) ++ [z2b kBatchRecord] ++ p ++ tail) (zlen pre)
  = Some (match tail with
          | [] => StopTail
          | _ => Fail (Status.Corruption "WAL checksum mismatch")
          end).
Proof.
  intros Hc Hp Hne Hb. rewrite decodeRecord_header by (done || len).
  rewrite le_val_word32, Nat2Z.id, take_app_length, Z.gtb_ltb, Z.geb_leb by lia.
  destruct (Z.ltb_spec (zlen (p ++ tail)) (zlen p)); [len|].
  change (b2z (z2b kBatchRecord) =? kBatchRecord) with true. cbn [negb].
  destruct (Z.eqb_spec (Crc32C p) (le_val crcb)); [congruence|]. cbn [negb].
  destruct (Z.leb_spec (zlen (p ++ tail)) (zlen p)), tail; try done; len.
Qed.

(** A round that goes on consumed exactly one valid record. *)
Lemma decodeRecord_sound pre rest d off :
  zlen (pre ++ rest) < 2 ^ 63 ->
  decodeRecord (pre ++ rest) (zlen pre) = Some (Next d off) ->
  exists img tail, rest = img ++ tail /\ valid_image img d /\ off = zlen (pre ++ img).
Proof.
  intros Hb H. destruct (decide (zlen rest < 9)); [by rewrite decodeRecord_short in H|].
  destruct (header_split rest) as (crcb & lenb & t & r & -> & H1 & H2); [lia|].
  rewrite decodeRecord_header in H by done. pose proof (le_val_range lenb) as Hl.
  rewrite H2 in Hl. rewrite Z.gtb_ltb in H.
  destruct (Z.ltb_spec (zlen r) (le_val lenb)) as [|Hle]; [done|].
  destruct (Z.eqb_spec (b2z t) kBatchRecord) as [Ht|]; [|done]. cbn [negb] in H.
  set (p := take (Z.to_nat (le_val lenb)) r) in *.
  destruct (Z.eqb_spec (Crc32C p) (le_val crcb)) as [Hc|]; cbn [negb] in H;
    [|destruct (_ >=? _); done].
  destruct (decodePayload p) as [[d'|s]|] eqn:Hd; simplify_eq/=.
  assert (zlen p = le_val lenb) as Hpl by (unfold p; len).
  exists (record_image p), (drop (Z.to_nat (le_val lenb)) r).
  assert (record_image p = crcb ++ lenb ++ [t] ++ p) as Himg.
  { unfold record_image. rewrite Hc, Hpl, <- H1, le_bytes_le_val, H1, <- H2, le_bytes_le_val.
    rewrite <- (z2b_b2z t), Ht. done. }
  split; [|split].
  - rewrite Himg, <- !app_assoc. unfold p. by rewrite take_drop.
  - exists p. split; [done|]. split; [|done]. rewrite Hpl. apply Hl.
  - rewrite length_app, Nat2Z.inj_add, length_record_image. lia.
Qed.

(** *** The log *)

Lemma valid_image_length img d : valid_image img d -> 9 <= zlen img.
Proof. intros (p & -> & _). rewrite length_record_image. lia. Qed.

Lemma concat_images_length imgs ds : Forall2 valid_image imgs ds -> 9 * zlen imgs <= zlen (concat imgs).
Proof.
  induction 1 as [|img d imgs ds Hv _ IH]; [done|]. apply valid_image_length in Hv.
  cbn [concat]. len.
Qed.

(** The loop passes over the records at the front of what is left. *)
Lemma decodeLoop_images imgs ds : Forall2 valid_image imgs ds -> forall fuel pre tail acc,
  zlen (pre ++ concat imgs ++ tail) < 2 ^ 63 ->
  decodeLoop (length imgs + fuel) (pre ++ concat imgs ++ tail) (zlen pre)
    (mkDecodeResult acc (zlen pre))
  = decodeLoop fuel (pre ++ concat imgs ++ tail) (zlen (pre ++ concat imgs))
      (mkDecodeResult (acc ++ ds) (zlen (pre ++ concat imgs))).
Proof.
  induction 1 as [|img d imgs ds Hv _ IH]; intros fuel pre tail acc Hb.
  - cbn [concat length app Nat.add]. by rewrite !app_nil_r.
  - cbn [concat length Nat.add] in *. rewrite <- app_assoc in *.
    pose proof (valid_image_length _ _ Hv). cbn [decodeLoop].
    destruct (Z.ltb_spec (zlen pre) (zlen (pre ++ img ++ concat imgs ++ tail))); [|len].
    rewrite (decodeRecord_image pre img d) by done. cbn [mbind option_bind].
    rewrite (app_assoc pre img (concat imgs ++ tail)) in *. rewrite IH by done.
    cbn [batches]. rewrite <- !app_assoc. done.
Qed.

(** How a log ends after its whole records. *)
Definition log_end (pre tail : bytes) (step : RecordStep) : Prop :=
  (tail = [] /\ step = StopTail) \/
  (tail <> [] /\ decodeRecord (pre ++ tail) (zlen pre) = Some step).

Lemma DecodeLog_images imgs ds tail step :
  Forall2 valid_image imgs ds -> zlen (concat imgs ++ tail) < 2 ^ 63 ->
  log_end (concat imgs) tail step -> (forall d o, step <> Next d o) ->
  DecodeLog (concat imgs ++ tail) =
    Some (match step with Fail s => RStatus s | _ => RValue (mkDecodeResult ds (zlen (concat imgs))) end).
Proof.
  intros Hv Hb Hend Hstep. unfold DecodeLog. pose proof (concat_images_length _ _ Hv).
  pose proof (decodeLoop_images imgs ds Hv
    (S (length (concat imgs ++ tail)) - length imgs) [] tail [] Hb) as E.
  rewrite Nat.add_sub_assoc, Nat.add_comm, Nat.add_sub in E by len.
  cbn [app] in E. change (zlen ([] : bytes)) with 0 in E. rewrite E. clear E.
  set (fuel := (S _ - _)%nat). assert (0 < fuel)%nat as Hf by (unfold fuel; len).
  destruct fuel as [|fuel]; [lia|]. cbn [decodeLoop].
  destruct Hend as [[-> ->]|[Hne Hr]].
  - rewrite app_nil_r. destruct (Z.ltb_spec (zlen (concat imgs)) (zlen (concat imgs))); [lia|done].
  - destruct (Z.ltb_spec (zlen (concat imgs)) (zlen (concat imgs ++ tail)));
      [|destruct tail; [done|len]].
    rewrite Hr. cbn [mbind option_bind]. destruct step; [done..|]. by destruct (Hstep d offset).
Qed.

Lemma decodeLoop_sound fuel : forall pre rest acc r,
  zlen (pre ++ rest) < 2 ^ 63 ->
  decodeLoop fuel (pre ++ rest) (zlen pre) (mkDecodeResult acc (zlen pre)) = Some (RValue r) ->
  exists imgs ds tail, rest = concat imgs ++ tail /\ Forall2 valid_image imgs ds /\
    r = mkDecodeResult (acc ++ ds) (zlen (pre ++ concat imgs)) /\
    log_end (pre ++ concat imgs) tail StopTail.
Proof.
  assert (forall pre rest acc r, log_end pre rest StopTail ->
    Some (RValue (mkDecodeResult acc (zlen pre))) = Some (RValue r) ->
    exists imgs ds tail, rest = concat imgs ++ tail /\ Forall2 valid_image imgs ds /\
    r = mkDecodeResult (acc ++ ds) (zlen (pre ++ concat imgs)) /\
    log_end (pre ++ concat imgs) tail StopTail) as Hstop.
  { intros pre rest acc r He [= <-]. exists [], [], rest. cbn [concat]. rewrite !app_nil_r. done. }
  induction fuel as [|fuel IH]; intros pre rest acc r Hb H; cbn [decodeLoop] in H;
    destruct (Z.ltb_spec (zlen pre) (zlen (pre ++ rest))); try done;
    try (apply Hstop; [left; split; [destruct rest; [done|len]|done]|done]).
  destruct (decodeRecord (pre ++ rest) (zlen pre)) as [[|s|d off]|] eqn:E; try done.
  - apply Hstop; [right; split; [|done]|done]. intros ->. rewrite app_nil_r in *. lia.
  - cbn [mbind option_bind] in H.
    apply decodeRecord_sound in E as (img & tail & -> & Hv & ->); [|done].
    rewrite app_assoc in H, Hb. apply IH in H as (imgs & ds & tl & -> & Hvs & -> & Hend); [|done].
    exists (img :: imgs), (d :: ds), tl. cbn [concat].
    rewrite <- !app_assoc in *. split; [done|]. split; [by constructor|done].
Qed.

(** What a successful decoding says about the bytes. *)
Lemma DecodeLog_sound bs r :
  zlen bs < 2 ^ 63 -> DecodeLog bs = Some (RValue r) ->
  exists imgs tail, bs = concat imgs ++ tail /\ Forall2 valid_image imgs (batches r) /\
    validBytes r = zlen (concat imgs) /\ log_end (concat imgs) tail StopTail.
Proof.
  intros Hb H. apply (decodeLoop_sound _ [] bs []) in H as (imgs & ds & tail & -> & Hv & -> & He);
    [|done].
  exists imgs, tail. done.
Qed.

(** What recovery keeps decodes to the same batches. *)
Lemma DecodeLog_kept bs r :
  zlen bs < 2 ^ 63 -> DecodeLog bs = Some (RValue r) ->
  DecodeLog (take (Z.to_nat (validBytes r)) bs) = Some (RValue r) /\ 0 <= validBytes r <= zlen bs.
Proof.
  intros Hb H. destruct (DecodeLog_sound bs r Hb H) as (imgs & tail & -> & Hv & Hvb & _).
  rewrite Hvb, Nat2Z.id, take_app_length. split; [|len].
  rewrite <- (app_nil_r (concat imgs)), (DecodeLog_images imgs (batches r) [] StopTail);
    [rewrite <- Hvb; by destruct r|done|rewrite app_nil_r; len|by left|done].
Qed.

(** *** Definedness and termination *)

(** A decoded batch is well formed, and no larger than the bytes it was read from. *)
Definition batch_size (b : WriteBatchT) : Z := zlen (entries_bytes (entries_ b)).

Definition read_from (room : Z) (b b' : WriteBatchT) : Prop :=
  (batch_wf b -> batch_wf b') /\ batch_size b' <= batch_size b + room.

Lemma read_put b key value room b' :
  read_from room (WriteBatch.Put b key value) b' -> read_from (9 + zlen key + zlen value + room) b b'.
Proof.
  intros [Hw Hs]. split; [auto with se|]. unfold batch_size in *. cbn [WriteBatch.Put entries_] in Hs.
  rewrite entries_bytes_app, entries_bytes_cons in Hs.
  pose proof (length_entry_bytes (mkEntry kPut key value)). cbn [entry_key entry_value] in *. len.
Qed.

Lemma read_delete b key room b' :
  read_from room (WriteBatch.Delete b key) b' -> read_from (9 + zlen key + room) b b'.
Proof.
  intros [Hw Hs]. split; [auto with se|]. unfold batch_size in *. cbn [WriteBatch.Delete entries_] in Hs.
  rewrite entries_bytes_app, entries_bytes_cons in Hs.
  pose proof (length_entry_bytes (mkEntry kDelete key [])). cbn [entry_key entry_value length] in *. len.
Qed.

Lemma read_from_mono room room' b b' : room <= room' -> read_from room b b' -> read_from room' b b'.
Proof. intros ? [? ?]. split; [done|lia]. Qed.

Lemma decodeEntries_total fuel : forall payload i n off b,
  0 <= off <= zlen payload -> zlen payload < 2 ^ 62 -> zlen payload - off < Z.of_nat fuel ->
  exists r, decodeEntries fuel payload i n off b = Some r /\
    (forall s, r = RStatus s -> code_ s = kCorruption) /\
    (forall b', r = RValue b' -> read_from (zlen payload - off) b b').
Proof.
  induction fuel as [|fuel IH]; intros payload i n off b Ho Hb Hf; [lia|].
  assert (forall m : string, exists r : Result WriteBatchT, corrupt m = Some r /\
    (forall s, r = RStatus s -> code_ s = kCorruption) /\
    (forall b', r = RValue b' -> read_from (zlen payload - off) b b')) as Hcor.
  { intros m. eexists. split; [done|]. split; [by intros s [= <-]|done]. }
  cbn [decodeEntries]. destruct (i <? n).
  2:{ eexists. split; [done|]. split; [done|]. intros b' [= <-]. split; [done|lia]. }
  rewrite Z.geb_leb. destruct (Z.leb_spec (zlen payload) off); [apply Hcor|].
  destruct (vec_get_lt payload off) as [t ->]; [lia|]. cbn [mbind option_bind].
  rewrite u64_small by lia.
  destruct (readFixed32LE_cases payload (off + 1)) as [[_ ->]|(Hk & k & Hkr & ->)];
    [lia|lia|apply Hcor|]. cbn [mbind option_bind].
  destruct (readFixed32LE_cases payload (off + 1 + 4)) as [[_ ->]|(Hv & v & Hvr & ->)];
    [lia|lia|apply Hcor|]. cbn [mbind option_bind]. cbv zeta.
  rewrite (u64_small (off + 1 + 4 + 4 + k + v)), Z.gtb_ltb by lia.
  destruct (Z.ltb_spec (zlen payload) (off + 1 + 4 + 4 + k + v)); [apply Hcor|].
  rewrite !(u64_small (off + 1 + 4 + 4 + k)), (u64_small (_ + v)) by lia.
  destruct (subspan_lt payload (off + 1 + 4 + 4) k) as (key & -> & Hkl); [lia..|]. cbn [mbind option_bind].
  destruct (subspan_lt payload (off + 1 + 4 + 4 + k) v) as (value & -> & Hvl); [lia..|]. cbn [mbind option_bind].
  destruct (b2z t =? type_code kPut); [|destruct (b2z t =? type_code kDelete); [|apply Hcor]].
  - edestruct (IH payload (u32 (i + 1)) n (off + 1 + 4 + 4 + k + v) (WriteBatch.Put b key value))
      as (r & E & H1 & H2); [lia..|]. exists r. do 2 (split; [done|]). intros b' Hr.
    eapply read_from_mono; [|by apply read_put, H2]. lia.
  - edestruct (IH payload (u32 (i + 1)) n (off + 1 + 4 + 4 + k + v) (WriteBatch.Delete b key))
      as (r & E & H1 & H2); [lia..|]. exists r. do 2 (split; [done|]). intros b' Hr.
    eapply read_from_mono; [|by apply read_delete, H2]. lia.
Qed.

Lemma decodePayload_total payload : zlen payload < 2 ^ 62 ->
  exists r, decodePayload payload = Some r /\
    (forall s, r = RStatus s -> code_ s = kCorruption) /\
    (forall d, r = RValue d -> batch_wf (batch d) /\ 0 <= baseSequence d < 2 ^ 64 /\
       batch_size (batch d) + 12 <= zlen payload).
Proof.
  intros Hb. unfold decodePayload.
  destruct (readFixed64LE_cases payload 0) as [[_ ->]|(H1 & base & Hbase & ->)]; [lia|lia| |];
    cbn [mbind option_bind]; [eexists; split; [done|]; split; [by intros s [= <-]|done]|].
  destruct (readFixed32LE_cases payload (0 + 8)) as [[_ ->]|(H2 & n & Hn & ->)]; [lia|lia| |];
    cbn [mbind option_bind]; [eexists; split; [done|]; split; [by intros s [= <-]|done]|].
  destruct (decodeEntries_total (S (length payload)) payload 0 n (0 + 8 + 4) WriteBatch.new)
    as (r & -> & Hs & Hv); [lia..|]. cbn [mbind option_bind].
  eexists. split; [done|]. destruct r as [b|s]; (split; [intros s' [= <-]|intros d [= <-]]).
  - cbn [batch baseSequence]. destruct (Hv b eq_refl) as [Hw Hsz]. split; [auto with se|].
    split; [done|]. change (batch_size WriteBatch.new) with 0 in Hsz. lia.
  - by apply Hs.
Qed.

Lemma decodeRecord_total pre rest : zlen (pre ++ rest) < 2 ^ 62 ->
  exists step, decodeRecord (pre ++ rest) (zlen pre) = Some step /\
    (forall s, step = Fail s -> code_ s = kCorruption).
Proof.
  intros Hb. destruct (decide (zlen rest < 9)).
  { exists StopTail. split; [|done]. apply decodeRecord_short; [done|lia]. }
  destruct (header_split rest) as (crcb & lenb & t & r & -> & H1 & H2); [lia|].
  rewrite decodeRecord_header by (done || lia). cbv zeta.
  destruct (_ >? _); [by exists StopTail|].
  destruct (negb (b2z t =? kBatchRecord)); [eexists; split; [done|]; by intros s [= <-]|].
  destruct (negb (_ =? _)).
  { destruct (_ >=? _); eexists; (split; [done|]); [done|]. by intros s [= <-]. }
  destruct (decodePayload_total (take (Z.to_nat (le_val lenb)) r)) as (o & -> & Hs & _); [len|].
  cbn [mbind option_bind]. eexists. split; [done|]. destruct o; [done|]. intros s [= <-]. by apply Hs.
Qed.

Lemma decodeLoop_total fuel : forall pre rest acc,
  zlen (pre ++ rest) < 2 ^ 62 -> zlen rest < Z.of_nat fuel ->
  exists r, decodeLoop fuel (pre ++ rest) (zlen pre) (mkDecodeResult acc (zlen pre)) = Some r /\
    (forall s, r = RStatus s -> code_ s = kCorruption).
Proof.
  induction fuel as [|fuel IH]; intros pre rest acc Hb Hf; [lia|]. cbn [decodeLoop].
  destruct (zlen pre <? zlen (pre ++ rest)); [|by eexists].
  destruct (decodeRecord_total pre rest Hb) as (step & E & Hs). rewrite E. cbn [mbind option_bind].
  destruct step as [|s|d off]; [by eexists|eexists; split; [done|]; intros s' [= <-]; by apply Hs|].
  apply decodeRecord_sound in E as (img & tail & -> & Hv & ->); [|lia].
  apply valid_image_length in Hv. rewrite app_assoc in *. apply IH; [done|len].
Qed.

(** [DecodeLog] always returns: no access out of range, and the loops end. *)
Lemma DecodeLog_total bs : zlen bs < 2 ^ 62 ->
  exists r, DecodeLog bs = Some r /\ (forall s, r = RStatus s -> code_ s = kCorruption).
Proof. intros Hb. apply (decodeLoop_total _ [] bs []); [done|len]. Qed.

Lemma valid_image_decoded img d : valid_image img d ->
  batch_wf (batch d) /\ 0 <= baseSequence d < 2 ^ 64 /\ batch_size (batch d) + 21 <= zlen img.
Proof.
  intros (p & -> & Hp & Hd). destruct (decodePayload_total p) as (r & Hr & _ & Hv); [lia|].
  rewrite length_record_image. destruct (Hv d) as (? & ? & ?); [congruence|]. split; [done|]. lia.
Qed.

Lemma valid_image_wf img d : valid_image img d -> batch_wf (batch d) /\ 0 <= baseSequence d < 2 ^ 64.
Proof. intros H. apply valid_image_decoded in H as (? & ? & _). done. Qed.

(** *** A log after a log *)

Definition shift_step (n : Z) (s : RecordStep) : RecordStep :=
  match s with Next d o => Next d (n + o) | s => s end.

(** A round looks at nothing before its offset. *)
Lemma decodeRecord_shift pre rest : zlen (pre ++ rest) < 2 ^ 63 ->
  decodeRecord (pre ++ rest) (zlen pre) = shift_step (zlen pre) <$> decodeRecord rest 0.
Proof.
  intros Hb. change (decodeRecord rest 0) with (decodeRecord ([] ++ rest) (zlen ([] : bytes))).
  destruct (decide (zlen rest < 9)); [by rewrite !decodeRecord_short by len|].
  destruct (header_split rest) as (crcb & lenb & t & r & -> & H1 & H2); [lia|].
  rewrite !decodeRecord_header by len. cbv zeta.
  destruct (_ >? _); [done|]. destruct (negb (b2z t =? _)); [done|].
  destruct (negb (_ =? _)); [by destruct (_ >=? _)|].
  destruct (decodePayload _) as [[d|st]|]; cbn; [|done..]. do 2 f_equal. lia.
Qed.

Definition shift_result (ds : list DecodedBatch) (n : Z) (r : Result DecodeResult) : Result DecodeResult :=
  match r with
  | RValue r => RValue (mkDecodeResult (ds ++ batches r) (n + validBytes r))
  | RStatus s => RStatus s
  end.

Lemma decodeLoop_shift ds log fuel : forall pre rest acc,
  zlen (log ++ pre ++ rest) < 2 ^ 63 ->
  decodeLoop fuel (log ++ pre ++ rest) (zlen (log ++ pre)) (mkDecodeResult (ds ++ acc) (zlen (log ++ pre)))
  = shift_result ds (zlen log) <$> decodeLoop fuel (pre ++ rest) (zlen pre) (mkDecodeResult acc (zlen pre)).
Proof.
  assert (forall pre : bytes, zlen (log ++ pre) = zlen log + zlen pre) as Hla by (intros; len).
  induction fuel as [|fuel IH]; intros pre rest acc Hb; cbn [decodeLoop];
    rewrite !app_assoc;
    destruct (Z.ltb_spec (zlen (log ++ pre)) (zlen ((log ++ pre) ++ rest))), (Z.ltb_spec (zlen pre) (zlen (pre ++ rest)));
    try (exfalso; len; fail); try done; try (cbn; by rewrite Hla).
  rewrite (decodeRecord_shift (log ++ pre) rest) by (by rewrite <- app_assoc).
  rewrite (decodeRecord_shift pre rest) by len.
  destruct (decodeRecord rest 0) as [[|s|d off]|] eqn:E; cbn [fmap option_fmap option_map shift_step mbind option_bind];
    try done; [by cbn; rewrite Hla|].
  apply (decodeRecord_sound [] rest) in E as (img & tail & -> & Hv & ->); [|len].
  cbn [batches app].
  replace (zlen (log ++ pre) + zlen img) with (zlen (log ++ pre ++ img)) by len.
  replace (zlen pre + zlen img) with (zlen (pre ++ img)) by len.
  replace ((log ++ pre) ++ img ++ tail) with (log ++ (pre ++ img) ++ tail) by (by rewrite <- !app_assoc).
  rewrite (app_assoc pre img tail), <- (app_assoc ds). apply IH. by rewrite <- !app_assoc in *.
Qed.

Lemma decodeLoop_fuel fuel fuel' bs off acc r :
  decodeLoop fuel bs off acc = Some r -> (fuel <= fuel')%nat -> decodeLoop fuel' bs off acc = Some r.
Proof.
  revert fuel' off acc. induction fuel as [|fuel IH]; intros fuel' off acc H Hf; cbn [decodeLoop] in H.
  - destruct fuel'; cbn [decodeLoop]; by destruct (off <? zlen bs).
  - destruct fuel' as [|fuel']; [lia|]. cbn [decodeLoop]. destruct (off <? zlen bs); [|done].
    destruct (decodeRecord bs off) as [[]|]; cbn in *; try done. apply IH; [done|lia].
Qed.

(** After whole records, a log decodes as those records and what the rest decodes to. *)
Lemma DecodeLog_app imgs ds tail :
  Forall2 valid_image imgs ds -> zlen (concat imgs ++ tail) < 2 ^ 62 ->
  DecodeLog (concat imgs ++ tail) = shift_result ds (zlen (concat imgs)) <$> DecodeLog tail.
Proof.
  intros Hv Hb. pose proof (concat_images_length _ _ Hv).
  destruct (DecodeLog_total tail) as (r & E & _); [len|]. rewrite E. cbn [fmap option_fmap option_map].
  unfold DecodeLog in E |- *.
  pose proof (decodeLoop_images imgs ds Hv (S (length tail)) [] tail [] ltac:(cbn [app]; lia)) as H1.
  pose proof (decodeLoop_shift ds (concat imgs) (S (length tail)) [] tail []) as H2.
  cbn [app] in H1, H2. rewrite app_nil_r in H2. change (zlen ([] : bytes)) with 0 in H1, H2.
  rewrite app_nil_r, E in H2. rewrite H2 in H1 by lia. cbn [fmap option_fmap option_map] in H1.
  eapply decodeLoop_fuel; [exact H1|len].
Qed.

End Decoding.

(** ** Properties *)

Section Properties.
Context {L : Libc} {C : Cpu}.

Lemma entries_iovecs_length off es : zlen (entries_iovecs off es) <= 3 * zlen es.
Proof.
  revert off. induction es as [|e es IH]; intros off; [done|]. cbn [entries_iovecs].
  specialize (IH (off + 9)). unfold entry_iovecs, opt_iovec. destruct (_ =? 0), (_ =? 0); len.
Qed.

(** C10: the two encoders agree. For a group of fewer than 2^32 entries and 2^62 bytes,
    whatever is left in the reused buffers and on any conforming processor, the fragments gathered from the final
    header buffer are byte for byte the record [EncodeBatchInto] writes, the recorded size
    is its length and is what [EncodedBatchSize] computes, and there are at most
    [2 + 3 * entries] fragments, the number reserved. *)
Theorem fragments_match_contiguous `{!CpuSpec C} base bs old :
  storable (all_entries bs) ->
  exists fr rec, EncodeBatchFragmentsInto base bs old = Some fr /\ EncodeBatchInto base bs = Some rec /\
    materializeIovecs (items (fixed fr)) (items (iovecs fr)) = Some rec /\
    encoded_size fr = zlen rec /\ EncodedBatchSize bs = zlen rec /\
    zlen (items (iovecs fr)) <= 2 + 3 * zlen (all_entries bs).
Proof.
  intros Henc. destruct (EncodeBatchFragmentsInto_spec base bs old Henc) as (fr & E & Hm & Hs & Hi).
  exists fr, (record_bytes base (all_entries bs)). split; [done|].
  split; [apply EncodeBatchInto_spec|]. split; [done|]. split; [done|].
  pose proof (length_record_bytes base (all_entries bs)). destruct Henc as [_ Henc]. split.
  - rewrite EncodedBatchSize_spec, u64_small; lia.
  - rewrite Hi. pose proof (entries_iovecs_length 21 (all_entries bs)). len.
Qed.

(** A group as it is logged: its first sequence number and its batches. *)
Definition loggable (g : Z * list WriteBatchT) : Prop :=
  0 <= g.1 < 2 ^ 64 /\ Forall batch_wf g.2 /\ encodable (all_entries g.2).

Definition encode_log (gs : list (Z * list WriteBatchT)) : option bytes :=
  recs ← mapM (fun g => EncodeBatchInto g.1 g.2) gs; Some (concat recs).

(** What is decoded from it: one batch, with the entries of the whole group. *)
Definition logged (g : Z * list WriteBatchT) : DecodedBatch :=
  mkDecodedBatch g.1 (mkWriteBatch (all_entries g.2)).

Definition group_image (g : Z * list WriteBatchT) : bytes := record_bytes g.1 (all_entries g.2).

Lemma all_entries_wf bs : Forall batch_wf bs -> Forall entry_wf (all_entries bs).
Proof. intros H. unfold all_entries. apply Forall_concat. rewrite Forall_fmap. by eapply Forall_impl. Qed.

Lemma group_image_valid g : loggable g -> valid_image (group_image g) (logged g).
Proof.
  intros (Hb & Hwf & Henc).
  pose proof (record_bytes_valid g.1 _ (all_entries_wf _ Hwf) Henc) as H.
  by rewrite u64_small in H by done.
Qed.

Lemma group_images_valid gs : Forall loggable gs -> Forall2 valid_image (group_image <$> gs) (logged <$> gs).
Proof. induction 1; constructor; auto using group_image_valid. Qed.

Lemma encode_log_spec gs : encode_log gs = Some (concat (group_image <$> gs)).
Proof.
  unfold encode_log. enough (mapM (fun g => EncodeBatchInto g.1 g.2) gs = Some (group_image <$> gs)) as -> by done.
  apply mapM_Some. induction gs; constructor; auto using EncodeBatchInto_spec.
Qed.

(** C8: the log round trips. Records written one after the other decode to exactly the
    groups written, in order, with their sequence numbers, and every byte is valid. *)
Theorem wal_roundtrip gs :
  Forall loggable gs ->
  exists log, encode_log gs = Some log /\
    (zlen log < 2 ^ 63 -> DecodeLog log = Some (RValue (mkDecodeResult (logged <$> gs) (zlen log)))).
Proof.
  intros Hgs. exists (concat (group_image <$> gs)). split; [apply encode_log_spec|]. intros Hb.
  rewrite <- (app_nil_r (concat _)) at 1. rewrite (DecodeLog_images _ (logged <$> gs) [] StopTail);
    [done|by apply group_images_valid|by rewrite app_nil_r|by left|done].
Qed.

(** C27: the format's limit is exact. A well-formed group within the encoders' reach is
    always encoded, without an error, but reading its record back gives the group if and
    only if its payload is shorter than 2^32 bytes, what the length field can hold;
    nothing in the encoders checks it. *)
Theorem record_size_limit base bs :
  0 <= base < 2 ^ 64 -> Forall batch_wf bs -> storable (all_entries bs) ->
  exists rec, EncodeBatchInto base bs = Some rec /\
    (DecodeLog rec = Some (RValue (mkDecodeResult [logged (base, bs)] (zlen rec))) <->
     12 + batch_size (mkWriteBatch (all_entries bs)) < 2 ^ 32).
Proof.
  intros Hbase Hwf [_ Hst]. exists (record_bytes base (all_entries bs)).
  split; [apply EncodeBatchInto_spec|]. pose proof (length_record_bytes base (all_entries bs)) as Hl.
  unfold batch_size. cbn [entries_]. split.
  - intros H. apply DecodeLog_sound in H as (imgs & tail & _ & Hv & _); [|lia].
    apply Forall2_cons_inv_r in Hv as (img & imgs' & (p & -> & Hp & Hd) & _).
    destruct (decodePayload_total p) as (r & Hr & _ & Hsz); [lia|].
    destruct (Hsz (logged (base, bs))) as (_ & _ & Hs); [congruence|].
    unfold batch_size, logged in Hs. cbn [batch entries_ snd] in Hs. lia.
  - intros Henc. assert (loggable (base, bs)) as Hg.
    { split; [done|]. split; [done|]. unfold encodable. cbn [snd]. lia. }
    pose proof (DecodeLog_images [group_image (base, bs)] [logged (base, bs)] [] StopTail) as H.
    cbn [concat app] in H. rewrite !app_nil_r in H. apply H; [|unfold group_image; cbn [fst snd]; lia|by left|done].
    constructor; [by apply group_image_valid|done].
Qed.

(** C25: a torn last record is dropped, and only it. If the last record was cut anywhere,
    even inside its header, the log decodes to the groups before it, and the valid bytes
    end where it starts. *)
Theorem decode_torn_tail gs g cut log rec :
  Forall loggable gs -> loggable g ->
  encode_log gs = Some log -> EncodeBatchInto g.1 g.2 = Some rec ->
  0 <= cut < zlen rec -> zlen log + cut < 2 ^ 63 ->
  DecodeLog (log ++ take (Z.to_nat cut) rec)
    = Some (RValue (mkDecodeResult (logged <$> gs) (zlen log))).
Proof.
  rewrite encode_log_spec, EncodeBatchInto_spec. intros Hgs (_ & Hwf & Henc) [= <-] [= <-] Hc Hb.
  rewrite (DecodeLog_images _ (logged <$> gs) _ StopTail);
    [done|by apply group_images_valid|len| |done].
  destruct (decide (cut = 0)) as [->|Hne]; [by left|]. right. split.
  - intros E%(f_equal length). len.
  - apply decodeRecord_torn; [|done|len].
    rewrite length_payload_bytes. unfold encodable in Henc. lia.
Qed.

(** C20: decoding always returns. On any bytes (of a possible file size) every access is
    inside the buffer, the loops end within the fuel, and the answer is a list of batches
    or an error whose code is [kCorruption]; what is returned as valid is well-formed. *)
Theorem decode_total bs :
  zlen bs < 2 ^ 62 ->
  exists r, DecodeLog bs = Some r /\
    match r with
    | RStatus s => code_ s = kCorruption
    | RValue r => 0 <= validBytes r <= zlen bs /\
        Forall (fun d => batch_wf (batch d) /\ 0 <= baseSequence d < 2 ^ 64) (batches r)
    end.
Proof.
  intros Hb. destruct (DecodeLog_total bs Hb) as (r & E & Hs). exists r. split; [done|].
  destruct r as [r|s]; [|by apply Hs].
  apply DecodeLog_sound in E as (imgs & tail & -> & Hv & Hvb & _); [|lia].
  split; [rewrite Hvb; len|]. clear -Hv. induction Hv; constructor; eauto using valid_image_wf.
Qed.

(** C26: damage inside a payload is never decoded. Change up to four adjacent bytes of the
    payload of a record, anywhere in the log: if bytes follow the record, [DecodeLog]
    reports the checksum mismatch; if it is the last one, the log decodes to the records
    before it. *)
Theorem decode_detects_damage `{!CpuSpec C} gs g pre w w' post tail log :
  Forall loggable gs -> loggable g -> encode_log gs = Some log ->
  payload_bytes g.1 (all_entries g.2) = pre ++ w ++ post ->
  length w' = length w -> (length w <= 4)%nat -> w' <> w ->
  let rec' := le_bytes 4 (Crc32C (pre ++ w ++ post)) ++ le_bytes 4 (zlen (pre ++ w ++ post))
                ++ [z2b kBatchRecord] ++ (pre ++ w' ++ post) in
  EncodeBatchInto g.1 g.2 = Some (le_bytes 4 (Crc32C (pre ++ w ++ post))
    ++ le_bytes 4 (zlen (pre ++ w ++ post)) ++ [z2b kBatchRecord] ++ (pre ++ w ++ post)) /\
  (zlen (log ++ rec' ++ tail) < 2 ^ 63 ->
   DecodeLog (log ++ rec' ++ tail) = Some
     match tail with
     | [] => RValue (mkDecodeResult (logged <$> gs) (zlen log))
     | _ => RStatus (Status.Corruption "WAL checksum mismatch")
     end).
Proof.
  rewrite encode_log_spec, EncodeBatchInto_spec. intros Hgs (_ & _ & Henc) [= <-] Hp Hl H4 Hne rec'.
  pose proof (length_payload_bytes g.1 (all_entries g.2)) as Hpl. unfold encodable in Henc.
  split; [unfold record_bytes, record_image; by rewrite Hp|]. intros Hb.
  rewrite Hp in Hpl. set (step := match tail with [] => StopTail
    | _ => Fail (Status.Corruption "WAL checksum mismatch") end).
  rewrite (DecodeLog_images _ (logged <$> gs) (rec' ++ tail) step);
    [by destruct tail|by apply group_images_valid|done| |by destruct tail].
  right. split; [by unfold rec'|].
  assert (zlen (pre ++ w ++ post) = zlen (pre ++ w' ++ post)) as Hlen by (len; congruence).
  unfold rec' in *. rewrite Hlen in Hb |- *. rewrite <- !app_assoc in Hb |- *.
  pose proof (decodeRecord_bad_crc (concat (group_image <$> gs)) (le_bytes 4 (Crc32C (pre ++ w ++ post)))
    (pre ++ w' ++ post) tail) as E. rewrite <- !app_assoc in E. apply E; [done|lia| |done].
  rewrite le_val_word32 by apply Crc32C_range. intros Heq. revert Heq. by apply Crc32C_window.
Qed.

(** What recovery keeps can be appended to. If bytes decode, with their valid bytes
    counted, then cutting the log there and writing a further record decodes to the same
    batches and the new one; in particular decoding what was kept gives the same result. *)
Theorem decode_then_append bs r gs :
  zlen bs + zlen (concat (group_image <$> gs)) < 2 ^ 63 -> Forall loggable gs ->
  DecodeLog bs = Some (RValue r) ->
  exists log, encode_log gs = Some log /\
    DecodeLog (take (Z.to_nat (validBytes r)) bs ++ log)
      = Some (RValue (mkDecodeResult (batches r ++ (logged <$> gs)) (validBytes r + zlen log))).
Proof.
  intros Hb Hgs E. exists (concat (group_image <$> gs)). split; [apply encode_log_spec|].
  apply DecodeLog_sound in E as (imgs & tail & -> & Hv & Hvb & _); [|lia].
  rewrite Hvb, Nat2Z.id, take_app_length, <- concat_app, <- (app_nil_r (concat (imgs ++ _))).
  rewrite (DecodeLog_images _ (batches r ++ (logged <$> gs)) [] StopTail);
    [by rewrite concat_app, length_app, Nat2Z.inj_add| | |by left|done].
  - apply Forall2_app; [done|by apply group_images_valid].
  - rewrite app_nil_r, concat_app. len.
Qed.

(** A tail of zeros is not a torn record. Nine or more zero bytes after whole records
    (a file extended before its data reached the device) make [DecodeLog] fail with
    [kCorruption]; fewer are dropped. *)
Theorem decode_zero_tail gs n log :
  Forall loggable gs -> encode_log gs = Some log -> zlen log + Z.of_nat n < 2 ^ 63 ->
  DecodeLog (log ++ replicate n Byte.x00) = Some
    (if decide (n < 9)%nat then RValue (mkDecodeResult (logged <$> gs) (zlen log))
     else RStatus (Status.Corruption "unknown WAL record type")).
Proof.
  rewrite encode_log_spec. intros Hgs [= <-] Hb.
  set (step := if decide (n < 9)%nat then StopTail else Fail (Status.Corruption "unknown WAL record type")).
  rewrite (DecodeLog_images _ (logged <$> gs) _ step);
    [unfold step; by case_decide|by apply group_images_valid|len| |unfold step; by case_decide].
  unfold step. destruct n as [|n]; [by left|]. right. split; [done|]. case_decide.
  - apply decodeRecord_short; len.
  - replace (S n) with (9 + (S n - 9))%nat by lia.
    rewrite replicate_add. change (replicate 9 Byte.x00) with
      (replicate 4 Byte.x00 ++ replicate 4 Byte.x00 ++ [Byte.x00]). rewrite <- !app_assoc.
    rewrite decodeRecord_header by (done || len). rewrite Z.gtb_ltb.
    change (le_val (replicate 4 Byte.x00)) with 0. by destruct (Z.ltb_spec (zlen (replicate (S n - 9) Byte.x00)) 0); [lia|].
Qed.

(** A record whose length field is too large ends the log wherever it is. If the
    length of some record is damaged so that it reaches past the end of the file, that
    record and every record after it are dropped, and no error is reported. *)
Theorem decode_long_length gs crcb lenb t rest log :
  Forall loggable gs -> encode_log gs = Some log ->
  length crcb = 4%nat -> length lenb = 4%nat -> zlen rest < le_val lenb ->
  zlen (log ++ crcb ++ lenb ++ [t] ++ rest) < 2 ^ 63 ->
  DecodeLog (log ++ crcb ++ lenb ++ [t] ++ rest)
    = Some (RValue (mkDecodeResult (logged <$> gs) (zlen log))).
Proof.
  rewrite encode_log_spec. intros Hgs [= <-] H1 H2 Hl Hb.
  rewrite (DecodeLog_images _ (logged <$> gs) _ StopTail);
    [done|by apply group_images_valid|done| |done].
  right. split; [by destruct crcb|]. rewrite decodeRecord_header by done.
  rewrite Z.gtb_ltb. by destruct (Z.ltb_spec (zlen rest) (le_val lenb)); [|lia].
Qed.

End Properties.

(** ** Examples *)

Definition sample_group : Z * list WriteBatchT :=
  (7, [build_batch [BPut (str "key") (str "value"); BDelete (str "gone")]; build_batch [BPut (str "k") []]]).

Lemma sample_loggable : loggable sample_group.
Proof.
  split; [vm_compute; intuition congruence|]. split; [repeat (constructor; [apply build_batch_wf|]); constructor|].
  vm_compute. reflexivity.
Qed.

Lemma sample_log_loggable : Forall loggable [sample_group; sample_group].
Proof. repeat (constructor; [apply sample_loggable|]). constructor. Qed.

Definition sample_record : bytes := @record_bytes reference_cpu 7 (all_entries sample_group.2).

Lemma fragments_match_contiguous_witness :
  exists fr rec, @EncodeBatchFragmentsInto reference_libc 7 sample_group.2 (mkFragments vector_new vector_new 0) = Some fr /\
    @EncodeBatchInto reference_cpu 7 sample_group.2 = Some rec /\
    materializeIovecs (items (fixed fr)) (items (iovecs fr)) = Some rec /\ zlen rec = 61.
Proof.
  destruct (@fragments_match_contiguous reference_libc reference_cpu reference_cpu_spec 7 sample_group.2
    (mkFragments vector_new vector_new 0)) as (fr & rec & E1 & E2 & E3 & _ & E5 & _).
  - split; vm_compute; reflexivity.
  - exists fr, rec. split; [exact E1|]. split; [exact E2|]. split; [exact E3|].
    rewrite <- E5. vm_compute. reflexivity.
Defined.

Lemma wal_roundtrip_witness :
  exists log, @encode_log reference_cpu [sample_group; sample_group] = Some log /\ zlen log = 122 /\
    @DecodeLog reference_cpu log = Some (RValue (mkDecodeResult [logged sample_group; logged sample_group] 122)).
Proof.
  destruct (@wal_roundtrip reference_cpu [sample_group; sample_group] sample_log_loggable) as (log & E & H).
  exists log.
  assert (option_map (fun l : bytes => zlen l) (@encode_log reference_cpu [sample_group; sample_group]) = Some 122)
    as Hl by (vm_compute; reflexivity).
  rewrite E in Hl. injection Hl as Hl. rewrite Hl in H. split; [exact E|]. split; [exact Hl|]. apply H. vm_compute. reflexivity.
Defined.

(** A group at the limit would take 4 GiB to evaluate, but not to reason about. *)
Definition large_group (n : Z) : list WriteBatchT := [mkWriteBatch [mkEntry kPut [] (replicate (Z.to_nat n) Byte.x00)]].

Lemma large_group_size n : 0 <= n -> batch_size (mkWriteBatch (all_entries (large_group n))) = 9 + n.
Proof.
  intros Hn. unfold large_group, all_entries, batch_size. cbn [fmap list_fmap concat entries_ app].
  rewrite entries_bytes_cons. change (entries_bytes []) with ([] : bytes). rewrite app_nil_r, length_entry_bytes.
  cbn [entry_key entry_value length]. rewrite length_replicate. lia.
Qed.

Lemma record_size_limit_witness :
  exists rec, @EncodeBatchInto reference_cpu 7 (large_group (2 ^ 32)) = Some rec /\
    @DecodeLog reference_cpu rec <> Some (RValue (mkDecodeResult [logged (7, large_group (2 ^ 32))] (zlen rec))).
Proof.
  pose proof (large_group_size (2 ^ 32) ltac:(lia)) as Hs.
  destruct (@record_size_limit reference_cpu 7 (large_group (2 ^ 32))) as (rec & E & H).
  - lia.
  - constructor; [|constructor]. constructor; [discriminate|constructor].
  - split; [reflexivity|]. change (batch_size (mkWriteBatch (all_entries (large_group (2 ^ 32)))) < 2 ^ 62).
    rewrite Hs. lia.
  - exists rec. split; [exact E|]. rewrite H, Hs. lia.
Defined.

Lemma decode_torn_tail_witness :
  @DecodeLog reference_cpu (sample_record ++ take (Z.to_nat 30) sample_record)
    = Some (RValue (mkDecodeResult (logged <$> [sample_group]) (zlen sample_record))).
Proof.
  apply (@decode_torn_tail reference_cpu [sample_group] sample_group 30 sample_record sample_record).
  - constructor; [apply sample_loggable|constructor].
  - apply sample_loggable.
  - vm_compute. reflexivity.
  - vm_compute. reflexivity.
  - vm_compute. split; congruence.
  - vm_compute. reflexivity.
Defined.

Lemma decode_total_witness :
  exists r, @DecodeLog reference_cpu (str "not a write-ahead log") = Some r.
Proof.
  destruct (@decode_total reference_cpu (str "not a write-ahead log")) as (r & E & _).
  - vm_compute. reflexivity.
  - exists r. exact E.
Defined.

(** The sample record with its bytes 29 and 30 overwritten. *)
Definition damaged_record : bytes := take 29 sample_record ++ [Byte.xff; Byte.xfe] ++ drop 31 sample_record.

Definition sample_payload : bytes := payload_bytes 7 (all_entries sample_group.2).

Lemma decode_detects_damage_witness :
  @DecodeLog reference_cpu (sample_record ++ damaged_record ++ sample_record)
    = Some (RStatus (Status.Corruption "WAL checksum mismatch")).
Proof.
  apply (@decode_detects_damage reference_cpu reference_cpu_spec [sample_group] sample_group
    (take 20 sample_payload) (take 2 (drop 20 sample_payload)) [Byte.xff; Byte.xfe] (drop 22 sample_payload)
    sample_record sample_record).
  - constructor; [apply sample_loggable|constructor].
  - apply sample_loggable.
  - vm_compute. reflexivity.
  - vm_compute. reflexivity.
  - reflexivity.
  - vm_compute. repeat constructor.
  - vm_compute. congruence.
  - vm_compute. reflexivity.
Defined.

Lemma decode_then_append_witness :
  exists log, @encode_log reference_cpu [sample_group] = Some log /\
    @DecodeLog reference_cpu (take 61 (sample_record ++ take 30 sample_record) ++ log)
      = Some (RValue (mkDecodeResult [logged sample_group; logged sample_group] (61 + zlen log))).
Proof.
  apply (@decode_then_append reference_cpu (sample_record ++ take 30 sample_record)
    (mkDecodeResult [logged sample_group] 61) [sample_group]).
  - vm_compute. reflexivity.
  - constructor; [apply sample_loggable|constructor].
  - vm_compute. reflexivity.
Defined.

Lemma decode_zero_tail_witness :
  @DecodeLog reference_cpu (sample_record ++ replicate 16 Byte.x00)
    = Some (RStatus (Status.Corruption "unknown WAL record type")).
Proof.
  apply (@decode_zero_tail reference_cpu [sample_group] 16 sample_record).
  - constructor; [apply sample_loggable|constructor].
  - vm_compute. reflexivity.
  - vm_compute. reflexivity.
Defined.

(** Two records, the first with a length field of all ones: nothing is left. *)
Lemma decode_long_length_witness :
  @DecodeLog reference_cpu (take 4 sample_record ++ replicate 4 Byte.xff ++ drop 8 sample_record ++ sample_record)
    = Some (RValue (mkDecodeResult [] 0)).
Proof.
  apply (@decode_long_length reference_cpu [] (take 4 sample_record) (replicate 4 Byte.xff) Byte.x01
    (drop 9 sample_record ++ sample_record) []).
  - constructor.
  - reflexivity.
  - vm_compute. reflexivity.
  - reflexivity.
  - vm_compute. reflexivity.
  - vm_compute. reflexivity.
Defined.
