(* ===== verification/MemTable.v ===== *)
(** * The sharded memtable (src/memtable.h, src/memtable.cc)

    Sixteen hash maps, each behind its own lock, chosen by the hash of the key. The
    refinement at the end shows that the sharding is invisible: a table behaves as one
    map from keys to entries to which a group's entries are applied in order. *)

From S2P Require Import Prelude Status WriteBatch.

Record PendingMemtableUpdate := mkPending { pending_entry : Entry; pending_sequence : Z }.

Record MemTableStats := mkMemTableStats {
  stat_applyLocks : Z;
  stat_applyShardLocks : Z;
  stat_reservedBuckets : Z;
  stat_shardCount : Z;
  stat_entries : Z;
}.

Definition kShardCount : Z := 16.
Definition kInitialBucketsPerShard : Z := 256.

(** [PendingUpdates]: an array of [kShardCount] vectors. *)
Abbreviation PendingUpdates := (list (list PendingMemtableUpdate)).

Record MemEntry := mkMemEntry { sequence : Z; deleted : bool; value : bytes }.

(** A shard's [std::unordered_map], with its bucket count. *)
Record Shard := mkShard { shard_entries : gmap bytes MemEntry; shard_buckets : Z }.

Record MemTableT := mkMemTable {
  applyLocks_ : Z;
  applyShardLocks_ : Z;
  shards_ : list Shard;
}.

Section MemTable.
Context {L : Libc}.

(** [bucket_count()] after the map is asked to hold [n] elements. *)
Definition buckets_for (b n : Z) : Z := if n <=? b then b else map_rehash b n.

(** The constructor: default shards, then [reserve]. *)
Definition emptyShard : Shard := mkShard ∅ 1.

Definition shard_reserve (s : Shard) (n : Z) : Shard :=
  mkShard (shard_entries s) (buckets_for (shard_buckets s) n).

Definition MemTable_new : MemTableT :=
  mkMemTable 0 0
    ((fun s => shard_reserve s kInitialBucketsPerShard) <$> replicate (Z.to_nat kShardCount) emptyShard).

Definition shardFor (key : bytes) : Z := string_hash key mod kShardCount.

Definition MemTable_Get (mt : MemTableT) (key : bytes) : option (Result bytes) :=
  shard ← vec_get (shards_ mt) (shardFor key);
  Some (match shard_entries shard !! key with
        | None => RStatus (Status.NotFound "key not found")
        | Some e => if deleted e then RStatus (Status.NotFound "key not found") else RValue (value e)
        end).

(** The first loop of [ApplyBatches]: every entry, with its sequence number, to the
    pending updates of its shard. *)
Definition pushPending (st : PendingUpdates * Z) (e : Entry) : option (PendingUpdates * Z) :=
  let '(scratch, seq) := st in
  updates ← vec_get scratch (shardFor (entry_key e));
  scratch ← vec_set scratch (shardFor (entry_key e)) (updates ++ [mkPending e seq]);
  Some (scratch, u64 (seq + 1)).

(** [try_emplace] of the key, then the assignments through the iterator. *)
Definition applyUpdate (s : Shard) (u : PendingMemtableUpdate) : Shard :=
  let e := pending_entry u in
  let key := entry_key e in
  let slots := match shard_entries s !! key with
    | None => <[key := mkMemEntry 0 false []]> (shard_entries s)
    | Some _ => shard_entries s
    end in
  mkShard (<[key := mkMemEntry (pending_sequence u) (bool_decide (entry_type e = kDelete)) (entry_value e)]> slots)
    (buckets_for (shard_buckets s) (Z.of_nat (size slots))).

(** One round of the second loop. *)
Definition applyShard (st : MemTableT * PendingUpdates) (shardIndex : Z)
    : option (MemTableT * PendingUpdates) :=
  let '(mt, scratch) := st in
  updates ← vec_get scratch shardIndex;
  if bool_decide (updates = []) then Some (mt, scratch) else
  shard ← vec_get (shards_ mt) shardIndex;
  let shard := fold_left applyUpdate updates shard in
  shards ← vec_set (shards_ mt) shardIndex shard;
  scratch ← vec_set scratch shardIndex [];
  Some (mkMemTable (applyLocks_ mt) (u64 (applyShardLocks_ mt + 1)) shards, scratch).

Definition ApplyBatches (mt : MemTableT) (bs : list WriteBatchT) (baseSeq : Z) (scratch : PendingUpdates)
    : option (MemTableT * PendingUpdates) :=
  let mt := mkMemTable (u64 (applyLocks_ mt + 1)) (applyShardLocks_ mt) (shards_ mt) in
  st ← foldM (fun st b => foldM pushPending st (WriteBatch.entries b)) (scratch, baseSeq) bs;
  foldM applyShard (mt, st.1) (Z.of_nat <$> seq 0 (length st.1)).

Definition MemTable_Stats (mt : MemTableT) : MemTableStats :=
  fold_left (fun st s =>
    mkMemTableStats (stat_applyLocks st) (stat_applyShardLocks st)
      (u64 (stat_reservedBuckets st + shard_buckets s)) (stat_shardCount st)
      (u64 (stat_entries st + Z.of_nat (size (shard_entries s)))))
    (shards_ mt)
    (mkMemTableStats (applyLocks_ mt) (applyShardLocks_ mt) 0 (zlen (shards_ mt)) 0).

End MemTable.

(** ** The abstract table

    One map; a group's entries are written in order, numbered from the base. *)

Abbreviation Table := (@gmap bytes _ (@list_countable byte _ byte_countable) MemEntry).

Fixpoint numbered (seq : Z) (es : list Entry) : list PendingMemtableUpdate :=
  match es with
  | [] => []
  | e :: es => mkPending e seq :: numbered (u64 (seq + 1)) es
  end.

Definition update_entry (u : PendingMemtableUpdate) : MemEntry :=
  mkMemEntry (pending_sequence u) (bool_decide (entry_type (pending_entry u) = kDelete))
    (entry_value (pending_entry u)).

Definition table_update (m : Table) (u : PendingMemtableUpdate) : Table :=
  <[entry_key (pending_entry u) := update_entry u]> m.

Definition table_apply (m : Table) (baseSeq : Z) (es : list Entry) : Table :=
  fold_left table_update (numbered baseSeq es) m.

Definition table_get (m : Table) (key : bytes) : Result bytes :=
  match m !! key with
  | None => RStatus (Status.NotFound "key not found")
  | Some e => if deleted e then RStatus (Status.NotFound "key not found") else RValue (value e)
  end.

(** ** Refinement *)

Section Refinement.
Context {L : Libc}.

(** The representation invariant: sixteen shards, each with its own keys only. *)
Record mt_wf (mt : MemTableT) : Prop := {
  wf_shards : length (shards_ mt) = 16%nat;
  wf_home : forall i s k, shards_ mt !! i = Some s -> is_Some (shard_entries s !! k) ->
    Z.of_nat i = shardFor k;
}.

Definition mt_find (mt : MemTableT) (k : bytes) : option MemEntry :=
  s ← vec_get (shards_ mt) (shardFor k); shard_entries s !! k.

(** The table [mt] represents the map [m]. *)
Definition mt_refines (mt : MemTableT) (m : Table) : Prop :=
  mt_wf mt /\ forall k, mt_find mt k = m !! k.

Definition no_pending : PendingUpdates := replicate 16 [].

Lemma shardFor_range k : 0 <= shardFor k < 16.
Proof. apply Z.mod_pos_bound. done. Qed.

Lemma new_refines : mt_refines MemTable_new ∅.
Proof.
  assert (forall i s, shards_ MemTable_new !! i = Some s -> shard_entries s = ∅) as He.
  { intros i s H. cbn in H. apply list_lookup_fmap_Some in H as (s0 & -> & H).
    apply lookup_replicate in H as [-> _]. done. }
  split; [split|].
  - done.
  - intros i s k H [e Hk]. rewrite (He i s H) in Hk. by rewrite lookup_empty in Hk.
  - intros k. unfold mt_find, vec_get. pose proof (shardFor_range k). zb; [|lia].
    destruct (shards_ MemTable_new !! _) as [s|] eqn:E; [|by rewrite lookup_empty].
    simpl. by rewrite (He _ _ E).
Qed.

Lemma Get_find mt m k : length (shards_ mt) = 16%nat -> mt_find mt k = m !! k ->
  MemTable_Get mt k = Some (table_get m k).
Proof.
  intros Hl Hf. unfold MemTable_Get, mt_find, table_get in *. pose proof (shardFor_range k).
  destruct (vec_get_lt (shards_ mt) (shardFor k)) as [s Hs]; [lia|].
  rewrite Hs in *. simpl in *. by rewrite Hf.
Qed.

Lemma Get_refines mt m k : mt_refines mt m -> MemTable_Get mt k = Some (table_get m k).
Proof. intros [[Hl _] Hf]. by apply Get_find. Qed.

(** *** The abstract updates *)

Lemma fold_update_ext ups (k : bytes) (m m' : Table) : m !! k = m' !! k ->
  fold_left table_update ups m !! k = fold_left table_update ups m' !! k.
Proof.
  revert m m'. induction ups as [|u ups IH]; intros m m' E; [done|]. simpl. apply IH.
  unfold table_update. destruct (decide (entry_key (pending_entry u) = k)) as [<-|Hne].
  - by rewrite !lookup_insert_eq.
  - by rewrite !lookup_insert_ne.
Qed.

Lemma fold_update_filter (P : PendingMemtableUpdate -> Prop) `{!forall u, Decision (P u)} ups (k : bytes) (m : Table) :
  (forall u, entry_key (pending_entry u) = k -> P u) ->
  fold_left table_update (filter P ups) m !! k = fold_left table_update ups m !! k.
Proof.
  intros HP. revert m. induction ups as [|u ups IH]; intros m; [done|].
  rewrite filter_cons. case_decide as Hd; simpl; [apply IH|].
  rewrite IH. apply fold_update_ext. unfold table_update.
  rewrite lookup_insert_ne; [done|]. intros <-. by apply Hd, HP.
Qed.

Lemma fold_applyUpdate ups s :
  shard_entries (fold_left applyUpdate ups s) = fold_left table_update ups (shard_entries s).
Proof.
  revert s. induction ups as [|u ups IH]; intros s; [done|]. rewrite !fold_left_cons, IH.
  f_equal. unfold applyUpdate, table_update, update_entry. cbn [shard_entries].
  destruct (shard_entries s !! entry_key (pending_entry u)) eqn:E; [done|].
  by rewrite insert_insert_eq.
Qed.

(** *** The first loop *)

Definition in_shard (i : nat) (u : PendingMemtableUpdate) : Prop :=
  shardFor (entry_key (pending_entry u)) = Z.of_nat i.

#[export] Instance in_shard_dec i u : Decision (in_shard i u).
Proof. unfold in_shard. apply _. Defined.

(** Pending updates, by shard. *)
Definition pending_of (scratch : PendingUpdates) (ups : list PendingMemtableUpdate) : PendingUpdates :=
  imap (fun i old => old ++ filter (in_shard i) ups) scratch.

Lemma pushPending_loop es scratch seq : length scratch = 16%nat ->
  exists seq', foldM pushPending (scratch, seq) es = Some (pending_of scratch (numbered seq es), seq').
Proof.
  revert scratch seq. induction es as [|e es IH]; intros scratch seq Hl.
  - exists seq. simpl. unfold pending_of. do 2 f_equal.
    apply list_eq. intros i. rewrite list_lookup_imap.
    destruct (scratch !! i); simpl; [by rewrite filter_nil, app_nil_r|done].
  - pose proof (shardFor_range (entry_key e)) as Hr. cbn [foldM]. unfold pushPending at 1.
    destruct (vec_get_lt scratch (shardFor (entry_key e))) as [ups Hu]; [lia|].
    rewrite Hu. cbn [mbind option_bind]. unfold vec_set at 1. zb; try lia. cbn [mbind option_bind].
    destruct (IH (<[Z.to_nat (shardFor (entry_key e)) := ups ++ [mkPending e seq]]> scratch) (u64 (seq + 1)))
      as [seq' ->]; [len|].
    exists seq'. do 2 f_equal. unfold pending_of. apply list_eq. intros i.
    rewrite !list_lookup_imap. cbn [numbered]. unfold vec_get in Hu. zb; [|lia].
    destruct (decide (i = Z.to_nat (shardFor (entry_key e)))) as [->|Hne].
    + rewrite list_lookup_insert_eq, Hu by lia. simpl. rewrite filter_cons_True
        by (unfold in_shard; simpl; lia). by rewrite <- app_assoc.
    + rewrite list_lookup_insert_ne by done. destruct (scratch !! i); simpl; [|done].
      rewrite filter_cons_False; [done|]. unfold in_shard. simpl. lia.
Qed.

(** *** The second loop *)

(** After the rounds below [n], shards below [n] are updated and their pending updates
    are gone. *)
Definition applied_shards (mt : MemTableT) (ups : list PendingMemtableUpdate) (n : nat) : list Shard :=
  imap (fun i s => if decide (i < n)%nat then fold_left applyUpdate (filter (in_shard i) ups) s else s)
    (shards_ mt).

Definition pending_from (ups : list PendingMemtableUpdate) (n : nat) : PendingUpdates :=
  imap (fun i _ => if decide (i < n)%nat then [] else filter (in_shard i) ups) no_pending.

Lemma pending_of_none ups : pending_of no_pending ups = pending_from ups 0.
Proof. done. Qed.

Lemma applied_shards_0 mt ups : applied_shards mt ups 0 = shards_ mt.
Proof.
  unfold applied_shards. apply list_eq. intros i. rewrite list_lookup_imap.
  by destruct (shards_ mt !! i).
Qed.

Lemma length_pending_from ups n : length (pending_from ups n) = 16%nat.
Proof. done. Qed.

Lemma length_applied_shards mt ups n : length (applied_shards mt ups n) = length (shards_ mt).
Proof. unfold applied_shards. apply length_imap. Qed.

Lemma pending_from_get ups n : (n < 16)%nat ->
  vec_get (pending_from ups n) (Z.of_nat n) = Some (filter (in_shard n) ups).
Proof.
  intros Hn. unfold vec_get, pending_from. zb; [|lia]. rewrite Nat2Z.id, list_lookup_imap.
  unfold no_pending. rewrite lookup_replicate_2 by lia. simpl. case_decide; [lia|done].
Qed.

Lemma applied_shards_get mt ups n :
  vec_get (applied_shards mt ups n) (Z.of_nat n) = shards_ mt !! n.
Proof.
  unfold vec_get, applied_shards. zb; [|lia]. rewrite Nat2Z.id, list_lookup_imap.
  destruct (shards_ mt !! n); simpl; [|done]. case_decide; [lia|done].
Qed.

Lemma applied_shards_S mt ups n s : shards_ mt !! n = Some s ->
  vec_set (applied_shards mt ups n) (Z.of_nat n) (fold_left applyUpdate (filter (in_shard n) ups) s)
  = Some (applied_shards mt ups (S n)).
Proof.
  intros Hs. pose proof (lookup_lt_Some _ _ _ Hs). unfold vec_set. rewrite length_applied_shards.
  zb; try lia. f_equal. rewrite Nat2Z.id. apply list_eq. intros i.
  destruct (decide (i = n)) as [->|Hne].
  - rewrite list_lookup_insert_eq by (rewrite length_applied_shards; lia).
    unfold applied_shards. rewrite list_lookup_imap, Hs. simpl. case_decide; [done|lia].
  - rewrite list_lookup_insert_ne by done. unfold applied_shards. rewrite !list_lookup_imap.
    destruct (shards_ mt !! i); simpl; [|done]. do 2 case_decide; done || lia.
Qed.

Lemma pending_from_S ups n : (n < 16)%nat ->
  vec_set (pending_from ups n) (Z.of_nat n) [] = Some (pending_from ups (S n)).
Proof.
  intros Hn. unfold vec_set. rewrite length_pending_from. zb; try lia. f_equal. rewrite Nat2Z.id.
  apply list_eq. intros i. destruct (decide (i = n)) as [->|Hne].
  - rewrite list_lookup_insert_eq by (rewrite length_pending_from; lia).
    unfold pending_from, no_pending. rewrite list_lookup_imap, lookup_replicate_2 by lia.
    simpl. case_decide; [done|lia].
  - rewrite list_lookup_insert_ne by done. unfold pending_from. rewrite !list_lookup_imap.
    destruct (no_pending !! i); simpl; [|done]. do 2 case_decide; done || lia.
Qed.

Lemma applyShard_round mt0 ups n locks locks' : length (shards_ mt0) = 16%nat -> (n < 16)%nat ->
  exists locks'', applyShard (mkMemTable locks locks' (applied_shards mt0 ups n), pending_from ups n) (Z.of_nat n)
    = Some (mkMemTable locks locks'' (applied_shards mt0 ups (S n)), pending_from ups (S n)).
Proof.
  intros Hl Hn. destruct (lookup_lt_is_Some_2 (shards_ mt0) n) as [s Hs]; [lia|].
  unfold applyShard. pose proof (applied_shards_S mt0 ups n s Hs) as Hsh.
  pose proof (pending_from_S ups n Hn) as Hpe. pose proof (pending_from_get ups n Hn) as Hg.
  pose proof (applied_shards_get mt0 ups n) as Hgs. rewrite Hs in Hgs.
  rewrite Hg. cbn [mbind option_bind shards_]. case_bool_decide as He.
  - rewrite He in Hsh, Hg. simpl in Hsh. rewrite (vec_set_same _ _ _ Hgs) in Hsh.
    rewrite (vec_set_same _ _ _ Hg) in Hpe. exists locks'. congruence.
  - rewrite Hgs. cbn [mbind option_bind]. rewrite Hsh. cbn [mbind option_bind]. rewrite Hpe.
    cbn [mbind option_bind]. eauto.
Qed.

Lemma applyShard_loop mt0 ups n locks :
  length (shards_ mt0) = 16%nat -> (n <= 16)%nat ->
  exists locks', foldM applyShard (mkMemTable locks (applyShardLocks_ mt0) (shards_ mt0), pending_from ups 0)
      (Z.of_nat <$> seq 0 n)
    = Some (mkMemTable locks locks' (applied_shards mt0 ups n), pending_from ups n).
Proof.
  intros Hl. induction n as [|n IH]; intros Hn.
  - exists (applyShardLocks_ mt0). simpl. by rewrite applied_shards_0.
  - destruct IH as [locks' E]; [lia|]. rewrite seq_S, fmap_app, foldM_app, E.
    destruct (applyShard_round mt0 ups n locks locks') as [locks'' E']; [done|lia|].
    exists locks''. cbn [mbind option_bind fmap list_fmap foldM]. by rewrite Nat.add_0_l, E'.
Qed.

Lemma pending_from_16 ups : pending_from ups 16 = no_pending.
Proof. done. Qed.

Lemma applied_shards_Forall (P : Shard -> Prop) mt ups n :
  (forall s u, P s -> P (applyUpdate s u)) -> Forall P (shards_ mt) -> Forall P (applied_shards mt ups n).
Proof.
  intros HP. rewrite !Forall_lookup. intros H i s' Hs'. unfold applied_shards in Hs'.
  rewrite list_lookup_imap in Hs'. destruct (shards_ mt !! i) as [s|] eqn:Hs; simplify_eq/=.
  case_decide; [|by eauto]. apply fold_left_inv; [done|by eauto].
Qed.

(** In between, a key's shard holds all of the key's updates or none of them. *)
Lemma applied_shards_find mt m ups n k : mt_refines mt m ->
  (s ← vec_get (applied_shards mt ups n) (shardFor k); shard_entries s !! k)
  = (if shardFor k <? Z.of_nat n then fold_left table_update ups m else m) !! k.
Proof.
  intros [[Hl _] Hf]. specialize (Hf k). unfold mt_find in Hf. pose proof (shardFor_range k) as Hr.
  unfold vec_get in *. zb; try lia; unfold applied_shards; rewrite list_lookup_imap;
    (destruct (lookup_lt_is_Some_2 (shards_ mt) (Z.to_nat (shardFor k))) as [s Hs]; [lia|]);
    rewrite Hs in *; simpl in *; case_decide; try lia; [|done].
  rewrite fold_applyUpdate, fold_update_filter; [by apply fold_update_ext|].
  intros u <-. unfold in_shard. lia.
Qed.

(** Applying a group from empty scratch space is defined, leaves the scratch space
    empty and is the abstract update. *)
Lemma ApplyBatches_refines mt m bs base :
  mt_refines mt m ->
  exists mt', ApplyBatches mt bs base no_pending = Some (mt', no_pending) /\
    mt_refines mt' (table_apply m base (all_entries bs)) /\
    applyLocks_ mt' = u64 (applyLocks_ mt + 1) /\
    (forall P, (forall s u, P s -> P (applyUpdate s u)) -> Forall P (shards_ mt) -> Forall P (shards_ mt')).
Proof.
  intros [[Hl Hhome] Hf]. unfold ApplyBatches. rewrite nested_loopM.
  destruct (pushPending_loop (all_entries bs) no_pending base) as [seq' ->]; [done|].
  cbn [mbind option_bind fst]. rewrite pending_of_none, length_pending_from.
  set (ups := numbered base (all_entries bs)).
  destruct (applyShard_loop mt ups 16 (u64 (applyLocks_ mt + 1))) as [locks' E]; [done|lia|].
  rewrite E, pending_from_16. eexists. split; [done|]. split; [|split; [done|]].
  2:{ intros P HP. cbn [shards_]. apply applied_shards_Forall, HP. }
  assert (forall i s', applied_shards mt ups 16 !! i = Some s' -> exists s, shards_ mt !! i = Some s /\
    shard_entries s' = fold_left table_update (filter (in_shard i) ups) (shard_entries s)) as Hsh.
  { intros i s' H. unfold applied_shards in H. rewrite list_lookup_imap in H.
    destruct (shards_ mt !! i) as [s|] eqn:Es; [|done]. simplify_eq/=. exists s. split; [done|].
    apply lookup_lt_Some in Es. case_decide; [|lia]. by rewrite fold_applyUpdate. }
  split; [split|].
  - cbn [shards_]. unfold applied_shards. by rewrite length_imap.
  - intros i s' k Hs' Hk. cbn [shards_] in Hs'. destruct (Hsh i s' Hs') as (s & Hs & He).
    destruct (decide (Z.of_nat i = shardFor k)) as [|Hne]; [done|]. exfalso.
    destruct Hk as [e Hk]. rewrite He in Hk.
    rewrite <- (fold_update_filter (fun u => entry_key (pending_entry u) = k)) in Hk by done.
    replace (filter _ (filter (in_shard i) ups)) with ([] : list PendingMemtableUpdate) in Hk.
    + simpl in Hk. apply Hne, (Hhome i s k Hs). eauto.
    + symmetry. clear -Hne. induction ups as [|u us IH]; [done|].
      rewrite filter_cons. case_decide as Hd; [|done]. rewrite filter_cons. case_decide; [|done].
      subst k. exfalso. apply Hne. by symmetry.
  - intros k. unfold mt_find. cbn [shards_]. rewrite (applied_shards_find mt m) by done.
    pose proof (shardFor_range k). zb; [done|lia].
Qed.

End Refinement.

(** ** The key-value map

    What a client means by a write. *)
Definition kv_apply (m : gmap bytes bytes) (e : Entry) : gmap bytes bytes :=
  match entry_type e with
  | kPut => <[entry_key e := entry_value e]> m
  | kDelete => delete (entry_key e) m
  end.

Definition kv_get (m : gmap bytes bytes) (k : bytes) : Result bytes :=
  match m !! k with
  | Some v => RValue v
  | None => RStatus (Status.NotFound "key not found")
  end.

(** The map a memtable stands for: tombstones are invisible. *)
Definition visible (m : Table) : gmap bytes bytes :=
  omap (fun e => if deleted e then None else Some (value e)) m.

Lemma table_get_visible m k : table_get m k = kv_get (visible m) k.
Proof.
  unfold table_get, kv_get, visible. rewrite lookup_omap.
  destruct (m !! k) as [e|]; simpl; [by destruct (deleted e)|done].
Qed.

Lemma visible_update m u : visible (table_update m u) = kv_apply (visible m) (pending_entry u).
Proof.
  apply map_eq. intros k. unfold visible, table_update, kv_apply, update_entry.
  rewrite lookup_omap. destruct u as [[t k' v] sq]. cbn.
  destruct (decide (k' = k)) as [->|Hne].
  - rewrite lookup_insert_eq. cbn. destruct t; cbn; by rewrite ?lookup_insert_eq, ?lookup_delete_eq.
  - rewrite lookup_insert_ne by done. destruct t; cbn;
      by rewrite ?lookup_insert_ne, ?lookup_delete_ne, lookup_omap by done.
Qed.

Lemma visible_apply m base es : visible (table_apply m base es) = fold_left kv_apply es (visible m).
Proof.
  unfold table_apply. revert m base. induction es as [|e es IH]; intros m base; [done|].
  cbn [numbered fold_left]. by rewrite IH, visible_update.
Qed.

(** The last entry for a key decides. *)
Definition last_write (k : bytes) (es : list Entry) : option Entry :=
  last (filter (fun e => entry_key e = k) es).

Lemma kv_apply_lookup m e k : kv_apply m e !! k =
  if decide (entry_key e = k) then
    match entry_type e with kPut => Some (entry_value e) | kDelete => None end
  else m !! k.
Proof.
  unfold kv_apply. destruct (entry_type e); case_decide as Hk; subst.
  - apply lookup_insert_eq.
  - by apply lookup_insert_ne.
  - apply lookup_delete_eq.
  - by apply lookup_delete_ne.
Qed.

Lemma kv_fold_lookup es m k : fold_left kv_apply es m !! k =
  match last_write k es with
  | Some e => match entry_type e with kPut => Some (entry_value e) | kDelete => None end
  | None => m !! k
  end.
Proof.
  unfold last_write. induction es as [|e es IH] using rev_ind; [done|].
  rewrite fold_left_app, filter_app. cbn [fold_left]. rewrite kv_apply_lookup.
  rewrite filter_cons, filter_nil. case_decide; [by rewrite last_snoc|].
  by rewrite app_nil_r, IH.
Qed.

(** ** Sizes *)

Section Sizes.
Context {L : Libc}.

Definition keys_below (m : Table) (n : nat) : Table := filter (fun p => shardFor p.1 < Z.of_nat n) m.

Lemma shard_is_filter mt (m : Table) i s : mt_refines mt m -> shards_ mt !! i = Some s ->
  shard_entries s = filter (fun p => shardFor p.1 = Z.of_nat i) m.
Proof.
  intros [[Hl Hhome] Hf] Hs. apply map_eq. intros k.
  destruct (decide (shardFor k = Z.of_nat i)) as [Hk|Hk].
  - rewrite map_lookup_filter. specialize (Hf k). unfold mt_find, vec_get in Hf.
    rewrite Hk in Hf. zb; [|lia]. rewrite Nat2Z.id, Hs in Hf. simpl in Hf. rewrite Hf.
    destruct (m !! k); simpl; [|done]. by rewrite option_guard_True.
  - rewrite (map_lookup_filter_None_2 _ m k); [|right; intros ? _; by simpl].
    destruct (shard_entries s !! k) eqn:E; [|done].
    exfalso. apply Hk. symmetry. apply (Hhome i s k Hs). eauto.
Qed.

Lemma keys_below_S mt (m : Table) n s : mt_refines mt m -> shards_ mt !! n = Some s ->
  size (keys_below m (S n)) = (size (keys_below m n) + size (shard_entries s))%nat.
Proof.
  intros Hr Hs. rewrite (shard_is_filter mt m n s Hr Hs). unfold keys_below.
  rewrite <- map_size_disj_union.
  - f_equal. apply map_eq. intros k. rewrite lookup_union, !map_lookup_filter.
    destruct (m !! k); simpl; [|done]. repeat case_guard; simpl; try done; lia.
  - apply map_disjoint_spec. intros k x y H1 H2.
    apply map_lookup_filter_Some in H1 as [_ H1]. apply map_lookup_filter_Some in H2 as [_ H2].
    simpl in *. lia.
Qed.

Lemma shard_sizes mt (m : Table) n : mt_refines mt m -> (n <= 16)%nat ->
  Z.of_nat (size (keys_below m n)) =
    foldr Z.add 0 ((fun s => Z.of_nat (size (shard_entries s))) <$> take n (shards_ mt)).
Proof.
  intros Hr Hn. induction n as [|n IH].
  - unfold keys_below. rewrite take_0. simpl.
    enough (filter (fun p : bytes * MemEntry => shardFor p.1 < Z.of_nat 0) m = ∅) as ->
      by (by rewrite map_size_empty).
    apply map_eq. intros k. rewrite lookup_empty. apply map_lookup_filter_None_2. right.
    intros x _. simpl. pose proof (shardFor_range k). lia.
  - destruct Hr as [[Hl Hh] Hf]. destruct (lookup_lt_is_Some_2 (shards_ mt) n) as [s Hs]; [lia|].
    rewrite (keys_below_S mt m n s); [|done..].
    rewrite (take_S_r _ _ _ Hs), fmap_app, foldr_app, foldr_add_acc, Nat2Z.inj_add, IH by lia.
    cbn [fmap list_fmap foldr]. lia.
Qed.

(** Buckets never fall below what the constructor reserved, nor below the number of
    elements. *)
Definition shard_buckets_ok (s : Shard) : Prop :=
  256 <= shard_buckets s /\ Z.of_nat (size (shard_entries s)) <= shard_buckets s.

Context `{!LibcSpec L}.

Lemma buckets_for_ge b n : b <= buckets_for b n /\ n <= buckets_for b n.
Proof. unfold buckets_for. zb; [lia|]. pose proof (map_rehash_enough b n). lia. Qed.

Lemma new_buckets : Forall shard_buckets_ok (shards_ MemTable_new).
Proof.
  cbn [MemTable_new shards_]. apply Forall_fmap, Forall_replicate.
  pose proof (buckets_for_ge 1 256). unfold shard_reserve, kInitialBucketsPerShard.
  split; cbn [shard_buckets shard_entries emptyShard]; [lia|]. rewrite map_size_empty. lia.
Qed.

Lemma applyUpdate_buckets s u : shard_buckets_ok s -> shard_buckets_ok (applyUpdate s u).
Proof.
  intros [H1 H2]. unfold applyUpdate. set (slots := match _ with Some _ => _ | None => _ end).
  pose proof (buckets_for_ge (shard_buckets s) (Z.of_nat (size slots))).
  split; cbn [shard_buckets shard_entries]; [lia|].
  rewrite map_size_insert_Some; [lia|]. unfold slots.
  destruct (shard_entries s !! _) eqn:E; [by eauto|]. rewrite lookup_insert_eq. eauto.
Qed.

Lemma keys_below_all (m : Table) : keys_below m 16 = m.
Proof. apply map_filter_id. intros k x _. apply shardFor_range. Qed.

Lemma stats_loop ss a b r c e : u64 r = r -> u64 e = e ->
  fold_left (fun st s => mkMemTableStats (stat_applyLocks st) (stat_applyShardLocks st)
      (u64 (stat_reservedBuckets st + shard_buckets s)) (stat_shardCount st)
      (u64 (stat_entries st + Z.of_nat (size (shard_entries s))))) ss (mkMemTableStats a b r c e)
  = mkMemTableStats a b (u64 (r + foldr Z.add 0 (shard_buckets <$> ss))) c
      (u64 (e + foldr Z.add 0 ((fun s => Z.of_nat (size (shard_entries s))) <$> ss))).
Proof.
  revert r e. induction ss as [|s ss IH]; intros r e Hr He.
  - cbn. by rewrite !Z.add_0_r, Hr, He.
  - rewrite fold_left_cons.
    cbn [stat_applyLocks stat_applyShardLocks stat_reservedBuckets stat_shardCount stat_entries].
    rewrite IH by apply u64_idemp. unfold u64. rewrite !Zplus_mod_idemp_l.
    cbn [fmap list_fmap foldr]. by rewrite <- !Z.add_assoc.
Qed.

Lemma Stats_spec mt m : mt_refines mt m -> Z.of_nat (size m) < 2 ^ 64 ->
  MemTable_Stats mt = mkMemTableStats (applyLocks_ mt) (applyShardLocks_ mt)
    (u64 (foldr Z.add 0 (shard_buckets <$> shards_ mt))) 16 (Z.of_nat (size m)).
Proof.
  intros Hr Hs. unfold MemTable_Stats. rewrite stats_loop by done. rewrite !Z.add_0_l.
  pose proof (shard_sizes mt m 16 Hr ltac:(lia)) as E. destruct Hr as [[Hl _] _].
  rewrite firstn_all2, keys_below_all in E by lia. rewrite <- E, Hl, (u64_small (Z.of_nat (size m))) by lia. done.
Qed.
End Sizes.

(** ** Properties *)

Section Properties.
Context {L : Libc}.

(** Calls of [ApplyBatches], from a new table and empty scratch space. *)
Definition apply_calls (calls : list (list WriteBatchT * Z)) : option (MemTableT * PendingUpdates) :=
  foldM (fun '(mt, scratch) '(bs, base) => ApplyBatches mt bs base scratch) (MemTable_new, no_pending) calls.

Definition calls_entries (calls : list (list WriteBatchT * Z)) : list Entry :=
  concat ((fun c => all_entries c.1) <$> calls).

Definition calls_table (calls : list (list WriteBatchT * Z)) : Table :=
  fold_left (fun m c => table_apply m c.2 (all_entries c.1)) calls ∅.

Lemma apply_calls_spec calls : exists mt, apply_calls calls = Some (mt, no_pending) /\
  mt_refines mt (calls_table calls) /\ applyLocks_ mt = u64 (zlen calls) /\
  (LibcSpec L -> Forall shard_buckets_ok (shards_ mt)).
Proof.
  unfold apply_calls, calls_table. induction calls as [|[bs base] calls IH] using rev_ind.
  - exists MemTable_new. split; [done|]. split; [apply new_refines|]. split; [done|].
    intros. apply new_buckets.
  - destruct IH as (mt & E & Hr & Hl & Hb). rewrite foldM_app, E. cbn [mbind option_bind foldM].
    destruct (ApplyBatches_refines mt _ bs base Hr) as (mt' & -> & Hr' & Hl' & Hb').
    exists mt'. split; [done|]. rewrite fold_left_app. split; [exact Hr'|]. split.
    + rewrite Hl', Hl. unfold u64. rewrite Zplus_mod_idemp_l. f_equal. len.
    + intros. apply Hb'; [apply applyUpdate_buckets|by apply Hb].
Qed.

Lemma calls_visible calls : visible (calls_table calls) = fold_left kv_apply (calls_entries calls) ∅.
Proof.
  unfold calls_table, calls_entries. induction calls as [|c calls IH] using rev_ind.
  - apply map_eq. intros k. unfold visible. by rewrite lookup_omap.
  - rewrite fold_left_app, fmap_app, concat_app, fold_left_app. cbn.
    by rewrite app_nil_r, visible_apply, IH.
Qed.

Lemma calls_keys calls :
  dom (calls_table calls) = (list_to_set (entry_key <$> calls_entries calls) : gset bytes).
Proof.
  unfold calls_table, calls_entries. induction calls as [|c calls IH] using rev_ind.
  - cbn. apply dom_empty_L.
  - rewrite fold_left_app, fmap_app, concat_app, fmap_app, list_to_set_app_L. cbn.
    rewrite app_nil_r, <- IH. unfold table_apply. generalize (fold_left (fun m c =>
      fold_left table_update (numbered c.2 (all_entries c.1)) m) calls ∅). generalize c.2.
    induction (all_entries c.1) as [|e es IHe]; intros z m; cbn; [by rewrite union_empty_r_L|].
    rewrite IHe. unfold table_update. cbn. by rewrite dom_insert_L, (union_comm_L {[_]}), union_assoc_L.
Qed.

Lemma calls_get calls k : table_get (calls_table calls) k =
  match last_write k (calls_entries calls) with
  | Some (mkEntry kPut _ v) => RValue v
  | _ => RStatus (Status.NotFound "key not found")
  end.
Proof.
  rewrite table_get_visible, calls_visible. unfold kv_get. rewrite kv_fold_lookup, lookup_empty.
  by destruct (last_write k _) as [[[] ? ?]|].
Qed.

(** C18: the memtable is a map in which the last writer wins. Whatever groups are applied
    to a new table, whatever the hash function, every [ApplyBatches] is defined and
    leaves the scratch space empty, and [Get] of a key then returns the value of the last
    [Put] of that key if no [Delete] of it came later, and [NotFound] otherwise; the
    sixteen shards cannot be told from one map. *)
Theorem memtable_last_writer_wins (calls : list (list WriteBatchT * Z)) :
  exists mt, apply_calls calls = Some (mt, no_pending) /\
    forall k, MemTable_Get mt k = Some
      match last_write k (calls_entries calls) with
      | Some (mkEntry kPut _ v) => RValue v
      | _ => RStatus (Status.NotFound "key not found")
      end.
Proof.
  destruct (apply_calls_spec calls) as (mt & E & Hr & _). exists mt. split; [done|]. intros k.
  by rewrite (Get_refines mt _ k Hr), calls_get.
Qed.

(** [Stats] counts what is there. After any calls, with fewer than 2^64 keys, it
    reports one [applyLocks] per call, sixteen shards, exactly as many entries as keys
    were ever written (tombstones included), and the sum of the shards' bucket counts,
    none of which is below the 256 reserved at construction or below the number of
    elements its shard holds. *)
Theorem memtable_stats `{!LibcSpec L} (calls : list (list WriteBatchT * Z)) :
  Z.of_nat (size (list_to_set (entry_key <$> calls_entries calls) : gset bytes)) < 2 ^ 64 ->
  exists mt, apply_calls calls = Some (mt, no_pending) /\
    stat_applyLocks (MemTable_Stats mt) = u64 (zlen calls) /\
    stat_shardCount (MemTable_Stats mt) = kShardCount /\
    stat_entries (MemTable_Stats mt)
      = Z.of_nat (size (list_to_set (entry_key <$> calls_entries calls) : gset bytes)) /\
    stat_reservedBuckets (MemTable_Stats mt) = u64 (foldr Z.add 0 (shard_buckets <$> shards_ mt)) /\
    Forall (fun s => kInitialBucketsPerShard <= shard_buckets s /\
                     Z.of_nat (size (shard_entries s)) <= shard_buckets s) (shards_ mt).
Proof.
  rewrite <- calls_keys, size_dom. intros Hs.
  destruct (apply_calls_spec calls) as (mt & E & Hr & Hl & Hb). exists mt. split; [done|].
  rewrite (Stats_spec mt _ Hr Hs). cbn [stat_applyLocks stat_shardCount stat_entries stat_reservedBuckets].
  do 4 (split; [done|]). by apply Hb.
Qed.

End Properties.

Definition sample_calls : list (list WriteBatchT * Z) :=
  [([build_batch [BPut (str "a") (str "1"); BPut (str "b") (str "2")]], 1); ([build_batch [BDelete (str "a")]], 3)].

Lemma memtable_stats_witness :
  exists mt, @apply_calls reference_libc sample_calls = Some (mt, no_pending) /\
    stat_entries (MemTable_Stats mt) = 2.
Proof.
  destruct (@memtable_stats reference_libc reference_libc_spec sample_calls) as (mt & E & _ & _ & H & _).
  - vm_compute. reflexivity.
  - exists mt. split; [exact E|]. rewrite H. vm_compute. reflexivity.
Defined.
