(* ===== verification/MemTableReaders.v ===== *)
(** * Readers beside the writer (src/memtable.h, src/memtable.cc)

    [Get] takes its shard's lock shared; [ApplyBatches] takes the shards' locks one after
    the other, exclusively. [WriterQueue] lets one writer into [ApplyBatches] at a time
    but any number of readers into [Get]. This file runs the two against each other: the
    steps of one thread that makes calls of [ApplyBatches], cut wherever another thread
    can look, and the steps of readers. *)

From S2P Require Import Prelude Status WriteBatch MemTable.

(** Where the writer's thread is in [ApplyBatches]. *)
Inductive apply_pc :=
  | AIdle                                               (* not in a call *)
  | APush (todo : list Entry) (seq : Z)                 (* in the first loop *)
  | AShard (shardIndex : Z)                             (* in the second loop, no lock held *)
  | AUpdate (shardIndex : Z) (todo : list PendingMemtableUpdate). (* holding the shard's lock *)

(** Where a reader is in [Get]; [r_began] and [r_from] are what the histories held when it
    was let in: returned calls of [Get] and finished calls of [ApplyBatches]. *)
Inductive reader_pc :=
  | RLocked                                             (* [shared_lock] taken *)
  | RFound (at_ : nat) (r : Result bytes).              (* [find] done *)

Record Reader := mkReader {
  r_key : bytes;
  r_pc : reader_pc;
  r_began : nat;
  r_from : nat;
}.

(** A returned [Get]. [g_at] is the number of calls of [ApplyBatches] it reflects;
    [g_to] the number begun when it returned. *)
Record got := mkGot {
  g_key : bytes;
  g_result : Result bytes;
  g_began : nat;
  g_from : nat;
  g_at : nat;
  g_to : nat;
}.

Record RSys := mkRSys {
  rs_table : MemTableT;
  rs_scratch : PendingUpdates;
  rs_pc : apply_pc;
  rs_readers : gmap nat Reader;
  rs_calls : list (list WriteBatchT * Z);   (* begun, in order *)
  rs_gets : list got;                       (* returned, in order *)
}.

Section Steps.
Context {L : Libc}.

Definition rsys0 : RSys := mkRSys MemTable_new no_pending AIdle ∅ [] [].

(** The shards' locks. *)
Definition exclusive (s : RSys) (i : Z) : bool :=
  match rs_pc s with AUpdate j _ => i =? j | _ => false end.

Definition shared (s : RSys) (i : Z) : bool :=
  bool_decide (map_Exists (fun _ r => shardFor (r_key r) = i) (rs_readers s)).

(** Finished calls, and those a reader of [k] is to see. *)
Definition finished (s : RSys) : nat :=
  match rs_pc s with AIdle => length (rs_calls s) | _ => pred (length (rs_calls s)) end.

Definition version (s : RSys) (k : bytes) : nat :=
  match rs_pc s with
  | AShard i | AUpdate i _ => if shardFor k <? i then length (rs_calls s) else finished s
  | _ => finished s
  end.

Definition at_pc (s : RSys) (pc : apply_pc) : RSys :=
  mkRSys (rs_table s) (rs_scratch s) pc (rs_readers s) (rs_calls s) (rs_gets s).

Definition with_table (s : RSys) (mt : MemTableT) (scratch : PendingUpdates) (pc : apply_pc) : RSys :=
  mkRSys mt scratch pc (rs_readers s) (rs_calls s) (rs_gets s).

Definition with_readers (s : RSys) (rs : gmap nat Reader) : RSys :=
  mkRSys (rs_table s) (rs_scratch s) (rs_pc s) rs (rs_calls s) (rs_gets s).

(** The writer. *)
Inductive astep : RSys -> RSys -> Prop :=
  | Begin s bs base :
      rs_pc s = AIdle ->
      astep s (mkRSys
        (mkMemTable (u64 (applyLocks_ (rs_table s) + 1)) (applyShardLocks_ (rs_table s)) (shards_ (rs_table s)))
        (rs_scratch s) (APush (all_entries bs) base) (rs_readers s) (rs_calls s ++ [(bs, base)]) (rs_gets s))
  | Push s e es seq scratch seq' :
      rs_pc s = APush (e :: es) seq ->
      pushPending (rs_scratch s, seq) e = Some (scratch, seq') ->
      astep s (with_table s (rs_table s) scratch (APush es seq'))
  | Pushed s seq :
      rs_pc s = APush [] seq ->
      astep s (at_pc s (AShard 0))
  | Skip s i :
      rs_pc s = AShard i ->
      vec_get (rs_scratch s) i = Some [] ->
      astep s (at_pc s (AShard (i + 1)))
  | Lock s i u ups :
      rs_pc s = AShard i ->
      vec_get (rs_scratch s) i = Some (u :: ups) ->
      shared s i = false ->
      astep s (with_table s
        (mkMemTable (applyLocks_ (rs_table s)) (u64 (applyShardLocks_ (rs_table s) + 1)) (shards_ (rs_table s)))
        (rs_scratch s) (AUpdate i (u :: ups)))
  | Update s i u ups shard shards :
      rs_pc s = AUpdate i (u :: ups) ->
      vec_get (shards_ (rs_table s)) i = Some shard ->
      vec_set (shards_ (rs_table s)) i (applyUpdate shard u) = Some shards ->
      astep s (with_table s (mkMemTable (applyLocks_ (rs_table s)) (applyShardLocks_ (rs_table s)) shards)
        (rs_scratch s) (AUpdate i ups))
  | Unlock s i scratch :
      rs_pc s = AUpdate i [] ->
      vec_set (rs_scratch s) i [] = Some scratch ->
      astep s (with_table s (rs_table s) scratch (AShard (i + 1)))
  | Return s i :
      rs_pc s = AShard i ->
      i = zlen (rs_scratch s) ->
      astep s (at_pc s AIdle).

(** The readers. *)
Inductive gstep : RSys -> RSys -> Prop :=
  | Enter s t k :
      rs_readers s !! t = None ->
      exclusive s (shardFor k) = false ->
      gstep s (with_readers s (<[t := mkReader k RLocked (length (rs_gets s)) (finished s)]> (rs_readers s)))
  | Find s t k b f r :
      rs_readers s !! t = Some (mkReader k RLocked b f) ->
      MemTable_Get (rs_table s) k = Some r ->
      gstep s (with_readers s (<[t := mkReader k (RFound (version s k) r) b f]> (rs_readers s)))
  | Leave s t k a r b f :
      rs_readers s !! t = Some (mkReader k (RFound a r) b f) ->
      gstep s (mkRSys (rs_table s) (rs_scratch s) (rs_pc s) (delete t (rs_readers s)) (rs_calls s)
        (rs_gets s ++ [mkGot k r b f a (length (rs_calls s))])).

Inductive rstep (s s' : RSys) : Prop :=
  | WriterStep : astep s s' -> rstep s s'
  | ReaderStep : gstep s s' -> rstep s s'.

End Steps.

(** ** The writer's invariant

    Between its steps the writer has done a prefix of what [ApplyBatches] does. *)
Section Writer.
Context {L : Libc}.

Definition bump (mt : MemTableT) : MemTableT :=
  mkMemTable (u64 (applyLocks_ mt + 1)) (applyShardLocks_ mt) (shards_ mt).

Definition rounds (mt : MemTableT) (ups : list PendingMemtableUpdate) (n : nat)
    : option (MemTableT * PendingUpdates) :=
  foldM applyShard (mt, pending_from ups 0) (Z.of_nat <$> seq 0 n).

(** [mt] is the table when the call of [bs] with [base] began. *)
Definition in_call (mt : MemTableT) (bs : list WriteBatchT) (base : Z) (s : RSys) : Prop :=
  let ups := numbered base (all_entries bs) in
  match rs_pc s with
  | AIdle => False
  | APush es seq => rs_table s = bump mt /\
      exists pushed, all_entries bs = pushed ++ es /\
        foldM pushPending (no_pending, base) pushed = Some (rs_scratch s, seq)
  | AShard i => exists n, i = Z.of_nat n /\ (n <= 16)%nat /\
      rounds (bump mt) ups n = Some (rs_table s, rs_scratch s)
  | AUpdate i todo => exists n mt' applied shard, i = Z.of_nat n /\ (n < 16)%nat /\
      rounds (bump mt) ups n = Some (mt', rs_scratch s) /\
      filter (in_shard n) ups = applied ++ todo /\ filter (in_shard n) ups <> [] /\
      vec_get (shards_ mt') i = Some shard /\
      rs_table s = mkMemTable (applyLocks_ mt') (u64 (applyShardLocks_ mt' + 1))
        (<[n := fold_left applyUpdate applied shard]> (shards_ mt'))
  end.

Definition writer_inv (s : RSys) : Prop :=
  match rs_pc s with
  | AIdle => apply_calls (rs_calls s) = Some (rs_table s, rs_scratch s)
  | _ => exists cs bs base mt, rs_calls s = cs ++ [(bs, base)] /\
      apply_calls cs = Some (mt, no_pending) /\ in_call mt bs base s
  end.

Lemma rounds_S mt ups n : rounds mt ups (S n) = rounds mt ups n ≫= λ st, applyShard st (Z.of_nat n).
Proof.
  unfold rounds. rewrite seq_S, fmap_app, foldM_app. cbn. destruct (foldM applyShard _ _); cbn; [|done].
  by destruct (applyShard _ _).
Qed.

Lemma rounds_spec mt ups n : length (shards_ mt) = 16%nat -> (n <= 16)%nat ->
  exists locks, rounds (bump mt) ups n
    = Some (mkMemTable (applyLocks_ (bump mt)) locks (applied_shards mt ups n), pending_from ups n).
Proof. intros Hl Hn. by apply (applyShard_loop mt). Qed.

Lemma apply_calls_table cs mt scratch : apply_calls cs = Some (mt, scratch) ->
  mt_refines mt (calls_table cs) /\ scratch = no_pending.
Proof. destruct (apply_calls_spec cs) as (mt' & -> & H & _). intros [= <- <-]. done. Qed.

Lemma apply_calls_snoc cs bs base : apply_calls (cs ++ [(bs, base)])
  = apply_calls cs ≫= λ '(mt, scratch), ApplyBatches mt bs base scratch.
Proof.
  unfold apply_calls. rewrite foldM_app. destruct (foldM _ _ _) as [[mt scratch]|]; cbn; [|done].
  by destruct (ApplyBatches _ _ _ _).
Qed.

(** After the first loop the second starts, and after its last round the call is done. *)
Lemma pushes_all bs base scratch seq :
  foldM pushPending (no_pending, base) (all_entries bs) = Some (scratch, seq) ->
  scratch = pending_from (numbered base (all_entries bs)) 0.
Proof.
  destruct (pushPending_loop (all_entries bs) no_pending base) as [seq' ->]; [done|].
  intros [= <- _]. apply pending_of_none.
Qed.

Lemma rounds_all mt bs base : ApplyBatches mt bs base no_pending
  = rounds (bump mt) (numbered base (all_entries bs)) 16.
Proof.
  unfold ApplyBatches. rewrite nested_loopM.
  destruct (pushPending_loop (all_entries bs) no_pending base) as [seq' ->]; [done|].
  cbn [mbind option_bind fst]. by rewrite pending_of_none, length_pending_from.
Qed.

Lemma rounds_scratch cs mt ups n mt' scratch : apply_calls cs = Some (mt, no_pending) -> (n <= 16)%nat ->
  rounds (bump mt) ups n = Some (mt', scratch) ->
  shards_ mt' = applied_shards mt ups n /\ scratch = pending_from ups n.
Proof.
  intros Hc Hn E. apply apply_calls_table in Hc as [[[Hl _] _] _].
  destruct (rounds_spec mt ups n Hl Hn) as [locks E']. rewrite E in E'. by injection E' as -> ->.
Qed.

Lemma update_keeps cs mt bs base s i u us shard shards : apply_calls cs = Some (mt, no_pending) ->
  rs_pc s = AUpdate i (u :: us) -> in_call mt bs base s ->
  vec_get (shards_ (rs_table s)) i = Some shard ->
  vec_set (shards_ (rs_table s)) i (applyUpdate shard u) = Some shards ->
  in_call mt bs base (with_table s (mkMemTable (applyLocks_ (rs_table s)) (applyShardLocks_ (rs_table s)) shards)
    (rs_scratch s) (AUpdate i us)).
Proof.
  intros Hc Hpc H Hg Hs. unfold in_call in *. rewrite Hpc in H.
  destruct H as (n & mt' & applied & shard0 & -> & Hn & Hr & Hf & Hne & Hg0 & Ht).
  cbn [with_table rs_pc rs_table rs_scratch]. exists n, mt', (applied ++ [u]), shard0.
  rewrite <- app_assoc. repeat (split; [done|]). rewrite Ht in *. cbn [applyLocks_ applyShardLocks_ shards_] in *.
  rewrite vec_get_nat in *. pose proof (lookup_lt_Some _ _ _ Hg0).
  rewrite list_lookup_insert_eq in Hg by done. injection Hg as <-.
  apply vec_set_nat in Hs as [_ ->]. by rewrite list_insert_insert_eq, fold_left_app.
Qed.

Lemma unlock_keeps cs mt bs base s i scratch : apply_calls cs = Some (mt, no_pending) ->
  rs_pc s = AUpdate i [] -> in_call mt bs base s -> vec_set (rs_scratch s) i [] = Some scratch ->
  in_call mt bs base (with_table s (rs_table s) scratch (AShard (i + 1))).
Proof.
  intros Hc Hpc H Hs. unfold in_call in *. rewrite Hpc in H.
  destruct H as (n & mt' & applied & shard & -> & Hn & Hr & Hf & Hne & Hg & Ht).
  cbn [with_table rs_pc rs_table rs_scratch]. exists (S n). split; [lia|]. split; [lia|].
  destruct (rounds_scratch cs mt _ n mt' (rs_scratch s) Hc (Nat.lt_le_incl _ _ Hn) Hr) as [_ Hsc].
  rewrite rounds_S, Hr. cbn [mbind option_bind]. unfold applyShard.
  rewrite Hsc, pending_from_get by done. rewrite <- Hsc. cbn [mbind option_bind].
  rewrite bool_decide_false by done. rewrite Hg. cbn [mbind option_bind]. rewrite Hf, app_nil_r, Ht.
  rewrite vec_get_nat in Hg. apply lookup_lt_Some in Hg.
  rewrite (proj2 (vec_set_nat (shards_ mt') _ n _)) by done. cbn [mbind option_bind]. by rewrite Hs.
Qed.

Lemma skip_keeps cs mt bs base s i : apply_calls cs = Some (mt, no_pending) ->
  rs_pc s = AShard i -> in_call mt bs base s -> vec_get (rs_scratch s) i = Some [] ->
  in_call mt bs base (at_pc s (AShard (i + 1))).
Proof.
  intros Hc Hpc H Hg. unfold in_call in *. rewrite Hpc in H. destruct H as (n & -> & Hn & Hr).
  destruct (rounds_scratch _ _ _ _ _ _ Hc Hn Hr) as [_ Hsc].
  assert (n < 16)%nat.
  { rewrite vec_get_nat, Hsc in Hg. apply lookup_lt_Some in Hg. by rewrite length_pending_from in Hg. }
  exists (S n). split; [lia|]. split; [lia|]. rewrite rounds_S, Hr. cbn [mbind option_bind].
  unfold applyShard. by rewrite Hg.
Qed.

Lemma lock_keeps cs mt bs base s i u us : apply_calls cs = Some (mt, no_pending) ->
  rs_pc s = AShard i -> in_call mt bs base s -> vec_get (rs_scratch s) i = Some (u :: us) ->
  in_call mt bs base (with_table s
    (mkMemTable (applyLocks_ (rs_table s)) (u64 (applyShardLocks_ (rs_table s) + 1)) (shards_ (rs_table s)))
    (rs_scratch s) (AUpdate i (u :: us))).
Proof.
  intros Hc Hpc H Hg. unfold in_call in *. rewrite Hpc in H. destruct H as (n & -> & Hn & Hr).
  destruct (rounds_scratch _ _ _ _ _ _ Hc Hn Hr) as [Hsh Hsc]. rewrite vec_get_nat, Hsc in Hg.
  assert (n < 16)%nat as Hn' by (apply lookup_lt_Some in Hg; by rewrite length_pending_from in Hg).
  rewrite <- vec_get_nat, pending_from_get in Hg by done. injection Hg as Hg.
  apply apply_calls_table in Hc as [[[Hl _] _] _].
  destruct (lookup_lt_is_Some_2 (shards_ (rs_table s)) n) as [shard Hs];
    [rewrite Hsh, length_applied_shards; lia|].
  cbn. exists n, (rs_table s), [], shard. rewrite Hg, vec_get_nat, list_insert_id by done. done.
Qed.

Lemma astep_keeps s s' : astep s s' -> writer_inv s -> writer_inv s'.
Proof.
  intros Hstep. unfold writer_inv at 1. destruct Hstep as [s bs base Hpc|s e es seq scratch seq' Hpc Hp
    |s seq Hpc|s i Hpc Hg|s i u us Hpc Hg _|s i u us shard shards Hpc Hg Hs|s i scratch Hpc Hs|s i Hpc Hi];
    rewrite Hpc; [|intros (cs & bs & base & mt & Hcs & Hc & H)..].
  - intros H. destruct (apply_calls_table _ _ _ H) as [_ Hsc]. rewrite Hsc in H.
    exists (rs_calls s), bs, base, (rs_table s). split; [done|]. split; [done|]. split; [done|].
    exists []. by rewrite Hsc.
  - exists cs, bs, base, mt. do 2 (split; [done|]). unfold in_call in *. rewrite Hpc in H. cbn [with_table at_pc rs_pc rs_table rs_scratch].
    destruct H as (Ht & pushed & He & Hf). split; [done|]. exists (pushed ++ [e]).
    rewrite <- app_assoc. split; [done|]. rewrite foldM_app, Hf. cbn [mbind option_bind foldM]. by rewrite Hp.
  - exists cs, bs, base, mt. do 2 (split; [done|]). unfold in_call in *. rewrite Hpc in H. cbn [with_table at_pc rs_pc rs_table rs_scratch].
    destruct H as (Ht & pushed & He & Hf). rewrite app_nil_r in He. subst pushed.
    exists 0%nat. split; [done|]. split; [lia|]. apply pushes_all in Hf.
    by rewrite Ht, Hf.
  - exists cs, bs, base, mt. do 2 (split; [done|]). by eapply skip_keeps.
  - exists cs, bs, base, mt. do 2 (split; [done|]). by eapply lock_keeps.
  - exists cs, bs, base, mt. do 2 (split; [done|]). by eapply update_keeps.
  - exists cs, bs, base, mt. do 2 (split; [done|]). by eapply unlock_keeps.
  - unfold in_call in H. rewrite Hpc in H. destruct H as (n & -> & Hn & Hr).
    unfold writer_inv. cbn [at_pc rs_pc rs_table rs_scratch rs_calls].
    destruct (rounds_scratch _ _ _ _ _ _ Hc Hn Hr) as [_ Hsc].
    rewrite Hsc, length_pending_from in Hi. assert (n = 16%nat) as -> by lia.
    rewrite Hcs, apply_calls_snoc, Hc. cbn [mbind option_bind]. by rewrite rounds_all.
Qed.

End Writer.

(** ** What a reader sees *)
Section Readers.
Context {L : Libc}.

Lemma calls_table_snoc cs bs base :
  calls_table (cs ++ [(bs, base)]) = table_apply (calls_table cs) base (all_entries bs).
Proof. unfold calls_table. by rewrite fold_left_app. Qed.

(** Between the rounds, [Get] finds all of the call's updates of its key or none. *)
Lemma rounds_get cs mt bs base n k : apply_calls cs = Some (mt, no_pending) -> (n <= 16)%nat ->
  (s ← vec_get (applied_shards mt (numbered base (all_entries bs)) n) (shardFor k); shard_entries s !! k)
  = calls_table (if shardFor k <? Z.of_nat n then cs ++ [(bs, base)] else cs) !! k.
Proof.
  intros Hc Hn. apply apply_calls_table in Hc as [Hr _]. rewrite (applied_shards_find _ _ _ _ _ Hr).
  destruct (shardFor k <? Z.of_nat n); [|done]. by rewrite calls_table_snoc.
Qed.

Lemma version_calls s k cs c : rs_calls s = cs ++ [c] ->
  take (version s k) (rs_calls s) =
    match rs_pc s with
    | AIdle => cs ++ [c]
    | APush _ _ => cs
    | AShard i | AUpdate i _ => if shardFor k <? i then cs ++ [c] else cs
    end.
Proof.
  intros E. unfold version, finished. rewrite E, last_length.
  assert (take (S (length cs)) (cs ++ [c]) = cs ++ [c]) by (apply firstn_all2; len).
  assert (take (length cs) (cs ++ [c]) = cs) by apply take_app_length.
  by destruct (rs_pc s); try destruct (_ <? _).
Qed.

Lemma read_current s k : writer_inv s -> exclusive s (shardFor k) = false ->
  MemTable_Get (rs_table s) k = Some (table_get (calls_table (take (version s k) (rs_calls s))) k).
Proof.
  intros H Hx. unfold writer_inv in H. destruct (rs_pc s) as [|es seq|i|i todo] eqn:Hpc;
    [|destruct H as (cs & bs & base & mt & Hcs & Hc & H);
      rewrite (version_calls s k cs (bs, base) Hcs), Hpc; unfold in_call in H; rewrite Hpc in H;
      destruct (apply_calls_table _ _ _ Hc) as [Hr _]; pose proof (wf_shards _ (proj1 Hr)) as Hl..].
  - unfold version, finished. rewrite Hpc, firstn_all. apply Get_refines.
    by destruct (apply_calls_table _ _ _ H).
  - destruct H as [-> _]. apply Get_find; [done|]. apply Hr.
  - destruct H as (n & -> & Hn & Hrd). destruct (rounds_scratch _ _ _ _ _ _ Hc Hn Hrd) as [Hsh _].
    apply Get_find; [by rewrite Hsh, length_applied_shards|].
    unfold mt_find. rewrite Hsh. by apply rounds_get.
  - destruct H as (n & mt' & applied & shard & -> & Hn & Hrd & Hf & Hne & Hg & ->).
    destruct (rounds_scratch _ _ _ _ _ _ Hc (Nat.lt_le_incl _ _ Hn) Hrd) as [Hsh _].
    apply Get_find; cbn [shards_]; [by rewrite length_insert, Hsh, length_applied_shards|].
    rewrite <- (rounds_get cs mt bs base n) by (done || lia). rewrite <- Hsh.
    unfold mt_find. cbn [shards_]. unfold exclusive in Hx. rewrite Hpc in Hx.
    pose proof (shardFor_range k). rewrite <- (Z2Nat.id (shardFor k)) by lia.
    rewrite !vec_get_nat, list_lookup_insert_ne; [done|]. apply Z.eqb_neq in Hx. lia.
Qed.

(** Histories only grow, and so does what there is to see. *)
Record grows (s s' : RSys) : Prop := {
  gr_version : forall k, (version s k <= version s' k)%nat;
  gr_finished : (finished s <= finished s')%nat;
  gr_calls : rs_calls s `prefix_of` rs_calls s';
  gr_gets : rs_gets s `prefix_of` rs_gets s';
}.

Lemma finished_le s : (finished s <= length (rs_calls s))%nat.
Proof. unfold finished. destruct (rs_pc s); lia. Qed.

Lemma version_bounds s k : (finished s <= version s k <= length (rs_calls s))%nat.
Proof.
  pose proof (finished_le s). unfold version. destruct (rs_pc s); try destruct (_ <? _); lia.
Qed.

Lemma rstep_grows s s' : rstep s s' -> grows s s'.
Proof.
  destruct 1 as [H|H]; destruct H; split; unfold version, finished; cbn;
    repeat match goal with H : rs_pc _ = _ |- _ => rewrite H; clear H end;
    rewrite ?length_app; cbn [length]; try lia; eauto using prefix_app_r;
    intros k; pose proof (shardFor_range k); zb; lia.
Qed.

(** A result is that of the first [a] calls, at least those finished when the reader was
    let in, at least those any [Get] of the key that had returned by then reflects. *)
Definition seen (s : RSys) (k : bytes) (r : Result bytes) (began from a : nat) : Prop :=
  (from <= a <= version s k)%nat /\ (began <= length (rs_gets s))%nat /\
  r = table_get (calls_table (take a (rs_calls s))) k /\
  forall j g, (j < began)%nat -> rs_gets s !! j = Some g -> g_key g = k -> (g_at g <= a)%nat.

Lemma seen_grows s s' k r b f a : grows s s' -> seen s k r b f a -> seen s' k r b f a.
Proof.
  intros [Hv _ [cs Hc] [gs Hg]] (Ha & Hb & -> & Hj). specialize (Hv k).
  pose proof (version_bounds s k). split; [lia|]. rewrite Hg, length_app. split; [lia|]. split.
  - by rewrite Hc, take_app_le by lia.
  - intros j g Hlt Hl. rewrite lookup_app_l in Hl by lia. by eapply Hj.
Qed.

Record readers_inv (s : RSys) : Prop := {
  ri_lock : forall t r, rs_readers s !! t = Some r -> exclusive s (shardFor (r_key r)) = false;
  ri_began : forall t r, rs_readers s !! t = Some r ->
    (r_began r <= length (rs_gets s))%nat /\ (r_from r <= finished s)%nat;
  ri_found : forall t k a res b f, rs_readers s !! t = Some (mkReader k (RFound a res) b f) ->
    seen s k res b f a;
  ri_got : forall i g, rs_gets s !! i = Some g ->
    seen s (g_key g) (g_result g) (g_began g) (g_from g) (g_at g) /\ (g_at g <= g_to g)%nat;
}.

(** What holds of a state in which neither a reader nor a lock is new. *)
Lemma readers_inv_grows s s' : grows s s' -> rs_readers s' = rs_readers s -> rs_gets s' = rs_gets s ->
  (forall t r, rs_readers s !! t = Some r -> exclusive s' (shardFor (r_key r)) = false) ->
  readers_inv s -> readers_inv s'.
Proof.
  intros Hgr Hr Hg Hx [_ Hb Hf Hgot]. split; rewrite ?Hr, ?Hg; [done|..].
  - intros t r H. apply Hb in H. pose proof (gr_finished _ _ Hgr). lia.
  - intros. eauto using seen_grows.
  - intros i g H. apply Hgot in H as [H ?]. eauto using seen_grows.
Qed.

Lemma astep_readers s s' : astep s s' -> readers_inv s -> readers_inv s'.
Proof.
  intros Hst Hinv. pose proof (rstep_grows s s' (WriterStep _ _ Hst)) as Hgr.
  pose proof (ri_lock s Hinv) as Hl.
  apply (readers_inv_grows s); try done; [by destruct Hst..|].
  intros t r Ht. specialize (Hl t r Ht). destruct Hst as [| | | |s i u us Hpc Hg Hsh|s i u us sh shs Hpc| |];
    try done; unfold exclusive in *; cbn; rewrite ?Hpc in *; [|done].
  apply bool_decide_eq_false in Hsh. apply Z.eqb_neq. intros E. apply Hsh. by exists t, r.
Qed.

Lemma gstep_readers s s' : gstep s s' -> writer_inv s -> readers_inv s -> readers_inv s'.
Proof.
  intros Hst Hw Hinv. pose proof (rstep_grows s s' (ReaderStep _ _ Hst)) as Hgr.
  pose proof (fun k r b f a => seen_grows s s' k r b f a Hgr) as Hsg. destruct Hinv as [Hl Hb Hf Hgot].
  destruct Hst as [s t k Hn Hx|s t k b f r Ht Hr|s t k a r b f Ht].
  - split; cbn.
    + intros t' r. rewrite lookup_insert_Some. intros [[_ <-]|[_ H]]; [done|]. by apply (Hl t').
    + intros t' r. rewrite lookup_insert_Some. intros [[_ <-]|[_ H]]; [done|]. by apply (Hb t').
    + intros t' k' a res b f. rewrite lookup_insert_Some. intros [[_ ?]|[_ H]]; [done|]. eauto.
    + intros i g H. apply Hgot in H as [H ?]. eauto.
  - specialize (Hl t _ Ht) as Hx. specialize (Hb t _ Ht) as Hbt. cbn in Hx, Hbt.
    assert (seen s k r b f (version s k)) as Hseen.
    { rewrite (read_current s k Hw Hx) in Hr. injection Hr as <-. pose proof (version_bounds s k).
      split; [lia|]. split; [lia|]. split; [done|]. intros j g _ Hj <-. apply Hgot in Hj as [[Ha _] _]. lia. }
    split; cbn.
    + intros t' r'. rewrite lookup_insert_Some. intros [[_ <-]|[_ H]]; [done|]. by apply (Hl t').
    + intros t' r'. rewrite lookup_insert_Some. intros [[_ <-]|[_ H]]; [done|]. by apply (Hb t').
    + intros t' k' a res b' f'. rewrite lookup_insert_Some. intros [[_ [= <- <- <- <- <-]]|[_ H]]; eauto.
    + intros i g H. apply Hgot in H as [H ?]. eauto.
  - split; cbn.
    + intros t' r'. rewrite lookup_delete_Some. intros [_ H]. by apply (Hl t').
    + intros t' r'. rewrite lookup_delete_Some, length_app. intros [_ H]. apply Hb in H.
      unfold finished in *. cbn. lia.
    + intros t' k' a' res b' f'. rewrite lookup_delete_Some. intros [_ H]. eauto.
    + intros i g. rewrite lookup_snoc_Some. intros [[_ H]|[_ <-]]; [apply Hgot in H as [H ?]; eauto|].
      apply Hf in Ht. pose proof (version_bounds s k). split; [by apply Hsg|]. destruct Ht as [? _]. cbn. lia.
Qed.

Lemma readers_reachable s : rtc rstep rsys0 s -> writer_inv s /\ readers_inv s.
Proof.
  revert s. apply rtc_ind_r.
  - split; [done|]. split; cbn; intros; by simplify_map_eq.
  - intros s s' _ Hst [Hw Hr]. destruct Hst as [H|H].
    + eauto using astep_keeps, astep_readers.
    + split; [|by eapply gstep_readers]. by destruct H.
Qed.

(** C16: [Get] beside [ApplyBatches] is linearizable, key by key. Let one thread call
    [ApplyBatches] while others call [Get], switching between threads at any step the
    shards' locks allow. Then a call of [ApplyBatches] leaves behind exactly what it would
    have without readers; and every [Get] that has returned gave the value its key has
    after the first [g_at] calls of [ApplyBatches], where [g_at] lies between the calls
    that had finished when the [Get] was let in and the calls begun when it returned, and
    is no less than that of any [Get] of the same key that had returned before. So no
    reader sees a half-made entry, a write that is later undone, or time going back. *)
Theorem readers_are_linearizable (s : RSys) : rtc rstep rsys0 s ->
  (rs_pc s = AIdle -> apply_calls (rs_calls s) = Some (rs_table s, rs_scratch s)) /\
  forall i g, rs_gets s !! i = Some g ->
    (g_from g <= g_at g <= g_to g)%nat /\
    g_result g = match last_write (g_key g) (calls_entries (take (g_at g) (rs_calls s))) with
                 | Some (mkEntry kPut _ v) => RValue v
                 | _ => RStatus (Status.NotFound "key not found")
                 end /\
    forall j g', (j < g_began g)%nat -> rs_gets s !! j = Some g' -> g_key g' = g_key g ->
      (g_at g' <= g_at g)%nat.
Proof.
  intros H. destruct (readers_reachable s H) as [Hw Hr]. split.
  - intros Hpc. unfold writer_inv in Hw. by rewrite Hpc in Hw.
  - intros i g Hg. apply (ri_got s Hr) in Hg as [(Ha & _ & Hres & Hj) Hto].
    split; [lia|]. split; [|done]. by rewrite Hres, calls_get.
Qed.

End Readers.

(** ** Schedules

    The same steps as a function of what the scheduler chooses. *)
Inductive action :=
  | DoBegin (bs : list WriteBatchT) (base : Z)
  | DoWrite                                    (* the writer's next step *)
  | DoEnter (t : nat) (k : bytes)
  | DoRead (t : nat).                          (* the reader's next step *)

Section Schedules.
Context {L : Libc}.

Definition write_next (s : RSys) : option RSys :=
  match rs_pc s with
  | AIdle => None
  | APush [] _ => Some (at_pc s (AShard 0))
  | APush (e :: es) seq =>
      '(scratch, seq') ← pushPending (rs_scratch s, seq) e;
      Some (with_table s (rs_table s) scratch (APush es seq'))
  | AShard i =>
      if i =? zlen (rs_scratch s) then Some (at_pc s AIdle) else
      updates ← vec_get (rs_scratch s) i;
      match updates with
      | [] => Some (at_pc s (AShard (i + 1)))
      | _ => if shared s i then None else
             Some (with_table s
               (mkMemTable (applyLocks_ (rs_table s)) (u64 (applyShardLocks_ (rs_table s) + 1)) (shards_ (rs_table s)))
               (rs_scratch s) (AUpdate i updates))
      end
  | AUpdate i [] =>
      scratch ← vec_set (rs_scratch s) i [];
      Some (with_table s (rs_table s) scratch (AShard (i + 1)))
  | AUpdate i (u :: us) =>
      shard ← vec_get (shards_ (rs_table s)) i;
      shards ← vec_set (shards_ (rs_table s)) i (applyUpdate shard u);
      Some (with_table s (mkMemTable (applyLocks_ (rs_table s)) (applyShardLocks_ (rs_table s)) shards)
        (rs_scratch s) (AUpdate i us))
  end.

Definition read_next (s : RSys) (t : nat) : option RSys :=
  r ← rs_readers s !! t;
  match r_pc r with
  | RLocked =>
      res ← MemTable_Get (rs_table s) (r_key r);
      Some (with_readers s (<[t := mkReader (r_key r) (RFound (version s (r_key r)) res) (r_began r) (r_from r)]>
        (rs_readers s)))
  | RFound a res =>
      Some (mkRSys (rs_table s) (rs_scratch s) (rs_pc s) (delete t (rs_readers s)) (rs_calls s)
        (rs_gets s ++ [mkGot (r_key r) res (r_began r) (r_from r) a (length (rs_calls s))]))
  end.

Definition act (s : RSys) (a : action) : option RSys :=
  match a with
  | DoBegin bs base =>
      match rs_pc s with
      | AIdle => Some (mkRSys (bump (rs_table s)) (rs_scratch s) (APush (all_entries bs) base)
          (rs_readers s) (rs_calls s ++ [(bs, base)]) (rs_gets s))
      | _ => None
      end
  | DoWrite => write_next s
  | DoEnter t k =>
      if bool_decide (rs_readers s !! t = None) && negb (exclusive s (shardFor k))
      then Some (with_readers s (<[t := mkReader k RLocked (length (rs_gets s)) (finished s)]> (rs_readers s)))
      else None
  | DoRead t => read_next s t
  end.

Lemma write_next_astep s s' : write_next s = Some s' -> astep s s'.
Proof.
  unfold write_next. destruct (rs_pc s) as [|[|e es] seq|i|i [|u us]] eqn:Hpc; intros H; [done|..].
  - injection H as <-. by eapply Pushed.
  - destruct (pushPending _ e) as [[scratch seq']|] eqn:E; [|done]. injection H as <-. by eapply Push.
  - destruct (Z.eqb_spec i (zlen (rs_scratch s))) as [Hi|_]; [injection H as <-; by eapply Return|].
    destruct (vec_get (rs_scratch s) i) as [[|u us]|] eqn:E; cbn in H; [|destruct (shared s i) eqn:Hs|];
      try done; injection H as <-; [by eapply Skip|by eapply Lock].
  - destruct (vec_set _ _ _) eqn:E; [|done]. injection H as <-. by eapply Unlock.
  - destruct (vec_get _ _) eqn:E; [|done]. cbn in H. destruct (vec_set _ _ _) eqn:E'; [|done].
    injection H as <-. by eapply Update.
Qed.

Lemma read_next_gstep s t s' : read_next s t = Some s' -> gstep s s'.
Proof.
  unfold read_next. destruct (rs_readers s !! t) as [[k [|a r] b f]|] eqn:Ht; [..|done]; cbn.
  - destruct (MemTable_Get _ _) eqn:E; [|done]. intros [= <-]. by eapply Find.
  - intros [= <-]. by eapply Leave.
Qed.

Lemma act_rstep s a s' : act s a = Some s' -> rstep s s'.
Proof.
  destruct a as [bs base| |t k|t]; cbn; intros H.
  - destruct (rs_pc s) eqn:Hpc; try done. injection H as <-. left. by apply Begin.
  - left. by apply write_next_astep.
  - case_bool_decide as Ht; [|done]. destruct (exclusive _ _) eqn:Hx; [done|]. injection H as <-.
    right. by apply Enter.
  - right. by eapply read_next_gstep.
Qed.

Lemma schedule_steps l : forall s s', foldM act s l = Some s' -> rtc rstep s s'.
Proof.
  induction l as [|a l IH]; intros s s' H; cbn in H; [injection H as <-; apply rtc_refl|].
  destruct (act s a) eqn:E; [|done]. eapply rtc_l; [by eapply act_rstep|by apply IH].
Qed.

(** *** Every call returns *)

Definition pending_count (scratch : PendingUpdates) : nat := sum_list_with length scratch.

(** An upper bound on the steps the writer and the readers still have to make. *)
Definition writer_work (s : RSys) : nat :=
  match rs_pc s with
  | AIdle => 0
  | APush es _ => 40 + 2 * length es + pending_count (rs_scratch s)
  | AShard i => 2 * (16 - Z.to_nat i) + 1 + pending_count (drop (Z.to_nat i) (rs_scratch s))
  | AUpdate i todo => 2 * (16 - Z.to_nat i) + length todo + pending_count (drop (S (Z.to_nat i)) (rs_scratch s))
  end.

Definition reader_work (r : Reader) : nat := match r_pc r with RLocked => 2 | RFound _ _ => 1 end.

Definition readers_work (rs : gmap nat Reader) : nat := map_fold (fun _ r n => reader_work r + n)%nat 0%nat rs.

Definition rwork (s : RSys) : nat := writer_work s + readers_work (rs_readers s).

Lemma readers_work_delete rs t r : rs !! t = Some r ->
  readers_work rs = (reader_work r + readers_work (delete t rs))%nat.
Proof.
  intros H. unfold readers_work.
  rewrite (map_fold_delete_L (fun _ r n => reader_work r + n)%nat 0%nat t r rs); [done|lia|done].
Qed.

Lemma read_next_work s t s' : read_next s t = Some s' -> (rwork s' < rwork s)%nat.
Proof.
  unfold read_next. destruct (rs_readers s !! t) as [r|] eqn:Ht; [|done]. cbn [mbind option_bind].
  unfold rwork. rewrite (readers_work_delete _ t r Ht). unfold reader_work.
  destruct (r_pc r) as [|a res] eqn:Hp.
  - destruct (MemTable_Get _ _); [|done]. intros [= <-]. cbn [with_readers rs_readers].
    change (writer_work (with_readers s _)) with (writer_work s).
    rewrite (readers_work_delete _ t _ (lookup_insert_eq _ _ _)), delete_insert_eq.
    unfold reader_work. cbn [r_pc]. lia.
  - intros [= <-]. cbn [rs_readers]. change (writer_work (mkRSys _ _ _ _ _ _)) with (writer_work s). lia.
Qed.

Lemma pending_count_split scratch n ups : scratch !! n = Some ups ->
  pending_count (drop n scratch) = (length ups + pending_count (drop (S n) scratch))%nat.
Proof. intros H. by rewrite (drop_S _ _ _ H). Qed.

Lemma pending_count_push scratch seq e scratch' seq' :
  pushPending (scratch, seq) e = Some (scratch', seq') -> pending_count scratch' = S (pending_count scratch).
Proof.
  unfold pushPending. destruct (vec_get _ _) as [ups|] eqn:Hg; [|done]. cbn [mbind option_bind].
  destruct (vec_set _ _ _) as [l|] eqn:Hs; [|done]. intros [= <- _].
  pose proof (shardFor_range (entry_key e)). rewrite <- (Z2Nat.id (shardFor (entry_key e))) in Hg, Hs by lia.
  rewrite vec_get_nat in Hg. apply vec_set_nat in Hs as [Hl ->]. rewrite insert_take_drop by done.
  pose proof (take_drop_middle _ _ _ Hg) as E. unfold pending_count. rewrite <- E at 3.
  rewrite !sum_list_with_app. cbn. rewrite length_app. cbn. lia.
Qed.

Lemma write_next_work s s' : writer_inv s -> write_next s = Some s' -> (rwork s' < rwork s)%nat.
Proof.
  intros Hw Hn. pose proof (write_next_astep s s' Hn) as Hst.
  enough (rs_readers s' = rs_readers s /\ writer_work s' < writer_work s)%nat as [E ?]
    by (unfold rwork; rewrite E; lia).
  unfold writer_inv in Hw. unfold writer_work.
  destruct Hst as [s bs base Hpc|s e es seq scratch seq' Hpc Hp|s seq Hpc|s i Hpc Hg|s i u us Hpc Hg _
    |s i u us shard shards Hpc Hg Hs|s i scratch Hpc Hs|s i Hpc Hi]; (split; [done|]);
    unfold write_next in Hn; rewrite Hpc in *; cbn [with_table at_pc rs_pc rs_scratch]; [done|..];
    destruct Hw as (cs & bs & base & mt & Hcs & Hc & Hin); unfold in_call in Hin; rewrite Hpc in Hin.
  - rewrite (pending_count_push _ _ _ _ _ Hp). cbn [length]. lia.
  - rewrite drop_0. cbn [length]. lia.
  - destruct Hin as (n & -> & Hn16 & Hr). rewrite vec_get_nat in Hg.
    replace (Z.to_nat (Z.of_nat n + 1)) with (S n) by lia.
    rewrite Nat2Z.id, (pending_count_split _ _ _ Hg). cbn [length].
    destruct (rounds_scratch _ _ _ _ _ _ Hc Hn16 Hr) as [_ Hsc]. apply lookup_lt_Some in Hg.
    rewrite Hsc, length_pending_from in Hg. lia.
  - destruct Hin as (n & -> & Hn16 & Hr). rewrite vec_get_nat in Hg.
    rewrite Nat2Z.id, (pending_count_split _ _ _ Hg). cbn [length]. lia.
  - cbn [length]. lia.
  - destruct Hin as (n & mt' & applied & shard & -> & Hn16 & _). apply vec_set_nat in Hs as [_ ->].
    replace (Z.to_nat (Z.of_nat n + 1)) with (S n) by lia.
    rewrite Nat2Z.id, drop_insert_lt by lia. cbn [length]. lia.
  - lia.
Qed.

(** Whoever holds a lock can go on, so whoever waits for one is let in. *)
Lemma read_next_defined s t r : writer_inv s -> readers_inv s -> rs_readers s !! t = Some r ->
  is_Some (read_next s t).
Proof.
  intros Hw Hr Ht. unfold read_next. rewrite Ht. cbn [mbind option_bind].
  destruct (r_pc r); [|by eauto]. rewrite (read_current s (r_key r) Hw (ri_lock s Hr t r Ht)). by eexists.
Qed.

Lemma write_next_defined s : writer_inv s -> rs_readers s = ∅ -> rs_pc s <> AIdle -> is_Some (write_next s).
Proof.
  intros Hw Hr Hne. unfold writer_inv in Hw. unfold write_next.
  destruct (rs_pc s) as [|[|e es] seq|i|i [|u us]] eqn:Hpc; try done; try (by eexists);
    destruct Hw as (cs & bs & base & mt & Hcs & Hc & Hin); unfold in_call in Hin; rewrite Hpc in Hin.
  - destruct Hin as (_ & pushed & He & Hf).
    destruct (pushPending_loop (all_entries bs) no_pending base) as [seq' E]; [done|].
    rewrite He, foldM_app, Hf in E. cbn [mbind option_bind foldM] in E.
    destruct (pushPending (rs_scratch s, seq) e) as [[]|]; [by eexists|done].
  - destruct Hin as (n & -> & Hn & Hrd). destruct (rounds_scratch _ _ _ _ _ _ Hc Hn Hrd) as [_ Hsc].
    rewrite Hsc, length_pending_from. destruct (Z.eqb_spec (Z.of_nat n) (Z.of_nat 16)); [by eexists|].
    rewrite pending_from_get by lia. cbn [mbind option_bind].
    destruct (filter _ _); [by eexists|]. unfold shared. rewrite Hr.
    rewrite bool_decide_false by apply map_Exists_empty. by eexists.
  - destruct Hin as (n & mt' & applied & shard & -> & Hn & Hrd & _).
    destruct (rounds_scratch _ _ _ _ _ _ Hc (Nat.lt_le_incl _ _ Hn) Hrd) as [_ Hsc].
    rewrite Hsc, pending_from_S by done. by eexists.
  - destruct Hin as (n & mt' & applied & shard & -> & Hn & Hrd & _ & _ & Hg & ->). cbn [shards_].
    rewrite vec_get_nat in *. apply lookup_lt_Some in Hg. rewrite list_lookup_insert_eq by done.
    cbn [mbind option_bind].
    rewrite (proj2 (vec_set_nat (<[n := _]> (shards_ mt')) _ n _)) by (rewrite length_insert; done).
    by eexists.
Qed.

(** C17: readers and the writer never block each other for good. In every state that calls
    of [ApplyBatches] and [Get] can reach, each further step of the running calls lowers
    [rwork], and if none of them can make a step then no call is running: every call
    returns, whoever is let in first. *)
Theorem readers_and_writer_finish (s : RSys) : rtc rstep rsys0 s ->
  (forall s', write_next s = Some s' -> (rwork s' < rwork s)%nat) /\
  (forall t s', read_next s t = Some s' -> (rwork s' < rwork s)%nat) /\
  (write_next s = None -> (forall t, read_next s t = None) -> rs_pc s = AIdle /\ rs_readers s = ∅).
Proof.
  intros H. destruct (readers_reachable s H) as [Hw Hr]. split; [|split].
  - intros s'. by apply write_next_work.
  - apply read_next_work.
  - intros Hwn Hrn. assert (rs_readers s = ∅) as He.
    { apply map_empty. intros t. destruct (rs_readers s !! t) as [r|] eqn:Ht; [|done].
      destruct (read_next_defined s t r Hw Hr Ht) as [s' E]. by rewrite Hrn in E. }
    split; [|done]. pose proof (write_next_defined s Hw He) as Hd. rewrite Hwn in Hd.
    destruct (rs_pc s); [reflexivity|..]; (destruct Hd as [s' E]; discriminate).
Qed.

End Schedules.

(** A reader asks for two keys while a batch that writes both is applied. *)
Definition two_keys : WriteBatchT := build_batch [BPut (str "a") (str "1"); BPut (str "b") (str "2")].

Definition reader_in_between : list action :=
  [DoBegin [two_keys] 1] ++ replicate 16 DoWrite ++
  [DoEnter 0 (str "a"); DoRead 0; DoRead 0; DoEnter 0 (str "b"); DoRead 0; DoRead 0] ++ replicate 8 DoWrite.

Definition seen_in_between : list (bytes * Result bytes) :=
  [(str "a", RValue (str "1")); (str "b", RStatus (Status.NotFound "key not found"))].

(** The reader finds the first key written and, afterwards, the second still absent:
    linearizability is per key, and a batch over several shards is not atomic for
    readers. *)
Lemma batch_seen_in_part : exists s, rtc (@rstep reference_libc) (@rsys0 reference_libc) s /\ rs_pc s = AIdle /\
  (fun g => (g_key g, g_result g)) <$> rs_gets s = seen_in_between.
Proof.
  pose (observe := fun s => (rs_pc s, (fun g => (g_key g, g_result g)) <$> rs_gets s)).
  assert (observe <$> foldM (@act reference_libc) (@rsys0 reference_libc) reader_in_between
    = Some (AIdle, seen_in_between)) as Ho by (vm_compute; reflexivity).
  destruct (foldM _ _ _) as [s|] eqn:E; [|discriminate Ho]. injection Ho as Hpc Hg.
  exists s. split; [exact (schedule_steps reader_in_between _ s E)|]. split; [exact Hpc|exact Hg].
Qed.

Lemma readers_are_linearizable_witness : exists s g, rtc (@rstep reference_libc) (@rsys0 reference_libc) s /\
  rs_gets s !! 0%nat = Some g /\ g_result g = RValue (str "1") /\
  (g_from g <= g_at g <= g_to g)%nat.
Proof.
  destruct batch_seen_in_part as (s & Hs & _ & Hg).
  destruct (rs_gets s) as [|g gs] eqn:E; [discriminate Hg|]. injection Hg as Hk Hr _.
  exists s, g. split; [exact Hs|]. split; [by rewrite E|]. split; [exact Hr|].
  destruct (readers_are_linearizable s Hs) as [_ H].
  destruct (H 0%nat g ltac:(by rewrite E)) as [Ha _]. exact Ha.
Defined.

(** A reader holds the lock of a shard the writer is about to want. *)
Definition reader_in_the_way : list action :=
  [DoEnter 0 (str "a"); DoBegin [two_keys] 1] ++ replicate 13 DoWrite.

Lemma readers_and_writer_finish_witness : exists s s', rtc (@rstep reference_libc) (@rsys0 reference_libc) s /\
  @write_next reference_libc s = None /\ @read_next reference_libc s 0 = Some s' /\ (rwork s' < rwork s)%nat.
Proof.
  assert ((fun s => (bool_decide (is_Some (@write_next reference_libc s)),
                     bool_decide (is_Some (@read_next reference_libc s 0)))) <$>
    foldM (@act reference_libc) (@rsys0 reference_libc) reader_in_the_way = Some (false, true)) as Ho
    by (vm_compute; reflexivity).
  destruct (foldM _ _ _) as [s|] eqn:E; [|discriminate Ho]. injection Ho as Hw Hr.
  pose proof (schedule_steps reader_in_the_way _ s E) as Hs.
  destruct (read_next s 0) as [s'|] eqn:Er; [|discriminate Hr].
  destruct (write_next s) as [s''|] eqn:Ew; [discriminate Hw|].
  exists s, s'. split; [exact Hs|]. split; [exact Ew|]. split; [exact Er|].
  exact (proj1 (proj2 (readers_and_writer_finish s Hs)) 0%nat s' Er).
Defined.
