(* ===== verification/MemTableStatsReader.v ===== *)
(** * Counting beside the writer (src/memtable.cc)

    [Stats] reads the counters and then visits the shards one after the other, each under
    its lock, while [ApplyBatches] may be running. What it adds up is no state the table
    was ever in; it lies between what the table held when the call began and when it
    returned. *)

From stdpp Require Import relations.
From S2P Require Import Prelude Status WriteBatch MemTable MemTableReaders.

(** Where the call is: before it, behind the first counter, at a shard, returned. *)
Inductive stats_pc :=
  | SIdle
  | SLocks (applyLocks : Z)
  | SShard (shardIndex : Z) (st : MemTableStats)
  | SReturned (st : MemTableStats).

Section Stats.
Context {L : Libc}.

(** The steps of [Stats] on a table that others may change in between. A shard is read as
    long as nobody holds its lock exclusively; nobody can take it before it is read. *)
Inductive stats_step (s : RSys) : stats_pc -> stats_pc -> Prop :=
  | SReadLocks : stats_step s SIdle (SLocks (applyLocks_ (rs_table s)))
  | SReadShardLocks a : stats_step s (SLocks a)
      (SShard 0 (mkMemTableStats a (applyShardLocks_ (rs_table s)) 0 (zlen (shards_ (rs_table s))) 0))
  | SReadShard i st shard : vec_get (shards_ (rs_table s)) i = Some shard -> exclusive s i = false ->
      stats_step s (SShard i st) (SShard (i + 1)
        (mkMemTableStats (stat_applyLocks st) (stat_applyShardLocks st)
          (u64 (stat_reservedBuckets st + shard_buckets shard)) (stat_shardCount st)
          (u64 (stat_entries st + Z.of_nat (size (shard_entries shard))))))
  | SReturn i st : i = zlen (shards_ (rs_table s)) -> stats_step s (SShard i st) (SReturned st).

Inductive sstep : RSys * stats_pc -> RSys * stats_pc -> Prop :=
  | STable s s' pc : rstep s s' -> sstep (s, pc) (s', pc)
  | SStats s pc pc' : stats_step s pc pc' -> sstep (s, pc) (s, pc').

(** ** Shards only grow *)

Definition shard_grows (a b : Shard) : Prop :=
  (size (shard_entries a) <= size (shard_entries b))%nat /\ shard_buckets a <= shard_buckets b.

#[local] Instance shard_grows_preorder : PreOrder shard_grows.
Proof. split; [done|]. intros a b c [? ?] [? ?]. split; [lia|]. lia. Qed.

Definition table_grows (s s' : RSys) : Prop := Forall2 shard_grows (shards_ (rs_table s)) (shards_ (rs_table s')).

Context `{!LibcSpec L}.

Lemma applyUpdate_grows shard u : shard_grows shard (applyUpdate shard u).
Proof.
  unfold applyUpdate. destruct shard as [es b]. cbn [shard_entries shard_buckets].
  set (slots := match es !! _ with None => _ | Some _ => _ end).
  assert (size es <= size slots)%nat as Hs.
  { unfold slots. destruct (es !! entry_key (pending_entry u)) eqn:E; [done|].
    rewrite map_size_insert_None by done. lia. }
  split; cbn.
  - rewrite map_size_insert. destruct (slots !! _); cbn; lia.
  - apply buckets_for_ge.
Qed.

Lemma rstep_table_grows s s' : rstep s s' -> table_grows s s'.
Proof.
  unfold table_grows. intros [Ha|Hg]; [destruct Ha|destruct Hg]; cbn; try reflexivity.
  match goal with H : vec_get _ _ = Some ?shard, H' : vec_set _ _ _ = Some _ |- _ => rename H into Hg, H' into Hset end.
  unfold vec_set in Hset. case_match; [|done]. injection Hset as <-. unfold vec_get in Hg. case_match; [|done].
  apply Forall2_same_length_lookup. split; [by rewrite length_insert|]. intros j a b Ha Hb.
  destruct (decide (j = Z.to_nat i)) as [->|Hne].
  - rewrite list_lookup_insert_eq in Hb by (by eapply lookup_lt_Some). simplify_eq. apply applyUpdate_grows.
  - rewrite list_lookup_insert_ne in Hb by done. by simplify_eq.
Qed.

(** ** What was counted *)

Definition entries_below (l : list Shard) (n : nat) : Z := foldr Z.add 0 ((fun s => Z.of_nat (size (shard_entries s))) <$> take n l).
Definition buckets_below (l : list Shard) (n : nat) : Z := foldr Z.add 0 (shard_buckets <$> take n l).

Lemma below_grows l l' n : Forall2 shard_grows l l' ->
  entries_below l n <= entries_below l' n /\ buckets_below l n <= buckets_below l' n.
Proof.
  intros H. revert n. induction H as [|a b l l' [? ?] _ IH]; intros [|n]; try (unfold entries_below, buckets_below; cbn; lia).
  destruct (IH n). unfold entries_below, buckets_below in *. cbn. lia.
Qed.

Lemma below_S l n s : l !! n = Some s ->
  entries_below l (S n) = entries_below l n + Z.of_nat (size (shard_entries s)) /\
  buckets_below l (S n) = buckets_below l n + shard_buckets s.
Proof.
  intros H. unfold entries_below, buckets_below. rewrite (take_S_r _ _ _ H), !fmap_app.
  rewrite !foldr_app. cbn. generalize (take n l). intros k. induction k as [|x k IH]; cbn; lia.
Qed.

(** What was counted in the first [n] shards: between what they held at the beginning and
    what they hold now, modulo 2^64. *)
Definition counted (s0 s : RSys) (st : MemTableStats) (n : nat) : Prop :=
  exists e b, stat_entries st = u64 e /\ stat_reservedBuckets st = u64 b /\
    entries_below (shards_ (rs_table s0)) n <= e <= entries_below (shards_ (rs_table s)) n /\
    buckets_below (shards_ (rs_table s0)) n <= b <= buckets_below (shards_ (rs_table s)) n.

Definition stats_inv (s0 s : RSys) (pc : stats_pc) : Prop :=
  table_grows s0 s /\
  match pc with
  | SIdle | SLocks _ => True
  | SShard i st => exists n, i = Z.of_nat n /\ (n <= length (shards_ (rs_table s)))%nat /\ counted s0 s st n
  | SReturned st => counted s0 s st (length (shards_ (rs_table s)))
  end.

Lemma counted_grows s0 s s' st n : table_grows s s' -> counted s0 s st n -> counted s0 s' st n.
Proof.
  intros Hg (e & b & ? & ? & ? & ?). destruct (below_grows _ _ n Hg). exists e, b. split; [done|]. split; [done|]. lia.
Qed.

Lemma stats_inv_step s0 p p' : stats_inv s0 p.1 p.2 -> sstep p p' -> stats_inv s0 p'.1 p'.2.
Proof.
  intros Hi Hstep. destruct Hstep as [s s' pc Hr|s pc pc' Hs]; destruct Hi as [Hg Hpc]; cbn in *.
  - pose proof (rstep_table_grows _ _ Hr) as Hg'. split; [unfold table_grows in *; etransitivity; [exact Hg|exact Hg']|].
    pose proof (Forall2_length _ _ _ Hg') as Hl. destruct pc as [| |i st|st]; [done|done| |].
    + destruct Hpc as (n & -> & Hn & Hc). exists n. split; [done|]. split; [lia|]. by eapply counted_grows.
    + rewrite <- Hl. by eapply counted_grows.
  - split; [done|]. destruct Hs as [|a|i st shard Hget _|i st Hi].
    + done.
    + exists 0%nat. split; [done|]. split; [lia|]. by exists 0, 0.
    + destruct Hpc as (n & -> & Hn & e & b & He & Hb & ? & ?). rewrite vec_get_nat in Hget.
      pose proof (lookup_lt_Some _ _ _ Hget). exists (S n). split; [lia|]. split; [lia|].
      destruct (Forall2_lookup_r _ _ _ _ _ Hg Hget) as (shard0 & Hget0 & Hsz & Hbk).
      destruct (below_S _ _ _ Hget) as [E1 E2]. destruct (below_S _ _ _ Hget0) as [E3 E4].
      exists (e + Z.of_nat (size (shard_entries shard))), (b + shard_buckets shard). cbn.
      rewrite He, Hb, !u64_add_l. split; [done|]. split; [done|]. lia.
    + destruct Hpc as (n & -> & Hn & Hc). apply Nat2Z.inj in Hi as ->. done.
Qed.

Lemma stats_reachable s0 p : rtc sstep (s0, SIdle) p -> stats_inv s0 p.1 p.2.
Proof.
  revert p. apply (rtc_ind_r (fun p => stats_inv s0 p.1 p.2)).
  - split; [unfold table_grows; cbn; reflexivity|done].
  - intros p p' _ Hs Hi. by eapply stats_inv_step.
Qed.

(** [Stats] counts no more entries and buckets than the table holds when it returns, and no
    fewer than it held when the call began. *)
Lemma stats_between s0 s st : rtc sstep (s0, SIdle) (s, SReturned st) ->
  let total f r := foldr Z.add 0 (f <$> shards_ (rs_table r)) in
  total (fun sh => Z.of_nat (size (shard_entries sh))) s < 2 ^ 64 -> total shard_buckets s < 2 ^ 64 ->
  total shard_buckets s0 >= 0 ->
  total (fun sh => Z.of_nat (size (shard_entries sh))) s0 <= stat_entries st
    <= total (fun sh => Z.of_nat (size (shard_entries sh))) s /\
  total shard_buckets s0 <= stat_reservedBuckets st <= total shard_buckets s.
Proof.
  intros Hr total He Hb H0. assert (stats_inv s0 s (SReturned st)) as [Hg (e & b & -> & -> & Hle & Hlb)].
  { exact (stats_reachable s0 _ Hr). }
  unfold entries_below, buckets_below in *. rewrite <- (Forall2_length _ _ _ Hg) in Hle at 1.
  rewrite <- (Forall2_length _ _ _ Hg) in Hlb at 1. rewrite !take_ge in * by done.
  assert (0 <= e). { etransitivity; [|apply Hle]. clear. induction (shards_ (rs_table s0)); cbn; lia. }
  unfold total in *. rewrite !u64_small by lia. lia.
Qed.

End Stats.
