(* ===== verification/Io.v ===== *)
(** * What the database asks of the system

    The log file as the kernel and the device hold it, and the interface between [DB]
    (src/db.cc) and what it calls: the executor's operations (src/io/uring_executor.h)
    and the few system calls and clock readings it makes itself. [Db.v] is proved
    against [IoSpec]; [UringIo.v] shows that the executor provides its part. *)

From S2P Require Import Prelude Status Coding Crc32c WriteBatch Wal.

(** ** Files

    [content] is what a read returns; [durable] is what the device is known to hold. *)

Record file := mkFile { content : bytes; durable : bytes }.

Definition empty_file : file := mkFile [] [].

(** [pwritev]: a gap between the end of the file and the offset reads as zeros. *)
Definition pwrite (c : bytes) (off : Z) (data : bytes) : bytes :=
  take (Z.to_nat off) (c ++ replicate (Z.to_nat off - length c) Byte.x00) ++ data
    ++ drop (Z.to_nat off + length data) c.

Definition truncate (c : bytes) (n : Z) : bytes :=
  take (Z.to_nat n) (c ++ replicate (Z.to_nat n - length c) Byte.x00).

(** After a crash, a byte the device held and that no later write touched is still
    there; nothing is said of the others, nor of the length. *)
Definition crash_image (f : file) (c : bytes) : Prop :=
  forall i b, content f !! i = Some b -> durable f !! i = Some b -> c !! i = Some b.

(** The log [l] is at the front of the file and survives a crash. *)
Definition holds_log (f : file) (l : bytes) : Prop :=
  l `prefix_of` content f /\ l `prefix_of` durable f.

(** Nothing changed below [off]. *)
Definition same_below (off : Z) (f f' : file) : Prop :=
  take (Z.to_nat off) (content f') = take (Z.to_nat off) (content f) /\
  take (Z.to_nat off) (durable f') = take (Z.to_nat off) (durable f).

(** ** The interface

    [E] is the state of everything behind it: the executor, the kernel, the clock. *)

Class Io (E : Type) := {
  (** [steady_clock::now()], in nanoseconds. *)
  io_now : E -> E * Z;
  (** [fstat]: the size, or [None] when it fails, with [errno]. *)
  io_fstat : E -> file -> E * option Z;
  (** [ftruncate]: whether it succeeded. *)
  io_ftruncate : E -> file -> Z -> E * file * bool;
  io_errno : E -> Z;
  (** [ReadAt(...).run()] into a buffer of the given size: the bytes read. As for the next
      two, [None] is undefined behaviour or a wait without end. *)
  ReadAt : E -> file -> Z -> Z -> option (E * file * Result bytes);
  (** [FDataSync(...).run()]. *)
  FDataSync : E -> file -> option (E * file * StatusT);
  (** [WritevAndFDataSync(...).run()]: the memory the first kind of pointer refers to, the
      fragments, the offset and the expected number of bytes. *)
  WritevAndFDataSync : E -> file -> bytes -> list iovec -> Z -> Z -> option (E * file * StatusT);
}.

(** What the database relies on. [io_inv] is the implementation's own invariant; every
    operation is called in a state that has it and leaves one that has it. *)
Class IoSpec (E : Type) `{!Io E} := {
  io_inv : E -> Prop;
  now_spec : forall e e' t, io_inv e -> io_now e = (e', t) -> io_inv e';
  fstat_spec : forall e f e' r, io_inv e -> io_fstat e f = (e', r) ->
    io_inv e' /\ forall n, r = Some n -> n = zlen (content f);
  ftruncate_spec : forall e f n e' f' ok, io_inv e -> 0 <= n <= zlen (content f) -> io_ftruncate e f n = (e', f', ok) ->
    io_inv e' /\ (if ok then content f' = truncate (content f) n /\ same_below n f f' else f' = f);
  (** A read may be short; it never invents bytes. *)
  ReadAt_spec : forall e f n off, io_inv e -> 0 <= n < 2 ^ 62 -> 0 <= off < 2 ^ 62 ->
    exists e' f' r, ReadAt e f n off = Some (e', f', r) /\ io_inv e' /\
    content f' = content f /\ (forall l, holds_log f l -> holds_log f' l) /\
    match r with
    | RValue bs => bs `prefix_of` take (Z.to_nat n) (drop (Z.to_nat off) (content f))
    | RStatus s => Status.ok s = false
    end;
  (** Success means that what the file holds is on the device. *)
  FDataSync_spec : forall e f, io_inv e ->
    exists e' f' s, FDataSync e f = Some (e', f', s) /\ io_inv e' /\ content f' = content f /\
    (if Status.ok s then durable f' = content f else forall l, holds_log f l -> holds_log f' l);
  (** Success means that the gathered bytes are in the file and on the device; failure says
      nothing of the bytes from the offset on. The caller passes the number of bytes the
      fragments hold. *)
  Writev_spec : forall e f mem iovs off expected data, io_inv e -> 0 <= off < 2 ^ 62 -> zlen iovs <= 1024 ->
    materializeIovecs mem iovs = Some data -> zlen data = expected ->
    exists e' f' s, WritevAndFDataSync e f mem iovs off expected = Some (e', f', s) /\ io_inv e' /\
    if Status.ok s then content f' = pwrite (content f) off data /\ durable f' = content f'
    else forall l, zlen l <= off -> holds_log f l -> holds_log f' l;
}.

(** A read of the whole file returns the whole file: the file is small enough for one
    read (the kernel transfers at most 2,147,479,552 bytes at a time). *)
Definition reads_in_full {E} `{!Io E, !IoSpec E} (f : file) : Prop :=
  forall e e' f' bs, io_inv e -> ReadAt e f (zlen (content f)) 0 = Some (e', f', RValue bs) -> bs = content f.

(** A system none of whose operations fails during recovery. *)
Class IoUp (E : Type) `{!Io E, !IoSpec E} : Prop := {
  up_fstat : forall e f, io_inv e -> exists e' n, io_fstat e f = (e', Some n);
  up_ftruncate : forall e f n, io_inv e -> exists e' f', io_ftruncate e f n = (e', f', true);
  up_read : forall e f n off, io_inv e -> exists e' f' bs, ReadAt e f n off = Some (e', f', RValue bs);
  up_sync : forall e f, io_inv e -> exists e' f', FDataSync e f = Some (e', f', Status.Ok);
}.

(** ** Lemmas *)

Lemma prefix_lookup_iff (l k : bytes) : l `prefix_of` k <-> forall i b, l !! i = Some b -> k !! i = Some b.
Proof.
  split; [intros H i b Hi; by apply (prefix_lookup_Some l)|].
  revert k. induction l as [|x l IH]; intros k H; [apply prefix_nil|].
  destruct k as [|y k]; [by specialize (H 0%nat x eq_refl)|].
  assert (y = x) as -> by (specialize (H 0%nat x eq_refl); by simplify_eq/=).
  apply prefix_cons, IH. intros i b Hi. apply (H (S i) b Hi).
Qed.

Lemma crash_keeps_log f l c : holds_log f l -> crash_image f c -> l `prefix_of` c.
Proof.
  rewrite prefix_lookup_iff. intros [H1 H2] Hc i b Hi.
  rewrite prefix_lookup_iff in H1, H2. auto.
Qed.

Lemma pwrite_prefix l c data : l `prefix_of` c ->
  pwrite c (zlen l) data = l ++ data ++ drop (length l + length data) c.
Proof.
  intros [k ->]. unfold pwrite. rewrite Nat2Z.id, <- app_assoc, take_app_length. done.
Qed.

Lemma pwrite_holds l f off data : holds_log f l -> off = zlen l ->
  l ++ data `prefix_of` pwrite (content f) off data.
Proof.
  intros [H _] ->. rewrite pwrite_prefix, app_assoc by done. by apply prefix_app_r.
Qed.

Lemma truncate_prefix l c : l `prefix_of` c -> truncate c (zlen l) = l.
Proof.
  intros [k ->]. unfold truncate. by rewrite Nat2Z.id, <- app_assoc, take_app_length.
Qed.

Lemma same_below_holds off f f' l : same_below off f f' -> zlen l <= off -> holds_log f l -> holds_log f' l.
Proof.
  intros [H1 H2] Hl [P1 P2].
  assert (forall c c' : bytes, take (Z.to_nat off) c' = take (Z.to_nat off) c ->
    l `prefix_of` c -> l `prefix_of` c') as Hgen; [|split; eauto].
  intros c c' E. rewrite !prefix_lookup_iff. intros Hp i b Hi.
  assert (i < Z.to_nat off)%nat by (apply lookup_lt_Some in Hi; lia).
  rewrite <- (lookup_take_lt c' (Z.to_nat off)), E, lookup_take_lt by done. auto.
Qed.

Lemma holds_nil f : holds_log f [].
Proof. split; apply prefix_nil. Qed.

Lemma pwrite_keeps l f off data : 0 <= off -> zlen l <= off -> l `prefix_of` content f ->
  l `prefix_of` pwrite (content f) off data.
Proof.
  intros H0 Hl [k Hk]. unfold pwrite. rewrite Hk, <- app_assoc, take_app_ge, <- app_assoc by lia.
  by apply prefix_app_r.
Qed.

(** ** A simulated system

    An implementation of the interface that answers from a script with the outcome of
    every log write, and whose reads return at most [read_cap] bytes. It shows that [IoSpec] can be met, and
    runs the examples. *)

Inductive write_outcome :=
  | WriteDone
  | WriteShort (n : nat)   (** [n] bytes reach the file, the linked sync is cancelled *)
  | SyncFails.             (** all bytes reach the file, not the device *)

Record sim (read_cap : nat) := mkSim { sim_time : Z; sim_script : list write_outcome }.
Arguments mkSim {read_cap} sim_time sim_script.
Arguments sim_time {read_cap} s.
Arguments sim_script {read_cap} s.

Section Sim.
Context {read_cap : nat}.

Definition sim_tick (e : sim read_cap) : sim read_cap := mkSim (sim_time e + 1500) (sim_script e).

Definition sim_writev (e : sim read_cap) (f : file) (mem : bytes) (iovs : list iovec) (off expected : Z)
    : sim read_cap * file * StatusT :=
  let e' := mkSim (sim_time e) (tl (sim_script e)) in
  match materializeIovecs mem iovs with
  | None => (e', f, Status.IoError "io_uring writev failed: Bad address")
  | Some data =>
    match hd WriteDone (sim_script e) with
    | WriteDone =>
        let c := pwrite (content f) off data in
        if zlen data =? expected then (e', mkFile c c, Status.Ok)
        else (e', mkFile c (durable f), Status.IoError "io_uring writev completed short")
    | WriteShort n =>
        (e', mkFile (pwrite (content f) off (take n data)) (durable f),
         Status.IoError "io_uring writev completed short")
    | SyncFails =>
        (e', mkFile (pwrite (content f) off data) (durable f), Status.IoError "io_uring fdatasync failed")
    end
  end.

#[global] Instance sim_Io : Io (sim read_cap) := {|
  io_now e := (sim_tick e, sim_time e);
  io_fstat e f := (e, Some (zlen (content f)));
  io_ftruncate e f n := (e, mkFile (truncate (content f) n) (durable f), true);
  io_errno _ := 0;
  ReadAt e f n off :=
    Some (e, f, RValue (take read_cap (take (Z.to_nat n) (drop (Z.to_nat off) (content f)))));
  FDataSync e f := Some (e, mkFile (content f) (content f), Status.Ok);
  WritevAndFDataSync e f mem iovs off expected := Some (sim_writev e f mem iovs off expected);
|}.

#[global] Instance sim_IoSpec : IoSpec (sim read_cap).
Proof.
  refine {| io_inv := fun _ => True |}; try done.
  - intros e f e' r _ [= <- <-]. split; [done|]. by intros n [= <-].
  - intros e f n e' f' ok _ Hn [= <- <- <-]. split; [done|]. split; [done|].
    split; [|done]. cbn [content]. unfold truncate. by rewrite take_take, Nat.min_id, take_app_le by lia.
  - intros e f n off _ _ Ho. do 3 eexists. do 4 (split; [done|]). apply prefix_take.
  - intros e f _. by do 3 eexists.
  - intros e f mem iovs off expected data _ Ho _ Hd Hl.
    destruct (sim_writev e f mem iovs off expected) as [[e' f'] s] eqn:H. do 3 eexists.
    split; [cbn; by rewrite H|]. split; [done|].
    unfold sim_writev in H. rewrite Hd, Hl, Z.eqb_refl in H.
    destruct (hd WriteDone (sim_script e)); injection H as <- <- <-; [done|..]; intros l Hll [H1 H2];
      (split; [apply pwrite_keeps; done || lia|done]).
Defined.

#[global] Instance sim_IoUp : IoUp (sim read_cap).
Proof. split; cbn; eauto. Qed.

Lemma sim_reads_in_full f : (length (content f) <= read_cap)%nat -> reads_in_full (E := sim read_cap) f.
Proof.
  intros Hc e e' f' bs _ [= _ _ <-]. rewrite drop_0, Nat2Z.id, firstn_all. by apply take_ge.
Qed.

End Sim.
