(* ===== verification/Db.v ===== *)
(** * The database (include/storage_engine/db.h, src/db.cc)

    The state a [DB] keeps for its write path, [writeGroup], [recover] and [Get], as
    functions of the state and of what the system answers. The writer queue that decides
    which writers form a group is in [WriterQueue.v], [Open] in [DbOpen.v]. *)

From S2P Require Import Prelude Status Coding Crc32c WriteBatch Wal MemTable Io.

(** [IOV_MAX] of <limits.h> on Linux. *)
Definition IOV_MAX : Z := 1024.

(** [std::chrono::duration_cast] truncates towards zero. *)
Definition elapsedMicros (start stop : Z) : Z :=
  let micros := Z.quot (stop - start) 1000 in
  if micros >? 0 then u64 micros else 1.

Record Options := mkOptions {
  uringSqPoll : bool;
  uringEntries : Z;
  uringSqPollIdleMs : Z;
  groupCommitWindowMicros : Z;
  groupCommitTargetSize : Z;
  adaptiveGroupCommit : bool;
  highPressureGroupCommitWindowMicros : Z;
  highPressureGroupCommitTargetSize : Z;
  highPressureGroupCommitQueueThreshold : Z;
}.

Definition default_Options : Options := mkOptions false 8 2000 100 8 true 200 16 10.

(** [WriteGroupScratch]. *)
Record WriteGroupScratch := mkScratch {
  scratch_batches : vector WriteBatchT;
  memtableUpdates : PendingUpdates;
  fallbackRecord : bytes;
}.

Definition Scratch_new : WriteGroupScratch := mkScratch vector_new no_pending [].

(** The counters [writeGroup] updates. *)
Record WriteStats := mkWriteStats {
  walEncodeBufferReuses_ : Z;
  writeGroupScratchReuses_ : Z;
  writeGroupTimingSamples_ : Z;
  writeGroupTotalMicros_ : Z;
  writeGroupWalEncodeMicros_ : Z;
  writeGroupDurableWaitMicros_ : Z;
  writeGroupMemtableApplyMicros_ : Z;
}.

Definition WriteStats_new : WriteStats := mkWriteStats 0 0 0 0 0 0 0.

(** The members the write path uses. *)
Record DBCore := mkDBCore {
  walOffset_ : Z;
  nextSequence_ : Z;
  memtable_ : MemTableT;
  walRecord_ : EncodedBatchFragments;
  writeScratch_ : WriteGroupScratch;
  write_stats : WriteStats;
}.

(** A database, the file it logs to and everything behind [Io]. *)
Record World (E : Type) := mkWorld { w_io : E; w_file : file; w_db : DBCore }.
Arguments mkWorld {E} w_io w_file w_db.
Arguments w_io {E} w.
Arguments w_file {E} w.
Arguments w_db {E} w.

Section Db.
Context {L : Libc} {C : Cpu} {E : Type} `{!Io E}.

(** The constructor's members. *)
Definition DBCore_new : DBCore :=
  mkDBCore 0 1 MemTable_new (mkFragments vector_new vector_new 0) Scratch_new WriteStats_new.

(** ** Reading *)

Definition DB_Get (db : DBCore) (key : bytes) : option (Result bytes) := MemTable_Get (memtable_ db) key.

(** ** Writing a group *)

(** The first loop: the batches to write and the number of their entries. *)
Definition gatherBatches (v : vector WriteBatchT) (writers : list WriteBatchT) : vector WriteBatchT * Z :=
  fold_left (fun '(v, n) b => (vector_push_back v b, u64 (n + zlen (WriteBatch.entries b)))) writers (v, 0).

(** The record as fragments, or as one buffer when there are more than [IOV_MAX]. *)
Definition encodeGroup (baseSeq : Z) (bs : list WriteBatchT) (rec : EncodedBatchFragments) (fallback : bytes)
    : option (EncodedBatchFragments * bytes) :=
  rec ← EncodeBatchFragmentsInto baseSeq bs rec;
  if zlen (items (iovecs rec)) >? IOV_MAX then
    fb ← EncodeBatchInto baseSeq bs;
    Some (mkFragments (fixed rec)
            (vector_push_back (vector_clear (iovecs rec)) (mkIovec (DataPtr fb) (zlen fb)))
            (zlen fb), fb)
  else Some (rec, fallback).

Definition writeGroup (w : World E) (writers : list WriteBatchT) : option (World E * StatusT) :=
  let db := w_db w in
  let scratch := writeScratch_ db in
  let st := write_stats db in
  let '(io, groupStart) := io_now (w_io w) in
  let scratchReuses := if capacity (scratch_batches scratch) >? 0
    then u64 (writeGroupScratchReuses_ st + 1) else writeGroupScratchReuses_ st in
  let '(batchesV, entryCount) :=
    gatherBatches (vector_reserve (vector_clear (scratch_batches scratch)) (zlen writers)) writers in
  let baseSeq := nextSequence_ db in
  let '(io, encodeStart) := io_now io in
  let bufferReuses := if (capacity (fixed (walRecord_ db)) >? 0) || (capacity (iovecs (walRecord_ db)) >? 0)
    then u64 (walEncodeBufferReuses_ st + 1) else walEncodeBufferReuses_ st in
  '(rec, fallback) ← encodeGroup baseSeq (items batchesV) (walRecord_ db) (fallbackRecord scratch);
  let '(io, encodeEnd) := io_now io in
  let '(io, durableStart) := io_now io in
  '(io, f, syncWrite) ← WritevAndFDataSync io (w_file w) (items (fixed rec)) (items (iovecs rec))
    (walOffset_ db) (encoded_size rec);
  let '(io, durableEnd) := io_now io in
  if negb (Status.ok syncWrite) then
    Some (mkWorld io f (mkDBCore (walOffset_ db) (nextSequence_ db) (memtable_ db) rec
      (mkScratch batchesV (memtableUpdates scratch) fallback)
      (mkWriteStats bufferReuses scratchReuses (writeGroupTimingSamples_ st) (writeGroupTotalMicros_ st)
         (writeGroupWalEncodeMicros_ st) (writeGroupDurableWaitMicros_ st)
         (writeGroupMemtableApplyMicros_ st))), syncWrite)
  else
  let '(io, applyStart) := io_now io in
  '(mt, updates) ← ApplyBatches (memtable_ db) (items batchesV) baseSeq (memtableUpdates scratch);
  let '(io, applyEnd) := io_now io in
  let '(io, groupEnd) := io_now io in
  Some (mkWorld io f (mkDBCore (u64 (walOffset_ db + encoded_size rec)) (u64 (nextSequence_ db + entryCount))
      mt rec (mkScratch batchesV updates fallback)
      (mkWriteStats bufferReuses scratchReuses (u64 (writeGroupTimingSamples_ st + 1))
         (u64 (writeGroupTotalMicros_ st + elapsedMicros groupStart groupEnd))
         (u64 (writeGroupWalEncodeMicros_ st + elapsedMicros encodeStart encodeEnd))
         (u64 (writeGroupDurableWaitMicros_ st + elapsedMicros durableStart durableEnd))
         (u64 (writeGroupMemtableApplyMicros_ st + elapsedMicros applyStart applyEnd)))), Status.Ok).

(** ** Recovery *)

Definition fileSize (io : E) (f : file) : E * Result Z :=
  let '(io, r) := io_fstat io f in
  match r with
  | None => (io, RStatus (Status.IoError (errnoMessage "fstat" (io_errno io))))
  | Some n => (io, RValue (u64 n))
  end.

(** The loop over the decoded batches. *)
Definition replayBatch (st : MemTableT * WriteGroupScratch * Z) (d : DecodedBatch)
    : option (MemTableT * WriteGroupScratch * Z) :=
  let '(mt, scratch, maxSequence) := st in
  let bv := vector_push_back (vector_clear (scratch_batches scratch)) (batch d) in
  '(mt, updates) ← ApplyBatches mt (items bv) (baseSequence d) (memtableUpdates scratch);
  Some (mt, mkScratch bv updates (fallbackRecord scratch),
        Z.max maxSequence (u64 (baseSequence d + zlen (WriteBatch.entries (batch d))))).

Definition set_core (db : DBCore) (off next : Z) (mt : MemTableT) (scratch : WriteGroupScratch) : DBCore :=
  mkDBCore off next mt (walRecord_ db) scratch (write_stats db).

Definition recover (w : World E) : option (World E * StatusT) :=
  let db := w_db w in
  let f := w_file w in
  let '(io, sz) := fileSize (w_io w) f in
  match sz with
  | RStatus s => Some (mkWorld io f db, s)
  | RValue sz =>
    let db := set_core db sz (nextSequence_ db) (memtable_ db) (writeScratch_ db) in
    if walOffset_ db =? 0 then Some (mkWorld io f db, Status.Ok) else
    '(io, f, read) ← ReadAt io f (walOffset_ db) 0;
    match read with
    | RStatus s => Some (mkWorld io f db, s)
    | RValue bs =>
      decoded ← DecodeLog bs;
      match decoded with
      | RStatus s => Some (mkWorld io f db, s)
      | RValue decodeResult =>
        '(mt, scratch, maxSequence) ←
          foldM replayBatch (memtable_ db, writeScratch_ db, 0) (batches decodeResult);
        let db := set_core db (validBytes decodeResult)
          (Z.max (nextSequence_ db) (u64 (maxSequence + 1))) mt scratch in
        if negb (walOffset_ db =? zlen bs) then
          let '(io, f, ok) := io_ftruncate io f (walOffset_ db) in
          if negb ok then
            Some (mkWorld io f db, Status.IoError (errnoMessage "truncate WAL" (io_errno io)))
          else
          '(io, f, sync) ← FDataSync io f;
          if negb (Status.ok sync) then Some (mkWorld io f db, sync)
          else Some (mkWorld io f db, Status.Ok)
        else Some (mkWorld io f db, Status.Ok)
      end
    end
  end.

End Db.

(** ** Correctness *)

(** The table a sequence of decoded records stands for. *)
Definition replay (ds : list DecodedBatch) : Table :=
  fold_left (fun m d => table_apply m (baseSequence d) (entries_ (batch d))) ds ∅.

(** What the database promises about a log of records [imgs] with contents [ds]: it is at
    the front of the file and on the device, the memtable is its replay, and no sequence
    number from the next one on has been used. *)
Record db_inv {L : Libc} {C : Cpu} {E : Type} `{!Io E, !IoSpec E} (w : World E) (imgs : list bytes)
    (ds : list DecodedBatch) : Prop := {
  inv_io : io_inv (w_io w);
  inv_images : Forall2 valid_image imgs ds;
  inv_file : holds_log (w_file w) (concat imgs);
  inv_offset : walOffset_ (w_db w) = zlen (concat imgs);
  inv_memtable : mt_refines (memtable_ (w_db w)) (replay ds);
  inv_scratch : memtableUpdates (writeScratch_ (w_db w)) = no_pending;
  inv_next : 1 <= nextSequence_ (w_db w) < 2 ^ 64;
  inv_sequence : Forall (fun d => baseSequence d + zlen (entries_ (batch d)) <= nextSequence_ (w_db w)) ds;
}.

Section DbFacts.
Context {L : Libc} {C : Cpu} {E : Type} `{!Io E, !IoSpec E}.

(** Nothing follows the log's records in the file. *)
Definition nothing_after (w : World E) (imgs : list bytes) : Prop := content (w_file w) = concat imgs.

(** A clock reading keeps the invariant [H]. *)
Ltac now_read io t :=
  match goal with H : io_inv ?e |- context [io_now ?e] =>
    let Hn := fresh in
    destruct (io_now e) as [io t] eqn:Hn; apply (now_spec _ _ _ H) in Hn; clear H; rename Hn into H
  end.

Lemma replay_snoc ds d : replay (ds ++ [d]) = table_apply (replay ds) (baseSequence d) (entries_ (batch d)).
Proof. unfold replay. by rewrite fold_left_app. Qed.

Lemma gatherBatches_spec v writers :
  items (gatherBatches v writers).1 = items v ++ writers /\
  (gatherBatches v writers).2 = u64 (zlen (all_entries writers)).
Proof.
  unfold gatherBatches.
  enough (forall v n, u64 n = n ->
    let r := fold_left (fun '(v, n) b =>
      (vector_push_back v b, u64 (n + zlen (WriteBatch.entries b)))) writers (v, n) in
    items r.1 = items v ++ writers /\ r.2 = u64 (n + zlen (all_entries writers))) as H by (by apply H).
  clear v. induction writers as [|b ws IH]; intros v n Hn; simpl.
  - rewrite app_nil_r, Z.add_0_r. done.
  - destruct (IH (vector_push_back v b) (u64 (n + zlen (WriteBatch.entries b)))) as [H1 H2];
      [apply u64_idemp|].
    rewrite H1, H2, all_entries_cons. cbn [items vector_push_back]. rewrite <- app_assoc.
    split; [done|]. unfold u64. rewrite Zplus_mod_idemp_l. f_equal. len.
Qed.

Lemma encodeGroup_spec `{!CpuSpec C} base bs rec fb : storable (all_entries bs) ->
  exists rec' fb', encodeGroup base bs rec fb = Some (rec', fb') /\
    materializeIovecs (items (fixed rec')) (items (iovecs rec'))
      = Some (record_bytes base (all_entries bs)) /\
    encoded_size rec' = zlen (record_bytes base (all_entries bs)) /\
    zlen (items (iovecs rec')) <= IOV_MAX.
Proof.
  intros Henc. unfold encodeGroup.
  destruct (EncodeBatchFragmentsInto_spec base bs rec Henc) as (fr & -> & Hm & Hs & _).
  cbn [mbind option_bind]. rewrite Z.gtb_ltb.
  destruct (Z.ltb_spec IOV_MAX (zlen (items (iovecs fr)))).
  - rewrite EncodeBatchInto_spec. cbn [mbind option_bind]. do 2 eexists. split; [done|].
    cbn [fixed iovecs encoded_size items vector_push_back vector_clear app].
    split; [|split; [done|]].
    + set (r := record_bytes _ _). pose proof (materialize_opt (items (fixed fr)) r) as Ho.
      unfold opt_iovec in Ho. pose proof (length_record_bytes base (all_entries bs)).
      destruct (Z.eqb_spec (zlen r) 0); [unfold r in *; lia|done].
    + done.
  - do 2 eexists. split; [done|]. split; [done|]. split; [done|]. lia.
Qed.

(** A state whose log has one more record than [w]'s, and whose memtable has its entries. *)
Lemma inv_extend w off imgs ds base writers io f mt rec scratch stats :
  db_inv w imgs ds -> walOffset_ (w_db w) = off -> nextSequence_ (w_db w) = base ->
  Forall batch_wf writers -> encodable (all_entries writers) ->
  base + zlen (all_entries writers) < 2 ^ 64 -> io_inv io ->
  content f = pwrite (content (w_file w)) off (record_bytes base (all_entries writers)) -> durable f = content f ->
  mt_refines mt (table_apply (replay ds) base (all_entries writers)) -> memtableUpdates scratch = no_pending ->
  db_inv (mkWorld io f (mkDBCore (off + zlen (record_bytes base (all_entries writers)))
      (base + zlen (all_entries writers)) mt rec scratch stats))
    (imgs ++ [record_bytes base (all_entries writers)])
    (ds ++ [mkDecodedBatch base (mkWriteBatch (all_entries writers))]).
Proof.
  intros [Hio0 Him Hfile Hoff Hmt0 Hscr Hnext Hseq] <- <- Hwf Henc Hns Hio Hc Hdur Hmt Hsc.
  set (base := nextSequence_ (w_db w)) in *. set (es := all_entries writers) in *.
  assert (Forall entry_wf es) as Hes_wf by (by apply all_entries_wf).
  assert (u64 base = base) as Hbase by (apply u64_small; unfold base; lia).
  split; cbn [w_io w_file w_db walOffset_ nextSequence_ memtable_ writeScratch_ memtableUpdates]; try done.
  - apply Forall2_app; [done|]. constructor; [|done]. rewrite <- Hbase at 2. by apply record_bytes_valid.
  - rewrite concat_app. cbn [concat]. rewrite app_nil_r.
    assert (concat imgs ++ record_bytes base es `prefix_of` content f) as Hp
      by (rewrite Hc, Hoff; by apply pwrite_holds).
    split; [done|]. by rewrite Hdur.
  - rewrite concat_app. cbn [concat]. len.
  - by rewrite replay_snoc.
  - unfold base in *. lia.
  - apply Forall_app. split; [eapply Forall_impl; [exact Hseq|]|]; cbn; [intros d Hd; cbn in Hd|];
      [unfold base in *; lia|]. constructor; [|done]. done.
Qed.

(** One group: the whole of it or nothing of it. *)
Lemma writeGroup_spec `{!CpuSpec C} w imgs ds writers :
  db_inv w imgs ds ->
  Forall batch_wf writers -> encodable (all_entries writers) ->
  walOffset_ (w_db w) + zlen (record_bytes (nextSequence_ (w_db w)) (all_entries writers)) < 2 ^ 62 ->
  nextSequence_ (w_db w) + zlen (all_entries writers) < 2 ^ 64 ->
  let base := nextSequence_ (w_db w) in
  let es := all_entries writers in
  exists w' s, writeGroup w writers = Some (w', s) /\
    (Status.ok s = true ->
      db_inv w' (imgs ++ [record_bytes base es]) (ds ++ [mkDecodedBatch base (mkWriteBatch es)]) /\
      nextSequence_ (w_db w') = base + zlen es /\
      (nothing_after w imgs -> nothing_after w' (imgs ++ [record_bytes base es]))) /\
    (Status.ok s = false ->
      db_inv w' imgs ds /\ memtable_ (w_db w') = memtable_ (w_db w) /\
      nextSequence_ (w_db w') = base).
Proof.
  intros Hinv Hwf Henc Hsz Hns base es. pose proof Hinv as [Hio Him Hfile Hoff Hmt Hscr Hnext Hseq].
  unfold writeGroup.
  now_read io1 t1.
  destruct (gatherBatches _ writers) as [bv n] eqn:Hg.
  pose proof (gatherBatches_spec (vector_reserve (vector_clear (scratch_batches (writeScratch_ (w_db w))))
    (zlen writers)) writers) as [Hbv Hn]. rewrite Hg in Hbv, Hn. cbn in Hbv, Hn.
  now_read io2 t2. rewrite Hbv.
  destruct (encodeGroup_spec (nextSequence_ (w_db w)) writers (walRecord_ (w_db w))
    (fallbackRecord (writeScratch_ (w_db w))) (encodable_storable _ Henc)) as (rec & fb & -> & Hmat & Hes & Hcnt).
  cbn [mbind option_bind].
  now_read io3 t3. now_read io4 t4.
  destruct (Writev_spec io4 (w_file w) (items (fixed rec)) (items (iovecs rec)) (walOffset_ (w_db w))
    (encoded_size rec) _ Hio ltac:(lia) Hcnt Hmat (eq_sym Hes)) as (io5 & f' & s & Hcall & Hio5 & Hw).
  rewrite Hcall. cbn [mbind option_bind]. clear Hio Hcall. rename Hio5 into Hio.
  now_read io6 t6.
  fold base es in Hmat, Hes, Hsz, Hns |- *.
  destruct (Status.ok s) eqn:Hs; cbn [negb].
  2:{ do 2 eexists. split; [done|]. rewrite Hs. split; [done|]. intros _. split; [|done].
      split; cbn [w_file w_db walOffset_ nextSequence_ memtable_ writeScratch_ memtableUpdates]; try done.
      apply Hw; [lia|done]. }
  now_read io7 t7. rewrite Hscr.
  destruct (ApplyBatches_refines (memtable_ (w_db w)) (replay ds) writers base Hmt)
    as (mt' & -> & Hmt' & _). cbn [mbind option_bind].
  now_read io8 t8. now_read io9 t9.
  do 2 eexists. split; [done|]. split; [|done]. intros _.
  assert (n = zlen es) as -> by (rewrite Hn; apply u64_small; lia).
  pose proof (length_record_bytes base es) as Hlr.
  cbn [w_db nextSequence_]. rewrite Hes, !u64_small by (unfold base in *; lia).
  destruct Hw as [Hc Hdur]. split; [by apply (inv_extend w)|]. split; [done|].
  unfold nothing_after. cbn [w_file]. intros Hend. rewrite Hc, Hend, Hoff, pwrite_prefix, concat_app by done. cbn [concat].
  rewrite app_nil_r, (drop_ge (concat imgs)), app_nil_r by lia. done.
Qed.


(** *** Recovery *)

(** One past the largest sequence number of a log. *)
Definition sequence_end (d : DecodedBatch) : Z := u64 (baseSequence d + zlen (entries_ (batch d))).

Definition max_sequence (ds : list DecodedBatch) : Z := fold_left (fun mx d => Z.max mx (sequence_end d)) ds 0.

Lemma replay_loop ds : forall mt m scratch mx,
  mt_refines mt m -> memtableUpdates scratch = no_pending ->
  exists mt' scratch', foldM replayBatch (mt, scratch, mx) ds
      = Some (mt', scratch', fold_left (fun mx d => Z.max mx (sequence_end d)) ds mx) /\
    mt_refines mt' (fold_left (fun m d => table_apply m (baseSequence d) (entries_ (batch d))) ds m) /\
    memtableUpdates scratch' = no_pending.
Proof.
  induction ds as [|d ds IH]; intros mt m scratch mx Hmt Hs; [by do 2 eexists|].
  cbn [foldM]. unfold replayBatch at 1. rewrite Hs. cbn [items vector_push_back vector_clear app].
  destruct (ApplyBatches_refines mt m [batch d] (baseSequence d) Hmt) as (mt1 & -> & Hmt1 & _).
  cbn [mbind option_bind]. unfold all_entries in Hmt1. cbn [fmap list_fmap concat] in Hmt1.
  rewrite app_nil_r in Hmt1. by apply (IH mt1).
Qed.

(** The state a successful recovery leaves, in terms of the bytes it read and what they
    decode to. *)
Record recovered (w w' : World E) (bs : bytes) (r : DecodeResult) : Prop := {
  rec_read : bs `prefix_of` content (w_file w);
  rec_decoded : DecodeLog bs = Some (RValue r);
  rec_memtable : mt_refines (memtable_ (w_db w')) (replay (batches r));
  rec_offset : walOffset_ (w_db w') = validBytes r;
  rec_next : nextSequence_ (w_db w') = Z.max 1 (u64 (max_sequence (batches r) + 1));
  rec_scratch : memtableUpdates (writeScratch_ (w_db w')) = no_pending;
  rec_content : content (w_file w') = if validBytes r =? zlen bs then content (w_file w)
    else take (Z.to_nat (validBytes r)) (content (w_file w));
  rec_keeps : forall l, zlen l <= validBytes r -> holds_log (w_file w) l -> holds_log (w_file w') l;
}.

(** The end of [recover]: the state after replay, and the truncation when it is needed. *)
(** The end of [recover]: the file is cut and synced. *)
Lemma truncate_log io f n db : io_inv io -> 0 <= n <= zlen (content f) ->
  exists io' f' s,
    (let '(io, f, ok) := io_ftruncate io f n in
     if negb ok then Some (mkWorld io f db, Status.IoError (errnoMessage "truncate WAL" (io_errno io)))
     else '(io, f, sync) ← FDataSync io f;
          if negb (Status.ok sync) then Some (mkWorld io f db, sync) else Some (mkWorld io f db, Status.Ok))
    = Some (mkWorld io' f' db, s) /\ io_inv io' /\
    (Status.ok s = true -> content f' = take (Z.to_nat n) (content f) /\
       forall l, zlen l <= n -> holds_log f l -> holds_log f' l).
Proof.
  intros Hio Hn. destruct (io_ftruncate io f n) as [[io1 f1] b] eqn:Ht.
  apply ftruncate_spec in Ht as [Hio1 Ht]; [|done|done].
  destruct b; cbn [negb]; [destruct Ht as [Hct Hsame]|by do 3 eexists].
  destruct (FDataSync_spec io1 f1 Hio1) as (io2 & f2 & s & Hsy & Hio2 & Hc2 & Hd2).
  rewrite Hsy. cbn [mbind option_bind].
  destruct (Status.ok s) eqn:Hok; cbn [negb]; do 3 eexists; (split; [done|]); (split; [done|]); [|congruence].
  intros _. split; [rewrite Hc2, Hct; unfold truncate; by rewrite take_app_le by lia|].
  intros l Hl Hh. destruct (same_below_holds _ _ _ l Hsame Hl Hh) as [Hp _].
  split; [by rewrite Hc2|by rewrite Hd2].
Qed.

Lemma recover_spec w :
  io_inv (w_io w) -> w_db w = DBCore_new -> zlen (content (w_file w)) < 2 ^ 62 ->
  exists w' s, recover w = Some (w', s) /\ io_inv (w_io w') /\
    (Status.ok s = true -> exists bs r, recovered w w' bs r /\
       (reads_in_full (w_file w) -> bs = content (w_file w))).
Proof.
  intros Hio Hdb Hlen. unfold recover. rewrite Hdb.
  unfold fileSize. destruct (io_fstat (w_io w) (w_file w)) as [io1 r] eqn:Hst.
  apply fstat_spec in Hst as [Hio1 Hst]; [|done]. clear Hio.
  destruct r as [n|]; [rewrite (Hst n eq_refl); clear Hst|by do 2 eexists].
  rewrite u64_small by lia.
  cbn [set_core walOffset_ nextSequence_ memtable_ writeScratch_ walRecord_ write_stats].
  destruct (Z.eqb_spec (zlen (content (w_file w))) 0) as [H0|H0].
  { assert (content (w_file w) = []) as Hc by (destruct (content (w_file w)); [done|len]).
    do 2 eexists. split; [done|]. split; [done|]. intros _. exists [], (mkDecodeResult [] 0).
    rewrite Hc. split; [|done]. split; rewrite ?Hc; try done. apply new_refines. }
  destruct (ReadAt_spec io1 (w_file w) (zlen (content (w_file w))) 0 Hio1 ltac:(lia) ltac:(lia))
    as (io2 & f2 & r & Hr & Hio2 & Hc2 & Hk2 & Hrd). rewrite Hr. cbn [mbind option_bind].
  destruct r as [bs|s]; [|do 2 eexists; split; [done|]; split; [done|]; congruence].
  rewrite drop_0, Nat2Z.id, firstn_all in Hrd.
  destruct (DecodeLog_total bs) as (dr & Hd & Hcor); [apply prefix_length in Hrd; lia|].
  rewrite Hd. cbn [mbind option_bind]. destruct dr as [r|s].
  2:{ do 2 eexists. split; [done|]. split; [done|]. specialize (Hcor s eq_refl).
      unfold Status.ok. rewrite Hcor. done. }
  destruct (replay_loop (batches r) MemTable_new ∅ Scratch_new 0) as (mt & sc & E1 & Hmt & Hsc);
    [apply new_refines|done|].
  change (memtable_ DBCore_new) with MemTable_new. change (writeScratch_ DBCore_new) with Scratch_new.
  rewrite E1. cbn [mbind option_bind]. change (nextSequence_ DBCore_new) with 1.
  fold (max_sequence (batches r)).
  cbn [set_core walOffset_ nextSequence_ memtable_ writeScratch_ walRecord_ write_stats].
  assert (reads_in_full (w_file w) -> bs = content (w_file w)) as Hfull by (intros Hf; exact (Hf io1 io2 f2 bs Hio1 Hr)).
  pose proof Hd as Hvb. apply DecodeLog_sound in Hvb as (imgs & tail & Hbs & _ & Hvb & _);
    [|apply prefix_length in Hrd; lia].
  assert (0 <= validBytes r <= zlen (content (w_file w))) as Hvr
    by (apply prefix_length in Hrd; rewrite Hbs in Hrd; len).
  destruct (Z.eqb_spec (validBytes r) (zlen bs)) as [Heq|Hne]; cbn [negb].
  { do 2 eexists. split; [done|]. split; [done|]. intros _. exists bs, r. split; [|done].
    split; try done; [|cbn [w_file]; auto]. by rewrite Heq, Z.eqb_refl. }
  match goal with |- context [Some (mkWorld _ _ ?d, Status.Ok)] =>
    destruct (truncate_log io2 f2 (validBytes r) d Hio2 ltac:(by rewrite Hc2)) as (io3 & f3 & s & -> & Hio3 & Hok) end.
  do 2 eexists. split; [done|]. split; [done|]. intros Hs. destruct (Hok Hs) as [Hc3 Hk3]. rewrite Hc2 in Hc3.
  exists bs, r. split; [|done]. split; try done; cbn [w_file].
  - rewrite Hc3. by destruct (Z.eqb_spec (validBytes r) (zlen bs)).
  - intros l Hl Hh. by apply Hk3, Hk2.
Qed.

(** The sequence numbers of a log leave room for the next one. *)
Definition sequences_fit (ds : list DecodedBatch) : Prop :=
  Forall (fun d => baseSequence d + zlen (entries_ (batch d)) + 1 < 2 ^ 64) ds.

Lemma max_sequence_spec ds : sequences_fit ds -> Forall (fun d => 0 <= baseSequence d) ds ->
  0 <= max_sequence ds /\ max_sequence ds + 1 < 2 ^ 64 /\
  Forall (fun d => baseSequence d + zlen (entries_ (batch d)) <= max_sequence ds) ds.
Proof.
  unfold max_sequence. induction ds as [|d ds IH] using rev_ind; intros Hf Hp; [done|].
  apply Forall_app in Hf as [Hf Hd]. apply Forall_app in Hp as [Hp Hd0].
  apply Forall_inv in Hd, Hd0. cbv beta in Hd, Hd0. rewrite fold_left_app. cbn [fold_left]. destruct (IH Hf Hp) as (H1 & H2 & H3).
  assert (sequence_end d = baseSequence d + zlen (entries_ (batch d))) as -> by (apply u64_small; lia).
  split; [lia|]. split; [lia|]. apply Forall_app. split; [|constructor; [lia|done]].
  eapply Forall_impl; [exact H3|]. cbn. intros. lia.
Qed.

(** A recovery that read the whole file establishes the invariant. *)
Lemma recovered_inv w w' r :
  io_inv (w_io w') -> recovered w w' (content (w_file w)) r -> zlen (content (w_file w)) < 2 ^ 62 ->
  durable (w_file w) = content (w_file w) -> sequences_fit (batches r) ->
  exists imgs, db_inv w' imgs (batches r) /\ content (w_file w') = concat imgs.
Proof.
  intros Hio [Hrd Hd Hmt Hoff Hnext Hscr Hc Hk] Hlen Hdur Hseq.
  apply DecodeLog_sound in Hd as (imgs & tail & Hbs & Him & Hvb & _); [|lia].
  destruct (max_sequence_spec (batches r) Hseq) as (H1 & H2 & H3).
  { clear -Him. induction Him; constructor; eauto. by eapply valid_image_wf. }
  rewrite u64_small in Hnext by lia. exists imgs. split.
  - split; try done; [| |lia|].
    + apply Hk; [lia|]. split; rewrite ?Hdur, Hbs; by apply prefix_app_r.
    + by rewrite Hoff, Hvb.
    + eapply Forall_impl; [exact H3|]. cbn. intros. lia.
  - rewrite Hc, Hvb, Hbs. destruct (Z.eqb_spec (zlen (concat imgs)) (zlen (concat imgs ++ tail))).
    + destruct tail; [by rewrite app_nil_r|len].
    + by rewrite Nat2Z.id, take_app_length.
Qed.

Lemma recovered_content w w' r :
  recovered w w' (content (w_file w)) r ->
  content (w_file w') = take (Z.to_nat (validBytes r)) (content (w_file w)).
Proof.
  intros Hrec. rewrite (rec_content _ _ _ _ Hrec).
  destruct (Z.eqb_spec (validBytes r) (zlen (content (w_file w)))) as [->|]; [|done].
  by rewrite Nat2Z.id, firstn_all.
Qed.

(** A file with an intact log and a tail that no record is in: recovery finds the log, cuts
    the tail, and goes on with the sequence number after an unused one. *)
Lemma recover_intact w imgs ds tail :
  io_inv (w_io w) -> w_db w = DBCore_new -> zlen (content (w_file w)) < 2 ^ 62 -> reads_in_full (w_file w) ->
  Forall2 valid_image imgs ds -> sequences_fit ds -> holds_log (w_file w) (concat imgs) ->
  content (w_file w) = concat imgs ++ tail -> DecodeLog tail = Some (RValue (mkDecodeResult [] 0)) ->
  exists w' s, recover w = Some (w', s) /\ io_inv (w_io w') /\
    (Status.ok s = true -> db_inv w' imgs ds /\ nothing_after w' imgs /\
       nextSequence_ (w_db w') = max_sequence ds + 1).
Proof.
  intros Hio Hdb Hlen Hfull Him Hseq Hlog Hc Htail.
  destruct (recover_spec w Hio Hdb Hlen) as (w' & s & E1 & Hio' & Hok). exists w', s. do 2 (split; [done|]). intros Hs.
  destruct (Hok Hs) as (bs & r & Hrec & Hbs). rewrite (Hbs Hfull) in Hrec.
  pose proof (rec_decoded _ _ _ _ Hrec) as Hd. rewrite Hc in Hlen, Hd. rewrite (DecodeLog_app imgs ds tail Him Hlen), Htail in Hd.
  cbn in Hd. rewrite app_nil_r, Z.add_0_r in Hd. injection Hd as <-.
  pose proof (recovered_content _ _ _ Hrec) as Hend. destruct Hrec as [_ _ Hmt Hoff Hnext Hscr _ Hk]. cbn [batches validBytes] in *.
  rewrite Hc, Nat2Z.id, take_app_length in Hend.
  destruct (max_sequence_spec ds Hseq) as (H1 & H2 & H3).
  { clear -Him. induction Him; constructor; eauto. by eapply valid_image_wf. }
  rewrite u64_small in Hnext by lia. split; [|split; [done|lia]].
  split; try done; [|lia|].
  - apply Hk; [lia|done].
  - eapply Forall_impl; [exact H3|]. cbn. intros. lia.
Qed.

(** *** Reading *)

Lemma visible_replay ds :
  visible (replay ds) = fold_left kv_apply (concat ((fun d => entries_ (batch d)) <$> ds)) ∅.
Proof.
  induction ds as [|d ds IH] using rev_ind; [apply map_eq; intros k; unfold visible; by rewrite lookup_omap|].
  rewrite replay_snoc, visible_apply, IH, fmap_app, concat_app, fold_left_app. cbn.
  by rewrite app_nil_r.
Qed.

Lemma DB_Get_inv w imgs ds k : db_inv w imgs ds ->
  DB_Get (w_db w) k = Some (kv_get (visible (replay ds)) k).
Proof.
  intros Hinv. unfold DB_Get. rewrite <- table_get_visible. apply Get_refines, Hinv.
Qed.

(** *** A run of the write path *)

(** Groups written one after the other, with the status each returned. *)
Fixpoint run_groups (w : World E) (gs : list (list WriteBatchT)) : option (World E * list StatusT) :=
  match gs with
  | [] => Some (w, [])
  | g :: gs =>
      '(w, s) ← writeGroup w g;
      '(w, ss) ← run_groups w gs;
      Some (w, s :: ss)
  end.

(** The entries of the acknowledged groups. *)
Fixpoint acknowledged (gs : list (list WriteBatchT)) (ss : list StatusT) : list Entry :=
  match gs, ss with
  | g :: gs, s :: ss => (if Status.ok s then all_entries g else []) ++ acknowledged gs ss
  | _, _ => []
  end.

Lemma acknowledged_ok gs ss : length gs = length ss -> Forall (fun st => Status.ok st = true) ss ->
  acknowledged gs ss = concat (all_entries <$> gs).
Proof.
  revert ss. induction gs as [|g gs IH]; intros [|st ss] Hl Hs; try done. inversion Hs as [|? ? H1 H2]; subst.
  cbn. rewrite H1, IH; [done|by injection Hl|done].
Qed.

Definition group_ok (g : list WriteBatchT) : Prop := Forall batch_wf g /\ encodable (all_entries g).

Definition groups_bytes (gs : list (list WriteBatchT)) : Z :=
  fold_right (fun g n => 21 + zlen (entries_bytes (all_entries g)) + n) 0 gs.

Definition groups_entries (gs : list (list WriteBatchT)) : Z :=
  fold_right (fun g n => zlen (all_entries g) + n) 0 gs.

Lemma groups_nonneg gs : 0 <= groups_bytes gs /\ 0 <= groups_entries gs.
Proof. induction gs as [|g gs IH]; cbn; [done|]. unfold groups_bytes, groups_entries in IH. lia. Qed.

Lemma run_groups_spec `{!CpuSpec C} gs : forall w imgs ds,
  db_inv w imgs ds -> Forall group_ok gs ->
  walOffset_ (w_db w) + groups_bytes gs < 2 ^ 62 ->
  nextSequence_ (w_db w) + groups_entries gs < 2 ^ 64 ->
  exists w' ss imgs' ds', run_groups w gs = Some (w', ss) /\ length ss = length gs /\
    db_inv w' (imgs ++ imgs') (ds ++ ds') /\
    concat ((fun d => entries_ (batch d)) <$> ds') = acknowledged gs ss /\
    nextSequence_ (w_db w') <= nextSequence_ (w_db w) + groups_entries gs /\
    walOffset_ (w_db w') <= walOffset_ (w_db w) + groups_bytes gs /\
    (Forall (fun s => Status.ok s = true) ss -> nothing_after w imgs -> nothing_after w' (imgs ++ imgs')).
Proof.
  induction gs as [|g gs IH]; intros w imgs ds Hinv Hgs Hb Hn.
  - exists w, [], [], []. rewrite !app_nil_r. do 4 (split; [done|]). do 2 (split; [cbn; lia|]). done.
  - apply Forall_cons in Hgs as [[Hwf Henc] Hgs]. cbn [groups_bytes groups_entries fold_right] in Hb, Hn.
    fold (groups_bytes gs) in Hb. fold (groups_entries gs) in Hn.
    pose proof (length_record_bytes (nextSequence_ (w_db w)) (all_entries g)).
    pose proof (groups_nonneg gs) as [? ?].
    destruct (writeGroup_spec w imgs ds g Hinv Hwf Henc) as (w1 & s & E1 & Hok & Hfail); [lia..|].
    cbn [run_groups]. rewrite E1. cbn [mbind option_bind].
    destruct (Status.ok s) eqn:Hs.
    + destruct (Hok eq_refl) as (Hinv1 & Hn1 & Hend1).
      assert (walOffset_ (w_db w1) = walOffset_ (w_db w) + 21 + zlen (entries_bytes (all_entries g))) as Ho1.
      { rewrite (inv_offset _ _ _ Hinv1), (inv_offset _ _ _ Hinv), concat_app. cbn [concat]. len. }
      destruct (IH w1 _ _ Hinv1 Hgs) as (w2 & ss & imgs' & ds' & E2 & Hl & Hinv2 & Hack & Hn2 & Ho2 & Hend2).
      { rewrite Ho1. lia. }
      { rewrite Hn1. lia. }
      rewrite E2. rewrite <- !app_assoc in Hinv2. rewrite <- app_assoc in Hend2.
      do 4 eexists. split; [done|]. split; [cbn; lia|]. split; [exact Hinv2|].
      cbn [app acknowledged fmap list_fmap concat groups_entries foldr]. rewrite Hs, Hack.
      split; [done|]. fold (groups_entries gs). split; [lia|].
      split; [cbn; fold (groups_bytes gs); lia|]. intros Hss%Forall_inv_tail ?. auto.
    + destruct (Hfail eq_refl) as (Hinv1 & _ & Hn1).
      destruct (IH w1 _ _ Hinv1 Hgs) as (w2 & ss & imgs' & ds' & E2 & Hl & Hinv2 & Hack & Hn2 & Ho2 & _).
      { rewrite (inv_offset _ _ _ Hinv1). rewrite (inv_offset _ _ _ Hinv) in Hb. lia. }
      { rewrite Hn1. lia. }
      rewrite E2. do 4 eexists. split; [done|]. split; [cbn; lia|]. split; [exact Hinv2|].
      cbn [acknowledged groups_entries foldr]. rewrite Hs. split; [done|]. fold (groups_entries gs).
      split; [lia|]. split; [|intros Hss%Forall_inv; congruence]. cbn. fold (groups_bytes gs).
      rewrite (inv_offset _ _ _ Hinv). rewrite (inv_offset _ _ _ Hinv1) in Ho2. lia.
Qed.

Lemma new_inv (io : E) : io_inv io -> db_inv (mkWorld io empty_file DBCore_new) [] [].
Proof.
  intros Hio. split; cbn [w_io w_file w_db concat]; try done. apply new_refines.
Qed.

Lemma run_from_new `{!CpuSpec C} (io : E) gs :
  io_inv io -> Forall group_ok gs -> groups_bytes gs < 2 ^ 62 -> groups_entries gs + 1 < 2 ^ 64 ->
  exists w ss imgs ds, run_groups (mkWorld io empty_file DBCore_new) gs = Some (w, ss) /\
    length ss = length gs /\ db_inv w imgs ds /\
    concat ((fun d => entries_ (batch d)) <$> ds) = acknowledged gs ss /\
    nextSequence_ (w_db w) <= 1 + groups_entries gs.
Proof.
  intros Hio Hgs Hb Hn.
  destruct (run_groups_spec gs _ [] [] (new_inv io Hio) Hgs) as (w & ss & imgs & ds & E1 & Hl & Hinv & Hack & Hnx & _); [cbn; lia..|].
  by exists w, ss, imgs, ds.
Qed.

(** *** What the system is asked for *)

(** A predicate on the system that its operations keep is kept by the database's. *)
Record io_keeps (P : E -> Prop) : Prop := {
  keeps_now : forall e e' t, P e -> io_now e = (e', t) -> P e';
  keeps_fstat : forall e f e' r, P e -> io_fstat e f = (e', r) -> P e';
  keeps_ftruncate : forall e f n e' f' ok, P e -> io_ftruncate e f n = (e', f', ok) -> P e';
  keeps_read : forall e f n off e' f' r, P e -> ReadAt e f n off = Some (e', f', r) -> P e';
  keeps_sync : forall e f e' f' s, P e -> FDataSync e f = Some (e', f', s) -> P e';
  keeps_writev : forall e f mem iovs off n e' f' s, P e ->
    WritevAndFDataSync e f mem iovs off n = Some (e', f', s) -> P e';
}.

Lemma recover_keeps P w w' s : io_keeps P -> P (w_io w) -> recover w = Some (w', s) -> P (w_io w').
Proof.
  intros [_ Hst Htr Hrd Hsy _] Hp. unfold recover, fileSize.
  destruct (io_fstat _ _) as [e1 [n|]] eqn:E1; apply Hst in E1; [|done| |done]; [|by intros [= <- _]].
  cbn [set_core walOffset_]. destruct (_ =? 0); [by intros [= <- _]|].
  destruct (ReadAt _ _ _ _) as [[[e2 f2] [bs|st]]|] eqn:E2; [| |done]; apply Hrd in E2; try done; cbn [mbind option_bind];
    [|by intros [= <- _]].
  destruct (DecodeLog bs) as [[r|st]|]; [| |done]; cbn [mbind option_bind]; [|by intros [= <- _]].
  destruct (foldM _ _ _) as [[[mt sc] mx]|]; [|done]; cbn [mbind option_bind]. destruct (negb (_ =? _)); [|by intros [= <- _]].
  destruct (io_ftruncate _ _ _) as [[e3 f3] [|]] eqn:E3; apply Htr in E3; try done; cbn [negb]; [|by intros [= <- _]].
  destruct (FDataSync _ _) as [[[e4 f4] st]|] eqn:E4; [|done]; apply Hsy in E4; try done; cbn [mbind option_bind].
  destruct (negb (Status.ok st)); by intros [= <- _].
Qed.

Lemma writeGroup_keeps P w g w' s : io_keeps P -> P (w_io w) -> writeGroup w g = Some (w', s) -> P (w_io w').
Proof.
  intros [Hnow _ _ _ _ Hwr] Hp. unfold writeGroup.
  destruct (io_now (w_io w)) as [e1 t1] eqn:E1. apply Hnow in E1; [|done]. destruct (gatherBatches _ _) as [bv n].
  destruct (io_now e1) as [e2 t2] eqn:E2. apply Hnow in E2; [|done].
  destruct (encodeGroup _ _ _ _) as [[rec fb]|]; [|done]. cbn [mbind option_bind].
  destruct (io_now e2) as [e3 t3] eqn:E3. apply Hnow in E3; [|done].
  destruct (io_now e3) as [e4 t4] eqn:E4. apply Hnow in E4; [|done].
  destruct (WritevAndFDataSync _ _ _ _ _ _) as [[[e5 f5] st]|] eqn:E5; [|done]. apply Hwr in E5; [|done]. cbn [mbind option_bind].
  destruct (io_now e5) as [e6 t6] eqn:E6. apply Hnow in E6; [|done].
  destruct (negb (Status.ok st)); [by intros [= <- _]|].
  destruct (io_now e6) as [e7 t7] eqn:E7. apply Hnow in E7; [|done].
  destruct (ApplyBatches _ _ _ _) as [[mt up]|]; [|done]. cbn [mbind option_bind].
  destruct (io_now e7) as [e8 t8] eqn:E8. apply Hnow in E8; [|done].
  destruct (io_now e8) as [e9 t9] eqn:E9. apply Hnow in E9; [|done]. by intros [= <- _].
Qed.

Lemma run_groups_keeps P gs : io_keeps P -> forall w w' ss, P (w_io w) -> run_groups w gs = Some (w', ss) -> P (w_io w').
Proof.
  intros Hk. induction gs as [|g gs IH]; intros w w' ss Hp; cbn [run_groups]; [by intros [= <- _]|].
  destruct (writeGroup w g) as [[w1 s]|] eqn:E1; [|done]. cbn [mbind option_bind].
  destruct (run_groups w1 gs) as [[w2 ss2]|] eqn:E2; [|done]. cbn [mbind option_bind]. intros [= <- _].
  eapply IH; [|done]. by eapply writeGroup_keeps.
Qed.

(** *** Crashes *)

Lemma crash_decodes w imgs ds c :
  db_inv w imgs ds -> crash_image (w_file w) c -> zlen c < 2 ^ 62 ->
  DecodeLog c = shift_result ds (zlen (concat imgs)) <$> DecodeLog (drop (Z.to_nat (walOffset_ (w_db w))) c).
Proof.
  intros Hinv Hc Hlen. destruct (crash_keeps_log _ _ _ (inv_file _ _ _ Hinv) Hc) as [tail ->].
  rewrite (inv_offset _ _ _ Hinv), Nat2Z.id, drop_app_length.
  apply DecodeLog_app; [apply Hinv|done].
Qed.

Lemma recover_full (io : E) c : io_inv io -> zlen c < 2 ^ 62 -> reads_in_full (mkFile c c) ->
  exists w s, recover (mkWorld io (mkFile c c) DBCore_new) = Some (w, s) /\ io_inv (w_io w) /\
    (Status.ok s = true -> exists r, DecodeLog c = Some (RValue r) /\
       recovered (mkWorld io (mkFile c c) DBCore_new) w c r).
Proof.
  intros Hio Hlen Hfull.
  destruct (recover_spec (mkWorld io (mkFile c c) DBCore_new)) as (w & s & E1 & Hw & Hok); [done..|].
  exists w, s. split; [done|]. split; [done|]. intros Hs.
  destruct (Hok Hs) as (bs & r & Hrec & Hbs). rewrite (Hbs Hfull) in Hrec. cbn [w_file content] in Hrec.
  exists r. split; [apply Hrec|done].
Qed.

Lemma recover_up `{!IoUp E} (io : E) c : io_inv io -> zlen c < 2 ^ 62 -> reads_in_full (mkFile c c) ->
  exists w s, recover (mkWorld io (mkFile c c) DBCore_new) = Some (w, s) /\
    match DecodeLog c with
    | Some (RValue r) => s = Status.Ok
    | Some (RStatus e) => s = e /\ content (w_file w) = c
    | None => False
    end.
Proof.
  intros Hio Hlen Hfull. unfold recover, fileSize. cbn [w_io w_file w_db].
  destruct (up_fstat io (mkFile c c) Hio) as (io1 & n & Hst). rewrite Hst.
  apply fstat_spec in Hst as [Hio1 Hst]; [|done]. rewrite (Hst n eq_refl), u64_small by (cbn [content]; lia).
  cbn [set_core walOffset_ content]. destruct (Z.eqb_spec (zlen c) 0) as [H0|H0].
  { destruct c; [by do 2 eexists|len]. }
  destruct (up_read io1 (mkFile c c) (zlen c) 0 Hio1) as (io2 & f2 & bs & Hr).
  pose proof (Hfull io1 io2 f2 bs Hio1 Hr) as ->.
  destruct (ReadAt_spec io1 (mkFile c c) (zlen c) 0 Hio1 ltac:(lia) ltac:(lia)) as (io2' & f2' & r' & Hr' & Hio2 & Hc2 & _).
  cbn [content] in Hc2. rewrite Hr in Hr' |- *. injection Hr' as <- <- <-. cbn [mbind option_bind].
  cbn [content]. destruct (DecodeLog_total c Hlen) as (dr & Hd & _). rewrite Hd. cbn [mbind option_bind].
  destruct dr as [r|e]; [|by do 2 eexists].
  destruct (replay_loop (batches r) MemTable_new ∅ Scratch_new 0) as (mt & sc & E1 & _ & _);
    [apply new_refines|done|].
  cbn [set_core memtable_ writeScratch_]. change (memtable_ DBCore_new) with MemTable_new.
  change (writeScratch_ DBCore_new) with Scratch_new. rewrite E1. cbn [mbind option_bind set_core walOffset_].
  destruct (Z.eqb_spec (validBytes r) (zlen c)); cbn [negb]; [by do 2 eexists|].
  destruct (up_ftruncate io2 f2 (validBytes r) Hio2) as (io3 & f3 & Ht). rewrite Ht.
  apply ftruncate_spec in Ht as [Hio3 _]; [|done|rewrite Hc2; apply DecodeLog_kept in Hd; lia].
  destruct (up_sync io3 f3 Hio3) as (io4 & f4 & ->). cbn [mbind option_bind]. by do 2 eexists.
Qed.

End DbFacts.
