(* ===== verification/DbTheorems.v ===== *)
(** * The database: what its write path and its recovery promise

    The properties of [Db.v], against any system that meets [IoSpec], and the same on a
    simulated system, where two of them show how acknowledged writes can be lost. *)

From S2P Require Import Prelude Status Coding Crc32c WriteBatch Wal MemTable Io Db.

(** ** Properties *)

Section Properties.
Context {L : Libc} {C : Cpu} {E : Type} `{!Io E, !IoSpec E, !CpuSpec C}.

(** C13: a group is written as a whole or not at all. From any state that satisfies the
    invariant, [writeGroup] is defined; if it returns OK every entry of every batch of the
    group is visible, in order, on top of what was there; if it does not, every [Get]
    answers as before and neither the log's end nor the next sequence number moved. In
    both cases the invariant holds again, with the group's record at the end of the log
    exactly when it returned OK. *)
Theorem write_group_all_or_nothing (w : World E) imgs ds writers :
  db_inv w imgs ds -> group_ok writers ->
  walOffset_ (w_db w) + groups_bytes [writers] < 2 ^ 62 ->
  nextSequence_ (w_db w) + groups_entries [writers] < 2 ^ 64 ->
  exists w' s, writeGroup w writers = Some (w', s) /\
    if Status.ok s then
      db_inv w' (imgs ++ [record_bytes (nextSequence_ (w_db w)) (all_entries writers)])
        (ds ++ [mkDecodedBatch (nextSequence_ (w_db w)) (mkWriteBatch (all_entries writers))]) /\
      (forall k, DB_Get (w_db w') k = Some (kv_get (fold_left kv_apply (all_entries writers) (visible (replay ds))) k))
    else
      db_inv w' imgs ds /\ (forall k, DB_Get (w_db w') k = DB_Get (w_db w) k) /\
      walOffset_ (w_db w') = walOffset_ (w_db w) /\ nextSequence_ (w_db w') = nextSequence_ (w_db w).
Proof.
  intros Hinv [Hwf Henc] Hb Hn. unfold groups_bytes, groups_entries in *. cbn [foldr] in *.
  pose proof (length_record_bytes (nextSequence_ (w_db w)) (all_entries writers)).
  destruct (writeGroup_spec w imgs ds writers Hinv Hwf Henc) as (w' & s & E1 & Hok & Hfail); [lia..|].
  exists w', s. split; [done|]. destruct (Status.ok s).
  - destruct (Hok eq_refl) as [Hinv' _]. split; [done|]. intros k.
    by rewrite (DB_Get_inv _ _ _ k Hinv'), replay_snoc, visible_apply.
  - destruct (Hfail eq_refl) as (Hinv' & Hmt & Hnext). split; [done|]. split; [|split; [|done]].
    + intros k. unfold DB_Get. by rewrite Hmt.
    + by rewrite (inv_offset _ _ _ Hinv), (inv_offset _ _ _ Hinv').
Qed.

(** C9: the database is a key-value map. Start from an empty log and write any groups, of
    which the system may fail any: every group gets a status, and afterwards [Get] of any
    key answers what the map obtained from the acknowledged groups, in order, holds. *)
Theorem database_is_key_value_map (io : E) gs :
  io_inv io -> Forall group_ok gs -> groups_bytes gs < 2 ^ 62 -> groups_entries gs + 1 < 2 ^ 64 ->
  exists w ss, run_groups (mkWorld io empty_file DBCore_new) gs = Some (w, ss) /\
    length ss = length gs /\
    forall k, DB_Get (w_db w) k = Some (kv_get (fold_left kv_apply (acknowledged gs ss) ∅) k).
Proof.
  intros Hio Hgs Hb Hn. destruct (run_from_new io gs Hio Hgs Hb Hn) as (w & ss & imgs & ds & E1 & Hl & Hinv & Hack & _).
  exists w, ss. split; [done|]. split; [done|]. intros k.
  by rewrite (DB_Get_inv _ _ _ k Hinv), visible_replay, Hack.
Qed.


(** A reopened database continues where it was. After a run and a crash as above,
    if recovery returns OK, the recovered database satisfies the invariant of a running
    one, its file ends where its log ends, no sequence number of the log is used again,
    and any further groups apply on top: [Get] then answers from the acknowledged groups
    of the first run, the batches recovered from the tail and the acknowledged groups of
    the second run, in this order. *)
Theorem reopened_database_continues (io io2 : E) gs gs2 c w ss w2 s extra :
  io_inv io -> io_inv io2 -> Forall group_ok gs -> groups_bytes gs < 2 ^ 62 -> groups_entries gs + 2 < 2 ^ 64 ->
  zlen c < 2 ^ 62 -> reads_in_full (mkFile c c) ->
  run_groups (mkWorld io empty_file DBCore_new) gs = Some (w, ss) -> crash_image (w_file w) c ->
  DecodeLog (drop (Z.to_nat (walOffset_ (w_db w))) c) = Some (RValue extra) -> sequences_fit (batches extra) ->
  recover (mkWorld io2 (mkFile c c) DBCore_new) = Some (w2, s) -> Status.ok s = true ->
  Forall group_ok gs2 -> walOffset_ (w_db w2) + groups_bytes gs2 < 2 ^ 62 ->
  nextSequence_ (w_db w2) + groups_entries gs2 < 2 ^ 64 ->
  zlen (content (w_file w2)) = walOffset_ (w_db w2) /\
  exists w3 ss2, run_groups w2 gs2 = Some (w3, ss2) /\
    forall k, DB_Get (w_db w3) k = Some (kv_get (fold_left kv_apply (acknowledged gs ss
      ++ concat ((fun d => entries_ (batch d)) <$> batches extra) ++ acknowledged gs2 ss2) ∅) k).
Proof.
  intros Hio Hio2 Hgs Hb Hn Hlen Hfull Hrun Hc Hx Hfit Hr Hs Hgs2 Hb2 Hn2.
  destruct (run_from_new io gs Hio Hgs Hb ltac:(lia)) as (w' & ss' & imgs & ds & E1 & Hl & Hinv & Hack & Hnx).
  rewrite Hrun in E1. injection E1 as <- <-.
  destruct (recover_full io2 c Hio2 Hlen Hfull) as (w2' & s' & E2 & Hio2' & Hok).
  rewrite Hr in E2. injection E2 as <- <-. destruct (Hok Hs) as (r & Hd & Hrec).
  rewrite (crash_decodes _ _ _ _ Hinv Hc Hlen), Hx in Hd.
  cbn [fmap option_fmap option_map shift_result] in Hd. injection Hd as <-.
  destruct (recovered_inv _ _ _ Hio2' Hrec Hlen eq_refl) as (imgs2 & Hinv2 & Hc2).
  { apply Forall_app. split; [|done]. pose proof (inv_sequence _ _ _ Hinv) as Hq.
    eapply Forall_impl; [exact Hq|]. cbn beta. intros d Hd. lia. }
  split; [by rewrite Hc2, (inv_offset _ _ _ Hinv2)|].
  destruct (run_groups_spec gs2 w2 _ _ Hinv2 Hgs2 Hb2 Hn2) as (w3 & ss2 & imgs3 & ds3 & E3 & _ & Hinv3 & Hack3 & _ & _).
  exists w3, ss2. split; [done|]. intros k.
  rewrite (DB_Get_inv _ _ _ k Hinv3), visible_replay. cbn [batches].
  by rewrite !fmap_app, !concat_app, Hack, Hack3, <- app_assoc.
Qed.

(** Recovery fails only for a reason. On a system whose operations do not fail and
    that reads the file in full, [recover] returns OK when the file decodes, and otherwise
    the very error [DecodeLog] returned; a log left by whole records and a torn one is in
    the first case. *)
Theorem recover_reports_decoding `{!IoUp E} (io : E) c :
  io_inv io -> zlen c < 2 ^ 62 -> reads_in_full (mkFile c c) ->
  exists w s, recover (mkWorld io (mkFile c c) DBCore_new) = Some (w, s) /\
    match DecodeLog c with
    | Some (RValue r) => s = Status.Ok /\ content (w_file w) = take (Z.to_nat (validBytes r)) c
    | Some (RStatus e) => s = e /\ content (w_file w) = c
    | None => False
    end.
Proof.
  intros Hio Hlen Hfull. destruct (recover_up io c Hio Hlen Hfull) as (w & s & E1 & H).
  exists w, s. split; [done|]. destruct (DecodeLog_total c Hlen) as (dr & Hd & _). rewrite Hd in *.
  destruct dr as [r|e]; [|done]. subst s. split; [done|].
  destruct (recover_full io c Hio Hlen Hfull) as (w' & s' & E2 & _ & Hrec).
  rewrite E1 in E2. injection E2 as <- <-. destruct (Hrec eq_refl) as (r' & Hr' & Hrc).
  rewrite Hd in Hr'. injection Hr' as <-. by apply (recovered_content _ _ _ Hrc).
Qed.

(** Recovery is idempotent. Recovering the file a successful recovery left gives the
    same database: the same answers, log end and next sequence number; and the file is
    not changed again. *)
Theorem recover_idempotent (io io2 : E) c w s w2 s2 :
  io_inv io -> io_inv io2 -> zlen c < 2 ^ 62 -> reads_in_full (mkFile c c) ->
  recover (mkWorld io (mkFile c c) DBCore_new) = Some (w, s) -> Status.ok s = true ->
  reads_in_full (w_file w) ->
  recover (mkWorld io2 (w_file w) DBCore_new) = Some (w2, s2) -> Status.ok s2 = true ->
  (forall k, DB_Get (w_db w2) k = DB_Get (w_db w) k) /\ walOffset_ (w_db w2) = walOffset_ (w_db w) /\
  nextSequence_ (w_db w2) = nextSequence_ (w_db w) /\ content (w_file w2) = content (w_file w).
Proof.
  intros Hio Hio2 Hlen Hfull Hr Hs Hfull2 Hr2 Hs2.
  destruct (recover_full io c Hio Hlen Hfull) as (w' & s' & E1 & _ & Hok).
  rewrite Hr in E1. injection E1 as <- <-. destruct (Hok Hs) as (r & Hd & Hrec).
  pose proof (recovered_content _ _ _ Hrec) as Hc. cbn [w_file content] in Hc.
  destruct (DecodeLog_kept c r) as [Hk Hvb]; [lia|done|].
  destruct (recover_spec (mkWorld io2 (w_file w) DBCore_new)) as (w2' & s2' & E2 & _ & Hok2);
    [done|done|cbn [w_file]; rewrite Hc; len|].
  rewrite Hr2 in E2. injection E2 as <- <-. destruct (Hok2 Hs2) as (bs & r2 & Hrec2 & Hbs).
  rewrite (Hbs Hfull2) in Hrec2. pose proof (rec_decoded _ _ _ _ Hrec2) as Hd2.
  cbn [w_file] in Hd2. rewrite Hc, Hk in Hd2. injection Hd2 as <-.
  rewrite (rec_offset _ _ _ _ Hrec2), (rec_offset _ _ _ _ Hrec), (rec_next _ _ _ _ Hrec2), (rec_next _ _ _ _ Hrec).
  split; [|split; [done|split; [done|]]].
  - intros k. unfold DB_Get. by rewrite (Get_refines _ _ k (rec_memtable _ _ _ _ Hrec)),
      (Get_refines _ _ k (rec_memtable _ _ _ _ Hrec2)).
  - rewrite (recovered_content _ _ _ Hrec2). cbn [w_file]. rewrite Hc, take_take. f_equal. lia.
Qed.

End Properties.

(** ** Examples *)

(** Everything below runs on the simulated system. *)
#[local] Existing Instance reference_libc.
#[local] Existing Instance reference_cpu.

Definition put_group (k v : bytes) : list WriteBatchT := [build_batch [BPut k v]].

Lemma put_group_ok (k v : bytes) : zlen k + zlen v < 1000 -> group_ok (put_group k v).
Proof.
  intros H. split; [repeat (constructor; [apply build_batch_wf|]); constructor|].
  unfold encodable, put_group, all_entries. cbn. unfold entries_bytes. cbn. len.
Qed.

Definition sample_io : sim 4096 := mkSim 0 [WriteDone; WriteDone; WriteShort 10].

Definition sample_groups : list (list WriteBatchT) :=
  [put_group (str "a") (str "1"); put_group (str "a") (str "2"); put_group (str "b") (str "3")].

Lemma sample_groups_ok : Forall group_ok sample_groups.
Proof. repeat (constructor; [by apply put_group_ok|]). constructor. Qed.

(** What a client sees: the statuses of the groups and what [Get] answers for some keys,
    before and after the database is reopened on the file the run left. *)
Record observed := mkObserved {
  obs_groups : list StatusCode;
  obs_gets : list (Result bytes);
  obs_file_size : Z;
  obs_reopen : StatusT;
  obs_gets_after : list (Result bytes);
  obs_file_size_after : Z;
}.

Definition run_and_reopen {cap} (io io2 : sim cap) (gs : list (list WriteBatchT)) (keys : list bytes)
    : option observed :=
  '(w, ss) ← run_groups (mkWorld io empty_file DBCore_new) gs;
  gets ← mapM (DB_Get (w_db w)) keys;
  '(w2, s) ← recover (mkWorld io2 (w_file w) DBCore_new);
  gets2 ← mapM (DB_Get (w_db w2)) keys;
  Some (mkObserved (code_ <$> ss) gets (zlen (content (w_file w))) s gets2 (zlen (content (w_file w2)))).



(** The run of the sample groups: the third leaves ten bytes behind the log. *)
Definition new_world (io : sim 4096) : World (sim 4096) := mkWorld io empty_file DBCore_new.

Definition sample_run : World (sim 4096) * list StatusT :=
  default (new_world sample_io, []) (run_groups (new_world sample_io) sample_groups).

Definition sample_crash : bytes := content (w_file sample_run.1).

Definition sample_reopened : World (sim 4096) * StatusT :=
  default (new_world sample_io, Status.Ok) (recover (mkWorld sample_io (mkFile sample_crash sample_crash) DBCore_new)).

Lemma sample_crash_read : reads_in_full (E := sim 4096) (mkFile sample_crash sample_crash).
Proof. apply sim_reads_in_full. vm_compute. lia. Qed.

Lemma write_group_all_or_nothing_witness :
  exists w' s, writeGroup (new_world sample_io) (put_group (str "a") (str "1")) = Some (w', s) /\
    (Status.ok s = true -> DB_Get (w_db w') (str "a") = Some (RValue (str "1"))).
Proof.
  destruct (write_group_all_or_nothing (new_world sample_io) [] [] (put_group (str "a") (str "1")))
    as (w' & s & E1 & H).
  - apply new_inv. exact I.
  - apply put_group_ok. vm_compute. reflexivity.
  - vm_compute. reflexivity.
  - vm_compute. reflexivity.
  - exists w', s. split; [exact E1|]. intros Hs. rewrite Hs in H. destruct H as [_ H].
    rewrite H. vm_compute. reflexivity.
Defined.

Lemma database_is_key_value_map_witness :
  exists w ss, run_groups (mkWorld sample_io empty_file DBCore_new) sample_groups = Some (w, ss) /\
    length ss = 3%nat /\
    forall k, DB_Get (w_db w) k = Some (kv_get (fold_left kv_apply (acknowledged sample_groups ss) ∅) k).
Proof.
  apply (database_is_key_value_map sample_io sample_groups).
  - exact I.
  - exact sample_groups_ok.
  - vm_compute. reflexivity.
  - vm_compute. reflexivity.
Defined.


Lemma reopened_database_continues_witness :
  zlen (content (w_file sample_reopened.1)) = walOffset_ (w_db sample_reopened.1) /\
  exists w3 ss2, run_groups sample_reopened.1 [put_group (str "c") (str "4")] = Some (w3, ss2).
Proof.
  destruct (reopened_database_continues sample_io sample_io sample_groups [put_group (str "c") (str "4")]
    sample_crash sample_run.1 sample_run.2 sample_reopened.1 sample_reopened.2 (mkDecodeResult [] 0))
    as (Hsize & w3 & ss2 & E1 & _).
  - exact I.
  - exact I.
  - exact sample_groups_ok.
  - vm_compute. reflexivity.
  - vm_compute. reflexivity.
  - vm_compute. reflexivity.
  - exact sample_crash_read.
  - vm_compute. reflexivity.
  - intros i b Hi _. exact Hi.
  - vm_compute. reflexivity.
  - constructor.
  - vm_compute. reflexivity.
  - vm_compute. reflexivity.
  - constructor; [apply put_group_ok; vm_compute; reflexivity|constructor].
  - vm_compute. reflexivity.
  - vm_compute. reflexivity.
  - split; [exact Hsize|]. exists w3, ss2. exact E1.
Defined.

Lemma recover_reports_decoding_witness :
  exists w s, recover (mkWorld sample_io (mkFile sample_crash sample_crash) DBCore_new) = Some (w, s) /\
    s = Status.Ok /\ content (w_file w) = take 64 sample_crash.
Proof.
  destruct (recover_reports_decoding sample_io sample_crash) as (w & s & E1 & H).
  - exact I.
  - vm_compute. reflexivity.
  - exact sample_crash_read.
  - exists w, s. split; [exact E1|].
    assert (exists r, DecodeLog sample_crash = Some (RValue r) /\ Z.to_nat (validBytes r) = 64%nat) as (r & Hd & Hv)
      by (eexists; split; vm_compute; reflexivity).
    rewrite Hd, Hv in H. exact H.
Defined.

Definition sample_reopened_twice : World (sim 4096) * StatusT :=
  default (new_world sample_io, Status.Ok) (recover (mkWorld sample_io (w_file sample_reopened.1) DBCore_new)).

Lemma recover_idempotent_witness :
  nextSequence_ (w_db sample_reopened_twice.1) = nextSequence_ (w_db sample_reopened.1) /\
  content (w_file sample_reopened_twice.1) = content (w_file sample_reopened.1).
Proof.
  destruct (recover_idempotent sample_io sample_io sample_crash sample_reopened.1 sample_reopened.2
    sample_reopened_twice.1 sample_reopened_twice.2) as (_ & _ & H1 & H2).
  - exact I.
  - exact I.
  - vm_compute. reflexivity.
  - exact sample_crash_read.
  - vm_compute. reflexivity.
  - vm_compute. reflexivity.
  - apply sim_reads_in_full. vm_compute. lia.
  - vm_compute. reflexivity.
  - vm_compute. reflexivity.
  - split; [exact H1|exact H2].
Defined.
