(* ===== verification/WriterQueue.v ===== *)
(** * The writer queue (include/storage_engine/db.h, src/db.cc)

    [enqueueAsyncWriter], [writerLoop] and the destructor, as threads that take turns at
    the sections of code they run with [writeMutex_] held. Every such section is a
    definition; [wstep] interleaves them. [writeGroup] is a parameter here. *)

From stdpp Require Import relations.
From S2P Require Import Prelude Status WriteBatch Db.

(** [DB::Writer]; writers are known by their addresses. *)
Record Writer := mkWriter {
  writer_batch : WriteBatchT;
  writer_status : StatusT;
  writer_continuation : option Z;
}.

(** The members [writeMutex_] protects. *)
Record Queue := mkQueue {
  writers_ : list Z;
  writing_ : bool;
  groupCommitArmed_ : bool;
  stopWriter_ : bool;
  asyncWriterSuspensions_ : Z;
  groupCommitWaits_ : Z;
  adaptiveGroupCommitWaits_ : Z;
  writeGroups_ : Z;
  maxWriteGroupSize_ : Z;
  writerThreadDrains_ : Z;
  inlineWriterDrains_ : Z;
  writerResumeMicros_ : Z;
}.

Definition Queue_new : Queue := mkQueue [] false false false 0 0 0 0 0 0 0 0.

(** ** [enqueueAsyncWriter] *)

(** The first locked section: write at once ([true]) or queue. *)
Definition enqueueLocked (q : Queue) (writer : Z) : Queue * bool :=
  let suspensions := u64 (asyncWriterSuspensions_ q + 1) in
  if negb (writing_ q) && bool_decide (writers_ q = []) && negb (groupCommitArmed_ q) then
    (mkQueue (writers_ q) true (groupCommitArmed_ q) (stopWriter_ q) suspensions (groupCommitWaits_ q)
       (adaptiveGroupCommitWaits_ q) (writeGroups_ q) (maxWriteGroupSize_ q) (writerThreadDrains_ q)
       (u64 (inlineWriterDrains_ q + 1)) (writerResumeMicros_ q), true)
  else
    let ws := writers_ q ++ [writer] in
    (mkQueue ws (writing_ q) (groupCommitArmed_ q || (writing_ q || (zlen ws >? 1))) (stopWriter_ q) suspensions
       (groupCommitWaits_ q) (adaptiveGroupCommitWaits_ q) (writeGroups_ q) (maxWriteGroupSize_ q)
       (writerThreadDrains_ q) (inlineWriterDrains_ q) (writerResumeMicros_ q), false).

Definition set_status (heap : gmap Z Writer) (status : StatusT) (w : Z) : gmap Z Writer :=
  match heap !! w with
  | Some x => <[w := mkWriter (writer_batch x) status (writer_continuation x)]> heap
  | None => heap
  end.

(** The second one, after [writeGroup]. *)
Definition inlineDoneLocked (q : Queue) : Queue :=
  mkQueue (writers_ q) false (groupCommitArmed_ q) (stopWriter_ q) (asyncWriterSuspensions_ q) (groupCommitWaits_ q)
    (adaptiveGroupCommitWaits_ q) (u64 (writeGroups_ q + 1)) (Z.max (maxWriteGroupSize_ q) 1) (writerThreadDrains_ q)
    (inlineWriterDrains_ q) (writerResumeMicros_ q).

(** ** [writerLoop] *)

Definition loopPredicate (q : Queue) : bool :=
  stopWriter_ q || (negb (writing_ q) && negb (bool_decide (writers_ q = []))).

Definition windowPredicate (q : Queue) (targetSize : Z) : bool :=
  stopWriter_ q || (zlen (writers_ q) >=? targetSize).

(** After the wait: return, or take the write over, with the time to wait for more writers
    and their number if the group is to be collected. *)
Definition loopWakeLocked (opts : Options) (q : Queue) : option (Queue * option (Z * Z)) :=
  if stopWriter_ q && bool_decide (writers_ q = []) then None else
  if groupCommitArmed_ q || (zlen (writers_ q) >? 1) then
    let adaptive := adaptiveGroupCommit opts && (zlen (writers_ q) >=? highPressureGroupCommitQueueThreshold opts) in
    let window := if adaptive
      then (highPressureGroupCommitWindowMicros opts, highPressureGroupCommitTargetSize opts)
      else (groupCommitWindowMicros opts, groupCommitTargetSize opts) in
    Some (mkQueue (writers_ q) true false (stopWriter_ q) (asyncWriterSuspensions_ q)
      (u64 (groupCommitWaits_ q + 1))
      (if adaptive then u64 (adaptiveGroupCommitWaits_ q + 1) else adaptiveGroupCommitWaits_ q)
      (writeGroups_ q) (maxWriteGroupSize_ q) (writerThreadDrains_ q) (inlineWriterDrains_ q)
      (writerResumeMicros_ q), Some window)
  else
    Some (mkQueue (writers_ q) true (groupCommitArmed_ q) (stopWriter_ q) (asyncWriterSuspensions_ q)
      (groupCommitWaits_ q) (adaptiveGroupCommitWaits_ q) (writeGroups_ q) (maxWriteGroupSize_ q)
      (writerThreadDrains_ q) (inlineWriterDrains_ q) (writerResumeMicros_ q), None).

(** The loop over [writers_]: the front moves to the group until none is left. *)
Fixpoint drainWriters (ws group : list Z) : list Z :=
  match ws with
  | [] => group
  | w :: ws => drainWriters ws (group ++ [w])
  end.

Definition drainLocked (q : Queue) : Queue * list Z :=
  (mkQueue [] (writing_ q) (groupCommitArmed_ q) (stopWriter_ q) (asyncWriterSuspensions_ q) (groupCommitWaits_ q)
     (adaptiveGroupCommitWaits_ q) (writeGroups_ q) (maxWriteGroupSize_ q) (u64 (writerThreadDrains_ q + 1))
     (inlineWriterDrains_ q) (writerResumeMicros_ q), drainWriters (writers_ q) []).

(** After [writeGroup]: the statuses, and the continuations to resume. *)
Definition loopDoneLocked (q : Queue) (group : list Z) : Queue :=
  mkQueue (writers_ q) false (groupCommitArmed_ q || (zlen group >? 1)) (stopWriter_ q) (asyncWriterSuspensions_ q)
    (groupCommitWaits_ q) (adaptiveGroupCommitWaits_ q) (u64 (writeGroups_ q + 1))
    (Z.max (maxWriteGroupSize_ q) (zlen group)) (writerThreadDrains_ q) (inlineWriterDrains_ q) (writerResumeMicros_ q).

Definition continuations (heap : gmap Z Writer) (group : list Z) : list Z :=
  omap (fun w => x ← heap !! w; writer_continuation x) group.

Definition resumeLocked (q : Queue) (micros : Z) : Queue :=
  mkQueue (writers_ q) (writing_ q) (groupCommitArmed_ q) (stopWriter_ q) (asyncWriterSuspensions_ q)
    (groupCommitWaits_ q) (adaptiveGroupCommitWaits_ q) (writeGroups_ q) (maxWriteGroupSize_ q)
    (writerThreadDrains_ q) (inlineWriterDrains_ q) (u64 (writerResumeMicros_ q + micros)).

(** The destructor's locked section. *)
Definition stopLocked (q : Queue) : Queue :=
  mkQueue (writers_ q) (writing_ q) (groupCommitArmed_ q) true (asyncWriterSuspensions_ q) (groupCommitWaits_ q)
    (adaptiveGroupCommitWaits_ q) (writeGroups_ q) (maxWriteGroupSize_ q) (writerThreadDrains_ q)
    (inlineWriterDrains_ q) (writerResumeMicros_ q).

(** ** The threads *)

(** Where the writer thread is: at the wait (asleep in it or about to look), in the window
    in which it collects writers, writing a group, resuming continuations (and whether there
    were any), or gone. *)
Inductive loop_pc :=
  | LWait (asleep : bool)
  | LWindow (waitMicros targetSize : Z)
  | LWrite (group : list Z)
  | LResume (any : bool) (conts : list Z)
  | LGone.

(** A group that was written: whether by the writer thread, its writers, its status. *)
Record done := mkDone { done_by_thread : bool; done_group : list Z; done_status : StatusT }.

Record QSys (W : Type) := mkQSys {
  s_q : Queue;
  s_heap : gmap Z Writer;
  s_world : W;
  (** The caller that writes its own batch, between its two locked sections. *)
  s_inline : option Z;
  (** Threads that have left a locked section and are about to notify. *)
  s_notifying : nat;
  s_loop : loop_pc;
  (** What happened: writers in the order they came, groups in the order they were written
      with the status they got, continuations in the order they were resumed. *)
  s_came : list Z;
  s_written : list done;
  s_resumed : list Z;
}.
Arguments mkQSys {W} s_q s_heap s_world s_inline s_notifying s_loop s_came s_written s_resumed.
Arguments s_q {W} q.
Arguments s_heap {W} q.
Arguments s_world {W} q.
Arguments s_inline {W} q.
Arguments s_notifying {W} q.
Arguments s_loop {W} q.
Arguments s_came {W} q.
Arguments s_written {W} q.
Arguments s_resumed {W} q.

(** [notify_one] and [notify_all]: the writer thread is the only one that waits. *)
Definition notify (l : loop_pc) : loop_pc := match l with LWait _ => LWait false | l => l end.

(** [WriteAwaiter]: an empty batch does not suspend; the others come with [Status::Ok()]. *)
Definition await_ready (b : WriteBatchT) : bool := bool_decide (entries_ b = []).
Definition new_writer (b : WriteBatchT) (continuation : option Z) : Writer := mkWriter b Status.Ok continuation.
Definition await_resume (x : Writer) : StatusT := writer_status x.

Section Threads.
Context {W : Type} (write : W -> list WriteBatchT -> option (W * StatusT)) (opts : Options).

Definition batches_of (heap : gmap Z Writer) (group : list Z) : option (list WriteBatchT) :=
  mapM (fun w => writer_batch <$> heap !! w) group.

Definition QSys_new (w : W) : QSys W := mkQSys Queue_new ∅ w None 0 (LWait false) [] [] [].

Definition set_loop (s : QSys W) (q : Queue) (l : loop_pc) : QSys W :=
  mkQSys q (s_heap s) (s_world s) (s_inline s) (s_notifying s) l (s_came s) (s_written s) (s_resumed s).

(** What the threads do by themselves. The writer thread's own [notify_one] finds nobody
    waiting: it is the only thread that does. *)
Inductive istep : QSys W -> QSys W -> Prop :=
  | InlineWrite s w bs world' status : s_inline s = Some w -> batches_of (s_heap s) [w] = Some bs ->
      write (s_world s) bs = Some (world', status) ->
      istep s (mkQSys (inlineDoneLocked (s_q s)) (set_status (s_heap s) status w) world' None (S (s_notifying s))
        (s_loop s) (s_came s) (s_written s ++ [mkDone false [w] status]) (s_resumed s))
  | Notify s n : s_notifying s = S n ->
      istep s (mkQSys (s_q s) (s_heap s) (s_world s) (s_inline s) n (notify (s_loop s)) (s_came s) (s_written s) (s_resumed s))
  | LoopSleep s : s_loop s = LWait false -> loopPredicate (s_q s) = false ->
      istep s (set_loop s (s_q s) (LWait true))
  | LoopReturn s : s_loop s = LWait false -> loopPredicate (s_q s) = true -> loopWakeLocked opts (s_q s) = None ->
      istep s (set_loop s (s_q s) LGone)
  | LoopCollect s q' waitMicros targetSize : s_loop s = LWait false -> loopPredicate (s_q s) = true ->
      loopWakeLocked opts (s_q s) = Some (q', Some (waitMicros, targetSize)) ->
      istep s (set_loop s q' (LWindow waitMicros targetSize))
  | LoopDrainNow s q' : s_loop s = LWait false -> loopPredicate (s_q s) = true ->
      loopWakeLocked opts (s_q s) = Some (q', None) ->
      istep s (set_loop s (drainLocked q').1 (LWrite (drainLocked q').2))
  | LoopDrainWindow s waitMicros targetSize expired : s_loop s = LWindow waitMicros targetSize ->
      expired || windowPredicate (s_q s) targetSize = true ->
      istep s (set_loop s (drainLocked (s_q s)).1 (LWrite (drainLocked (s_q s)).2))
  | LoopWrite s group bs world' status : s_loop s = LWrite group -> batches_of (s_heap s) group = Some bs ->
      write (s_world s) bs = Some (world', status) ->
      istep s (mkQSys (loopDoneLocked (s_q s) group) (fold_left (fun h w => set_status h status w) group (s_heap s)) world'
        (s_inline s) (s_notifying s)
        (LResume (negb (bool_decide (continuations (s_heap s) group = []))) (continuations (s_heap s) group))
        (s_came s) (s_written s ++ [mkDone true group status]) (s_resumed s))
  | LoopResumeOne s any c cs : s_loop s = LResume any (c :: cs) ->
      istep s (mkQSys (s_q s) (s_heap s) (s_world s) (s_inline s) (s_notifying s) (LResume any cs) (s_came s)
        (s_written s) (s_resumed s ++ [c]))
  | LoopResumed s any micros : s_loop s = LResume any [] ->
      istep s (set_loop s (if any : bool then resumeLocked (s_q s) micros else s_q s) (LWait false)).

(** What comes from outside: a writer (none after the destructor has begun), a spurious
    return from the wait, the destructor (not while a caller is in a write: the caller
    must see to it that nobody uses the database any more). *)
Inductive estep : QSys W -> QSys W -> Prop :=
  | EnqueueInline s w b c q' : stopWriter_ (s_q s) = false -> await_ready b = false -> s_heap s !! w = None ->
      enqueueLocked (s_q s) w = (q', true) ->
      estep s (mkQSys q' (<[w := new_writer b c]> (s_heap s)) (s_world s) (Some w) (s_notifying s) (s_loop s)
        (s_came s ++ [w]) (s_written s) (s_resumed s))
  | EnqueueQueued s w b c q' : stopWriter_ (s_q s) = false -> await_ready b = false -> s_heap s !! w = None ->
      enqueueLocked (s_q s) w = (q', false) ->
      estep s (mkQSys q' (<[w := new_writer b c]> (s_heap s)) (s_world s) (s_inline s) (s_notifying s) (notify (s_loop s))
        (s_came s ++ [w]) (s_written s) (s_resumed s))
  | Spurious s : s_loop s = LWait true -> estep s (set_loop s (s_q s) (LWait false))
  | Stop s : s_inline s = None ->
      estep s (mkQSys (stopLocked (s_q s)) (s_heap s) (s_world s) (s_inline s) (S (s_notifying s)) (s_loop s)
        (s_came s) (s_written s) (s_resumed s)).

Definition wstep (s s' : QSys W) : Prop := istep s s' \/ estep s s'.

Definition reachable (w : W) (s : QSys W) : Prop := rtc wstep (QSys_new w) s.

(** The groups, written one after the other. *)
Fixpoint run_writes (w : W) (gs : list (list WriteBatchT)) : option (W * list StatusT) :=
  match gs with
  | [] => Some (w, [])
  | g :: gs =>
      '(w, s) ← write w g;
      '(w, ss) ← run_writes w gs;
      Some (w, s :: ss)
  end.

End Threads.

(** One step, and the state it leads to, evaluated. *)
Ltac take_step t :=
  eapply rtc_l; [t|];
  match goal with |- rtc _ ?s _ => let s' := eval vm_compute in s in change s with s' end.
