(* ===== verification/WriterQueueFacts.v ===== *)
(** * Invariants of the writer queue

    What holds in every state the threads of [WriterQueue] can reach, one group of facts
    after the other: whose turn it is to write, the order of the writers, what was written
    and the statuses, the continuations, the statistics. *)

From stdpp Require Import relations.
From S2P Require Import Prelude Status WriteBatch Db WriterQueue.

#[local] Arguments continuations : simpl never.

Section Facts.
Context {W : Type} (write : W -> list WriteBatchT -> option (W * StatusT)) (opts : Options).

Abbreviation istep := (istep write opts).
Abbreviation wstep := (wstep write opts).
Abbreviation reachable := (reachable write opts).

(** ** Whose turn it is *)

Definition busy (l : loop_pc) : bool := match l with LWindow _ _ | LWrite _ => true | _ => false end.
Definition inlining (s : QSys W) : bool := match s_inline s with Some _ => true | None => false end.

Record turn_inv (s : QSys W) : Prop := {
  ti_writing : writing_ (s_q s) = inlining s || busy (s_loop s);
  ti_one : inlining s && busy (s_loop s) = false;
  ti_stop : stopWriter_ (s_q s) = true -> s_inline s = None;
  ti_gone : s_loop s = LGone -> stopWriter_ (s_q s) = true /\ writers_ (s_q s) = [];
  ti_asleep : s_loop s = LWait true -> loopPredicate (s_q s) = false \/ (0 < s_notifying s)%nat;
  ti_work : match s_loop s with LWindow _ _ => writers_ (s_q s) <> [] | LWrite g => g <> [] | _ => True end;
}.

Lemma drainWriters_spec ws group : drainWriters ws group = group ++ ws.
Proof.
  revert group. induction ws as [|w ws IH]; intros group; cbn; [by rewrite app_nil_r|].
  by rewrite IH, <- app_assoc.
Qed.

(** What [enqueueLocked] decides. *)
Lemma enqueueLocked_inline q w q' : enqueueLocked q w = (q', true) ->
  writing_ q = false /\ writers_ q = [] /\ writing_ q' = true /\ writers_ q' = [] /\ stopWriter_ q' = stopWriter_ q.
Proof.
  unfold enqueueLocked. destruct (writing_ q) eqn:?; cbn; [congruence|].
  case_bool_decide; cbn; [|congruence]. destruct (groupCommitArmed_ q); cbn; [congruence|].
  intros [= <-]. done.
Qed.

Lemma enqueueLocked_queued q w q' : enqueueLocked q w = (q', false) ->
  writers_ q' = writers_ q ++ [w] /\ writing_ q' = writing_ q /\ stopWriter_ q' = stopWriter_ q.
Proof. unfold enqueueLocked. case_match; intros [= <-]. done. Qed.

(** The writer thread that goes on has writers to write, and the turn. *)
Lemma loopWake_some q q' win : loopPredicate q = true -> loopWakeLocked opts q = Some (q', win) ->
  writers_ q <> [] /\ writers_ q' = writers_ q /\ writing_ q' = true /\ stopWriter_ q' = stopWriter_ q.
Proof.
  unfold loopPredicate, loopWakeLocked. intros Hp Hw.
  destruct (stopWriter_ q) eqn:Hs, (writers_ q) eqn:Hq; cbn in Hp, Hw; try congruence;
    try (by rewrite andb_false_r in Hp); case_match; simplify_eq/=; repeat split; congruence.
Qed.

Lemma loopWake_none q : loopWakeLocked opts q = None -> stopWriter_ q = true /\ writers_ q = [].
Proof.
  unfold loopWakeLocked. destruct (stopWriter_ q); cbn; [|by case_match].
  case_bool_decide; [done|]. by case_match.
Qed.

(** The writer thread at its wait may take the turn: nobody has it, or nobody will. *)
Lemma turn_free s : turn_inv s -> s_loop s = LWait false -> loopPredicate (s_q s) = true -> s_inline s = None.
Proof.
  intros Hi Hl Hp. unfold loopPredicate in Hp. pose proof (ti_writing s Hi) as Hw. pose proof (ti_stop s Hi) as Hs.
  unfold inlining in Hw. rewrite Hl in Hw. destruct (stopWriter_ (s_q s)); [by apply Hs|].
  destruct (s_inline s); [|done]. by rewrite Hw in Hp.
Qed.

(** The cases of a step of the threads, and of a step from outside. *)
Ltac istep_cases H :=
  destruct H as [s w bs world' status Hin Hbs Hwr|s n Hnn|s Hl Hp|s Hl Hp Hk|s q' a b Hl Hp Hk|s q' Hl Hp Hk
    |s a b e Hl He|s group bs world' status Hl Hbs Hwr|s any c cs Hl|s any micros Hl].
Ltac estep_cases H :=
  destruct H as [s w b c q' Hst Hready Hnew Henq|s w b c q' Hst Hready Hnew Henq|s Hl|s Hin].

(** In a state with its fields apart. *)
Ltac open_state s :=
  destruct s as [q heap world inline n0 loop came written resumed]; cbn in *; subst; cbn in *.

Ltac turn_solve :=
  split; unfold loopPredicate, inlining in *; cbn in *; intros; simplify_eq/=;
  try match goal with H : ?x = ?x -> _ |- _ => specialize (H eq_refl) end;
  try (intuition (congruence || lia || auto)).

Lemma turn_inv_istep s s' : turn_inv s -> istep s s' -> turn_inv s'.
Proof.
  intros Hi Hstep. pose proof (turn_free s Hi) as Hfree. destruct Hi as [Hw H1 Hs Hg Ha Hn]. unfold inlining in *.
  istep_cases Hstep;
    try (apply loopWake_some in Hk as (Hne' & Hq' & Hw' & Hs'); [|done]; specialize (Hfree Hl Hp));
    try apply loopWake_none in Hk as [Hk1 Hk2]; open_state s; try rewrite drainWriters_spec; try rewrite Hq'.
  all: try destruct any; try destruct loop; turn_solve.
Qed.

Lemma turn_inv_estep s s' : turn_inv s -> estep s s' -> turn_inv s'.
Proof.
  intros Hi Hstep. destruct Hi as [Hw H1 Hs Hg Ha Hn]. unfold inlining in *.
  estep_cases Hstep; try apply enqueueLocked_inline in Henq as (Hw0 & Hq0 & Hw' & Hq' & Hs');
    try apply enqueueLocked_queued in Henq as (Hq' & Hw' & Hs'); open_state s; try destruct loop; try destruct inline;
    cbn in *; try congruence; turn_solve.
  - left. by rewrite Hw', Hs', Hst.
  - match goal with H : writers_ q' = [] |- _ => rewrite H in Hq' end. by destruct (writers_ q).
Qed.

(** ** The order of the writers *)

(** Writers taken out of the queue whose group is being written. *)
Definition in_hand (s : QSys W) : list Z :=
  option_list (s_inline s) ++ match s_loop s with LWrite g => g | _ => [] end.

Record order_inv (s : QSys W) : Prop := {
  oi_fifo : concat (done_group <$> s_written s) ++ in_hand s ++ writers_ (s_q s) = s_came s;
  oi_nodup : NoDup (s_came s);
  oi_heap : forall w, w ∈ s_came s -> is_Some (s_heap s !! w);
}.

Lemma set_status_is_Some h st w w' : is_Some (h !! w') -> is_Some (set_status h st w !! w').
Proof.
  unfold set_status. destruct (h !! w) eqn:E; [|done]. rewrite lookup_insert_is_Some'. auto.
Qed.

Lemma set_statuses_is_Some st group h w' : is_Some (h !! w') ->
  is_Some (fold_left (fun h w => set_status h st w) group h !! w').
Proof. apply (fold_left_inv (fun h => is_Some (h !! w'))). intros. by apply set_status_is_Some. Qed.

Lemma order_inv_istep s s' : turn_inv s -> order_inv s -> istep s s' -> order_inv s'.
Proof.
  intros Ht [Hf Hn Hh] Hstep. pose proof (ti_one s Ht) as H1. unfold in_hand, inlining in *.
  istep_cases Hstep; try (apply loopWake_some in Hk as (_ & Hq' & _); [|done]); open_state s; split; cbn; try done;
    unfold in_hand; cbn; rewrite ?drainWriters_spec, ?fmap_app, ?concat_app; cbn; simplify_list_eq;
    rewrite ?app_nil_r, <- ?app_assoc; try done.
  - intros. by apply set_status_is_Some, Hh.
  - by destruct loop.
  - by rewrite Hq'.
  - by rewrite Hq'.
  - by destruct inline.
  - intros. by apply set_statuses_is_Some, Hh.
  - by destruct any.
Qed.

Lemma order_inv_estep s s' : turn_inv s -> order_inv s -> estep s s' -> order_inv s'.
Proof.
  intros Ht [Hf Hn Hh] Hstep. pose proof (ti_writing s Ht) as Hw. unfold in_hand, inlining in *.
  assert (forall w x, s_heap s !! w = None -> NoDup (s_came s ++ [w]) /\
    forall w', w' ∈ s_came s ++ [w] -> is_Some (<[w := x]> (s_heap s) !! w')) as Hfresh.
  { intros w x Hx. split.
    - apply NoDup_app. split; [done|]. split; [|apply NoDup_singleton].
      intros w' Hw' ->%list_elem_of_singleton. apply Hh in Hw' as [? ?]. congruence.
    - intros w' [Hw'|Hw']%elem_of_app; apply lookup_insert_is_Some'; [auto|].
      apply list_elem_of_singleton in Hw'. auto. }
  estep_cases Hstep; try apply enqueueLocked_inline in Henq as (Hw0 & Hq0 & _ & Hq' & _);
    try apply enqueueLocked_queued in Henq as (Hq' & _); try (destruct (Hfresh w (new_writer b c) Hnew));
    split; try done; unfold in_hand; cbn.
  - rewrite Hw0 in Hw. rewrite <- Hf, Hq', Hq0. destruct (s_inline s), (s_loop s); by rewrite ?app_nil_r.
  - rewrite <- Hf, Hq', <- !app_assoc. by destruct (s_loop s).
  - rewrite <- Hf. by rewrite Hl.
Qed.

(** ** What was written *)

(** Writers keep their batch and their continuation. *)
Definition same_writers (h h' : gmap Z Writer) (w : Z) : Prop :=
  writer_batch <$> h' !! w = writer_batch <$> h !! w /\
  writer_continuation <$> h' !! w = writer_continuation <$> h !! w.

Lemma same_set_status h st w w' : same_writers h (set_status h st w) w'.
Proof.
  unfold same_writers, set_status. destruct (h !! w) eqn:E; [|done].
  destruct (decide (w = w')) as [->|Hne]; [by rewrite lookup_insert_eq, E|by rewrite lookup_insert_ne].
Qed.

Lemma same_set_statuses st group : forall h w',
  same_writers h (fold_left (fun h w => set_status h st w) group h) w'.
Proof.
  induction group as [|w group IH]; intros h w'; cbn; [done|].
  destruct (IH (set_status h st w) w') as [E1 E2].
  split; [rewrite E1|rewrite E2]; apply same_set_status.
Qed.

Lemma same_fresh h w x w' : h !! w = None -> is_Some (h !! w') -> same_writers h (<[w := x]> h) w'.
Proof. intros Hw [? Hw']. unfold same_writers. rewrite lookup_insert_ne by congruence. done. Qed.

Lemma batches_of_same h h' group : (forall w, w ∈ group -> same_writers h h' w) ->
  batches_of h' group = batches_of h group.
Proof.
  intros Hs. unfold batches_of. induction group as [|w group IH]; cbn; [done|].
  destruct (Hs w) as [-> _]; [by left|]. rewrite IH; [done|]. intros. apply Hs. by right.
Qed.

Lemma continuations_same h h' group : (forall w, w ∈ group -> same_writers h h' w) ->
  continuations h' group = continuations h group.
Proof.
  intros Hs. unfold continuations. induction group as [|w group IH]; cbn; [done|].
  destruct (Hs w) as [_ Hc]; [by left|]. rewrite IH by (intros; apply Hs; by right).
  destruct (h' !! w), (h !! w); cbn in *; simplify_eq/=; try done. by rewrite Hc.
Qed.

Lemma continuations_app h g1 g2 : continuations h (g1 ++ g2) = continuations h g1 ++ continuations h g2.
Proof. apply omap_app. Qed.

Definition has_status (h : gmap Z Writer) (st : StatusT) (w : Z) : Prop :=
  exists x, h !! w = Some x /\ await_resume x = st.

Lemma has_status_set h st w : is_Some (h !! w) -> has_status (set_status h st w) st w.
Proof. intros [x Hx]. unfold has_status, set_status. rewrite Hx, lookup_insert_eq. eauto. Qed.

Lemma has_status_other h st st' w w' : w <> w' -> has_status h st' w' -> has_status (set_status h st w) st' w'.
Proof.
  unfold has_status, set_status. intros Hne Hx. destruct (h !! w); [|done]. by rewrite lookup_insert_ne.
Qed.

Lemma has_status_others st st' w' group : forall h, w' ∉ group -> has_status h st' w' ->
  has_status (fold_left (fun h w => set_status h st w) group h) st' w'.
Proof.
  induction group as [|w group IH]; intros h Hnot Hx; cbn; [done|]. apply not_elem_of_cons in Hnot as [? ?].
  apply IH; [done|]. by apply has_status_other.
Qed.

Lemma has_status_group st w' group : forall h, NoDup group -> (forall w, w ∈ group -> is_Some (h !! w)) ->
  w' ∈ group -> has_status (fold_left (fun h w => set_status h st w) group h) st w'.
Proof.
  induction group as [|w group IH]; intros h Hnd Hh Hin; cbn; [by apply not_elem_of_nil in Hin|].
  apply NoDup_cons in Hnd as [Hw Hnd]. apply elem_of_cons in Hin as [->|Hin].
  - apply has_status_others; [done|]. apply has_status_set, Hh. by left.
  - apply IH; [done| |done]. intros. apply set_status_is_Some, Hh. by right.
Qed.

(** The groups written so far are what [write] did, one after the other, and their writers
    have its statuses. *)
Record data_inv (w0 : W) (s : QSys W) : Prop := {
  di_run : exists gs, Forall2 (fun d g => batches_of (s_heap s) (done_group d) = Some g) (s_written s) gs /\
    run_writes write w0 gs = Some (s_world s, done_status <$> s_written s);
  di_status : Forall (fun d => forall w, w ∈ done_group d -> has_status (s_heap s) (done_status d) w) (s_written s);
}.

Lemma run_writes_snoc gs : forall w g,
  run_writes write w (gs ++ [g]) =
  '(w, ss) ← run_writes write w gs; '(w, s) ← write w g; Some (w, ss ++ [s]).
Proof.
  induction gs as [|g' gs IH]; intros w g; cbn.
  - destruct (write w g) as [[? ?]|]; done.
  - destruct (write w g') as [[w' ?]|]; cbn; [|done]. rewrite IH.
    destruct (run_writes write w' gs) as [[w'' ?]|]; cbn; [|done]. by destruct (write w'' g) as [[? ?]|].
Qed.

Lemma elem_of_groups d ds w : d ∈ ds -> w ∈ done_group d -> w ∈ concat (done_group <$> ds).
Proof.
  induction ds as [|d' ds IH]; intros Hd Hw; [by apply not_elem_of_nil in Hd|]. cbn. apply elem_of_app.
  apply elem_of_cons in Hd as [->|Hd]; auto.
Qed.

(** A heap in which the writers of written groups are as they were. *)
Lemma data_inv_heap w0 s s' : data_inv w0 s -> s_world s' = s_world s -> s_written s' = s_written s ->
  (forall w, w ∈ concat (done_group <$> s_written s) -> s_heap s' !! w = s_heap s !! w) -> data_inv w0 s'.
Proof.
  intros [(gs & Hg & Hrun) Hst] Hw Hwr Hh. split; rewrite ?Hw, ?Hwr.
  - exists gs. split; [|done]. clear -Hg Hh. induction Hg as [|d g ds gs Hd Hg IH]; constructor.
    + rewrite <- Hd. apply batches_of_same. intros w Hin. unfold same_writers. rewrite Hh; [done|]. apply elem_of_app. auto.
    + apply IH. intros. apply Hh. apply elem_of_app. auto.
  - apply Forall_forall. intros d Hd w Hin. rewrite Forall_forall in Hst. destruct (Hst d Hd w Hin) as (x & Hx & Hs).
    exists x. split; [|done]. rewrite Hh; [done|]. by eapply elem_of_groups.
Qed.

(** One more group, apart from those written before. *)
Lemma data_inv_write w0 s q heap' inline n l resumed world' group bs st by_thread :
  data_inv w0 s -> order_inv s -> NoDup (concat (done_group <$> s_written s) ++ group) ->
  (forall w, w ∈ group -> is_Some (s_heap s !! w)) ->
  batches_of (s_heap s) group = Some bs -> write (s_world s) bs = Some (world', st) ->
  heap' = fold_left (fun h w => set_status h st w) group (s_heap s) ->
  data_inv w0 (mkQSys q heap' world' inline n l (s_came s) (s_written s ++ [mkDone by_thread group st]) resumed).
Proof.
  intros [(gs & Hg & Hrun) Hst] Ho Hnd Hin Hbs Hwr ->. apply NoDup_app in Hnd as (_ & Hdis & Hnd). split; cbn.
  - exists (gs ++ [bs]). split.
    + apply Forall2_app; [|constructor; [|constructor]]; [eapply Forall2_impl; [done|]|]; cbn; intros;
        (etrans; [apply batches_of_same; intros; apply same_set_statuses|]); done.
    + rewrite run_writes_snoc, Hrun. cbn. rewrite Hwr. cbn. by rewrite fmap_app.
  - apply Forall_app. split; [|constructor; [|constructor]; cbn; intros; by apply has_status_group].
    apply Forall_forall. intros d Hd w Hw. rewrite Forall_forall in Hst. apply has_status_others; [|by apply Hst].
    by eapply Hdis, elem_of_groups.
Qed.

Lemma data_inv_istep w0 s s' : turn_inv s -> order_inv s -> data_inv w0 s -> istep s s' -> data_inv w0 s'.
Proof.
  intros Ht Ho Hd Hstep. pose proof Ho as [Hf Hn Hh]. pose proof (ti_one s Ht) as H1. unfold in_hand, inlining in *.
  istep_cases Hstep; try (by eapply data_inv_heap).
  - rewrite Hin in Hf. cbn in Hf. eapply data_inv_write; try done.
    + rewrite <- Hf, cons_middle, app_assoc in Hn. by apply NoDup_app in Hn as [? _].
    + intros w' ->%list_elem_of_singleton. apply Hh. rewrite <- Hf. apply elem_of_app. right. by left.
  - rewrite Hl in *. destruct (s_inline s); [done|]. cbn in Hf. eapply data_inv_write; try done.
    + rewrite <- Hf, app_assoc in Hn. by apply NoDup_app in Hn as [? _].
    + intros w' Hw. apply Hh. rewrite <- Hf, !elem_of_app. auto.
Qed.

Lemma data_inv_estep w0 s s' : order_inv s -> data_inv w0 s -> estep s s' -> data_inv w0 s'.
Proof.
  intros [Hf _ Hh] Hd Hstep.
  assert (forall w x w', s_heap s !! w = None -> w' ∈ concat (done_group <$> s_written s) ->
    <[w := x]> (s_heap s) !! w' = s_heap s !! w') as Hold.
  { intros w x w' Hw Hin. rewrite lookup_insert_ne; [done|]. intros ->.
    destruct (Hh w') as [? ?]; [|congruence]. rewrite <- Hf. apply elem_of_app. auto. }
  estep_cases Hstep; (eapply data_inv_heap; [done|done|done|]); cbn; auto.
Qed.

(** ** The continuations *)

Definition to_resume (l : loop_pc) : list Z := match l with LResume _ cs => cs | _ => [] end.

Definition drained (s : QSys W) : list Z :=
  concat (done_group <$> filter (fun d => done_by_thread d = true) (s_written s)).

(** The writer thread resumes what it wrote, in order. *)
Definition resume_inv (s : QSys W) : Prop :=
  s_resumed s ++ to_resume (s_loop s) = continuations (s_heap s) (drained s).

Lemma drained_snoc ds by_thread g st :
  concat (done_group <$> filter (fun d => done_by_thread d = true) (ds ++ [mkDone by_thread g st])) =
  concat (done_group <$> filter (fun d => done_by_thread d = true) ds) ++ (if by_thread then g else []).
Proof.
  rewrite filter_app, fmap_app, concat_app, filter_cons, filter_nil.
  destruct by_thread; case_decide; cbn in *; by rewrite ?app_nil_r.
Qed.

Lemma resume_inv_istep s s' : turn_inv s -> resume_inv s -> istep s s' -> resume_inv s'.
Proof.
  unfold resume_inv, drained. intros Ht Hr Hstep.
  istep_cases Hstep; try rewrite Hl in Hr; cbn in *; rewrite ?drained_snoc, ?app_nil_r in *; try done.
  - rewrite Hr. symmetry. apply continuations_same. intros. apply same_set_status.
  - by destruct (s_loop s).
  - rewrite (continuations_same (s_heap s) (fold_left _ _ _)) by (intros; apply same_set_statuses).
    by rewrite continuations_app, Hr.
  - by rewrite <- app_assoc.
Qed.

Lemma drained_came s w : order_inv s -> w ∈ drained s -> w ∈ s_came s.
Proof.
  intros [<- _ _] Hw. apply elem_of_app. left. revert Hw. unfold drained.
  induction (s_written s) as [|d ds IH]; [done|]. rewrite filter_cons.
  case_decide; rewrite ?fmap_cons; cbn [concat]; rewrite !elem_of_app; tauto.
Qed.

Lemma resume_inv_estep s s' : order_inv s -> resume_inv s -> estep s s' -> resume_inv s'.
Proof.
  unfold resume_inv. intros Ho Hr Hstep.
  assert (forall w x, s_heap s !! w = None ->
    continuations (<[w := x]> (s_heap s)) (drained s) = continuations (s_heap s) (drained s)) as Hold.
  { intros w x Hw. apply continuations_same. intros w' Hw'. apply same_fresh; [done|].
    by apply (oi_heap s Ho), drained_came. }
  estep_cases Hstep; try rewrite Hl in Hr; cbn in *; try rewrite <- (Hold w (new_writer b c) Hnew) in Hr; try done.
  by destruct (s_loop s).
Qed.

(** ** The statistics *)

Definition by_thread (s : QSys W) : list done := filter (fun d => done_by_thread d = true) (s_written s).
Definition by_caller (s : QSys W) : list done := filter (fun d => done_by_thread d = false) (s_written s).

Record count_inv (s : QSys W) : Prop := {
  ci_suspensions : asyncWriterSuspensions_ (s_q s) = u64 (zlen (s_came s));
  ci_groups : writeGroups_ (s_q s) = u64 (zlen (s_written s));
  ci_max : maxWriteGroupSize_ (s_q s) = foldr Z.max 0 ((fun d => zlen (done_group d)) <$> s_written s);
  ci_inline : inlineWriterDrains_ (s_q s) = u64 (zlen (by_caller s) + if inlining s then 1 else 0);
  ci_thread : writerThreadDrains_ (s_q s) =
    u64 (zlen (by_thread s) + match s_loop s with LWrite _ => 1 | _ => 0 end);
}.

Lemma u64_succ n : u64 (u64 n + 1) = u64 (n + 1).
Proof. apply Z.add_mod_idemp_l. lia. Qed.

Lemma max_snoc l x : foldr Z.max 0 (l ++ [x]) = Z.max (foldr Z.max 0 l) (Z.max x 0).
Proof. induction l as [|y l IH]; cbn; [lia|]. rewrite IH. lia. Qed.

Lemma enqueueLocked_counts q w q' now : enqueueLocked q w = (q', now) ->
  asyncWriterSuspensions_ q' = u64 (asyncWriterSuspensions_ q + 1) /\ writeGroups_ q' = writeGroups_ q /\
  maxWriteGroupSize_ q' = maxWriteGroupSize_ q /\ writerThreadDrains_ q' = writerThreadDrains_ q /\
  inlineWriterDrains_ q' = if now then u64 (inlineWriterDrains_ q + 1) else inlineWriterDrains_ q.
Proof. unfold enqueueLocked. case_match; intros [= <- <-]; done. Qed.

Lemma loopWake_counts q q' win : loopWakeLocked opts q = Some (q', win) ->
  asyncWriterSuspensions_ q' = asyncWriterSuspensions_ q /\ writeGroups_ q' = writeGroups_ q /\
  maxWriteGroupSize_ q' = maxWriteGroupSize_ q /\ writerThreadDrains_ q' = writerThreadDrains_ q /\
  inlineWriterDrains_ q' = inlineWriterDrains_ q.
Proof. unfold loopWakeLocked. repeat case_match; intros [= <- <-]; done. Qed.

Ltac count_solve :=
  split; unfold inlining, by_thread, by_caller in *; cbn in *; rewrite ?filter_app, ?fmap_app; cbn;
  rewrite ?max_snoc, ?length_app; cbn;
  repeat match goal with H : ?f ?q' = ?f ?q |- context [?f ?q'] => rewrite H end;
  repeat match goal with H : _ = u64 _ |- _ => rewrite H end; rewrite ?u64_succ;
  repeat case_decide; cbn; try congruence; try (f_equal; lia); try lia.

Lemma count_inv_istep s s' : count_inv s -> istep s s' -> count_inv s'.
Proof.
  intros [H1 H2 H3 H4 H5] Hstep. unfold inlining, by_thread, by_caller in *.
  istep_cases Hstep; try (apply loopWake_counts in Hk as (?&?&?&?&?)); open_state s;
    try destruct any; try destruct loop; count_solve.
Qed.

Lemma count_inv_estep s s' : turn_inv s -> count_inv s -> estep s s' -> count_inv s'.
Proof.
  intros Ht [H1 H2 H3 H4 H5] Hstep. pose proof (ti_writing s Ht) as Hw. unfold inlining, by_thread, by_caller in *.
  estep_cases Hstep; try (pose proof (enqueueLocked_inline _ _ _ Henq) as (Hw0 & _));
    try (apply enqueueLocked_counts in Henq as (?&?&?&?&?)); open_state s;
    try destruct loop; try destruct inline; try congruence; count_solve.
Qed.

(** ** Every state *)

Record queue_inv (w0 : W) (s : QSys W) : Prop := {
  qi_turn : turn_inv s;
  qi_order : order_inv s;
  qi_data : data_inv w0 s;
  qi_resume : resume_inv s;
  qi_count : count_inv s;
}.

Lemma queue_inv_new w0 : queue_inv w0 (QSys_new w0).
Proof.
  split; [split| split| split| |split]; cbn; try done; [constructor|by intros ? ?%not_elem_of_nil|by exists []].
Qed.

Lemma queue_inv_step w0 s s' : queue_inv w0 s -> wstep s s' -> queue_inv w0 s'.
Proof.
  intros [Ht Ho Hd Hr Hc] [Hstep|Hstep]; split.
  - by eapply turn_inv_istep.
  - by eapply order_inv_istep.
  - by eapply data_inv_istep.
  - by eapply resume_inv_istep.
  - by eapply count_inv_istep.
  - by eapply turn_inv_estep.
  - by eapply order_inv_estep.
  - by eapply data_inv_estep.
  - by eapply resume_inv_estep.
  - by eapply count_inv_estep.
Qed.

Lemma reachable_inv w0 s : reachable w0 s -> queue_inv w0 s.
Proof.
  revert s. apply (rtc_ind_r (queue_inv w0)); [apply queue_inv_new|]. eauto using queue_inv_step.
Qed.

(** ** Progress *)

(** What is left to do: it bounds the number of steps the threads can take by themselves. *)
Definition loop_work (l : loop_pc) : nat :=
  match l with
  | LWait false => 6
  | LWait true => 5
  | LWindow _ _ => 5
  | LWrite group => 8 + length group
  | LResume _ conts => 7 + length conts
  | LGone => 0
  end.

Definition work (s : QSys W) : nat :=
  8 * length (writers_ (s_q s)) + (if inlining s then 4 else 0) + 2 * s_notifying s + loop_work (s_loop s).

Lemma length_continuations h group : (length (continuations h group) <= length group)%nat.
Proof.
  unfold continuations. induction group as [|w group IH]; cbn; [lia|].
  destruct (x ← h !! w; writer_continuation x); cbn; lia.
Qed.

Lemma work_decreases s s' : turn_inv s -> istep s s' -> (work s' < work s)%nat.
Proof.
  intros Ht Hstep. pose proof (ti_work s Ht) as Hw. unfold work, inlining.
  istep_cases Hstep; try (apply loopWake_some in Hk as (Hne & Hq' & _); [|done]); open_state s;
    rewrite ?drainWriters_spec; try lia.
  - destruct loop as [[]| | | |]; cbn; lia.
  - rewrite Hq'. lia.
  - rewrite Hq'. destruct (writers_ q); [done|]. cbn. lia.
  - destruct (writers_ q); [done|]. cbn. lia.
  - pose proof (length_continuations heap group). lia.
  - destruct any; cbn; lia.
Qed.

(** The group whose turn it is can be written. *)
Definition can_write (s : QSys W) : Prop :=
  forall bs, batches_of (s_heap s) (in_hand s) = Some bs -> is_Some (write (s_world s) bs).

Lemma batches_of_defined h group : (forall w, w ∈ group -> is_Some (h !! w)) -> is_Some (batches_of h group).
Proof.
  intros Hh. apply mapM_is_Some, Forall_forall. intros w Hw.
  by apply fmap_is_Some, Hh.
Qed.

Definition finished (s : QSys W) : Prop :=
  s_inline s = None /\ s_notifying s = 0%nat /\ writers_ (s_q s) = [] /\
  (s_loop s = LWait true /\ stopWriter_ (s_q s) = false \/ s_loop s = LGone /\ stopWriter_ (s_q s) = true).

(** Threads that cannot go on have nothing to do. *)
Lemma stuck_finished s : turn_inv s -> order_inv s -> can_write s -> (forall s', ~ istep s s') -> finished s.
Proof.
  intros Ht Ho Hc Hno.
  destruct (batches_of_defined (s_heap s) (in_hand s)) as [bs Hbs].
  { intros w Hw. apply (oi_heap s Ho). rewrite <- (oi_fifo s Ho), !elem_of_app. auto. }
  destruct (Hc bs Hbs) as [[world' st] Hwr]. pose proof (ti_one s Ht) as H1. unfold inlining, in_hand in *.
  assert (s_notifying s = 0%nat) as Hn.
  { destruct (s_notifying s) eqn:E; [done|]. edestruct Hno. by eapply Notify. }
  assert (s_inline s = None) as Hin.
  { destruct (s_inline s) eqn:E; [|done]. destruct (s_loop s); cbn in *; try done;
      edestruct Hno; by eapply InlineWrite. }
  rewrite Hin in *. cbn in Hbs.
  destruct (s_loop s) as [[]| | |any [|c cs]|] eqn:El.
  - pose proof (ti_asleep s Ht El) as [Hp|?]; [|lia]. pose proof (ti_writing s Ht) as Hw.
    unfold loopPredicate, inlining in *. rewrite Hin, El in Hw. rewrite Hw in Hp. apply orb_false_iff in Hp as [Hs Hq].
    unfold finished. case_bool_decide; [auto 10|done].
  - destruct (loopPredicate (s_q s)) eqn:Hp; [|edestruct Hno; by eapply LoopSleep].
    destruct (loopWakeLocked opts (s_q s)) as [[q' [[]|]]|] eqn:Hk; edestruct Hno;
      [by eapply LoopCollect|by eapply LoopDrainNow|by eapply LoopReturn].
  - edestruct Hno. by eapply (LoopDrainWindow _ _ _ _ _ true).
  - edestruct Hno. by eapply LoopWrite.
  - edestruct Hno. by eapply (LoopResumed _ _ _ _ 0).
  - edestruct Hno. by eapply LoopResumeOne.
  - destruct (ti_gone s Ht El). unfold finished. auto 10.
Qed.

(** ** What a step leaves as it is *)

(** The threads bring no writer of their own; what they write is the group in hand. *)
Lemma istep_frame s s' : turn_inv s -> istep s s' ->
  s_came s' = s_came s /\ stopWriter_ (s_q s') = stopWriter_ (s_q s) /\
  (forall w, same_writers (s_heap s) (s_heap s') w) /\ (exists r, s_resumed s' = s_resumed s ++ r) /\
  (s_written s' = s_written s \/ exists thread st, s_written s' = s_written s ++ [mkDone thread (in_hand s) st] /\
    in_hand s <> [] /\ (thread = false -> exists w, in_hand s = [w])).
Proof.
  intros Ht Hstep. pose proof (ti_one s Ht) as H1. pose proof (ti_work s Ht) as Hg. unfold in_hand, inlining in *.
  istep_cases Hstep; try (apply loopWake_some in Hk as (_ & _ & _ & Hs'); [|done]); open_state s;
    (split; [done|split; [try done; by destruct any|]]);
    (split; [intros; first [done|apply same_set_status|apply same_set_statuses]|]);
    (split; [first [by exists []; rewrite app_nil_r|by eexists]|]); try (by left); right.
  - exists false, status. destruct loop; try done; rewrite ?app_nil_r; eauto.
  - exists true, status. destruct inline; [done|]. split; [done|]. split; [done|discriminate].
Qed.

(** No group without a writer is written. *)
Lemma written_not_empty w0 s : reachable w0 s -> Forall (fun d => done_group d <> []) (s_written s).
Proof.
  intros Hr. enough (queue_inv w0 s /\ Forall (fun d => done_group d <> []) (s_written s)) by tauto.
  revert s Hr. apply (rtc_ind_r (fun s => queue_inv w0 s /\ Forall (fun d => done_group d <> []) (s_written s))).
  { split; [apply queue_inv_new|constructor]. }
  intros s s' _ Hs [Hi Hw]. split; [by eapply queue_inv_step|]. destruct Hs as [Hs|Hs].
  - destruct (istep_frame _ _ (qi_turn _ _ Hi) Hs) as (_ & _ & _ & _ & [->|(th & st & -> & Hh & _)]); [done|].
    apply Forall_app. split; [done|]. by apply Forall_singleton.
  - by destruct Hs.
Qed.

(** Threads that are done have written everybody's batch. *)
Lemma finished_came w0 s : reachable w0 s -> finished s -> concat (done_group <$> s_written s) = s_came s.
Proof.
  intros Hr (Hi & _ & Hq & Hl). pose proof (oi_fifo _ (qi_order _ _ (reachable_inv _ _ Hr))) as Hf. unfold in_hand in Hf.
  rewrite Hi, Hq in Hf. destruct Hl as [[Hl _]|[Hl _]]; rewrite Hl in Hf; cbn in Hf; by rewrite !app_nil_r in Hf.
Qed.

(** The batches they wrote are those of the writers that came. *)
Lemma written_concat (s : QSys W) ds (gs : list (list WriteBatchT)) :
  mapM (fun d => batches_of (s_heap s) (done_group d)) ds = Some gs ->
  batches_of (s_heap s) (concat (done_group <$> ds)) = Some (concat gs) /\
  (Forall (fun d => done_group d <> []) ds -> Forall (fun g => g <> []) gs).
Proof.
  revert gs. induction ds as [|d ds IH]; intros gs Hgs; cbn in Hgs; [by injection Hgs as <-|].
  destruct (batches_of _ (done_group d)) as [g|] eqn:Eg; [|done]. cbn in Hgs.
  destruct (mapM _ ds) as [gs'|] eqn:Eg'; [|done]. injection Hgs as <-. cbn [fmap list_fmap concat].
  destruct (IH gs' eq_refl) as [IH1 IH2]. apply mapM_Some in Eg. split.
  - apply mapM_Some, Forall2_app; [done|]. by apply mapM_Some.
  - intros [Hd Hds]%Forall_cons. constructor; [|by apply IH2]. intros ->. by apply Forall2_nil_inv_r in Eg.
Qed.

End Facts.
