(* ===== verification/DbConcurrent.v ===== *)
(** * Concurrent writers of the database

    The threads of [WriterQueue] with [writeGroup] of [Db] as what writes a group. *)

From stdpp Require Import relations.
From S2P Require Import Prelude Status WriteBatch Crc32c Wal MemTable Io Db DbTheorems WriterQueue WriterQueueFacts.

Lemma run_writes_groups {L : Libc} {C : Cpu} {E : Type} `{!Io E} (gs : list (list WriteBatchT)) : forall w : World E,
  run_writes writeGroup w gs = run_groups w gs.
Proof.
  induction gs as [|g gs IH]; intros w; cbn; [done|].
  destruct (writeGroup w g) as [[w' s]|]; cbn; [|done]. by rewrite IH.
Qed.

Section Concurrent.
Context {L : Libc} {C : Cpu} {E : Type} `{!Io E, !IoSpec E, !CpuSpec C} (opts : Options).

Definition empty_world (io : E) : World E := mkWorld io empty_file DBCore_new.

(** A state of the database's threads, reached from an empty log. *)
Abbreviation db_reachable := (fun io => reachable (W := World E) writeGroup opts (empty_world io)).
Abbreviation db_step := (istep (W := World E) writeGroup opts).

(** The batches of the groups that were written. *)
Definition written_batches (s : QSys (World E)) : option (list (list WriteBatchT)) :=
  mapM (fun d => batches_of (s_heap s) (done_group d)) (s_written s).

(** Groups that fit a log. *)
Definition fits (gs : list (list WriteBatchT)) : Prop :=
  Forall group_ok gs /\ groups_bytes gs < 2 ^ 62 /\ groups_entries gs + 1 < 2 ^ 64.

Lemma reachable_run io s : db_reachable io s ->
  exists gs, written_batches s = Some gs /\ run_groups (empty_world io) gs = Some (s_world s, done_status <$> s_written s).
Proof.
  intros Hr. apply reachable_inv in Hr. destruct (di_run _ _ _ (qi_data _ _ _ Hr)) as (gs & Hg & Hrun).
  exists gs. split; [by apply mapM_Some|]. by rewrite <- run_writes_groups.
Qed.

(** The group in hand can be written if it fits the log with those before it. *)
Lemma fits_can_write io s gs g : io_inv io -> db_reachable io s -> written_batches s = Some gs ->
  batches_of (s_heap s) (in_hand s) = Some g -> fits (gs ++ [g]) -> can_write writeGroup s.
Proof.
  intros Hio Hr Hgs Hg (Hok & Hb & He) g' Hg'. destruct (reachable_run io s Hr) as (gs' & Hgs' & Hrun).
  simplify_eq. destruct (run_from_new io _ Hio Hok Hb He) as (w & ss & _ & _ & Hall & _).
  rewrite <- run_writes_groups, run_writes_snoc, run_writes_groups in Hall. fold (empty_world io) in Hall.
  rewrite Hrun in Hall. cbn in Hall. by destruct (writeGroup (s_world s) _).
Qed.

(** C3: whatever the threads do, at every moment the database is what the groups written
    so far make of it, one after the other: the writers are in these groups, the group in
    hand and the queue exactly once and in the order they came, each writer of a written
    group has the status of its group, and [Get] of any key answers what the map obtained
    from the acknowledged groups holds. *)
Theorem concurrent_writes_linearize (io : E) s :
  io_inv io -> db_reachable io s ->
  exists gs, written_batches s = Some gs /\
    run_groups (empty_world io) gs = Some (s_world s, done_status <$> s_written s) /\
    NoDup (s_came s) /\ concat (done_group <$> s_written s) ++ in_hand s ++ writers_ (s_q s) = s_came s /\
    (forall d w, d ∈ s_written s -> w ∈ done_group d -> has_status (s_heap s) (done_status d) w) /\
    (fits gs -> forall k, DB_Get (w_db (s_world s)) k =
      Some (kv_get (fold_left kv_apply (acknowledged gs (done_status <$> s_written s)) ∅) k)).
Proof.
  intros Hio Hr. destruct (reachable_run io s Hr) as (gs & Hgs & Hrun). exists gs.
  apply reachable_inv in Hr as [_ [Hf Hn _] [_ Hst] _ _]. do 4 (split; [done|]). split.
  - intros d w Hd Hw. rewrite Forall_forall in Hst. by apply Hst.
  - intros (Hok & Hb & He) k. destruct (run_from_new io gs Hio Hok Hb He) as (w & ss & imgs & ds & E1 & _ & Hinv & Hack & _).
    unfold empty_world in Hrun. rewrite Hrun in E1. injection E1 as <- <-.
    by rewrite (DB_Get_inv _ _ _ k Hinv), visible_replay, Hack.
Qed.

Lemma steps_came s n s' : nsteps db_step n s s' -> s_came s' = s_came s.
Proof. induction 1 as [|n s1 s2 s3 Hstep _ IH]; [done|]. rewrite IH. by destruct Hstep. Qed.

Lemma steps_reachable io s n s' : db_reachable io s -> nsteps db_step n s s' -> db_reachable io s'.
Proof.
  intros Hr Hn. induction Hn as [|n s1 s2 s3 Hstep _ IH]; [done|]. apply IH. eapply rtc_r; [done|]. by left.
Qed.

Lemma steps_work io s n s' : db_reachable io s -> nsteps db_step n s s' -> (n + work s' <= work s)%nat.
Proof.
  intros Hr Hn. induction Hn as [|n s1 s2 s3 Hstep _ IH]; [lia|].
  pose proof (work_decreases _ _ _ _ (qi_turn _ _ _ (reachable_inv _ _ _ _ Hr)) Hstep).
  enough (n + work s3 <= work s2)%nat by lia. apply IH. eapply rtc_r; [done|]. by left.
Qed.

(** C6: every writer is served. The threads can take only [work s] steps by themselves
    before they can take none, and when they can take none, every writer that came is in
    one written group and has its status, the writer thread has resumed, once and in
    order, the writers it wrote, and it sleeps with nothing to do or, if the destructor
    has asked it to stop, has returned. *)
Theorem every_writer_is_served (io : E) s n s' gs g :
  io_inv io -> db_reachable io s -> nsteps db_step n s s' ->
  written_batches s' = Some gs -> batches_of (s_heap s') (in_hand s') = Some g -> fits (gs ++ [g]) ->
  (n <= work s)%nat /\ s_came s' = s_came s /\
  ((forall s'', ~ db_step s' s'') ->
    finished s' /\ concat (done_group <$> s_written s') = s_came s /\
    Forall (fun d => forall w, w ∈ done_group d -> has_status (s_heap s') (done_status d) w) (s_written s') /\
    s_resumed s' = continuations (s_heap s') (drained s')).
Proof.
  intros Hio Hr Hn Hgs Hg Hfit. pose proof (steps_work io s n s' Hr Hn). pose proof (steps_came s n s' Hn) as Hcame.
  split; [lia|]. split; [done|]. intros Hno. apply (steps_reachable io) in Hn; [|done].
  pose proof (fits_can_write io s' gs g Hio Hn Hgs Hg Hfit) as Hc.
  apply reachable_inv in Hn as [Ht Ho [_ Hst] Hre _].
  assert (finished s') as Hfin by (by eapply stuck_finished). split; [done|].
  destruct Hfin as (Hi & _ & Hq & Hl). pose proof (oi_fifo _ Ho) as Hf. unfold in_hand, resume_inv in *.
  rewrite Hi, Hq in Hf. destruct Hl as [[Hl _]|[Hl _]]; rewrite Hl in *; cbn in *;
    rewrite !app_nil_r in *; rewrite <- Hcame; done.
Qed.

(** One writer at a time. The flag [writing_] is set exactly while some thread has the
    turn, a caller and the writer thread never have it together, and a writer thread that
    sleeps while there are writers and no one has the turn is about to be woken. *)
Theorem one_writer_at_a_time (io : E) s : db_reachable io s ->
  writing_ (s_q s) = inlining s || busy (s_loop s) /\ inlining s && busy (s_loop s) = false /\
  (s_loop s = LWait true -> writing_ (s_q s) = false -> writers_ (s_q s) <> [] -> (0 < s_notifying s)%nat).
Proof.
  intros Hr. apply reachable_inv in Hr as [[Hw H1 _ _ Ha _] _ _ _ _]. split; [done|]. split; [done|].
  intros Hl Hwf Hq. destruct (Ha Hl) as [Hp|]; [|done]. unfold loopPredicate in Hp. rewrite Hwf in Hp.
  rewrite bool_decide_false in Hp by done. by destruct (stopWriter_ (s_q s)).
Qed.

End Concurrent.

(** ** A run *)

#[local] Existing Instance reference_libc.
#[local] Existing Instance reference_cpu.

(** A caller writes its batch, a second writer comes meanwhile and is left to the writer
    thread, which waits for more, writes it, resumes it and goes to sleep. *)
Definition first_batch : WriteBatchT := build_batch [BPut (str "a") (str "1")].
Definition second_batch : WriteBatchT := build_batch [BPut (str "a") (str "2")].

Definition world_after (w : World (sim 4096)) (g : list WriteBatchT) : World (sim 4096) :=
  default w (fst <$> writeGroup w g).

Lemma world_after_first :
  writeGroup (empty_world sample_io) [first_batch] = Some (world_after (empty_world sample_io) [first_batch], Status.Ok).
Proof. vm_compute. reflexivity. Qed.

Definition second_world : World (sim 4096) :=
  world_after (world_after (empty_world sample_io) [first_batch]) [second_batch].

Lemma world_after_second :
  writeGroup (world_after (empty_world sample_io) [first_batch]) [second_batch] = Some (second_world, Status.Ok).
Proof. vm_compute. reflexivity. Qed.

(** The run, for any way of writing that does as much. *)
Lemma two_writers {W : Type} (write : W -> list WriteBatchT -> option (W * StatusT)) w0 w1 w2 :
  write w0 [first_batch] = Some (w1, Status.Ok) -> write w1 [second_batch] = Some (w2, Status.Ok) ->
  exists s, reachable write default_Options w0 s /\ s_came s = [1; 2] /\
    mapM (fun d => batches_of (s_heap s) (done_group d)) (s_written s) = Some [[first_batch]; [second_batch]] /\
    in_hand s = [] /\ s_resumed s = [12] /\ forall s', ~ istep write default_Options s s'.
Proof.
  intros H1 H2. eexists. split.
  - take_step ltac:(right; by eapply (EnqueueInline _ 1 first_batch (Some 11))).
    take_step ltac:(right; by eapply (EnqueueQueued _ 2 second_batch (Some 12))).
    take_step ltac:(left; eapply (InlineWrite _ _ _ 1); [reflexivity|reflexivity|exact H1]).
    take_step ltac:(left; eapply (Notify _ _ _ 0); reflexivity).
    take_step ltac:(left; eapply LoopCollect; reflexivity).
    take_step ltac:(left; eapply (LoopDrainWindow _ _ _ _ _ true); reflexivity).
    take_step ltac:(left; eapply (LoopWrite _ _ _ [2]); [reflexivity|reflexivity|exact H2]).
    take_step ltac:(left; eapply LoopResumeOne; reflexivity).
    take_step ltac:(left; eapply (LoopResumed _ _ _ _ 7); reflexivity).
    take_step ltac:(left; eapply LoopSleep; reflexivity).
    apply rtc_refl.
  - repeat split. intros s' Hs. inversion Hs; discriminate.
Qed.

Lemma two_writers_fit : fits ([[first_batch]; [second_batch]] ++ [[]]).
Proof.
  split; [|by vm_compute].
  repeat (constructor; [split; [repeat (constructor; [apply build_batch_wf|]); constructor|vm_compute; reflexivity]|]).
  constructor.
Qed.

Lemma concurrent_writes_linearize_witness :
  exists s : QSys (World (sim 4096)), s_came s = [1; 2] /\
    DB_Get (w_db (s_world s)) (str "a") =
      Some (kv_get (fold_left kv_apply (acknowledged [[first_batch]; [second_batch]] (done_status <$> s_written s)) ∅) (str "a")).
Proof.
  destruct (two_writers _ _ _ _ world_after_first world_after_second) as (s & Hr & Hc & Hw & _). exists s. split; [exact Hc|].
  destruct (concurrent_writes_linearize default_Options sample_io s) as (gs & Hgs & _ & _ & _ & _ & H).
  - exact I.
  - exact Hr.
  - unfold written_batches in Hgs. rewrite Hw in Hgs. injection Hgs as <-. apply H. destruct two_writers_fit as (H1 & _).
    apply Forall_app in H1 as [H1 _]. split; [exact H1|]. vm_compute. split; reflexivity.
Defined.

Lemma every_writer_is_served_witness :
  exists s : QSys (World (sim 4096)), finished s /\ concat (done_group <$> s_written s) = [1; 2] /\ s_resumed s = [12].
Proof.
  destruct (two_writers _ _ _ _ world_after_first world_after_second) as (s & Hr & Hc & Hw & Hh & Hres & Hno). exists s.
  destruct (every_writer_is_served default_Options sample_io s 0 s [[first_batch]; [second_batch]] []) as (_ & _ & H).
  - exact I.
  - exact Hr.
  - constructor.
  - exact Hw.
  - rewrite Hh. reflexivity.
  - exact two_writers_fit.
  - specialize (H Hno) as (H1 & H2 & _). split; [exact H1|]. split; [rewrite H2; exact Hc|exact Hres].
Defined.

Lemma one_writer_at_a_time_witness :
  exists s : QSys (World (sim 4096)), s_came s = [1; 2] /\ writing_ (s_q s) = inlining s || busy (s_loop s).
Proof.
  destruct (two_writers _ _ _ _ world_after_first world_after_second) as (s & Hr & Hc & _). exists s. split; [exact Hc|].
  apply (one_writer_at_a_time default_Options sample_io s). exact Hr.
Defined.
