(* ===== verification/WriterReentry.v ===== *)
(** * Writing from a resumed coroutine (src/db.cc)

    The writer thread resumes the coroutines of a group itself. Code that runs there, behind
    a [co_await] of a write, may call the database again. If it awaits, the writer thread
    goes on; if it calls [Put], [Delete] or [Write], which wait in [Task::run], the writer
    thread waits. The steps of [WriterQueue], with such a call. *)

From stdpp Require Import relations.
From S2P Require Import Prelude Status WriteBatch Db WriterQueue.

Section Reentry.
Context {W : Type} (write : W -> list WriteBatchT -> option (W * StatusT)) (opts : Options).

(** The system, and the writer the writer thread itself waits for. *)
Abbreviation NSys := (QSys W * option Z)%type.

Inductive nstep : NSys -> NSys -> Prop :=
  | NStep s s' : wstep write opts s s' -> nstep (s, None) (s', None)
  (** A coroutine is resumed and calls [Put]: its writer [w] is enqueued on this thread. *)
  | NCall s s1 s2 any c cs w : s_loop s = LResume any (c :: cs) -> istep write opts s s1 -> s_loop s1 = LResume any cs ->
      estep s1 s2 -> s_came s2 = s_came s1 ++ [w] -> nstep (s, None) (s2, Some w)
  (** Meanwhile the other threads go on. *)
  | NOther s s' w : wstep write opts s s' -> s_loop s' = s_loop s -> nstep (s, Some w) (s', Some w)
  (** The writer was served: [run] returns. *)
  | NReturn s w : w ∈ concat (done_group <$> s_written s) -> s_inline s <> Some w -> nstep (s, Some w) (s, None).

(** The call is in the queue, and only the thread that made it empties the queue. *)
Record stuck (s : QSys W) (w : Z) : Prop := {
  st_loop : exists any cs, s_loop s = LResume any cs;
  st_queued : w ∈ writers_ (s_q s);
  st_inline : s_inline s = None;
  st_unserved : w ∉ concat (done_group <$> s_written s);
}.

Lemma enqueue_behind q w w' q' inline : w ∈ writers_ q -> enqueueLocked q w' = (q', inline) ->
  inline = false /\ w ∈ writers_ q'.
Proof.
  intros Hw. unfold enqueueLocked. rewrite (bool_decide_eq_false_2 (writers_ q = [])) by (intros E; rewrite E in Hw; by apply not_elem_of_nil in Hw).
  rewrite andb_false_r. cbn. intros [= <- <-]. split; [done|]. cbn. apply elem_of_app. by left.
Qed.

Lemma stuck_step s s' w : stuck s w -> wstep write opts s s' -> s_loop s' = s_loop s ->
  stuck s' w /\ s_written s' = s_written s.
Proof.
  intros [(any & cs & Hl) Hq Hi Hn] [H|H] Hsame; destruct H as
    [s w0 bs world' status E|s n E|s E|s E|s q' wm ts E|s q' E|s wm ts ex E|s group bs world' status E|s any' c cs' E|s any' mic E]
    || destruct H as [s w0 b c q' _ _ _ E|s w0 b c q' _ _ _ E|s E|s E]; cbn in *; try congruence.
  - rewrite Hl in *. split; [|done]. split; cbn; try done. eauto.
  - exfalso. rewrite E in *. injection Hl as <- <-. injection Hsame as Hsame. by apply (f_equal length) in Hsame; cbn in Hsame; lia.
  - by destruct (enqueue_behind _ _ _ _ _ Hq E) as [? _].
  - destruct (enqueue_behind _ _ _ _ _ Hq E) as [_ Hq']. rewrite Hl in *. split; [|done]. split; cbn; try done. eauto.
  - split; [|done]. split; cbn; try done. eauto.
Qed.

Lemma stuck_forever s w n : stuck s w -> rtc nstep (s, Some w) n ->
  n.2 = Some w /\ stuck n.1 w /\ s_written n.1 = s_written s.
Proof.
  intros Hs Hr. remember (s, Some w) as p eqn:Ep. revert s Hs Ep.
  induction Hr as [p|p p1 n Hstep _ IH]; intros s Hs ->; [done|].
  inversion Hstep as [| |? s' ? Hw Hl|? ? Hin _]; subst; [|by destruct (st_unserved _ _ Hs)].
  destruct (stuck_step s s' w Hs Hw Hl) as [Hs' E]. destruct (IH s' Hs' eq_refl) as (? & ? & ?).
  split; [done|]. split; [done|]. congruence.
Qed.
End Reentry.

(** C38: a blocking write from a resumed coroutine stops the database. Three callers write;
    the second and the third are written as one group, which arms the group commit. When
    the coroutine of the second is resumed, on the writer thread, and calls [Put], the call
    is queued, because the group commit is armed, and waits for the writer thread, which
    is waiting for it: it never returns, and no write of anybody is performed any more. *)
Theorem blocking_write_in_coroutine_deadlocks {W} (write : W -> list WriteBatchT -> option (W * StatusT)) world :
  (forall w bs, is_Some (write w bs)) ->
  exists s w, rtc (nstep write default_Options) (QSys_new world, None) (s, Some w) /\
    forall n, rtc (nstep write default_Options) (s, Some w) n -> n.2 = Some w /\ s_written n.1 = s_written s.
Proof.
  intros Hw. set (b := mkWriteBatch [mkEntry kPut [] []]).
  destruct (Hw world [b]) as [[w1 st1] E1]. destruct (Hw w1 [b; b]) as [[w2 st2] E2]. unfold b in *.
  assert (exists s, rtc (nstep write default_Options) (QSys_new world, None) (s, Some 4) /\ stuck s 4) as (s & Hs & Hst).
  - eexists. split.
    + take_step ltac:(apply NStep; right; eapply (EnqueueInline _ 1 b (Some 101)); reflexivity).
      take_step ltac:(apply NStep; right; eapply (EnqueueQueued _ 2 b (Some 102)); reflexivity).
      take_step ltac:(apply NStep; right; eapply (EnqueueQueued _ 3 b (Some 103)); reflexivity).
      take_step ltac:(apply NStep; left; eapply (InlineWrite _ _ _ 1); [reflexivity|reflexivity|exact E1]).
      take_step ltac:(apply NStep; left; eapply LoopCollect; reflexivity).
      take_step ltac:(apply NStep; left; eapply (LoopDrainWindow _ _ _ _ _ true); reflexivity).
      take_step ltac:(apply NStep; left; eapply (LoopWrite _ _ _ [2; 3]); [reflexivity|reflexivity|exact E2]).
      take_step ltac:(eapply NCall; [reflexivity|eapply LoopResumeOne; reflexivity|reflexivity|
        eapply (EnqueueQueued _ 4 b (Some 104)); reflexivity|reflexivity]).
      apply rtc_refl.
    + split; cbn; [by eauto|repeat constructor|done|].
      intros H. repeat (apply elem_of_cons in H as [H|H]; [done|]). by apply not_elem_of_nil in H.
  - exists s, 4. split; [done|]. intros n Hn. by destruct (stuck_forever _ _ s 4 n Hst Hn) as (? & _ & ?).
Qed.
Lemma blocking_write_in_coroutine_deadlocks_witness :
  exists s w, rtc (nstep (fun (u : unit) _ => Some (u, Status.Ok)) default_Options) (QSys_new tt, None) (s, Some w).
Proof.
  destruct (blocking_write_in_coroutine_deadlocks (fun (u : unit) _ => Some (u, Status.Ok)) tt) as (s & w & H & _).
  - intros u bs. eexists. reflexivity.
  - exists s, w. exact H.
Defined.
