(* ===== verification/DbClient.v ===== *)
(** * A client of the database (src/db.cc)

    [Put], [Delete], [Write] and [Get] as one client calls them: [WriteAwaiter], which hands
    a copy of the batch to [enqueueAsyncWriter], and the path through it when no other
    writer is there. *)

From stdpp Require Import relations.
From S2P Require Import Prelude Status Coding Crc32c WriteBatch Wal MemTable Io Db DbTheorems WriterQueue.

Section Client.
Context {L : Libc} {C : Cpu} {E : Type} `{!Io E}.

(** The database and its queue. *)
Record Client := mkClient { c_queue : Queue; c_world : World E }.

(** [Write]: [WriteAsync(batch).run()]. [None]: the writer was queued, and the answer is
    the writer thread's. *)
Definition DB_Write (c : Client) (b : WriteBatchT) : option (Client * StatusT) :=
  let writer := new_writer b (Some 0) in
  if await_ready (writer_batch writer) then Some (c, await_resume writer) else
  let '(q, inline) := enqueueLocked (c_queue c) 0 in
  if inline : bool then
    '(w, status) ← writeGroup (c_world c) [writer_batch writer];
    Some (mkClient (inlineDoneLocked q) w, status)
  else None.

Definition DB_Put (c : Client) (key value : bytes) : option (Client * StatusT) :=
  DB_Write c (WriteBatch.Put WriteBatch.new key value).

Definition DB_Delete (c : Client) (key : bytes) : option (Client * StatusT) :=
  DB_Write c (WriteBatch.Delete WriteBatch.new key).

Definition client_Get (c : Client) (key : bytes) : option (Result bytes) := DB_Get (w_db (c_world c)) key.

Inductive call := CallPut (key value : bytes) | CallDelete (key : bytes) | CallWrite (b : WriteBatchT).

Definition call_batch (o : call) : WriteBatchT :=
  match o with
  | CallPut k v => WriteBatch.Put WriteBatch.new k v
  | CallDelete k => WriteBatch.Delete WriteBatch.new k
  | CallWrite b => b
  end.

Definition do_call (c : Client) (o : call) : option (Client * StatusT) :=
  match o with
  | CallPut k v => DB_Put c k v
  | CallDelete k => DB_Delete c k
  | CallWrite b => DB_Write c b
  end.

Fixpoint do_calls (c : Client) (os : list call) : option (Client * list StatusT) :=
  match os with
  | [] => Some (c, [])
  | o :: os =>
      '(c, s) ← do_call c o;
      '(c, ss) ← do_calls c os;
      Some (c, s :: ss)
  end.

(** ** One call after the other *)

(** Nobody else is writing. *)
Definition idle (q : Queue) : Prop := writing_ q = false /\ writers_ q = [] /\ groupCommitArmed_ q = false.

Lemma do_call_batch c o : do_call c o = DB_Write c (call_batch o).
Proof. by destruct o. Qed.

Lemma Write_idle c b : idle (c_queue c) -> exists q, idle q /\
  DB_Write c b = if await_ready b then Some (c, Status.Ok)
    else '(w, s) ← writeGroup (c_world c) [b]; Some (mkClient q w, s).
Proof.
  intros (H1 & H2 & H3). unfold DB_Write, enqueueLocked. rewrite H1, H2, H3. cbn [negb andb bool_decide].
  eexists. split; [|cbn; reflexivity]. done.
Qed.

(** The groups the calls write: one of one batch for each batch that is not empty. *)
Definition call_groups (os : list call) : list (list WriteBatchT) :=
  (fun o => [call_batch o]) <$> filter (fun o => await_ready (call_batch o) = false) os.

(** The entries of the calls that were acknowledged. *)
Fixpoint acknowledged_calls (os : list call) (ss : list StatusT) : list Entry :=
  match os, ss with
  | o :: os, s :: ss => (if Status.ok s then entries_ (call_batch o) else []) ++ acknowledged_calls os ss
  | _, _ => []
  end.

Lemma do_calls_groups os : forall c w ss, idle (c_queue c) -> run_groups (c_world c) (call_groups os) = Some (w, ss) ->
  exists c' ss', do_calls c os = Some (c', ss') /\ c_world c' = w /\ length ss' = length os /\
    acknowledged_calls os ss' = acknowledged (call_groups os) ss.
Proof.
  induction os as [|o os IH]; intros c w ss Hidle Hrun; cbn [do_calls].
  { cbn in Hrun. simplify_eq. by exists c, []. }
  rewrite do_call_batch. destruct (Write_idle c (call_batch o) Hidle) as (q & Hq & ->).
  unfold call_groups in *. rewrite filter_cons in *. destruct (await_ready (call_batch o)) eqn:Hr.
  - rewrite decide_False in * by done. destruct (IH c w ss Hidle Hrun) as (c' & ss' & E1 & Hw & Hl & Ha).
    cbn [mbind option_bind]. rewrite E1. cbn [mbind option_bind]. eexists _, _. split; [done|]. split; [done|].
    split; [cbn; by rewrite Hl|]. cbn [acknowledged_calls Status.ok]. unfold await_ready in Hr.
    apply bool_decide_eq_true in Hr. rewrite Hr. done.
  - rewrite decide_True in * by done. cbn [fmap list_fmap run_groups] in Hrun.
    destruct (writeGroup (c_world c) [call_batch o]) as [[w1 s]|]; [|done]. cbn [mbind option_bind] in *.
    destruct (run_groups w1 _) as [[w2 ss2]|] eqn:E2; [|done]. cbn [mbind option_bind] in Hrun. simplify_eq.
    destruct (IH (mkClient q w1) w ss2 Hq E2) as (c' & ss' & E1 & Hw & Hl & Ha). rewrite E1. cbn [mbind option_bind].
    eexists _, _. split; [done|]. split; [done|]. split; [cbn; by rewrite Hl|].
    cbn [acknowledged_calls acknowledged fmap list_fmap]. rewrite Ha. unfold all_entries. cbn. by rewrite app_nil_r.
Qed.

(** *** The client's calls are executions of the threads *)

(** Nobody is between two sections, and [w] is the address the next writer gets. *)
Definition at_rest (s : QSys (World E)) (w : Z) : Prop :=
  idle (s_q s) /\ stopWriter_ (s_q s) = false /\ s_inline s = None /\ s_notifying s = 0%nat /\
  forall w', w <= w' -> s_heap s !! w' = None.

Lemma Write_simulated opts s w b c st : at_rest s w -> await_ready b = false ->
  DB_Write (mkClient (s_q s) (s_world s)) b = Some (c, st) ->
  exists s', rtc (wstep writeGroup opts) s s' /\ at_rest s' (w + 1) /\
    s_q s' = c_queue c /\ s_world s' = c_world c /\ s_written s' = s_written s ++ [mkDone false [w] st].
Proof.
  intros ((H1 & H2 & H3) & Hst & Hin & Hnot & Hheap) Hb. unfold DB_Write, enqueueLocked.
  cbn [c_queue c_world new_writer writer_batch]. rewrite Hb, H1, H2, H3. cbn [negb andb bool_decide].
  destruct (writeGroup (s_world s) [b]) as [[w' st']|] eqn:Hw; [|done]. intros [= <- <-].
  eexists. split; [|split].
  - eapply rtc_l; [right; eapply (EnqueueInline _ w b (Some 0)); [done|done|apply Hheap; lia|]|].
    { unfold enqueueLocked. by rewrite H1, H2, H3. }
    eapply rtc_l; [left; eapply InlineWrite; [done| |exact Hw]|].
    { cbn. by rewrite lookup_insert_eq. }
    eapply rtc_l; [left; by eapply Notify|]. apply rtc_refl.
  - unfold at_rest, idle. cbn. rewrite ?Hnot, ?H2, ?H3, ?Hst. repeat (split; [done|]). intros w'' Hlt.
    unfold set_status. rewrite lookup_insert_eq, !lookup_insert_ne by lia. apply Hheap. lia.
  - done.
Qed.

Lemma do_calls_simulated opts os : forall s w c ss, at_rest s w ->
  do_calls (mkClient (s_q s) (s_world s)) os = Some (c, ss) ->
  exists s', rtc (wstep writeGroup opts) s s' /\ s_q s' = c_queue c /\ s_world s' = c_world c.
Proof.
  induction os as [|o os IH]; intros s w c ss Hr Hc; cbn [do_calls] in Hc.
  { injection Hc as <- _. exists s. split; [apply rtc_refl|done]. }
  rewrite do_call_batch in Hc. destruct (DB_Write _ _) as [[c1 st]|] eqn:Hw; [|done]. cbn [mbind option_bind] in Hc.
  destruct (do_calls c1 os) as [[c2 ss2]|] eqn:Hd; [|done]. injection Hc as <- _.
  destruct (await_ready (call_batch o)) eqn:Hb.
  - unfold DB_Write in Hw. cbn [new_writer writer_batch] in Hw. rewrite Hb in Hw. injection Hw as <- _. by eapply IH.
  - destruct (Write_simulated opts s w _ c1 st Hr Hb Hw) as (s1 & Hs1 & Hr1 & Hq & Hwd & _).
    assert (c1 = mkClient (s_q s1) (s_world s1)) as Hc1 by (rewrite Hq, Hwd; by destruct c1). rewrite Hc1 in Hd.
    destruct (IH s1 (w + 1) c2 ss2 Hr1 Hd) as (s2 & Hs2 & ?). exists s2. split; [by etransitivity|done].
Qed.

Lemma do_calls_map `{!IoSpec E, !CpuSpec C} (io : E) os :
  io_inv io -> Forall group_ok (call_groups os) -> groups_bytes (call_groups os) < 2 ^ 62 ->
  groups_entries (call_groups os) + 1 < 2 ^ 64 ->
  exists c ss, do_calls (mkClient Queue_new (mkWorld io empty_file DBCore_new)) os = Some (c, ss) /\
    length ss = length os /\
    forall k, client_Get c k = Some (kv_get (fold_left kv_apply (acknowledged_calls os ss) ∅) k).
Proof.
  intros Hio Hg Hb He. destruct (run_from_new io _ Hio Hg Hb He) as (w & ss & imgs & ds & Hrun & _ & Hinv & Hack & _).
  destruct (do_calls_groups os (mkClient Queue_new (mkWorld io empty_file DBCore_new)) w ss) as (c & ss' & E1 & Hw & Hl & Ha);
    [done|done|].
  exists c, ss'. split; [done|]. split; [done|]. intros k. unfold client_Get.
  by rewrite Hw, Ha, (DB_Get_inv _ _ _ k Hinv), visible_replay, Hack.
Qed.

(** A client that has the database to itself sees a key-value map. Every call of
    [Put], [Delete] and [Write] returns a status (an empty batch is OK and writes
    nothing), and afterwards [Get] answers from the acknowledged calls, in order; the
    calls are one of the executions of the writer queue's threads, whatever the options. *)
Theorem client_sees_key_value_map `{!IoSpec E, !CpuSpec C} (io : E) os :
  io_inv io -> Forall group_ok (call_groups os) -> groups_bytes (call_groups os) < 2 ^ 62 ->
  groups_entries (call_groups os) + 1 < 2 ^ 64 ->
  exists c ss, do_calls (mkClient Queue_new (mkWorld io empty_file DBCore_new)) os = Some (c, ss) /\
    length ss = length os /\
    (forall k, client_Get c k = Some (kv_get (fold_left kv_apply (acknowledged_calls os ss) ∅) k)) /\
    forall opts, exists s, reachable writeGroup opts (mkWorld io empty_file DBCore_new) s /\
      s_q s = c_queue c /\ s_world s = c_world c.
Proof.
  intros Hio Hg Hb He. destruct (do_calls_map io os Hio Hg Hb He) as (c & ss & E1 & Hl & Hget).
  exists c, ss. do 3 (split; [done|]). intros opts.
  apply (do_calls_simulated opts os (QSys_new (mkWorld io empty_file DBCore_new)) 0 c ss); [|done].
  repeat (split; [done|]). intros w' _. apply lookup_empty.
Qed.

End Client.

#[local] Existing Instance reference_libc.
#[local] Existing Instance reference_cpu.

Definition sample_calls : list call :=
  [CallPut (str "a") (str "1"); CallWrite WriteBatch.new; CallPut (str "b") (str "2"); CallDelete (str "a")].

Lemma client_sees_key_value_map_witness :
  exists c ss, do_calls (mkClient Queue_new (mkWorld sample_io empty_file DBCore_new)) sample_calls = Some (c, ss) /\
    length ss = 4%nat /\
    forall k, client_Get c k = Some (kv_get (fold_left kv_apply (acknowledged_calls sample_calls ss) ∅) k).
Proof.
  destruct (client_sees_key_value_map sample_io sample_calls) as (c & ss & E & Hl & Hg & _);
    [..|exists c, ss; split; [exact E|]; split; [exact Hl|exact Hg]].
  - exact I.
  - change (call_groups sample_calls) with
      [[build_batch [BPut (str "a") (str "1")]]; [build_batch [BPut (str "b") (str "2")]]; [build_batch [BDelete (str "a")]]].
    repeat (constructor; [split; [repeat (constructor; [apply build_batch_wf|]); constructor|vm_compute; reflexivity]|]).
    constructor.
  - vm_compute. reflexivity.
  - vm_compute. reflexivity.
Defined.
