(* ===== verification/Bench.v ===== *)
(** * The benchmark driver (benchmarks/bench_common.cc, benchmarks/storage_engine_bench.cc)

    Its command line, the keys and values it makes, and the benchmarks with one thread, on
    the client of [DbClient] and from the database [openFreshDb] gave. Clocks, seconds and
    printing are left out. *)

From S2P Require Import Prelude Status Coding Crc32c WriteBatch Wal MemTable Io Db DbTheorems WriterQueue DbClient.

(** ** Numbers *)

Definition digit (c : byte) : bool := (48 <=? b2z c) && (b2z c <=? 57).

(** [parseUint64]; [None] is [false]. *)
Definition parseDigit (result : Z) (c : byte) : option Z :=
  if negb (digit c) then None else Some (u64 (u64 (result * 10) + (b2z c - 48))).

Definition parseUint64 (value : bytes) : option Z :=
  match value with
  | [] => None
  | _ => foldM parseDigit 0 value
  end.

Definition INT_MAX : Z := 2 ^ 31 - 1.
Definition UINT32_MAX : Z := 2 ^ 32 - 1.
Definition SIZE_MAX : Z := 2 ^ 64 - 1.

Definition parseInt (value : bytes) : option Z :=
  parsed ← parseUint64 value;
  if parsed >? INT_MAX then None else Some parsed.

Definition parseBool (value : bytes) : option bool :=
  if bool_decide (value = str "1" \/ value = str "true") then Some true else
  if bool_decide (value = str "0" \/ value = str "false") then Some false else None.

(** [std::to_string] of an unsigned number: its digits, most significant first; twenty are
    enough for 64 bits. *)
Fixpoint to_digits (fuel : nat) (v : Z) (acc : bytes) : bytes :=
  match fuel with
  | O => acc
  | S fuel =>
      let acc := z2b (48 + v mod 10) :: acc in
      if v <? 10 then acc else to_digits fuel (v / 10) acc
  end.

Definition to_string (v : Z) : bytes := to_digits 20 v [].

(** [static_cast<int>(n)] of a [size_t]. *)
Definition to_int (n : Z) : Z := if u32 n <? 2 ^ 31 then u32 n else u32 n - 2 ^ 32.

Definition makeKey (value keySize : Z) : bytes :=
  let suffix := to_string value in
  if to_int (zlen suffix) >=? keySize then suffix
  else replicate (Z.to_nat (keySize - zlen suffix)) (z2b 48) ++ suffix.

(** The loop of [makeValue]; [None]: it has not come to its end. *)
Fixpoint fillValue (fuel : nat) (base result : bytes) (valueSize : Z) : option bytes :=
  if to_int (zlen result) <? valueSize then
    match fuel with
    | O => None
    | S fuel => fillValue fuel base (result ++ base) valueSize
    end
  else Some result.

Definition value_base (value : Z) : bytes := str "value_" ++ to_string value ++ str "_".

Definition makeValue (fuel : nat) (value valueSize : Z) : option bytes :=
  result ← fillValue fuel (value_base value) [] valueSize;
  Some (take (Z.to_nat valueSize) result).

(** ** Text *)

(** [find(c, from)], as an index from the start. *)
Fixpoint find_from (c : byte) (s : bytes) : option nat :=
  match s with
  | [] => None
  | x :: s => if bool_decide (x = c) then Some 0%nat else S <$> find_from c s
  end.

Definition find (c : byte) (s : bytes) (from : nat) : option nat :=
  (fun i => (from + i)%nat) <$> find_from c (drop from s).

Definition substr (s : bytes) (from n : nat) : bytes := take n (drop from s).

Fixpoint splitLoop (fuel : nat) (input : bytes) (delimiter : byte) (start : nat) (parts : list bytes)
    : option (list bytes) :=
  if (start <=? length input)%nat then
    match fuel with
    | O => None
    | S fuel =>
        let e := default (length input) (find delimiter input start) in
        let parts := parts ++ [substr input start (e - start)] in
        if (e =? length input)%nat then Some parts else splitLoop fuel input delimiter (e + 1) parts
    end
  else Some parts.

Definition split (input : bytes) (delimiter : byte) : option (list bytes) :=
  splitLoop (S (length input)) input delimiter 0 [].

(** ** The command line *)

Record BenchOptions := mkBenchOptions {
  bo_benchmarks : bytes;
  bo_db : bytes;
  bo_num : Z;
  bo_reads : Z;
  bo_threads : Z;
  bo_keySize : Z;
  bo_valueSize : Z;
  bo_seed : Z;
  bo_uringSqPoll : bool;
  bo_uringSqPollIdleMs : Z;
  bo_groupCommitWindowMicros : Z;
  bo_groupCommitTargetSize : Z;
  bo_adaptiveGroupCommit : bool;
  bo_highPressureGroupCommitWindowMicros : Z;
  bo_highPressureGroupCommitTargetSize : Z;
  bo_highPressureGroupCommitQueueThreshold : Z;
}.

Definition default_BenchOptions : BenchOptions :=
  mkBenchOptions (str "fillseq") (str "/tmp/storage_engine_bench") 100000 0 1 16 100 301 false 2000 100 8 true 200 16 10.

(** Numbers with a range; [None] is [return false]. *)
Definition positiveInt (value : bytes) : option Z := n ← parseInt value; if n <=? 0 then None else Some n.
Definition naturalInt (value : bytes) : option Z := n ← parseInt value; if n <? 0 then None else Some n.
Definition word32 (value : bytes) : option Z := n ← parseUint64 value; if n >? UINT32_MAX then None else Some n.
Definition positiveSize (value : bytes) : option Z :=
  n ← parseUint64 value; if (n =? 0) || (n >? SIZE_MAX) then None else Some n.

Definition setOption (o : BenchOptions) (key value : bytes) : option BenchOptions :=
  let '(mkBenchOptions be db num reads th ks vs seed sq idle win target ad hwin htarget hq) := o in
  let named s := bool_decide (key = str s) in
  if named "benchmarks" then Some (mkBenchOptions value db num reads th ks vs seed sq idle win target ad hwin htarget hq)
  else if named "db" then Some (mkBenchOptions be value num reads th ks vs seed sq idle win target ad hwin htarget hq)
  else if named "num" then
    n ← parseUint64 value; Some (mkBenchOptions be db n reads th ks vs seed sq idle win target ad hwin htarget hq)
  else if named "reads" then
    n ← parseUint64 value; Some (mkBenchOptions be db num n th ks vs seed sq idle win target ad hwin htarget hq)
  else if named "threads" then
    n ← positiveInt value; Some (mkBenchOptions be db num reads n ks vs seed sq idle win target ad hwin htarget hq)
  else if named "key_size" then
    n ← positiveInt value; Some (mkBenchOptions be db num reads th n vs seed sq idle win target ad hwin htarget hq)
  else if named "value_size" then
    n ← naturalInt value; Some (mkBenchOptions be db num reads th ks n seed sq idle win target ad hwin htarget hq)
  else if named "seed" then
    n ← word32 value; Some (mkBenchOptions be db num reads th ks vs n sq idle win target ad hwin htarget hq)
  else if named "uring_sqpoll" then
    b ← parseBool value; Some (mkBenchOptions be db num reads th ks vs seed b idle win target ad hwin htarget hq)
  else if named "uring_sqpoll_idle_ms" then
    n ← word32 value; Some (mkBenchOptions be db num reads th ks vs seed sq n win target ad hwin htarget hq)
  else if named "group_commit_window_us" then
    n ← parseUint64 value; Some (mkBenchOptions be db num reads th ks vs seed sq idle n target ad hwin htarget hq)
  else if named "group_commit_target_size" then
    n ← positiveSize value; Some (mkBenchOptions be db num reads th ks vs seed sq idle win n ad hwin htarget hq)
  else if named "adaptive_group_commit" then
    b ← parseBool value; Some (mkBenchOptions be db num reads th ks vs seed sq idle win target b hwin htarget hq)
  else if named "high_pressure_group_commit_window_us" then
    n ← parseUint64 value; Some (mkBenchOptions be db num reads th ks vs seed sq idle win target ad n htarget hq)
  else if named "high_pressure_group_commit_target_size" then
    n ← positiveSize value; Some (mkBenchOptions be db num reads th ks vs seed sq idle win target ad hwin n hq)
  else if named "high_pressure_group_commit_queue_threshold" then
    n ← positiveSize value; Some (mkBenchOptions be db num reads th ks vs seed sq idle win target ad hwin htarget n)
  else None.

(** One argument. *)
Definition parseArg (o : BenchOptions) (arg : bytes) : option BenchOptions :=
  if bool_decide (arg = str "--help") then None else
  match find (z2b 61) arg 0 with
  | None => None
  | Some pos =>
      if negb (bool_decide (take 2 arg = str "--")) then None else
      setOption o (substr arg 2 (pos - 2)) (drop (pos + 1) arg)
  end.

Definition parseArgs (args : list bytes) (o : BenchOptions) : option BenchOptions :=
  o ← foldM parseArg o args;
  let '(mkBenchOptions be db num reads th ks vs seed sq idle win target ad hwin htarget hq) := o in
  Some (mkBenchOptions be db num (if reads =? 0 then num else reads) th ks vs seed sq idle win target ad hwin htarget hq).

(** What [openFreshDb] passes to [Open]. *)
Definition db_options_of (o : BenchOptions) : Options :=
  mkOptions (bo_uringSqPoll o) 8 (bo_uringSqPollIdleMs o) (bo_groupCommitWindowMicros o)
    (bo_groupCommitTargetSize o) (bo_adaptiveGroupCommit o) (bo_highPressureGroupCommitWindowMicros o)
    (bo_highPressureGroupCommitTargetSize o) (bo_highPressureGroupCommitQueueThreshold o).

(** ** Loading and reading back *)

Section Runs.
Context {L : Libc} {C : Cpu} {E : Type} `{!Io E}.

(** [preload]: the rounds from [i] on; [false] is a failed write. [fuel] is [makeValue]'s. *)
Fixpoint preloadLoop (n : nat) (fuel : nat) (c : Client (E := E)) (o : BenchOptions) (i : Z)
    : option (Client (E := E) * bool) :=
  match n with
  | O => Some (c, true)
  | S n =>
      v ← makeValue fuel i (bo_valueSize o);
      '(c, status) ← DB_Put c (makeKey i (bo_keySize o)) v;
      if negb (Status.ok status) then Some (c, false) else preloadLoop n fuel c o (u64 (i + 1))
  end.

Definition preload (fuel : nat) (c : Client (E := E)) (o : BenchOptions) : option (Client (E := E) * bool) :=
  preloadLoop (Z.to_nat (bo_num o)) fuel c o 0.

(** The loop of [benchReadRandom], over what the generator gives: hits and bytes. [None] is
    a division by zero. *)
Definition readRound (c : Client (E := E)) (o : BenchOptions) (st : Z * Z) (random : Z) : option (Z * Z) :=
  let '(hits, total) := st in
  if bo_num o =? 0 then None else
  let key := makeKey (random mod bo_num o) (bo_keySize o) in
  r ← client_Get c key;
  match r with
  | RValue v => Some (u64 (hits + 1), u64 (total + (zlen key + zlen v)))
  | RStatus _ => Some (hits, total)
  end.

Definition readRandom (c : Client (E := E)) (o : BenchOptions) (rng : list Z) : option (Z * Z) :=
  foldM (readRound c o) (0, 0) rng.

(** What a benchmark counts, apart from times. *)
Record Metrics := mkMetrics { metrics_ops : Z; metrics_bytes : Z }.

(** The loop of the benchmarks that write: round [i] writes key [(pick i).1] with value
    [(pick i).2] and counts the bytes; no count is a failed write. *)
Fixpoint putLoop (n : nat) (fuel : nat) (c : Client (E := E)) (o : BenchOptions) (pick : Z -> Z * Z) (i total : Z)
    : option (Client (E := E) * option Z) :=
  match n with
  | O => Some (c, Some total)
  | S n =>
      let key := makeKey (pick i).1 (bo_keySize o) in
      value ← makeValue fuel (pick i).2 (bo_valueSize o);
      '(c, status) ← DB_Put c key value;
      if negb (Status.ok status) then Some (c, None)
      else putLoop n fuel c o pick (u64 (i + 1)) (u64 (total + (zlen key + zlen value)))
  end.

Definition putRounds (fuel : nat) (c : Client (E := E)) (o : BenchOptions) (pick : Z -> Z * Z)
    : option (Client (E := E) * option Metrics) :=
  '(c, total) ← putLoop (Z.to_nat (bo_num o)) fuel c o pick 0 0;
  Some (c, option_map (mkMetrics (bo_num o)) total).

(** The benchmarks, on the database [openFreshDb] gave; no metrics is [return false].
    [rng i] is the generator's number in round [i]. *)
Definition benchFillSeq (fuel : nat) (c : Client (E := E)) (o : BenchOptions) : option (Client (E := E) * option Metrics) :=
  putRounds fuel c o (fun i => (i, i)).

Definition benchFillRandom (fuel : nat) (c : Client (E := E)) (o : BenchOptions) (rng : nat -> Z)
    : option (Client (E := E) * option Metrics) :=
  putRounds fuel c o (fun i => (rng (Z.to_nat i) mod bo_num o, i)).

Definition benchOverwrite (fuel : nat) (c : Client (E := E)) (o : BenchOptions) (rng : nat -> Z)
    : option (Client (E := E) * option Metrics) :=
  '(c, loaded) ← preload fuel c o;
  if negb loaded then Some (c, None)
  else putRounds fuel c o (fun i => (rng (Z.to_nat i) mod bo_num o, u64 (i + bo_num o))).

(** With the number of hits. *)
Definition benchReadRandom (fuel : nat) (c : Client (E := E)) (o : BenchOptions) (rng : nat -> Z)
    : option (Client (E := E) * option (Metrics * Z)) :=
  '(c, loaded) ← preload fuel c o;
  if negb loaded then Some (c, None) else
  '(hits, total) ← readRandom c o (rng <$> seq 0 (Z.to_nat (bo_reads o)));
  Some (c, Some (mkMetrics (bo_reads o) total, hits)).

End Runs.

(** ** Facts *)

Definition decimal (n : Z) (s : bytes) : Z := fold_left (fun n c => n * 10 + (b2z c - 48)) s n.

Lemma parse_digits s : forall n, forallb digit s = true -> foldM parseDigit (u64 n) s = Some (u64 (decimal n s)).
Proof.
  induction s as [|c s IH]; intros n H; [done|]. apply andb_true_iff in H as [Hc Hs].
  cbn [foldM]. unfold parseDigit at 1. rewrite Hc. cbn [negb].
  change (decimal n (c :: s)) with (decimal (n * 10 + (b2z c - 48)) s). rewrite <- IH by done. f_equal.
  unfold u64. by rewrite Zmult_mod_idemp_l, Zplus_mod_idemp_l.
Qed.

Lemma parse_not_digits s : forall n, forallb digit s = false -> foldM parseDigit n s = None.
Proof.
  induction s as [|c s IH]; intros n H; [done|]. cbn [forallb] in H. cbn [foldM]. unfold parseDigit.
  destruct (digit c); [by apply IH|done].
Qed.

Lemma parseUint64_spec s : parseUint64 s =
  if bool_decide (s <> []) && forallb digit s then Some (u64 (decimal 0 s)) else None.
Proof.
  destruct s as [|c s]; [done|]. rewrite bool_decide_true by done. cbn [andb]. unfold parseUint64.
  destruct (forallb digit (c :: s)) eqn:E; [by apply (parse_digits (c :: s) 0)|by apply parse_not_digits].
Qed.

Lemma b2z_digit d : 0 <= d < 10 -> b2z (z2b (48 + d)) = 48 + d.
Proof. intros H. rewrite b2z_z2b. apply Z.mod_small. lia. Qed.

Lemma to_digits_spec fuel : forall v acc, (0 < fuel)%nat -> 0 <= v < 10 ^ Z.of_nat fuel ->
  decimal 0 (to_digits fuel v acc) = decimal v acc /\
  (forallb digit acc = true -> forallb digit (to_digits fuel v acc) = true) /\
  (length acc < length (to_digits fuel v acc) <= fuel + length acc)%nat.
Proof.
  induction fuel as [|fuel IH]; intros v acc Hf Hv; [lia|]. cbn [to_digits].
  pose proof (Z.mod_pos_bound v 10 ltac:(lia)) as Hm. pose proof (b2z_digit (v mod 10) Hm) as Hd.
  assert (forallb digit acc = true -> forallb digit (z2b (48 + v mod 10) :: acc) = true) as Hdig.
  { intros H. cbn [forallb]. rewrite H. unfold digit. rewrite Hd. zb; done || lia. }
  destruct (Z.ltb_spec v 10).
  - split; [|split; [done|cbn; lia]]. unfold decimal. cbn [fold_left]. rewrite Hd, Z.mod_small by lia.
    f_equal. lia.
  - rewrite Nat2Z.inj_succ, Z.pow_succ_r in Hv by lia.
    assert (0 <= v / 10 < 10 ^ Z.of_nat fuel) as Hq
      by (split; [apply Z.div_pos; lia|apply Z.div_lt_upper_bound; lia]).
    destruct fuel as [|fuel]; [cbn in Hv; lia|].
    destruct (IH (v / 10) (z2b (48 + v mod 10) :: acc) ltac:(lia) Hq) as (H1 & H2 & H3).
    rewrite H1. split; [|split; [auto|cbn in *; lia]]. unfold decimal. cbn [fold_left]. rewrite Hd.
    f_equal. pose proof (Z.div_mod v 10). lia.
Qed.

Lemma to_string_spec v : 0 <= v < 2 ^ 64 -> decimal 0 (to_string v) = v /\
  forallb digit (to_string v) = true /\ (0 < length (to_string v) <= 20)%nat.
Proof.
  intros Hv. destruct (to_digits_spec 20 v []) as (H1 & H2 & H3); [lia| |].
  { change (10 ^ Z.of_nat 20) with 100000000000000000000. lia. }
  cbn [length] in H3.
  split; [done|]. split; [by apply H2|]. unfold to_string. lia.
Qed.

Lemma to_int_small n : 0 <= n < 2 ^ 31 -> to_int n = n.
Proof. intros H. unfold to_int. rewrite u32_small by lia. zb; lia. Qed.

Lemma makeKey_spec v n : 0 <= v < 2 ^ 64 -> 0 <= n < 2 ^ 31 ->
  decimal 0 (makeKey v n) = v /\ forallb digit (makeKey v n) = true /\
  n <= zlen (makeKey v n) <= n + 20 /\ 0 < zlen (makeKey v n).
Proof.
  intros Hv Hn. destruct (to_string_spec v Hv) as (H1 & H2 & H3). unfold makeKey.
  rewrite to_int_small, Z.geb_leb by lia. destruct (Z.leb_spec n (zlen (to_string v))); [split; [done|split; [done|lia]]|].
  set (k := Z.to_nat _). assert (forall m, decimal 0 (replicate m (z2b 48) ++ to_string v) = v) as Hz.
  { intros m. unfold decimal. rewrite fold_left_app. induction m as [|m IH]; [done|]. cbn [replicate fold_left].
    change (0 * 10 + (b2z (z2b 48) - 48)) with 0. done. }
  split; [apply Hz|]. split; [|unfold k; len]. rewrite forallb_app, H2, andb_true_r.
  clear. induction k; [done|]. cbn [replicate forallb]. by rewrite IHk.
Qed.

Lemma makeKey_parses v n : 0 <= v < 2 ^ 64 -> 0 <= n < 2 ^ 31 -> parseUint64 (makeKey v n) = Some v.
Proof.
  intros Hv Hn. destruct (makeKey_spec v n Hv Hn) as (H1 & H2 & _ & H3). rewrite parseUint64_spec, H1, H2.
  rewrite bool_decide_true by (intros E; rewrite E in H3; cbn in H3; lia). cbn [andb]. by rewrite u64_small.
Qed.

(** *** Values *)

Lemma value_base_length v : 0 <= v < 2 ^ 64 -> 8 <= zlen (value_base v) <= 27.
Proof.
  intros Hv. destruct (to_string_spec v Hv) as (_ & _ & H). unfold value_base. rewrite !length_app.
  change (length (str "value_")) with 6%nat. change (length (str "_")) with 1%nat. lia.
Qed.

Lemma fillValue_total base n : 0 < zlen base -> 0 <= n -> n + zlen base < 2 ^ 31 -> forall fuel result,
  zlen result < n + zlen base -> n - zlen result <= Z.of_nat fuel ->
  exists r, fillValue fuel base result n = Some r /\ n <= zlen r.
Proof.
  intros Hb Hn Hmax. induction fuel as [|fuel IH]; intros result Hr Hf; cbn [fillValue];
    rewrite to_int_small by lia; destruct (Z.ltb_spec (zlen result) n); try lia; eauto.
  apply IH; len.
Qed.

Lemma makeValue_total v n fuel : 0 <= v < 2 ^ 64 -> 0 <= n -> n + 27 < 2 ^ 31 -> n <= Z.of_nat fuel ->
  exists r, makeValue fuel v n = Some r /\ zlen r = n.
Proof.
  intros Hv Hn Hmax Hf. pose proof (value_base_length v Hv).
  destruct (fillValue_total (value_base v) n ltac:(lia) Hn ltac:(lia) fuel []) as (r & E & Hr); [cbn; lia..|].
  unfold makeValue. rewrite E. cbn [mbind option_bind]. eexists. split; [done|]. len.
Qed.

(** A size that no multiple of the base's length reaches, up to what an [int] holds: the
    loop's condition stays true for ever. *)
Lemma fillValue_endless base fuel : zlen base mod 8 = 0 -> forall result, zlen result mod 8 = 0 ->
  fillValue fuel base result INT_MAX = None.
Proof.
  intros Hb. induction fuel as [|fuel IH]; intros result Hr; cbn [fillValue];
    (destruct (Z.ltb_spec (to_int (zlen result)) INT_MAX) as [_|Hge];
      [|exfalso; unfold to_int, u32, INT_MAX in Hge; zb; Z.to_euclidean_division_equations; lia]); [done|].
  apply IH. rewrite length_app, Nat2Z.inj_add. Z.to_euclidean_division_equations. lia.
Qed.

(** *** Splitting *)

Definition join (d : byte) (parts : list bytes) : bytes :=
  match parts with
  | [] => []
  | p :: ps => p ++ concat ((fun q => d :: q) <$> ps)
  end.

Lemma find_from_spec c s : match find_from c s with
  | Some i => exists rest, s = take i s ++ c :: rest /\ (i < length s)%nat /\ c ∉ take i s
  | None => c ∉ s
  end.
Proof.
  induction s as [|x s IH]; cbn [find_from]; [apply not_elem_of_nil|].
  case_bool_decide as Hx; [subst; exists s; split; [done|]; split; [cbn; lia|apply not_elem_of_nil]|].
  destruct (find_from c s) as [i|]; cbn [fmap option_fmap option_map].
  - destruct IH as (rest & E & Hi & Hn). exists rest. cbn [take length app]. rewrite <- E. split; [done|].
    split; [lia|]. rewrite elem_of_cons. intros [->|?]; done.
  - rewrite elem_of_cons. intros [->|?]; done.
Qed.

Lemma splitLoop_spec d input : forall fuel start parts, (start <= length input)%nat -> (length input - start < fuel)%nat ->
  exists ps, splitLoop fuel input d start parts = Some (parts ++ ps) /\ ps <> [] /\
    join d ps = drop start input /\ Forall (fun p => d ∉ p) ps.
Proof.
  induction fuel as [|fuel IH]; intros start parts Hs Hf; [lia|]. cbn [splitLoop].
  destruct (Nat.leb_spec start (length input)); [|lia].
  pose proof (find_from_spec d (drop start input)) as Hfind. unfold find.
  destruct (find_from d (drop start input)) as [i|]; cbn [fmap option_fmap option_map from_option]; unfold id; cbv zeta.
  - destruct Hfind as (rest & E & Hi & Hn). rewrite length_drop in Hi.
    destruct (Nat.eqb_spec (start + i) (length input)); [lia|].
    destruct (IH (start + i + 1)%nat (parts ++ [substr input start (start + i - start)])) as (ps & -> & Hne & Hj & Ha);
      [lia|lia|].
    unfold substr. replace (start + i - start)%nat with i by lia.
    exists (take i (drop start input) :: ps). rewrite <- app_assoc. split; [done|]. split; [done|].
    split; [|by constructor].
    assert (rest = drop (start + i + 1) input) as Hrest.
    { replace (start + i + 1)%nat with (start + S i)%nat by lia. rewrite <- drop_drop, E.
      rewrite drop_app, drop_ge by len. replace (S i - length (take i (drop start input)))%nat with 1%nat by len. done. }
    rewrite E at 2. destruct ps as [|p ps]; [done|]. cbn [join fmap list_fmap concat] in *. rewrite Hrest, <- Hj. done.
  - rewrite Nat.eqb_refl. unfold substr. rewrite take_ge by (rewrite length_drop; lia).
    exists [drop start input]. split; [done|]. split; [done|]. split; [cbn; by rewrite app_nil_r|]. by constructor.
Qed.

(** *** Loading and reading back *)

Section Loading.
Context {L : Libc} {C : Cpu} {E : Type} `{!Io E}.

Definition bench_value (fuel : nat) (o : BenchOptions) (i : Z) : bytes := default [] (makeValue fuel i (bo_valueSize o)).

(** One round: the number the key is made of, and the one the value is made of. *)
Definition put_call (fuel : nat) (o : BenchOptions) (p : Z * Z) : call :=
  CallPut (makeKey p.1 (bo_keySize o)) (bench_value fuel o p.2).

Definition put_entry (fuel : nat) (o : BenchOptions) (p : Z * Z) : Entry :=
  mkEntry kPut (makeKey p.1 (bo_keySize o)) (bench_value fuel o p.2).

Definition put_bytes (fuel : nat) (o : BenchOptions) (p : Z * Z) : Z :=
  zlen (makeKey p.1 (bo_keySize o)) + zlen (bench_value fuel o p.2).

Definition rounds (o : BenchOptions) (pick : Z -> Z * Z) : list (Z * Z) :=
  (fun i => pick (Z.of_nat i)) <$> seq 0 (Z.to_nat (bo_num o)).

Record sizes_ok (fuel : nat) (o : BenchOptions) : Prop := {
  so_num : 0 <= bo_num o < 2 ^ 63;
  so_key : 0 < bo_keySize o < 2 ^ 31;
  so_value : 0 <= bo_valueSize o /\ bo_valueSize o + 64 < 2 ^ 31;
  so_fuel : bo_valueSize o <= Z.of_nat fuel;
  so_log : 2 * bo_num o * (50 + bo_keySize o + bo_valueSize o) < 2 ^ 62;
}.

Definition total_bytes (fuel : nat) (o : BenchOptions) (l : list (Z * Z)) : Z :=
  fold_right (fun p n => put_bytes fuel o p + n) 0 l.

(** Both numbers fit their type. *)
Definition words (p : Z * Z) : Prop := 0 <= p.1 < 2 ^ 64 /\ 0 <= p.2 < 2 ^ 64.

Lemma bench_value_spec fuel o i : sizes_ok fuel o -> 0 <= i < 2 ^ 64 ->
  makeValue fuel i (bo_valueSize o) = Some (bench_value fuel o i) /\ zlen (bench_value fuel o i) = bo_valueSize o.
Proof.
  intros [? ? ? ? ?] Hi. unfold bench_value. destruct (makeValue_total i (bo_valueSize o) fuel) as (r & -> & ?); [lia..|].
  done.
Qed.

Lemma put_bytes_bounds fuel o p : sizes_ok fuel o -> words p ->
  0 < put_bytes fuel o p <= 20 + bo_keySize o + bo_valueSize o.
Proof.
  intros Hok [Hk Hv]. destruct (bench_value_spec fuel o p.2 Hok Hv) as [_ Hl]. destruct (Hok) as [_ Hkey Hval _ _].
  destruct (makeKey_spec p.1 (bo_keySize o)) as (_ & _ & Hb & Hpos); [lia..|]. unfold put_bytes. lia.
Qed.

(** The loop makes the calls, up to the first that fails. *)
Lemma putLoop_calls fuel o pick n : sizes_ok fuel o -> forall i total c c' ss,
  Z.of_nat (i + n) <= bo_num o -> (forall j, (j < i + n)%nat -> words (pick (Z.of_nat j))) ->
  do_calls c ((fun j => put_call fuel o (pick (Z.of_nat j))) <$> seq i n) = Some (c', ss) ->
  exists c'' r, putLoop n fuel c o pick (Z.of_nat i) (u64 total) = Some (c'', r) /\
    (forall b, r = Some b -> c'' = c' /\ Forall (fun s => Status.ok s = true) ss /\
      b = u64 (total + total_bytes fuel o ((fun j => pick (Z.of_nat j)) <$> seq i n))).
Proof.
  intros Hok. pose proof (so_num _ _ Hok) as Hnum.
  induction n as [|n IH]; intros i total c c' ss Hi Hw Hc; cbn [seq fmap list_fmap do_calls] in Hc; cbn [putLoop].
  { injection Hc as <- <-. eexists _, _. split; [done|]. intros b [= <-]. cbn. by rewrite Z.add_0_r. }
  destruct (Hw i ltac:(lia)) as [Hk Hv].
  destruct (bench_value_spec fuel o (pick (Z.of_nat i)).2 Hok Hv) as [-> _]. cbn [mbind option_bind do_call put_call] in *.
  destruct (DB_Put c _ _) as [[c1 s]|]; [|done]. cbn [mbind option_bind] in *.
  destruct (do_calls c1 _) as [[c2 ss2]|] eqn:Ed; [|done]. cbn [mbind option_bind] in Hc. injection Hc as <- <-.
  destruct (Status.ok s) eqn:Hs; cbn [negb]; [|by eexists _, _].
  rewrite u64_small by lia. replace (Z.of_nat i + 1) with (Z.of_nat (S i)) by lia. rewrite u64_add_l. fold (put_bytes fuel o (pick (Z.of_nat i))).
  destruct (IH (S i) (total + put_bytes fuel o (pick (Z.of_nat i))) c1 c2 ss2) as (c3 & r & Ep & Hb); [lia|intros; apply Hw; lia|done|].
  exists c3, r. split; [done|]. intros b Hr. destruct (Hb b Hr) as (-> & Hss & ->). split; [done|]. split; [by constructor|].
  cbn [seq fmap list_fmap total_bytes fold_right]. by rewrite Z.add_assoc.
Qed.

(** [preload] is the same loop without the count. *)
Lemma preloadLoop_putLoop fuel o n : forall c i total,
  preloadLoop n fuel c o i =
  (fun '(c, r) => (c, bool_decide (is_Some r))) <$> putLoop n fuel c o (fun i => (i, i)) i total.
Proof.
  induction n as [|n IH]; intros c i total; cbn [preloadLoop putLoop]; [done|].
  cbn [fst snd]. destruct (makeValue fuel i (bo_valueSize o)) as [v|]; [|done]. cbn [mbind option_bind].
  destruct (DB_Put c _ v) as [[c1 s]|]; [|done]. cbn [mbind option_bind]. destruct (negb (Status.ok s)); [done|apply IH].
Qed.

(** *** What the rounds write *)

Definition put_batch (fuel : nat) (o : BenchOptions) (p : Z * Z) : WriteBatchT := mkWriteBatch [put_entry fuel o p].
Definition put_batches (fuel : nat) (o : BenchOptions) (l : list (Z * Z)) : list WriteBatchT := put_batch fuel o <$> l.

Lemma put_groups fuel o l : call_groups (put_call fuel o <$> l) = put_batches fuel o <$> ((fun p => [p]) <$> l).
Proof. unfold call_groups. induction l as [|p l IH]; [done|]. cbn [fmap list_fmap]. rewrite filter_cons_True by done. cbn. by f_equal. Qed.

Lemma put_batch_entries fuel o l : all_entries (put_batches fuel o l) = put_entry fuel o <$> l.
Proof. unfold all_entries, put_batches. induction l as [|p l IH]; [done|]. cbn in *. by rewrite IH. Qed.

Lemma put_entries_bytes fuel o l : sizes_ok fuel o -> Forall words l ->
  zlen (entries_bytes (put_entry fuel o <$> l)) <= zlen l * (29 + bo_keySize o + bo_valueSize o).
Proof.
  intros Hok. induction 1 as [|p l Hp _ IH]; [done|]. cbn [fmap list_fmap]. rewrite entries_bytes_cons, length_app.
  pose proof (put_bytes_bounds fuel o p Hok Hp) as Hb. unfold put_bytes in Hb. rewrite length_entry_bytes.
  cbn [put_entry entry_key entry_value length]. lia.
Qed.

(** Groups of such writes fit the log. *)
Lemma puts_fit fuel o ls : sizes_ok fuel o ->
  Forall (fun l => Forall words l /\ zlen l * (29 + bo_keySize o + bo_valueSize o) + 12 < 2 ^ 32) ls ->
  let gs := put_batches fuel o <$> ls in
  Forall group_ok gs /\ groups_bytes gs <= 21 * zlen ls + zlen (concat ls) * (29 + bo_keySize o + bo_valueSize o) /\
  groups_entries gs = zlen (concat ls).
Proof.
  intros Hok. cbv zeta. induction 1 as [|l ls [Hw Hlt] _ (IH1 & IH2 & IH3)]; [done|].
  pose proof (put_entries_bytes fuel o l Hok Hw) as Hb. unfold groups_bytes, groups_entries in *.
  cbn [fmap list_fmap concat fold_right]. rewrite put_batch_entries, length_app, length_fmap. split; [|split; [|lia]].
  - constructor; [|done]. split; [|unfold encodable; rewrite put_batch_entries; lia].
    apply Forall_fmap, Forall_forall. intros p _. repeat constructor; done.
  - cbn [length]. rewrite Nat2Z.inj_add, Z.mul_add_distr_r. lia.
Qed.

Lemma put_acknowledged fuel o l ss : length ss = length l -> Forall (fun s => Status.ok s = true) ss ->
  acknowledged_calls (put_call fuel o <$> l) ss = put_entry fuel o <$> l.
Proof.
  revert ss. induction l as [|p l IH]; intros ss Hl Hss; [by destruct ss|]. destruct ss as [|s ss]; [done|].
  inversion Hss as [|? ? Hs Hss']; subst. cbn [fmap list_fmap acknowledged_calls]. rewrite Hs. cbn.
  f_equal. apply IH; [by injection Hl|done].
Qed.

(** The value a key was last given. *)
Definition last_put (j : Z) (l : list (Z * Z)) : option Z := snd <$> last (filter (fun p => p.1 = j) l).

Lemma makeKey_inj i j n : 0 <= i < 2 ^ 64 -> 0 <= j < 2 ^ 64 -> 0 <= n < 2 ^ 31 -> makeKey i n = makeKey j n -> i = j.
Proof. intros Hi Hj Hn E1. apply (inj Some). by rewrite <- (makeKey_parses i n), <- (makeKey_parses j n), E1. Qed.

Lemma puts_map fuel o l j : sizes_ok fuel o -> Forall words l -> 0 <= j < 2 ^ 64 ->
  fold_left kv_apply (put_entry fuel o <$> l) ∅ !! makeKey j (bo_keySize o) = bench_value fuel o <$> last_put j l.
Proof.
  intros [_ Hkey _ _ _] Hw Hj. unfold last_put. induction l as [|p l IH] using rev_ind; [done|].
  apply Forall_app in Hw as [Hl [[Hp _] _]%Forall_cons].
  rewrite fmap_app, fold_left_app, filter_app, filter_cons, filter_nil. cbn [fmap list_fmap fold_left].
  rewrite kv_apply_lookup. cbn [put_entry entry_key entry_type entry_value]. case_decide as Hk.
  - apply makeKey_inj in Hk; [|lia..]. rewrite decide_True by done. by rewrite last_snoc.
  - rewrite decide_False by (intros E1; by rewrite E1 in Hk). rewrite app_nil_r. by apply IH.
Qed.

(** [c] holds what the rounds [l] left. *)
Definition holds (fuel : nat) (c : Client (E := E)) (o : BenchOptions) (l : list (Z * Z)) : Prop :=
  forall j, 0 <= j < 2 ^ 64 -> client_Get c (makeKey j (bo_keySize o)) =
    Some (match last_put j l with
          | Some v => RValue (bench_value fuel o v)
          | None => RStatus (Status.NotFound "key not found")
          end).

Definition fresh_client (io : E) : Client (E := E) := mkClient Queue_new (mkWorld io empty_file DBCore_new).

Lemma do_calls_puts `{!IoSpec E, !CpuSpec C} (io : E) fuel o l :
  io_inv io -> sizes_ok fuel o -> Forall words l -> zlen l <= 2 * bo_num o ->
  exists c ss, do_calls (fresh_client io) (put_call fuel o <$> l) = Some (c, ss) /\
    (Forall (fun s => Status.ok s = true) ss -> holds fuel c o l).
Proof.
  intros Hio Hok Hw Hlen. destruct (Hok) as [Hnum Hkey Hval _ Hlog].
  destruct (puts_fit fuel o ((fun p => [p]) <$> l) Hok) as (Hg & Hb & He).
  { apply Forall_fmap, Forall_forall. intros p Hp. rewrite Forall_forall in Hw. cbn.
    split; [repeat constructor; by apply Hw|lia]. }
  rewrite <- put_groups in Hg, Hb, He.
  assert (length (concat ((fun p => [p]) <$> l)) = length l) as Hcl by (clear; induction l; cbn; congruence).
  rewrite Hcl in Hb, He. rewrite length_fmap in Hb.
  destruct (do_calls_map io _ Hio Hg ltac:(nia) ltac:(lia)) as (c & ss & Hd & Hl & Hget).
  exists c, ss. split; [exact Hd|]. intros Hss j Hj. rewrite length_fmap in Hl. rewrite Hget, put_acknowledged by done.
  unfold kv_get. rewrite puts_map by done. by destruct (last_put j l).
Qed.

Lemma do_calls_app os1 os2 : forall c, do_calls (E := E) c (os1 ++ os2) =
  '(c, ss1) ← do_calls c os1; '(c, ss2) ← do_calls c os2; Some (c, ss1 ++ ss2).
Proof.
  induction os1 as [|o os1 IH]; intros c; cbn [app do_calls]; [cbn; by destruct (do_calls c os2) as [[]|]|].
  destruct (do_call c o) as [[c1 s]|]; [|done]. cbn [mbind option_bind]. rewrite IH.
  destruct (do_calls c1 os1) as [[c2 ss1]|]; [|done]. cbn [mbind option_bind]. by destruct (do_calls c2 os2) as [[]|].
Qed.

Lemma rounds_length o pick : zlen (rounds o pick) = Z.max 0 (bo_num o).
Proof. unfold rounds. rewrite length_fmap, length_seq. lia. Qed.

Lemma rounds_words o pick : (forall i, 0 <= i < bo_num o -> words (pick i)) -> Forall words (rounds o pick).
Proof. intros H. apply Forall_fmap, Forall_forall. intros i Hi%elem_of_seq. apply H. lia. Qed.

(** A loop of writes, on a database that was loaded with [l0]. *)
Lemma putRounds_spec `{!IoSpec E, !CpuSpec C} (io : E) fuel o l0 c0 ss0 pick :
  io_inv io -> sizes_ok fuel o -> Forall words l0 -> zlen l0 <= bo_num o ->
  do_calls (fresh_client io) (put_call fuel o <$> l0) = Some (c0, ss0) -> Forall (fun s => Status.ok s = true) ss0 ->
  (forall i, 0 <= i < bo_num o -> words (pick i)) ->
  exists c r, putRounds fuel c0 o pick = Some (c, r) /\ forall m, r = Some m ->
    m = mkMetrics (bo_num o) (u64 (total_bytes fuel o (rounds o pick))) /\
    holds fuel c o (l0 ++ rounds o pick) /\
    exists ss, do_calls (fresh_client io) (put_call fuel o <$> l0 ++ rounds o pick) = Some (c, ss) /\
      Forall (fun s => Status.ok s = true) ss.
Proof.
  intros Hio Hok Hw0 Hl0 Hd0 Hss0 Hpick. pose proof (so_num _ _ Hok) as Hnum.
  destruct (do_calls_puts io fuel o (l0 ++ rounds o pick) Hio Hok) as (c & ss & Hd & Hholds).
  { apply Forall_app. split; [done|by apply rounds_words]. }
  { rewrite length_app, Nat2Z.inj_add, rounds_length. lia. }
  pose proof Hd as Hd'. rewrite fmap_app, do_calls_app, Hd0 in Hd'. cbn [mbind option_bind] in Hd'.
  destruct (do_calls c0 _) as [[c1 ss1]|] eqn:Hd1; [|done]. cbn [mbind option_bind] in Hd'. injection Hd' as -> <-.
  unfold rounds in Hd1. rewrite <- list_fmap_compose in Hd1.
  destruct (putLoop_calls fuel o pick (Z.to_nat (bo_num o)) Hok 0 0 c0 c ss1) as (c' & r & Ep & Hr);
    [lia|intros; apply Hpick; lia|exact Hd1|].
  eexists c', _. split; [unfold putRounds; change 0 with (u64 0) at 2; setoid_rewrite Ep; reflexivity|].
  intros m Hm. destruct r as [b|]; [|done]. injection Hm as <-. destruct (Hr b eq_refl) as (-> & Hss1 & ->).
  assert (Forall (fun s => Status.ok s = true) (ss0 ++ ss1)) as Hss by (by apply Forall_app).
  split; [done|]. split; [by apply Hholds|]. exists (ss0 ++ ss1). done.
Qed.

Lemma preload_spec `{!IoSpec E, !CpuSpec C} (io : E) fuel o : io_inv io -> sizes_ok fuel o ->
  exists c b, preload fuel (fresh_client io) o = Some (c, b) /\ (b = true ->
    holds fuel c o (rounds o (fun i => (i, i))) /\
    exists ss, do_calls (fresh_client io) (put_call fuel o <$> rounds o (fun i => (i, i))) = Some (c, ss) /\
      Forall (fun s => Status.ok s = true) ss).
Proof.
  intros Hio Hok. pose proof (so_num _ _ Hok) as Hnum.
  destruct (putRounds_spec io fuel o [] (fresh_client io) [] (fun i => (i, i))) as (c & r & Ep & Hr);
    [done..|cbn; lia|done|done|unfold words; cbn; lia|].
  unfold putRounds in Ep. destruct (putLoop _ _ _ _ _ _ _) as [[c' t]|] eqn:Ep'; [|done]. injection Ep as <- <-.
  unfold preload. rewrite (preloadLoop_putLoop _ _ _ _ _ 0), Ep'. eexists _, _. split; [done|].
  intros [b ->]%bool_decide_eq_true. by destruct (Hr _ eq_refl) as (_ & ?).
Qed.

(** Keys below [num] were all loaded, each with its own value. *)
Lemma loaded_all o j : 0 <= j < bo_num o -> last_put j (rounds o (fun i => (i, i))) = Some j.
Proof.
  intros Hj. unfold last_put, rounds. set (n := Z.to_nat (bo_num o)). assert (j < Z.of_nat n) as Hn by lia. clearbody n.
  induction n as [|n IH]; [lia|]. rewrite seq_S, fmap_app, filter_app. cbn [fmap list_fmap Nat.add].
  rewrite filter_cons, filter_nil. cbn [fst]. case_decide as Hk; [rewrite last_snoc; cbn; by rewrite Hk|].
  rewrite app_nil_r. apply IH. lia.
Qed.

Lemma reads_hit fuel c o rng : holds fuel c o (rounds o (fun i => (i, i))) -> 0 < bo_num o < 2 ^ 64 ->
  forall hits total, 0 <= hits -> hits + zlen rng < 2 ^ 64 ->
  exists total', foldM (readRound c o) (hits, total) rng = Some (hits + zlen rng, total').
Proof.
  intros Hc Hnum. induction rng as [|r rng IH]; intros hits total H0 Hlt; cbn [foldM length]; [rewrite Z.add_0_r; eauto|].
  unfold readRound at 1. destruct (Z.eqb_spec (bo_num o) 0); [lia|].
  pose proof (Z.mod_pos_bound r (bo_num o) ltac:(lia)) as Hm.
  rewrite Hc, loaded_all by lia. cbn [mbind option_bind length] in *. rewrite (u64_small (hits + 1)) by lia.
  set (t := u64 _). destruct (IH (hits + 1) t) as [total' E1]; [lia|lia|]. exists total'. rewrite E1. do 2 f_equal. lia.
Qed.

(** The sequential benchmarks measure what they say. On any system that meets [IoSpec]
    each of them ends, with failure only if a write failed. Otherwise the database holds
    what the rounds wrote, the last one for each key, and nothing else; the bytes
    reported are those of the keys and values written, modulo 2^64; and every read of
    [benchReadRandom] is a hit, whatever the generator gives. *)
Theorem sequential_benchmarks_measure_writes `{!IoSpec E, !CpuSpec C} (io : E) fuel o rng :
  io_inv io -> sizes_ok fuel o -> 0 < bo_num o -> 0 <= bo_reads o < 2 ^ 64 ->
  (exists c r, benchFillSeq fuel (fresh_client io) o = Some (c, r) /\ forall m, r = Some m ->
    m = mkMetrics (bo_num o) (u64 (total_bytes fuel o (rounds o (fun i => (i, i))))) /\
    holds fuel c o (rounds o (fun i => (i, i)))) /\
  (exists c r, benchFillRandom fuel (fresh_client io) o rng = Some (c, r) /\ forall m, r = Some m ->
    m = mkMetrics (bo_num o) (u64 (total_bytes fuel o (rounds o (fun i => (rng (Z.to_nat i) mod bo_num o, i))))) /\
    holds fuel c o (rounds o (fun i => (rng (Z.to_nat i) mod bo_num o, i)))) /\
  (exists c r, benchOverwrite fuel (fresh_client io) o rng = Some (c, r) /\ forall m, r = Some m ->
    m = mkMetrics (bo_num o) (u64 (total_bytes fuel o (rounds o (fun i => (rng (Z.to_nat i) mod bo_num o, u64 (i + bo_num o)))))) /\
    holds fuel c o (rounds o (fun i => (i, i)) ++ rounds o (fun i => (rng (Z.to_nat i) mod bo_num o, u64 (i + bo_num o))))) /\
  (exists c r, benchReadRandom fuel (fresh_client io) o rng = Some (c, r) /\ forall m hits, r = Some (m, hits) ->
    metrics_ops m = bo_reads o /\ hits = bo_reads o).
Proof.
  intros Hio Hok Hpos Hreads. pose proof (so_num _ _ Hok) as Hnum.
  assert (forall i, 0 <= rng (Z.to_nat i) mod bo_num o < bo_num o) as Hm by (intros; apply Z.mod_pos_bound; lia).
  assert (Forall words (rounds o (fun i => (i, i)))) as Hid by (apply rounds_words; unfold words; cbn; lia).
  destruct (preload_spec io fuel o Hio Hok) as (c0 & b & Hp & Hb).
  split; [|split; [|split]].
  - destruct (putRounds_spec io fuel o [] (fresh_client io) [] (fun i => (i, i))) as (c & r & Ep & Hr);
      [done..|cbn; lia|done|done|unfold words; cbn; lia|].
    exists c, r. split; [exact Ep|]. intros m Em. by destruct (Hr m Em) as (? & ? & _).
  - destruct (putRounds_spec io fuel o [] (fresh_client io) [] (fun i => (rng (Z.to_nat i) mod bo_num o, i))) as (c & r & Ep & Hr);
      [done..|cbn; lia|done|done|intros i Hi; specialize (Hm i); unfold words; cbn [fst snd]; lia|].
    exists c, r. split; [exact Ep|]. intros m Em. by destruct (Hr m Em) as (? & ? & _).
  - unfold benchOverwrite. rewrite Hp. cbn [mbind option_bind]. destruct b; cbn [negb]; [|by eexists _, _].
    destruct (Hb eq_refl) as (_ & ss & Hd & Hss).
    destruct (putRounds_spec io fuel o _ c0 ss (fun i => (rng (Z.to_nat i) mod bo_num o, u64 (i + bo_num o))) Hio Hok Hid)
      as (c & r & Ep & Hr); [rewrite rounds_length; lia|done|done| |].
    { intros i Hi. specialize (Hm i). pose proof (u64_range (i + bo_num o)). unfold words. cbn [fst snd]. lia. }
    exists c, r. split; [exact Ep|]. intros m Em. by destruct (Hr m Em) as (? & ? & _).
  - unfold benchReadRandom. rewrite Hp. cbn [mbind option_bind]. destruct b; cbn [negb]; [|by eexists _, _].
    destruct (Hb eq_refl) as (Hh & _). set (l := rng <$> seq 0 (Z.to_nat (bo_reads o))).
    assert (zlen l = bo_reads o) as Hl by (unfold l; rewrite length_fmap, length_seq; lia).
    destruct (reads_hit fuel c0 o l Hh ltac:(lia) 0 0) as [total Er]; [lia|lia|]. unfold readRandom. rewrite Er.
    cbn [mbind option_bind]. eexists _, _. split; [done|]. intros m hits [= <- <-]. cbn. lia.
Qed.

End Loading.

(** The driver's text functions invert each other. [split] ends and gives the parts
    between the delimiters, none of which contains one and which joined give the input
    back; [parseUint64] reads exactly the non-empty strings of digits, as their decimal
    value modulo 2^64; and it reads a key of [makeKey] back as the number it was made of,
    so different numbers have different keys whatever the key size. *)
Theorem bench_text_round_trips :
  (forall input d, exists ps, split input d = Some ps /\ join d ps = input /\ Forall (fun p => d ∉ p) ps) /\
  (forall s, parseUint64 s = if bool_decide (s <> []) && forallb digit s then Some (u64 (decimal 0 s)) else None) /\
  (forall v n, 0 <= v < 2 ^ 64 -> 0 <= n < 2 ^ 31 -> parseUint64 (makeKey v n) = Some v).
Proof.
  split; [|split; [apply parseUint64_spec|apply makeKey_parses]].
  intros input d. destruct (splitLoop_spec d input (S (length input)) 0 []) as (ps & E & _ & Hj & Ha); [lia|lia|].
  exists ps. done.
Qed.

(** ** What the driver does not catch *)

(** A number that does not fit is taken modulo 2^64, past the checks of its range. *)
Lemma too_large_count_accepted :
  (bo_num <$> parseArgs [str "--num=18446744073709551617"] default_BenchOptions) = Some 1 /\
  (bo_threads <$> parseArgs [str "--threads=18446744073709551617"] default_BenchOptions) = Some 1.
Proof. split; vm_compute; reflexivity. Qed.

(** Reads without keys are accepted, and then divide by zero. *)
Lemma reads_without_keys `{Libc, Cpu} {E : Type} `{!Io E} : exists o,
  parseArgs [str "--num=0"; str "--reads=5"] default_BenchOptions = Some o /\
  forall (c : Client (E := E)) r rng, readRandom c o (r :: rng) = None.
Proof. eexists. split; [vm_compute; reflexivity|]. done. Qed.

(** A value size an [int] can hold, for which no number of rounds is enough. *)
Lemma largest_value_never_made fuel : makeValue fuel 0 INT_MAX = None.
Proof. unfold makeValue. by rewrite fillValue_endless. Qed.

(** ** Example *)

Definition small_run : BenchOptions :=
  mkBenchOptions (str "readrandom") (str "/tmp/db") 3 3 1 4 10 301 false 2000 100 8 true 200 16 10.

#[local] Existing Instance reference_libc.
#[local] Existing Instance reference_cpu.

(** Whether a benchmark returned [true]. *)
Definition reported {A B : Type} (x : A * option B) : bool := match x.2 with Some _ => true | None => false end.

Lemma sequential_benchmarks_measure_writes_witness : exists c c' total,
  benchOverwrite 10 (fresh_client (mkSim 0 [] : sim 4096)) small_run (fun i => 5 * Z.of_nat i + 1)
    = Some (c, Some (mkMetrics 3 42)) /\
  client_Get c (makeKey 0 4) = Some (RValue (str "value_4_va")) /\
  benchReadRandom 10 (fresh_client (mkSim 0 [] : sim 4096)) small_run Z.of_nat = Some (c', Some (mkMetrics 3 total, 3)).
Proof.
  destruct (sequential_benchmarks_measure_writes (mkSim 0 [] : sim 4096) 10 small_run (fun i => 5 * Z.of_nat i + 1))
    as (_ & _ & (c & r & E1 & H1) & _).
  - exact I.
  - split; vm_compute; intuition congruence.
  - reflexivity.
  - split; [discriminate|reflexivity].
  - destruct (sequential_benchmarks_measure_writes (mkSim 0 [] : sim 4096) 10 small_run Z.of_nat)
      as (_ & _ & _ & (c' & r' & E2 & H2)).
    + exact I.
    + split; vm_compute; intuition congruence.
    + reflexivity.
    + split; [discriminate|reflexivity].
    + assert (exists m, r = Some m) as [m Hm] by (apply (f_equal (fmap reported)) in E1; vm_compute in E1; destruct r as [m|]; [exists m; reflexivity|discriminate E1]).
      assert (exists m, r' = Some m) as [[m' hits] Hm'] by (apply (f_equal (fmap reported)) in E2; vm_compute in E2; destruct r' as [m''|]; [exists m''; reflexivity|discriminate E2]).
      destruct (H1 m Hm) as [Em Hc]. destruct (H2 m' hits Hm') as [Hops Hhits]. exists c, c', (metrics_bytes m').
      split; [|split].
      * etransitivity; [exact E1|]. rewrite Hm, Em. vm_compute. reflexivity.
      * etransitivity; [apply (Hc 0); vm_compute; intuition congruence|]. vm_compute. reflexivity.
      * etransitivity; [exact E2|]. rewrite Hm', Hhits. destruct m' as [ops total]. cbn in Hops. rewrite Hops. reflexivity.
Defined.
