(* ===== verification/BenchThreads.v ===== *)
(** * The benchmark with threads (benchmarks/storage_engine_bench.cc)

    [benchConcurrentFillSeq]: threads that share the indices out among themselves and call
    [Put] at the same time, as clients of the threads of [DbConcurrent]. Clocks are left
    out: a latency is any number. *)

From stdpp Require Import relations.
From S2P Require Import Prelude Status Coding Crc32c WriteBatch Wal MemTable Io Db DbTheorems.
From S2P Require Import WriterQueue WriterQueueFacts DbConcurrent DbClient Bench.

(** Where a thread of the benchmark is: at the loop's condition with [i], in [Put] of round
    [i] as writer [w], or gone. *)
Inductive bthread := BNext (i : Z) | BWaiting (i w : Z) | BEnded.

Definition ended (th : bthread) : bool := match th with BEnded => true | _ => false end.

Section Threads.
Context {L : Libc} {C : Cpu} {E : Type} `{!Io E} (opts : Options) (fuel : nat) (o : BenchOptions).

(** The database, the threads and what they share: the flag [failed], the count of bytes
    and the latencies; and, as history, the round each writer belongs to and the rounds
    that were counted. *)
Record FillSys := mkFill {
  f_db : QSys (World E);
  f_threads : list bthread;
  f_failed : bool;
  f_bytes : Z;
  f_latency : list Z;
  f_round : gmap Z Z;
  f_counted : list Z;
}.

Definition fill_start (w : World E) : FillSys :=
  mkFill (QSys_new w) ((fun t => BNext (Z.of_nat t)) <$> seq 0 (Z.to_nat (bo_threads o))) false 0
    (replicate (Z.to_nat (bo_num o)) 0) ∅ [].

(** The caller's part of [Put]: its writer, whose continuation ends the wait of [run], goes
    to [enqueueAsyncWriter]. *)
Definition enqueue (s : QSys (World E)) (w : Z) (b : WriteBatchT) : QSys (World E) :=
  let '(q, inline) := enqueueLocked (s_q s) w in
  let heap := <[w := new_writer b (Some w)]> (s_heap s) in
  if inline : bool then
    mkQSys q heap (s_world s) (Some w) (s_notifying s) (s_loop s) (s_came s ++ [w]) (s_written s) (s_resumed s)
  else
    mkQSys q heap (s_world s) (s_inline s) (s_notifying s) (notify (s_loop s)) (s_came s ++ [w]) (s_written s) (s_resumed s).

(** The call returns: its own thread has written the batch, or the writer thread has
    resumed it. *)
Definition answered (s : QSys (World E)) (w : Z) : bool :=
  existsb (fun d => negb (done_by_thread d) && bool_decide (w ∈ done_group d)) (s_written s)
  || bool_decide (w ∈ s_resumed s).

Definition with_db (s : FillSys) (db : QSys (World E)) : FillSys :=
  mkFill db (f_threads s) (f_failed s) (f_bytes s) (f_latency s) (f_round s) (f_counted s).

(** What the threads do, the database's own and those of the benchmark. *)
Inductive fstep : FillSys -> FillSys -> Prop :=
  | FDb s db : istep writeGroup opts (f_db s) db -> fstep s (with_db s db)
  | FPut s t i w value : f_threads s !! t = Some (BNext i) -> i < bo_num o ->
      makeValue fuel i (bo_valueSize o) = Some value -> s_heap (f_db s) !! w = None ->
      fstep s (mkFill (enqueue (f_db s) w (WriteBatch.Put WriteBatch.new (makeKey i (bo_keySize o)) value))
        (<[t := BWaiting i w]> (f_threads s)) (f_failed s) (f_bytes s) (f_latency s) (<[w := i]> (f_round s)) (f_counted s))
  | FLoopEnd s t i : f_threads s !! t = Some (BNext i) -> bo_num o <= i ->
      fstep s (mkFill (f_db s) (<[t := BEnded]> (f_threads s)) (f_failed s) (f_bytes s) (f_latency s) (f_round s) (f_counted s))
  | FCount s t i w x value micros latency : f_threads s !! t = Some (BWaiting i w) -> answered (f_db s) w = true ->
      s_heap (f_db s) !! w = Some x -> Status.ok (await_resume x) = true ->
      makeValue fuel i (bo_valueSize o) = Some value -> vec_set (f_latency s) i (u64 micros) = Some latency ->
      fstep s (mkFill (f_db s) (<[t := BNext (u64 (i + bo_threads o))]> (f_threads s)) (f_failed s)
        (u64 (f_bytes s + (zlen (makeKey i (bo_keySize o)) + zlen value))) latency (f_round s) (f_counted s ++ [i]))
  | FFail s t i w x : f_threads s !! t = Some (BWaiting i w) -> answered (f_db s) w = true ->
      s_heap (f_db s) !! w = Some x -> Status.ok (await_resume x) = false ->
      fstep s (mkFill (f_db s) (<[t := BEnded]> (f_threads s)) true (f_bytes s) (f_latency s) (f_round s) (f_counted s)).

(** The wait of the writer thread may also end by itself. *)
Inductive fspurious : FillSys -> FillSys -> Prop :=
  | FSpurious s : s_loop (f_db s) = LWait true -> fspurious s (with_db s (set_loop (f_db s) (s_q (f_db s)) (LWait false))).

Definition fill_reachable (w : World E) (s : FillSys) : Prop :=
  rtc (fun s s' => fstep s s' \/ fspurious s s') (fill_start w) s.

(** After the joins: [None] while some thread runs, no metrics for [return false]. *)
Definition benchConcurrentFillSeq (s : FillSys) : option (option Metrics) :=
  if forallb ended (f_threads s) then
    Some (if f_failed s then None else Some (mkMetrics (bo_num o) (f_bytes s)))
  else None.

End Threads.

(** ** Facts *)

(** The calls that have not returned: their rounds and writers. *)
Definition waiting (ths : list bthread) : list (Z * Z) :=
  omap (fun th => match th with BWaiting i w => Some (i, w) | _ => None end) ths.

Lemma waiting_insert ths t th th' : ths !! t = Some th ->
  waiting (<[t := th']> ths) ++ waiting [th] ≡ₚ waiting ths ++ waiting [th'].
Proof.
  intros Ht. rewrite <- (take_drop_middle ths t th Ht) at 2. rewrite insert_take_drop by (by eapply lookup_lt_Some).
  unfold waiting. rewrite !omap_app. change (th' :: drop (S t) ths) with ([th'] ++ drop (S t) ths).
  change (th :: drop (S t) ths) with ([th] ++ drop (S t) ths). rewrite !omap_app. solve_Permutation.
Qed.

Lemma waiting_length ths : (length (waiting ths) <= length ths)%nat.
Proof. unfold waiting. induction ths as [|[] ths IH]; cbn; lia. Qed.

Lemma elem_of_waiting ths i w : (i, w) ∈ waiting ths <-> exists t, ths !! t = Some (BWaiting i w).
Proof.
  unfold waiting. rewrite list_elem_of_omap. split.
  - intros ([] & Hin & [= -> ->]). by apply list_elem_of_lookup in Hin.
  - intros [t Ht]. exists (BWaiting i w). split; [by eapply list_elem_of_lookup_2|done].
Qed.

(** A list of different numbers below [n]. *)
Lemma NoDup_below (l : list Z) n : NoDup l -> (forall i, i ∈ l -> 0 <= i < n) ->
  l ⊆+ Z.of_nat <$> seq 0 (Z.to_nat n).
Proof.
  intros Hnd Hl. apply NoDup_submseteq; [done|]. intros i Hi. apply Hl in Hi. apply list_elem_of_fmap.
  exists (Z.to_nat i). split; [lia|]. apply elem_of_seq. lia.
Qed.

Lemma elem_of_concat {A} (x : A) ls : x ∈ concat ls <-> exists l, l ∈ ls /\ x ∈ l.
Proof. setoid_rewrite list_elem_of_In. apply in_concat. Qed.

Lemma length_le_concat {A} (ls : list (list A)) : Forall (fun l => l <> []) ls -> (length ls <= length (concat ls))%nat.
Proof. induction 1 as [|[|x l] ls Hl _ IH]; cbn; [lia|done|]. rewrite length_app. lia. Qed.

(** *** Rounds shared out among threads *)

Section Shares.
Context (T : Z) (HT : 0 < T).

(** Of the rounds in [l], thread [t] has begun the first [n] of its share, and no others. *)
Definition share (l : list Z) (t : nat) (n : Z) : Prop :=
  forall i, i ∈ l /\ i mod T = Z.of_nat t <-> exists k, 0 <= k < n /\ i = Z.of_nat t + k * T.

(** The next round of thread [t] is nobody else's. *)
Lemma share_next l t n : share l t n -> 0 <= n -> Z.of_nat t < T ->
  (Z.of_nat t + n * T) mod T = Z.of_nat t /\ Z.of_nat t + n * T ∉ l.
Proof.
  intros Hs Hn Ht. assert ((Z.of_nat t + n * T) mod T = Z.of_nat t) as Hm.
  { rewrite Z_mod_plus_full. apply Z.mod_small. lia. }
  split; [done|]. intros Hin. destruct (proj1 (Hs _) (conj Hin Hm)) as (k & Hk & Heq).
  assert (n = k) by nia. lia.
Qed.

Lemma share_put l t n t' n' : share l t n -> share l t' n' -> 0 <= n -> Z.of_nat t < T ->
  share (l ++ [Z.of_nat t + n * T]) t' (if decide (t = t') then n + 1 else n').
Proof.
  intros Hs Hs' Hn Ht i. destruct (share_next l t n Hs Hn Ht) as [Hm _].
  rewrite elem_of_app, list_elem_of_singleton. case_decide as Htt; [subst t'|].
  - specialize (Hs i). split.
    + intros [[Hin| ->] Hi]; [|exists n; lia]. destruct (proj1 Hs (conj Hin Hi)) as (k & ? & ?). exists k. lia.
    + intros (k & Hk & Hi). destruct (decide (k = n)) as [->|]; [subst i; auto|].
      destruct (proj2 Hs) as [? ?]; [exists k; lia|]. auto.
  - rewrite <- (Hs' i). split; [|tauto]. intros [[?| ->] Hi]; [done|]. rewrite Hm in Hi. lia.
Qed.

(** When every thread is past the end, all rounds were begun. *)
Lemma shares_all l N : NoDup l -> (forall i, i ∈ l -> 0 <= i < N) ->
  (forall t, Z.of_nat t < T -> exists n, share l t n /\ N <= Z.of_nat t + n * T) ->
  l ≡ₚ Z.of_nat <$> seq 0 (Z.to_nat N).
Proof.
  intros Hnd Hl Hall. apply NoDup_Permutation; [done|apply NoDup_fmap_2; [apply _|apply NoDup_seq]|].
  intros j. rewrite list_elem_of_fmap. split.
  - intros Hj. apply Hl in Hj. exists (Z.to_nat j). split; [lia|]. apply elem_of_seq. lia.
  - intros (n & -> & Hn%elem_of_seq). pose proof (Z.mod_pos_bound (Z.of_nat n) T HT) as Hm.
    destruct (Hall (Z.to_nat (Z.of_nat n mod T))) as (k & Hshare & Hge); [lia|].
    apply (Hshare (Z.of_nat n)). exists (Z.of_nat n / T). rewrite Z2Nat.id in * by lia.
    pose proof (Z.div_mod (Z.of_nat n) T ltac:(lia)) as Hdm. split; [|lia].
    split; [apply Z.div_pos; lia|]. nia.
Qed.

End Shares.

Section Facts.
Context {L : Libc} {C : Cpu} {E : Type} `{!Io E, !IoSpec E, !CpuSpec C} (opts : Options) (fuel : nat) (o : BenchOptions) (io : E).

Abbreviation T := (bo_threads o).
Abbreviation fill_sys := (FillSys (E := E)).

(** The rounds of the writers, as what they write. *)
Definition round_of (s : fill_sys) (w : Z) : Z := f_round s !!! w.
Definition pairs_of (s : fill_sys) (group : list Z) : list (Z * Z) := (fun w => (round_of s w, round_of s w)) <$> group.
Definition started (s : fill_sys) : list Z := round_of s <$> s_came (f_db s).

Definition written_ok (db : QSys (World E)) (w : Z) : Prop :=
  exists d, d ∈ s_written db /\ w ∈ done_group d /\ Status.ok (done_status d) = true.

Definition write_failed (db : QSys (World E)) : Prop := exists d, d ∈ s_written db /\ Status.ok (done_status d) = false.

Definition thread_inv (s : fill_sys) (t : nat) (th : bthread) : Prop :=
  exists n, 0 <= n /\ share T (started s) t n /\
    match th with
    | BNext i => i = Z.of_nat t + n * T
    | BWaiting i w => 0 < n /\ i = Z.of_nat t + (n - 1) * T /\ w ∈ s_came (f_db s) /\ round_of s w = i
    | BEnded => f_failed s = true \/ bo_num o <= Z.of_nat t + n * T
    end.

Record fill_inv (s : fill_sys) : Prop := {
  fi_db : reachable writeGroup opts (empty_world io) (f_db s);
  fi_stop : stopWriter_ (s_q (f_db s)) = false;
  fi_writer : forall w, w ∈ s_came (f_db s) -> 0 <= round_of s w < bo_num o /\
    writer_batch <$> s_heap (f_db s) !! w = Some (put_batch fuel o (round_of s w, round_of s w)) /\
    writer_continuation <$> s_heap (f_db s) !! w = Some (Some w);
  fi_started : NoDup (started s);
  fi_threads : zlen (f_threads s) = T;
  fi_thread : forall t th, f_threads s !! t = Some th -> thread_inv s t th;
  fi_group : Forall (fun d => zlen (done_group d) <= T /\ done_group d <> [] /\
    (done_by_thread d = false -> exists w, done_group d = [w])) (s_written (f_db s));
  fi_waited : forall w, w ∈ s_came (f_db s) -> w ∈ (waiting (f_threads s)).*2 \/
    answered (f_db s) w = true /\ (f_failed s = false -> written_ok (f_db s) w);
  fi_counted : f_failed s = false -> f_counted s ++ (waiting (f_threads s)).*1 ≡ₚ started s;
  fi_bytes : f_bytes s = u64 (total_bytes fuel o ((fun i => (i, i)) <$> f_counted s));
  fi_latency : zlen (f_latency s) = bo_num o;
  fi_failed : f_failed s = true -> write_failed (f_db s);
}.

Hypothesis Hok : sizes_ok fuel o.
Hypothesis HT : 0 < T < 2 ^ 31.
Hypothesis Hgroup : T * (29 + bo_keySize o + bo_valueSize o) + 12 < 2 ^ 32.
Hypothesis Hio : io_inv io.

Lemma fill_inv_start : fill_inv (fill_start o (empty_world io)).
Proof.
  split; cbn.
  - apply rtc_refl.
  - done.
  - by intros ? ?%not_elem_of_nil.
  - constructor.
  - rewrite length_fmap, length_seq. lia.
  - intros t th (t' & -> & [-> _]%lookup_seq)%list_lookup_fmap_Some. cbn.
    exists 0. split; [lia|]. split; [|lia]. intros i. split; [by intros [?%not_elem_of_nil _]|intros (k & ? & _); lia].
  - constructor.
  - by intros ? ?%not_elem_of_nil.
  - intros _. unfold started. cbn. unfold waiting.
    generalize (seq 0 (Z.to_nat T)). intros l. by induction l.
  - done.
  - rewrite length_replicate. pose proof (so_num _ _ Hok). lia.
  - done.
Qed.

(** *** The database under the threads *)

(** A call that returned is in a group that was written. *)
Lemma answered_written s w : fill_inv s -> answered (f_db s) w = true ->
  exists d, d ∈ s_written (f_db s) /\ w ∈ done_group d.
Proof.
  intros Hi Ha. apply orb_true_iff in Ha as [(d & Hd & [_ Hw%bool_decide_eq_true]%andb_true_iff)%existsb_exists|Hr%bool_decide_eq_true].
  - exists d. split; [by apply list_elem_of_In|done].
  - destruct (reachable_inv _ _ _ _ (fi_db s Hi)) as [_ Ho _ Hre _].
    assert (w ∈ continuations (s_heap (f_db s)) (drained (f_db s))) as Hc.
    { rewrite <- Hre. apply elem_of_app. by left. }
    apply list_elem_of_omap in Hc as (w' & Hw' & Hx).
    assert (w' = w) as ->.
    { destruct (fi_writer s Hi w' (drained_came _ _ Ho Hw')) as (_ & _ & Hcont).
      destruct (s_heap (f_db s) !! w'); [|done]. cbn in Hx, Hcont. congruence. }
    apply elem_of_concat in Hw' as (g & (d & -> & [_ Hd]%list_elem_of_filter)%list_elem_of_fmap & Hg). eauto.
Qed.

(** The writers that wait for their turn have a thread each that waits for them. *)
Definition pending (s : fill_sys) : list Z := in_hand (f_db s) ++ writers_ (s_q (f_db s)).

Lemma pending_waiting s : fill_inv s -> pending s ⊆+ (waiting (f_threads s)).*2.
Proof.
  intros Hi. destruct (reachable_inv _ _ _ _ (fi_db s Hi)) as [_ [Hf Hn _] _ _ _].
  fold (pending s) in Hf. rewrite <- Hf in Hn. apply NoDup_app in Hn as (_ & Hdisj & Hnd).
  apply NoDup_submseteq; [done|]. intros w Hw. destruct (fi_waited s Hi w) as [Hwait|[Ha _]].
  - rewrite <- Hf. apply elem_of_app. by right.
  - done.
  - destruct (answered_written s w Hi Ha) as (d & Hd & Hg). destruct (Hdisj w); [|done].
    by eapply elem_of_groups.
Qed.

Lemma pending_waited s : fill_inv s -> zlen (pending s) <= T.
Proof.
  intros Hi. pose proof (submseteq_length _ _ (pending_waiting s Hi)) as Hsub. rewrite length_fmap in Hsub. pose proof (waiting_length (f_threads s)).
  rewrite <- (fi_threads s Hi). lia.
Qed.

Lemma started_length s : fill_inv s -> zlen (s_came (f_db s)) <= bo_num o.
Proof.
  intros Hi. pose proof (so_num _ _ Hok). pose proof (NoDup_below (started s) (bo_num o) (fi_started s Hi)) as Hsub.
  rewrite <- (length_fmap (round_of s)). apply submseteq_length in Hsub.
  - rewrite length_fmap, length_seq in Hsub. unfold started in Hsub. lia.
  - intros i (w & -> & Hw)%list_elem_of_fmap. by apply (fi_writer s Hi).
Qed.

Lemma batches_of_pairs s group : fill_inv s -> (forall w, w ∈ group -> w ∈ s_came (f_db s)) ->
  batches_of (s_heap (f_db s)) group = Some (put_batches fuel o (pairs_of s group)).
Proof.
  intros Hi Hg. unfold batches_of, put_batches, pairs_of. rewrite <- list_fmap_compose. apply mapM_Some, Forall2_fmap_r.
  apply Forall_Forall2_diag, Forall_forall. intros w Hw. by apply (fi_writer s Hi), Hg.
Qed.

Lemma pairs_words s group : fill_inv s -> (forall w, w ∈ group -> w ∈ s_came (f_db s)) -> Forall words (pairs_of s group).
Proof.
  intros Hi Hg. apply Forall_fmap, Forall_forall. intros w Hw. destruct (fi_writer s Hi w (Hg w Hw)) as [Hr _].
  pose proof (so_num _ _ Hok). unfold words. cbn. lia.
Qed.

(** What was written, and what is in hand, fits the log. *)
Definition written_pairs (s : fill_sys) : list (list (Z * Z)) := (fun d => pairs_of s (done_group d)) <$> s_written (f_db s).

Lemma in_groups_came s w : fill_inv s -> w ∈ concat (done_group <$> s_written (f_db s)) ++ in_hand (f_db s) -> w ∈ s_came (f_db s).
Proof.
  intros Hi Hw. destruct (reachable_inv _ _ _ _ (fi_db s Hi)) as [_ [Hf _ _] _ _ _]. rewrite <- Hf, app_assoc.
  apply elem_of_app. by left.
Qed.

Lemma written_pairs_batches s : fill_inv s ->
  written_batches (f_db s) = Some (put_batches fuel o <$> written_pairs s).
Proof.
  intros Hi. unfold written_batches, written_pairs. rewrite <- list_fmap_compose. apply mapM_Some, Forall2_fmap_r.
  apply Forall_Forall2_diag, Forall_forall. intros d Hd. apply batches_of_pairs; [done|]. intros w Hw.
  apply in_groups_came; [done|]. apply elem_of_app. left. by eapply elem_of_groups.
Qed.

Lemma pairs_of_app s g1 g2 : pairs_of s (g1 ++ g2) = pairs_of s g1 ++ pairs_of s g2.
Proof. apply fmap_app. Qed.

Lemma pairs_of_length s g : length (pairs_of s g) = length g.
Proof. apply length_fmap. Qed.

Lemma concat_written_pairs s : concat (written_pairs s) = pairs_of s (concat (done_group <$> s_written (f_db s))).
Proof.
  unfold written_pairs. induction (s_written (f_db s)) as [|d l IH]; [done|]. cbn [fmap list_fmap concat].
  by rewrite pairs_of_app, <- IH.
Qed.

Lemma written_pairs_fit s : fill_inv s ->
  fits ((put_batches fuel o <$> written_pairs s) ++ [put_batches fuel o (pairs_of s (in_hand (f_db s)))]).
Proof.
  intros Hi. change [put_batches fuel o ?l] with (put_batches fuel o <$> [l]). rewrite <- fmap_app.
  destruct (reachable_inv _ _ _ _ (fi_db s Hi)) as [_ [Hf _ _] _ _ _]. destruct (Hok) as [Hnum Hkey Hval _ Hlog].
  pose proof (pending_waited s Hi) as Hp. unfold pending in Hp. rewrite length_app in Hp.
  pose proof (fi_group s Hi) as Hg. pose proof (started_length s Hi) as Hs.
  assert (forall l, zlen l <= T -> zlen (pairs_of s l) * (29 + bo_keySize o + bo_valueSize o) + 12 < 2 ^ 32) as Hlen.
  { intros l Hl. unfold pairs_of. rewrite length_fmap.
    pose proof (Z.mul_le_mono_nonneg_r (zlen l) T (29 + bo_keySize o + bo_valueSize o) ltac:(lia) Hl). lia. }
  destruct (puts_fit fuel o (written_pairs s ++ [pairs_of s (in_hand (f_db s))]) Hok) as (H1 & H2 & H3).
  { apply Forall_app. split.
    - apply Forall_fmap, Forall_forall. intros d Hd. rewrite Forall_forall in Hg. destruct (Hg d Hd) as [Hl _].
      split; [|by apply Hlen]. apply pairs_words; [done|]. intros w Hw. apply in_groups_came; [done|].
      apply elem_of_app. left. by eapply elem_of_groups.
    - repeat constructor; [|apply Hlen; lia]. apply pairs_words; [done|]. intros w Hw. apply in_groups_came; [done|].
      apply elem_of_app. by right. }
  assert (concat (written_pairs s ++ [pairs_of s (in_hand (f_db s))]) =
    pairs_of s (concat (done_group <$> s_written (f_db s)) ++ in_hand (f_db s))) as Hc.
  { rewrite concat_app, concat_written_pairs, pairs_of_app. cbn [concat]. by rewrite app_nil_r. }
  rewrite Hc in H2, H3. rewrite pairs_of_length in H2, H3.
  rewrite <- Hf, app_assoc, length_app in Hs.
  pose proof (length_le_concat (done_group <$> s_written (f_db s))) as Hle. rewrite length_fmap in Hle.
  specialize (Hle ltac:(apply Forall_fmap; eapply Forall_impl; [exact Hg|]; cbn; tauto)).
  assert (length (written_pairs s ++ [pairs_of s (in_hand (f_db s))]) = S (length (s_written (f_db s)))) as Hm
    by (rewrite length_app; unfold written_pairs; rewrite length_fmap; cbn [length]; lia).
  rewrite Hm in H2. rewrite !length_app in *.
  split; [exact H1|]. split; [|lia]. eapply Z.le_lt_trans; [exact H2|].
  set (X := 29 + bo_keySize o + bo_valueSize o) in *.
  assert (Z.of_nat (length (concat (done_group <$> s_written (f_db s))) + length (in_hand (f_db s))) <= bo_num o) as Hn by lia.
  pose proof (Z.mul_le_mono_nonneg_r _ _ X ltac:(lia) Hn) as Hmul.
  replace (2 * bo_num o * (50 + bo_keySize o + bo_valueSize o)) with (42 * bo_num o + 2 * (bo_num o * X)) in Hlog
    by (unfold X; ring). eapply Z.le_lt_trans; [apply Z.add_le_mono_l; exact Hmul|]. lia.
Qed.

(** *** Every step keeps the invariant *)

Lemma answered_mono (db db' : QSys (World E)) w ds r : s_written db' = s_written db ++ ds -> s_resumed db' = s_resumed db ++ r ->
  answered db w = true -> answered db' w = true.
Proof.
  unfold answered. intros -> ->. rewrite existsb_app, !orb_true_iff, !bool_decide_eq_true, elem_of_app. tauto.
Qed.

(** A thread that did not move, when rounds are as they were. *)
Lemma thread_inv_frame s s' t th : started s' = started s -> (forall w, w ∈ s_came (f_db s) -> w ∈ s_came (f_db s')) ->
  f_round s' = f_round s -> (f_failed s = true -> f_failed s' = true) -> thread_inv s t th -> thread_inv s' t th.
Proof.
  intros Hs Hc Hr Hf (n & Hn & Hshare & Hth). exists n. split; [done|]. split; [by rewrite Hs|].
  unfold round_of. rewrite Hr. destruct th; [done| |].
  - destruct Hth as (? & ? & ? & ?). auto.
  - destruct Hth; auto.
Qed.

(** A step of the database. *)
Lemma fill_inv_db s db ds r : fill_inv s -> wstep writeGroup opts (f_db s) db ->
  s_came db = s_came (f_db s) -> stopWriter_ (s_q db) = stopWriter_ (s_q (f_db s)) ->
  (forall w, same_writers (s_heap (f_db s)) (s_heap db) w) ->
  s_written db = s_written (f_db s) ++ ds -> s_resumed db = s_resumed (f_db s) ++ r ->
  Forall (fun d => zlen (done_group d) <= T /\ done_group d <> [] /\
    (done_by_thread d = false -> exists w, done_group d = [w])) ds ->
  fill_inv (with_db s db).
Proof.
  intros Hi Hstep Hc Hst Hsame Hw Hr Hds.
  assert (started (with_db s db) = started s) as Hs by (unfold started; cbn; by rewrite Hc).
  split; cbn [with_db f_db f_threads f_failed f_bytes f_latency f_round f_counted]; try apply Hi.
  - eapply rtc_r; [apply Hi|done].
  - rewrite Hst. apply Hi.
  - intros w Hin. rewrite Hc in Hin. destruct (Hsame w) as [-> ->]. by apply (fi_writer s Hi).
  - rewrite Hs. apply Hi.
  - intros t th Ht. eapply thread_inv_frame; [exact Hs|cbn; by rewrite Hc|done|done|]. by apply Hi.
  - rewrite Hw. apply Forall_app. split; [apply Hi|done].
  - intros w Hin. rewrite Hc in Hin. destruct (fi_waited s Hi w Hin) as [?|[Ha Hwo]]; [by left|right].
    split; [by eapply answered_mono|]. intros Hf. destruct (Hwo Hf) as (d & Hd & ?). exists d.
    rewrite Hw, elem_of_app. auto.
  - intros Hf. rewrite Hs. by apply Hi.
  - intros Hf. destruct (fi_failed s Hi Hf) as (d & Hd & ?). exists d. rewrite Hw, elem_of_app. auto.
Qed.

Lemma fill_inv_istep s db : fill_inv s -> istep writeGroup opts (f_db s) db -> fill_inv (with_db s db).
Proof.
  intros Hi Hstep. destruct (reachable_inv _ _ _ _ (fi_db s Hi)) as [Ht _ _ _ _].
  destruct (istep_frame _ _ _ _ Ht Hstep) as (Hc & Hst & Hsame & [r Hr] & Hw).
  pose proof (pending_waited s Hi) as Hp. unfold pending in Hp. rewrite length_app in Hp.
  destruct Hw as [Hw|(thread & st & Hw & Hne & Hone)].
  - eapply (fill_inv_db s db [] r); [done|by left|done..|by rewrite app_nil_r|done|constructor].
  - eapply (fill_inv_db s db [_] r); [done|by left|done..|]. repeat constructor; cbn; [lia|done|done].
Qed.

Lemma fill_inv_spurious s : fill_inv s -> s_loop (f_db s) = LWait true ->
  fill_inv (with_db s (set_loop (f_db s) (s_q (f_db s)) (LWait false))).
Proof.
  intros Hi Hl. eapply (fill_inv_db s _ [] []); [done|right; by constructor|done..|by rewrite app_nil_r|by rewrite app_nil_r|constructor].
Qed.

(** What [enqueue] does to the database. *)
Lemma enqueue_frame (db : QSys (World E)) w b : stopWriter_ (s_q db) = false -> await_ready b = false -> s_heap db !! w = None ->
  let db' := enqueue db w b in
  wstep writeGroup opts db db' /\ s_came db' = s_came db ++ [w] /\ s_heap db' = <[w := new_writer b (Some w)]> (s_heap db) /\
  s_written db' = s_written db /\ s_resumed db' = s_resumed db /\ stopWriter_ (s_q db') = false /\
  (work db' <= work db + 9)%nat.
Proof.
  intros Hst Hb Hw. cbv zeta. unfold enqueue. destruct (enqueueLocked (s_q db) w) as [q []] eqn:Hq.
  - pose proof (enqueueLocked_inline _ _ _ Hq) as (_ & Hq0 & _ & Hq1 & Hs).
    split; [right; by apply EnqueueInline|]. cbn. rewrite Hs. do 5 (split; [done|]). unfold work. cbn. rewrite Hq1. cbn. lia.
  - pose proof (enqueueLocked_queued _ _ _ Hq) as (Hq1 & _ & Hs).
    split; [right; by apply EnqueueQueued|]. cbn. rewrite Hs. do 5 (split; [done|]).
    unfold work, inlining. cbn. rewrite Hq1, length_app. cbn. destruct (s_loop db) as [[]| | | |]; cbn; lia.
Qed.

Definition put_state (s : fill_sys) (t : nat) (i w : Z) (value : bytes) : fill_sys :=
  mkFill (enqueue (f_db s) w (WriteBatch.Put WriteBatch.new (makeKey i (bo_keySize o)) value))
    (<[t := BWaiting i w]> (f_threads s)) (f_failed s) (f_bytes s) (f_latency s) (<[w := i]> (f_round s)) (f_counted s).

Lemma put_frame s t i w value : fill_inv s -> s_heap (f_db s) !! w = None -> let s' := put_state s t i w value in
  s_came (f_db s') = s_came (f_db s) ++ [w] /\ (w ∉ s_came (f_db s)) /\
  (forall w', w' ∈ s_came (f_db s) -> round_of s' w' = round_of s w' /\ s_heap (f_db s') !! w' = s_heap (f_db s) !! w') /\
  round_of s' w = i /\ started s' = started s ++ [i].
Proof.
  intros Hi Hw s'.
  destruct (enqueue_frame (f_db s) w (WriteBatch.Put WriteBatch.new (makeKey i (bo_keySize o)) value) (fi_stop s Hi) eq_refl Hw)
    as (_ & Hc & Hh & _).
  assert (w ∉ s_came (f_db s)) as Hnew by (intros Hin; destruct (fi_writer s Hi w Hin) as (_ & Hx & _); by rewrite Hw in Hx).
  assert (forall w', w' ∈ s_came (f_db s) -> round_of s' w' = round_of s w' /\ s_heap (f_db s') !! w' = s_heap (f_db s) !! w') as Hold.
  { intros w' Hw'. assert (w <> w') by (intros <-; done). unfold round_of. cbn. rewrite Hh.
    by rewrite lookup_total_insert_ne, lookup_insert_ne. }
  assert (round_of s' w = i) as Hwi by (unfold round_of; cbn; apply lookup_total_insert_eq).
  do 4 (split; [done|]). unfold started. cbn [s' put_state f_db]. rewrite Hc, fmap_app. cbn [fmap list_fmap]. rewrite Hwi. f_equal.
  apply list_fmap_ext. intros ? ? Hl. by apply Hold, (list_elem_of_lookup_2 _ _ _ Hl).
Qed.

Lemma put_threads s t i w value : fill_inv s -> f_threads s !! t = Some (BNext i) -> s_heap (f_db s) !! w = None ->
  forall t' th, f_threads (put_state s t i w value) !! t' = Some th -> thread_inv (put_state s t i w value) t' th.
Proof.
  intros Hi Ht Hw t' th Hth. destruct (put_frame s t i w value Hi Hw) as (Hc & _ & Hold & Hwi & Hs). revert Hth Hold Hwi Hs Hc.
  set (s' := put_state s t i w value). intros Hth Hold Hwi Hs Hc. cbn [s' put_state f_threads] in Hth.
  pose proof (lookup_lt_Some _ _ _ Ht) as HtT. pose proof (fi_threads s Hi) as Hths.
  destruct (fi_thread s Hi t _ Ht) as (n & Hn & Hshare & Hieq). rewrite Hieq in Hs.
  destruct (decide (t = t')) as [<-|Hne].
  - rewrite list_lookup_insert_eq in Hth by done. injection Hth as <-. exists (n + 1). split; [lia|].
    pose proof (share_put T (proj1 HT) _ t n t n Hshare Hshare Hn ltac:(lia)) as Hsh. rewrite decide_True, <- Hs in Hsh by done.
    split; [exact Hsh|]. rewrite Hc, elem_of_app, list_elem_of_singleton. replace (n + 1 - 1) with n by lia.
    split; [lia|]. auto.
  - rewrite list_lookup_insert_ne in Hth by done. destruct (fi_thread s Hi t' th Hth) as (n' & Hn' & Hshare' & Hcase).
    pose proof (share_put T (proj1 HT) _ t n t' n' Hshare Hshare' Hn ltac:(lia)) as Hsh. rewrite decide_False, <- Hs in Hsh by done.
    exists n'. split; [done|]. split; [exact Hsh|]. destruct th as [|i' w'|]; [done| |exact Hcase].
    destruct Hcase as (? & ? & Hw' & ?). destruct (Hold w' Hw') as [-> _]. rewrite Hc, elem_of_app. auto.
Qed.

Lemma fill_inv_put s t i w value : fill_inv s -> f_threads s !! t = Some (BNext i) -> i < bo_num o ->
  makeValue fuel i (bo_valueSize o) = Some value -> s_heap (f_db s) !! w = None -> fill_inv (put_state s t i w value).
Proof.
  intros Hi Ht Hlt Hv Hw. pose proof (put_threads s t i w value Hi Ht Hw) as Hthreads.
  destruct (put_frame s t i w value Hi Hw) as (Hc & Hnew & Hold & Hwi & Hs). revert Hthreads Hc Hold Hwi Hs.
  set (s' := put_state s t i w value). intros Hthreads Hc Hold Hwi Hs.
  pose proof (lookup_lt_Some _ _ _ Ht) as HtT. pose proof (fi_threads s Hi) as Hths.
  destruct (fi_thread s Hi t _ Ht) as (n & Hn & Hshare & Hieq).
  destruct (share_next T (proj1 HT) (started s) t n Hshare Hn ltac:(lia)) as [_ Hfresh]. rewrite <- Hieq in Hfresh.
  assert (0 <= i < 2 ^ 64) as Hi64 by (pose proof (so_num _ _ Hok); nia).
  destruct (bench_value_spec fuel o i Hok Hi64) as [Hb _]. rewrite Hv in Hb. injection Hb as Hval.
  destruct (enqueue_frame (f_db s) w (WriteBatch.Put WriteBatch.new (makeKey i (bo_keySize o)) value) (fi_stop s Hi) eq_refl Hw)
    as (Hstep & _ & Hh & Hwr & Hre & Hst & _). change (enqueue _ _ _) with (f_db s') in Hstep, Hh, Hwr, Hre, Hst.
  pose proof (waiting_insert _ _ _ (BWaiting i w) Ht) as Hwait. change (<[t := _]> _) with (f_threads s') in Hwait.
  cbn [waiting omap list_omap] in Hwait. rewrite app_nil_r in Hwait.
  split; try apply Hi; try done.
  - eapply rtc_r; [apply Hi|exact Hstep].
  - intros w'. rewrite Hc, elem_of_app, list_elem_of_singleton. intros [Hw'| ->].
    + destruct (Hold w' Hw') as [-> ->]. by apply (fi_writer s Hi).
    + rewrite Hwi, Hh, lookup_insert_eq, Hval. split; [lia|done].
  - rewrite Hs. apply NoDup_app. split; [apply Hi|]. split; [|apply NoDup_singleton].
    intros j Hj ->%list_elem_of_singleton. done.
  - cbn [s' put_state f_threads]. by rewrite length_insert.
  - rewrite Hwr. apply Hi.
  - intros w'. rewrite Hc, Hwait, fmap_app, !elem_of_app, list_elem_of_singleton. intros [Hw'| ->]; [|left; right; by left].
    destruct (fi_waited s Hi w' Hw') as [?|[Ha Hok']]; [auto|]. right. unfold answered, written_ok in *. by rewrite Hwr, Hre.
  - intros Hf. rewrite Hwait, Hs, fmap_app, app_assoc. change (f_counted s') with (f_counted s).
    by rewrite (fi_counted s Hi Hf).
  - intros Hf. unfold write_failed. rewrite Hwr. by apply (fi_failed s Hi).
Qed.

(** A thread leaves the call it may be in. *)
Lemma fill_inv_move s t th th' failed total latency counted : fill_inv s -> f_threads s !! t = Some th ->
  let s' := mkFill (f_db s) (<[t := th']> (f_threads s)) failed total latency (f_round s) counted in
  (f_failed s = true -> failed = true) -> thread_inv s' t th' -> waiting [th'] = [] ->
  (forall i w, th = BWaiting i w -> answered (f_db s) w = true /\ (failed = false -> written_ok (f_db s) w)) ->
  (failed = false -> counted = f_counted s ++ (waiting [th]).*1) ->
  total = u64 (total_bytes fuel o ((fun i => (i, i)) <$> counted)) -> zlen latency = bo_num o ->
  (failed = true -> write_failed (f_db s)) -> fill_inv s'.
Proof.
  intros Hi Ht s' Hf Hth' Hw' Hans Hcount Htotal Hlat Hfail.
  pose proof (waiting_insert _ _ _ th' Ht) as Hwait. change (<[t := th']> _) with (f_threads s') in Hwait.
  rewrite Hw', app_nil_r in Hwait.
  split; try apply Hi; try done.
  - cbn [s' f_threads]. rewrite length_insert. apply Hi.
  - intros t' th'' Hl. destruct (decide (t = t')) as [<-|Hne]; cbn [s' f_threads] in Hl.
    + rewrite list_lookup_insert_eq in Hl by (by eapply lookup_lt_Some). by injection Hl as <-.
    + rewrite list_lookup_insert_ne in Hl by done. eapply (thread_inv_frame s); [done..|]. by apply Hi.
  - intros w Hw. destruct (fi_waited s Hi w Hw) as [Hin|[Ha Hwo]].
    + rewrite <- Hwait, fmap_app, elem_of_app in Hin. destruct Hin as [Hin|Hin]; [by left|right].
      destruct th as [|i' w0|]; cbn in Hin; [by apply not_elem_of_nil in Hin| |by apply not_elem_of_nil in Hin].
      apply list_elem_of_singleton in Hin as ->. by apply (Hans i' w0).
    + right. split; [done|]. intros Hff. apply Hwo. destruct (f_failed s); [|done]. cbn in Hff. by rewrite Hf in Hff.
  - intros Hff. cbn [s' f_failed] in Hff. change (started s') with (started s). rewrite <- (fi_counted s Hi), <- Hwait, fmap_app.
    + change (f_counted s') with counted. rewrite (Hcount Hff). solve_Permutation.
    + destruct (f_failed s); [|done]. by rewrite Hf in Hff.
Qed.

(** The status a call returns is that of its group. *)
Lemma answered_status s w x : fill_inv s -> answered (f_db s) w = true -> s_heap (f_db s) !! w = Some x ->
  exists d, d ∈ s_written (f_db s) /\ w ∈ done_group d /\ done_status d = await_resume x.
Proof.
  intros Hi Ha Hx. destruct (answered_written s w Hi Ha) as (d & Hd & Hw). exists d. split; [done|]. split; [done|].
  destruct (reachable_inv _ _ _ _ (fi_db s Hi)) as [_ _ [_ Hst] _ _]. rewrite Forall_forall in Hst.
  destruct (Hst d Hd w Hw) as (x' & Hx' & <-). by simplify_eq.
Qed.

Lemma total_bytes_snoc l p : total_bytes fuel o (l ++ [p]) = total_bytes fuel o l + put_bytes fuel o p.
Proof. unfold total_bytes. induction l as [|q l IH]; cbn; [lia|]. cbn in IH. rewrite IH. lia. Qed.

Lemma fill_inv_fstep s s' : fill_inv s -> fstep opts fuel o s s' -> fill_inv s'.
Proof.
  intros Hi Hstep. destruct Hstep as [s db Hd|s t i w value Ht Hlt Hv Hw|s t i Ht Hge
    |s t i w x value micros latency Ht Ha Hx Hs Hv Hl|s t i w x Ht Ha Hx Hs].
  - by apply fill_inv_istep.
  - by apply fill_inv_put.
  - destruct (fi_thread s Hi t _ Ht) as (n & Hn & Hshare & Heq). apply (fill_inv_move s t (BNext i)); try done.
    + exists n. split; [done|]. split; [exact Hshare|]. right. lia.
    + by rewrite app_nil_r.
    + apply Hi.
    + apply Hi.
    + apply Hi.
  - destruct (fi_thread s Hi t _ Ht) as (n & Hn & Hshare & Hn0 & Heq & Hin & Hr).
    destruct (fi_writer s Hi w Hin) as (Hrange & _). rewrite Hr in Hrange. pose proof (so_num _ _ Hok).
    destruct (bench_value_spec fuel o i Hok ltac:(lia)) as [Hb _]. rewrite Hv in Hb. injection Hb as ->.
    apply (fill_inv_move s t (BWaiting i w)); try done.
    + exists n. split; [done|]. split; [exact Hshare|]. rewrite u64_small by lia. lia.
    + intros ? ? [= <- <-]. split; [done|]. intros _.
      destruct (answered_status s w x Hi Ha Hx) as (d & ? & ? & Hd). exists d. by rewrite Hd.
    + rewrite (fi_bytes s Hi), u64_add_l, fmap_app. cbn [fmap list_fmap]. by rewrite total_bytes_snoc.
    + rewrite <- (fi_latency s Hi). unfold vec_set in Hl. case_match; [|done]. injection Hl as <-. by rewrite length_insert.
    + apply Hi.
  - destruct (fi_thread s Hi t _ Ht) as (n & Hn & Hshare & _). apply (fill_inv_move s t (BWaiting i w)); try done.
    + exists n. split; [done|]. split; [exact Hshare|]. by left.
    + by intros ? ? [= <- <-].
    + apply Hi.
    + apply Hi.
    + intros _. destruct (answered_status s w x Hi Ha Hx) as (d & ? & _ & Hd). exists d. by rewrite Hd.
Qed.

Lemma fill_reachable_inv s : fill_reachable opts fuel o (empty_world io) s -> fill_inv s.
Proof.
  revert s. apply (rtc_ind_r fill_inv); [apply fill_inv_start|]. intros s s' _ [Hs|Hs] Hi; [by eapply fill_inv_fstep|].
  destruct Hs. by apply fill_inv_spurious.
Qed.

(** *** Progress *)

(** What a thread has to do: it bounds the steps until the benchmark ends. *)
Definition thread_work (th : bthread) : nat :=
  match th with
  | BNext i => 1 + 20 * Z.to_nat (bo_num o - i)
  | BWaiting i _ => 20 * Z.to_nat (bo_num o - i) - 9
  | BEnded => 0
  end.

Definition fill_work (s : fill_sys) : nat := sum_list_with thread_work (f_threads s) + work (f_db s).

Lemma thread_work_insert ths t th th' : ths !! t = Some th ->
  (sum_list_with thread_work (<[t := th']> ths) + thread_work th = sum_list_with thread_work ths + thread_work th')%nat.
Proof.
  intros Ht. rewrite <- (take_drop_middle ths t th Ht) at 2. rewrite insert_take_drop by (by eapply lookup_lt_Some).
  rewrite !sum_list_with_app. cbn. lia.
Qed.

Lemma fill_work_decreases s s' : fill_inv s -> fstep opts fuel o s s' -> (fill_work s' < fill_work s)%nat.
Proof.
  intros Hi Hstep. pose proof (so_num _ _ Hok) as Hnum.
  destruct Hstep as [s db Hd|s t i w value Ht Hlt Hv Hw|s t i Ht Hge
    |s t i w x value micros latency Ht Ha Hx Hs Hv Hl|s t i w x Ht Ha Hx Hs]; unfold fill_work; cbn [with_db f_threads f_db].
  - destruct (reachable_inv _ _ _ _ (fi_db s Hi)) as [Hturn _ _ _ _]. pose proof (work_decreases _ _ _ _ Hturn Hd). lia.
  - destruct (enqueue_frame (f_db s) w (WriteBatch.Put WriteBatch.new (makeKey i (bo_keySize o)) value) (fi_stop s Hi) eq_refl Hw)
      as (_ & _ & _ & _ & _ & _ & Hwork).
    pose proof (thread_work_insert _ _ _ (BWaiting i w) Ht) as Hsum. cbn [thread_work] in Hsum. lia.
  - pose proof (thread_work_insert _ _ _ BEnded Ht) as Hsum. cbn [thread_work] in Hsum. lia.
  - destruct (fi_thread s Hi t _ Ht) as (n & Hn & Hshare & Hn0 & Heq & Hin & Hr).
    destruct (fi_writer s Hi w Hin) as (Hrange & _). rewrite Hr in Hrange.
    pose proof (thread_work_insert _ _ _ (BNext (u64 (i + T))) Ht) as Hsum. cbn [thread_work] in Hsum.
    rewrite u64_small in Hsum by lia. rewrite u64_small by lia. lia.
  - destruct (fi_thread s Hi t _ Ht) as (n & Hn & Hshare & Hn0 & Heq & Hin & Hr).
    destruct (fi_writer s Hi w Hin) as (Hrange & _). rewrite Hr in Hrange.
    pose proof (thread_work_insert _ _ _ BEnded Ht) as Hsum. cbn [thread_work] in Hsum. lia.
Qed.

(** When the database's threads have nothing to do, every call returns. *)
Lemma finished_answers s w : fill_inv s -> finished (f_db s) -> w ∈ s_came (f_db s) -> answered (f_db s) w = true.
Proof.
  intros Hi (Hin & _ & Hq & Hl) Hw. destruct (reachable_inv _ _ _ _ (fi_db s Hi)) as [_ Ho _ Hre _].
  pose proof (oi_fifo _ Ho) as Hf. unfold in_hand, resume_inv in *. rewrite Hin, Hq in Hf.
  destruct Hl as [[Hl _]|[_ Hst]]; [|by rewrite (fi_stop s Hi) in Hst]. rewrite Hl in *. cbn in Hf, Hre.
  rewrite !app_nil_r in *. rewrite <- Hf in Hw. apply elem_of_concat in Hw as (g & (d & -> & Hd)%list_elem_of_fmap & Hwg).
  unfold answered. rewrite orb_true_iff. destruct (done_by_thread d) eqn:Hd'.
  - right. apply bool_decide_eq_true. rewrite Hre. apply list_elem_of_omap. exists w. split.
    + apply elem_of_concat. exists (done_group d). split; [|done]. apply list_elem_of_fmap. exists d.
      split; [done|]. by apply list_elem_of_filter.
    + destruct (fi_writer s Hi w) as (_ & _ & Hc).
      { rewrite <- Hf. apply elem_of_concat. exists (done_group d). split; [by apply list_elem_of_fmap_2|done]. }
      destruct (s_heap (f_db s) !! w); [|done]. cbn in *. congruence.
  - left. apply existsb_exists. exists d. split; [by apply list_elem_of_In|]. rewrite Hd'. by apply bool_decide_eq_true.
Qed.

Lemma fill_stuck_ended s : fill_inv s -> (forall s', ~ fstep opts fuel o s s') -> forallb ended (f_threads s) = true.
Proof.
  intros Hi Hno. apply Is_true_eq_true, forallb_True, Forall_lookup. intros t th Ht. pose proof (so_num _ _ Hok) as Hnum.
  assert (finished (f_db s)) as Hfin.
  { destruct (reachable_inv _ _ _ _ (fi_db s Hi)) as [Hturn Ho _ _ _].
    apply (stuck_finished writeGroup opts); [done|done| |].
    - eapply (fits_can_write opts io); [done|apply Hi|by apply written_pairs_batches| |by apply written_pairs_fit].
      apply batches_of_pairs; [done|]. intros w Hw. apply in_groups_came; [done|]. apply elem_of_app. by right.
    - intros db Hd. by apply (Hno (with_db s db)), FDb. }
  destruct (fi_thread s Hi t th Ht) as (n & Hn & Hshare & Hth). destruct th as [i|i w|]; [| |done]; exfalso.
  - destruct (Z.lt_ge_cases i (bo_num o)) as [Hlt|Hge]; [|by eapply Hno, FLoopEnd].
    destruct (bench_value_spec fuel o i Hok ltac:(nia)) as [Hv _].
    eapply Hno, (FPut _ _ _ s t i (fresh (dom (s_heap (f_db s))))); [done|done|exact Hv|]. apply not_elem_of_dom, is_fresh.
  - destruct Hth as (_ & _ & Hin & Hr). destruct (fi_writer s Hi w Hin) as (Hrange & Hb & _). rewrite Hr in Hrange.
    pose proof (finished_answers s w Hi Hfin Hin) as Ha. destruct (s_heap (f_db s) !! w) as [x|] eqn:Hx; [|done].
    destruct (bench_value_spec fuel o i Hok ltac:(lia)) as [Hv _]. pose proof (fi_latency s Hi) as Hlat.
    destruct (Status.ok (await_resume x)) eqn:Hs; eapply Hno; [|by eapply FFail].
    eapply (FCount _ _ _ s t i w x _ 0); [done..|exact Hv|]. unfold vec_set. zb; [done|lia..].
Qed.

(** *** The outcome *)

Lemma ended_waiting ths : forallb ended ths = true -> waiting ths = [].
Proof. unfold waiting. induction ths as [|[] ths IH]; cbn; done. Qed.

(** Threads that ended without a failure have shared all rounds out. *)
Lemma ended_started s : fill_inv s -> forallb ended (f_threads s) = true -> f_failed s = false ->
  started s ≡ₚ Z.of_nat <$> seq 0 (Z.to_nat (bo_num o)).
Proof.
  intros Hi He Hf. pose proof (fi_threads s Hi) as Hths. apply (shares_all T); [lia|apply Hi| |].
  - intros i (w & -> & Hw)%list_elem_of_fmap. by apply (fi_writer s Hi).
  - intros t Ht. destruct (lookup_lt_is_Some_2 (f_threads s) t) as [th Hth]; [lia|].
    apply forallb_forall with (x := th) in He; [|by eapply list_elem_of_In, list_elem_of_lookup_2].
    destruct th; [done..|]. destruct (fi_thread s Hi t _ Hth) as (k & Hk & Hshare & [?|Hge]); [congruence|eauto].
Qed.

Lemma written_entries ls : concat (all_entries <$> (put_batches fuel o <$> ls)) = put_entry fuel o <$> concat ls.
Proof. induction ls as [|l ls IH]; [done|]. cbn [fmap list_fmap concat]. by rewrite fmap_app, put_batch_entries, IH. Qed.

(** The database is what the groups written so far have made of it. *)
Lemma fill_run s : fill_inv s -> exists imgs ds,
  run_groups (empty_world io) (put_batches fuel o <$> written_pairs s) =
    Some (s_world (f_db s), done_status <$> s_written (f_db s)) /\
  db_inv (s_world (f_db s)) imgs ds /\
  concat ((fun d => entries_ (batch d)) <$> ds) =
    acknowledged (put_batches fuel o <$> written_pairs s) (done_status <$> s_written (f_db s)).
Proof.
  intros Hi. destruct (reachable_run opts io _ (fi_db s Hi)) as (gs & Hgs & Hrun).
  rewrite (written_pairs_batches s Hi) in Hgs. injection Hgs as <-.
  destruct (written_pairs_fit s Hi) as (Hg & Hb & Hen). apply Forall_app in Hg as [Hg _].
  destruct (run_from_new io _ Hio Hg) as (w & ss & imgs & ds & E1 & _ & Hinv & Hack & _).
  { clear -Hb. unfold groups_bytes in *. rewrite foldr_app in Hb. cbn in Hb.
    eapply Z.le_lt_trans; [|exact Hb]. clear. induction (put_batches fuel o <$> _) as [|g gs IH]; cbn; lia. }
  { clear -Hen. unfold groups_entries in *. rewrite foldr_app in Hen. cbn in Hen.
    eapply Z.le_lt_trans; [|exact Hen]. clear. apply Z.add_le_mono_r.
    induction (put_batches fuel o <$> _) as [|g gs IH]; cbn; lia. }
  exists imgs, ds. unfold empty_world in Hrun. rewrite Hrun in E1. injection E1 as <- <-. done.
Qed.

(** Then every group was written, and the database is what the writers put there. *)
Lemma ended_get s : fill_inv s -> forallb ended (f_threads s) = true -> f_failed s = false ->
  forall k, DB_Get (w_db (s_world (f_db s))) k =
    Some (kv_get (fold_left kv_apply (put_entry fuel o <$> pairs_of s (s_came (f_db s))) ∅) k).
Proof.
  intros Hi He Hf k. pose proof (fi_db s Hi) as Hr. pose proof (reachable_inv _ _ _ _ Hr) as [_ [Hfifo _ _] [_ Hst] _ _].
  pose proof (pending_waiting s Hi) as Hp. rewrite (ended_waiting _ He) in Hp. apply submseteq_nil_r in Hp.
  unfold pending in Hp. rewrite Hp, app_nil_r in Hfifo.
  destruct (fill_run s Hi) as (imgs & ds & _ & Hinv & Hack).
  rewrite (DB_Get_inv _ _ _ k Hinv), visible_replay, Hack, acknowledged_ok.
  - by rewrite written_entries, concat_written_pairs, Hfifo.
  - unfold written_pairs. by rewrite !length_fmap.
  - apply Forall_fmap, Forall_forall. intros d Hd. pose proof (fi_group s Hi) as Hgr. rewrite Forall_forall in Hgr, Hst.
    destruct (Hgr d Hd) as (_ & Hne & _). destruct (done_group d) as [|w0 g] eqn:Hdg; [done|].
    assert (w0 ∈ done_group d) as Hw0 by (rewrite Hdg; by left).
    destruct (fi_waited s Hi w0) as [Hwait|[_ Hwo]].
    { rewrite <- Hfifo. by eapply elem_of_groups. }
    { rewrite (ended_waiting _ He) in Hwait. by apply not_elem_of_nil in Hwait. }
    destruct (Hwo Hf) as (d' & Hd' & Hw' & Hs). destruct (Hst d Hd w0 Hw0) as (x & Hx & Hsx).
    destruct (Hst d' Hd' w0 Hw') as (x' & Hx' & Hsx'). cbn. congruence.
Qed.

Lemma total_bytes_perm l l' : l ≡ₚ l' -> total_bytes fuel o l = total_bytes fuel o l'.
Proof. unfold total_bytes. induction 1; cbn in *; lia. Qed.

(** What [benchConcurrentFillSeq] reports. *)
Lemma fill_reports s m : fill_inv s -> benchConcurrentFillSeq o s = Some (Some m) ->
  m = mkMetrics (bo_num o) (u64 (total_bytes fuel o (rounds o (fun i => (i, i))))) /\
  f_counted s ≡ₚ Z.of_nat <$> seq 0 (Z.to_nat (bo_num o)) /\
  forall j, 0 <= j < 2 ^ 64 -> DB_Get (w_db (s_world (f_db s))) (makeKey j (bo_keySize o)) =
    Some (if j <? bo_num o then RValue (bench_value fuel o j) else RStatus (Status.NotFound "key not found")).
Proof.
  intros Hi Hm. unfold benchConcurrentFillSeq in Hm. destruct (forallb ended (f_threads s)) eqn:He; [|done].
  destruct (f_failed s) eqn:Hf; [done|]. injection Hm as <-. pose proof (ended_started s Hi He Hf) as Hperm.
  pose proof (fi_counted s Hi Hf) as Hc. rewrite (ended_waiting _ He), app_nil_r, Hperm in Hc.
  split; [|split; [done|]].
  - rewrite (fi_bytes s Hi). do 2 f_equal. apply total_bytes_perm. rewrite Hc. unfold rounds.
    by rewrite <- list_fmap_compose.
  - intros j Hj. rewrite (ended_get s Hi He Hf). unfold kv_get.
    rewrite puts_map by (done || (apply pairs_words; [done|auto])).
    enough (last_put j (pairs_of s (s_came (f_db s))) = if j <? bo_num o then Some j else None) as ->
      by (by destruct (j <? bo_num o)).
    assert (forall i, i ∈ started s <-> 0 <= i < bo_num o) as Hin.
    { intros i. rewrite Hperm, list_elem_of_fmap. setoid_rewrite elem_of_seq. split; [intros (? & ? & ?); lia|].
      intros ?. exists (Z.to_nat i). lia. }
    unfold last_put. destruct (last (filter _ _)) as [p|] eqn:El; cbn.
    + apply last_Some_elem_of, list_elem_of_filter in El as [<- (w & -> & Hw)%list_elem_of_fmap]. cbn.
      destruct (fi_writer s Hi w Hw) as [Hr _]. zb; [done|lia].
    + apply last_None in El. zb; [|done]. exfalso.
      assert (j ∈ started s) as (w & -> & Hw)%list_elem_of_fmap by (apply Hin; lia).
      assert ((round_of s w, round_of s w) ∈ filter (fun p => p.1 = round_of s w) (pairs_of s (s_came (f_db s)))) as Hx.
      { apply list_elem_of_filter. split; [done|]. apply list_elem_of_fmap. eauto. }
      rewrite El in Hx. by apply not_elem_of_nil in Hx.
Qed.

End Facts.

(** C33: the threads of [benchConcurrentFillSeq] fill the database. Whatever the options of
    the database and however the threads take turns, the benchmark ends: every step uses
    up some of [fill_work], and as long as a thread runs some step can be taken. It reports
    failure only if a group could not be written. Otherwise each round was written and
    counted exactly once, the bytes are those of all keys and values modulo 2^64, and the
    database holds every key with its value and no other key of the benchmark. *)
Theorem concurrent_fill_writes_all {L : Libc} {C : Cpu} {E : Type} `{!Io E, !IoSpec E, !CpuSpec C}
    (opts : Options) fuel o (io : E) s :
  io_inv io -> sizes_ok fuel o -> 0 < bo_threads o < 2 ^ 31 ->
  bo_threads o * (29 + bo_keySize o + bo_valueSize o) + 12 < 2 ^ 32 ->
  fill_reachable opts fuel o (empty_world io) s ->
  (forall s', fstep opts fuel o s s' -> (fill_work o s' < fill_work o s)%nat) /\
  ((forall s', ~ fstep opts fuel o s s') -> is_Some (benchConcurrentFillSeq o s)) /\
  (benchConcurrentFillSeq o s = Some None -> write_failed (f_db s)) /\
  (forall m, benchConcurrentFillSeq o s = Some (Some m) ->
    m = mkMetrics (bo_num o) (u64 (total_bytes fuel o (rounds o (fun i => (i, i))))) /\
    f_counted s ≡ₚ Z.of_nat <$> seq 0 (Z.to_nat (bo_num o)) /\
    forall j, 0 <= j < 2 ^ 64 -> DB_Get (w_db (s_world (f_db s))) (makeKey j (bo_keySize o)) =
      Some (if j <? bo_num o then RValue (bench_value fuel o j) else RStatus (Status.NotFound "key not found"))).
Proof.
  intros Hio Hok HT Hg Hr. pose proof (fill_reachable_inv opts fuel o io Hok HT s Hr) as Hi.
  split; [|split; [|split]].
  - intros s' Hs. by eapply fill_work_decreases.
  - intros Hno. unfold benchConcurrentFillSeq. rewrite (fill_stuck_ended opts fuel o io) by done. eauto.
  - unfold benchConcurrentFillSeq. destruct (forallb ended (f_threads s)); [|done].
    destruct (f_failed s) eqn:Hf; [|done]. intros _. by apply Hi.
  - intros m Hm. by eapply fill_reports.
Qed.

(** ** [benchConcurrentReadRandom] *)

(** The threads' next rounds, what they share (hits, bytes and latencies), and, as history,
    the rounds that were read. *)
Record ReadSys := mkRead {
  r_next : list Z;
  r_hits : Z;
  r_bytes : Z;
  r_latency : list Z;
  r_rounds : list Z;
}.

Section Reads.
Context {L : Libc} {C : Cpu} {E : Type} `{!Io E} (c : Client (E := E)) (o : BenchOptions) (rng : nat -> Z -> Z).

Definition read_start : ReadSys :=
  mkRead (Z.of_nat <$> seq 0 (Z.to_nat (bo_threads o))) 0 0 (replicate (Z.to_nat (bo_reads o)) 0) [].

(** Thread [t] reads in round [i], with the number [rng t i] of its own generator. *)
Inductive read_step : ReadSys -> ReadSys -> Prop :=
  | RRead s t i r micros latency : r_next s !! t = Some i -> i < bo_reads o -> bo_num o <> 0 ->
      client_Get c (makeKey (rng t i mod bo_num o) (bo_keySize o)) = Some r ->
      vec_set (r_latency s) i (u64 micros) = Some latency ->
      read_step s (mkRead (<[t := u64 (i + bo_threads o)]> (r_next s))
        (match r with RValue _ => u64 (r_hits s + 1) | RStatus _ => r_hits s end)
        (match r with
         | RValue v => u64 (r_bytes s + (zlen (makeKey (rng t i mod bo_num o) (bo_keySize o)) + zlen v))
         | RStatus _ => r_bytes s
         end) latency (r_rounds s ++ [i])).

(** After the joins; [None] while some thread reads. *)
Definition benchConcurrentReadRandom (s : ReadSys) : option (Metrics * bool) :=
  if forallb (fun i => bo_reads o <=? i) (r_next s)
  then Some (mkMetrics (bo_reads o) (r_bytes s), r_hits s =? bo_reads o) else None.

Definition read_work (s : ReadSys) : nat := sum_list_with (fun i => Z.to_nat (bo_reads o - i)) (r_next s).

Record read_inv (s : ReadSys) : Prop := {
  ri_threads : zlen (r_next s) = bo_threads o;
  ri_next : forall t i, r_next s !! t = Some i -> exists n, 0 <= n /\ share (bo_threads o) (r_rounds s) t n /\
    i = Z.of_nat t + n * bo_threads o;
  ri_rounds : NoDup (r_rounds s);
  ri_range : forall i, i ∈ r_rounds s -> 0 <= i < bo_reads o;
  ri_hits : r_hits s = zlen (r_rounds s);
  ri_latency : zlen (r_latency s) = bo_reads o;
}.

Context (fuel : nat) (Hc : holds fuel c o (rounds o (fun i => (i, i)))).
Hypothesis Hnum : 0 < bo_num o < 2 ^ 64.
Hypothesis Hreads : 0 <= bo_reads o < 2 ^ 63.
Hypothesis HT : 0 < bo_threads o < 2 ^ 31.

Lemma loaded_get r : client_Get c (makeKey (r mod bo_num o) (bo_keySize o)) = Some (RValue (bench_value fuel o (r mod bo_num o))).
Proof. pose proof (Z.mod_pos_bound r (bo_num o) ltac:(lia)). rewrite Hc, loaded_all by lia. done. Qed.

Lemma read_inv_start : read_inv read_start.
Proof.
  split; cbn; try done.
  - rewrite length_fmap, length_seq. lia.
  - intros t i (t' & -> & [-> _]%lookup_seq)%list_lookup_fmap_Some. exists 0. split; [lia|]. split; [|cbn; lia].
    intros i. split; [by intros [?%not_elem_of_nil _]|intros (k & ? & _); lia].
  - constructor.
  - by intros ? ?%not_elem_of_nil.
  - rewrite length_replicate. lia.
Qed.

Lemma read_inv_step s s' : read_inv s -> read_step s s' -> read_inv s' /\ (read_work s' < read_work s)%nat.
Proof.
  intros Hi Hstep. destruct Hstep as [s t i r micros latency Ht Hlt Hn0 Hget Hl].
  rewrite loaded_get in Hget. injection Hget as <-. pose proof (ri_threads s Hi) as Hths.
  pose proof (lookup_lt_Some _ _ _ Ht) as HtT. destruct (ri_next s Hi t i Ht) as (n & Hn & Hshare & Heq).
  destruct (share_next _ (proj1 HT) _ t n Hshare Hn ltac:(lia)) as [_ Hfresh]. rewrite <- Heq in Hfresh.
  assert (0 <= i) as Hi0 by nia.
  assert (NoDup (r_rounds s ++ [i])) as Hnd.
  { apply NoDup_app. split; [apply Hi|]. split; [|apply NoDup_singleton]. by intros j Hj ->%list_elem_of_singleton. }
  assert (forall j, j ∈ r_rounds s ++ [i] -> 0 <= j < bo_reads o) as Hrange.
  { intros j [Hj| ->%list_elem_of_singleton]%elem_of_app; [by apply (ri_range s Hi)|lia]. }
  pose proof (submseteq_length _ _ (NoDup_below _ _ Hnd Hrange)) as Hlen. rewrite length_fmap, length_seq, length_app in Hlen.
  cbn in Hlen. rewrite u64_small by lia. split; [split; cbn; try done|].
  - by rewrite length_insert.
  - intros t' j Hj. destruct (decide (t = t')) as [<-|Hne].
    + rewrite list_lookup_insert_eq in Hj by done. injection Hj as <-. exists (n + 1). split; [lia|].
      pose proof (share_put _ (proj1 HT) _ t n t n Hshare Hshare Hn ltac:(lia)) as Hsh.
      rewrite decide_True, <- Heq in Hsh by done. split; [done|]. lia.
    + rewrite list_lookup_insert_ne in Hj by done. destruct (ri_next s Hi t' j Hj) as (n' & Hn' & Hshare' & ?).
      pose proof (share_put _ (proj1 HT) _ t n t' n' Hshare Hshare' Hn ltac:(lia)) as Hsh.
      rewrite decide_False, <- Heq in Hsh by done. eauto.
  - rewrite (ri_hits s Hi), length_app. cbn. rewrite u64_small by lia. lia.
  - rewrite <- (ri_latency s Hi). unfold vec_set in Hl. case_match; [|done]. injection Hl as <-. by rewrite length_insert.
  - unfold read_work. cbn. rewrite <- (take_drop_middle _ t i Ht) at 2.
    rewrite insert_take_drop by done. rewrite !sum_list_with_app. cbn. lia.
Qed.

(** Threads that read a database that was loaded end, and all their reads are hits. *)
Lemma concurrent_reads_hit s : rtc read_step read_start s ->
  (forall s', read_step s s' -> (read_work s' < read_work s)%nat) /\
  ((forall s', ~ read_step s s') -> exists m, benchConcurrentReadRandom s = Some (m, true)) /\
  (forall m b, benchConcurrentReadRandom s = Some (m, b) -> b = true /\ r_rounds s ≡ₚ Z.of_nat <$> seq 0 (Z.to_nat (bo_reads o))).
Proof.
  intros Hr. assert (read_inv s) as Hi.
  { revert s Hr. apply (rtc_ind_r read_inv); [apply read_inv_start|]. intros s s' _ Hs Hi. by destruct (read_inv_step s s' Hi Hs). }
  assert (forall m b, benchConcurrentReadRandom s = Some (m, b) ->
    b = true /\ r_rounds s ≡ₚ Z.of_nat <$> seq 0 (Z.to_nat (bo_reads o))) as Hend.
  { unfold benchConcurrentReadRandom. intros m b. destruct (forallb _ (r_next s)) eqn:He; [|done]. intros [= _ <-].
    assert (r_rounds s ≡ₚ Z.of_nat <$> seq 0 (Z.to_nat (bo_reads o))) as Hperm.
    { apply (shares_all (bo_threads o)); [lia|apply Hi|apply Hi|]. intros t Ht. pose proof (ri_threads s Hi).
      destruct (lookup_lt_is_Some_2 (r_next s) t) as [i Hl]; [lia|]. destruct (ri_next s Hi t i Hl) as (n & _ & Hshare & ->).
      apply forallb_forall with (x := Z.of_nat t + n * bo_threads o) in He; [|by eapply list_elem_of_In, list_elem_of_lookup_2].
      exists n. split; [done|]. zb; done. }
    split; [|done]. apply Permutation_length in Hperm. rewrite length_fmap, length_seq in Hperm.
    rewrite (ri_hits s Hi). zb; lia. }
  split; [|split; [|exact Hend]].
  - intros s' Hs. by destruct (read_inv_step s s' Hi Hs).
  - intros Hno. destruct (benchConcurrentReadRandom s) as [[m b]|] eqn:Hb.
    { exists m. by destruct (Hend m b eq_refl) as [-> _]. }
    exfalso. unfold benchConcurrentReadRandom in Hb. destruct (forallb _ (r_next s)) eqn:He; [done|].
    apply not_true_iff_false in He. apply He, Is_true_eq_true, forallb_True, Forall_lookup. intros t i Ht.
    apply Is_true_true. destruct (Z.leb_spec (bo_reads o) i) as [|Hlt]; [done|]. exfalso.
    destruct (ri_next s Hi t i Ht) as (n & Hn & _ & Heq). pose proof (ri_latency s Hi).
    eapply Hno, (RRead s t i _ 0); [done|done|lia|apply loaded_get|]. unfold vec_set. zb; done || nia.
Qed.

End Reads.

(** ** A run *)

#[local] Existing Instance reference_libc.
#[local] Existing Instance reference_cpu.

(** Two threads and three rounds: the first thread writes its first round itself, the other
    two rounds are written by the writer thread, as one group. *)
Definition two_threads : BenchOptions :=
  mkBenchOptions (str "concurrent_fillseq") (str "/tmp/db") 3 3 2 4 10 301 false 2000 100 8 true 200 16 10.

Ltac fill_step t := take_step ltac:(left; t).

Definition round_batch (i : Z) : WriteBatchT := put_batch 10 two_threads (i, i).

(** The run, for any worlds the writes lead to. *)
Lemma two_threads_steps {E : Type} `{!Io E} (w0 w1 w2 : World E) :
  writeGroup w0 [round_batch 0] = Some (w1, Status.Ok) -> writeGroup w1 [round_batch 1; round_batch 2] = Some (w2, Status.Ok) ->
  exists s, fill_reachable default_Options 10 two_threads w0 s /\
    benchConcurrentFillSeq two_threads s = Some (Some (mkMetrics 3 42)).
Proof.
  intros H1 H2. eexists. split.
  - unfold fill_reachable.
    fill_step ltac:(eapply (FPut _ _ _ _ 0 0 1); vm_compute; reflexivity).
    fill_step ltac:(eapply (FPut _ _ _ _ 1 1 2); vm_compute; reflexivity).
    fill_step ltac:(eapply FDb, (InlineWrite _ _ _ 1); [reflexivity|reflexivity|exact H1]).
    fill_step ltac:(eapply FDb, (Notify _ _ _ 0); reflexivity).
    fill_step ltac:(eapply (FCount _ _ _ _ 0 0 1 _ _ 5); vm_compute; reflexivity).
    fill_step ltac:(eapply (FPut _ _ _ _ 0 2 3); vm_compute; reflexivity).
    fill_step ltac:(eapply FDb, LoopCollect; reflexivity).
    fill_step ltac:(eapply FDb, (LoopDrainWindow _ _ _ _ _ true); reflexivity).
    fill_step ltac:(eapply FDb, (LoopWrite _ _ _ [2; 3]); [reflexivity|reflexivity|exact H2]).
    fill_step ltac:(eapply FDb, LoopResumeOne; reflexivity).
    fill_step ltac:(eapply FDb, LoopResumeOne; reflexivity).
    fill_step ltac:(eapply (FCount _ _ _ _ 1 1 2 _ _ 7); vm_compute; reflexivity).
    fill_step ltac:(eapply (FCount _ _ _ _ 0 2 3 _ _ 9); vm_compute; reflexivity).
    fill_step ltac:(eapply (FLoopEnd _ _ _ _ 0 4); vm_compute; congruence).
    fill_step ltac:(eapply (FLoopEnd _ _ _ _ 1 3); vm_compute; congruence).
    apply rtc_refl.
  - vm_compute. reflexivity.
Qed.

Lemma two_threads_run : exists s : FillSys (E := sim 4096),
  fill_reachable default_Options 10 two_threads (empty_world sample_io) s /\
  benchConcurrentFillSeq two_threads s = Some (Some (mkMetrics 3 42)).
Proof.
  apply (two_threads_steps _ (world_after (empty_world sample_io) [round_batch 0])
    (world_after (world_after (empty_world sample_io) [round_batch 0]) [round_batch 1; round_batch 2]));
    vm_compute; reflexivity.
Qed.

Lemma concurrent_fill_writes_all_witness : exists s : FillSys (E := sim 4096),
  f_counted s ≡ₚ [0; 1; 2] /\
  DB_Get (w_db (s_world (f_db s))) (str "0002") = Some (RValue (str "value_2_va")).
Proof.
  destruct two_threads_run as (s & Hr & Hm). exists s.
  destruct (concurrent_fill_writes_all default_Options 10 two_threads sample_io s) as (_ & _ & _ & H).
  - exact I.
  - split; vm_compute; intuition congruence.
  - split; reflexivity.
  - reflexivity.
  - exact Hr.
  - destruct (H _ Hm) as (_ & Hc & Hg). split; [exact Hc|].
    etransitivity; [apply (Hg 2); vm_compute; intuition congruence|]. vm_compute. reflexivity.
Defined.
