(* ===== verification/UringExecutor.v ===== *)
(** * The io_uring executor (src/io/uring_executor.h, src/io/uring_executor.cc)

    The rings the executor shares with the kernel, submission, the completion loop and
    the awaitable operations. The kernel is a parameter: [Kernel] is what it can be asked
    to do, [KernelSpec] the documented behaviour of io_uring, as steps on the shared
    memory and the file. *)

From S2P Require Import Prelude Status Coding Crc32c WriteBatch Wal Io.

(** ** <linux/io_uring.h> *)

Definition IORING_OP_NOP : Z := 0.
Definition IORING_OP_READV : Z := 1.
Definition IORING_OP_WRITEV : Z := 2.
Definition IORING_OP_FSYNC : Z := 3.
Definition IOSQE_IO_LINK : Z := 4.
Definition IORING_FSYNC_DATASYNC : Z := 1.
Definition IORING_ENTER_GETEVENTS : Z := 1.
Definition IORING_ENTER_SQ_WAKEUP : Z := 2.
Definition IORING_SQ_NEED_WAKEUP : Z := 1.
Definition EINTR : Z := 4.
Definition ECANCELED : Z := 125.

(** What the [addr] of a request points at: an array of fragments to gather from (with the
    memory the fragments point into), or one fragment describing the read buffer. *)
Inductive uaddr := NullAddr | IovecArray (mem : bytes) (iovs : list iovec) | BufferIovec (sz : Z).

Record sqe := mkSqe {
  opcode : Z;
  sqe_flags : Z;
  sqe_fd : Z;
  sqe_off : Z;
  sqe_addr : uaddr;
  sqe_len : Z;
  fsync_flags : Z;
  user_data : Z;
}.

Definition sqe_zero : sqe := mkSqe 0 0 0 0 NullAddr 0 0 0.

Record cqe := mkCqe { cqe_user_data : Z; cqe_res : Z }.

(** The memory shared with the kernel: [SubmissionRing], [CompletionRing], the request
    array; and the buffer a read fills. *)
Record Shm := mkShm {
  sq_head : Z;
  sq_tail : Z;
  sq_ringMask : Z;
  sq_ringEntries : Z;
  sq_flags : Z;
  sq_array : list Z;
  sqes : list sqe;
  cq_head : Z;
  cq_tail : Z;
  cq_ringMask : Z;
  cq_ringEntries : Z;
  cqes : list cqe;
  userbuf : bytes;
}.

Definition set_sq (m : Shm) (tail : Z) (array : list Z) (es : list sqe) : Shm :=
  mkShm (sq_head m) tail (sq_ringMask m) (sq_ringEntries m) (sq_flags m) array es
    (cq_head m) (cq_tail m) (cq_ringMask m) (cq_ringEntries m) (cqes m) (userbuf m).

Definition set_sq_head (m : Shm) (head : Z) : Shm :=
  mkShm head (sq_tail m) (sq_ringMask m) (sq_ringEntries m) (sq_flags m) (sq_array m) (sqes m)
    (cq_head m) (cq_tail m) (cq_ringMask m) (cq_ringEntries m) (cqes m) (userbuf m).

Definition set_sq_flags (m : Shm) (flags : Z) : Shm :=
  mkShm (sq_head m) (sq_tail m) (sq_ringMask m) (sq_ringEntries m) flags (sq_array m) (sqes m)
    (cq_head m) (cq_tail m) (cq_ringMask m) (cq_ringEntries m) (cqes m) (userbuf m).

Definition set_cq_head (m : Shm) (head : Z) : Shm :=
  mkShm (sq_head m) (sq_tail m) (sq_ringMask m) (sq_ringEntries m) (sq_flags m) (sq_array m) (sqes m)
    head (cq_tail m) (cq_ringMask m) (cq_ringEntries m) (cqes m) (userbuf m).

Definition set_cq (m : Shm) (tail : Z) (cs : list cqe) (buf : bytes) : Shm :=
  mkShm (sq_head m) (sq_tail m) (sq_ringMask m) (sq_ringEntries m) (sq_flags m) (sq_array m) (sqes m)
    (cq_head m) tail (cq_ringMask m) (cq_ringEntries m) cs buf.

Definition set_userbuf (m : Shm) (buf : bytes) : Shm := set_cq m (cq_tail m) (cqes m) buf.

(** The kernel's own state [K], the shared memory and the file. *)
Record mach (K : Type) := mkMach { m_kern : K; m_shm : Shm; m_file : file }.
Arguments mkMach {K} m_kern m_shm m_file.
Arguments m_kern {K} m.
Arguments m_shm {K} m.
Arguments m_file {K} m.

Definition with_shm {K} (m : mach K) (s : Shm) : mach K := mkMach (m_kern m) s (m_file m).

(** What the executor can ask of the kernel, and what the kernel does on its own between
    two accesses to the shared memory. *)
Class Kernel (K : Type) := {
  k_async : mach K -> mach K;
  (** [io_uring_enter(ringFd, to_submit, min_complete, flags)] and its return value. *)
  k_enter : mach K -> Z -> Z -> Z -> mach K * Z;
  k_errno : mach K -> Z;
}.

(** ** The executor's state *)

(** [State], as far as running operations use it. *)
Record UState := mkUState {
  ringFd : Z;
  stopping : bool;
  completionLoopCompletions : Z;
  sqPollEnabled : bool;
}.

(** A coroutine handle; the operations' addresses are the keys of the heap. *)
Record Operation := mkOperation {
  op_sqe : sqe;
  op_continuation : option Z;
  op_result : Z;
}.

(** Where the completion thread is: about to wait, draining, or gone. *)
Inductive loop_phase := AtEnter | AtDrain | Exited.

Record Exec (K : Type) := mkExec {
  x_mach : mach K;
  x_state : UState;
  x_heap : gmap Z Operation;
  x_phase : loop_phase;
  x_resumed : list Z;
}.
Arguments mkExec {K} x_mach x_state x_heap x_phase x_resumed.
Arguments x_mach {K} e.
Arguments x_state {K} e.
Arguments x_heap {K} e.
Arguments x_phase {K} e.
Arguments x_resumed {K} e.

Section Executor.
Context {L : Libc} {K : Type} `{!Kernel K}.

(** Reading a word the kernel also writes: by then it may have gone on. *)
Definition loadAcquire (m : mach K) (word : Shm -> Z) : mach K * Z :=
  let m := k_async m in (m, word (m_shm m)).

Definition wakeSqPollIfNeeded (m : mach K) (st : UState) : mach K * StatusT :=
  if negb (sqPollEnabled st) then (m, Status.Ok) else
  let '(m, flags) := loadAcquire m sq_flags in
  if Z.land flags IORING_SQ_NEED_WAKEUP =? 0 then (m, Status.Ok) else
  let '(m, ret) := k_enter m 0 0 IORING_ENTER_SQ_WAKEUP in
  if ret <? 0 then (m, Status.IoError (errnoMessage "io_uring_enter sqpoll wakeup" (k_errno m)))
  else (m, Status.Ok).

Definition with_user_data (s : sqe) (ud : Z) : sqe :=
  mkSqe (opcode s) (sqe_flags s) (sqe_fd s) (sqe_off s) (sqe_addr s) (sqe_len s) (fsync_flags s) ud.

Definition submitRaw (m : mach K) (st : UState) (source : sqe) (userData : Z) : option (mach K * StatusT) :=
  let '(m, tail) := loadAcquire m sq_tail in
  let '(m, head) := loadAcquire m sq_head in
  let entries := sq_ringEntries (m_shm m) in
  if u32 (tail - head) >=? entries then Some (m, Status.IoError "io_uring submission queue is full") else
  let index := Z.land tail (sq_ringMask (m_shm m)) in
  es ← vec_set (sqes (m_shm m)) index (with_user_data source userData);
  array ← vec_set (sq_array (m_shm m)) index index;
  let m := with_shm m (set_sq (m_shm m) (u32 (tail + 1)) array es) in
  if sqPollEnabled st then Some (wakeSqPollIfNeeded m st) else
  let '(m, ret) := k_enter m 1 0 0 in
  if ret <? 0 then Some (m, Status.IoError (errnoMessage "io_uring_enter submit" (k_errno m)))
  else Some (m, Status.Ok).

(** [closed] is [!state_]. *)
Definition submit (x : Exec K) (closed : bool) (addr : Z) : option (Exec K * StatusT) :=
  if closed || (ringFd (x_state x) <? 0) then Some (x, Status.IoError "io_uring executor is closed") else
  op ← x_heap x !! addr;
  '(m, s) ← submitRaw (x_mach x) (x_state x) (op_sqe op) addr;
  Some (mkExec m (x_state x) (x_heap x) (x_phase x) (x_resumed x), s).

Definition link_sqe (s : sqe) : sqe :=
  mkSqe (opcode s) (Z.lor (sqe_flags s) IOSQE_IO_LINK) (sqe_fd s) (sqe_off s) (sqe_addr s) (sqe_len s)
    (fsync_flags s) (user_data s).

Definition set_op_sqe (o : Operation) (s : sqe) : Operation := mkOperation s (op_continuation o) (op_result o).

Definition submitLinked (x : Exec K) (closed : bool) (first second : Z) : option (Exec K * StatusT) :=
  let st := x_state x in
  if closed || (ringFd st <? 0) then Some (x, Status.IoError "io_uring executor is closed") else
  let '(m, tail) := loadAcquire (x_mach x) sq_tail in
  let '(m, head) := loadAcquire m sq_head in
  let entries := sq_ringEntries (m_shm m) in
  if u32 (u32 (tail - head) + 2) >? entries
  then Some (mkExec m st (x_heap x) (x_phase x) (x_resumed x), Status.IoError "io_uring submission queue is full") else
  let firstIndex := Z.land tail (sq_ringMask (m_shm m)) in
  let secondIndex := Z.land (u32 (tail + 1)) (sq_ringMask (m_shm m)) in
  op1 ← x_heap x !! first;
  let op1 := set_op_sqe op1 (with_user_data (link_sqe (op_sqe op1)) first) in
  let heap := <[first := op1]> (x_heap x) in
  op2 ← heap !! second;
  let op2 := set_op_sqe op2 (with_user_data (op_sqe op2) second) in
  let heap := <[second := op2]> heap in
  es ← vec_set (sqes (m_shm m)) firstIndex (op_sqe op1);
  es ← vec_set es secondIndex (op_sqe op2);
  array ← vec_set (sq_array (m_shm m)) firstIndex firstIndex;
  array ← vec_set array secondIndex secondIndex;
  let m := with_shm m (set_sq (m_shm m) (u32 (tail + 2)) array es) in
  if sqPollEnabled st then
    let '(m, s) := wakeSqPollIfNeeded m st in
    Some (mkExec m st heap (x_phase x) (x_resumed x), s)
  else
  let '(m, ret) := k_enter m 2 0 0 in
  Some (mkExec m st heap (x_phase x) (x_resumed x),
        if ret <? 0 then Status.IoError (errnoMessage "io_uring_enter submit linked" (k_errno m)) else Status.Ok).

(** *** The completion loop

    One step of the thread: a wait, or one round of the inner loop. Resuming a
    continuation is recorded; an unknown [user_data] is a dangling pointer. *)

Definition completionLoop (x : Exec K) : option (Exec K) :=
  let st := x_state x in
  match x_phase x with
  | AtEnter =>
      let '(m, ret) := k_enter (x_mach x) 0 1 IORING_ENTER_GETEVENTS in
      let phase :=
        if ret <? 0 then
          if k_errno m =? EINTR then AtEnter
          else if stopping st then Exited else AtEnter
        else AtDrain in
      Some (mkExec m st (x_heap x) phase (x_resumed x))
  | AtDrain =>
      let '(m, cqHead) := loadAcquire (x_mach x) cq_head in
      let '(m, cqTail) := loadAcquire m cq_tail in
      if cqHead =? cqTail then Some (mkExec m st (x_heap x) AtEnter (x_resumed x)) else
      c ← vec_get (cqes (m_shm m)) (Z.land cqHead (cq_ringMask (m_shm m)));
      let userData := cqe_user_data c in
      let result := cqe_res c in
      let m := with_shm m (set_cq_head (m_shm m) (u32 (cqHead + 1))) in
      if userData =? 0 then
        Some (mkExec m st (x_heap x) (if stopping st then Exited else AtDrain) (x_resumed x))
      else
      operation ← x_heap x !! userData;
      let heap := <[userData := mkOperation (op_sqe operation) (op_continuation operation) result]> (x_heap x) in
      let st := mkUState (ringFd st) (stopping st) (u64 (completionLoopCompletions st + 1)) (sqPollEnabled st) in
      Some (mkExec m st heap AtDrain
        (match op_continuation operation with Some c => x_resumed x ++ [c] | None => x_resumed x end))
  | Exited => Some x
  end.

(** The thread runs until the continuation [c] is resumed. *)
Fixpoint runUntilResumed (fuel : nat) (c : Z) (x : Exec K) : option (Exec K) :=
  if bool_decide (c ∈ x_resumed x) then Some x else
  match fuel with
  | O => None
  | S fuel => x ← completionLoop x; runUntilResumed fuel c x
  end.

(** *** The operations *)

(** [SingleOperationAwaiter::await_resume] and the first branch of [await_suspend]. *)
Definition singleResult (submitFailed : bool) (result : Z) (submitError operationError : string) : Result Z :=
  if submitFailed then RStatus (Status.IoError submitError)
  else if result <? 0 then
    RStatus (Status.IoError (String.app operationError (String.app ": " (strerror (- result)))))
  else RValue result.

(** [WritevAndFDataSync]'s [Awaiter::await_resume]. *)
Definition linkedResult (submitFailed : bool) (writeResult syncResult expectedBytes : Z) : StatusT :=
  if submitFailed then Status.IoError "io_uring linked writev+fdatasync submit failed"
  else if writeResult <? 0 then
    Status.IoError (String.app "io_uring writev failed: " (strerror (- writeResult)))
  else if negb (u64 writeResult =? expectedBytes) then Status.IoError "io_uring writev completed short"
  else if syncResult <? 0 then
    Status.IoError (String.app "io_uring fdatasync failed: " (strerror (- syncResult)))
  else Status.Ok.

Definition writevSqe (fd : Z) (mem : bytes) (iovs : list iovec) (off : Z) : sqe :=
  mkSqe IORING_OP_WRITEV 0 fd off (IovecArray mem iovs) (u32 (zlen iovs)) 0 0.

Definition syncSqe (fd : Z) : sqe := mkSqe IORING_OP_FSYNC 0 fd 0 NullAddr 0 IORING_FSYNC_DATASYNC 0.

Definition readvSqe (fd : Z) (n off : Z) : sqe := mkSqe IORING_OP_READV 0 fd off (BufferIovec n) 1 0 0.

(** The coroutine frame: where its operations are, and its handle. *)
Record frame := mkFrame { addr1 : Z; addr2 : Z; handle : Z }.

(** An awaited single operation, from [co_await] to [await_resume]: the operation is placed
    in the frame, submitted, and, if that worked, completed by the completion thread. *)
Definition awaitSingle (fuel : nat) (fr : frame) (x : Exec K) (s : sqe) (submitError operationError : string)
    : option (Exec K * Result Z) :=
  let x := mkExec (x_mach x) (x_state x) {[ addr1 fr := mkOperation s (Some (handle fr)) 0 ]} (x_phase x) [] in
  '(x, status) ← submit x false (addr1 fr);
  if negb (Status.ok status) then Some (x, singleResult true 0 submitError operationError) else
  x ← runUntilResumed fuel (handle fr) x;
  op ← x_heap x !! addr1 fr;
  Some (x, singleResult false (op_result op) submitError operationError).

Definition uring_ReadAt (fuel : nat) (fr : frame) (x : Exec K) (fd n off : Z) : option (Exec K * Result Z) :=
  '(x, result) ← awaitSingle fuel fr x (readvSqe fd n off) "io_uring readv submit failed" "io_uring readv failed";
  Some (x, match result with RStatus s => RStatus s | RValue r => RValue (u64 r) end).

Definition uring_FDataSync (fuel : nat) (fr : frame) (x : Exec K) (fd : Z) : option (Exec K * StatusT) :=
  '(x, result) ← awaitSingle fuel fr x (syncSqe fd) "io_uring fdatasync submit failed" "io_uring fdatasync failed";
  Some (x, match result with RStatus s => s | RValue _ => Status.Ok end).

Definition uring_WritevAndFDataSync (fuel : nat) (fr : frame) (x : Exec K) (fd : Z) (mem : bytes)
    (iovs : list iovec) (off expectedBytes : Z) : option (Exec K * StatusT) :=
  let heap := <[addr1 fr := mkOperation (writevSqe fd mem iovs off) None 0]>
    {[ addr2 fr := mkOperation (syncSqe fd) (Some (handle fr)) 0 ]} in
  let x := mkExec (x_mach x) (x_state x) heap (x_phase x) [] in
  '(x, status) ← submitLinked x false (addr1 fr) (addr2 fr);
  if negb (Status.ok status) then Some (x, linkedResult true 0 0 expectedBytes) else
  x ← runUntilResumed fuel (handle fr) x;
  op1 ← x_heap x !! addr1 fr;
  op2 ← x_heap x !! addr2 fr;
  Some (x, linkedResult false (op_result op1) (op_result op2) expectedBytes).

End Executor.
