(* ===== verification/UringKernel.v ===== *)
(** * io_uring, as documented

    What the executor relies on the kernel for: requests are taken from the submission
    ring in order, a linked request waits for the one before it and is cancelled when that
    one falls short, and every request posts one completion. [KernelSpec] says that what a
    [Kernel] does is a sequence of such steps; the ring lemmas then let the two sides be
    followed as three queues (pending, in flight, completed). *)

From stdpp Require Import relations.
From S2P Require Import Prelude Status Coding Crc32c WriteBatch Wal Io UringExecutor.

(** ** The steps of the kernel *)

Definition linked (s : sqe) : bool := negb (Z.land (sqe_flags s) IOSQE_IO_LINK =? 0).

(** The device may be brought up to date at any time, any part of it. *)
Definition writeback (f f' : file) : Prop :=
  content f' = content f /\
  forall i, durable f' !! i = durable f !! i \/ durable f' !! i = content f !! i.

(** The bytes a request asks to transfer; transferring fewer breaks a chain. *)
Definition asked (s : sqe) : Z :=
  match sqe_addr s with
  | NullAddr => 0
  | IovecArray mem iovs => default 0 ((fun d : bytes => zlen d) <$> materializeIovecs mem iovs)
  | BufferIovec n => n
  end.

Definition severs (s : sqe) (r : Z) : bool := r <? asked s.

(** A request [s] that ran completes with result [r]. *)
Inductive op_done (s : sqe) : Z -> file -> file -> bytes -> bytes -> Prop :=
  | done_fail r f b b' : r < 0 -> opcode s <> IORING_OP_WRITEV -> length b' = length b ->
      op_done s r f f b b'
  | done_write_fail r f f' b : opcode s = IORING_OP_WRITEV -> r < 0 -> same_below (sqe_off s) f f' ->
      op_done s r f f' b b
  | done_write r f b mem iovs data : opcode s = IORING_OP_WRITEV -> sqe_addr s = IovecArray mem iovs ->
      sqe_len s = zlen iovs -> materializeIovecs mem iovs = Some data -> 0 <= r <= zlen data ->
      op_done s r f (mkFile (pwrite (content f) (sqe_off s) (take (Z.to_nat r) data)) (durable f)) b b
  | done_read r f b n : opcode s = IORING_OP_READV -> sqe_addr s = BufferIovec n -> 0 <= r <= n ->
      r <= zlen (drop (Z.to_nat (sqe_off s)) (content f)) ->
      op_done s r f f b (take (Z.to_nat r) (drop (Z.to_nat (sqe_off s)) (content f)) ++ drop (Z.to_nat r) b)
  | done_sync f b : opcode s = IORING_OP_FSYNC -> op_done s 0 f (mkFile (content f) (content f)) b b
  | done_nop f b : opcode s = IORING_OP_NOP -> op_done s 0 f f b b.

(** A request that was cancelled does nothing. *)
Definition completes (s : sqe) (cancelled : bool) (r : Z) (f f' : file) (b b' : bytes) : Prop :=
  if cancelled then r = - ECANCELED /\ f' = f /\ b' = b else op_done s r f f' b b'.

Definition sever (b : bool) (post : list (sqe * bool)) : list (sqe * bool) :=
  match b, post with
  | true, (t, _) :: post => (t, true) :: post
  | _, _ => post
  end.

(** Nothing before a request is linked to it. *)
Definition link_free (pre : list (sqe * bool)) : Prop :=
  match last pre with Some (t, _) => linked t = false | None => True end.

Definition sq_slot (m : Shm) (i : Z) : option sqe :=
  idx ← vec_get (sq_array m) (Z.land i (sq_ringMask m)); vec_get (sqes m) idx.

Definition post_cqe (m : Shm) (c : cqe) (buf : bytes) : option Shm :=
  if u32 (cq_tail m - cq_head m) <? cq_ringEntries m then
    cs ← vec_set (cqes m) (Z.land (cq_tail m) (cq_ringMask m)) c;
    Some (set_cq m (u32 (cq_tail m + 1)) cs buf)
  else None.

(** In flight, the shared memory, the file. *)
Abbreviation kview := (list (sqe * bool) * Shm * file)%type.

Inductive kstep : kview -> kview -> Prop :=
  | k_consume I m f s : sq_head m <> sq_tail m -> sq_slot m (sq_head m) = Some s ->
      kstep (I, m, f) (I ++ [(s, false)], set_sq_head m (u32 (sq_head m + 1)), f)
  | k_complete pre s c post m m' f f' b' r : link_free pre -> completes s c r f f' (userbuf m) b' ->
      post_cqe m (mkCqe (user_data s) r) b' = Some m' ->
      kstep (pre ++ (s, c) :: post, m, f) (pre ++ sever (linked s && (c || severs s r)) post, m', f')
  | k_writeback I m f f' : writeback f f' -> kstep (I, m, f) (I, m, f')
  | k_flags I m f fl : kstep (I, m, f) (I, set_sq_flags m fl, f).

(** ** The rings as queues *)

Lemma land_mask x k : 0 <= k -> Z.land x (2 ^ k - 1) = x mod 2 ^ k.
Proof. intros Hk. replace (2 ^ k - 1) with (Z.ones k) by (rewrite Z.ones_equiv; lia). by apply Z.land_ones. Qed.

Lemma u32_mod x k : 0 <= k <= 32 -> (u32 x) mod 2 ^ k = x mod 2 ^ k.
Proof.
  intros Hk. unfold u32. replace (2 ^ 32) with (2 ^ (32 - k) * 2 ^ k) by (rewrite <- Z.pow_add_r by lia; f_equal; lia).
  rewrite Z.mul_comm, Z.rem_mul_r by lia. rewrite Z.mul_comm, Z.mod_add by lia. apply Z.mod_mod. lia.
Qed.

Lemma mod_window h i j n : 0 <= i < n -> 0 <= j < n -> (h + i) mod n = (h + j) mod n -> i = j.
Proof.
  intros Hi Hj E. assert ((i - j) mod n = 0) as E2.
  { replace (i - j) with ((h + i) - (h + j)) by lia. rewrite Zminus_mod, E, Z.sub_diag. apply Z.mod_0_l. lia. }
  apply Z.mod_divide in E2 as [q Hq]; [|lia]. assert (q = 0) by nia. lia.
Qed.

(** A ring of [n] slots with mask [mask]; the first of its elements has number [head]. *)
Record ring_shape (n mask head tail len : Z) : Prop := {
  shape_size : exists k, 0 <= k <= 31 /\ n = 2 ^ k /\ mask = 2 ^ k - 1;
  shape_head : 0 <= head < 2 ^ 32;
  shape_tail : tail = u32 (head + len);
  shape_len : 0 <= len <= n;
}.

Record ring_ok (m : Shm) (P : list sqe) (R : list cqe) : Prop := {
  ro_sq : ring_shape (sq_ringEntries m) (sq_ringMask m) (sq_head m) (sq_tail m) (zlen P);
  ro_sqes : zlen (sqes m) = sq_ringEntries m;
  ro_array : zlen (sq_array m) = sq_ringEntries m;
  ro_pending : forall j s, P !! j = Some s ->
    let i := Z.land (sq_head m + Z.of_nat j) (sq_ringMask m) in
    vec_get (sq_array m) i = Some i /\ vec_get (sqes m) i = Some s;
  ro_cq : ring_shape (cq_ringEntries m) (cq_ringMask m) (cq_head m) (cq_tail m) (zlen R);
  ro_cqes : zlen (cqes m) = cq_ringEntries m;
  ro_ready : forall j c, R !! j = Some c -> vec_get (cqes m) (Z.land (cq_head m + Z.of_nat j) (cq_ringMask m)) = Some c;
}.

(** ** The contract *)

(** There is something to wait for. *)
Definition can_complete (infl : list (sqe * bool)) (polls : bool) (m : Shm) : Prop :=
  infl <> [] \/ cq_head m <> cq_tail m \/ (polls = true /\ sq_head m <> sq_tail m).

Class KernelSpec (K : Type) `{!Kernel K} := {
  (** Requests taken from the ring and not completed, and whether they were cancelled. *)
  k_inflight : K -> list (sqe * bool);
  (** The ring was set up with [IORING_SETUP_SQPOLL]. *)
  k_polls : K -> bool;
  (** How often a wait can still be interrupted. *)
  k_patience : K -> nat;
  async_steps : forall m, rtc kstep (k_inflight (m_kern m), m_shm m, m_file m)
    (k_inflight (m_kern (k_async m)), m_shm (k_async m), m_file (k_async m));
  async_polls : forall m, k_polls (m_kern (k_async m)) = k_polls (m_kern m);
  async_patience : forall m, (k_patience (m_kern (k_async m)) <= k_patience (m_kern m))%nat;
  enter_steps : forall m n c fl m' ret, k_enter m n c fl = (m', ret) ->
    rtc kstep (k_inflight (m_kern m), m_shm m, m_file m) (k_inflight (m_kern m'), m_shm m', m_file m');
  enter_polls : forall m n c fl m' ret, k_enter m n c fl = (m', ret) -> k_polls (m_kern m') = k_polls (m_kern m);
  enter_patience : forall m n c fl m' ret, k_enter m n c fl = (m', ret) ->
    (k_patience (m_kern m') <= k_patience (m_kern m))%nat;
  (** A wait for one completion returns when there is one, unless it is interrupted. *)
  enter_waits : forall m m' ret, k_enter m 0 1 IORING_ENTER_GETEVENTS = (m', ret) ->
    (exists P R, ring_ok (m_shm m) P R) ->
    can_complete (k_inflight (m_kern m)) (k_polls (m_kern m)) (m_shm m) ->
    (ret < 0 /\ (k_patience (m_kern m') < k_patience (m_kern m))%nat) \/
    (0 <= ret /\ cq_head (m_shm m') <> cq_tail (m_shm m'));
}.

(** Submission does not fail, and takes all requests there are, if there are no more than it
    is told of. *)
Class KernelReliable (K : Type) `{!Kernel K, !KernelSpec K} : Prop := {
  enter_submits : forall m n m' ret, k_enter m n 0 0 = (m', ret) -> k_polls (m_kern m) = false ->
    (exists P R, ring_ok (m_shm m) P R) -> u32 (sq_tail (m_shm m) - sq_head (m_shm m)) <= n ->
    0 <= ret /\ sq_head (m_shm m') = sq_tail (m_shm m');
  enter_wakes : forall m m' ret, k_enter m 0 0 IORING_ENTER_SQ_WAKEUP = (m', ret) -> 0 <= ret;
}.

Section Shape.
Context {n mask head tail len : Z} (H : ring_shape n mask head tail len).

Lemma shape_bounds : 1 <= n <= 2 ^ 31.
Proof.
  destruct H as [(k & Hk & -> & _) _ _ _]. split; [|apply Z.pow_le_mono_r; lia].
  change 1 with (2 ^ 0). apply Z.pow_le_mono_r; lia.
Qed.

Lemma shape_count : u32 (tail - head) = len.
Proof.
  pose proof shape_bounds. destruct H as [_ Hh -> Hl]. unfold u32. rewrite Zminus_mod_idemp_l.
  replace (head + len - head) with len by lia. apply Z.mod_small. lia.
Qed.

Lemma shape_empty : head = tail <-> len = 0.
Proof.
  pose proof shape_count as E. split.
  - intros <-. rewrite Z.sub_diag in E. by rewrite <- E.
  - destruct H as [_ Hh -> _]. intros ->. rewrite Z.add_0_r, u32_small; lia.
Qed.

Lemma shape_index i : Z.land i mask = i mod n.
Proof. destruct H as [(k & Hk & -> & ->) _ _ _]. apply land_mask. lia. Qed.

Lemma shape_index_range i : 0 <= Z.land i mask < n.
Proof. rewrite shape_index. apply Z.mod_pos_bound. pose proof shape_bounds. lia. Qed.

Lemma shape_u32 i : (u32 i) mod n = i mod n.
Proof. destruct H as [(k & Hk & -> & _) _ _ _]. apply u32_mod. lia. Qed.

Lemma shape_tail_index : Z.land tail mask = Z.land (head + len) mask.
Proof. rewrite !shape_index. rewrite (shape_tail _ _ _ _ _ H). apply shape_u32. Qed.

Lemma shape_distinct i j : 0 <= i < n -> 0 <= j < n ->
  Z.land (head + i) mask = Z.land (head + j) mask -> i = j.
Proof. rewrite !shape_index. apply mod_window. Qed.

Lemma shape_push : len < n -> ring_shape n mask head (u32 (tail + 1)) (len + 1).
Proof.
  pose proof shape_bounds. intros Hl. destruct H as [Hs Hh -> Hlen]. split; [done|done| |lia].
  unfold u32. rewrite Zplus_mod_idemp_l. f_equal. lia.
Qed.

Lemma shape_pop : 0 < len -> ring_shape n mask (u32 (head + 1)) tail (len - 1).
Proof.
  intros Hl. destruct H as [Hs Hh -> Hlen]. split; [done|apply u32_range| |lia].
  unfold u32. rewrite Zplus_mod_idemp_l. f_equal. lia.
Qed.

Lemma shape_pop_index j : Z.land (u32 (head + 1) + j) mask = Z.land (head + (1 + j)) mask.
Proof.
  rewrite !shape_index, Zplus_mod, shape_u32, <- Zplus_mod. f_equal. lia.
Qed.
End Shape.

Lemma vec_set_get {A} (l l' : list A) i j (x : A) : vec_set l i x = Some l' ->
  vec_get l' j = if decide (i = j) then Some x else vec_get l j.
Proof.
  unfold vec_set, vec_get. intros H. destruct (Z.leb_spec 0 i), (Z.ltb_spec i (zlen l)); cbn in H; simplify_eq.
  destruct (Z.leb_spec 0 j); case_decide; try done; try lia.
  - subst. apply list_lookup_insert_eq. lia.
  - apply list_lookup_insert_ne. lia.
Qed.

Lemma vec_set_some {A} (l : list A) i (x : A) : 0 <= i < zlen l -> exists l', vec_set l i x = Some l' /\ length l' = length l.
Proof.
  intros Hi. unfold vec_set. zb; try lia. eexists. split; [done|]. apply length_insert.
Qed.

Section Queues.
Context {m : Shm} {P : list sqe} {R : list cqe}.

(** The executor appends a request. *)
Lemma ring_push s : ring_ok m P R -> zlen P < sq_ringEntries m ->
  let i := Z.land (sq_tail m) (sq_ringMask m) in
  exists es array, vec_set (sqes m) i s = Some es /\ vec_set (sq_array m) i i = Some array /\
    ring_ok (set_sq m (u32 (sq_tail m + 1)) array es) (P ++ [s]) R.
Proof.
  intros [Hsq Hes Ha Hp Hcq Hcs Hr] Hlt i.
  pose proof (shape_index_range Hsq (sq_tail m)) as Hi. fold i in Hi.
  destruct (vec_set_some (sqes m) i s) as (es & E1 & L1); [lia|].
  destruct (vec_set_some (sq_array m) i i) as (array & E2 & L2); [lia|].
  exists es, array. split; [done|]. split; [done|].
  split; cbn [set_sq sq_head sq_tail sq_ringMask sq_ringEntries sq_array sqes cq_head cq_tail cq_ringMask
    cq_ringEntries cqes]; try done; try lia.
  - rewrite length_app. cbn [length]. replace (Z.of_nat (length P + 1)) with (zlen P + 1) by lia.
    by apply shape_push.
  - intros j s'. rewrite (vec_set_get _ _ _ _ _ E1), (vec_set_get _ _ _ _ _ E2). unfold i.
    rewrite (shape_tail_index Hsq), lookup_app_Some. intros [Hj|[Hge Hj]].
    + pose proof (lookup_lt_Some _ _ _ Hj).
      case_decide as Hd; [|by apply Hp]. apply (shape_distinct Hsq) in Hd; lia.
    + apply list_lookup_singleton_Some in Hj as [Hj <-].
      replace (Z.of_nat j) with (zlen P) by lia. by case_decide.
Qed.

(** The kernel takes the oldest one. *)
Lemma ring_pop s : ring_ok m (s :: P) R ->
  sq_slot m (sq_head m) = Some s /\ ring_ok (set_sq_head m (u32 (sq_head m + 1))) P R.
Proof.
  intros [Hsq Hes Ha Hp Hcq Hcs Hr]. split.
  - destruct (Hp 0%nat s eq_refl) as [H1 H2]. rewrite Z.add_0_r in *. unfold sq_slot. by rewrite H1.
  - split; try done.
    + cbn [set_sq_head sq_head sq_tail sq_ringMask sq_ringEntries].
      replace (zlen P) with (zlen (s :: P) - 1) by len. apply shape_pop; [done|len].
    + intros j s' Hj i. unfold i. cbn [set_sq_head sq_head sq_ringMask sq_array sqes].
      rewrite (shape_pop_index Hsq). specialize (Hp (S j) s' Hj).
      replace (Z.of_nat (S j)) with (1 + Z.of_nat j) in Hp by lia. done.
Qed.

Lemma ring_not_empty : ring_ok m P R -> sq_head m <> sq_tail m -> exists s P', P = s :: P'.
Proof.
  intros H Hne. destruct P as [|s P'] eqn:E; [|by eauto]. exfalso. apply Hne.
  by apply (shape_empty (ro_sq _ _ _ H)).
Qed.

(** The kernel posts a completion. *)
Lemma ring_post c b m' : ring_ok m P R -> post_cqe m c b = Some m' ->
  ring_ok m' P (R ++ [c]) /\ userbuf m' = b.
Proof.
  intros [Hsq Hes Ha Hp Hcq Hcs Hr] H. unfold post_cqe in H. rewrite (shape_count Hcq) in H.
  destruct (Z.ltb_spec (zlen R) (cq_ringEntries m)) as [Hlt|]; [|done].
  destruct (vec_set_some (cqes m) (Z.land (cq_tail m) (cq_ringMask m)) c) as (cs & E & Lc);
    [rewrite Hcs; apply (shape_index_range Hcq)|].
  rewrite E in H. injection H as <-. split; [|done].
  split; cbn [set_cq sq_head sq_tail sq_ringMask sq_ringEntries sq_array sqes cq_head cq_tail cq_ringMask
    cq_ringEntries cqes]; try done; try lia.
  - rewrite length_app. cbn [length]. replace (Z.of_nat (length R + 1)) with (zlen R + 1) by lia.
    by apply shape_push.
  - intros j c'. rewrite (vec_set_get _ _ _ _ _ E), (shape_tail_index Hcq), lookup_app_Some.
    intros [Hj|[Hge Hj]].
    + pose proof (lookup_lt_Some _ _ _ Hj).
      case_decide as Hd; [|by apply Hr]. apply (shape_distinct Hcq) in Hd; lia.
    + apply list_lookup_singleton_Some in Hj as [Hj <-].
      replace (Z.of_nat j) with (zlen R) by lia. by case_decide.
Qed.

(** The executor takes the oldest one. *)
Lemma ring_drain c : ring_ok m P (c :: R) ->
  vec_get (cqes m) (Z.land (cq_head m) (cq_ringMask m)) = Some c /\
  ring_ok (set_cq_head m (u32 (cq_head m + 1))) P R.
Proof.
  intros [Hsq Hes Ha Hp Hcq Hcs Hr]. split.
  - specialize (Hr 0%nat c eq_refl). by rewrite Z.add_0_r in Hr.
  - split; try done.
    + cbn [set_cq_head cq_head cq_tail cq_ringMask cq_ringEntries].
      replace (zlen R) with (zlen (c :: R) - 1) by len. apply shape_pop; [done|len].
    + intros j c' Hj. cbn [set_cq_head cq_head cq_ringMask cqes].
      rewrite (shape_pop_index Hcq). specialize (Hr (S j) c' Hj).
      replace (Z.of_nat (S j)) with (1 + Z.of_nat j) in Hr by lia. done.
Qed.

Lemma ring_ready_iff : ring_ok m P R -> cq_head m <> cq_tail m <-> R <> [].
Proof.
  intros H. rewrite (shape_empty (ro_cq _ _ _ H)). destruct R; split; intros; try done; len.
Qed.
End Queues.

(** ** Queue steps

    What the kernel does, seen through the queues: pending, in flight, completed and not
    yet taken, and the read buffer. *)

Record queues := mkQueues {
  q_pend : list sqe;
  q_infl : list (sqe * bool);
  q_ready : list cqe;
  q_buf : bytes;
  q_file : file;
}.

Inductive qstep : queues -> queues -> Prop :=
  | q_consume s P I R b f : qstep (mkQueues (s :: P) I R b f) (mkQueues P (I ++ [(s, false)]) R b f)
  | q_complete P pre s c post R b b' f f' r : link_free pre -> completes s c r f f' b b' ->
      qstep (mkQueues P (pre ++ (s, c) :: post) R b f)
        (mkQueues P (pre ++ sever (linked s && (c || severs s r)) post) (R ++ [mkCqe (user_data s) r]) b' f')
  | q_writeback P I R b f f' : writeback f f' -> qstep (mkQueues P I R b f) (mkQueues P I R b f').

(** The machine [I, m, f] is at the queues [q]. *)
Definition at_queues (v : kview) (q : queues) : Prop :=
  let '(infl, m, f) := v in
  ring_ok m (q_pend q) (q_ready q) /\ q_infl q = infl /\ q_buf q = userbuf m /\ q_file q = f.

Lemma kstep_queues v v' q : at_queues v q -> kstep v v' -> exists q', at_queues v' q' /\ rtc qstep q q'.
Proof.
  destruct q as [P Iq R b fq]. intros Hq Hs. destruct Hs as [I m f s Hne Hslot|pre s c post m m' f f' b' r Hl Hc Hp|I m f f' Hw|I m f fl];
    destruct Hq as (Hring & HI & Hb & Hf); cbn [q_pend q_infl q_ready q_buf q_file] in *; subst.
  - destruct (ring_not_empty Hring Hne) as (s' & P' & ->). destruct (ring_pop s' Hring) as [H1 H2].
    rewrite H1 in Hslot. injection Hslot as ->.
    exists (mkQueues P' (I ++ [(s, false)]) R (userbuf m) f). split; [done|]. apply rtc_once. constructor.
  - destruct (ring_post _ _ _ Hring Hp) as [H1 H2].
    exists (mkQueues P (pre ++ sever (linked s && (c || severs s r)) post) (R ++ [mkCqe (user_data s) r]) b' f').
    split; [done|]. apply rtc_once. by constructor.
  - exists (mkQueues P I R (userbuf m) f'). split; [done|]. apply rtc_once. by constructor.
  - exists (mkQueues P I R (userbuf m) f). split; [|done]. split; [|done]. by destruct Hring.
Qed.

Lemma ksteps_queues v v' q : at_queues v q -> rtc kstep v v' -> exists q', at_queues v' q' /\ rtc qstep q q'.
Proof.
  intros Hq Hs. revert q Hq. induction Hs as [v|v v1 v' Hstep _ IH]; intros q Hq; [by eauto using rtc_refl|].
  destruct (kstep_queues v v1 q Hq Hstep) as (q1 & Hq1 & R1). destruct (IH q1 Hq1) as (q' & Hq' & R').
  exists q'. split; [done|]. by etrans.
Qed.
