(* ===== verification/UringFacts.v ===== *)
(** * The executor follows its operations to the end

    A chain of linked requests (one request, or a write and the sync linked to it) that
    has been submitted is completed in order, and the completion thread hands every result
    to its operation and resumes the coroutine after the last one. *)

From stdpp Require Import relations.
From S2P Require Import Prelude Status Coding Crc32c WriteBatch Wal Io UringExecutor UringKernel.

(** ** What the kernel leaves alone *)

Record same_app (m m' : Shm) : Prop := {
  same_tail : sq_tail m' = sq_tail m;
  same_mask : sq_ringMask m' = sq_ringMask m;
  same_entries : sq_ringEntries m' = sq_ringEntries m;
  same_cq_head : cq_head m' = cq_head m;
}.

Lemma ksteps_same v v' : rtc kstep v v' -> same_app v.1.2 v'.1.2.
Proof.
  induction 1 as [v|v v1 v' Hs _ IH]; [done|].
  assert (same_app v.1.2 v1.1.2) as H1.
  { destruct Hs as [| ? ? ? ? m m' ? ? ? ? _ _ Hp| |]; try done. cbn. unfold post_cqe in Hp.
    destruct (_ <? _); [|done]. destruct (vec_set _ _ _); [|done]. by injection Hp as <-. }
  destruct H1, IH. split; congruence.
Qed.

(** ** Chains *)

Section Chain.
(** The requests of the chain, and what is known of the file and the read buffer once some
    of them have completed with given results. *)
Context (all : list sqe) (Post : list Z -> file -> bytes -> Prop).

Definition chain_linked : Prop :=
  forall i s, all !! i = Some s -> (S i < length all)%nat -> linked s = true.

Definition post_stable : Prop := forall rs f f' b, Post rs f b -> writeback f f' -> Post rs f' b.

Definition post_step : Prop := forall rs s c r f f' b b', all !! length rs = Some s -> Post rs f b ->
  completes s c r f f' b b' -> Post (rs ++ [r]) f' b'.

Context (Hlinked : chain_linked) (Hstable : post_stable) (Hpost : post_step).

Definition cqes_of (rs : list Z) : list cqe :=
  imap (fun i r => mkCqe (default 0 (user_data <$> all !! i)) r) rs.

(** The results so far are [rs], those of [rsd] have been taken from the ring. *)
Record chain_inv (rsd : list Z) (q : queues) (rs : list Z) : Prop := {
  ci_prefix : rsd `prefix_of` rs;
  ci_done : cqes_of rsd ++ q_ready q = cqes_of rs;
  ci_len : (length rs <= length all)%nat;
  ci_todo : (q_infl q).*1 ++ q_pend q = drop (length rs) all;
  ci_post : Post rs (q_file q) (q_buf q);
}.

Lemma cqes_of_snoc rs s r : all !! length rs = Some s -> cqes_of (rs ++ [r]) = cqes_of rs ++ [mkCqe (user_data s) r].
Proof.
  intros Hs. unfold cqes_of. rewrite imap_app. cbn. by rewrite Nat.add_0_r, Hs.
Qed.

Lemma sever_fst b post : (sever b post).*1 = post.*1.
Proof. by destruct b, post as [|[]]. Qed.

(** Only the first unfinished request can complete. *)
Lemma chain_first pre s post P k : pre ++ s :: post ++ P = drop k all -> (forall t, last pre = Some t -> linked t = false) ->
  pre = [].
Proof.
  intros E Hf. destruct (last pre) as [t|] eqn:Hl; [|by apply last_None].
  apply last_Some in Hl as [pre0 ->]. exfalso. specialize (Hf t eq_refl).
  assert (all !! (k + length pre0)%nat = Some t) as Ht.
  { rewrite <- lookup_drop, <- E, <- !app_assoc. rewrite lookup_app_r, Nat.sub_diag by lia. done. }
  assert (all !! (k + S (length pre0))%nat = Some s) as Hs.
  { rewrite <- lookup_drop, <- E, <- !app_assoc. rewrite lookup_app_r by lia.
    replace (S (length pre0) - length pre0)%nat with 1%nat by lia. done. }
  apply lookup_lt_Some in Hs. rewrite (Hlinked _ _ Ht) in Hf by lia. done.
Qed.

Lemma chain_qstep rsd q q' rs : chain_inv rsd q rs -> qstep q q' ->
  exists rs', chain_inv rsd q' rs' /\ rs `prefix_of` rs' /\ (q_pend q = [] -> q_pend q' = []).
Proof.
  intros [Hpre Hdone Hlen Htodo HP] Hs. destruct Hs as [s P I R b f|P pre s c post R b b' f f' r Hf Hc|P I R b f f' Hw];
    cbn [q_pend q_infl q_ready q_buf q_file] in *.
  - exists rs. split; [|by split]. split; cbn [q_pend q_infl q_ready q_buf q_file]; try done.
    rewrite fmap_app, <- app_assoc. exact Htodo.
  - rewrite fmap_app, fmap_cons, <- app_assoc in Htodo. cbn [fst app] in Htodo.
    assert (pre = []) as ->.
    { apply fmap_nil_inv with (f := fst). eapply chain_first; [exact Htodo|].
      intros t Ht. rewrite fmap_last in Ht. unfold link_free in Hf. destruct (last pre) as [[]|]; cbn in Ht; congruence. }
    cbn [fmap list_fmap app] in Htodo.
    assert (all !! length rs = Some s) as Hs by (rewrite <- (Nat.add_0_r (length rs)), <- lookup_drop, <- Htodo; done).
    pose proof (lookup_lt_Some _ _ _ Hs).
    exists (rs ++ [r]). split; [|split; [by apply prefix_app_r|done]]. split; cbn [q_pend q_infl q_ready q_buf q_file].
    + by apply prefix_app_r.
    + by rewrite (cqes_of_snoc _ s), app_assoc, Hdone.
    + rewrite length_app. cbn [length]. lia.
    + cbn [app]. rewrite sever_fst, length_app. cbn [length].
      replace (length rs + 1)%nat with (1 + length rs)%nat by lia.
      by rewrite Nat.add_comm, <- drop_drop, <- Htodo.
    + eapply Hpost; done.
  - exists rs. split; [|by split]. split; try done. cbn. by eapply Hstable.
Qed.

Lemma chain_qsteps rsd q q' rs : chain_inv rsd q rs -> rtc qstep q q' ->
  exists rs', chain_inv rsd q' rs' /\ rs `prefix_of` rs' /\ (q_pend q = [] -> q_pend q' = []).
Proof.
  intros H Hs. revert rs H. induction Hs as [q|q q1 q' Hstep _ IH]; intros rs H; [by eauto|].
  destruct (chain_qstep _ _ _ _ H Hstep) as (rs1 & H1 & X1 & P1).
  destruct (IH rs1 H1) as (rs' & H' & X' & P'). exists rs'. split; [done|]. split; [by etrans|auto].
Qed.

Lemma chain_ready rsd q rs : chain_inv rsd q rs -> length (q_ready q) = (length rs - length rsd)%nat.
Proof.
  intros H. pose proof (f_equal length (ci_done _ _ _ H)) as E. unfold cqes_of in E.
  rewrite length_app, !length_imap in E. lia.
Qed.

(** Taking a completion from the ring. *)
Lemma chain_take rsd q rs c R : chain_inv rsd q rs -> q_ready q = c :: R ->
  exists s r, all !! length rsd = Some s /\ c = mkCqe (user_data s) r /\
    chain_inv (rsd ++ [r]) (mkQueues (q_pend q) (q_infl q) R (q_buf q) (q_file q)) rs.
Proof.
  intros [[rest ->] Hdone Hlen Htodo HP] HR. rewrite HR in Hdone.
  destruct rest as [|r rest].
  { rewrite app_nil_r in Hdone. exfalso. apply (f_equal length) in Hdone. rewrite length_app in Hdone.
    cbn [length] in Hdone. lia. }
  rewrite length_app in Hlen. cbn [length] in Hlen.
  destruct (lookup_lt_is_Some_2 all (length rsd)) as [s Hs]; [lia|].
  assert (exists l, cqes_of (rsd ++ r :: rest) = (cqes_of rsd ++ [mkCqe (user_data s) r]) ++ l) as [l Hl].
  { rewrite <- (cqes_of_snoc _ _ _ Hs). unfold cqes_of. rewrite cons_middle, app_assoc, imap_app. by eexists. }
  rewrite Hl, <- app_assoc in Hdone. apply app_inv_head in Hdone. cbn [app] in Hdone. injection Hdone as -> HR2.
  exists s, r. split; [done|]. split; [done|]. split; cbn [q_pend q_infl q_ready q_buf q_file]; try done.
  - exists rest. by rewrite <- app_assoc.
  - by rewrite (cqes_of_snoc _ _ _ Hs), Hl, HR2.
  - rewrite length_app. cbn [length]. lia.
Qed.

End Chain.

(** ** The completion thread *)

Definition view {K} `{!Kernel K, !KernelSpec K} (m : mach K) : kview := (k_inflight (m_kern m), m_shm m, m_file m).

Section Loop.
Context {K : Type} `{!Kernel K, !KernelSpec K}.
Context (all : list sqe) (Post : list Z -> file -> bytes -> Prop) (h fd : Z) (poll : bool).
Context (Hlinked : chain_linked all) (Hstable : post_stable Post) (Hpost : post_step all Post).
Context (Hdistinct : NoDup (user_data <$> all)) (Hnonzero : Forall (fun s => user_data s <> 0) all).

(** The completion thread is running, the chain has been submitted, the results [rsd] have
    been handed over and [h] is resumed exactly when all have. *)
Record loop_inv (x : Exec K) (rsd : list Z) (q : queues) (rs : list Z) : Prop := {
  li_at : at_queues (view (x_mach x)) q;
  li_chain : chain_inv all Post rsd q rs;
  li_heap : forall i s, all !! i = Some s -> exists op, x_heap x !! user_data s = Some op /\
    op_continuation op = (if decide (S i = length all) then Some h else None) /\
    forall r, rsd !! i = Some r -> op_result op = r;
  li_phase : x_phase x <> Exited;
  li_stop : stopping (x_state x) = false;
  li_resumed : x_resumed x = if decide (length rsd = length all) then [h] else [];
  li_fd : ringFd (x_state x) = fd;
  li_poll : sqPollEnabled (x_state x) = poll;
  li_kpoll : k_polls (m_kern (x_mach x)) = poll;
  li_pend : poll = true \/ q_pend q = [];
  li_entries : 2 <= sq_ringEntries (m_shm (x_mach x));
}.

(** The kernel moves. *)
Lemma machine_moves m m' rsd q rs :
  rtc kstep (view m) (view m') -> at_queues (view m) q -> chain_inv all Post rsd q rs ->
  exists q' rs', at_queues (view m') q' /\ chain_inv all Post rsd q' rs' /\
    (length (q_ready q) <= length (q_ready q'))%nat /\ (q_pend q = [] -> q_pend q' = []) /\
    same_app (m_shm m) (m_shm m').
Proof.
  intros Hs Hq Hc. destruct (ksteps_queues _ _ _ Hq Hs) as (q' & Hq' & Hqs).
  destruct (chain_qsteps all Post Hlinked Hstable Hpost _ _ _ _ Hc Hqs) as (rs' & Hc' & Hpre & Hp).
  exists q', rs'. split; [done|]. split; [done|]. split; [|split; [done|by apply ksteps_same in Hs]].
  rewrite (chain_ready _ _ _ _ _ Hc), (chain_ready _ _ _ _ _ Hc'). apply prefix_length in Hpre. lia.
Qed.

(** While a result is outstanding there is something to wait for. *)
Lemma chain_live m rsd q rs : at_queues (view m) q -> chain_inv all Post rsd q rs -> (length rsd < length all)%nat ->
  k_polls (m_kern m) = true \/ q_pend q = [] -> can_complete (k_inflight (m_kern m)) (k_polls (m_kern m)) (m_shm m).
Proof.
  intros Hat Hch Hlt Hpend. destruct q as [P fl R b f]. destruct Hat as (Hring & HI & _ & _). cbn [q_infl q_pend q_ready] in *.
  destruct R as [|c R]; [|right; left; by apply (ring_ready_iff Hring)].
  pose proof (chain_ready _ _ _ _ _ Hch) as E. cbn in E. pose proof (prefix_length _ _ (ci_prefix _ _ _ _ _ Hch)).
  pose proof (f_equal length (ci_todo _ _ _ _ _ Hch)) as Et. cbn [q_infl q_pend] in Et.
  rewrite length_app, length_fmap, length_drop in Et. rewrite <- HI.
  destruct fl as [|i fl]; [|by left]. right. right. cbn [length] in Et.
  destruct Hpend as [Hk | ->]; [|cbn in Et; lia]. split; [done|].
  intros Heq%(shape_empty (ro_sq _ _ _ Hring)). lia.
Qed.

(** An upper bound on the steps the thread still needs. *)
Definition steps_left (x : Exec K) (rsd : list Z) (q : queues) : nat :=
  3 * (length all - length rsd) + k_patience (m_kern (x_mach x)) +
  match x_phase x, q_ready q with
  | AtEnter, _ => 1
  | AtDrain, [] => 2
  | _, _ => 0
  end.

Lemma loop_wait x rsd q rs : loop_inv x rsd q rs -> (length rsd < length all)%nat -> x_phase x = AtEnter ->
  exists x' q' rs', completionLoop x = Some x' /\ loop_inv x' rsd q' rs' /\
    (steps_left x' rsd q' < steps_left x rsd q)%nat.
Proof.
  intros [Hat Hch Hheap _ Hstop Hres Hfd Hpoll Hkp Hpend Hen] Hlt Hph. unfold completionLoop. rewrite Hph.
  destruct (k_enter (x_mach x) 0 1 IORING_ENTER_GETEVENTS) as [m' ret] eqn:He.
  destruct (machine_moves _ _ _ _ _ (enter_steps _ _ _ _ _ _ He) Hat Hch) as (q' & rs' & Hat' & Hch' & Hmore & Hp' & Hsa).
  pose proof (enter_polls _ _ _ _ _ _ He) as Hkp'. pose proof (enter_patience _ _ _ _ _ _ He) as Hpat.
  pose proof (chain_live _ _ _ _ Hat Hch Hlt ltac:(rewrite Hkp; done)) as Hlive.
  assert (forall ph, ph <> Exited -> loop_inv (mkExec m' (x_state x) (x_heap x) ph (x_resumed x)) rsd q' rs') as Hinv.
  { intros ph Hne. split; cbn [x_mach x_state x_heap x_phase x_resumed]; try done; [congruence|destruct Hpend; auto|by rewrite (same_entries _ _ Hsa)]. }
  rewrite Hstop. destruct (enter_waits _ _ _ He (ex_intro _ _ (ex_intro _ _ (proj1 Hat))) Hlive) as [[Hneg Hless]|[Hpos Hrdy]].
  - destruct (Z.ltb_spec ret 0); [|lia]. eexists _, q', rs'. split; [done|].
    assert (forall b : bool, (if b then AtEnter else AtEnter) = AtEnter) as -> by (by intros []).
    split; [by apply Hinv|]. unfold steps_left. cbn [x_mach x_phase]. rewrite Hph. lia.
  - destruct (Z.ltb_spec ret 0); [lia|]. eexists _, q', rs'. split; [done|]. split; [by apply Hinv|].
    unfold steps_left. cbn [x_mach x_phase]. rewrite Hph.
    destruct q' as [P fl R b f]. destruct Hat' as (Hring & _). cbn [q_ready q_pend] in *.
    apply (ring_ready_iff Hring) in Hrdy. destruct R; [done|]. lia.
Qed.

Lemma loop_drain x rsd q rs : loop_inv x rsd q rs -> (length rsd < length all)%nat -> x_phase x = AtDrain ->
  exists x' rsd' q' rs', completionLoop x = Some x' /\ loop_inv x' rsd' q' rs' /\
    (steps_left x' rsd' q' < steps_left x rsd q)%nat.
Proof.
  intros [Hat Hch Hheap _ Hstop Hres Hfd Hpoll Hkp Hpend Hen] Hlt Hph. unfold completionLoop. rewrite Hph.
  unfold loadAcquire. set (m1 := k_async (x_mach x)). set (m2 := k_async m1).
  destruct (machine_moves _ m1 _ _ _ (async_steps (x_mach x)) Hat Hch) as (q1 & rs1 & Hat1 & Hch1 & Hmore1 & Hp1 & Hsa).
  destruct (machine_moves _ m2 _ _ _ (async_steps m1) Hat1 Hch1) as (q2 & rs2 & Hat2 & Hch2 & Hmore2 & Hp2 & Hsame).
  assert (k_polls (m_kern m2) = poll) as Hkp2 by (unfold m2, m1; by rewrite !async_polls).
  assert (k_patience (m_kern m2) <= k_patience (m_kern (x_mach x)))%nat as Hpat
    by (unfold m2; etrans; apply async_patience).
  rewrite <- (same_cq_head _ _ Hsame).
  assert (2 <= sq_ringEntries (m_shm m2)) as Hen2 by (by rewrite (same_entries _ _ Hsame), (same_entries _ _ Hsa)).
  assert (poll = true \/ q_pend q2 = []) as Hpend2 by (destruct Hpend; auto).
  pose proof Hat2 as (Hring & _).
  destruct (q_ready q2) as [|c R] eqn:HR.
  - destruct (Z.eqb_spec (cq_head (m_shm m2)) (cq_tail (m_shm m2))) as [_|Hne];
      [|by apply (ring_ready_iff Hring) in Hne].
    eexists _, rsd, q2, rs2. split; [done|]. split; [by split|]. unfold steps_left. cbn [x_mach x_phase]. rewrite Hph.
    destruct (q_ready q); cbn in *; lia.
  - destruct (Z.eqb_spec (cq_head (m_shm m2)) (cq_tail (m_shm m2))) as [Heq|_].
    { destruct (decide (c :: R = [])) as [|Hne]; [done|]. by apply (ring_ready_iff Hring) in Hne. }
    destruct (ring_drain c Hring) as [-> Hring']. cbn [mbind option_bind].
    destruct (chain_take _ _ _ _ _ _ _ Hch2 HR) as (s & r & Hs & -> & Hch').
    cbn [cqe_user_data cqe_res]. rewrite Forall_lookup in Hnonzero. pose proof (Hnonzero _ _ Hs).
    destruct (Z.eqb_spec (user_data s) 0); [done|].
    destruct (Hheap _ _ Hs) as (op & -> & Hcont & _). cbn [mbind option_bind].
    eexists _, (rsd ++ [r]), _, rs2. split; [done|]. split.
    + split; cbn [x_mach x_state x_heap x_phase x_resumed stopping ringFd sqPollEnabled with_shm m_kern]; try done.
      * destruct Hat2 as (_ & HI & Hb & Hf). split; [exact Hring'|]. done.
      * intros i s' Hi. destruct (decide (i = length rsd)) as [->|Hne].
        -- rewrite Hs in Hi. injection Hi as <-. rewrite lookup_insert_eq. eexists. split; [done|].
           split; [done|]. intros r'. rewrite lookup_app_r, Nat.sub_diag by lia. by intros [= <-].
        -- destruct (Hheap _ _ Hi) as (op' & Hop' & Hc' & Hr'). exists op'. rewrite lookup_insert_ne.
           ++ split; [done|]. split; [done|]. intros r' Hr''. apply Hr'.
              apply lookup_app_Some in Hr'' as [|[? [? ?]%list_lookup_singleton_Some]]; [done|lia].
           ++ intros E. apply Hne. symmetry. eapply NoDup_lookup; [exact Hdistinct| |];
                rewrite list_lookup_fmap; [rewrite Hs|rewrite Hi]; cbn; by rewrite ?E.
      * rewrite Hcont, Hres, length_app. cbn [length].
        destruct (decide (S (length rsd) = length all)), (decide (length rsd = length all)),
          (decide (length rsd + 1 = length all)%nat)%nat; try lia; done.
    + unfold steps_left. cbn [x_mach x_phase with_shm m_kern]. rewrite Hph, length_app. cbn [length q_ready].
      destruct (q_ready q), R; lia.
Qed.

(** The thread gets there. *)
Lemma loop_runs fuel : forall x rsd q rs, loop_inv x rsd q rs -> (steps_left x rsd q <= fuel)%nat ->
  exists x' rs' q', runUntilResumed fuel h x = Some x' /\ loop_inv x' rs' q' rs' /\ length rs' = length all.
Proof.
  induction fuel as [|fuel IH]; intros x rsd q rs Hinv Hfuel.
  all: pose proof (ci_prefix _ _ _ _ _ (li_chain _ _ _ _ Hinv)) as Hpre; pose proof (prefix_length _ _ Hpre) as Hpl.
  all: pose proof (ci_len _ _ _ _ _ (li_chain _ _ _ _ Hinv)) as Hlen; cbn [runUntilResumed]; rewrite (li_resumed _ _ _ _ Hinv).
  all: destruct (decide (length rsd = length all)) as [Hall|Hnot].
  all: try (rewrite bool_decide_eq_true_2 by constructor; exists x, rsd, q; split; [done|]; split; [|done];
    assert (rs = rsd) as <- by (symmetry; apply prefix_length_eq; [done|lia]); done).
  - unfold steps_left in Hfuel. lia.
  - rewrite bool_decide_eq_false_2 by apply not_elem_of_nil.
    destruct (x_phase x) eqn:Hph; [..|by destruct (li_phase _ _ _ _ Hinv)].
    + destruct (loop_wait x rsd q rs Hinv) as (x' & q' & rs' & -> & Hinv' & Hless); [lia|done|].
      cbn [mbind option_bind]. eapply IH; [exact Hinv'|lia].
    + destruct (loop_drain x rsd q rs Hinv) as (x' & rsd' & q' & rs' & -> & Hinv' & Hless); [lia|done|].
      cbn [mbind option_bind]. eapply IH; [exact Hinv'|lia].
Qed.

End Loop.
