(* ===== verification/UringTheorems.v ===== *)
(** * The executor keeps its promises to the database

    The executor's operations, over any kernel that behaves as io_uring is documented to,
    implement the interface [Io] the database is proved against; and what each submission
    does to the rings. *)

From stdpp Require Import relations.
From S2P Require Import Prelude Status Coding Crc32c WriteBatch Wal Io UringExecutor UringKernel UringFacts.

(** ** Files under the kernel's steps *)

Lemma writeback_holds f f' l : writeback f f' -> holds_log f l -> holds_log f' l.
Proof.
  intros [Hc Hd] [H1 H2]. split; [by rewrite Hc|]. rewrite prefix_lookup_iff in *.
  intros i b Hi. destruct (Hd i) as [-> | ->]; auto.
Qed.

Lemma writeback_synced f f' : writeback f f' -> durable f = content f -> durable f' = content f'.
Proof.
  intros [Hc Hd] He. rewrite Hc. apply list_eq. intros i. destruct (Hd i) as [-> | ->]; [by rewrite He|done].
Qed.

(** The file as it was, for a reader and after a crash. *)
Definition keeps (f0 f : file) : Prop :=
  content f = content f0 /\ forall l, holds_log f0 l -> holds_log f l.

Lemma keeps_refl f : keeps f f.
Proof. done. Qed.

Lemma keeps_writeback f0 f f' : keeps f0 f -> writeback f f' -> keeps f0 f'.
Proof.
  intros [Hc Hl] Hw. split; [destruct Hw; congruence|]. intros l H. eapply writeback_holds; eauto.
Qed.

(** Two requests, one behind the other, and the tail moved once. *)
Lemma ring_push2 s1 s2 m P R : ring_ok m P R -> zlen P + 2 <= sq_ringEntries m ->
  let i := Z.land (sq_tail m) (sq_ringMask m) in
  let j := Z.land (u32 (sq_tail m + 1)) (sq_ringMask m) in
  exists es1 es2 ar1 ar2, vec_set (sqes m) i s1 = Some es1 /\ vec_set es1 j s2 = Some es2 /\
    vec_set (sq_array m) i i = Some ar1 /\ vec_set ar1 j j = Some ar2 /\
    ring_ok (set_sq m (u32 (sq_tail m + 2)) ar2 es2) (P ++ [s1; s2]) R.
Proof.
  intros Hr Hn i j. destruct (ring_push s1 Hr) as (es1 & ar1 & E1 & A1 & Hr1); [lia|].
  destruct (ring_push s2 Hr1) as (es2 & ar2 & E2 & A2 & Hr2); [cbn; len|].
  exists es1, es2, ar1, ar2. do 4 (split; [done|]). cbn [set_sq sq_tail] in Hr2. unfold set_sq in Hr2 |- *.
  cbn [sq_head sq_tail sq_ringMask sq_ringEntries sq_flags cq_head cq_tail cq_ringMask cq_ringEntries cqes userbuf] in Hr2.
  rewrite <- app_assoc in Hr2. replace (u32 (sq_tail m + 2)) with (u32 (u32 (sq_tail m + 1) + 1)); [exact Hr2|].
  unfold u32. rewrite Zplus_mod_idemp_l. f_equal. lia.
Qed.

(** ** A quiet executor *)

Section Quiet.
Context {L : Libc} {K : Type} `{!Kernel K, !KernelSpec K}.

(** Nothing submitted, nothing in flight, nothing to take. *)
Record quiet (x : Exec K) (fd : Z) (poll : bool) : Prop := {
  qu_ring : ring_ok (m_shm (x_mach x)) [] [];
  qu_infl : k_inflight (m_kern (x_mach x)) = [];
  qu_entries : 2 <= sq_ringEntries (m_shm (x_mach x));
  qu_fd : ringFd (x_state x) = fd /\ 0 <= fd;
  qu_stop : stopping (x_state x) = false;
  qu_phase : x_phase x <> Exited;
  qu_poll : sqPollEnabled (x_state x) = poll;
  qu_kpoll : k_polls (m_kern (x_mach x)) = poll;
}.

(** The machine of a quiet executor: what its own steps can do. *)
Record quiet_mach (f0 : file) (b0 : bytes) (poll : bool) (m : mach K) : Prop := {
  qm_ring : ring_ok (m_shm m) [] [];
  qm_infl : k_inflight (m_kern m) = [];
  qm_entries : 2 <= sq_ringEntries (m_shm m);
  qm_kpoll : k_polls (m_kern m) = poll;
  qm_file : keeps f0 (m_file m);
  qm_buf : userbuf (m_shm m) = b0;
}.

Lemma quiet_async f0 b0 poll m : quiet_mach f0 b0 poll m ->
  quiet_mach f0 b0 poll (k_async m) /\ same_app (m_shm m) (m_shm (k_async m)).
Proof.
  intros [Hr Hi He Hk Hf Hb]. set (Post := fun (_ : list Z) f b => keeps f0 f /\ b = b0).
  destruct (machine_moves [] Post ltac:(done) ltac:(intros ? ? ? ? [? ?] ?; split; [by eapply keeps_writeback|done])
    ltac:(done) m (k_async m) [] (mkQueues [] [] [] (userbuf (m_shm m)) (m_file m)) []) as (q & rs & Hat & Hch & _ & _ & Hs).
  - apply async_steps.
  - split; [done|]. by rewrite Hi.
  - by split.
  - destruct q as [P fl R b f]. destruct Hat as (Hr' & Hfl & Hb' & Hf').
    destruct Hch as [Hp Hd Hl Ht [Hk2 Hb2]]. cbn [q_pend q_infl q_ready q_buf q_file] in *. subst.
    rewrite drop_nil in Ht. apply app_eq_nil in Ht as [Hfl ->]. apply fmap_nil_inv in Hfl.
    destruct rs; [|cbn in Hl; lia]. destruct R; [|done].
    split; [|done]. split; try done.
    + destruct Hs. congruence.
    + apply async_polls.
Qed.

Lemma async_patience2 m : (k_patience (m_kern (k_async (k_async m))) <= k_patience (m_kern m))%nat.
Proof. etrans; apply async_patience. Qed.

(** *** After the requests are in the ring *)

Section Kick.
Context (all : list sqe) (Post : list Z -> file -> bytes -> Prop).
Context (Hlinked : chain_linked all) (Hstable : post_stable Post) (Hpost : post_step all Post).
Context `{!KernelReliable K}.

(** Submitted: the kernel has, or is sure to see, the requests. *)
Definition submitted (m m' : mach K) (poll : bool) : Prop :=
  exists q rs, at_queues (view m') q /\ chain_inv all Post [] q rs /\ (poll = true \/ q_pend q = []) /\
    k_polls (m_kern m') = k_polls (m_kern m) /\ (k_patience (m_kern m') <= k_patience (m_kern m))%nat /\
    sq_ringEntries (m_shm m') = sq_ringEntries (m_shm m).

Lemma pushed_inv f b : Post [] f b -> chain_inv all Post [] (mkQueues all [] [] b f) [].
Proof. intros H. split; cbn [q_pend q_infl q_ready q_buf q_file]; done || (cbn; lia). Qed.

Lemma enter_submitted m m' ret q rs : k_enter m (zlen all) 0 0 = (m', ret) -> k_polls (m_kern m) = false ->
  at_queues (view m) q -> q_pend q = all -> chain_inv all Post [] q rs -> 0 <= ret /\ submitted m m' false.
Proof.
  intros He Hk Hat Hpe Hch. pose proof Hat as (Hring & _).
  destruct (enter_submits _ _ _ _ He Hk (ex_intro _ _ (ex_intro _ _ Hring))) as [Hret Heq].
  { rewrite (shape_count (ro_sq _ _ _ Hring)), Hpe. lia. }
  split; [done|].
  destruct (machine_moves all Post Hlinked Hstable Hpost m m' [] q rs) as (q' & rs' & Hat' & Hch' & _ & _ & Hsa);
    [by eapply enter_steps|done|done|].
  exists q', rs'. split; [done|]. split; [done|].
  split; [|split; [by eapply enter_polls|split; [by eapply enter_patience|apply Hsa]]].
  right. destruct q' as [P fl R b' f']. destruct Hat' as (Hring' & _). cbn [q_pend] in *.
  apply (shape_empty (ro_sq _ _ _ Hring')) in Heq. destruct P; [done|len].
Qed.

Lemma wake_submitted m m' st s q rs : sqPollEnabled st = true -> wakeSqPollIfNeeded m st = (m', s) ->
  at_queues (view m) q -> chain_inv all Post [] q rs -> s = Status.Ok /\ submitted m m' true.
Proof.
  intros Hst Hw Hat Hch. unfold wakeSqPollIfNeeded in Hw. rewrite Hst in Hw. cbn [negb loadAcquire] in Hw.
  unfold loadAcquire in Hw.
  destruct (machine_moves all Post Hlinked Hstable Hpost m (k_async m) [] q rs) as (q1 & rs1 & Hat1 & Hch1 & _ & _ & Hs1);
    [apply async_steps|done|done|].
  pose proof (async_patience m) as Hpa. pose proof (async_polls m) as Hpo.
  destruct (Z.land (sq_flags (m_shm (k_async m))) IORING_SQ_NEED_WAKEUP =? 0).
  { injection Hw as <- <-. split; [done|]. exists q1, rs1. pose proof (same_entries _ _ Hs1). auto 6. }
  destruct (k_enter (k_async m) 0 0 IORING_ENTER_SQ_WAKEUP) as [m2 ret] eqn:He.
  pose proof (enter_wakes _ _ _ He). destruct (Z.ltb_spec ret 0); [lia|]. injection Hw as <- <-. split; [done|].
  destruct (machine_moves all Post Hlinked Hstable Hpost (k_async m) m2 [] q1 rs1) as (q2 & rs2 & Hat2 & Hch2 & _ & _ & Hs2);
    [by eapply enter_steps|done|done|].
  exists q2, rs2. split; [done|]. split; [done|]. split; [by left|].
  pose proof (enter_polls _ _ _ _ _ _ He). pose proof (enter_patience _ _ _ _ _ _ He).
  split; [congruence|]. split; [lia|]. destruct Hs1, Hs2. congruence.
Qed.
End Kick.

(** *** Submission *)

Context `{!KernelReliable K}.

(** One request: with room in the ring it is accepted, and the kernel gets it. *)
Lemma submitRaw_spec f0 b0 poll m st source a (Post : list Z -> file -> bytes -> Prop) :
  let s := with_user_data source a in
  quiet_mach f0 b0 poll m -> sqPollEnabled st = poll -> post_stable Post -> post_step [s] Post ->
  (forall f, keeps f0 f -> Post [] f b0) ->
  exists m' q rs, submitRaw m st source a = Some (m', Status.Ok) /\ at_queues (view m') q /\
    chain_inv [s] Post [] q rs /\ (poll = true \/ q_pend q = []) /\ k_polls (m_kern m') = poll /\
    (k_patience (m_kern m') <= k_patience (m_kern m))%nat /\ 2 <= sq_ringEntries (m_shm m').
Proof.
  intros s Q0 Hpoll Hstable Hpost Hinit.
  assert (chain_linked [s]) as Hlink by (intros i t Ht; apply lookup_lt_Some in Ht; cbn in *; lia).
  destruct (quiet_async f0 b0 poll m Q0) as [Q1 S1]. destruct (quiet_async _ _ _ _ Q1) as [Q2 S2].
  unfold submitRaw, loadAcquire. pose proof (async_patience2 m) as Hpat.
  set (m1 := k_async m) in *. set (m2 := k_async m1) in *.
  rewrite <- (same_tail _ _ S2). destruct Q2 as [Hr2 Hi2 Hen2 Hkp2 Hf2 Hb2].
  rewrite (shape_count (ro_sq _ _ _ Hr2)), Z.geb_leb.
  destruct (Z.leb_spec (sq_ringEntries (m_shm m2)) (zlen ([] : list sqe))) as [Hz|_]; [cbn in Hz; lia|].
  fold s. destruct (ring_push s Hr2) as (es & array & -> & E2 & Hr3); [cbn; lia|]. cbn [mbind option_bind]. rewrite E2.
  cbn [mbind option_bind]. set (m3 := with_shm m2 _).
  set (q3 := mkQueues [s] [] [] (userbuf (m_shm m3)) (m_file m3)).
  assert (at_queues (view m3) q3) as Hat3 by (split; [exact Hr3|]; split; [symmetry; exact Hi2|done]).
  assert (chain_inv [s] Post [] q3 []) as Hch3.
  { apply pushed_inv. cbn [m3 with_shm m_file m_shm set_sq userbuf]. rewrite Hb2. by apply Hinit. }
  assert (forall m4, submitted [s] Post m3 m4 poll -> exists m' q rs, Some (m4, Status.Ok) = Some (m', Status.Ok) /\
    at_queues (view m') q /\ chain_inv [s] Post [] q rs /\ (poll = true \/ q_pend q = []) /\ k_polls (m_kern m') = poll /\
    (k_patience (m_kern m') <= k_patience (m_kern m))%nat /\ 2 <= sq_ringEntries (m_shm m')) as Hdone.
  { intros m4 (q & rs & Hat & Hch & Hpe & Hk4 & Hp4 & He4). exists m4, q, rs. do 4 (split; [done|]).
    split; [by rewrite Hk4|]. split; [by etrans|by rewrite He4]. }
  rewrite Hpoll. destruct poll.
  - destruct (wakeSqPollIfNeeded m3 st) as [m4 st4] eqn:Hw.
    destruct (wake_submitted [s] Post Hlink Hstable Hpost m3 m4 st st4 q3 []) as [-> Hsub]; [done..|]. by apply Hdone.
  - destruct (k_enter m3 1 0 0) as [m4 ret] eqn:He.
    destruct (enter_submitted [s] Post Hlink Hstable Hpost m3 m4 ret q3 []) as [Hret Hsub]; [done..|].
    destruct (Z.ltb_spec ret 0); [lia|]. by apply Hdone.
Qed.

Lemma submit_spec x fd poll a op h (Post : list Z -> file -> bytes -> Prop) :
  let s := with_user_data (op_sqe op) a in
  quiet x fd poll -> x_heap x = {[ a := op ]} -> op_continuation op = Some h -> x_resumed x = [] ->
  post_stable Post -> post_step [s] Post ->
  (forall f, keeps (m_file (x_mach x)) f -> Post [] f (userbuf (m_shm (x_mach x)))) ->
  exists x' q rs, submit x false a = Some (x', Status.Ok) /\ loop_inv [s] Post h fd poll x' [] q rs /\
    (k_patience (m_kern (x_mach x')) <= k_patience (m_kern (x_mach x)))%nat.
Proof.
  intros s [Hr Hi Hen [Hfd Hfd0] Hstop Hph Hpoll Hkp] Hheap Hcont Hres Hstable Hpost Hinit.
  destruct (submitRaw_spec (m_file (x_mach x)) (userbuf (m_shm (x_mach x))) poll (x_mach x) (x_state x) (op_sqe op) a Post)
    as (m' & q & rs & Hsub & Hat & Hch & Hpe & Hk & Hp & He); [by split|done..|].
  unfold submit. cbn [orb]. destruct (Z.ltb_spec (ringFd (x_state x)) 0); [lia|].
  rewrite Hheap, lookup_singleton_eq. cbn [mbind option_bind]. rewrite Hsub. cbn [mbind option_bind].
  eexists _, q, rs. split; [done|]. split; [|done].
  split; cbn [x_mach x_state x_heap x_phase x_resumed]; try done.
  intros i t Ht. apply list_lookup_singleton_Some in Ht as [-> <-]. exists op. split; [apply lookup_singleton_eq|]. done.
Qed.

(** Two linked requests: accepted together, the first one linked to the second. *)
Lemma link_sqe_linked s a t : chain_linked [with_user_data (link_sqe s) a; t].
Proof.
  intros [|[|i]] u Ht Hlt; cbn in *; [|lia..]. injection Ht as <-. unfold linked. cbn. rewrite Z.land_lor_distr_l.
  destruct (Z.eqb_spec (Z.lor (Z.land (sqe_flags s) IOSQE_IO_LINK) (Z.land IOSQE_IO_LINK IOSQE_IO_LINK)) 0)
    as [E|]; [|done]. apply Z.lor_eq_0_iff in E as [_ E]. done.
Qed.

Lemma submitLinked_spec x fd poll a1 a2 op1 op2 h (Post : list Z -> file -> bytes -> Prop) :
  let s1 := with_user_data (link_sqe (op_sqe op1)) a1 in
  let s2 := with_user_data (op_sqe op2) a2 in
  quiet x fd poll -> x_heap x = <[a1 := op1]> {[ a2 := op2 ]} -> a1 <> a2 ->
  op_continuation op1 = None -> op_continuation op2 = Some h -> x_resumed x = [] ->
  post_stable Post -> post_step [s1; s2] Post ->
  (forall f, keeps (m_file (x_mach x)) f -> Post [] f (userbuf (m_shm (x_mach x)))) ->
  exists x' q rs, submitLinked x false a1 a2 = Some (x', Status.Ok) /\ loop_inv [s1; s2] Post h fd poll x' [] q rs /\
    (k_patience (m_kern (x_mach x')) <= k_patience (m_kern (x_mach x)))%nat.
Proof.
  intros s1 s2 [Hr Hi Hen [Hfd Hfd0] Hstop Hph Hpoll Hkp] Hheap Hne Hc1 Hc2 Hres Hstable Hpost Hinit.
  pose proof (link_sqe_linked (op_sqe op1) a1 s2) as Hlink. fold s1 in Hlink.
  destruct (quiet_async (m_file (x_mach x)) (userbuf (m_shm (x_mach x))) poll (x_mach x)) as [Q1 S1]; [by split|].
  destruct (quiet_async _ _ _ _ Q1) as [Q2 S2].
  unfold submitLinked, loadAcquire. cbn [orb]. destruct (Z.ltb_spec (ringFd (x_state x)) 0); [lia|].
  set (m1 := k_async (x_mach x)) in *. set (m2 := k_async m1) in *.
  rewrite <- (same_tail _ _ S2). destruct Q2 as [Hr2 Hi2 Hen2 Hkp2 Hf2 Hb2].
  rewrite (shape_count (ro_sq _ _ _ Hr2)), Z.gtb_ltb. change (u32 (zlen ([] : list sqe) + 2)) with 2.
  destruct (Z.ltb_spec (sq_ringEntries (m_shm m2)) 2); [lia|].
  rewrite Hheap, lookup_insert_eq. cbn [mbind option_bind set_op_sqe op_sqe]. fold s1.
  rewrite lookup_insert_ne, lookup_insert_ne, lookup_singleton_eq by done.
  cbn [mbind option_bind set_op_sqe op_sqe]. fold s2.
  destruct (ring_push2 s1 s2 _ _ _ Hr2) as (es1 & es2 & ar1 & ar2 & E1 & E2 & A1 & A2 & Hr5); [cbn; lia|].
  rewrite E1. cbn [mbind option_bind]. rewrite E2. cbn [mbind option_bind].
  rewrite A1. cbn [mbind option_bind]. rewrite A2. cbn [mbind option_bind].
  set (m4 := with_shm m2 _). change (ring_ok (m_shm m4) [s1; s2] []) in Hr5.
  set (heap := <[a2 := _]> _).
  set (q4 := mkQueues [s1; s2] [] [] (userbuf (m_shm m4)) (m_file m4)).
  assert (at_queues (view m4) q4) as Hat4 by (split; [exact Hr5|]; split; [symmetry; exact Hi2|done]).
  assert (chain_inv [s1; s2] Post [] q4 []) as Hch4.
  { apply pushed_inv. cbn [m4 with_shm m_file m_shm set_sq userbuf]. rewrite Hb2. by apply Hinit. }
  assert (forall m5, submitted [s1; s2] Post m4 m5 poll -> exists q rs,
    loop_inv [s1; s2] Post h fd poll (mkExec m5 (x_state x) heap (x_phase x) (x_resumed x)) [] q rs /\
    (k_patience (m_kern m5) <= k_patience (m_kern (x_mach x)))%nat) as Hdone.
  { intros m5 (q & rs & Hat & Hch & Hpe & Hk5 & Hp5 & He5). exists q, rs. split.
    - split; cbn [x_mach x_state x_heap x_phase x_resumed]; try done.
      + intros [|[|i]] t Ht; cbn in Ht; simplify_eq; unfold heap.
        * cbn. rewrite lookup_insert_ne, lookup_insert_eq by done. by eexists.
        * cbn. rewrite lookup_insert_eq. by eexists.
      + by rewrite Hk5.
      + by rewrite He5.
    - etrans; [exact Hp5|]. apply async_patience2. }
  rewrite Hpoll. destruct poll.
  - destruct (wakeSqPollIfNeeded m4 (x_state x)) as [m5 st5] eqn:Hw.
    destruct (wake_submitted [s1; s2] Post Hlink Hstable Hpost m4 m5 (x_state x) st5 q4 []) as [-> Hsub]; [done..|].
    destruct (Hdone m5 Hsub) as (q & rs & Hinv & Hp). by eexists _, q, rs.
  - destruct (k_enter m4 2 0 0) as [m5 ret] eqn:He.
    destruct (enter_submitted [s1; s2] Post Hlink Hstable Hpost m4 m5 ret q4 []) as [Hret Hsub]; [done..|].
    destruct (Z.ltb_spec ret 0); [lia|].
    destruct (Hdone m5 Hsub) as (q & rs & Hinv & Hp). by eexists _, q, rs.
Qed.

(** After the last completion the executor is quiet again. *)
Lemma finished_quiet all Post h fd poll x rs q :
  loop_inv all Post h fd poll x rs q rs -> length rs = length all -> 0 <= fd ->
  quiet x fd poll /\ Post rs (m_file (x_mach x)) (userbuf (m_shm (x_mach x))).
Proof.
  intros [Hat Hch _ Hph Hstop _ Hfd Hpoll Hkp _ Hen] Hlen Hfd0.
  pose proof (chain_ready _ _ _ _ _ Hch) as Hrdy. destruct Hch as [_ _ _ Ht HP].
  destruct q as [P fl R b f]. destruct Hat as (Hr & Hi & Hb & Hf). cbn [q_pend q_infl q_ready q_buf q_file] in *.
  rewrite Nat.sub_diag in Hrdy. destruct R; [|done].
  rewrite Hlen, drop_all in Ht. apply app_eq_nil in Ht as [Hfl ->]. apply fmap_nil_inv in Hfl. subst fl.
  subst. split; [|done]. by split.
Qed.

(** *** Operations run to completion *)

Lemma awaitSingle_spec fr x fd poll s e1 e2 (Post : list Z -> file -> bytes -> Prop) fuel :
  let s' := with_user_data s (addr1 fr) in
  quiet x fd poll -> addr1 fr <> 0 -> post_stable Post -> post_step [s'] Post ->
  (forall f, keeps (m_file (x_mach x)) f -> Post [] f (userbuf (m_shm (x_mach x)))) ->
  (8 + k_patience (m_kern (x_mach x)) <= fuel)%nat ->
  exists x' r, awaitSingle fuel fr x s e1 e2 = Some (x', singleResult false r e1 e2) /\ quiet x' fd poll /\
    Post [r] (m_file (x_mach x')) (userbuf (m_shm (x_mach x'))).
Proof.
  intros s' Hq Ha Hstable Hpost Hinit Hfuel. unfold awaitSingle.
  set (x0 := mkExec (x_mach x) (x_state x) _ (x_phase x) []).
  destruct (submit_spec x0 fd poll (addr1 fr) (mkOperation s (Some (handle fr)) 0) (handle fr) Post)
    as (x1 & q1 & rs1 & -> & Hinv & Hpat); [by destruct Hq|done..|]. cbn [mbind option_bind negb].
  assert (chain_linked [s']) as Hlink by (intros i t Ht; apply lookup_lt_Some in Ht; cbn in *; lia).
  destruct (loop_runs [s'] Post (handle fr) fd poll Hlink Hstable Hpost) with (fuel := fuel) (x := x1) (rsd := @nil Z) (q := q1) (rs := rs1)
    as (x2 & rs2 & q2 & -> & Hinv2 & Hlen2); [apply NoDup_singleton|by constructor|done| |].
  { unfold steps_left. cbn [length] in *. cbn [x0 x_mach] in Hpat. destruct (x_phase x1), (q_ready q1); lia. }
  cbn [mbind option_bind]. destruct (finished_quiet _ _ _ _ _ _ _ _ Hinv2 Hlen2) as [Hq2 HP2]; [apply Hq|].
  destruct rs2 as [|r [|]]; cbn in Hlen2; [lia| |lia].
  destruct (li_heap _ _ _ _ _ _ _ _ _ Hinv2 0%nat s' eq_refl) as (op & Hop & _ & Hr).
  cbn [s' with_user_data user_data] in Hop. rewrite Hop. cbn [mbind option_bind]. rewrite (Hr r eq_refl).
  by exists x2, r.
Qed.

Lemma writev_spec_quiet fr x fd poll walFd mem iovs off expected (Post : list Z -> file -> bytes -> Prop) fuel :
  let s1 := with_user_data (link_sqe (writevSqe walFd mem iovs off)) (addr1 fr) in
  let s2 := with_user_data (syncSqe walFd) (addr2 fr) in
  quiet x fd poll -> addr1 fr <> 0 -> addr2 fr <> 0 -> addr1 fr <> addr2 fr ->
  post_stable Post -> post_step [s1; s2] Post ->
  (forall f, keeps (m_file (x_mach x)) f -> Post [] f (userbuf (m_shm (x_mach x)))) ->
  (8 + k_patience (m_kern (x_mach x)) <= fuel)%nat ->
  exists x' r1 r2, uring_WritevAndFDataSync fuel fr x walFd mem iovs off expected
      = Some (x', linkedResult false r1 r2 expected) /\ quiet x' fd poll /\
    Post [r1; r2] (m_file (x_mach x')) (userbuf (m_shm (x_mach x'))).
Proof.
  intros s1 s2 Hq Ha1 Ha2 Hne Hstable Hpost Hinit Hfuel. unfold uring_WritevAndFDataSync.
  set (x0 := mkExec (x_mach x) (x_state x) _ (x_phase x) []).
  destruct (submitLinked_spec x0 fd poll (addr1 fr) (addr2 fr) (mkOperation (writevSqe walFd mem iovs off) None 0)
    (mkOperation (syncSqe walFd) (Some (handle fr)) 0) (handle fr) Post)
    as (x1 & q1 & rs1 & -> & Hinv & Hpat); [by destruct Hq|done..|]. cbn [mbind option_bind negb op_sqe] in *.
  fold s1 s2 in Hinv. pose proof Hinv as Hinv0.
  assert (chain_linked [s1; s2]) as Hlink.
  { intros [|[|i]] t Ht Hlt; cbn in *; [|lia..]. by injection Ht as <-. }
  destruct (loop_runs [s1; s2] Post (handle fr) fd poll Hlink Hstable Hpost) with (fuel := fuel) (x := x1) (rsd := @nil Z) (q := q1) (rs := rs1)
    as (x2 & rs2 & q2 & -> & Hinv2 & Hlen2);
    [apply NoDup_cons; split; [by intros ?%list_elem_of_singleton|apply NoDup_singleton]|by repeat constructor|done| |].
  { unfold steps_left. cbn [length] in *. cbn [x0 x_mach] in Hpat. destruct (x_phase x1), (q_ready q1); lia. }
  cbn [mbind option_bind]. destruct (finished_quiet _ _ _ _ _ _ _ _ Hinv2 Hlen2) as [Hq2 HP2]; [apply Hq|].
  destruct rs2 as [|r1 [|r2 [|]]]; cbn in Hlen2; [lia|lia| |lia].
  destruct (li_heap _ _ _ _ _ _ _ _ _ Hinv2 0%nat s1 eq_refl) as (op1 & Hop1 & _ & Hr1).
  destruct (li_heap _ _ _ _ _ _ _ _ _ Hinv2 1%nat s2 eq_refl) as (op2 & Hop2 & _ & Hr2).
  cbn [s1 s2 with_user_data user_data] in Hop1, Hop2. rewrite Hop1. cbn [mbind option_bind].
  rewrite Hop2. cbn [mbind option_bind]. rewrite (Hr1 r1 eq_refl), (Hr2 r2 eq_refl).
  by exists x2, r1, r2.
Qed.

End Quiet.

(** ** The rings stay rings

    Without assuming that the kernel accepts what is submitted. *)

Section Rings.
Context {L : Libc} {K : Type} `{!Kernel K, !KernelSpec K}.

Definition rings_ok (m : mach K) : Prop := exists P R, ring_ok (m_shm m) P R.

Lemma rings_at m P R : ring_ok (m_shm m) P R ->
  at_queues (view m) (mkQueues P (k_inflight (m_kern m)) R (userbuf (m_shm m)) (m_file m)).
Proof. done. Qed.

Lemma rings_steps m m' : rings_ok m -> rtc kstep (view m) (view m') ->
  rings_ok m' /\ same_app (m_shm m) (m_shm m').
Proof.
  intros (P & R & H) Hs. destruct (ksteps_queues _ _ _ (rings_at _ _ _ H) Hs) as (q & (Hr & _) & _).
  split; [by exists (q_pend q), (q_ready q)|]. by apply ksteps_same in Hs.
Qed.

Lemma rings_async m : rings_ok m -> rings_ok (k_async m) /\ same_app (m_shm m) (m_shm (k_async m)).
Proof. intros H. apply rings_steps; [done|apply async_steps]. Qed.

Lemma rings_enter m n c fl m' ret : rings_ok m -> k_enter m n c fl = (m', ret) -> rings_ok m'.
Proof. intros H He. eapply rings_steps; [exact H|by eapply enter_steps]. Qed.

Lemma rings_wake m st m' s : rings_ok m -> wakeSqPollIfNeeded m st = (m', s) -> rings_ok m'.
Proof.
  intros H Hw. unfold wakeSqPollIfNeeded, loadAcquire in Hw. destruct (negb _); [by injection Hw as <- _|].
  pose proof (rings_async m H) as [H1 _]. destruct (_ =? 0); [by injection Hw as <- _|].
  destruct (k_enter _ 0 0 _) as [m2 ret] eqn:He. apply (rings_enter _ _ _ _ _ _ H1) in He.
  destruct (ret <? 0); by injection Hw as <- _.
Qed.

Lemma submitRaw_rings m st s ud : rings_ok m -> exists m' status, submitRaw m st s ud = Some (m', status) /\ rings_ok m'.
Proof.
  intros H. unfold submitRaw, loadAcquire. destruct (rings_async m H) as [H1 _].
  destruct (rings_async _ H1) as [(P & R & Hr) S2]. set (m2 := k_async (k_async m)) in *.
  rewrite <- (same_tail _ _ S2), (shape_count (ro_sq _ _ _ Hr)), Z.geb_leb.
  destruct (Z.leb_spec (sq_ringEntries (m_shm m2)) (zlen P)); [do 2 eexists; split; [done|]; by exists P, R|].
  destruct (ring_push (with_user_data s ud) Hr) as (es & ar & -> & E2 & Hr3); [lia|]. cbn [mbind option_bind].
  rewrite E2. cbn [mbind option_bind]. set (m3 := with_shm m2 _).
  assert (rings_ok m3) as H3 by (by exists (P ++ [with_user_data s ud]), R).
  destruct (sqPollEnabled st).
  - destruct (wakeSqPollIfNeeded m3 st) as [m4 s4] eqn:Hw. do 2 eexists. split; [done|]. by eapply rings_wake.
  - destruct (k_enter m3 1 0 0) as [m4 ret] eqn:He. pose proof (rings_enter _ _ _ _ _ _ H3 He).
    destruct (ret <? 0); do 2 eexists; split; done.
Qed.

Lemma submitLinked_rings x a1 a2 op1 op2 : rings_ok (x_mach x) -> x_heap x !! a1 = Some op1 -> x_heap x !! a2 = Some op2 ->
  exists x' status, submitLinked x false a1 a2 = Some (x', status) /\ rings_ok (x_mach x').
Proof.
  intros H Ho1 Ho2. unfold submitLinked, loadAcquire. cbn [orb]. destruct (ringFd (x_state x) <? 0); [by do 2 eexists|].
  destruct (rings_async _ H) as [H1 _]. destruct (rings_async _ H1) as [(P & R & Hr) S2].
  set (m2 := k_async (k_async (x_mach x))) in *. pose proof (shape_bounds (ro_sq _ _ _ Hr)).
  pose proof (shape_len _ _ _ _ _ (ro_sq _ _ _ Hr)).
  rewrite <- (same_tail _ _ S2), (shape_count (ro_sq _ _ _ Hr)), (u32_small (zlen P + 2)), Z.gtb_ltb by lia.
  destruct (Z.ltb_spec (sq_ringEntries (m_shm m2)) (zlen P + 2)); [do 2 eexists; split; [done|]; by exists P, R|].
  rewrite Ho1. cbn [mbind option_bind]. set (o1 := set_op_sqe op1 _).
  assert (exists op2', <[a1 := o1]> (x_heap x) !! a2 = Some op2') as [op2' ->].
  { destruct (decide (a1 = a2)) as [->|]; [rewrite lookup_insert_eq|rewrite lookup_insert_ne by done]; eauto. }
  cbn [mbind option_bind]. set (o2 := set_op_sqe op2' _).
  destruct (ring_push2 (op_sqe o1) (op_sqe o2) _ _ _ Hr) as (es1 & es2 & ar1 & ar2 & -> & E2 & A1 & A2 & Hr4); [lia|].
  cbn [mbind option_bind]. rewrite E2. cbn [mbind option_bind].
  rewrite A1. cbn [mbind option_bind]. rewrite A2. cbn [mbind option_bind].
  set (m4 := with_shm m2 _). assert (rings_ok m4) as H4 by (by exists (P ++ [op_sqe o1; op_sqe o2]), R).
  destruct (sqPollEnabled (x_state x)).
  - destruct (wakeSqPollIfNeeded m4 (x_state x)) as [m5 s5] eqn:Hw. do 2 eexists. split; [done|]. by eapply rings_wake.
  - destruct (k_enter m4 2 0 0) as [m5 ret] eqn:He. do 2 eexists. split; [done|]. by eapply rings_enter.
Qed.

Lemma completionLoop_rings x : rings_ok (x_mach x) ->
  (forall P R, ring_ok (m_shm (k_async (k_async (x_mach x)))) P R ->
     Forall (fun c => cqe_user_data c = 0 \/ is_Some (x_heap x !! cqe_user_data c)) R) ->
  exists x', completionLoop x = Some x' /\ rings_ok (x_mach x').
Proof.
  intros H Hheap. unfold completionLoop, loadAcquire. destruct (x_phase x); [| |by eexists].
  - destruct (k_enter _ 0 1 _) as [m' ret] eqn:He. eexists. split; [done|]. by eapply rings_enter.
  - destruct (rings_async _ H) as [H1 _]. destruct (rings_async _ H1) as [(P & R & Hr) S2].
    specialize (Hheap P R Hr). set (m2 := k_async (k_async (x_mach x))) in *. rewrite <- (same_cq_head _ _ S2).
    destruct (Z.eqb_spec (cq_head (m_shm m2)) (cq_tail (m_shm m2))) as [_|Hne];
      [eexists; split; [done|]; by exists P, R|].
    apply (ring_ready_iff Hr) in Hne. destruct R as [|c R]; [done|]. destruct (ring_drain c Hr) as [-> Hr'].
    cbn [mbind option_bind]. apply Forall_inv in Hheap.
    destruct (Z.eqb_spec (cqe_user_data c) 0); [eexists; split; [done|]; by exists P, R|].
    destruct Hheap as [|[op ->]]; [done|]. cbn [mbind option_bind]. eexists. split; [done|]. by exists P, R.
Qed.


End Rings.
