(* ===== verification/UringLifecycle.v ===== *)
(** * Setting the executor up and taking it down (src/io/uring_executor.cc)

    [init] and [closeRing]: the ring's descriptor, its mappings, the pointers into them,
    and the completion thread. The system calls are parameters with their documented
    effect on the process's descriptors and mappings. *)

From stdpp Require Import relations.
From S2P Require Import Prelude Status Coding Crc32c WriteBatch Wal Io UringExecutor UringKernel UringFacts UringTheorems.

(** ** Definitions *)

Definition IORING_SETUP_SQPOLL : Z := 2.
Definition IORING_FEAT_SINGLE_MMAP : Z := 1.
Definition IORING_OFF_SQ_RING : Z := 0.
Definition IORING_OFF_CQ_RING : Z := 0x8000000.
Definition IORING_OFF_SQES : Z := 0x10000000.

Definition sizeof_cqe : Z := 16.
Definition sizeof_sqe : Z := 64.

(** What the kernel fills in of [io_uring_params]. *)
Record io_uring_params := mkParams {
  sq_entries : Z;
  cq_entries : Z;
  features : Z;
  sq_off_head : Z;
  sq_off_tail : Z;
  sq_off_ring_mask : Z;
  sq_off_ring_entries : Z;
  sq_off_flags : Z;
  sq_off_array : Z;
  cq_off_head : Z;
  cq_off_tail : Z;
  cq_off_ring_mask : Z;
  cq_off_ring_entries : Z;
  cq_off_cqes : Z;
}.

Definition nullptr : Z := 0.
Definition MAP_FAILED : Z := -1.

(** The system calls, on the kernel's state. *)
Class Setup (K : Type) := {
  (** [io_uring_setup(entries, {flags, sq_thread_idle})]. *)
  sys_setup : K -> Z -> Z -> Z -> K * Z * io_uring_params;
  (** [mmap(nullptr, size, PROT_READ | PROT_WRITE, MAP_SHARED | MAP_POPULATE, fd, offset)]. *)
  sys_mmap : K -> Z -> Z -> Z -> K * Z;
  sys_munmap : K -> Z -> Z -> K;
  sys_close : K -> Z -> K;
  sys_errno : K -> Z;
  (** [std::thread]'s constructor: whether there is a thread to be had, or it throws. *)
  sys_thread : K -> bool;
}.

(** What a call that may throw gives back. *)
Inductive Outcome (A : Type) :=
  | Returned (r : Result A)
  | Threw.
Arguments Returned {A} r.
Arguments Threw {A}.

(** [UringExecutor::Options]. *)
Record UringOptions := mkUringOptions { entries : Z; sqPoll : bool; sqPollIdleMs : Z }.
Definition default_UringOptions : UringOptions := mkUringOptions 8 false 2000.

(** The pointers of [SubmissionRing] and [CompletionRing]. *)
Record RingPtrs := mkRingPtrs {
  p_sq_head : Z;
  p_sq_tail : Z;
  p_sq_ringMask : Z;
  p_sq_ringEntries : Z;
  p_sq_flags : Z;
  p_sq_array : Z;
  p_cq_head : Z;
  p_cq_tail : Z;
  p_cq_ringMask : Z;
  p_cq_ringEntries : Z;
  p_cq_cqes : Z;
  p_sqes : Z;
}.

Definition null_ptrs : RingPtrs := mkRingPtrs 0 0 0 0 0 0 0 0 0 0 0 0.

(** The rest of [State]. *)
Record RState := mkRState {
  r_state : UState;
  r_ptrs : RingPtrs;
  sqRingPtr : Z;
  cqRingPtr : Z;
  sqesPtr : Z;
  sqRingSize : Z;
  cqRingSize : Z;
  sqesSize : Z;
  singleMmap : bool;
  joinable : bool;
}.

Section Lifecycle.
Context {L : Libc} {K : Type} `{!Kernel K, !Setup K}.

(** The end of [closeRing]. *)
Definition unmapRing (k : K) (st : RState) : K :=
  let k := if negb (sqesPtr st =? nullptr) then sys_munmap k (sqesPtr st) (sqesSize st) else k in
  let k := if negb (cqRingPtr st =? nullptr) && negb (cqRingPtr st =? sqRingPtr st)
    then sys_munmap k (cqRingPtr st) (cqRingSize st) else k in
  let k := if negb (sqRingPtr st =? nullptr) then sys_munmap k (sqRingPtr st) (sqRingSize st) else k in
  if 0 <=? ringFd (r_state st) then sys_close k (ringFd (r_state st)) else k.

(** [thread.join()]: the completion thread runs until it returns. *)
Fixpoint joinThread (fuel : nat) (x : Exec K) : option (Exec K) :=
  match x_phase x with
  | Exited => Some x
  | _ => match fuel with
         | O => None
         | S fuel => x ← completionLoop x; joinThread fuel x
         end
  end.

Definition set_ringFd (st : UState) (fd : Z) : UState :=
  mkUState fd (stopping st) (completionLoopCompletions st) (sqPollEnabled st).
Definition set_stopping (st : UState) : UState :=
  mkUState (ringFd st) true (completionLoopCompletions st) (sqPollEnabled st).

Definition set_state (st : RState) (u : UState) : RState :=
  mkRState u (r_ptrs st) (sqRingPtr st) (cqRingPtr st) (sqesPtr st) (sqRingSize st) (cqRingSize st) (sqesSize st)
    (singleMmap st) (joinable st).

Definition nopSqe : sqe := mkSqe IORING_OP_NOP 0 0 0 NullAddr 0 0 0.

(** [closeRing] of an executor whose thread runs in [x]; [r_state] is the thread's. *)
Definition closeRing (fuel : nat) (x : Exec K) (st : RState) : option (Exec K * K) :=
  if joinable st then
    let u := set_stopping (x_state x) in
    '(m, status) ← submitRaw (x_mach x) u nopSqe 0;
    let '(m, u) := if negb (Status.ok status)
      then (mkMach (sys_close (m_kern m) (ringFd u)) (m_shm m) (m_file m), set_ringFd u (-1)) else (m, u) in
    x ← joinThread fuel (mkExec m u (x_heap x) (x_phase x) (x_resumed x));
    Some (x, unmapRing (m_kern (x_mach x)) (set_state st (x_state x)))
  else Some (x, unmapRing (m_kern (x_mach x)) st).

(** [init]; until its last line there is no thread, and [closeRing] is [unmapRing]. If the
    thread cannot be started the exception leaves the state as it is by then. *)
Definition init (k : K) (options : UringOptions) : K * (Result RState + RState) :=
  let flags := if sqPoll options then IORING_SETUP_SQPOLL else 0 in
  let idle := if sqPoll options then sqPollIdleMs options else 0 in
  let '(k, fd, params) := sys_setup k (entries options) flags idle in
  if fd <? 0 then (k, inl (RStatus (Status.IoError (errnoMessage "io_uring_setup" (sys_errno k))))) else
  let single := negb (Z.land (features params) IORING_FEAT_SINGLE_MMAP =? 0) in
  let sqSize := sq_off_array params + sq_entries params * 4 in
  let cqSize := cq_off_cqes params + cq_entries params * sizeof_cqe in
  let sqSize := if single then Z.max sqSize cqSize else sqSize in
  let cqSize := if single then sqSize else cqSize in
  let st sqp cqp esp essize := mkRState (mkUState fd false 0 false) null_ptrs sqp cqp esp sqSize cqSize essize single false in
  let '(k, sqp) := sys_mmap k sqSize fd IORING_OFF_SQ_RING in
  if sqp =? MAP_FAILED then
    (unmapRing k (st nullptr nullptr nullptr 0), inl (RStatus (Status.IoError (errnoMessage "mmap sq ring" (sys_errno k))))) else
  let '(k, cqp) := if single then (k, sqp) else sys_mmap k cqSize fd IORING_OFF_CQ_RING in
  if negb single && (cqp =? MAP_FAILED) then
    (unmapRing k (st sqp nullptr nullptr 0), inl (RStatus (Status.IoError (errnoMessage "mmap cq ring" (sys_errno k))))) else
  let essize := sq_entries params * sizeof_sqe in
  let '(k, esp) := sys_mmap k essize fd IORING_OFF_SQES in
  if esp =? MAP_FAILED then
    (unmapRing k (st sqp cqp nullptr essize), inl (RStatus (Status.IoError (errnoMessage "mmap sqes" (sys_errno k))))) else
  let ptrs := mkRingPtrs (sqp + sq_off_head params) (sqp + sq_off_tail params) (sqp + sq_off_ring_mask params)
    (sqp + sq_off_ring_entries params) (sqp + sq_off_flags params) (sqp + sq_off_array params)
    (cqp + cq_off_head params) (cqp + cq_off_tail params) (cqp + cq_off_ring_mask params)
    (cqp + cq_off_ring_entries params) (cqp + cq_off_cqes params) esp in
  let started := mkRState (mkUState fd false 0 (sqPoll options)) ptrs sqp cqp esp sqSize cqSize essize single in
  if sys_thread k then (k, inl (RValue (started true))) else (k, inr (started false)).

(** [Create]: the executor that was not initialised has nothing to close; one whose thread
    could not be started is closed by its destructor. *)
Definition Create (k : K) (options : UringOptions) : K * Outcome RState :=
  let '(k, r) := init k options in
  match r with
  | inl (RStatus s) => (k, Returned (RStatus s))
  | inl (RValue st) => (k, Returned (RValue st))
  | inr st => (unmapRing k st, Threw)
  end.

End Lifecycle.

(** ** What the system calls do *)

(** The kernel's answer describes rings of at least the size asked for, whose words lie
    within the areas the program computes from it. *)
Record params_ok (p : io_uring_params) (entries : Z) : Prop := {
  po_entries : entries <= sq_entries p;
  po_sq : Forall (fun o => 0 <= o /\ o + 4 <= sq_off_array p + sq_entries p * 4)
    [sq_off_head p; sq_off_tail p; sq_off_ring_mask p; sq_off_ring_entries p; sq_off_flags p];
  po_cq : Forall (fun o => 0 <= o /\ o + 4 <= cq_off_cqes p + cq_entries p * sizeof_cqe)
    [cq_off_head p; cq_off_tail p; cq_off_ring_mask p; cq_off_ring_entries p];
  po_arrays : 0 <= sq_off_array p /\ 0 <= cq_off_cqes p;
}.

Class SetupSpec (K : Type) `{!Kernel K, !Setup K} := {
  (** Open descriptors, and mappings with their sizes. *)
  k_fds : K -> gset Z;
  k_maps : K -> gmap Z Z;
  setup_spec : forall k n fl idle k' fd p, sys_setup k n fl idle = (k', fd, p) ->
    k_maps k' = k_maps k /\
    if fd <? 0 then k_fds k' = k_fds k else (fd ∉ k_fds k) /\ k_fds k' = ({[fd]} ∪ k_fds k) /\ params_ok p n;
  mmap_spec : forall k sz fd off k' p, sys_mmap k sz fd off = (k', p) ->
    k_fds k' = k_fds k /\
    if p =? MAP_FAILED then k_maps k' = k_maps k
    else 0 < p /\ k_maps k !! p = None /\ k_maps k' = <[p := sz]> (k_maps k);
  munmap_spec : forall k p sz, k_maps k !! p = Some sz ->
    k_fds (sys_munmap k p sz) = k_fds k /\ k_maps (sys_munmap k p sz) = delete p (k_maps k);
  close_spec : forall k fd, fd ∈ k_fds k ->
    k_fds (sys_close k fd) = k_fds k ∖ {[fd]} /\ k_maps (sys_close k fd) = k_maps k;
  async_resources : forall m, k_fds (m_kern (k_async m)) = k_fds (m_kern m) /\ k_maps (m_kern (k_async m)) = k_maps (m_kern m);
  enter_resources : forall m n c fl m' ret, k_enter m n c fl = (m', ret) ->
    k_fds (m_kern m') = k_fds (m_kern m) /\ k_maps (m_kern m') = k_maps (m_kern m);
}.

Definition map_ptr (p sz : Z) (m : gmap Z Z) : gmap Z Z := if p =? nullptr then m else <[p := sz]> m.
Definition fresh_ptr (p : Z) (m : gmap Z Z) : Prop := p <> nullptr -> m !! p = None.

Lemma fresh_null m : fresh_ptr nullptr m.
Proof. by intros []. Qed.

Lemma fresh_some p m : m !! p = None -> fresh_ptr p m.
Proof. by intros ? ?. Qed.

#[local] Hint Resolve fresh_null fresh_some : core.

Lemma release_fd (fd : Z) (fds : gset Z) : fd ∉ fds -> fd ∈ ({[fd]} ∪ fds) /\ ({[fd]} ∪ fds) ∖ {[fd]} = fds.
Proof.
  intros H. split; [apply elem_of_union_l, elem_of_singleton; done|]. apply set_eq. intros x.
  rewrite elem_of_difference, elem_of_union, elem_of_singleton. split; [by intros [[?|?] ?]|].
  intros Hx. split; [by right|]. by intros ->.
Qed.

#[local] Arguments Z.eqb : simpl never.

Section Resources.
Context {L : Libc} {K : Type} `{!Kernel K, !Setup K, !SetupSpec K}.

Definition sq_mapped (k0 : K) (st : RState) : gmap Z Z := map_ptr (sqRingPtr st) (sqRingSize st) (k_maps k0).
Definition cq_mapped (k0 : K) (st : RState) : gmap Z Z :=
  if cqRingPtr st =? sqRingPtr st then sq_mapped k0 st
  else map_ptr (cqRingPtr st) (cqRingSize st) (sq_mapped k0 st).

(** Since [k0], the process has acquired what [st] names and nothing else. *)
Record owns (k0 k : K) (st : RState) : Prop := {
  ow_fd : 0 <= ringFd (r_state st) /\ (ringFd (r_state st) ∉ k_fds k0) /\ k_fds k = ({[ringFd (r_state st)]} ∪ k_fds k0);
  ow_sq : fresh_ptr (sqRingPtr st) (k_maps k0);
  ow_cq : cqRingPtr st <> sqRingPtr st -> fresh_ptr (cqRingPtr st) (sq_mapped k0 st);
  ow_sqes : fresh_ptr (sqesPtr st) (cq_mapped k0 st);
  ow_maps : k_maps k = map_ptr (sqesPtr st) (sqesSize st) (cq_mapped k0 st);
}.

Lemma unmap_ptr k p sz m : k_maps k = map_ptr p sz m -> fresh_ptr p m ->
  let k' := if negb (p =? nullptr) then sys_munmap k p sz else k in k_maps k' = m /\ k_fds k' = k_fds k.
Proof.
  unfold map_ptr, fresh_ptr. intros Hm Hf. destruct (Z.eqb_spec p nullptr) as [|Hne]; cbn; [done|].
  destruct (munmap_spec k p sz) as [Hfd Hmaps]; [by rewrite Hm, lookup_insert_eq|].
  split; [|done]. rewrite Hmaps, Hm. apply delete_insert_id. by apply Hf.
Qed.

Lemma unmapRing_releases k0 k st : owns k0 k st ->
  k_fds (unmapRing k st) = k_fds k0 /\ k_maps (unmapRing k st) = k_maps k0.
Proof.
  intros [(Hfd & Hnew & Hfds) Hsq Hcq Hes Hmaps]. unfold unmapRing.
  destruct (unmap_ptr k _ _ _ Hmaps Hes) as [M1 F1]. set (k1 := if negb (sqesPtr st =? nullptr) then _ else _) in *.
  set (k2 := if negb (cqRingPtr st =? nullptr) && _ then _ else _).
  assert (k_maps k2 = sq_mapped k0 st /\ k_fds k2 = k_fds k) as [M2 F2].
  { unfold k2, cq_mapped in *. destruct (Z.eqb_spec (cqRingPtr st) (sqRingPtr st)); cbn; rewrite ?andb_false_r, ?andb_true_r.
    - done.
    - destruct (unmap_ptr k1 _ _ _ M1 (Hcq ltac:(done))) as [M2 F2]. split; [done|congruence]. }
  destruct (unmap_ptr k2 _ _ _ M2 Hsq) as [M3 F3]. set (k3 := if negb (sqRingPtr st =? nullptr) then _ else _) in *.
  destruct (Z.leb_spec 0 (ringFd (r_state st))); [|lia].
  destruct (release_fd _ _ Hnew) as [Hin Hout].
  destruct (close_spec k3 (ringFd (r_state st))) as [F4 M4]; [by rewrite F3, F2, Hfds|].
  by rewrite F4, M4, M3, F3, F2, Hfds.
Qed.

(** The pointers point into the mappings. *)
Record ptrs_ok (st : RState) (nsq ncq : Z) : Prop := {
  pk_sq : Forall (fun p => sqRingPtr st <= p /\ p + 4 <= sqRingPtr st + sqRingSize st)
    [p_sq_head (r_ptrs st); p_sq_tail (r_ptrs st); p_sq_ringMask (r_ptrs st); p_sq_ringEntries (r_ptrs st); p_sq_flags (r_ptrs st)];
  pk_array : sqRingPtr st <= p_sq_array (r_ptrs st) /\ p_sq_array (r_ptrs st) + nsq * 4 <= sqRingPtr st + sqRingSize st;
  pk_cq : Forall (fun p => cqRingPtr st <= p /\ p + 4 <= cqRingPtr st + cqRingSize st)
    [p_cq_head (r_ptrs st); p_cq_tail (r_ptrs st); p_cq_ringMask (r_ptrs st); p_cq_ringEntries (r_ptrs st)];
  pk_cqes : cqRingPtr st <= p_cq_cqes (r_ptrs st) /\ p_cq_cqes (r_ptrs st) + ncq * sizeof_cqe <= cqRingPtr st + cqRingSize st;
  pk_sqes : p_sqes (r_ptrs st) = sqesPtr st /\ sqesSize st = nsq * sizeof_sqe;
}.

(** The sizes [init] computes. *)
Definition ring_sizes (p : io_uring_params) (single : bool) : Z * Z :=
  let sqSize := sq_off_array p + sq_entries p * 4 in
  let cqSize := cq_off_cqes p + cq_entries p * sizeof_cqe in
  if single then (Z.max sqSize cqSize, Z.max sqSize cqSize) else (sqSize, cqSize).

Lemma ring_sizes_enough p single : sq_off_array p + sq_entries p * 4 <= (ring_sizes p single).1 /\
  cq_off_cqes p + cq_entries p * sizeof_cqe <= (ring_sizes p single).2.
Proof. unfold ring_sizes. destruct single; cbn [fst snd]; lia. Qed.

(** The mappings, one after the other. *)
Section Mapping.
Context (k0 : K) (fd : Z) (u : UState) (ptrs : RingPtrs) (sqSize cqSize : Z) (single j : bool).
Context (Hu : ringFd u = fd) (Hfd : 0 <= fd) (Hnew : fd ∉ k_fds k0).

Abbreviation st sqp cqp esp essize := (mkRState u ptrs sqp cqp esp sqSize cqSize essize single j).

Lemma owns_none k : k_fds k = ({[fd]} ∪ k_fds k0) -> k_maps k = k_maps k0 -> owns k0 k (st nullptr nullptr nullptr 0).
Proof. intros F M. split; cbn; rewrite ?Hu; auto. Qed.

Lemma owns_sq k k' sqp : owns k0 k (st nullptr nullptr nullptr 0) -> k_fds k' = k_fds k -> 0 < sqp ->
  k_maps k !! sqp = None -> k_maps k' = <[sqp := sqSize]> (k_maps k) -> owns k0 k' (st sqp nullptr nullptr 0).
Proof.
  intros [Hf _ _ _ Hm] F P N M. unfold cq_mapped, sq_mapped, map_ptr in *. cbn in *. rewrite Hm in *.
  assert ((sqp =? nullptr) = false /\ (nullptr =? sqp) = false) as [E1 E2] by (unfold nullptr; lia).
  split; unfold cq_mapped, sq_mapped, map_ptr; cbn; rewrite ?E1, ?E2, ?F; auto.
Qed.

Lemma owns_cq k k' sqp cqp : owns k0 k (st sqp nullptr nullptr 0) -> k_fds k' = k_fds k -> 0 < sqp -> 0 < cqp ->
  (if single then cqp = sqp /\ k_maps k' = k_maps k
   else k_maps k !! cqp = None /\ k_maps k' = <[cqp := cqSize]> (k_maps k)) ->
  owns k0 k' (st sqp cqp nullptr 0).
Proof.
  intros [Hf Hsq _ _ Hm] F P Pc H. unfold cq_mapped, sq_mapped, map_ptr in *. cbn in *.
  rewrite Z.eqb_refl in Hm.
  assert ((nullptr =? sqp) = false /\ (cqp =? nullptr) = false) as [E1 E2] by (unfold nullptr; lia). rewrite E1 in Hm.
  split; unfold cq_mapped, sq_mapped, map_ptr; cbn; rewrite ?F, ?Z.eqb_refl; auto.
  - intros Hne _. destruct single; [by destruct H|]. destruct H as [H _]. by rewrite Hm in H.
  - destruct single; [destruct H as [-> ->]; by rewrite Z.eqb_refl|]. destruct H as [H ->]. rewrite Hm in *.
    destruct (Z.eqb_spec cqp sqp) as [->|_]; [|by rewrite E2].
    destruct (Z.eqb_spec sqp nullptr); [unfold nullptr in *; lia|]. by rewrite lookup_insert_eq in H.
Qed.

Lemma owns_sqes k k' sqp cqp esp essize n : owns k0 k (st sqp cqp nullptr n) -> k_fds k' = k_fds k -> 0 < esp ->
  k_maps k !! esp = None -> k_maps k' = <[esp := essize]> (k_maps k) -> owns k0 k' (st sqp cqp esp essize).
Proof.
  intros [Hf Hsq Hcq Hes Hm] F P N M. unfold map_ptr in Hm. cbn in *. rewrite Z.eqb_refl in Hm. rewrite Hm in *.
  split; cbn; rewrite ?F; auto. unfold map_ptr. destruct (Z.eqb_spec esp nullptr); [unfold nullptr in *; lia|done].
Qed.

Lemma owns_same k k' sqp cqp esp n n' : owns k0 k (st sqp cqp esp n) -> k_fds k' = k_fds k -> k_maps k' = k_maps k ->
  esp = nullptr -> owns k0 k' (st sqp cqp esp n').
Proof. intros [Hf Hsq Hcq Hes Hm] F M ->. split; cbn in *; rewrite ?F, ?M; done. Qed.
End Mapping.

Lemma init_spec k0 options k r : init k0 options = (k, r) ->
  match r with
  | inl (RStatus s) => Status.ok s = false /\ k_fds k = k_fds k0 /\ k_maps k = k_maps k0
  | inl (RValue st) => owns k0 k st /\ joinable st = true /\ stopping (r_state st) = false /\
      sqPollEnabled (r_state st) = sqPoll options /\
      exists nsq ncq, entries options <= nsq /\ ptrs_ok st nsq ncq
  | inr st => owns k0 k st
  end.
Proof.
  unfold init. destruct (sys_setup k0 _ _ _) as [[k1 fd] p] eqn:E1.
  apply setup_spec in E1 as [M1 H1]. destruct (Z.ltb_spec fd 0) as [|Hfd]; [by intros [= <- <-]|].
  destruct H1 as (Hnew & F1 & Hp). set (single := negb _). pose proof (ring_sizes_enough p single) as Hsz.
  set (sqSize := if single then Z.max _ _ else _). set (cqSize := if single then sqSize else _).
  assert (ring_sizes p single = (sqSize, cqSize)) as Hrs by (unfold ring_sizes, sqSize, cqSize; by destruct single).
  rewrite Hrs in Hsz. cbn [fst snd] in Hsz. clearbody sqSize cqSize single.
  set (st := fun sqp cqp esp n => mkRState (mkUState fd false 0 false) null_ptrs sqp cqp esp sqSize cqSize n single false).
  assert (owns k0 k1 (st nullptr nullptr nullptr 0)) as O1 by (by eapply owns_none).
  destruct (sys_mmap k1 sqSize fd IORING_OFF_SQ_RING) as [k2 sqp] eqn:E2. apply mmap_spec in E2 as [F2 M2].
  destruct (Z.eqb_spec sqp MAP_FAILED) as [_|_].
  { intros [= <- <-]. split; [done|]. apply unmapRing_releases. by eapply owns_same. }
  destruct M2 as (P2 & N2 & M2). 
  assert (owns k0 k2 (st sqp nullptr nullptr 0)) as O2 by (by eapply owns_sq).
  destruct (if single then (k2, sqp) else sys_mmap k2 cqSize fd IORING_OFF_CQ_RING) as [k3 cqp] eqn:E3.
  assert ((cqp = MAP_FAILED /\ single = false /\ k_fds k3 = k_fds k2 /\ k_maps k3 = k_maps k2) \/
    (negb single && (cqp =? MAP_FAILED) = false /\
     owns k0 k3 (st sqp cqp nullptr 0))) as H3.
  { destruct single.
    - injection E3 as <- <-. right. split; [done|]. by eapply owns_cq.
    - apply mmap_spec in E3 as [F3 M3]. destruct (Z.eqb_spec cqp MAP_FAILED); [auto|]. destruct M3 as (P3 & N3 & M3).
      right. split; [done|]. by eapply owns_cq. }
  destruct H3 as [(-> & -> & F3 & M3)|[-> O3]].
  { intros [= <- <-]. split; [done|]. apply unmapRing_releases. by eapply owns_same. }
  destruct (sys_mmap k3 _ fd IORING_OFF_SQES) as [k4 esp] eqn:E4. apply mmap_spec in E4 as [F4 M4].
  destruct (Z.eqb_spec esp MAP_FAILED) as [_|_].
  { intros [= <- <-]. split; [done|]. apply unmapRing_releases. by eapply owns_same. }
  destruct M4 as (P4 & N4 & M4).
  assert (owns k0 k4 (st sqp cqp esp (sq_entries p * sizeof_sqe))) as [Hf4 H42 H43 H44 H45] by (by eapply owns_sqes).
  destruct (sys_thread k4); intros [= <- <-]; [|by split]. split; [by split|].
  do 3 (split; [done|]). exists (sq_entries p), (cq_entries p). destruct Hp as [Hen Hsq Hcq Har]. split; [done|].
  repeat (apply Forall_cons in Hsq as [? Hsq]; apply Forall_cons in Hcq as [? Hcq]).
  repeat (apply Forall_cons in Hsq as [? Hsq]).
  split; cbn; repeat (apply Forall_cons; split); try (by apply Forall_nil); lia.
Qed.

Lemma Create_spec k0 options k r : Create k0 options = (k, r) ->
  match r with
  | Returned (RStatus s) => Status.ok s = false /\ k_fds k = k_fds k0 /\ k_maps k = k_maps k0
  | Returned (RValue st) => owns k0 k st /\ joinable st = true /\ stopping (r_state st) = false /\
      sqPollEnabled (r_state st) = sqPoll options /\
      exists nsq ncq, entries options <= nsq /\ ptrs_ok st nsq ncq
  | Threw => k_fds k = k_fds k0 /\ k_maps k = k_maps k0
  end.
Proof.
  unfold Create. destruct (init k0 options) as [k1 [[st|s]|st]] eqn:E; intros [= <- <-]; apply init_spec in E; try done.
  by apply unmapRing_releases.
Qed.

(** The kernel's own steps and submissions leave the process's resources alone. *)
Definition same_resources (k k' : K) : Prop := k_fds k' = k_fds k /\ k_maps k' = k_maps k.

Lemma wake_resources m st m' s : wakeSqPollIfNeeded m st = (m', s) -> same_resources (m_kern m) (m_kern m').
Proof.
  unfold wakeSqPollIfNeeded, same_resources, loadAcquire. destruct (sqPollEnabled st); cbn; [|by intros [= <- <-]].
  pose proof (async_resources m) as [? ?]. destruct (_ =? 0); [by intros [= <- <-]|].
  destruct (k_enter _ _ _ _) as [m2 ret] eqn:E. apply enter_resources in E as [? ?].
  destruct (ret <? 0); intros [= <- <-]; split; congruence.
Qed.

Lemma submitRaw_resources m st s a m' r : submitRaw m st s a = Some (m', r) -> same_resources (m_kern m) (m_kern m').
Proof.
  unfold submitRaw, loadAcquire. pose proof (async_resources m) as [A1 A2]. pose proof (async_resources (k_async m)) as [B1 B2].
  destruct (_ >=? _); [intros [= <- <-]; split; congruence|].
  destruct (vec_set (sqes _) _ _); cbn; [|done]. destruct (vec_set (sq_array _) _ _); cbn; [|done].
  destruct (sqPollEnabled st).
  - destruct (wakeSqPollIfNeeded _ _) eqn:E. apply wake_resources in E as [? ?]. intros [= <- <-]. split; cbn in *; congruence.
  - destruct (k_enter _ _ _ _) as [m2 ret] eqn:E. apply enter_resources in E as [? ?].
    destruct (ret <? 0); intros [= <- <-]; split; cbn in *; congruence.
Qed.

Lemma completionLoop_resources x x' : completionLoop x = Some x' ->
  same_resources (m_kern (x_mach x)) (m_kern (x_mach x')) /\ ringFd (x_state x') = ringFd (x_state x).
Proof.
  unfold completionLoop, loadAcquire. destruct (x_phase x).
  - destruct (k_enter _ _ _ _) as [m2 ret] eqn:E. apply enter_resources in E. by intros [= <-].
  - pose proof (async_resources (x_mach x)) as [A1 A2]. pose proof (async_resources (k_async (x_mach x))) as [B1 B2].
    assert (same_resources (m_kern (x_mach x)) (m_kern (k_async (k_async (x_mach x))))) as HS by (split; congruence).
    destruct (_ =? _); [by intros [= <-]|]. destruct (vec_get _ _); cbn; [|done].
    destruct (_ =? 0); [by intros [= <-]|]. destruct (x_heap x !! _); cbn; [|done]. by intros [= <-].
  - by intros [= <-].
Qed.

Lemma joinThread_resources fuel : forall x x', joinThread fuel x = Some x' ->
  same_resources (m_kern (x_mach x)) (m_kern (x_mach x')) /\ ringFd (x_state x') = ringFd (x_state x).
Proof.
  induction fuel as [|fuel IH]; intros x x'; cbn; destruct (x_phase x); try (by intros [= <-]); try done.
  all: destruct (completionLoop x) as [x1|] eqn:E; cbn; [|done]; intros H.
  all: apply completionLoop_resources in E as [[? ?] ?]; apply IH in H as [[? ?] ?]; split; [split|]; congruence.
Qed.

End Resources.

(** ** The thread returns *)

Section Shutdown.
Context {L : Libc} {K : Type} `{!Kernel K, !Setup K, !KernelSpec K}.

(** The file when the ring is closed. *)
Context (f0 : file).

Abbreviation unchanged := (fun (_ : list Z) (f : file) (_ : bytes) => keeps f0 f).
Abbreviation last_request := (with_user_data nopSqe 0).

Lemma unchanged_stable : post_stable unchanged.
Proof. intros rs f f' b Hf Hw. by eapply keeps_writeback. Qed.

Lemma unchanged_step : post_step [last_request] unchanged.
Proof.
  intros rs s c r f f' b b' Hs Hf Hc. apply list_lookup_singleton_Some in Hs as [_ <-]. cbn beta in *.
  destruct c; [by destruct Hc as (_ & -> & _)|]. inversion Hc; subst; done.
Qed.

(** The thread has been told to stop and the request that wakes it is on its way. *)
Record stop_inv (x : Exec K) (q : queues) (rs : list Z) : Prop := {
  si_at : at_queues (view (x_mach x)) q;
  si_chain : chain_inv [last_request] unchanged [] q rs;
  si_pend : k_polls (m_kern (x_mach x)) = true \/ q_pend q = [];
  si_stop : stopping (x_state x) = true;
}.

Definition stop_steps (x : Exec K) (q : queues) : nat :=
  k_patience (m_kern (x_mach x)) +
  match x_phase x, q_ready q with AtEnter, _ => 2 | AtDrain, [] => 3 | AtDrain, _ => 1 | Exited, _ => 0 end.

Lemma stop_moves m m' q rs : rtc kstep (view m) (view m') -> k_polls (m_kern m') = k_polls (m_kern m) ->
  at_queues (view m) q -> chain_inv [last_request] unchanged [] q rs -> k_polls (m_kern m) = true \/ q_pend q = [] ->
  exists q' rs', at_queues (view m') q' /\ chain_inv [last_request] unchanged [] q' rs' /\
    (k_polls (m_kern m') = true \/ q_pend q' = []) /\ (length (q_ready q) <= length (q_ready q'))%nat /\
    same_app (m_shm m) (m_shm m').
Proof.
  intros Hs Hk Hat Hch Hpe.
  destruct (machine_moves [last_request] unchanged) with (m := m) (m' := m') (rsd := @nil Z) (q := q) (rs := rs)
    as (q' & rs' & Hat' & Hch' & Hlen & Hp' & Hsa); try done; try apply unchanged_stable; try apply unchanged_step.
  { intros i t Ht. apply lookup_lt_Some in Ht. cbn in *. lia. }
  exists q', rs'. split; [done|]. split; [done|]. split; [|done]. rewrite Hk. destruct Hpe; auto.
Qed.

Lemma stop_file x q rs : stop_inv x q rs -> keeps f0 (m_file (x_mach x)).
Proof. intros [(_ & _ & _ & Hf) Hch _ _]. cbn in Hf. rewrite <- Hf. apply (ci_post _ _ _ _ _ Hch). Qed.

Lemma stop_loop fuel : forall x q rs, stop_inv x q rs -> (stop_steps x q <= fuel)%nat ->
  exists x', joinThread fuel x = Some x' /\ x_phase x' = Exited /\ keeps f0 (m_file (x_mach x')).
Proof.
  induction fuel as [|fuel IH]; intros x q rs Hsi Hf; pose proof (stop_file _ _ _ Hsi) as Hfile;
    destruct Hsi as [Hat Hch Hpe Hst]; unfold stop_steps in Hf; cbn [joinThread].
  { destruct (x_phase x) eqn:Hph; [lia|destruct (q_ready q); lia|by eauto]. }
  destruct (x_phase x) eqn:Hph; [| |by eauto]; unfold completionLoop; rewrite Hph.
  - destruct (k_enter (x_mach x) 0 1 IORING_ENTER_GETEVENTS) as [m' ret] eqn:He. rewrite Hst.
    destruct (stop_moves _ _ _ _ (enter_steps _ _ _ _ _ _ He) (enter_polls _ _ _ _ _ _ He) Hat Hch Hpe)
      as (q' & rs' & Hat' & Hch' & Hpe' & _ & _).
    pose proof (enter_patience _ _ _ _ _ _ He). cbn [mbind option_bind].
    destruct (enter_waits _ _ _ He (ex_intro _ _ (ex_intro _ _ (proj1 Hat))) (chain_live _ _ _ _ _ _ Hat Hch ltac:(cbn; lia) Hpe))
      as [[Hneg Hless]|[Hpos Hrdy]].
    + destruct (Z.ltb_spec ret 0); [|lia]. apply (IH _ q' rs'); [by split|].
      unfold stop_steps. cbn [x_mach x_phase]. destruct (k_errno m' =? EINTR); lia.
    + destruct (Z.ltb_spec ret 0); [lia|]. apply (IH _ q' rs'); [by split|].
      unfold stop_steps. cbn [x_mach x_phase]. apply (ring_ready_iff (proj1 Hat')) in Hrdy. destruct (q_ready q'); [done|lia].
  - unfold loadAcquire. set (m1 := k_async (x_mach x)). set (m2 := k_async m1).
    destruct (stop_moves _ _ _ _ (async_steps (x_mach x)) (async_polls _) Hat Hch Hpe) as (q1 & rs1 & Hat1 & Hch1 & Hpe1 & Hl1 & _).
    destruct (stop_moves _ _ _ _ (async_steps m1) (async_polls _) Hat1 Hch1 Hpe1) as (q2 & rs2 & Hat2 & Hch2 & Hpe2 & Hl2 & Hsa).
    fold m1 m2 in Hat2, Hpe2, Hsa. rewrite <- (same_cq_head _ _ Hsa). pose proof (async_patience2 (x_mach x)) as Hpat. fold m1 m2 in Hpat.
    destruct (q_ready q2) as [|c R] eqn:HR; pose proof (ring_ready_iff (proj1 Hat2)) as Hri.
    + destruct (Z.eqb_spec (cq_head (m_shm m2)) (cq_tail (m_shm m2))) as [_|Hne]; [|by apply Hri in Hne].
      cbn [mbind option_bind]. apply (IH _ q2 rs2); [by split|]. unfold stop_steps. cbn [x_mach x_phase].
      destruct (q_ready q); cbn in *; lia.
    + destruct (Z.eqb_spec (cq_head (m_shm m2)) (cq_tail (m_shm m2))) as [Heq|_]; [rewrite HR in Hri; by apply Hri in Heq|].
      destruct (chain_take _ _ _ _ _ _ _ Hch2 HR) as (s & r & Hs & -> & _). injection Hs as <-.
      pose proof (proj1 Hat2) as Hring. rewrite HR in Hring. destruct (ring_drain _ Hring) as [-> _].
      cbn [mbind option_bind cqe_user_data user_data with_user_data]. rewrite Z.eqb_refl. cbn [mbind option_bind]. rewrite Hst.
      pose proof (proj2 (proj2 (proj2 Hat2))) as Hf2. pose proof (ci_post _ _ _ _ _ Hch2) as Hk2. cbn in Hf2, Hk2. rewrite Hf2 in Hk2.
      destruct fuel; cbn [joinThread x_phase]; eexists; (split; [reflexivity|]); done.
Qed.

End Shutdown.

Section Theorems.
Context {L : Libc} {K : Type} `{!Kernel K, !Setup K, !KernelSpec K, !SetupSpec K, !KernelReliable K}.

(** C22: setting the executor up either works or leaves nothing behind. If [Create] returns
    an error, or throws for want of a thread, every descriptor and mapping acquired on the way has been released, each
    once; if it returns an executor, that owns its descriptor and its mappings and nothing
    else was acquired, and every ring pointer, arrays included, points into them. *)
Theorem executor_setup_is_clean (k0 : K) options k r : Create k0 options = (k, r) ->
  match r with
  | Returned (RStatus s) => Status.ok s = false /\ k_fds k = k_fds k0 /\ k_maps k = k_maps k0
  | Returned (RValue st) => owns k0 k st /\ exists nsq ncq, entries options <= nsq /\ ptrs_ok st nsq ncq
  | Threw => k_fds k = k_fds k0 /\ k_maps k = k_maps k0
  end.
Proof.
  intros E. apply Create_spec in E. destruct r as [[st|s]|]; [|done..]. destruct E as (? & _ & _ & _ & ?). done.
Qed.

Lemma owns_moved k0 k k' st u : owns k0 k st -> same_resources k k' -> ringFd u = ringFd (r_state st) ->
  owns k0 k' (set_state st u).
Proof. intros [Hf Hsq Hcq Hes Hm] [F M] Hu. split; cbn; rewrite ?Hu, ?F, ?M; done. Qed.

Lemma closeRing_spec (k0 : K) (x : Exec K) fd poll st fuel :
  quiet x fd poll -> owns k0 (m_kern (x_mach x)) st -> joinable st = true -> ringFd (r_state st) = fd ->
  (3 + k_patience (m_kern (x_mach x)) <= fuel)%nat ->
  exists x' k, closeRing fuel x st = Some (x', k) /\ x_phase x' = Exited /\
    k_fds k = k_fds k0 /\ k_maps k = k_maps k0 /\ keeps (m_file (x_mach x)) (m_file (x_mach x')).
Proof.
  intros [Hr Hi Hen [Hfd Hfd0] Hstop Hph Hpoll Hkp] Hown Hj Hst Hfuel. unfold closeRing. rewrite Hj.
  destruct (submitRaw_spec (m_file (x_mach x)) (userbuf (m_shm (x_mach x))) poll (x_mach x) (set_stopping (x_state x))
    nopSqe 0 (fun _ f _ => keeps (m_file (x_mach x)) f)) as (m & q & rs & Hsub & Hat & Hch & Hpe & Hk & Hp & _);
    [by split|exact Hpoll|apply unchanged_stable|apply unchanged_step|auto|].
  rewrite Hsub. cbn [mbind option_bind]. change (Status.ok Status.Ok) with true. cbn [negb].
  destruct (stop_loop (m_file (x_mach x)) fuel (mkExec m (set_stopping (x_state x)) (x_heap x) (x_phase x) (x_resumed x)) q rs)
    as (x' & Hjoin & Hex & Hkeep).
  { split; cbn; try done. by rewrite Hk. }
  { unfold stop_steps. cbn [x_mach x_phase]. destruct (x_phase x), (q_ready q); try done; lia. }
  pose proof (joinThread_resources _ _ _ Hjoin) as [[F1 M1] Hu]. apply submitRaw_resources in Hsub as [F0 M0].
  cbn in F1, M1, Hu. eexists x', _. split; [by rewrite Hjoin|]. split; [done|].
  edestruct (unmapRing_releases k0) as [HF HM]; [|split; [exact HF|split; [exact HM|done]]].
  eapply owns_moved; [done| |congruence]. split; congruence.
Qed.

(** Taking the executor down. With nothing in flight, [closeRing] returns: the request
    it submits reaches the completion thread and ends it, however often its waits are
    interrupted, and then everything acquired since before [init] has been released. The
    file holds what it held, for a reader and after a crash. *)
Theorem executor_shutdown_releases (k0 : K) (x : Exec K) fd poll st fuel :
  quiet x fd poll -> owns k0 (m_kern (x_mach x)) st -> joinable st = true -> ringFd (r_state st) = fd ->
  (3 + k_patience (m_kern (x_mach x)) <= fuel)%nat ->
  exists x' k, closeRing fuel x st = Some (x', k) /\ x_phase x' = Exited /\
    k_fds k = k_fds k0 /\ k_maps k = k_maps k0 /\ keeps (m_file (x_mach x)) (m_file (x_mach x')).
Proof. apply closeRing_spec. Qed.

End Theorems.
