(* ===== verification/UringIo.v ===== *)
(** * The database's system, made of the executor and the kernel

    [uring_Io] runs the database on the executor; [uring_IoSpec] shows that it keeps what
    [Db.v] relies on, so every theorem about the database holds for it. *)

From stdpp Require Import relations.
From S2P Require Import Prelude Status Coding Crc32c WriteBatch Wal Io UringExecutor UringKernel UringFacts UringTheorems.

(** The calls the database makes itself, the clock, and where a coroutine's frame is. *)
Class Posix (K : Type) := {
  p_now : K -> K * Z;
  p_fstat : K -> file -> K * option Z;
  p_ftruncate : K -> file -> Z -> K * file * bool;
  p_errno : K -> Z;
  p_frame : K -> frame;
}.

(** They do not touch the ring. *)
Definition calm {K} `{!Kernel K, !KernelSpec K} (k k' : K) : Prop :=
  k_inflight k' = k_inflight k /\ k_polls k' = k_polls k.

Class PosixSpec (K : Type) `{!Kernel K, !KernelSpec K, !Posix K} : Prop := {
  p_now_spec : forall k k' t, p_now k = (k', t) -> calm k k';
  p_fstat_spec : forall k f k' r, p_fstat k f = (k', r) -> calm k k' /\ forall n, r = Some n -> n = zlen (content f);
  p_ftruncate_spec : forall k f n k' f' ok, 0 <= n <= zlen (content f) -> p_ftruncate k f n = (k', f', ok) ->
    calm k k' /\ if ok then content f' = truncate (content f) n /\ same_below n f f' else f' = f;
  (** Live objects have distinct addresses, and none is at address 0. *)
  p_frame_spec : forall k, addr1 (p_frame k) <> 0 /\ addr2 (p_frame k) <> 0 /\ addr1 (p_frame k) <> addr2 (p_frame k);
}.

(** Everything behind the interface but the file. *)
Record UringSys (K : Type) := mkUring {
  u_kern : K;
  u_shm : Shm;
  u_state : UState;
  u_phase : loop_phase;
  u_walFd : Z;
}.
Arguments mkUring {K} u_kern u_shm u_state u_phase u_walFd.
Arguments u_kern {K} u.
Arguments u_shm {K} u.
Arguments u_state {K} u.
Arguments u_phase {K} u.
Arguments u_walFd {K} u.

Section UringIo.
Context {L : Libc} {K : Type} `{!Kernel K, !KernelSpec K, !Posix K}.

Definition with_kern (e : UringSys K) (k : K) : UringSys K :=
  mkUring k (u_shm e) (u_state e) (u_phase e) (u_walFd e).

Definition to_exec (e : UringSys K) (f : file) (buf : bytes) : Exec K :=
  mkExec (mkMach (u_kern e) (set_userbuf (u_shm e) buf) f) (u_state e) ∅ (u_phase e) [].

Definition of_exec (e : UringSys K) (x : Exec K) : UringSys K :=
  mkUring (m_kern (x_mach x)) (m_shm (x_mach x)) (x_state x) (x_phase x) (u_walFd e).

Definition run_fuel (e : UringSys K) : nat := 8 + k_patience (u_kern e).

#[global] Instance uring_Io : Io (UringSys K) := {|
  io_now e := let '(k, t) := p_now (u_kern e) in (with_kern e k, t);
  io_fstat e f := let '(k, r) := p_fstat (u_kern e) f in (with_kern e k, r);
  io_ftruncate e f n := let '(k, f, ok) := p_ftruncate (u_kern e) f n in (with_kern e k, f, ok);
  io_errno e := p_errno (u_kern e);
  ReadAt e f n off :=
    '(x, r) ← uring_ReadAt (run_fuel e) (p_frame (u_kern e))
      (to_exec e f (replicate (Z.to_nat n) Byte.x00)) (u_walFd e) n off;
    Some (of_exec e x, m_file (x_mach x),
      match r with
      | RStatus s => RStatus s
      | RValue r => RValue (take (Z.to_nat r) (userbuf (m_shm (x_mach x))))
      end);
  FDataSync e f :=
    '(x, s) ← uring_FDataSync (run_fuel e) (p_frame (u_kern e)) (to_exec e f []) (u_walFd e);
    Some (of_exec e x, m_file (x_mach x), s);
  WritevAndFDataSync e f mem iovs off expected :=
    '(x, s) ← uring_WritevAndFDataSync (run_fuel e) (p_frame (u_kern e)) (to_exec e f []) (u_walFd e)
      mem iovs off expected;
    Some (of_exec e x, m_file (x_mach x), s);
|}.

(** *** What is known after each operation *)

Definition read_post (f0 : file) (n off : Z) (rs : list Z) (f : file) (b : bytes) : Prop :=
  keeps f0 f /\
  match rs with
  | [r] => 0 <= r -> take (Z.to_nat r) b `prefix_of` take (Z.to_nat n) (drop (Z.to_nat off) (content f0))
  | _ => True
  end.

Definition sync_post (f0 : file) (rs : list Z) (f : file) (_ : bytes) : Prop :=
  keeps f0 f /\ match rs with [r] => 0 <= r -> durable f = content f | _ => True end.

Definition write_post (f0 : file) (off : Z) (data : bytes) (rs : list Z) (f : file) (_ : bytes) : Prop :=
  (forall l, zlen l <= off -> holds_log f0 l -> holds_log f l) /\
  match rs with
  | [] => content f = content f0
  | r1 :: rs => (0 <= r1 -> r1 <= zlen data /\ content f = pwrite (content f0) off (take (Z.to_nat r1) data)) /\
      match rs with [r2] => 0 <= r2 -> durable f = content f | _ => True end
  end.

Lemma read_post_stable f0 n off : post_stable (read_post f0 n off).
Proof. intros rs f f' b [Hk Hr] Hw. split; [by eapply keeps_writeback|done]. Qed.

Lemma sync_post_stable f0 : post_stable (sync_post f0).
Proof.
  intros rs f f' b [Hk Hr] Hw. split; [by eapply keeps_writeback|]. destruct rs as [|r [|]]; try done.
  intros H. eapply writeback_synced; eauto.
Qed.

Lemma write_post_stable f0 off data : post_stable (write_post f0 off data).
Proof.
  intros rs f f' b [Hl Hr] Hw. split; [intros l H1 H2; eapply writeback_holds; eauto|].
  pose proof Hw as [Hc _]. destruct rs as [|r1 rs]; [congruence|]. destruct Hr as [H1 H2].
  split; [rewrite Hc; done|]. destruct rs as [|r2 [|]]; try done. intros H. eapply writeback_synced; eauto.
Qed.

Lemma read_post_step f0 fd n off a : 0 <= n -> post_step [with_user_data (readvSqe fd n off) a] (read_post f0 n off).
Proof.
  intros Hn rs s c r f f' b b' Hs [Hk _] Hc. destruct rs as [|? rs]; [|by apply lookup_lt_Some in Hs; cbn in *; lia].
  cbn in Hs. injection Hs as <-. unfold completes in Hc. destruct c.
  - destruct Hc as (-> & -> & ->). split; [done|]. cbn. unfold ECANCELED. lia.
  - inversion Hc; cbn [with_user_data readvSqe opcode sqe_addr sqe_off] in *; try done; subst.
    + split; [done|]. cbn. lia.
    + split; [done|]. cbn. intros _. match goal with H : BufferIovec _ = _ |- _ => injection H as <- end.
      destruct Hk as [Hk _]. rewrite Hk in *. rewrite take_app_le, take_take by (rewrite length_take; lia).
      rewrite Nat.min_id. replace (Z.to_nat r) with (Z.to_nat r `min` Z.to_nat n)%nat by lia.
      rewrite <- take_take. apply prefix_take.
Qed.

Lemma sync_post_step f0 fd a : post_step [with_user_data (syncSqe fd) a] (sync_post f0).
Proof.
  intros rs s c r f f' b b' Hs [Hk _] Hc. destruct rs as [|? rs]; [|by apply lookup_lt_Some in Hs; cbn in *; lia].
  cbn in Hs. injection Hs as <-. unfold completes in Hc. destruct c.
  - destruct Hc as (-> & -> & ->). split; [done|]. cbn. unfold ECANCELED. lia.
  - inversion Hc; cbn [with_user_data syncSqe opcode sqe_addr sqe_off] in *; try done; subst.
    + split; [done|]. cbn. lia.
    + split; [|done]. destruct Hk as [Hk Hl]. split; [done|]. intros l Hll. specialize (Hl l Hll).
      split; cbn; apply Hl.
Qed.

Lemma write_post_step f0 fd mem iovs off data a1 a2 : 0 <= off -> materializeIovecs mem iovs = Some data ->
  post_step [with_user_data (link_sqe (writevSqe fd mem iovs off)) a1; with_user_data (syncSqe fd) a2]
    (write_post f0 off data).
Proof.
  intros Hoff Hd rs s c r f f' b b' Hs [Hl Hr] Hc. unfold completes in Hc.
  destruct rs as [|r1 [|r2 rs]]; [| |by apply lookup_lt_Some in Hs; cbn in *; lia];
    cbn in Hs; injection Hs as <-.
  - destruct c; [destruct Hc as (-> & -> & ->); split; [done|]; cbn; unfold ECANCELED; split; [lia|done]|].
    inversion Hc; cbn [with_user_data link_sqe writevSqe opcode sqe_addr sqe_off] in *; try done; subst.
    + split; [|cbn; split; [lia|done]]. intros l Hl1 Hl2. eapply same_below_holds; eauto.
    + match goal with H : IovecArray _ _ = _ |- _ => injection H as <- <- end.
      rewrite Hd in *. simplify_eq. split.
      * intros l Hl1 Hl2. destruct (Hl l Hl1 Hl2) as [Hl3 Hl4]. split; [|exact Hl4]. by apply pwrite_keeps.
      * cbn. split; [|done]. intros _. rewrite Hr. split; [lia|done].
  - cbn in Hr. destruct Hr as [Hr _]. destruct c; [destruct Hc as (-> & -> & ->); split; [done|]; cbn; unfold ECANCELED; split; [done|lia]|].
    inversion Hc; cbn [with_user_data syncSqe opcode sqe_addr sqe_off] in *; try done; subst.
    + split; [done|]. cbn. split; [done|]. lia.
    + split; [|cbn; done]. intros l Hl1 Hl2. destruct (Hl l Hl1 Hl2) as [Hl3 Hl4]. by split.
Qed.

(** ** The interface is implemented *)

Context `{!KernelReliable K, !PosixSpec K}.

Definition uring_inv (e : UringSys K) : Prop :=
  exists fd poll, forall f, quiet (to_exec e f (userbuf (u_shm e))) fd poll.

Lemma set_userbuf_same m : set_userbuf m (userbuf m) = m.
Proof. by destruct m. Qed.

Lemma ring_ok_userbuf m P R b : ring_ok m P R -> ring_ok (set_userbuf m b) P R.
Proof. intros []. by split. Qed.

Lemma uring_quiet e f b : uring_inv e -> exists fd poll, quiet (to_exec e f b) fd poll.
Proof.
  intros (fd & poll & H). exists fd, poll. destruct (H f) as [Hr Hi He Hf Hs Hp Hq Hk].
  split; try done. cbn [to_exec x_mach m_shm] in *. rewrite set_userbuf_same in Hr. by apply ring_ok_userbuf.
Qed.

Lemma uring_inv_of e x fd poll : quiet x fd poll -> uring_inv (of_exec e x).
Proof.
  intros [Hr Hi He Hf Hs Hp Hq Hk]. exists fd, poll. intros f. split; try done.
  cbn [to_exec of_exec x_mach m_shm u_shm]. by rewrite set_userbuf_same.
Qed.

Lemma uring_inv_calm e k : uring_inv e -> calm (u_kern e) k -> uring_inv (with_kern e k).
Proof.
  intros (fd & poll & H) [Hi Hp]. exists fd, poll. intros f. destruct (H f) as [Hr Hinf He Hf Hs Hph Hq Hk].
  split; try done; cbn [to_exec with_kern x_mach m_kern u_kern] in *; congruence.
Qed.

(** *** What an operation of a quiet executor does *)

Lemma read_quiet fr x fd poll walFd n off fuel : quiet x fd poll -> addr1 fr <> 0 -> 0 <= n < 2 ^ 62 ->
  (8 + k_patience (m_kern (x_mach x)) <= fuel)%nat ->
  exists x' r, uring_ReadAt fuel fr x walFd n off = Some (x', r) /\ quiet x' fd poll /\
    keeps (m_file (x_mach x)) (m_file (x_mach x')) /\
    match r with
    | RValue r => take (Z.to_nat r) (userbuf (m_shm (x_mach x')))
        `prefix_of` take (Z.to_nat n) (drop (Z.to_nat off) (content (m_file (x_mach x))))
    | RStatus s => Status.ok s = false
    end.
Proof.
  intros Hq Ha Hn Hfuel.
  destruct (awaitSingle_spec fr x fd poll (readvSqe walFd n off)
    "io_uring readv submit failed" "io_uring readv failed" (read_post (m_file (x_mach x)) n off) fuel)
    as (x' & r & E & Hq' & [Hk Hp]); try done; [apply read_post_stable|apply read_post_step; lia|].
  unfold uring_ReadAt. rewrite E. cbn [mbind option_bind]. do 2 eexists. split; [done|]. split; [done|]. split; [done|].
  unfold singleResult. destruct (Z.ltb_spec r 0); [done|]. specialize (Hp ltac:(lia)).
  destruct (decide (r < 2 ^ 64)); [by rewrite u64_small by lia|]. etrans; [|exact Hp].
  pose proof (u64_range r).
  replace (take (Z.to_nat (u64 r)) (userbuf (m_shm (x_mach x'))))
    with (take (Z.to_nat (u64 r)) (take (Z.to_nat r) (userbuf (m_shm (x_mach x')))))
    by (rewrite take_take; f_equal; lia). apply prefix_take.
Qed.

Lemma sync_quiet fr x fd poll walFd fuel : quiet x fd poll -> addr1 fr <> 0 ->
  (8 + k_patience (m_kern (x_mach x)) <= fuel)%nat ->
  exists x' s, uring_FDataSync fuel fr x walFd = Some (x', s) /\ quiet x' fd poll /\
    keeps (m_file (x_mach x)) (m_file (x_mach x')) /\
    (Status.ok s = true -> durable (m_file (x_mach x')) = content (m_file (x_mach x))).
Proof.
  intros Hq Ha Hfuel.
  destruct (awaitSingle_spec fr x fd poll (syncSqe walFd)
    "io_uring fdatasync submit failed" "io_uring fdatasync failed" (sync_post (m_file (x_mach x))) fuel)
    as (x' & r & E & Hq' & [Hk Hp]); try done; [apply sync_post_stable|apply sync_post_step|].
  unfold uring_FDataSync. rewrite E. cbn [mbind option_bind]. do 2 eexists. split; [done|]. split; [done|]. split; [done|].
  unfold singleResult. destruct (Z.ltb_spec r 0); [by rewrite IoError_not_ok|].
  intros _. rewrite (Hp ltac:(lia)). apply Hk.
Qed.

Lemma write_quiet fr x fd poll walFd mem iovs off data fuel : quiet x fd poll ->
  addr1 fr <> 0 -> addr2 fr <> 0 -> addr1 fr <> addr2 fr -> 0 <= off < 2 ^ 62 ->
  materializeIovecs mem iovs = Some data -> (8 + k_patience (m_kern (x_mach x)) <= fuel)%nat ->
  exists x' s, uring_WritevAndFDataSync fuel fr x walFd mem iovs off (zlen data) = Some (x', s) /\
    quiet x' fd poll /\
    if Status.ok s then
      content (m_file (x_mach x')) = pwrite (content (m_file (x_mach x))) off data /\
      durable (m_file (x_mach x')) = content (m_file (x_mach x'))
    else forall l, zlen l <= off -> holds_log (m_file (x_mach x)) l -> holds_log (m_file (x_mach x')) l.
Proof.
  intros Hq Ha1 Ha2 Hne Hoff Hd Hfuel.
  destruct (writev_spec_quiet fr x fd poll walFd mem iovs off (zlen data)
    (write_post (m_file (x_mach x)) off data) fuel) as (x' & r1 & r2 & E & Hq' & Hl & [Hr1 Hr2]); try done;
    [apply write_post_stable|apply write_post_step; [lia|done]|intros f' [Hc Hk]; split; [auto|exact Hc]|].
  rewrite E. do 2 eexists. split; [done|]. split; [done|].
  unfold linkedResult. destruct (Z.ltb_spec r1 0); [by rewrite IoError_not_ok|]. destruct (Hr1 ltac:(lia)) as [Hle Hc].
  destruct (Z.eqb_spec (u64 r1) (zlen data)) as [Heq|]; cbn [negb]; [|by rewrite IoError_not_ok].
  destruct (Z.ltb_spec r2 0); [by rewrite IoError_not_ok|]. change (Status.ok Status.Ok) with true. cbv iota.
  split; [|by apply Hr2].
  pose proof (u64_range r1). rewrite u64_small in Heq by lia.
  rewrite Hc, Heq, Nat2Z.id, firstn_all. done.
Qed.

Lemma uring_ReadAt_spec e f n off : uring_inv e -> 0 <= n < 2 ^ 62 ->
  exists e' f' r, ReadAt e f n off = Some (e', f', r) /\ uring_inv e' /\
    content f' = content f /\ (forall l, holds_log f l -> holds_log f' l) /\
    match r with
    | RValue bs => bs `prefix_of` take (Z.to_nat n) (drop (Z.to_nat off) (content f))
    | RStatus s => Status.ok s = false
    end.
Proof.
  intros Hinv Hn. destruct (uring_quiet e f (replicate (Z.to_nat n) Byte.x00) Hinv) as (fd & poll & Hq).
  destruct (p_frame_spec (u_kern e)) as (Ha1 & _ & _).
  destruct (read_quiet (p_frame (u_kern e)) _ fd poll (u_walFd e) n off (run_fuel e) Hq) as (x & r & E & Hq' & [Hc Hk] & Hr);
    [done..|].
  unfold ReadAt, uring_Io. rewrite E. cbn [mbind option_bind]. do 3 eexists.
  split; [done|]. split; [by eapply uring_inv_of|]. split; [done|]. split; [done|]. by destruct r.
Qed.

Lemma uring_FDataSync_spec e f : uring_inv e ->
  exists e' f' s, FDataSync e f = Some (e', f', s) /\ uring_inv e' /\ content f' = content f /\
    (if Status.ok s then durable f' = content f else forall l, holds_log f l -> holds_log f' l).
Proof.
  intros Hinv. destruct (uring_quiet e f [] Hinv) as (fd & poll & Hq).
  destruct (p_frame_spec (u_kern e)) as (Ha1 & _ & _).
  destruct (sync_quiet (p_frame (u_kern e)) _ fd poll (u_walFd e) (run_fuel e) Hq) as (x & s & E & Hq' & [Hc Hk] & Hs);
    [done..|].
  unfold FDataSync, uring_Io. rewrite E. cbn [mbind option_bind]. do 3 eexists.
  split; [done|]. split; [by eapply uring_inv_of|]. split; [done|]. destruct (Status.ok s); auto.
Qed.

Lemma uring_Writev_spec e f mem iovs off expected data : uring_inv e -> 0 <= off < 2 ^ 62 ->
  materializeIovecs mem iovs = Some data -> zlen data = expected ->
  exists e' f' s, WritevAndFDataSync e f mem iovs off expected = Some (e', f', s) /\ uring_inv e' /\
    if Status.ok s then content f' = pwrite (content f) off data /\ durable f' = content f'
    else forall l, zlen l <= off -> holds_log f l -> holds_log f' l.
Proof.
  intros Hinv Hoff Hd <-. destruct (uring_quiet e f [] Hinv) as (fd & poll & Hq).
  destruct (p_frame_spec (u_kern e)) as (Ha1 & Ha2 & Hne).
  destruct (write_quiet (p_frame (u_kern e)) _ fd poll (u_walFd e) mem iovs off data (run_fuel e) Hq) as (x & s & E & Hq' & Hs);
    [done..|].
  unfold WritevAndFDataSync, uring_Io. rewrite E. cbn [mbind option_bind]. do 3 eexists.
  split; [done|]. split; [by eapply uring_inv_of|done].
Qed.

#[global] Instance uring_IoSpec : IoSpec (UringSys K).
Proof using All.
  refine {| io_inv := uring_inv |}.
  - intros e e' t Hinv H. cbn in H. destruct (p_now (u_kern e)) as [k t'] eqn:Hn. injection H as <- <-.
    apply uring_inv_calm; [done|]. by eapply p_now_spec.
  - intros e f e' r Hinv H. cbn in H. destruct (p_fstat (u_kern e) f) as [k r'] eqn:Hn. injection H as <- <-.
    apply p_fstat_spec in Hn as [Hc Hr]. split; [by apply uring_inv_calm|done].
  - intros e f n e' f' ok Hinv Hn H. cbn in H. destruct (p_ftruncate (u_kern e) f n) as [[k f2] b] eqn:Ht.
    injection H as <- <- <-. apply p_ftruncate_spec in Ht as [Hc Hr]; [|done]. split; [by apply uring_inv_calm|done].
  - intros e f n off Hinv Hn _. by apply uring_ReadAt_spec.
  - intros e f Hinv. by apply uring_FDataSync_spec.
  - intros e f mem iovs off expected data Hinv Hoff _ Hd Hex. by apply uring_Writev_spec.
Defined.

End UringIo.
