(* ===== verification/DbOpen.v ===== *)
(** * Opening and destroying a database (src/db.cc), its statistics

    [DB::Open], the constructor, the destructor and [DebugStatsForTest], over the executor's
    own set-up and shutdown. *)

From stdpp Require Import relations.
From S2P Require Import Prelude Status Coding Crc32c WriteBatch Wal MemTable Io Db WriterQueue WriterQueueFacts.
From S2P Require Import UringExecutor UringKernel UringFacts UringTheorems UringLifecycle UringIo.

(** [create_directories(path)], which may throw ([false]); [open(walPath, O_CREAT | O_RDWR |
    O_CLOEXEC, 0644)] and [close] of what it returned; the words and arrays the executor's
    ring pointers point at. *)
Class OpenFile (K : Type) := {
  fs_create_directories : K -> K * bool;
  fs_open : K -> K * Z;
  fs_close : K -> Z -> K;
  ring_memory : K -> RState -> Shm;
}.

(** The members of [DB]: those behind [World], the ring's, the queue's, the options'. *)
Record DB (K : Type) := mkDB {
  db_world : World (UringSys K);
  db_ring : RState;
  db_options : Options;
  db_queue : Queue;
  uringExecutorCreations_ : Z;
  writerThread_ : bool;
}.
Arguments mkDB {K} db_world db_ring db_options db_queue uringExecutorCreations_ writerThread_.
Arguments db_world {K} d.
Arguments db_ring {K} d.
Arguments db_options {K} d.
Arguments db_queue {K} d.
Arguments uringExecutorCreations_ {K} d.
Arguments writerThread_ {K} d.

Section Open.
Context {L : Libc} {C : Cpu} {K : Type} `{!Kernel K, !KernelSpec K, !Setup K, !Posix K, !OpenFile K}.

(** The constructor. *)
Definition DB_new (walFd : Z) (k : K) (f : file) (ring : RState) (options : Options) : DB K :=
  mkDB (mkWorld (mkUring k (ring_memory k ring) (r_state ring) AtEnter walFd) f DBCore_new) ring options Queue_new 0 false.

(** The destructor, once the writer thread (if there is one) has returned: the log is closed,
    then the executor. *)
Definition DB_destroy (d : DB K) : option (K * file) :=
  let e := w_io (db_world d) in
  let k := if 0 <=? u_walFd e then fs_close (u_kern e) (u_walFd e) else u_kern e in
  '(x, k) ← closeRing (run_fuel e) (to_exec (with_kern e k) (w_file (db_world d)) []) (db_ring d);
  Some (k, m_file (x_mach x)).

Definition DB_Open (k : K) (f : file) (options : Options) : option (K * file * Outcome (DB K)) :=
  let '(k, created) := fs_create_directories k in
  if negb created then Some (k, f, Threw) else
  let '(k, fd) := fs_open k in
  if fd <? 0 then Some (k, f, Returned (RStatus (Status.IoError (errnoMessage "open WAL" (p_errno k))))) else
  let '(k, executor) := Create k (mkUringOptions (uringEntries options) (uringSqPoll options) (uringSqPollIdleMs options)) in
  match executor with
  | Threw => Some (k, f, Threw)
  | Returned (RStatus s) => Some (fs_close k fd, f, Returned (RStatus s))
  | Returned (RValue ring) =>
      let db := DB_new fd k f ring options in
      '(w, status) ← recover (db_world db);
      let db := mkDB w (db_ring db) (db_options db) (db_queue db) 1 (writerThread_ db) in
      if negb (Status.ok status) then
        '(k, f) ← DB_destroy db;
        Some (k, f, Returned (RStatus status))
      else if negb (sys_thread (u_kern (w_io w))) then
        '(k, f) ← DB_destroy db;
        Some (k, f, Threw)
      else
        Some (u_kern (w_io w), w_file w, Returned (RValue (mkDB w (db_ring db) (db_options db) (db_queue db) 1 true)))
  end.

Definition DB_Open_default (k : K) (f : file) : option (K * file * Outcome (DB K)) := DB_Open k f default_Options.

End Open.

(** ** Statistics *)

(** [UringExecutor::DebugStats] of an executor that is not closed. *)
Record ExecutorStats := mkExecutorStats { es_completionLoopCompletions : Z; es_sqPollEnabled : bool }.

Definition executor_DebugStatsForTest (st : UState) : ExecutorStats :=
  mkExecutorStats (completionLoopCompletions st) (sqPollEnabled st).

Record DebugStats := mkDebugStats {
  ds_uringExecutorCreations : Z;
  ds_uringSqPollEnabled : bool;
  ds_asyncWriterSuspensions : Z;
  ds_groupCommitWaits : Z;
  ds_groupCommitWindowMicros : Z;
  ds_groupCommitTargetSize : Z;
  ds_adaptiveGroupCommitEnabled : bool;
  ds_adaptiveGroupCommitWaits : Z;
  ds_highPressureGroupCommitWindowMicros : Z;
  ds_highPressureGroupCommitTargetSize : Z;
  ds_highPressureGroupCommitQueueThreshold : Z;
  ds_writeGroups : Z;
  ds_maxWriteGroupSize : Z;
  ds_uringCompletionLoopCompletions : Z;
  ds_writerThreadDrains : Z;
  ds_inlineWriterDrains : Z;
  ds_memtableApplyLocks : Z;
  ds_walEncodeBufferReuses : Z;
  ds_walEncodeFixedCapacity : Z;
  ds_walEncodeIovecCapacity : Z;
  ds_writeGroupTimingSamples : Z;
  ds_writeGroupTotalMicros : Z;
  ds_writeGroupWalEncodeMicros : Z;
  ds_writeGroupDurableWaitMicros : Z;
  ds_writeGroupMemtableApplyMicros : Z;
  ds_writerResumeMicros : Z;
  ds_memtableReservedBuckets : Z;
  ds_memtableShardCount : Z;
  ds_memtableEntries : Z;
  ds_memtableApplyShardLocks : Z;
  ds_writeGroupScratchReuses : Z;
}.

Definition DebugStatsForTest {L : Libc} {K : Type} (d : DB K) : DebugStats :=
  let executorStats := executor_DebugStatsForTest (u_state (w_io (db_world d))) in
  let q := db_queue d in
  let o := db_options d in
  let core := w_db (db_world d) in
  let st := write_stats core in
  let memStats := MemTable_Stats (memtable_ core) in
  mkDebugStats (uringExecutorCreations_ d) (es_sqPollEnabled executorStats) (asyncWriterSuspensions_ q)
    (groupCommitWaits_ q) (groupCommitWindowMicros o) (groupCommitTargetSize o) (adaptiveGroupCommit o)
    (adaptiveGroupCommitWaits_ q) (highPressureGroupCommitWindowMicros o) (highPressureGroupCommitTargetSize o)
    (highPressureGroupCommitQueueThreshold o) (writeGroups_ q) (maxWriteGroupSize_ q)
    (es_completionLoopCompletions executorStats) (writerThreadDrains_ q) (inlineWriterDrains_ q)
    (stat_applyLocks memStats) (walEncodeBufferReuses_ st) (capacity (fixed (walRecord_ core)))
    (capacity (iovecs (walRecord_ core))) (writeGroupTimingSamples_ st) (writeGroupTotalMicros_ st)
    (writeGroupWalEncodeMicros_ st) (writeGroupDurableWaitMicros_ st) (writeGroupMemtableApplyMicros_ st)
    (writerResumeMicros_ q) (stat_reservedBuckets memStats) (stat_shardCount memStats) (stat_entries memStats)
    (stat_applyShardLocks memStats) (writeGroupScratchReuses_ st).

(** ** What opening relies on *)

Class OpenSpec (K : Type) `{!Libc, !Kernel K, !KernelSpec K, !Setup K, !SetupSpec K, !Posix K, !OpenFile K} : Prop := {
  create_directories_spec : forall k k' ok, fs_create_directories k = (k', ok) -> k_fds k' = k_fds k /\ k_maps k' = k_maps k;
  open_spec : forall k k' fd, fs_open k = (k', fd) -> k_maps k' = k_maps k /\
    if fd <? 0 then k_fds k' = k_fds k else (fd ∉ k_fds k) /\ k_fds k' = ({[fd]} ∪ k_fds k);
  fs_close_spec : forall k fd, fd ∈ k_fds k ->
    k_fds (fs_close k fd) = k_fds k ∖ {[fd]} /\ k_maps (fs_close k fd) = k_maps k /\ calm k (fs_close k fd) /\
    (k_patience (fs_close k fd) <= k_patience k)%nat;
  (** A new ring is empty and has at least the entries asked for. *)
  ring_memory_spec : forall k0 o k st, Create k0 o = (k, Returned (RValue st)) ->
    ring_ok (ring_memory k st) [] [] /\ entries o <= sq_ringEntries (ring_memory k st) /\
    k_inflight k = [] /\ k_polls k = sqPoll o;
  now_resources : forall k k' t, p_now k = (k', t) -> same_resources k k';
  fstat_resources : forall k f k' r, p_fstat k f = (k', r) -> same_resources k k';
  ftruncate_resources : forall k f n k' f' ok, p_ftruncate k f n = (k', f', ok) -> same_resources k k';
}.

Section OpenFacts.
Context {L : Libc} {C : Cpu} {K : Type} `{!Kernel K, !KernelSpec K, !Setup K, !SetupSpec K, !Posix K, !OpenFile K}.

Lemma same_trans (k1 k2 k3 : K) : same_resources k1 k2 -> same_resources k2 k3 -> same_resources k1 k3.
Proof. intros [? ?] [? ?]. split; congruence. Qed.

(** Running an operation does not touch the descriptors or the mappings, nor the executor's
    own record of its ring. *)
Definition exec_same (x x' : Exec K) : Prop :=
  same_resources (m_kern (x_mach x)) (m_kern (x_mach x')) /\ ringFd (x_state x') = ringFd (x_state x).

Lemma exec_same_trans x1 x2 x3 : exec_same x1 x2 -> exec_same x2 x3 -> exec_same x1 x3.
Proof. intros [? ?] [? ?]. split; [by eapply same_trans|congruence]. Qed.

Lemma submit_same x c a x' s : submit x c a = Some (x', s) -> exec_same x x'.
Proof.
  unfold submit. destruct (c || _); [by intros [= <- <-]|]. destruct (x_heap x !! a); [|done]. cbn [mbind option_bind].
  destruct (submitRaw _ _ _ _) as [[m st]|] eqn:E; [|done]. cbn [mbind option_bind]. apply submitRaw_resources in E.
  by intros [= <- <-].
Qed.

Lemma submitLinked_same x c a1 a2 x' s : submitLinked x c a1 a2 = Some (x', s) -> exec_same x x'.
Proof.
  unfold submitLinked, loadAcquire. pose proof (async_resources (x_mach x)) as [A1 A2].
  pose proof (async_resources (k_async (x_mach x))) as [B1 B2].
  assert (same_resources (m_kern (x_mach x)) (m_kern (k_async (k_async (x_mach x))))) as HS by (split; congruence).
  destruct (c || _); [by intros [= <- <-]|]. destruct (_ >? _); [by intros [= <- <-]|].
  destruct (x_heap x !! a1); [|done]. cbn [mbind option_bind]. destruct (_ !! a2); [|done]. cbn [mbind option_bind].
  do 4 (match goal with |- mbind _ ?o = Some _ -> _ => destruct o; [|done] end; cbn [mbind option_bind]).
  destruct (sqPollEnabled (x_state x)).
  - destruct (wakeSqPollIfNeeded _ _) eqn:E. apply wake_resources in E. intros [= <- <-].
    split; [|done]. by eapply same_trans.
  - destruct (k_enter _ _ _ _) as [m2 ret] eqn:E. apply enter_resources in E. intros [= <- <-]. split; [|done].
    by eapply same_trans.
Qed.

Lemma runUntilResumed_same fuel : forall c x x', runUntilResumed fuel c x = Some x' -> exec_same x x'.
Proof.
  induction fuel as [|fuel IH]; intros c x x'; cbn [runUntilResumed]; case_bool_decide; try (by intros [= <-]).
  all: try done.
  destruct (completionLoop x) as [x1|] eqn:E; [|done]. cbn [mbind option_bind]. intros H1%IH.
  apply completionLoop_resources in E. by eapply exec_same_trans.
Qed.

Lemma awaitSingle_same fuel fr x s e1 e2 x' r : awaitSingle fuel fr x s e1 e2 = Some (x', r) -> exec_same x x'.
Proof.
  unfold awaitSingle. destruct (submit _ _ _) as [[x1 st]|] eqn:E1; [|done]. cbn [mbind option_bind].
  apply submit_same in E1. destruct (negb _); [by intros [= <- <-]|].
  destruct (runUntilResumed _ _ _) as [x2|] eqn:E2; [|done]. cbn [mbind option_bind]. apply runUntilResumed_same in E2.
  destruct (x_heap x2 !! _); [|done]. cbn [mbind option_bind]. intros [= <- <-]. by destruct (exec_same_trans _ _ _ E1 E2).
Qed.

Lemma writev_same fuel fr x fd mem iovs off n x' s :
  uring_WritevAndFDataSync fuel fr x fd mem iovs off n = Some (x', s) -> exec_same x x'.
Proof.
  unfold uring_WritevAndFDataSync. destruct (submitLinked _ _ _ _) as [[x1 st]|] eqn:E1; [|done]. cbn [mbind option_bind].
  apply submitLinked_same in E1. destruct (negb _); [by intros [= <- <-]|].
  destruct (runUntilResumed _ _ _) as [x2|] eqn:E2; [|done]. cbn [mbind option_bind]. apply runUntilResumed_same in E2.
  destruct (x_heap x2 !! addr1 _); [|done]. cbn [mbind option_bind]. destruct (x_heap x2 !! addr2 _); [|done]. cbn [mbind option_bind].
  intros [= <- <-]. by destruct (exec_same_trans _ _ _ E1 E2).
Qed.

(** The system behind a database, with these descriptors and nothing else acquired. *)
Definition holds (k0 : K) (fd walFd : Z) (e : UringSys K) : Prop :=
  same_resources k0 (u_kern e) /\ ringFd (u_state e) = fd /\ u_walFd e = walFd.

Context `{!OpenSpec K}.

Lemma holds_kept k0 fd walFd : io_keeps (holds k0 fd walFd).
Proof.
  assert (forall e f b x', holds k0 fd walFd e -> exec_same (to_exec e f b) x' -> holds k0 fd walFd (of_exec e x')) as Hexec.
  { intros e f b x' (Hs & Hf & Hw) [HS HF]. split; [by eapply same_trans|]. split; [|done]. by rewrite <- Hf. }
  assert (forall e k, holds k0 fd walFd e -> same_resources (u_kern e) k -> holds k0 fd walFd (with_kern e k)) as Hkern.
  { intros e k (Hs & Hf & Hw) HS. split; [by eapply same_trans|done]. }
  split; cbn.
  - intros e e' t He. destruct (p_now _) eqn:E. intros [= <- _]. apply Hkern; [done|]. by eapply now_resources.
  - intros e f e' r He. destruct (p_fstat _ _) eqn:E. intros [= <- _]. apply Hkern; [done|]. by eapply fstat_resources.
  - intros e f n e' f' ok He. destruct (p_ftruncate _ _ _) as [[k f1] b] eqn:E. intros [= <- _ _]. apply Hkern; [done|].
    by eapply ftruncate_resources.
  - intros e f n off e' f' r He. unfold uring_ReadAt.
    destruct (awaitSingle _ _ _ _ _ _) as [[x r1]|] eqn:E; [|done]. cbn [mbind option_bind]. intros [= <- _ _].
    apply awaitSingle_same in E. by eapply Hexec.
  - intros e f e' f' s He. unfold uring_FDataSync.
    destruct (awaitSingle _ _ _ _ _ _) as [[x r1]|] eqn:E; [|done]. cbn [mbind option_bind]. intros [= <- _ _].
    apply awaitSingle_same in E. by eapply Hexec.
  - intros e f mem iovs off n e' f' s He.
    destruct (uring_WritevAndFDataSync _ _ _ _ _ _ _ _) as [[x r1]|] eqn:E; [|done]. cbn [mbind option_bind]. intros [= <- _ _].
    apply writev_same in E. by eapply Hexec.
Qed.

(** Closing the log leaves the ring's resources. *)
Lemma owns_close k0 k1 k st fd : owns k1 k st -> (fd ∉ k_fds k0) -> k_fds k1 = ({[fd]} ∪ k_fds k0) -> k_maps k1 = k_maps k0 ->
  (fd ∈ k_fds k) /\ forall k', k_fds k' = k_fds k ∖ {[fd]} -> k_maps k' = k_maps k -> owns k0 k' st.
Proof.
  intros [(Hf & Hn & Hfds) Hsq Hcq Hes Hm] Hfd H1 M1. unfold cq_mapped, sq_mapped in *. rewrite H1, M1 in *.
  apply not_elem_of_union in Hn as [Hn1 Hn2]. rewrite elem_of_singleton in Hn1. split; [rewrite Hfds, !elem_of_union, !elem_of_singleton; auto|].
  intros k' F M. split; unfold cq_mapped, sq_mapped; rewrite ?F, ?M; try done. split; [done|]. split; [done|].
  rewrite Hfds. apply set_eq. intros z. rewrite elem_of_difference, !elem_of_union, !elem_of_singleton.
  destruct (decide (z = fd)) as [->|]; intuition congruence.
Qed.

Context `{!KernelReliable K, !PosixSpec K}.

(** Since [k0] the process has acquired the database's descriptors and mappings. *)
Definition db_owns (k0 : K) (d : DB K) : Prop :=
  exists k1 kref fd, (fd ∉ k_fds k0) /\ 0 <= fd /\ k_fds k1 = ({[fd]} ∪ k_fds k0) /\ k_maps k1 = k_maps k0 /\
    owns k1 kref (db_ring d) /\ joinable (db_ring d) = true /\
    holds kref (ringFd (r_state (db_ring d))) fd (w_io (db_world d)).

Lemma destroy_spec k0 d : db_owns k0 d -> uring_inv (w_io (db_world d)) ->
  exists k f, DB_destroy d = Some (k, f) /\ k_fds k = k_fds k0 /\ k_maps k = k_maps k0 /\ keeps (w_file (db_world d)) f.
Proof.
  intros (k1 & kref & fd & Hnew & Hfd & F1 & M1 & Hown & Hj & (HF & HM) & Hr & Hw) Hinv. unfold DB_destroy.
  set (e := w_io (db_world d)) in *. rewrite Hw. destruct (Z.leb_spec 0 fd); [|lia].
  destruct (owns_close k0 k1 kref (db_ring d) fd Hown Hnew F1 M1) as [Hin Hown'].
  destruct (fs_close_spec (u_kern e) fd) as (F2 & M2 & Hcalm & Hpat); [by rewrite HF|].
  destruct (uring_quiet (with_kern e (fs_close (u_kern e) fd)) (w_file (db_world d)) [] (uring_inv_calm _ _ Hinv Hcalm))
    as (rfd & poll & Hq).
  destruct (closeRing_spec k0 _ rfd poll (db_ring d) (run_fuel e) Hq) as (x & k & -> & _ & F3 & M3 & Hkeep).
  - apply Hown'; cbn; congruence.
  - done.
  - pose proof (qu_fd _ _ _ Hq) as [Hqf _]. cbn in Hqf. congruence.
  - cbn. unfold run_fuel. lia.
  - by exists k, (m_file (x_mach x)).
Qed.

Lemma new_owned k0 k1 k2 fd f options st : fs_open k0 = (k1, fd) -> 0 <= fd ->
  Create k1 (mkUringOptions (uringEntries options) (uringSqPoll options) (uringSqPollIdleMs options)) = (k2, Returned (RValue st)) ->
  2 <= uringEntries options ->
  let d := DB_new fd k2 f st options in db_owns k0 d /\ uring_inv (w_io (db_world d)).
Proof.
  intros E1 Hfd E2 Hen d. apply open_spec in E1 as [M1 H1]. destruct (Z.ltb_spec fd 0); [lia|]. destruct H1 as [Hnew F1].
  destruct (ring_memory_spec _ _ _ _ E2) as (Hring & Hsz & Hinf & Hpo). cbn in Hsz, Hpo.
  apply Create_spec in E2. destruct E2 as (Hown & Hj & Hst & Hsp & _). cbn in Hsp. split.
  - exists k1, k2, fd. do 6 (split; [done|]). done.
  - pose proof (ow_fd _ _ _ Hown) as [Hr _]. exists (ringFd (r_state st)), (sqPollEnabled (r_state st)). intros f'.
    split; cbn; rewrite ?set_userbuf_same; try done; [lia|congruence].
Qed.

(** [Open] answers. It leaves nothing behind unless it returns a database, except that the
    log's descriptor is lost if [Create] throws. *)
Lemma open_cases k0 f options : zlen (content f) < 2 ^ 62 -> 2 <= uringEntries options ->
  exists k f' r, DB_Open k0 f options = Some (k, f', r) /\
    match r with
    | Threw => k_maps k = k_maps k0 /\
        (k_fds k = k_fds k0 \/ exists fd, (fd ∉ k_fds k0) /\ k_fds k = ({[fd]} ∪ k_fds k0))
    | Returned (RStatus s) => Status.ok s = false /\ k_fds k = k_fds k0 /\ k_maps k = k_maps k0
    | Returned (RValue d) => db_owns k0 d /\ uring_inv (w_io (db_world d)) /\ w_file (db_world d) = f' /\
        db_queue d = Queue_new /\ uringExecutorCreations_ d = 1 /\ writerThread_ d = true /\
        exists e s, uring_inv e /\ recover (mkWorld e f DBCore_new) = Some (db_world d, s) /\ Status.ok s = true
    end.
Proof.
  intros Hlen Hen. unfold DB_Open. destruct (fs_create_directories k0) as [k00 created] eqn:E0.
  apply create_directories_spec in E0 as [F0 M0].
  destruct created; cbn [negb]; [|by do 3 eexists; split; [reflexivity|cbn; auto]]. rewrite <- F0, <- M0.
  destruct (fs_open k00) as [k1 fd] eqn:E1. pose proof (open_spec _ _ _ E1) as [M1 H1].
  destruct (Z.ltb_spec fd 0) as [|Hfd]; [by do 3 eexists|]. destruct H1 as [Hnew F1].
  destruct (Create k1 _) as [k2 [[st|s]|]] eqn:E2.
  2:{ apply Create_spec in E2 as (Hs & F2 & M2). destruct (release_fd fd _ Hnew) as [Hin Hout].
      destruct (fs_close_spec k2 fd) as (F3 & M3 & _); [by rewrite F2, F1|].
      do 3 eexists. split; [done|]. split; [done|]. by rewrite F3, M3, F2, M2, F1. }
  2:{ apply Create_spec in E2 as (F2 & M2). do 3 eexists. split; [done|]. split; [congruence|].
      right. exists fd. split; [done|congruence]. }
  destruct (new_owned k00 k1 k2 fd f options st E1 Hfd E2 Hen) as [Hown Hinv].
  destruct (recover_spec (db_world (DB_new fd k2 f st options))) as (w & s & Hrec & Hio & _); [done..|].
  rewrite Hrec. cbn [mbind option_bind].
  destruct Hown as (k1' & kref & fd' & HA1 & HA2 & HA3 & HA4 & HA5 & HA6 & HA7).
  pose proof (recover_keeps _ _ _ _ (holds_kept _ _ _) HA7 Hrec) as HA8.
  set (d := mkDB w _ _ _ 1 _). assert (db_owns k00 d) as Hd by (exists k1', kref, fd'; done).
  destruct (destroy_spec k00 d Hd Hio) as (k & f' & Edestroy & F & M & _).
  destruct (Status.ok s) eqn:Hs; cbn [negb]; [destruct (sys_thread _); cbn [negb]|].
  - do 3 eexists. split; [done|]. split; [destruct Hd as (ka & kb & fda & Hd); rewrite F0, M0 in Hd; by exists ka, kb, fda|].
    do 5 (split; [done|]). by exists (w_io (db_world (DB_new fd k2 f st options))), s.
  - rewrite Edestroy. cbn [mbind option_bind]. do 3 eexists. split; [done|]. cbn. auto.
  - rewrite Edestroy. cbn [mbind option_bind]. by do 3 eexists.
Qed.



End OpenFacts.

(** ** Results are well formed

    [Result]'s constructor from a [Status] asserts that the status is an error. *)
Section Assertions.
Context {L : Libc} {C : Cpu} {K : Type} `{!Kernel K, !KernelSpec K, !Setup K, !Posix K, !OpenFile K}.

Definition outcome_wf {A} (o : Outcome A) : Prop := match o with Returned r => result_wf r | Threw => True end.

Lemma Get_wf mt k r : MemTable_Get mt k = Some r -> result_wf r.
Proof.
  unfold MemTable_Get. destruct (vec_get _ _) as [s|]; [|done]. cbn [mbind option_bind]. intros [= <-].
  destruct (shard_entries s !! k) as [e|]; [|done]. by destruct (deleted e).
Qed.

Lemma DecodeLog_wf bs r : zlen bs < 2 ^ 62 -> DecodeLog bs = Some r -> result_wf r.
Proof.
  intros Hb E. destruct (DecodeLog_total bs Hb) as (r' & E' & Hs). rewrite E in E'. injection E' as <-.
  destruct r as [d|s]; [done|]. cbn. unfold Status.ok. by rewrite (Hs s eq_refl).
Qed.

Lemma awaitSingle_wf fuel fr x s e1 e2 x' r : awaitSingle fuel fr x s e1 e2 = Some (x', r) -> result_wf r.
Proof.
  unfold awaitSingle. destruct (submit _ _ _) as [[x1 st]|]; [|done]. cbn [mbind option_bind].
  destruct (negb _); [by intros [= _ <-]|]. destruct (runUntilResumed _ _ _) as [x2|]; [|done]. cbn [mbind option_bind].
  destruct (x_heap x2 !! _); [|done]. cbn [mbind option_bind]. intros [= _ <-].
  unfold singleResult. by repeat case_match.
Qed.

Lemma Create_wf (k : K) o : outcome_wf (Create k o).2.
Proof.
  unfold Create, init. destruct (sys_setup _ _ _ _) as [[k1 fd] p]. destruct (fd <? 0); [done|].
  destruct (sys_mmap k1 _ _ _) as [k2 sqp]. destruct (sqp =? MAP_FAILED); [done|].
  destruct (if negb _ then (k2, sqp) else _) as [k3 cqp]. destruct (negb _ && _); [done|].
  destruct (sys_mmap k3 _ _ _) as [k4 esp]. destruct (esp =? MAP_FAILED); [done|]. by destruct (sys_thread k4).
Qed.

Lemma Open_wf (k : K) f o k' f' r : DB_Open k f o = Some (k', f', r) -> outcome_wf r.
Proof.
  unfold DB_Open. destruct (fs_create_directories k) as [k0 []]; cbn [negb]; [|by intros [= _ _ <-]].
  destruct (fs_open k0) as [k1 fd]. destruct (fd <? 0); [by intros [= _ _ <-]|].
  pose proof (Create_wf k1 (mkUringOptions (uringEntries o) (uringSqPoll o) (uringSqPollIdleMs o))) as Hc.
  destruct (Create k1 _) as [k2 [[st|s]|]]; [|by intros [= _ _ <-]..].
  destruct (recover _) as [[w s]|]; [|done]. cbn [mbind option_bind].
  destruct (Status.ok s) eqn:Hs; cbn [negb]; [destruct (sys_thread _); cbn [negb]; [by intros [= _ _ <-]|]|].
  all: destruct (DB_destroy _) as [[k3 f3]|]; [|done]; cbn [mbind option_bind]; by intros [= _ _ <-].
Qed.

(** C24: no [Result] is made of an OK status. What [Get], [DecodeLog], [fileSize], the
    executor's [ReadAt] and [Create], and [Open] return is a value or an error, so the
    assertion in [Result]'s constructor cannot fail and [error()] never reports success. *)
Theorem results_are_values_or_errors :
  (forall mt k r, MemTable_Get mt k = Some r -> result_wf r) /\
  (forall bs r, zlen bs < 2 ^ 62 -> DecodeLog bs = Some r -> result_wf r) /\
  (forall (io : UringSys K) f, result_wf (fileSize io f).2) /\
  (forall fuel fr (x : Exec K) fd n off x' r, uring_ReadAt fuel fr x fd n off = Some (x', r) -> result_wf r) /\
  (forall (k : K) o, outcome_wf (Create k o).2) /\
  (forall (k : K) f o k' f' r, DB_Open k f o = Some (k', f', r) -> outcome_wf r).
Proof.
  split; [apply Get_wf|]. split; [apply DecodeLog_wf|]. split; [|split; [|split; [apply Create_wf|apply Open_wf]]].
  - intros io f. unfold fileSize. destruct (io_fstat io f) as [io' [n|]]; done.
  - intros fuel fr x fd n off x' r. unfold uring_ReadAt.
    destruct (awaitSingle _ _ _ _ _ _) as [[x1 r1]|] eqn:E; [|done]. cbn [mbind option_bind]. intros [= _ <-].
    apply awaitSingle_wf in E. by destruct r1.
Qed.

End Assertions.

(** ** The statistics count what happened *)

Lemma split_by_thread (ds : list done) :
  (length (filter (fun d => done_by_thread d = false) ds) + length (filter (fun d => done_by_thread d = true) ds))%nat =
  length ds.
Proof.
  induction ds as [|d ds IH]; [done|]. rewrite !filter_cons. destruct (done_by_thread d) eqn:E;
    repeat case_decide; try congruence; cbn [length]; lia.
Qed.

(** [DebugStatsForTest] counts what happened, modulo 2^64: the writers that came, the
    groups written, the largest of them, and who wrote them; when nobody is writing, the
    groups are those the callers wrote and those the writer thread wrote. *)
Theorem debug_stats_count_events {L : Libc} {C : Cpu} {K : Type} `{!Kernel K, !KernelSpec K, !Posix K} options w0 s ring :
  reachable (W := World (UringSys K)) writeGroup options w0 s ->
  let st := DebugStatsForTest (mkDB (s_world s) ring options (s_q s) 1 true) in
  ds_asyncWriterSuspensions st = u64 (zlen (s_came s)) /\
  ds_writeGroups st = u64 (zlen (s_written s)) /\
  ds_maxWriteGroupSize st = foldr Z.max 0 ((fun d => zlen (done_group d)) <$> s_written s) /\
  (writing_ (s_q s) = false -> ds_writeGroups st = u64 (ds_inlineWriterDrains st + ds_writerThreadDrains st)).
Proof.
  intros Hr st. apply reachable_inv in Hr as [Ht _ _ _ [H1 H2 H3 H4 H5]]. cbn [st DebugStatsForTest ds_asyncWriterSuspensions
    ds_writeGroups ds_maxWriteGroupSize ds_inlineWriterDrains ds_writerThreadDrains db_queue].
  do 3 (split; [done|]). intros Hw. rewrite (ti_writing _ Ht) in Hw. apply orb_false_iff in Hw as [Hi Hb].
  rewrite H2, H4, H5, Hi. rewrite <- (split_by_thread (s_written s)).
  assert (match s_loop s with LWrite _ => 1 | _ => 0 end = 0) as -> by (by destruct (s_loop s)).
  rewrite !Z.add_0_r, Nat2Z.inj_add. unfold u64. by rewrite <- Zplus_mod.
Qed.
