(* ===== verification/DbSession.v ===== *)
(** * The life of a database (src/db.cc)

    A database is opened, called, destroyed and opened again, or the machine crashes in
    between; a client that has it to itself sees one map throughout. *)

From stdpp Require Import relations.
From S2P Require Import Prelude Status Coding Crc32c WriteBatch Wal MemTable Io Db DbTheorems WriterQueue WriterQueueFacts DbConcurrent DbClient.
From S2P Require Import UringExecutor UringKernel UringFacts UringTheorems UringLifecycle UringIo DbOpen.

(** ** The calls on an open database *)

Section Calls.
Context {L : Libc} {C : Cpu} {K : Type} `{!Kernel K, !KernelSpec K, !Setup K, !Posix K, !OpenFile K}.

Definition db_client (d : DB K) : Client := mkClient (db_queue d) (db_world d).

Definition with_client (d : DB K) (c : Client) : DB K :=
  mkDB (c_world c) (db_ring d) (db_options d) (c_queue c) (uringExecutorCreations_ d) (writerThread_ d).

(** [Put], [Delete] or [Write] of a client that has the database to itself. *)
Definition db_call (d : DB K) (o : call) : option (DB K * StatusT) :=
  '(c, s) ← do_call (db_client d) o;
  Some (with_client d c, s).

Definition db_Get (d : DB K) (key : bytes) : option (Result bytes) := client_Get (db_client d) key.

(** What a program does with its database and what happens to it: a call, which has to
    succeed; a [Get]; a restart, where the database is destroyed, [tail] is appended to the
    log and the database is opened again; a crash, after which the log has anything after
    what was on the device, and the system is in the state [k]. *)
Inductive event :=
  | Call (o : call)
  | Read (key : bytes)
  | Restart (tail : bytes) (options : Options)
  | Crash (k : K) (tail : bytes) (options : Options).

(** The results of the [Get]s; or the error with which a call or [Open] ended the program,
    [None] if [Open] threw. *)
Inductive answer := Answered (rs : list (Result bytes)) | Refused (s : option StatusT).

Definition answer_first (r : Result bytes) (a : answer) : answer :=
  match a with Answered rs => Answered (r :: rs) | Refused s => Refused s end.

Definition opened (o : option (K * file * Outcome (DB K))) (rest : DB K -> option (K * file * answer))
    : option (K * file * answer) :=
  '(k, f, r) ← o;
  match r with
  | Returned (RValue d) => rest d
  | Returned (RStatus s) => Some (k, f, Refused (Some s))
  | Threw => Some (k, f, Refused None)
  end.

Fixpoint live (d : DB K) (events : list event) : option (K * file * answer) :=
  match events with
  | [] => '(k, f) ← DB_destroy d; Some (k, f, Answered [])
  | Call o :: events =>
      '(d, s) ← db_call d o;
      if Status.ok s then live d events else Some (u_kern (w_io (db_world d)), w_file (db_world d), Refused (Some s))
  | Read key :: events =>
      r ← db_Get d key;
      '(k, f, a) ← live d events;
      Some (k, f, answer_first r a)
  | Restart tail options :: events =>
      '(k, f) ← DB_destroy d;
      opened (DB_Open k (mkFile (content f ++ tail) (durable f)) options) (fun d => live d events)
  | Crash k tail options :: events =>
      let c := content (w_file (db_world d)) ++ tail in
      opened (DB_Open k (mkFile c c) options) (fun d => live d events)
  end.

(** From a directory without a log to the destructor. *)
Definition lifetime (k : K) (options : Options) (events : list event) : option (K * file * answer) :=
  opened (DB_Open k empty_file options) (fun d => live d events).

(** ** What a map would answer *)

Fixpoint map_answers (m : gmap bytes bytes) (events : list event) : list (Result bytes) :=
  match events with
  | [] => []
  | Call o :: events => map_answers (fold_left kv_apply (entries_ (call_batch o)) m) events
  | Read key :: events => kv_get m key :: map_answers m events
  | Restart _ _ :: events | Crash _ _ _ :: events => map_answers m events
  end.

(** The calls can be encoded; no record is in what follows the log at a start, as is the
    case when it is part of one; the ring has room for a write and its sync. *)
Definition no_record (tail : bytes) : Prop := DecodeLog tail = Some (RValue (mkDecodeResult [] 0)).

Definition event_ok (a : event) : Prop :=
  match a with
  | Call o => batch_wf (call_batch o) /\ encodable (entries_ (call_batch o))
  | Read _ => True
  | Restart tail options | Crash _ tail options => no_record tail /\ 2 <= uringEntries options
  end.

Definition events_bytes (events : list event) : Z :=
  fold_right (fun a n => match a with
    | Call o => 21 + zlen (entries_bytes (entries_ (call_batch o)))
    | Read _ => 0
    | Restart tail _ | Crash _ tail _ => zlen tail
    end + n) 0 events.

(** The sequence numbers used up; a start skips one. *)
Definition events_sequences (events : list event) : Z :=
  fold_right (fun a n => match a with
    | Call o => zlen (entries_ (call_batch o))
    | Read _ => 0
    | Restart _ _ | Crash _ _ _ => 1
    end + n) 0 events.

(** The system the last start was on. *)
Fixpoint last_boot (k : K) (events : list event) : K :=
  match events with
  | [] => k
  | Crash k _ _ :: events => last_boot k events
  | _ :: events => last_boot k events
  end.

End Calls.

(** ** The map, kept *)

Section Session.
Context {L : Libc} {C : Cpu} {K : Type} `{!Kernel K, !KernelSpec K, !Setup K, !SetupSpec K, !Posix K, !OpenFile K}.
Context `{!KernelReliable K, !PosixSpec K, !OpenSpec K}.

(** A database opened on [k0] that nobody is writing to, all of whose log is in use. *)
Record session (k0 : K) (d : DB K) (imgs : list bytes) (ds : list DecodedBatch) : Prop := {
  ss_owns : db_owns k0 d;
  ss_inv : db_inv (db_world d) imgs ds;
  ss_end : nothing_after (db_world d) imgs;
  ss_idle : idle (db_queue d);
}.

Lemma max_sequence_bound ds n : 0 <= n < 2 ^ 64 -> Forall (fun d => 0 <= baseSequence d) ds ->
  Forall (fun d => baseSequence d + zlen (entries_ (batch d)) <= n) ds -> max_sequence ds <= n.
Proof.
  unfold max_sequence. intros Hn. induction ds as [|d ds IH] using rev_ind; intros H0 H; [cbn; lia|].
  apply Forall_app in H as [H Hd%Forall_inv]. apply Forall_app in H0 as [H0 Hd0%Forall_inv]. cbn beta in *.
  assert (sequence_end d = baseSequence d + zlen (entries_ (batch d))) as Hd1 by (apply u64_small; lia).
  rewrite fold_left_app. cbn [fold_left]. rewrite Hd1. specialize (IH H0 H). lia.
Qed.

Lemma images_sequences imgs ds : Forall2 valid_image imgs ds -> Forall (fun d => 0 <= baseSequence d) ds.
Proof. intros Him. induction Him; constructor; eauto. by eapply valid_image_wf. Qed.

(** What is known of a log whose records' sequence numbers are below [n]. *)
Definition log_below (n : Z) (imgs : list bytes) (ds : list DecodedBatch) : Prop :=
  Forall2 valid_image imgs ds /\ Forall (fun d => baseSequence d + zlen (entries_ (batch d)) <= n) ds.

Lemma session_below k0 d imgs ds : session k0 d imgs ds -> log_below (nextSequence_ (w_db (db_world d))) imgs ds.
Proof. intros [_ Hinv _ _]. split; apply Hinv. Qed.

(** Opening a file with an intact log. *)
Lemma open_intact k0 f options imgs ds tail n :
  zlen (content f) < 2 ^ 62 -> reads_in_full (E := UringSys K) f -> 2 <= uringEntries options ->
  0 <= n -> n + 1 < 2 ^ 64 -> log_below n imgs ds -> holds_log f (concat imgs) -> content f = concat imgs ++ tail -> no_record tail ->
  exists k f' r, DB_Open k0 f options = Some (k, f', r) /\
    match r with
    | Returned (RValue d) => session k0 d imgs ds /\ nextSequence_ (w_db (db_world d)) <= n + 1
    | Returned (RStatus s) => Status.ok s = false
    | Threw => True
    end.
Proof.
  intros Hlen Hfull Hen Hn0 Hn [Him Hseq] Hlog Hc Htail.
  destruct (open_cases k0 f options Hlen Hen) as (k & f' & r & E1 & H). exists k, f', r. split; [done|].
  destruct r as [[d|s]|]; [|apply H|done]. destruct H as (Hown & _ & _ & Hq & _ & _ & e & s & He & Hrec & Hs).
  pose proof (images_sequences _ _ Him) as H0.
  destruct (recover_intact (mkWorld e f DBCore_new) imgs ds tail) as (w & s' & Hrec' & _ & Hok); try done.
  { eapply Forall_impl; [exact Hseq|]. cbn. intros. lia. }
  rewrite Hrec in Hrec'. injection Hrec' as <- <-. destruct (Hok Hs) as (Hinv & Hend & Hnext).
  split; [|rewrite Hnext; pose proof (max_sequence_bound ds n ltac:(lia) H0 Hseq); lia].
  split; try done. by rewrite Hq.
Qed.

(** Groups of writes that all succeed extend the log by their records. *)
Lemma groups_session `{!CpuSpec C} k0 d imgs ds gs q : session k0 d imgs ds -> idle q -> Forall group_ok gs ->
  zlen (concat imgs) + groups_bytes gs < 2 ^ 62 -> nextSequence_ (w_db (db_world d)) + groups_entries gs < 2 ^ 64 ->
  exists w ss, run_groups (db_world d) gs = Some (w, ss) /\
    (Forall (fun s => Status.ok s = true) ss -> exists imgs' ds', session k0 (with_client d (mkClient q w)) imgs' ds' /\
      zlen (concat imgs') <= zlen (concat imgs) + groups_bytes gs /\
      nextSequence_ (w_db w) <= nextSequence_ (w_db (db_world d)) + groups_entries gs /\
      visible (replay ds') = fold_left kv_apply (acknowledged gs ss) (visible (replay ds))).
Proof.
  intros [Hown Hinv Hend _] Hidle Hgs Hb Hn. rewrite <- (inv_offset _ _ _ Hinv) in Hb.
  destruct (run_groups_spec gs _ _ _ Hinv Hgs Hb Hn) as (w & ss & imgs' & ds' & E1 & _ & Hinv' & Hack & Hn' & Ho & Hend').
  exists w, ss. split; [done|]. intros Hss. exists (imgs ++ imgs'), (ds ++ ds').
  rewrite (inv_offset _ _ _ Hinv), (inv_offset _ _ _ Hinv') in Ho. split; [|split; [done|split; [done|]]].
  - split; [|done|by apply Hend'|done].
    destruct Hown as (k1 & kref & fd & HA1 & HA2 & HA3 & HA4 & HA5 & HA6 & HA7). exists k1, kref, fd.
    do 6 (split; [done|]). by eapply run_groups_keeps; [apply holds_kept| |].
  - by rewrite !visible_replay, fmap_app, concat_app, fold_left_app, Hack.
Qed.

(** A call that succeeds extends the log by its record, if it has entries. *)
Lemma call_session `{!CpuSpec C} k0 d imgs ds o : session k0 d imgs ds ->
  batch_wf (call_batch o) -> encodable (entries_ (call_batch o)) ->
  zlen (concat imgs) + 21 + zlen (entries_bytes (entries_ (call_batch o))) < 2 ^ 62 ->
  nextSequence_ (w_db (db_world d)) + zlen (entries_ (call_batch o)) < 2 ^ 64 ->
  exists d' s, db_call d o = Some (d', s) /\ (Status.ok s = true -> exists imgs' ds', session k0 d' imgs' ds' /\
    zlen (concat imgs') <= zlen (concat imgs) + 21 + zlen (entries_bytes (entries_ (call_batch o))) /\
    nextSequence_ (w_db (db_world d')) <= nextSequence_ (w_db (db_world d)) + zlen (entries_ (call_batch o)) /\
    visible (replay ds') = fold_left kv_apply (entries_ (call_batch o)) (visible (replay ds))).
Proof.
  intros Hses Hwf Henc Hb Hn. unfold db_call. rewrite do_call_batch.
  destruct (Write_idle (db_client d) (call_batch o) (ss_idle _ _ _ _ Hses)) as (q & Hq & ->).
  destruct (await_ready (call_batch o)) eqn:Hr.
  { unfold await_ready in Hr. apply bool_decide_eq_true in Hr. cbn [mbind option_bind]. do 2 eexists. split; [done|].
    intros _. exists imgs, ds. replace (with_client d (db_client d)) with d by (by destruct d). rewrite Hr. cbn.
    split; [done|]. split; [lia|]. split; [lia|done]. }
  assert (all_entries [call_batch o] = entries_ (call_batch o)) as He by (unfold all_entries; cbn; by rewrite app_nil_r).
  destruct (groups_session k0 d imgs ds [[call_batch o]] q Hses Hq) as (w & ss & E1 & Hok);
    [apply Forall_singleton; split; [by apply Forall_singleton|by rewrite He]
    |cbn [groups_bytes groups_entries fold_right]; rewrite He; lia..|].
  cbn in E1. cbn [db_client c_world]. destruct (writeGroup (db_world d) [call_batch o]) as [[w' s]|]; [|done].
  cbn [mbind option_bind] in E1 |- *. injection E1 as <- <-. do 2 eexists. split; [done|]. intros Hs.
  destruct Hok as (imgs' & ds' & Hses' & Hb' & Hn' & Hv); [by constructor|]. exists imgs', ds'.
  cbn [groups_bytes groups_entries acknowledged fold_right] in Hb', Hn', Hv. rewrite He in Hb', Hn', Hv. rewrite Hs, app_nil_r in Hv. cbn [db_world with_client c_world].
  split; [done|]. split; [lia|]. split; [lia|done].
Qed.

(** *** A whole life *)

(** Files up to [cap] bytes are read by one request. *)
Context `{!CpuSpec C} (cap : Z) (Hcap : cap < 2 ^ 62).
Context (Hfull : forall f, zlen (content f) <= cap -> reads_in_full (E := UringSys K) f).

(** The answers are the map's and everything acquired was released; or there was an error. *)
Definition ends_well (k0 : K) (m : gmap bytes bytes) (events : list event) (k : K) (a : answer) : Prop :=
  match a with
  | Answered rs => rs = map_answers m events /\ same_resources (last_boot k0 events) k
  | Refused (Some s) => Status.ok s = false
  | Refused None => True
  end.

Lemma last_boot_same k1 k2 events : same_resources k1 k2 -> same_resources (last_boot k1 events) (last_boot k2 events).
Proof. revert k1 k2. induction events as [|[]]; intros k1 k2 H; cbn; auto. done. Qed.

Lemma events_nonneg (events : list (event (K := K))) : 0 <= events_bytes events /\ 0 <= events_sequences events.
Proof. induction events as [|[]]; cbn; unfold events_bytes, events_sequences in *; lia. Qed.

(** The events are followed to their end from any session. *)
Definition followed (events : list event) : Prop := forall k0 (d : DB K) imgs ds, session k0 d imgs ds -> Forall event_ok events ->
  zlen (concat imgs) + events_bytes events <= cap -> nextSequence_ (w_db (db_world d)) + events_sequences events + 1 < 2 ^ 64 ->
  exists k f a, live d events = Some (k, f, a) /\ ends_well k0 (visible (replay ds)) events k a.

(** A start, if the events after it can be followed. *)
Lemma start_followed events k0 f options imgs ds tail n : followed events -> Forall event_ok events ->
  2 <= uringEntries options -> no_record tail -> log_below n imgs ds -> holds_log f (concat imgs) ->
  content f = concat imgs ++ tail -> zlen (concat imgs) + zlen tail + events_bytes events <= cap ->
  0 <= n -> n + 1 + events_sequences events + 1 < 2 ^ 64 ->
  exists k f' a, opened (DB_Open k0 f options) (fun d => live d events) = Some (k, f', a) /\
    ends_well k0 (visible (replay ds)) events k a.
Proof.
  intros IH Hacts Hen Htail Hlog Hf Hc Hb Hn0 Hn. pose proof (events_nonneg events) as [? ?].
  assert (zlen (content f) <= cap) as Hlen by (rewrite Hc; len).
  destruct (open_intact k0 f options imgs ds tail n) as (k & f' & r & -> & Hr); try done; [lia|by apply Hfull|lia|].
  cbn [opened mbind option_bind]. destruct r as [[d|s]|]; [|by do 3 eexists..].
  destruct Hr as [Hses Hnext]. apply (IH k0 d imgs ds Hses Hacts); lia.
Qed.

Lemma live_spec events : followed events.
Proof.
  induction events as [|a events IH]; intros k0 d imgs ds Hses Hok Hb Hn; cbn [live].
  { destruct (destroy_spec k0 d) as (k & f & -> & F & M & _); [apply Hses|apply (inv_io _ _ _ (ss_inv _ _ _ _ Hses))|].
    do 3 eexists. split; [reflexivity|]. done. }
  pose proof (events_nonneg events) as [Hb0 Hs0]. apply Forall_cons in Hok as [Ha Hok].
  pose proof (inv_next _ _ _ (ss_inv _ _ _ _ Hses)) as Hnx.
  destruct a as [o|key|tail options|k tail options]; cbn [events_bytes events_sequences fold_right event_ok] in Hb, Hn, Ha;
    fold (events_bytes events) (events_sequences events) in Hb, Hn.
  - destruct (call_session k0 d imgs ds o Hses) as (d' & s & -> & Hcall); [apply Ha|apply Ha|lia..|].
    cbn [mbind option_bind]. destruct (Status.ok s) eqn:Hs; [|by do 3 eexists].
    destruct (Hcall eq_refl) as (imgs' & ds' & Hses' & Hb' & Hn' & Hv).
    destruct (IH k0 d' imgs' ds' Hses' Hok) as (k & f & a & -> & Ha'); [lia..|]. rewrite Hv in Ha'. by do 3 eexists.
  - destruct (IH k0 d imgs ds Hses Hok) as (k & f & a & E1 & Ha'); [lia..|].
    unfold db_Get, client_Get, db_client. cbn [c_world]. rewrite (DB_Get_inv _ _ _ key (ss_inv _ _ _ _ Hses)). cbn [mbind option_bind].
    rewrite E1. cbn [mbind option_bind]. do 3 eexists. split; [reflexivity|].
    destruct a as [rs|]; [|done]. destruct Ha' as [-> Ha']. done.
  - destruct (destroy_spec k0 d) as (k & f & -> & F & M & Hc & Hl); [apply Hses|apply (inv_io _ _ _ (ss_inv _ _ _ _ Hses))|].
    cbn [mbind option_bind]. rewrite (ss_end _ _ _ _ Hses) in Hc.
    destruct (Hl _ (inv_file _ _ _ (ss_inv _ _ _ _ Hses))) as [Hp1 Hp2].
    destruct (start_followed events k (mkFile (content f ++ tail) (durable f)) options imgs ds tail
      (nextSequence_ (w_db (db_world d))) IH Hok) as (k' & f' & a & -> & Ha'); try apply Ha; try lia.
    { by eapply session_below. }
    { split; cbn; [|done]. rewrite Hc. by apply prefix_app_r. }
    { cbn. by rewrite Hc. }
    do 3 eexists. split; [reflexivity|]. destruct a as [rs|]; [|done]. destruct Ha' as [-> Ha']. split; [done|].
    eapply same_trans; [|exact Ha']. by apply (last_boot_same k0 k events).
  - rewrite (ss_end _ _ _ _ Hses).
    apply (start_followed events k _ options imgs ds tail (nextSequence_ (w_db (db_world d))) IH Hok); try apply Ha; try lia.
    + by eapply session_below.
    + split; by apply prefix_app_r.
    + done.
Qed.


(** *** Threads, and a restart *)

(** The batches of all writers that came, after a restart. *)
Lemma concurrent_restart (k0 : K) options k f d s gs options2 :
  2 <= uringEntries options -> 2 <= uringEntries options2 ->
  DB_Open k0 empty_file options = Some (k, f, Returned (RValue d)) ->
  reachable writeGroup options (db_world d) s -> finished s -> s_loop s = LGone ->
  Forall (fun g => Status.ok (done_status g) = true) (s_written s) ->
  written_batches s = Some gs -> Forall group_ok gs -> groups_bytes gs <= cap -> groups_entries gs + 2 < 2 ^ 64 ->
  exists k1 f1 k2 f2 r, DB_destroy (with_client d (mkClient (s_q s) (s_world s))) = Some (k1, f1) /\ same_resources k0 k1 /\
    NoDup (s_came s) /\ concat (done_group <$> s_written s) = s_came s /\
    DB_Open k1 f1 options2 = Some (k2, f2, r) /\
    match r with
    | Returned (RValue d2) =>
        forall key, db_Get d2 key = Some (kv_get (fold_left kv_apply (concat (all_entries <$> gs)) ∅) key)
    | Returned (RStatus st) => Status.ok st = false
    | Threw => True
    end.
Proof.
  intros Hen Hen2 Hopen Hr Hfin Hgone Hok Hgs Hgok Hb Hn.
  assert (0 <= groups_bytes gs /\ 0 <= groups_entries gs) as [? ?] by apply groups_nonneg.
  destruct (open_intact k0 empty_file options [] [] [] 0) as (k' & f' & r & E1 & Hses); try done; [apply Hfull; cbn; lia|].
  rewrite Hopen in E1. injection E1 as <- <- <-. destruct Hses as [Hses Hnx].
  destruct (groups_session k0 d [] [] gs Queue_new Hses) as (w & ss & E1 & Hafter); try done; [cbn; lia|lia|].
  pose proof (reachable_inv _ _ _ _ Hr) as [_ [_ Hnd _] [(gs' & Hg & Hrun) _] _ _].
  assert (written_batches s = Some gs') as Hgs' by (by apply mapM_Some). rewrite Hgs in Hgs'. injection Hgs' as <-.
  rewrite run_writes_groups, E1 in Hrun. injection Hrun as Hw Hss. subst w ss.
  destruct Hafter as (imgs & ds & Hses' & Hb' & Hn' & Hv); [by apply Forall_fmap|].
  rewrite acknowledged_ok in Hv; [|rewrite length_fmap; symmetry; by eapply Forall2_length|by apply Forall_fmap].
  pose proof (ss_inv _ _ _ _ Hses') as Hinv.
  destruct (destroy_spec k0 _ (ss_owns _ _ _ _ Hses') (inv_io _ _ _ Hinv)) as (k1 & f1 & Ed & F & M & Hc & Hl).
  rewrite (ss_end _ _ _ _ Hses') in Hc. cbn in Hb'.
  destruct (open_intact k1 f1 options2 imgs ds [] (nextSequence_ (w_db (s_world s)))) as (k2 & f2 & r & E2 & Hr2); try done.
  { rewrite Hc. lia. } { apply Hfull. rewrite Hc. lia. } { pose proof (inv_next _ _ _ Hinv). cbn in *. lia. } { lia. }
  { apply (session_below _ _ _ _ Hses'). } { apply Hl, Hinv. } { by rewrite app_nil_r. }
  exists k1, f1, k2, f2, r. split; [exact Ed|]. do 2 (split; [done|]). split; [|split; [done|]].
  - by eapply finished_came.
  - destruct r as [[d2|]|]; [|done..]. destruct Hr2 as [Hses2 _]. intros key.
    unfold db_Get, client_Get, db_client. cbn [c_world]. by rewrite (DB_Get_inv _ _ _ key (ss_inv _ _ _ _ Hses2)), Hv.
Qed.


(** *** Threads with keys of their own *)

Lemma fold_distinct es : forall m e, NoDup (entry_key <$> es) -> e ∈ es ->
  fold_left kv_apply es m !! entry_key e = match entry_type e with kPut => Some (entry_value e) | kDelete => None end.
Proof.
  induction es as [|x es IH] using rev_ind; intros m e Hnd He; [by apply not_elem_of_nil in He|].
  rewrite fmap_app in Hnd. apply NoDup_app in Hnd as (Hnd & Hx & _). rewrite fold_left_app. cbn [fold_left]. rewrite kv_apply_lookup.
  apply elem_of_app in He as [He|<-%list_elem_of_singleton]; [|by rewrite decide_True].
  rewrite decide_False; [by apply IH|]. intros Heq. apply (Hx (entry_key e)); [by apply list_elem_of_fmap_2|].
  rewrite <- Heq. by apply list_elem_of_singleton.
Qed.

Lemma entries_bytes_perm es es' : es ≡ₚ es' -> zlen (entries_bytes es) = zlen (entries_bytes es').
Proof. induction 1; rewrite ?entries_bytes_cons; len. Qed.

Lemma all_entries_concat gs : all_entries (concat gs) = concat (all_entries <$> gs).
Proof. induction gs as [|g gs IH]; [done|]. cbn [concat fmap list_fmap]. by rewrite all_entries_app, IH. Qed.

(** Batches that fit one record fit the log however they are grouped. *)
Lemma groups_within gs : Forall batch_wf (concat gs) -> encodable (all_entries (concat gs)) -> Forall (fun g => g <> []) gs ->
  Forall group_ok gs /\ groups_bytes gs <= 21 * zlen (concat gs) + zlen (entries_bytes (all_entries (concat gs))) /\
  groups_entries gs = zlen (all_entries (concat gs)).
Proof.
  induction gs as [|g gs IH]; intros Hwf Henc Hne; [done|]. apply Forall_cons in Hne as [Hg Hne].
  cbn [concat] in *. apply Forall_app in Hwf as [Hwf1 Hwf2]. unfold encodable in *. rewrite all_entries_app, entries_bytes_app, length_app in *.
  destruct IH as (H1 & H2 & H3); [done|lia|done|]. split; [|split].
  - constructor; [|done]. split; [done|]. unfold encodable. lia.
  - cbn [groups_bytes fold_right]. fold (groups_bytes gs). destruct g; [done|]. len.
  - cbn [groups_entries fold_right]. fold (groups_entries gs). len.
Qed.

(** Threads that write keys of their own find them after a restart. If no two of the
    batches the threads write share a key, then after the destructor and another [Open]
    every key holds what its thread gave it, whatever the interleaving and the grouping. *)
Lemma threads_find_their_keys (k0 : K) options k f d s bs options2 :
  2 <= uringEntries options -> 2 <= uringEntries options2 ->
  DB_Open k0 empty_file options = Some (k, f, Returned (RValue d)) ->
  reachable writeGroup options (db_world d) s -> finished s -> s_loop s = LGone ->
  Forall (fun g => Status.ok (done_status g) = true) (s_written s) ->
  batches_of (s_heap s) (s_came s) = Some bs -> Forall batch_wf bs -> NoDup (entry_key <$> all_entries bs) ->
  21 * zlen bs + zlen (entries_bytes (all_entries bs)) <= Z.min cap (2 ^ 32 - 13) ->
  exists k1 f1 k2 f2 r, DB_destroy (with_client d (mkClient (s_q s) (s_world s))) = Some (k1, f1) /\
    DB_Open k1 f1 options2 = Some (k2, f2, r) /\
    match r with
    | Returned (RValue d2) => forall e, e ∈ all_entries bs -> db_Get d2 (entry_key e) =
        Some (match entry_type e with kPut => RValue (entry_value e) | kDelete => RStatus (Status.NotFound "key not found") end)
    | Returned (RStatus st) => Status.ok st = false
    | Threw => True
    end.
Proof.
  intros Hen Hen2 Hopen Hr Hfin Hgone Hok Hbs Hwf Hkeys Hb. pose proof (length_entries_bytes (all_entries bs)).
  pose proof (reachable_inv _ _ _ _ Hr) as [_ _ [(gs & Hg & _) _] _ _].
  assert (written_batches s = Some gs) as Hgs by (by apply mapM_Some).
  destruct (written_concat s _ _ Hgs) as [Hc Hne]. rewrite (finished_came _ _ _ _ Hr Hfin), Hbs in Hc. injection Hc as ->.
  destruct (groups_within gs Hwf) as (H1 & H2 & H3); [unfold encodable; lia|apply Hne; by eapply written_not_empty|].
  destruct (concurrent_restart k0 options k f d s gs options2) as (k1 & f1 & k2 & f2 & r & Hd & _ & _ & _ & Ho & Hget); try done; [lia..|].
  exists k1, f1, k2, f2, r. do 2 (split; [done|]). destruct r as [[d2|]|]; [|done..]. intros e He.
  rewrite Hget, <- all_entries_concat. unfold kv_get. rewrite (fold_distinct _ ∅ e Hkeys He). by destruct (entry_type e).
Qed.


End Session.
