(* ===== verification/UringConcurrent.v ===== *)
(** * Several operations in flight (src/io/uring_executor.cc)

    Any number of threads await operations of one executor. [sqMutex] lets one of them
    submit at a time; the kernel completes requests in any order the links allow; the
    completion thread hands the results over and resumes the coroutines. The steps below
    are those of [submitRaw], [submitLinked] and [completionLoop], cut where another
    thread can come in: behind the store that publishes the requests. *)

From stdpp Require Import relations.
From S2P Require Import Prelude Status Coding Crc32c WriteBatch Wal Io UringExecutor UringKernel UringFacts.

(** ** What the kernel did

    The steps of the kernel, with the list of requests it completed and their results. *)

Record event := mkEvent { ev_sqe : sqe; ev_cancelled : bool; ev_res : Z }.

Inductive klstep : kview * list event -> kview * list event -> Prop :=
  | kl_consume I m f s l : sq_head m <> sq_tail m -> sq_slot m (sq_head m) = Some s ->
      klstep ((I, m, f), l) ((I ++ [(s, false)], set_sq_head m (u32 (sq_head m + 1)), f), l)
  | kl_complete pre s c post m m' f f' b' r l : link_free pre -> completes s c r f f' (userbuf m) b' ->
      post_cqe m (mkCqe (user_data s) r) b' = Some m' ->
      klstep ((pre ++ (s, c) :: post, m, f), l)
        ((pre ++ sever (linked s && (c || severs s r)) post, m', f'), l ++ [mkEvent s c r])
  | kl_writeback I m f f' l : writeback f f' -> klstep ((I, m, f), l) ((I, m, f'), l)
  | kl_flags I m f fl l : klstep ((I, m, f), l) ((I, set_sq_flags m fl, f), l).

(** The results of the requests with [user_data] [a]. *)
Definition results (l : list event) (a : Z) : list Z :=
  ev_res <$> filter (fun e => user_data (ev_sqe e) = a) l.

(** ** The calls *)

(** An awaited operation: where its [Operation]s are, and its arguments. *)
Inductive request :=
  | ReqRead (a fd n off : Z)
  | ReqSync (a fd : Z)
  | ReqWrite (a1 a2 fd : Z) (mem : bytes) (iovs : list iovec) (off expectedBytes : Z).

Definition req_addrs (r : request) : list Z :=
  match r with
  | ReqRead a _ _ _ | ReqSync a _ => [a]
  | ReqWrite a1 a2 _ _ _ _ _ => [a1; a2]
  end.

(** The requests as they are in the ring. *)
Definition req_sqes (r : request) : list sqe :=
  match r with
  | ReqRead a fd n off => [with_user_data (readvSqe fd n off) a]
  | ReqSync a fd => [with_user_data (syncSqe fd) a]
  | ReqWrite a1 a2 fd mem iovs off _ =>
      [with_user_data (link_sqe (writevSqe fd mem iovs off)) a1; with_user_data (syncSqe fd) a2]
  end.

(** What [ReadAt], [FDataSync] or [WritevAndFDataSync] returns. *)
Inductive outcome := OCount (r : Result Z) | OStatus (s : StatusT).

Section Outcome.
Context {L : Libc}.

(** [await_resume] and the lines behind the [co_await]. *)
Definition req_outcome (r : request) (submitFailed : bool) (rs : list Z) : outcome :=
  match r with
  | ReqRead _ _ _ _ =>
      match singleResult submitFailed (default 0 (rs !! 0%nat)) "io_uring readv submit failed" "io_uring readv failed" with
      | RStatus s => OCount (RStatus s)
      | RValue v => OCount (RValue (u64 v))
      end
  | ReqSync _ _ =>
      match singleResult submitFailed (default 0 (rs !! 0%nat)) "io_uring fdatasync submit failed"
        "io_uring fdatasync failed" with
      | RStatus s => OStatus s
      | RValue _ => OStatus Status.Ok
      end
  | ReqWrite _ _ _ _ _ _ expectedBytes =>
      OStatus (linkedResult submitFailed (default 0 (rs !! 0%nat)) (default 0 (rs !! 1%nat)) expectedBytes)
  end.
End Outcome.

(** The coroutine is suspended, or has returned. *)
Inductive call_state := Waiting | Answered (o : outcome).

Section Steps.
Context {L : Libc} {K : Type} `{!Kernel K}.

(** [await_suspend]: the operations, in the frame of the coroutine with handle [h]. *)
Definition req_ops (h : Z) (r : request) : list (Z * Operation) :=
  match r with
  | ReqRead a fd n off => [(a, mkOperation (readvSqe fd n off) (Some h) 0)]
  | ReqSync a fd => [(a, mkOperation (syncSqe fd) (Some h) 0)]
  | ReqWrite a1 a2 fd mem iovs off _ =>
      [(a1, mkOperation (writevSqe fd mem iovs off) None 0); (a2, mkOperation (syncSqe fd) (Some h) 0)]
  end.

Definition with_heap (x : Exec K) (heap : gmap Z Operation) : Exec K :=
  mkExec (x_mach x) (x_state x) heap (x_phase x) (x_resumed x).

Definition with_mach (x : Exec K) (m : mach K) : Exec K :=
  mkExec m (x_state x) (x_heap x) (x_phase x) (x_resumed x).

Definition place_ops (x : Exec K) (h : Z) (r : request) : Exec K :=
  with_heap x (list_to_map (req_ops h r) ∪ x_heap x).

(** The frame is gone. *)
Definition drop_ops (x : Exec K) (r : request) : Exec K :=
  with_heap x (foldr delete (x_heap x) (req_addrs r)).

(** [submitRaw] up to the store to the tail; [false]: the ring is full. *)
Definition pushRaw (m : mach K) (source : sqe) (userData : Z) : option (mach K * bool) :=
  let '(m, tail) := loadAcquire m sq_tail in
  let '(m, head) := loadAcquire m sq_head in
  if u32 (tail - head) >=? sq_ringEntries (m_shm m) then Some (m, false) else
  let index := Z.land tail (sq_ringMask (m_shm m)) in
  es ← vec_set (sqes (m_shm m)) index (with_user_data source userData);
  array ← vec_set (sq_array (m_shm m)) index index;
  Some (with_shm m (set_sq (m_shm m) (u32 (tail + 1)) array es), true).

(** [submitLinked] up to the store to the tail. *)
Definition pushLinked (x : Exec K) (first second : Z) : option (Exec K * bool) :=
  let '(m, tail) := loadAcquire (x_mach x) sq_tail in
  let '(m, head) := loadAcquire m sq_head in
  if u32 (u32 (tail - head) + 2) >? sq_ringEntries (m_shm m) then Some (with_mach x m, false) else
  let firstIndex := Z.land tail (sq_ringMask (m_shm m)) in
  let secondIndex := Z.land (u32 (tail + 1)) (sq_ringMask (m_shm m)) in
  op1 ← x_heap x !! first;
  let op1 := set_op_sqe op1 (with_user_data (link_sqe (op_sqe op1)) first) in
  let heap := <[first := op1]> (x_heap x) in
  op2 ← heap !! second;
  let op2 := set_op_sqe op2 (with_user_data (op_sqe op2) second) in
  let heap := <[second := op2]> heap in
  es ← vec_set (sqes (m_shm m)) firstIndex (op_sqe op1);
  es ← vec_set es secondIndex (op_sqe op2);
  array ← vec_set (sq_array (m_shm m)) firstIndex firstIndex;
  array ← vec_set array secondIndex secondIndex;
  Some (mkExec (with_shm m (set_sq (m_shm m) (u32 (tail + 2)) array es)) (x_state x) heap (x_phase x) (x_resumed x), true).

(** Behind the store: the kernel is told, if it has to be. *)
Definition kick (m : mach K) (st : UState) (n : Z) (what : string) : mach K * StatusT :=
  if sqPollEnabled st then wakeSqPollIfNeeded m st else
  let '(m, ret) := k_enter m n 0 0 in
  (m, if ret <? 0 then Status.IoError (errnoMessage what (k_errno m)) else Status.Ok).

(** The two halves are [submitRaw] and [submitLinked]. *)
Lemma submitRaw_halves m st source userData :
  submitRaw m st source userData =
  '(m, ok) ← pushRaw m source userData;
  Some (if ok : bool then kick m st 1 "io_uring_enter submit"
        else (m, Status.IoError "io_uring submission queue is full")).
Proof.
  unfold submitRaw, pushRaw, kick, loadAcquire. destruct (_ >=? _); [done|].
  destruct (vec_set (sqes _) _ _); [|done]. cbn [mbind option_bind].
  destruct (vec_set (sq_array _) _ _); [|done]. cbn [mbind option_bind].
  destruct (sqPollEnabled st); [done|]. destruct (k_enter _ _ _ _) as [m' ret]. by destruct (ret <? 0).
Qed.

Lemma submitLinked_halves x first second :
  submitLinked x false first second =
  if ringFd (x_state x) <? 0 then Some (x, Status.IoError "io_uring executor is closed") else
  '(x, ok) ← pushLinked x first second;
  Some (if ok : bool then
          let '(m, s) := kick (x_mach x) (x_state x) 2 "io_uring_enter submit linked" in (with_mach x m, s)
        else (x, Status.IoError "io_uring submission queue is full")).
Proof.
  unfold submitLinked, pushLinked, kick, loadAcquire. cbn [orb]. destruct (ringFd _ <? 0); [done|].
  destruct (_ >? _); [done|].
  destruct (x_heap x !! first); [|done]. cbn [mbind option_bind]. destruct (_ !! second); [|done]. cbn [mbind option_bind].
  destruct (vec_set (sqes _) _ _) as [es|]; [|done]. cbn [mbind option_bind].
  destruct (vec_set es _ _); [|done]. cbn [mbind option_bind].
  destruct (vec_set (sq_array _) _ _) as [array|]; [|done]. cbn [mbind option_bind].
  destruct (vec_set array _ _); [|done]. cbn [mbind option_bind].
  cbn [x_mach x_state]. destruct (sqPollEnabled (x_state x)).
  - by destruct (wakeSqPollIfNeeded _ _).
  - by destruct (k_enter _ _ _ _) as [m' ret].
Qed.

Definition push_request (x : Exec K) (r : request) : option (Exec K * bool) :=
  match r with
  | ReqRead a _ _ _ | ReqSync a _ =>
      op ← x_heap x !! a;
      '(m, ok) ← pushRaw (x_mach x) (op_sqe op) a;
      Some (with_mach x m, ok)
  | ReqWrite a1 a2 _ _ _ _ _ => pushLinked x a1 a2
  end.

Definition kick_request (m : mach K) (st : UState) (r : request) : mach K * StatusT :=
  match r with
  | ReqWrite _ _ _ _ _ _ _ => kick m st 2 "io_uring_enter submit linked"
  | _ => kick m st 1 "io_uring_enter submit"
  end.

(** ** The system *)

Record ESys := mkESys {
  e_x : Exec K;
  (** Calls by the handles of their coroutines. *)
  e_calls : gmap Z (request * call_state);
  (** [sqMutex]: the coroutine whose requests are published and whose thread has not yet
      left the locked section. *)
  e_lock : option Z;
  e_log : list event;
}.

Definition start (x : Exec K) : ESys := mkESys (with_heap x ∅) ∅ None [].

(** A new coroutine: its handle and the addresses of its operations have not been used. *)
Record fresh (cs : gmap Z (request * call_state)) (h : Z) (r : request) : Prop := {
  fresh_handle : cs !! h = None;
  fresh_addrs : forall h' r' st a, cs !! h' = Some (r', st) -> a ∈ req_addrs r -> a ∉ req_addrs r';
  fresh_nodup : NoDup (req_addrs r);
  fresh_nonzero : Forall (fun a => a <> 0) (req_addrs r);
}.

Context `{!KernelSpec K}.

Definition moves (m : mach K) (l : list event) (m' : mach K) (l' : list event) : Prop :=
  rtc klstep (view m, l) (view m', l').

(** Where the kernel is when the completion thread makes its own access. *)
Definition loop_kernel (x : Exec K) : mach K :=
  match x_phase x with
  | AtEnter => (k_enter (x_mach x) 0 1 IORING_ENTER_GETEVENTS).1
  | AtDrain => k_async (k_async (x_mach x))
  | Exited => x_mach x
  end.

Inductive cstep : ESys -> ESys -> Prop :=
  (** [await_suspend] up to the store that publishes the requests, with [sqMutex] held. *)
  | Push x cs l h r x' l' : fresh cs h r ->
      moves (x_mach x) l (k_async (k_async (x_mach x))) l' ->
      push_request (place_ops x h r) r = Some (x', true) ->
      cstep (mkESys x cs None l) (mkESys x' (<[h := (r, Waiting)]> cs) (Some h) l')
  (** The ring is full: the call returns. *)
  | PushFull x cs l h r x' l' : fresh cs h r ->
      moves (x_mach x) l (k_async (k_async (x_mach x))) l' ->
      push_request (place_ops x h r) r = Some (x', false) ->
      cstep (mkESys x cs None l) (mkESys (drop_ops x' r) (<[h := (r, Answered (req_outcome r true []))]> cs) None l')
  (** The rest of the locked section. *)
  | Kick x cs l h r st m' s l' : cs !! h = Some (r, st) ->
      kick_request (x_mach x) (x_state x) r = (m', s) -> moves (x_mach x) l m' l' -> Status.ok s = true ->
      cstep (mkESys x cs (Some h) l) (mkESys (with_mach x m') cs None l')
  | KickFails x cs l h r st m' s l' : cs !! h = Some (r, st) ->
      kick_request (x_mach x) (x_state x) r = (m', s) -> moves (x_mach x) l m' l' -> Status.ok s = false ->
      cstep (mkESys x cs (Some h) l)
        (mkESys (drop_ops (with_mach x m') r) (<[h := (r, Answered (req_outcome r true []))]> cs) None l')
  (** One step of the completion thread. *)
  | Round x cs lk l x' l' : completionLoop x = Some x' -> moves (x_mach x) l (loop_kernel x) l' ->
      cstep (mkESys x cs lk l) (mkESys x' cs lk l')
  (** A coroutine that was resumed reads its results, returns and is gone. *)
  | Return_ x cs lk l h r rs : cs !! h = Some (r, Waiting) -> h ∈ x_resumed x ->
      mapM (fun a => op_result <$> x_heap x !! a) (req_addrs r) = Some rs ->
      cstep (mkESys x cs lk l) (mkESys (drop_ops x r) (<[h := (r, Answered (req_outcome r false rs))]> cs) lk l)
  (** The kernel by itself. *)
  | Async x cs lk l l' : moves (x_mach x) l (k_async (x_mach x)) l' ->
      cstep (mkESys x cs lk l) (mkESys (with_mach x (k_async (x_mach x))) cs lk l').

End Steps.
Arguments ESys K : clear implicits.
