(* ===== verification/UringSqPoll.v ===== *)
(** * Waking the submission thread (src/io/uring_executor.cc)

    With [IORING_SETUP_SQPOLL] a thread of the kernel looks for requests. When it finds none
    for some time it sets [IORING_SQ_NEED_WAKEUP], looks once more, and sleeps until it is
    woken. [submitRaw] and [submitLinked] publish the new tail with a release store and then
    [wakeSqPollIfNeeded] reads the flags with an acquire load. Neither C++ nor the processors
    it runs on promise that the store is visible before the load is made: here it waits in
    a store buffer, and other threads see it when the buffer is drained. *)

From stdpp Require Import relations.
From S2P Require Import Prelude UringExecutor.

(** The submitting thread: outside, behind the store to the tail, or behind a load of the
    flags that found the bit set. *)
Inductive submit_pc := SOutside | SPublished | SMustWake.

(** The kernel's thread: looking for requests, behind setting the bit (and a full barrier),
    or asleep. *)
Inductive poll_pc := KPolling | KArmed | KAsleep.

Record PollSys := mkPoll {
  (** What the memory holds of the ring, and the tails that are on their way there. *)
  p_head : Z;
  p_tail : Z;
  p_flags : Z;
  p_buffer : list Z;
  p_submit : submit_pc;
  p_poll : poll_pc;
}.

(** The submitter reads its own stores. *)
Definition own_tail (s : PollSys) : Z := default (p_tail s) (last (p_buffer s)).

Definition set_bit (flags : Z) : Z := Z.lor flags IORING_SQ_NEED_WAKEUP.
Definition clear_bit (flags : Z) : Z := Z.ldiff flags IORING_SQ_NEED_WAKEUP.

(** [wakeSqPollIfNeeded], the test. *)
Definition asleep_bit (flags : Z) : bool := negb (Z.land flags IORING_SQ_NEED_WAKEUP =? 0).

(** The kernel's thread takes the next request; it sets the bit when there is none; it looks
    again; it sleeps. *)
Inductive poll_step : PollSys -> PollSys -> Prop :=
  | PollTake h t fl b c : h <> t ->
      poll_step (mkPoll h t fl b c KPolling) (mkPoll (u32 (h + 1)) t fl b c KPolling)
  | PollArm h fl b c : poll_step (mkPoll h h fl b c KPolling) (mkPoll h h (set_bit fl) b c KArmed)
  | PollAgain h t fl b c : h <> t -> poll_step (mkPoll h t fl b c KArmed) (mkPoll h t (clear_bit fl) b c KPolling)
  | PollSleep h fl b c : poll_step (mkPoll h h fl b c KArmed) (mkPoll h h fl b c KAsleep).

(** The submitter. [fenced] puts a full barrier between the store and the load; the code
    does not have one. The system call is one. *)
Inductive submit_step (fenced : bool) : PollSys -> PollSys -> Prop :=
  | Publish s n : p_submit s = SOutside -> n = 1 \/ n = 2 ->
      submit_step fenced s (mkPoll (p_head s) (p_tail s) (p_flags s) (p_buffer s ++ [u32 (own_tail s + n)]) SPublished (p_poll s))
  | LoadFlags h t fl b k : (fenced = true -> b = []) ->
      submit_step fenced (mkPoll h t fl b SPublished k)
        (mkPoll h t fl b (if asleep_bit fl then SMustWake else SOutside) k)
  | EnterWakeup h t fl k :
      submit_step fenced (mkPoll h t fl [] SMustWake k)
        (mkPoll h t (match k with KPolling => fl | _ => clear_bit fl end) [] SOutside KPolling).

Inductive drain_step : PollSys -> PollSys -> Prop :=
  | Drain h t fl t' b c k : drain_step (mkPoll h t fl (t' :: b) c k) (mkPoll h t' fl b c k).

Definition pstep (fenced : bool) (s s' : PollSys) : Prop :=
  submit_step fenced s s' \/ poll_step s s' \/ drain_step s s'.

Definition poll_start (h : Z) : PollSys := mkPoll h h 0 [] SOutside KPolling.

(** A request is in the ring, everybody can see it, and nobody will look. *)
Definition forgotten (s : PollSys) : Prop :=
  p_submit s = SOutside /\ p_buffer s = [] /\ p_poll s = KAsleep /\ p_head s <> p_tail s.

Lemma asleep_set fl : asleep_bit (set_bit fl) = true.
Proof.
  unfold asleep_bit, set_bit. rewrite Z.land_lor_distr_l. destruct (Z.eqb_spec (Z.lor (Z.land fl IORING_SQ_NEED_WAKEUP)
    (Z.land IORING_SQ_NEED_WAKEUP IORING_SQ_NEED_WAKEUP)) 0) as [E|]; [|done]. by apply Z.lor_eq_0_iff in E as [_ ?].
Qed.

(** With the barrier: who is outside has no store pending, who sleeps has set the bit, and
    a thread that sleeps over a request has a submitter that will wake it. *)
Record fenced_inv (s : PollSys) : Prop := {
  fi_buffer : p_submit s <> SPublished -> p_buffer s = [];
  fi_bit : p_poll s <> KPolling -> asleep_bit (p_flags s) = true;
  fi_seen : p_poll s = KAsleep -> p_submit s = SOutside -> p_head s = p_tail s;
}.

Lemma fenced_step s s' : fenced_inv s -> pstep true s s' -> fenced_inv s'.
Proof.
  intros [Hb Hf Hs] [H|[H|H]]; destruct H; cbn in *; split; cbn; intros;
    rewrite ?asleep_set; repeat match goal with H : context [if ?b then _ else _] |- _ => destruct b eqn:? end;
    naive_solver congruence.
Qed.

Lemma fenced_reachable h s : rtc (pstep true) (poll_start h) s -> fenced_inv s.
Proof. revert s. apply (rtc_ind_r fenced_inv); [by split|]. intros. by eapply fenced_step. Qed.

(** C39: a submission can be forgotten in polling mode. The new tail is published by a
    release store and the flags are read by an acquire load, which does not wait for it:
    the load may find the bit clear before the kernel's thread sets it, while that thread,
    which cannot see the tail yet, finds no request and goes to sleep. Nobody wakes it, and
    the call never returns. With a full barrier between the two accesses, which the code
    does not have, this cannot happen. *)
Theorem sqpoll_submission_forgotten h :
  (exists s, rtc (pstep false) (poll_start (u32 h)) s /\ forgotten s) /\
  (forall s, rtc (pstep true) (poll_start (u32 h)) s -> ~ forgotten s).
Proof.
  split.
  - eexists. split.
    + eapply rtc_l; [left; apply (Publish _ _ 1); [done|by left]|]. eapply rtc_l; [left; by apply LoadFlags|].
      eapply rtc_l; [right; left; apply PollArm|]. eapply rtc_l; [right; left; apply PollSleep|].
      eapply rtc_l; [right; right; apply Drain|]. apply rtc_refl.
    + split; [done|]. split; [done|]. split; [done|]. cbn. unfold u32. Z.to_euclidean_division_equations. lia.
  - intros s Hs (H1 & _ & H3 & H4). by destruct (fenced_reachable _ _ Hs) as [_ _ Hi]; apply H4, Hi.
Qed.
