(* ===== verification/UringHistory.v ===== *)
(** * What a history of requests leaves in the file

    The kernel's history decides what the file holds: bytes that were written in full and
    synced stay, as long as nothing behind them in the history touches them. *)

From S2P Require Import Prelude Status Coding Crc32c WriteBatch Wal Io UringExecutor UringKernel UringConcurrent.

(** ** The file *)

(** The file after the requests of a history, from [f0] on. *)
Inductive history (f0 : file) : list event -> file -> Prop :=
  | hist_start : history f0 [] f0
  | hist_back l f f' : history f0 l f -> writeback f f' -> history f0 l f'
  | hist_event l f f' s c r b b' : history f0 l f -> completes s c r f f' b b' ->
      history f0 (l ++ [mkEvent s c r]) f'.

(** *** Regions of the file *)

Definition in_content (f : file) (off : Z) (data : bytes) : Prop :=
  forall i b, data !! i = Some b -> content f !! (Z.to_nat off + i)%nat = Some b.

(** The bytes are in the file, and on the device. *)
Definition stored (f : file) (off : Z) (data : bytes) : Prop :=
  in_content f off data /\ in_content (mkFile (durable f) []) off data.

Lemma pwrite_inside c off data i b : data !! i = Some b -> pwrite c off data !! (Z.to_nat off + i)%nat = Some b.
Proof.
  intros Hi. unfold pwrite. pose proof (lookup_lt_Some _ _ _ Hi).
  assert (length (take (Z.to_nat off) (c ++ replicate (Z.to_nat off - length c) Byte.x00)) = Z.to_nat off) as Hl
    by (rewrite length_take, length_app, length_replicate; lia).
  rewrite lookup_app_r, Hl by lia. rewrite lookup_app_l by lia. by replace (Z.to_nat off + i - Z.to_nat off)%nat with i by lia.
Qed.

Lemma pwrite_outside c off data j b : c !! j = Some b ->
  (j < Z.to_nat off)%nat \/ (Z.to_nat off + length data <= j)%nat -> pwrite c off data !! j = Some b.
Proof.
  intros Hj Ho. unfold pwrite. pose proof (lookup_lt_Some _ _ _ Hj).
  assert (length (take (Z.to_nat off) (c ++ replicate (Z.to_nat off - length c) Byte.x00)) = Z.to_nat off) as Hl
    by (rewrite length_take, length_app, length_replicate; lia).
  destruct Ho as [Ho|Ho].
  - rewrite lookup_app_l, lookup_take_lt, lookup_app_l by lia. done.
  - rewrite lookup_app_r, Hl, lookup_app_r, lookup_drop by lia. rewrite <- Hj. f_equal. lia.
Qed.

Lemma writeback_region f f' off data : writeback f f' ->
  (in_content f off data -> in_content f' off data) /\ (stored f off data -> stored f' off data).
Proof.
  intros [Hc Hd]. unfold stored, in_content. cbn [content]. rewrite Hc. split; [done|]. intros [H1 H2]. split; [done|].
  intros i b Hi. destruct (Hd (Z.to_nat off + i)%nat) as [-> | ->]; auto.
Qed.

(** A request that leaves the region alone, whatever it does. *)
Definition away (off : Z) (len : nat) (e : event) : Prop :=
  opcode (ev_sqe e) = IORING_OP_WRITEV ->
  (Z.to_nat off + len <= Z.to_nat (sqe_off (ev_sqe e)))%nat \/
  (0 <= ev_res e /\ forall mem iovs data, sqe_addr (ev_sqe e) = IovecArray mem iovs -> materializeIovecs mem iovs = Some data ->
     (Z.to_nat (sqe_off (ev_sqe e)) + length data <= Z.to_nat off)%nat).

Lemma same_below_lookup off f f' i : same_below off f f' -> (i < Z.to_nat off)%nat ->
  content f' !! i = content f !! i /\ durable f' !! i = durable f !! i.
Proof.
  intros [H1 H2] Hi. split; [rewrite <- (lookup_take_lt (content f') (Z.to_nat off)), H1|
    rewrite <- (lookup_take_lt (durable f') (Z.to_nat off)), H2]; by try apply lookup_take_lt.
Qed.

Lemma away_region off data s c r f f' b b' : away off (length data) (mkEvent s c r) -> completes s c r f f' b b' ->
  (in_content f off data -> in_content f' off data) /\ (stored f off data -> stored f' off data).
Proof.
  intros Haw H. unfold completes in H. destruct c; [by destruct H as (_ & -> & _)|].
  unfold away in Haw. cbn [ev_sqe ev_res] in Haw.
  destruct H as [r f b b'|r f f' b Hop Hr Hsb|r f b mem iovs d Hop Ha _ Hd Hr| | |]; try done.
  - destruct (Haw Hop) as [Hle|[? _]]; [|lia]. unfold stored, in_content. cbn [content].
    assert (forall i x, data !! i = Some x -> (Z.to_nat off + i < Z.to_nat (sqe_off s))%nat) as Hlt.
    { intros i x Hi. apply lookup_lt_Some in Hi. lia. }
    split; [intros H1|intros [H1 H2]; split]; intros i x Hi; destruct (same_below_lookup _ _ _ _ Hsb (Hlt i x Hi)) as [E1 E2];
      rewrite ?E1, ?E2; auto.
  - assert (forall i x y, data !! i = Some x -> content f !! (Z.to_nat off + i)%nat = Some y ->
      pwrite (content f) (sqe_off s) (take (Z.to_nat r) d) !! (Z.to_nat off + i)%nat = Some y) as Hkeep.
    { intros i x y Hi Hy. apply pwrite_outside; [done|]. apply lookup_lt_Some in Hi. rewrite length_take.
      destruct (Haw Hop) as [Hle|[_ Hle]]; [lia|]. specialize (Hle _ _ _ Ha Hd). lia. }
    unfold stored, in_content. cbn [content durable]. split; [eauto|]. intros [H1 H2]. split; [eauto|done].
  - unfold stored, in_content. cbn [content durable]. split; [done|]. by intros [H1 _].
Qed.

(** What a history with a complete write and a sync behind it leaves, if nothing behind the
    write touches its bytes. *)
Definition wrote (off : Z) (data : bytes) (e : event) : Prop :=
  opcode (ev_sqe e) = IORING_OP_WRITEV /\ sqe_off (ev_sqe e) = off /\ ev_cancelled e = false /\ ev_res e = zlen data /\
  exists mem iovs, sqe_addr (ev_sqe e) = IovecArray mem iovs /\ materializeIovecs mem iovs = Some data.

Definition synced (e : event) : Prop := opcode (ev_sqe e) = IORING_OP_FSYNC /\ 0 <= ev_res e.

Lemma wrote_region off data s c r f f' b b' : wrote off data (mkEvent s c r) -> completes s c r f f' b b' ->
  in_content f' off data.
Proof.
  intros (Ho & <- & Hc & Hr & mem & iovs & Ha & Hd) H. cbn in *. subst c r. cbn in H.
  inversion H as [|? ? ? ? _ Hneg|? ? ? mem' iovs' d _ Ha' _ Hd' Hr'|? ? ? ? Ho'|? ? Ho'|? ? Ho']; subst;
    try (by rewrite Ho in Ho'); try lia.
  rewrite Ha in Ha'. simplify_eq. intros i x Hi. cbn. apply pwrite_inside. by rewrite Nat2Z.id, firstn_all.
Qed.

Lemma synced_region off data s c r f f' b b' : synced (mkEvent s c r) -> completes s c r f f' b b' ->
  in_content f off data -> stored f' off data.
Proof.
  intros [Ho Hr] H Hc. cbn in *. destruct c; [destruct H as (-> & _); by unfold ECANCELED in Hr|]. cbn in H.
  inversion H as [|? ? ? ? Ho' |? ? ? ? ? ? Ho'|? ? ? ? Ho'|? ? Ho'|? ? Ho']; subst; try (by rewrite Ho in Ho'); lia.
Qed.

Lemma history_stored f0 off data l f : history f0 l f -> forall l1 e1 l2, l = l1 ++ e1 :: l2 -> wrote off data e1 ->
  Forall (away off (length data)) l2 -> in_content f off data /\ (Exists synced l2 -> stored f off data).
Proof.
  intros Hh. induction Hh as [|l f f' _ IH Hw|l f f' s c r b b' _ IH Hco]; intros l1 e1 l2 E Hwr Haw.
  - by destruct l1.
  - destruct (IH _ _ _ E Hwr Haw) as [H1 H2]. destruct (writeback_region f f' off data Hw). auto.
  - destruct l2 as [|e l2 _] using rev_ind.
    + apply app_inj_tail in E as [-> <-]. split; [by eapply wrote_region|]. by intros ?%Exists_nil.
    + rewrite app_comm_cons, app_assoc in E. apply app_inj_tail in E as [-> <-].
      apply Forall_app in Haw as [Haw Hlast]. apply Forall_inv in Hlast.
      destruct (IH _ _ _ eq_refl Hwr Haw) as [H1 H2]. destruct (away_region _ _ _ _ _ _ _ _ _ Hlast Hco) as [H3 H4].
      split; [auto|]. intros [Hex|Hs]%Exists_app; [auto|].
      apply Exists_cons in Hs as [Hs|?%Exists_nil]; [by eapply synced_region|done].
Qed.
