(* ===== verification/UringConcurrentFacts.v ===== *)
(** * Every operation gets its own result

    The invariant of [UringConcurrent]: which call every request in the rings and in the
    kernel belongs to, and what the kernel's history says of it. *)

From stdpp Require Import relations.
From S2P Require Import Prelude Status Coding Crc32c WriteBatch Wal Io UringExecutor UringKernel UringFacts.
From S2P Require Import UringTheorems UringConcurrent.

(** ** Requests *)

Lemma req_user_data r : user_data <$> req_sqes r = req_addrs r.
Proof. by destruct r. Qed.

Lemma req_sqe_addr r s : s ∈ req_sqes r -> user_data s ∈ req_addrs r.
Proof. intros H. rewrite <- req_user_data. by apply list_elem_of_fmap_2. Qed.

(** The request at a given address is unique. *)
Lemma req_sqe_unique r s t : NoDup (req_addrs r) -> s ∈ req_sqes r -> t ∈ req_sqes r -> user_data s = user_data t -> s = t.
Proof.
  rewrite <- req_user_data. intros Hn [i Hs]%list_elem_of_lookup [j Ht]%list_elem_of_lookup E.
  assert (i = j) as ->; [|congruence].
  eapply NoDup_lookup; [exact Hn| |]; rewrite list_lookup_fmap; [rewrite Hs|rewrite Ht]; cbn; by rewrite ?E.
Qed.

(** Only the first one of two is linked. *)
Lemma req_linked r s : s ∈ req_sqes r -> linked s = true <-> exists s2, req_sqes r = [s; s2] /\ s <> s2.
Proof.
  intros Hs. split.
  - intros Hl. destruct r; cbn in *; [apply list_elem_of_singleton in Hs; by subst..|].
    apply elem_of_cons in Hs as [->|Hs]; [|apply list_elem_of_singleton in Hs; by subst].
    eexists. split; [done|]. done.
  - intros (s2 & E & _). destruct r; cbn in E; simplify_eq. done.
Qed.

Lemma req_second r s1 s2 : req_sqes r = [s1; s2] -> linked s1 = true /\ linked s2 = false /\
  req_addrs r = [user_data s1; user_data s2].
Proof. intros E. destruct r; cbn in E; by simplify_eq. Qed.

Lemma req_pair r a1 a2 : req_addrs r = [a1; a2] ->
  exists s1 s2, req_sqes r = [s1; s2] /\ user_data s1 = a1 /\ user_data s2 = a2.
Proof. intros E. destruct r; cbn in E; simplify_eq. by eexists _, _. Qed.

(** ** The history *)

Lemma results_app l k a : results (l ++ k) a = results l a ++ results k a.
Proof. unfold results. by rewrite filter_app, fmap_app. Qed.

Lemma results_cons e l a : results (e :: l) a =
  (if decide (user_data (ev_sqe e) = a) then [ev_res e] else []) ++ results l a.
Proof. unfold results. rewrite filter_cons. by case_decide. Qed.

Lemma results_snoc l e a : results (l ++ [e]) a =
  results l a ++ (if decide (user_data (ev_sqe e) = a) then [ev_res e] else []).
Proof. rewrite results_app, results_cons. cbn. by rewrite app_nil_r. Qed.

Lemma results_elem l a r : r ∈ results l a -> exists e, e ∈ l /\ user_data (ev_sqe e) = a /\ ev_res e = r.
Proof. intros (e & -> & [? ?]%list_elem_of_filter)%list_elem_of_fmap. eauto. Qed.

Lemma results_here l1 e l2 : exists rs1 rs2, results (l1 ++ e :: l2) (user_data (ev_sqe e)) = rs1 ++ ev_res e :: rs2 /\
  rs2 = results l2 (user_data (ev_sqe e)).
Proof. rewrite results_app, results_cons, decide_True by done. by eexists _, _. Qed.

Lemma results_none l a : (forall e, e ∈ l -> user_data (ev_sqe e) <> a) -> results l a = [].
Proof.
  intros H. destruct (results l a) as [|r rs] eqn:E; [done|].
  destruct (results_elem l a r) as (e & He & Ha & _); [rewrite E; constructor|]. by destruct (H e He).
Qed.

(** ** The invariant *)

Definition outs (R : list cqe) (T : list sqe) : list Z := (cqe_user_data <$> R) ++ (user_data <$> T).

Section Inv.
Context {L : Libc}.

(** [R]: completions not yet taken; [T]: requests in flight, then those still in the ring.
    Whose requests they are, and how linked ones lie. *)
Record owners (cs : gmap Z (request * call_state)) (R : list cqe) (T : list sqe) : Prop := {
  c_unique : forall h r st h' r' st' a, cs !! h = Some (r, st) -> cs !! h' = Some (r', st') ->
    a ∈ req_addrs r -> a ∈ req_addrs r' -> h = h';
  c_wf : forall h r st, cs !! h = Some (r, st) -> NoDup (req_addrs r) /\ Forall (fun a => a <> 0) (req_addrs r);
  c_nodup : NoDup (outs R T);
  c_owner : forall a, a ∈ outs R T -> exists h r, cs !! h = Some (r, Waiting) /\ a ∈ req_addrs r;
  c_todo : forall s, s ∈ T -> exists h r st, cs !! h = Some (r, st) /\ s ∈ req_sqes r;
  (** What is linked to a request is right behind it. *)
  c_next : forall T1 s T2, T = T1 ++ s :: T2 -> linked s = true ->
    exists h r st s2 T3, cs !! h = Some (r, st) /\ req_sqes r = [s; s2] /\ T2 = s2 :: T3;
  (** The second completes behind the first. *)
  c_behind : forall h r st a1 a2 R1 c R2, cs !! h = Some (r, st) -> req_addrs r = [a1; a2] ->
    R = R1 ++ c :: R2 -> cqe_user_data c = a2 -> a1 ∉ outs R2 T;
  c_after : forall h r a1 a2, cs !! h = Some (r, Waiting) -> req_addrs r = [a1; a2] -> a2 ∉ outs R T -> a1 ∉ outs R T;
}.

(** What the history, the operations and the resumed coroutines have to do with them. *)
Record served (cs : gmap Z (request * call_state)) (heap : gmap Z Operation) (resumed : list Z)
    (R : list cqe) (T : list sqe) (l : list event) : Prop := {
  c_pending : forall s, s ∈ T -> results l (user_data s) = [];
  c_ready : forall c, c ∈ R -> results l (cqe_user_data c) = [cqe_res c];
  c_heap : forall h r a, cs !! h = Some (r, Waiting) -> a ∈ req_addrs r -> exists op, heap !! a = Some op /\
    op_continuation op = (if decide (last (req_addrs r) = Some a) then Some h else None) /\
    (a ∉ outs R T -> results l a = [op_result op]);
  c_resumed : forall h r, cs !! h = Some (r, Waiting) ->
    h ∈ resumed <-> (forall a, last (req_addrs r) = Some a -> a ∉ outs R T);
  c_once : NoDup resumed;
  c_known : forall h, h ∈ resumed -> is_Some (cs !! h);
  c_done : forall h r o, cs !! h = Some (r, Answered o) ->
    (h ∈ resumed /\ exists rs, Forall2 (fun a x => results l a = [x]) (req_addrs r) rs /\ o = req_outcome r false rs) \/
    ((h ∉ resumed) /\ Forall (fun a => results l a = []) (req_addrs r) /\ o = req_outcome r true []);
  c_log : forall e, e ∈ l -> exists h r st, cs !! h = Some (r, st) /\ ev_sqe e ∈ req_sqes r;
  c_log_order : forall h r st s1 s2 l1 e l2, cs !! h = Some (r, st) -> req_sqes r = [s1; s2] ->
    l = l1 ++ e :: l2 -> ev_sqe e = s2 -> s1 ∈ ev_sqe <$> l1;
}.

Record calls_inv (cs : gmap Z (request * call_state)) (heap : gmap Z Operation) (resumed : list Z)
    (R : list cqe) (T : list sqe) (l : list event) : Prop := {
  c_owners :> owners cs R T;
  c_served :> served cs heap resumed R T l;
}.

#[global] Arguments c_unique {cs R T}.
#[global] Arguments c_wf {cs R T}.
#[global] Arguments c_nodup {cs R T}.
#[global] Arguments c_owner {cs R T}.
#[global] Arguments c_todo {cs R T}.
#[global] Arguments c_next {cs R T}.
#[global] Arguments c_behind {cs R T}.
#[global] Arguments c_after {cs R T}.
#[global] Arguments c_pending {cs heap resumed R T l}.
#[global] Arguments c_ready {cs heap resumed R T l}.
#[global] Arguments c_heap {cs heap resumed R T l}.
#[global] Arguments c_resumed {cs heap resumed R T l}.
#[global] Arguments c_once {cs heap resumed R T l}.
#[global] Arguments c_known {cs heap resumed R T l}.
#[global] Arguments c_done {cs heap resumed R T l}.
#[global] Arguments c_log {cs heap resumed R T l}.
#[global] Arguments c_log_order {cs heap resumed R T l}.

Lemma calls_inv_empty : calls_inv ∅ ∅ [] [] [] [].
Proof.
  split; split; try (intros; simplify_map_eq; done); try apply NoDup_nil_2; try (by intros ? ?%not_elem_of_nil).
  intros T1 s T2 E. by destruct T1.
Qed.

Section Facts.
Context {cs : gmap Z (request * call_state)} {R : list cqe} {T : list sqe} (H : owners cs R T).

Lemma same_call h r st h' r' st' a : cs !! h = Some (r, st) -> cs !! h' = Some (r', st') ->
  a ∈ req_addrs r -> a ∈ req_addrs r' -> h' = h /\ r' = r /\ st' = st.
Proof.
  intros H1 H2 H3 H4. assert (h = h') as <- by (by eapply (c_unique H)). split; [done|].
  by simplify_eq.
Qed.

(** A request that waits is not a stranger. *)
Lemma todo_waiting s : s ∈ T -> exists h r, cs !! h = Some (r, Waiting) /\ s ∈ req_sqes r.
Proof.
  intros Hs. destruct (c_todo H s Hs) as (h & r & st & Hh & Hr).
  destruct (c_owner H (user_data s)) as (h' & r' & Hh' & Hr').
  { apply elem_of_app. right. by apply list_elem_of_fmap_2. }
  pose proof (same_call _ _ _ _ _ _ _ Hh' Hh Hr' (req_sqe_addr _ _ Hr)) as (-> & -> & ->). eauto.
Qed.

(** If the first of two is in the queue, the second is right behind it. *)
Lemma first_then_second h r st s1 s2 t : cs !! h = Some (r, st) -> req_sqes r = [s1; s2] -> t ∈ T ->
  user_data t = user_data s1 -> exists T1 T3, T = T1 ++ s1 :: s2 :: T3.
Proof.
  intros Hh Hr Ht Et. destruct (req_second _ _ _ Hr) as (Hl & _ & Ha).
  destruct (c_todo H t Ht) as (h' & r' & st' & Hh' & Hr').
  pose proof (same_call h r st h' r' st' (user_data t) Hh Hh') as Hsame.
  destruct Hsame as (-> & -> & ->); [rewrite Ha, Et; constructor|by apply req_sqe_addr|].
  assert (t = s1) as ->.
  { eapply req_sqe_unique; [apply (c_wf H _ _ _ Hh)|done|rewrite Hr; constructor|done]. }
  apply list_elem_of_split in Ht as (T1 & T2 & HT).
  destruct (c_next H _ _ _ HT Hl) as (h2 & r2 & st2 & s2' & T3 & Hh2 & Hr2 & ->).
  exists T1, T3. rewrite HT. destruct (req_second _ _ _ Hr2) as (_ & _ & Ha2).
  destruct (same_call h r st h2 r2 st2 (user_data s1) Hh Hh2) as (-> & -> & _);
    [rewrite Ha; constructor|rewrite Ha2; constructor|]. congruence.
Qed.

(** A request leaves the queue only behind the one it is linked to. *)
Lemma first_gone h r st s1 s pre post : cs !! h = Some (r, st) -> req_sqes r = [s1; s] -> T = pre ++ s :: post ->
  (forall t, last pre = Some t -> linked t = false) -> user_data s1 ∉ user_data <$> T.
Proof.
  intros Hh Hr HT Hlast (t & Et & Ht)%list_elem_of_fmap. symmetry in Et.
  destruct (first_then_second _ _ _ _ _ _ Hh Hr Ht Et) as (T1 & T3 & HT').
  assert (pre = T1 ++ [s1]) as ->.
  { pose proof (c_nodup H) as Hn. apply NoDup_app in Hn as (_ & _ & Hn). apply NoDup_fmap_1 in Hn.
    assert (T !! length pre = Some s) as E1 by (rewrite HT; by apply list_lookup_middle).
    assert (T !! length (T1 ++ [s1]) = Some s) as E2.
    { rewrite HT'. replace (T1 ++ s1 :: s :: T3) with ((T1 ++ [s1]) ++ s :: T3) by (by rewrite <- app_assoc).
      by apply list_lookup_middle. }
    pose proof (NoDup_lookup _ _ _ _ Hn E1 E2) as E.
    apply (app_inj_1 pre (T1 ++ [s1]) (s :: post) (s :: T3) E). rewrite <- HT, HT', <- app_assoc. done. }
  rewrite last_snoc in Hlast. destruct (req_second _ _ _ Hr) as (Hl & _). by rewrite (Hlast _ eq_refl) in Hl.
Qed.

(** The kernel completes a request. *)
Lemma outs_complete s r pre post : outs (R ++ [mkCqe (user_data s) r]) (pre ++ post) ≡ₚ outs R (pre ++ s :: post).
Proof. unfold outs. rewrite !fmap_app, fmap_cons. cbn. rewrite <- app_assoc. cbn. f_equiv. apply Permutation_middle. Qed.

Lemma complete_next pre s post : T = pre ++ s :: post -> (forall t, last pre = Some t -> linked t = false) ->
  forall T1 t T2, pre ++ post = T1 ++ t :: T2 -> linked t = true ->
  exists h r st s2 T3, cs !! h = Some (r, st) /\ req_sqes r = [t; s2] /\ T2 = s2 :: T3.
Proof.
  intros HT Hlast T1 t T2 E Hl. apply app_eq_inv in E as [(k & -> & E)|(k & -> & E)].
  - destruct k as [|t' k]; cbn in E.
    + rewrite app_nil_r in HT. destruct (c_next H (T1 ++ [s]) t T2) as (h & r & st & s2 & T3 & ?); [|done|eauto 8].
      by rewrite HT, <- E, <- app_assoc.
    + injection E as <- E. destruct (c_next H T1 t (k ++ s :: post)) as (h & r & st & s2 & T3 & Hh & Hr & E2);
        [by rewrite HT, <- app_assoc|done|].
      exists h, r, st, s2. destruct k as [|s2' k]; cbn in *.
      * rewrite last_snoc in Hlast. by rewrite (Hlast _ eq_refl) in Hl.
      * injection E2 as -> _. eauto.
  - destruct (c_next H (pre ++ s :: k) t T2) as (h & r & st & s2 & T3 & ?); [|done|eauto 8].
    by rewrite HT, E, <- app_assoc.
Qed.

End Facts.

Lemma outs_fresh R s r T : NoDup (outs (R ++ [mkCqe (user_data s) r]) T) ->
  (forall c, c ∈ R -> cqe_user_data c <> user_data s) /\ (forall t, t ∈ T -> user_data t <> user_data s).
Proof.
  unfold outs. rewrite fmap_app, <- app_assoc. intros (_ & Hd & Hn)%NoDup_app. cbn in Hn. apply NoDup_cons in Hn as [Hn _].
  split.
  - intros c Hc E. apply (Hd (cqe_user_data c)); [by apply list_elem_of_fmap_2|]. rewrite E. constructor.
  - intros t Ht E. apply Hn. rewrite <- E. by apply list_elem_of_fmap_2.
Qed.

(** When the second of two completes, the first has. *)
Lemma complete_order {cs heap resumed R pre s post l} h r st s1 : calls_inv cs heap resumed R (pre ++ s :: post) l ->
  (forall t, last pre = Some t -> linked t = false) -> cs !! h = Some (r, st) -> req_sqes r = [s1; s] ->
  s1 ∈ ev_sqe <$> l.
Proof.
  intros H Hlast Hh Hr. pose proof (first_gone H h r st s1 s pre post Hh Hr eq_refl Hlast) as Hgone.
  destruct (req_second _ _ _ Hr) as (_ & _ & Ha). assert (s ∈ pre ++ s :: post) as Hs by (apply elem_of_app; right; constructor).
  destruct (todo_waiting H s Hs) as (h' & r' & Hh' & Hr').
  destruct (same_call H h' r' Waiting h r st (user_data s) Hh' Hh) as (-> & -> & ->);
    [by apply req_sqe_addr|rewrite Ha; repeat constructor|].
  assert (exists x, x ∈ results l (user_data s1)) as [x Hx].
  { destruct (c_heap H h' r' (user_data s1) Hh) as (op & _ & _ & Hop); [rewrite Ha; constructor|].
    destruct (decide (user_data s1 ∈ outs R (pre ++ s :: post))) as [Hin|Hout];
      [|rewrite (Hop Hout); exists (op_result op); constructor].
    apply elem_of_app in Hin as [(c & -> & Hc)%list_elem_of_fmap|]; [|done].
    rewrite (c_ready H _ Hc). eexists. constructor. }
  apply results_elem in Hx as (e & He & Ee & _). apply list_elem_of_fmap. exists e. split; [|done].
  destruct (c_log H e He) as (h2 & r2 & st2 & Hh2 & Hr2).
  destruct (same_call H h' r' Waiting h2 r2 st2 (user_data s1) Hh Hh2) as (-> & -> & _);
    [rewrite Ha; constructor|rewrite <- Ee; by apply req_sqe_addr|].
  eapply req_sqe_unique; [apply (c_wf H _ _ _ Hh)|rewrite Hr; constructor|done|done].
Qed.

Lemma complete_owners cs R pre s post r : owners cs R (pre ++ s :: post) ->
  (forall t, last pre = Some t -> linked t = false) ->
  owners cs (R ++ [mkCqe (user_data s) r]) (pre ++ post).
Proof.
  intros H Hlast. pose proof (outs_complete (R := R) s r pre post) as Ho.
  assert (s ∈ pre ++ s :: post) as Hs by (apply elem_of_app; right; constructor).
  assert (forall t, t ∈ pre ++ post -> t ∈ pre ++ s :: post) as Hsub
    by (intros t; rewrite !elem_of_app, elem_of_cons; tauto).
  destruct (todo_waiting H s Hs) as (h0 & r0 & Hh0 & Hr0).
  split.
  - apply (c_unique H).
  - apply (c_wf H).
  - rewrite Ho. apply (c_nodup H).
  - intros a. rewrite Ho. apply (c_owner H).
  - intros t Ht. by apply (c_todo H), Hsub.
  - by eapply (complete_next H).
  - intros h q st a1 a2 R1 c' R2 Hh Hq ER Ec.
    destruct R2 as [|x R2 _] using rev_ind.
    + apply app_inj_tail in ER as [-> <-]. cbn in Ec. intros (t & -> & Ht)%list_elem_of_fmap.
      destruct (same_call H h0 r0 Waiting h q st (user_data s) Hh0 Hh) as (-> & -> & ->);
        [by apply req_sqe_addr|rewrite Hq, Ec; repeat constructor|].
      destruct (req_pair _ _ _ Hq) as (s1 & s2 & Hr & E1 & E2).
      assert (s2 = s) as ->.
      { eapply req_sqe_unique; [apply (c_wf H _ _ _ Hh0)|rewrite Hr; repeat constructor|done|by rewrite E2, Ec]. }
      apply (first_gone H h0 r0 Waiting s1 s pre post Hh0 Hr eq_refl Hlast). rewrite E1.
      apply list_elem_of_fmap_2, Hsub, Ht.
    + rewrite app_comm_cons, app_assoc in ER. apply app_inj_tail in ER as [-> <-].
      rewrite outs_complete. by eapply (c_behind H).
  - intros h q a1 a2. rewrite !Ho. apply (c_after H).
Qed.

Lemma complete_served cs heap resumed R pre s post l c r : calls_inv cs heap resumed R (pre ++ s :: post) l ->
  (forall t, last pre = Some t -> linked t = false) ->
  served cs heap resumed (R ++ [mkCqe (user_data s) r]) (pre ++ post) (l ++ [mkEvent s c r]).
Proof.
  intros H Hlast. pose proof (outs_complete (R := R) s r pre post) as Ho.
  assert (s ∈ pre ++ s :: post) as Hs by (apply elem_of_app; right; constructor).
  assert (forall t, t ∈ pre ++ post -> t ∈ pre ++ s :: post) as Hsub
    by (intros t; rewrite !elem_of_app, elem_of_cons; tauto).
  assert (forall a, a <> user_data s -> results (l ++ [mkEvent s c r]) a = results l a) as Hother.
  { intros a Hne. rewrite results_snoc. cbn. rewrite decide_False by done. by rewrite app_nil_r. }
  assert (NoDup (outs (R ++ [mkCqe (user_data s) r]) (pre ++ post))) as Hn by (rewrite Ho; apply (c_nodup H)).
  destruct (outs_fresh _ _ _ _ Hn) as [HnR HnT]. destruct (todo_waiting H s Hs) as (h0 & r0 & Hh0 & Hr0).
  split.
  - intros t Ht. rewrite Hother by auto. by apply (c_pending H), Hsub.
  - intros c' [Hc'| ->%list_elem_of_singleton]%elem_of_app; [rewrite Hother by auto; by apply (c_ready H)|].
    cbn. rewrite results_snoc, (c_pending H s Hs). cbn. by rewrite decide_True.
  - intros h q a Hh Ha. destruct (c_heap H h q a Hh Ha) as (op & Hop & Hc & Hres). exists op. split; [done|]. split; [done|].
    rewrite Ho. intros Hout. rewrite Hother; [by apply Hres|]. intros ->. apply Hout.
    apply elem_of_app. right. by apply list_elem_of_fmap_2.
  - intros h q Hh. rewrite (c_resumed H h q Hh). by setoid_rewrite Ho.
  - apply (c_once H).
  - apply (c_known H).
  - intros h q o Hh. assert (forall a, a ∈ req_addrs q -> a <> user_data s) as Hne.
    { intros a Ha ->. by destruct (same_call H h0 r0 Waiting h q (Answered o) (user_data s) Hh0 Hh) as (_ & _ & ?);
        [apply req_sqe_addr|..]. }
    destruct (c_done H h q o Hh) as [(Hres & rs & Hrs & ->)|(Hres & Hrs & ->)]; [left|right].
    + split; [done|]. exists rs. split; [|done]. clear -Hrs Hne Hother. induction Hrs; constructor; [|apply IHHrs; intros; apply Hne; by constructor].
      rewrite Hother; [done|]. apply Hne. constructor.
    + split; [done|]. split; [|done]. rewrite Forall_forall in Hrs |- *. intros a Ha. rewrite Hother; auto.
  - intros e [He| ->%list_elem_of_singleton]%elem_of_app; [by apply (c_log H)|]. by apply (c_todo H).
  - intros h q st s1 s2 l1 e l2 Hh Hq El Ee. destruct l2 as [|x l2 _] using rev_ind.
    + apply app_inj_tail in El as [-> <-]. cbn in Ee. subst s2. by eapply (complete_order h q st s1 H).
    + rewrite app_comm_cons, app_assoc in El. apply app_inj_tail in El as [-> <-]. by eapply (c_log_order H).
Qed.

Lemma complete_inv cs heap resumed R pre s post l c r : calls_inv cs heap resumed R (pre ++ s :: post) l ->
  (forall t, last pre = Some t -> linked t = false) ->
  calls_inv cs heap resumed (R ++ [mkCqe (user_data s) r]) (pre ++ post) (l ++ [mkEvent s c r]).
Proof. intros H Hlast. split; [apply complete_owners; [apply H|done]|by apply complete_served]. Qed.
(** A new call. Its requests are in the ring, or it has returned because there was no room. *)
Lemma new_unique cs h r st : fresh cs h r ->
  (forall h r st h' r' st' a, cs !! h = Some (r, st) -> cs !! h' = Some (r', st') ->
     a ∈ req_addrs r -> a ∈ req_addrs r' -> h = h') ->
  forall h1 r1 st1 h2 r2 st2 a, <[h := (r, st)]> cs !! h1 = Some (r1, st1) -> <[h := (r, st)]> cs !! h2 = Some (r2, st2) ->
     a ∈ req_addrs r1 -> a ∈ req_addrs r2 -> h1 = h2.
Proof.
  intros [_ Hf _ _] Hu h1 r1 st1 h2 r2 st2 a [[-> ?]|[? H1]]%lookup_insert_Some [[-> ?]|[? H2]]%lookup_insert_Some;
    simplify_eq; intros A1 A2; [done| | |by eapply Hu].
  - by destruct (Hf _ _ _ a H2).
  - by destruct (Hf _ _ _ a H1).
Qed.

Lemma new_call {cs} h r st h' r' st' : fresh cs h r -> cs !! h' = Some (r', st') ->
  <[h := (r, st)]> cs !! h' = Some (r', st').
Proof. intros Hf Hh'. rewrite lookup_insert_ne; [done|]. intros ->. by rewrite (fresh_handle _ _ _ Hf) in Hh'. Qed.

(** Pushed, or not for want of room. *)
Definition pushed (r : request) (ok : bool) : list sqe := if ok then req_sqes r else [].
Definition pushed_state (r : request) (ok : bool) : call_state :=
  if ok then Waiting else Answered (req_outcome r true []).

(** What a request finds in the frame of the coroutine with handle [h], and leaves there. *)
Definition ops_placed (h : Z) (r : request) (heap : gmap Z Operation) : Prop :=
  forall a, a ∈ req_addrs r -> exists op, heap !! a = Some op /\
    op_continuation op = if decide (last (req_addrs r) = Some a) then Some h else None.

Section New.
Context {cs : gmap Z (request * call_state)} {heap heap' : gmap Z Operation} {resumed : list Z}.
Context {R : list cqe} {T : list sqe} {l : list event} (H : calls_inv cs heap resumed R T l).
Context {h : Z} {r : request} (Hf : fresh cs h r) (Hheap : forall a, a ∉ req_addrs r -> heap' !! a = heap !! a).

Lemma new_not_out a : a ∈ req_addrs r -> a ∉ outs R T.
Proof.
  intros Ha Ho. destruct (c_owner H a Ho) as (h' & r' & Hh' & Hr'). by destruct (fresh_addrs _ _ _ Hf h' r' Waiting a Hh').
Qed.

Lemma new_not_logged a : a ∈ req_addrs r -> results l a = [].
Proof.
  intros Ha. apply results_none. intros e He <-. destruct (c_log H e He) as (h' & r' & st & Hh' & Hr').
  by destruct (fresh_addrs _ _ _ Hf h' r' st _ Hh' Ha); apply req_sqe_addr.
Qed.

Lemma new_not_resumed : h ∉ resumed.
Proof. intros Hr. destruct (c_known H h Hr) as [? E]. by rewrite (fresh_handle _ _ _ Hf) in E. Qed.

Lemma old_heap h' r' st a : cs !! h' = Some (r', st) -> a ∈ req_addrs r' -> heap' !! a = heap !! a.
Proof. intros Hh' Ha. apply Hheap. intros Hr. by destruct (fresh_addrs _ _ _ Hf h' r' st a Hh' Hr). Qed.

Lemma outs_push ok R' : outs R' (T ++ pushed r ok) = outs R' T ++ (if ok then req_addrs r else []).
Proof. unfold outs, pushed. rewrite fmap_app, app_assoc. destruct ok; [by rewrite req_user_data|done]. Qed.

(** The outstanding addresses of the older calls. *)
Lemma outs_push_old ok h' r' st a R' : cs !! h' = Some (r', st) -> a ∈ req_addrs r' ->
  a ∈ outs R' (T ++ pushed r ok) <-> a ∈ outs R' T.
Proof.
  intros Hh' Ha. rewrite outs_push, elem_of_app. split; [|by left]. intros [|Hr]; [done|].
  destruct ok; [|by apply not_elem_of_nil in Hr]. by destruct (fresh_addrs _ _ _ Hf h' r' st a Hh' Hr).
Qed.

Lemma push_next ok T1 s T2 : T ++ pushed r ok = T1 ++ s :: T2 -> linked s = true ->
  exists h' r' st s2 T3, <[h := (r, pushed_state r ok)]> cs !! h' = Some (r', st) /\ req_sqes r' = [s; s2] /\ T2 = s2 :: T3.
Proof.
  intros E Hl. assert (forall k, T = T1 ++ s :: k -> T2 = k ++ pushed r ok -> exists h' r' st s2 T3,
    <[h := (r, pushed_state r ok)]> cs !! h' = Some (r', st) /\ req_sqes r' = [s; s2] /\ T2 = s2 :: T3) as Hold.
  { intros k ET ->. destruct (c_next H T1 s k ET Hl) as (h' & r' & st & s2 & T3 & Hh' & Hr' & ->).
    pose proof (new_call h r (pushed_state r ok) _ _ _ Hf Hh'). eexists _, _, _, _, _. eauto. }
  apply app_eq_inv in E as [([|s' k] & -> & E)|(k & -> & E)]; cbn in E.
  2: { injection E as <- ->. by eapply Hold. }
  all: destruct ok; cbn in *; [|by try destruct k].
  - assert (s ∈ req_sqes r) as [E2 _]%req_linked by (rewrite <- E; constructor). destruct (E2 Hl) as (s2 & E3 & _).
    rewrite E3 in E. injection E as ->. exists h, r, Waiting, s2, []. by rewrite lookup_insert_eq.
  - assert (s ∈ req_sqes r) as [E2 _]%req_linked by (rewrite E; apply elem_of_app; right; constructor).
    destruct (E2 Hl) as (s2 & E3 & Hne). rewrite E3 in E. destruct k as [|? [|? []]]; simplify_eq/=.
    exists h, r, Waiting, s2, []. by rewrite lookup_insert_eq.
Qed.

(** Old calls are where they were. *)
Lemma new_lookup st h' r' st' : <[h := (r, st)]> cs !! h' = Some (r', st') ->
  (h' = h /\ r' = r /\ st' = st) \/ cs !! h' = Some (r', st').
Proof. intros [[<- ?]|[_ ?]]%lookup_insert_Some; [left; by simplify_eq|by right]. Qed.

Lemma push_owners ok : owners (<[h := (r, pushed_state r ok)]> cs) R (T ++ pushed r ok).
Proof.
  pose proof (fun h' r' st => new_call (cs := cs) h r (pushed_state r ok) h' r' st Hf) as Hold.
  pose proof (new_lookup (pushed_state r ok)) as Hnew.
  split.
  - apply new_unique; [done|apply (c_unique H)].
  - intros h' r' st [(-> & -> & ->)|?]%Hnew; [split; apply Hf|by eapply (c_wf H)].
  - rewrite outs_push. apply NoDup_app. split; [apply (c_nodup H)|]. split; [|destruct ok; [apply Hf|constructor]].
    intros a Ha Hr. destruct ok; [by apply (new_not_out a)|by apply not_elem_of_nil in Hr].
  - intros a. rewrite outs_push. intros [Ha|Ha]%elem_of_app.
    + destruct (c_owner H a Ha) as (h' & r' & ? & ?). eauto.
    + destruct ok; [|by apply not_elem_of_nil in Ha]. exists h, r. by rewrite lookup_insert_eq.
  - intros s [Hs|Hs]%elem_of_app; [destruct (c_todo H s Hs) as (h' & r' & st & ? & ?); eauto 6|].
    destruct ok; [|by apply not_elem_of_nil in Hs]. exists h, r, Waiting. by rewrite lookup_insert_eq.
  - apply push_next.
  - intros h' r' st a1 a2 R1 c R2 [(-> & -> & ->)|Hh']%Hnew Ha ER Ec.
    + exfalso. apply (new_not_out a2); [rewrite Ha; repeat constructor|].
      apply elem_of_app. left. rewrite ER, fmap_app, fmap_cons, Ec. apply elem_of_app. right. constructor.
    + rewrite (outs_push_old ok h' r' st) by (done || rewrite Ha; constructor). by eapply (c_behind H).
  - intros h' r' a1 a2 [(-> & -> & Hs)|Hh']%Hnew Ha Hout.
    + destruct ok; [|done]. destruct Hout. rewrite outs_push, Ha. apply elem_of_app. right. repeat constructor.
    + rewrite (outs_push_old ok h' r' Waiting) by (done || rewrite Ha; constructor).
      rewrite (outs_push_old ok h' r' Waiting) in Hout by (done || rewrite Ha; repeat constructor). by eapply (c_after H).
Qed.

Lemma push_served ok : (ok = true -> ops_placed h r heap') ->
  served (<[h := (r, pushed_state r ok)]> cs) heap' resumed R (T ++ pushed r ok) l.
Proof.
  intros Hops. pose proof (fun h' r' st => new_call (cs := cs) h r (pushed_state r ok) h' r' st Hf) as Hold.
  pose proof (new_lookup (pushed_state r ok)) as Hnew.
  split.
  - intros s [Hs|Hs]%elem_of_app; [by apply (c_pending H)|].
    destruct ok; [|by apply not_elem_of_nil in Hs]. by apply new_not_logged, req_sqe_addr.
  - apply (c_ready H).
  - intros h' r' a [(-> & -> & Hs)|Hh']%Hnew Ha.
    + destruct ok; [|done]. destruct (Hops eq_refl a Ha) as (op & ? & ?). exists op. split; [done|]. split; [done|].
      rewrite outs_push. intros []. apply elem_of_app. by right.
    + destruct (c_heap H h' r' a Hh' Ha) as (op & ? & ? & ?). exists op.
      by rewrite (old_heap h' r' Waiting a), (outs_push_old ok h' r' Waiting) by done.
  - intros h' r' [(-> & -> & Hs)|Hh']%Hnew.
    + destruct ok; [|done]. split; [by intros ?%new_not_resumed|]. intros Hl. exfalso.
      destruct (last (req_addrs r)) as [a|] eqn:E; [|by destruct r].
      destruct (Hl a eq_refl). rewrite outs_push. apply elem_of_app. right. by eapply last_Some_elem_of.
    + rewrite (c_resumed H h' r' Hh'). split; intros Hl a E; specialize (Hl a E);
        by rewrite (outs_push_old ok h' r' Waiting) in * by (done || by eapply last_Some_elem_of).
  - apply (c_once H).
  - intros h' Hh'. destruct (c_known H h' Hh') as [[r' st] ?]. eauto.
  - intros h' r' o [(-> & -> & Hs)|?]%Hnew; [|by apply (c_done H)]. destruct ok; [done|]. injection Hs as ->. right.
    split; [apply new_not_resumed|]. split; [|done]. apply Forall_forall. apply new_not_logged.
  - intros e He. destruct (c_log H e He) as (h' & r' & st & ? & ?). eauto 6.
  - intros h' r' st s1 s2 l1 e l2 [(-> & -> & ->)|?]%Hnew Ha El Ee; [|by eapply (c_log_order H)].
    exfalso. destruct (c_log H e) as (h' & r' & st & Hh' & Hr'); [rewrite El; apply elem_of_app; right; constructor|].
    destruct (fresh_addrs _ _ _ Hf h' r' st (user_data s2) Hh').
    + apply req_sqe_addr. rewrite Ha. repeat constructor.
    + apply req_sqe_addr. congruence.
Qed.

Lemma push_inv ok : (ok = true -> ops_placed h r heap') ->
  calls_inv (<[h := (r, pushed_state r ok)]> cs) heap' resumed R (T ++ pushed r ok) l.
Proof. intros Hops. split; [apply push_owners|by apply push_served]. Qed.

End New.
(** The completion thread takes a completion. *)
Definition hand_over (heap : gmap Z Operation) (op : Operation) (c : cqe) : gmap Z Operation :=
  <[cqe_user_data c := mkOperation (op_sqe op) (op_continuation op) (cqe_res c)]> heap.

Lemma drain_outs c R T b : b ∈ outs (c :: R) T <-> b = cqe_user_data c \/ b ∈ outs R T.
Proof. apply elem_of_cons. Qed.

Lemma drain_owners cs c R T : owners cs (c :: R) T -> owners cs R T.
Proof.
  intros H. pose proof (c_nodup H) as Hn. cbn in Hn. apply NoDup_cons in Hn as [Hout Hn]. fold (outs R T) in Hout, Hn.
  split; try done.
  - apply (c_unique H).
  - apply (c_wf H).
  - intros b Hb. apply (c_owner H), drain_outs. by right.
  - apply (c_todo H).
  - apply (c_next H).
  - intros h' r' st a1 a2 R1 c' R2 Hh' Ha' -> Ec. by eapply (c_behind H h' r' st a1 a2 (c :: R1)).
  - intros h' r' a1 a2 Hh' Ha' Hno. destruct (decide (a2 = cqe_user_data c)) as [->|Hne].
    + by eapply (c_behind H h' r' Waiting a1 _ [] c R).
    + intros H1. apply (c_after H h' r' a1 a2 Hh' Ha'); rewrite drain_outs; intuition.
Qed.

Lemma drain_served cs heap resumed c R T l h r op : calls_inv cs heap resumed (c :: R) T l ->
  cs !! h = Some (r, Waiting) -> cqe_user_data c ∈ req_addrs r ->
  op_continuation op = (if decide (last (req_addrs r) = Some (cqe_user_data c)) then Some h else None) ->
  served cs (hand_over heap op c) (resumed ++ option_list (op_continuation op)) R T l.
Proof.
  intros H Hh Ha Hcont. pose proof (c_nodup H) as Hn. cbn in Hn. apply NoDup_cons in Hn as [Hout _]. fold (outs R T) in Hout.
  set (a := cqe_user_data c) in *.
  assert (forall h', h' ∈ resumed ++ option_list (op_continuation op) <->
    h' ∈ resumed \/ (h' = h /\ last (req_addrs r) = Some a)) as Hres.
  { intros h'. rewrite elem_of_app, Hcont. case_decide; cbn; rewrite ?list_elem_of_singleton, ?elem_of_nil; intuition congruence. }
  assert (forall h' r', cs !! h' = Some (r', Waiting) -> a ∈ req_addrs r' -> h' = h /\ r' = r) as Hmine
    by (intros h' r' Hh' Ha'; by destruct (same_call H h r Waiting h' r' Waiting a Hh Hh' Ha Ha') as (? & ? & _)).
  split.
  - apply (c_pending H).
  - intros c' Hc'. apply (c_ready H). by constructor.
  - intros h' r' b Hh' Hb. unfold hand_over. fold a. destruct (decide (b = a)) as [->|Hne].
    + rewrite lookup_insert_eq. eexists. split; [done|]. destruct (Hmine h' r' Hh' Hb) as [-> ->]. split; [done|].
      intros _. apply (c_ready H). constructor.
    + rewrite lookup_insert_ne by done. destruct (c_heap H h' r' b Hh' Hb) as (op' & ? & ? & Hr). exists op'.
      split; [done|]. split; [done|]. intros Hno. apply Hr. rewrite drain_outs. tauto.
  - intros h' r' Hh'. rewrite Hres, (c_resumed H h' r' Hh'). split.
    + intros [Hl|[-> Hl]] b Eb; [intros Hb; apply (Hl b Eb), drain_outs; by right|]. by simplify_eq.
    + intros Hl. destruct (decide (last (req_addrs r') = Some a)) as [E|E].
      * right. destruct (Hmine h' r' Hh') as [-> ->]; [by eapply last_Some_elem_of|done].
      * left. intros b Eb. rewrite drain_outs. intros [->|Hb]; [done|]. by apply (Hl b Eb).
  - apply NoDup_app. split; [apply (c_once H)|]. rewrite Hcont. case_decide as El; cbn; [|split; [by intros ? _ ?%not_elem_of_nil|constructor]].
    split; [|apply NoDup_singleton]. intros h' Hh' ->%list_elem_of_singleton.
    apply (c_resumed H h r Hh) with (a := a) in Hh'; [|done]. apply Hh', drain_outs. by left.
  - intros h' [Hh'|[-> _]]%Hres; [by apply (c_known H)|by eexists].
  - intros h' r' o Hh'. assert (h' <> h) by (intros ->; by simplify_eq).
    destruct (c_done H h' r' o Hh') as [(? & ?)|(? & ?)]; [left|right]; split; try done; rewrite Hres; intuition.
  - apply (c_log H).
  - apply (c_log_order H).
Qed.

Lemma drain_inv cs heap resumed c R T l : calls_inv cs heap resumed (c :: R) T l ->
  cqe_user_data c <> 0 /\ exists op, heap !! cqe_user_data c = Some op /\
  calls_inv cs (hand_over heap op c) (resumed ++ option_list (op_continuation op)) R T l.
Proof.
  intros H. destruct (c_owner H (cqe_user_data c)) as (h & r & Hh & Ha); [apply drain_outs; by left|].
  destruct (c_heap H h r _ Hh Ha) as (op & Hop & Hcont & _).
  split; [destruct (c_wf H _ _ _ Hh) as [_ Hz]; rewrite Forall_forall in Hz; by apply Hz|]. exists op. split; [done|].
  split; [by eapply drain_owners; apply H|by eapply drain_served].
Qed.

(** A coroutine that was resumed returns. *)
Lemma delete_other (heap : gmap Z Operation) ads a : a ∉ ads -> foldr delete heap ads !! a = heap !! a.
Proof.
  induction ads as [|b ads IH]; [done|]. intros [? ?]%not_elem_of_cons. cbn. rewrite lookup_delete_ne by done. by apply IH.
Qed.

(** By then nothing of it is outstanding. *)
Lemma resumed_finished cs heap resumed R T l h r a : calls_inv cs heap resumed R T l ->
  cs !! h = Some (r, Waiting) -> h ∈ resumed -> a ∈ req_addrs r -> a ∉ outs R T.
Proof.
  intros H Hh Hres Ha. pose proof (proj1 (c_resumed H h r Hh) Hres) as Hl.
  destruct (req_addrs r) as [|a1 [|a2 []]] eqn:E; try (by destruct r).
  - apply list_elem_of_singleton in Ha as ->. by apply Hl.
  - apply elem_of_cons in Ha as [->|Ha]; [|apply list_elem_of_singleton in Ha as ->; by apply Hl].
    eapply (c_after H); [done|done|by apply Hl].
Qed.

Section Return.
Context {cs : gmap Z (request * call_state)} {h : Z} {r : request} (st : call_state) (Hh : cs !! h = Some (r, Waiting)).

Lemma ret_lookup h' r' st' : <[h := (r, st)]> cs !! h' = Some (r', st') ->
  exists st0, cs !! h' = Some (r', st0) /\ (h' = h /\ r' = r /\ st' = st \/ h' <> h /\ st' = st0).
Proof. intros [[<- ?]|[? ?]]%lookup_insert_Some; simplify_eq; eauto 6. Qed.

Lemma ret_old h' r' st' : cs !! h' = Some (r', st') -> exists st1, <[h := (r, st)]> cs !! h' = Some (r', st1).
Proof.
  intros Hh'. destruct (decide (h' = h)) as [->|]; [rewrite lookup_insert_eq|rewrite lookup_insert_ne by done];
    simplify_eq; eauto.
Qed.
End Return.

Lemma return_owners cs heap resumed R T l h r o : calls_inv cs heap resumed R T l ->
  cs !! h = Some (r, Waiting) -> h ∈ resumed -> owners (<[h := (r, Answered o)]> cs) R T.
Proof.
  intros H Hh Hres. pose proof (fun a => resumed_finished _ _ _ _ _ _ h r a H Hh Hres) as Hfin.
  pose proof (ret_lookup (Answered o) Hh) as Hnew. pose proof (ret_old (Answered o) Hh) as Hold.
  split.
  - intros h1 r1 st1 h2 r2 st2 a (? & ? & _)%Hnew (? & ? & _)%Hnew. by eapply (c_unique H).
  - intros h1 r1 st1 (? & ? & _)%Hnew. by eapply (c_wf H).
  - apply (c_nodup H).
  - intros a Ha. destruct (c_owner H a Ha) as (h' & r' & Hh' & Ha'). exists h', r'. split; [|done].
    rewrite lookup_insert_ne; [done|]. intros ->. simplify_eq. by apply (Hfin a).
  - intros s Hs. destruct (c_todo H s Hs) as (h' & r' & st' & Hh' & ?). destruct (Hold _ _ _ Hh'). eauto.
  - intros T1 s T2 ET Hl. destruct (c_next H T1 s T2 ET Hl) as (h' & r' & st' & s2 & T3 & Hh' & ?).
    destruct (Hold _ _ _ Hh'). eauto 8.
  - intros h' r' st' a1 a2 R1 c R2 (? & ? & _)%Hnew. by eapply (c_behind H).
  - intros h' r' a1 a2 (? & ? & [(_ & _ & ?)|[_ <-]])%Hnew; [done|]. by eapply (c_after H).
Qed.

(** The results it reads are those of the history. *)
Lemma return_results cs heap resumed R T l h r rs : calls_inv cs heap resumed R T l ->
  cs !! h = Some (r, Waiting) -> h ∈ resumed -> mapM (fun a => op_result <$> heap !! a) (req_addrs r) = Some rs ->
  Forall2 (fun a x => results l a = [x]) (req_addrs r) rs.
Proof.
  intros H Hh Hres Hrs. apply mapM_Some in Hrs.
  assert (forall a, a ∈ req_addrs r -> exists op, heap !! a = Some op /\ results l a = [op_result op]) as Hops.
  { intros a Ha. destruct (c_heap H h r a Hh Ha) as (op & ? & _ & Hr). exists op. split; [done|].
    apply Hr. by eapply resumed_finished. }
  clear -Hrs Hops. induction Hrs as [|a x ads rs Hx Hrs IH]; constructor; [|apply IH; intros; apply Hops; by constructor].
  destruct (Hops a) as (op & Hop & ->); [constructor|]. rewrite Hop in Hx. cbn in Hx. by simplify_eq.
Qed.

Lemma return_served cs heap resumed R T l h r rs : calls_inv cs heap resumed R T l ->
  cs !! h = Some (r, Waiting) -> h ∈ resumed -> mapM (fun a => op_result <$> heap !! a) (req_addrs r) = Some rs ->
  served (<[h := (r, Answered (req_outcome r false rs))]> cs) (foldr delete heap (req_addrs r)) resumed R T l.
Proof.
  intros H Hh Hres Hrs. set (st := Answered (req_outcome r false rs)).
  pose proof (ret_lookup st Hh) as Hnew. pose proof (ret_old st Hh) as Hold.
  assert (forall h' r' a, cs !! h' = Some (r', Waiting) -> a ∈ req_addrs r' -> h' <> h -> a ∉ req_addrs r) as Hapart.
  { intros h' r' a Hh' Ha Hne Ha'. apply Hne. by eapply (c_unique H). }
  split.
  - apply (c_pending H).
  - apply (c_ready H).
  - intros h' r' a (? & ? & [(_ & _ & ?)|[? <-]])%Hnew Ha; [done|].
    rewrite delete_other by (by eapply Hapart). by apply (c_heap H).
  - intros h' r' (? & ? & [(_ & _ & ?)|[_ <-]])%Hnew; [done|]. by apply (c_resumed H).
  - apply (c_once H).
  - intros h' Hh'. destruct (c_known H h' Hh') as [[r' st'] Hs]. destruct (Hold _ _ _ Hs). by eexists.
  - intros h' r' o (? & ? & [(-> & -> & E)|[_ <-]])%Hnew; [|by apply (c_done H)]. unfold st in E. injection E as ->. left.
    split; [done|]. exists rs. split; [|done]. by eapply return_results.
  - intros e He. destruct (c_log H e He) as (h' & r' & st' & Hh' & ?). destruct (Hold _ _ _ Hh'). eauto.
  - intros h' r' st' s1 s2 l1 e l2 (? & ? & _)%Hnew. by eapply (c_log_order H).
Qed.

Lemma return_inv cs heap resumed R T l h r rs : calls_inv cs heap resumed R T l ->
  cs !! h = Some (r, Waiting) -> h ∈ resumed -> mapM (fun a => op_result <$> heap !! a) (req_addrs r) = Some rs ->
  calls_inv (<[h := (r, Answered (req_outcome r false rs))]> cs) (foldr delete heap (req_addrs r)) resumed R T l.
Proof. intros H Hh Hres Hrs. split; [by eapply return_owners|by apply return_served]. Qed.
End Inv.
