(* ===== verification/UringConcurrentTheorems.v ===== *)
(** * What several operations in flight can rely on

    Every call returns what the kernel made of its own requests, a write that returns OK
    stays on the device as long as nobody writes over it, and the completion thread gets
    to the end of everything that was submitted. *)

From stdpp Require Import relations.
From S2P Require Import Prelude Status Coding Crc32c WriteBatch Wal Io UringExecutor UringKernel UringFacts.
From S2P Require Import UringTheorems UringConcurrent UringHistory UringConcurrentFacts.

(** ** The kernel's steps *)

Definition todo (q : queues) : list sqe := (q_infl q).*1 ++ q_pend q.

(** The kernel only moves requests forward. *)
Record forward (q q' : queues) : Prop := {
  fw_pend : (length (q_pend q') <= length (q_pend q))%nat;
  fw_ready : (length (q_ready q) <= length (q_ready q'))%nat;
  fw_count : (length (q_ready q') + length (todo q') = length (q_ready q) + length (todo q))%nat;
}.

#[global] Instance forward_preorder : PreOrder forward.
Proof. split; [by split|]. intros q1 q2 q3 [] []. split; lia. Qed.

Lemma klstep_kstep v l v' l' : klstep (v, l) (v', l') -> kstep v v'.
Proof. intros H. inversion H; subst; by econstructor. Qed.

Lemma klsteps_ksteps p p' : rtc klstep p p' -> rtc kstep p.1 p'.1.
Proof.
  induction 1 as [|[v l] [v1 l1] p' H _ IH]; [done|]. eapply rtc_l; [by eapply klstep_kstep|exact IH].
Qed.

(** Whatever the kernel does has a history. *)
Lemma kstep_klstep v v' l : kstep v v' -> exists l', klstep (v, l) (v', l').
Proof. intros H. destruct H; eexists; by econstructor. Qed.

Lemma ksteps_klsteps v v' l : rtc kstep v v' -> exists l', rtc klstep (v, l) (v', l').
Proof.
  intros H. revert l. induction H as [v|v v1 v' H _ IH]; intros l; [by eexists|].
  destruct (kstep_klstep v v1 l H) as [l1 H1]. destruct (IH l1) as [l' H']. exists l'. by eapply rtc_l.
Qed.

Section Machine.
Context {L : Libc}.
Context (cs : gmap Z (request * call_state)) (heap : gmap Z Operation) (resumed : list Z) (f0 : file).

Record mach_inv (v : kview) (q : queues) (l : list event) : Prop := {
  mi_at : at_queues v q;
  mi_calls : calls_inv cs heap resumed (q_ready q) (todo q) l;
  mi_hist : history f0 l (q_file q);
}.

Lemma klstep_inv v l v' l' q : mach_inv v q l -> klstep (v, l) (v', l') ->
  exists q', mach_inv v' q' l' /\ forward q q'.
Proof.
  destruct q as [P Iq R b fq]. intros [Hat Hc Hh] Hs.
  inversion Hs as [I m f s l0 Hne Hslot|pre s c post m m' f f' b' r l0 Hl Hco Hp|I m f f' l0 Hw|I m f fl l0]; subst;
    destruct Hat as (Hring & HI & Hb & Hf); cbn [q_pend q_infl q_ready q_buf q_file] in *; subst.
  - destruct (ring_not_empty Hring Hne) as (s' & P' & ->). destruct (ring_pop s' Hring) as [H1 H2].
    rewrite H1 in Hslot. injection Hslot as ->. exists (mkQueues P' (I ++ [(s, false)]) R (userbuf m) f).
    split.
    + split; [done| |done]. unfold todo in *. cbn in *. by rewrite fmap_app, <- app_assoc.
    + split; unfold todo; cbn [q_pend q_infl q_ready]; rewrite ?fmap_app, ?length_app, ?length_fmap; cbn; lia.
  - destruct (ring_post _ _ _ Hring Hp) as [H1 H2].
    exists (mkQueues P (pre ++ sever (linked s && (c || severs s r)) post) (R ++ [mkCqe (user_data s) r]) b' f').
    unfold todo in *. cbn [q_pend q_infl q_ready] in *. split.
    + split; [done| |by eapply hist_event]. unfold todo. cbn [q_pend q_infl q_ready].
      rewrite fmap_app, fmap_cons, <- app_assoc in Hc. cbn in Hc. rewrite fmap_app, sever_fst, <- app_assoc.
      apply complete_inv; [exact Hc|]. intros t Ht. rewrite fmap_last in Ht. unfold link_free in Hl.
      destruct (last pre) as [[]|]; cbn in Ht; congruence.
    + split; unfold todo; cbn [q_pend q_infl q_ready]; rewrite ?fmap_app, ?sever_fst, ?fmap_cons, ?length_app; cbn; lia.
  - exists (mkQueues P I R (userbuf m) f'). split; [|by split]. split; [done|done|by eapply hist_back].
  - exists (mkQueues P I R (userbuf m) f). split; [|by split]. split; [|done|done]. split; [|done]. by destruct Hring.
Qed.

Lemma klsteps_inv v l v' l' q : mach_inv v q l -> rtc klstep (v, l) (v', l') ->
  exists q', mach_inv v' q' l' /\ forward q q'.
Proof.
  intros H Hs. remember (v, l) as p eqn:Ep. remember (v', l') as p' eqn:Ep'. revert v l q Ep H.
  induction Hs as [p|p [v1 l1] p' Hstep _ IH]; intros v l q -> H; [simplify_eq; by exists q|].
  destruct (klstep_inv _ _ _ _ _ H Hstep) as (q1 & H1 & Hl1). destruct (IH Ep' _ _ _ eq_refl H1) as (q' & H' & Hl').
  exists q'. split; [done|]. by transitivity q1.
Qed.
End Machine.

Section System.
Context {L : Libc} {K : Type} `{!Kernel K, !KernelSpec K}.

(** *** Publishing requests *)

Definition push_q (q : queues) (ss : list sqe) : queues :=
  mkQueues (q_pend q ++ ss) (q_infl q) (q_ready q) (q_buf q) (q_file q).

(** [m'] is [m2] with [ss] at the end of the submission ring. *)
Record published (m2 m' : mach K) (q : queues) (ss : list sqe) : Prop := {
  pb_at : at_queues (view m') (push_q q ss);
  pb_kern : m_kern m' = m_kern m2;
  pb_entries : sq_ringEntries (m_shm m') = sq_ringEntries (m_shm m2);
}.

Lemma published_none m2 q : at_queues (view m2) q -> published m2 m2 q [].
Proof. destruct q as [P I R b f]. intros H. split; [|done..]. unfold push_q. cbn. rewrite app_nil_r. exact H. Qed.

Lemma pushRaw_spec (m : mach K) s a q :
  let m2 := k_async (k_async m) in
  at_queues (view m2) q -> sq_tail (m_shm m2) = sq_tail (m_shm (k_async m)) ->
  exists m' ok, pushRaw m s a = Some (m', ok) /\ published m2 m' q (if ok : bool then [with_user_data s a] else []) /\
    (ok = false -> sq_ringEntries (m_shm m2) < zlen (q_pend q) + 1).
Proof.
  intros m2 Hat Htail. pose proof Hat as (Hr & HI & Hb & Hf). unfold pushRaw, loadAcquire. fold m2. rewrite <- Htail.
  rewrite (shape_count (ro_sq _ _ _ Hr)), Z.geb_leb.
  destruct (Z.leb_spec (sq_ringEntries (m_shm m2)) (zlen (q_pend q))).
  { exists m2, false. split; [done|]. split; [by apply published_none|lia]. }
  destruct (ring_push (with_user_data s a) Hr) as (es & ar & -> & E2 & Hr3); [lia|]. cbn [mbind option_bind].
  rewrite E2. cbn [mbind option_bind]. eexists _, true. split; [done|]. split; [|done]. by split.
Qed.

Lemma pushLinked_spec (x : Exec K) a1 a2 op1 op2 q :
  let m2 := k_async (k_async (x_mach x)) in
  let s1 := with_user_data (link_sqe (op_sqe op1)) a1 in
  let s2 := with_user_data (op_sqe op2) a2 in
  at_queues (view m2) q -> sq_tail (m_shm m2) = sq_tail (m_shm (k_async (x_mach x))) ->
  a1 <> a2 -> x_heap x !! a1 = Some op1 -> x_heap x !! a2 = Some op2 ->
  exists m' heap' ok, pushLinked x a1 a2 = Some (mkExec m' (x_state x) heap' (x_phase x) (x_resumed x), ok) /\
    published m2 m' q (if ok : bool then [s1; s2] else []) /\
    heap' = (if ok then <[a2 := set_op_sqe op2 s2]> (<[a1 := set_op_sqe op1 s1]> (x_heap x)) else x_heap x) /\
    (ok = false -> sq_ringEntries (m_shm m2) < zlen (q_pend q) + 2).
Proof.
  intros m2 s1 s2 Hat Htail Hne H1 H2. pose proof Hat as (Hr & HI & Hb & Hf). unfold pushLinked, loadAcquire. fold m2.
  rewrite <- Htail. pose proof (shape_bounds (ro_sq _ _ _ Hr)). pose proof (shape_len _ _ _ _ _ (ro_sq _ _ _ Hr)).
  rewrite (shape_count (ro_sq _ _ _ Hr)), (u32_small (zlen (q_pend q) + 2)), Z.gtb_ltb by lia.
  destruct (Z.ltb_spec (sq_ringEntries (m_shm m2)) (zlen (q_pend q) + 2)).
  { exists m2, (x_heap x), false. split; [done|]. split; [by apply published_none|done]. }
  rewrite H1. cbn [mbind option_bind]. rewrite lookup_insert_ne, H2 by done. cbn [mbind option_bind].
  destruct (ring_push2 s1 s2 _ _ _ Hr) as (es1 & es2 & ar1 & ar2 & E1 & E2 & A1 & A2 & Hr4); [lia|].
  cbn [set_op_sqe op_sqe]. fold s1 s2. rewrite E1. cbn [mbind option_bind]. rewrite E2. cbn [mbind option_bind].
  rewrite A1. cbn [mbind option_bind]. rewrite A2. cbn [mbind option_bind].
  eexists _, _, true. split; [done|]. split; [|done]. by split.
Qed.

Lemma place_other (x : Exec K) h r a : a ∉ req_addrs r -> x_heap (place_ops x h r) !! a = x_heap x !! a.
Proof.
  intros Ha. cbn. apply lookup_union_r. apply not_elem_of_list_to_map_1. by destruct r.
Qed.

Lemma place_mine (x : Exec K) h r a op : NoDup (req_addrs r) -> (a, op) ∈ req_ops h r ->
  x_heap (place_ops x h r) !! a = Some op.
Proof.
  intros Hn Ha. cbn. apply lookup_union_Some_l. apply elem_of_list_to_map_1; [|done]. by destruct r.
Qed.

Lemma push_single (x : Exec K) h r a s q :
  let m2 := k_async (k_async (x_mach x)) in
  at_queues (view m2) q -> sq_tail (m_shm m2) = sq_tail (m_shm (k_async (x_mach x))) ->
  req_addrs r = [a] -> req_sqes r = [with_user_data s a] -> req_ops h r = [(a, mkOperation s (Some h) 0)] ->
  exists m' ok, (op ← x_heap (place_ops x h r) !! a; '(m, ok) ← pushRaw (x_mach x) (op_sqe op) a;
      Some (with_mach (place_ops x h r) m, ok)) =
      Some (mkExec m' (x_state x) (x_heap (place_ops x h r)) (x_phase x) (x_resumed x), ok) /\
    published m2 m' q (pushed r ok) /\ ops_placed h r (x_heap (place_ops x h r)) /\
    (ok = false -> sq_ringEntries (m_shm m2) < zlen (q_pend q) + zlen (req_addrs r)).
Proof.
  intros m2 Hat Htail Ha Hs Ho. assert (x_heap (place_ops x h r) !! a = Some (mkOperation s (Some h) 0)) as Hop.
  { apply place_mine; [rewrite Ha; apply NoDup_singleton|rewrite Ho; constructor]. }
  rewrite Hop. cbn [mbind option_bind op_sqe].
  destruct (pushRaw_spec (x_mach x) s a q Hat Htail) as (m' & ok & -> & Hp & Hfull). cbn [mbind option_bind].
  exists m', ok. split; [done|]. unfold pushed. rewrite Hs, Ha. split; [by destruct ok|]. split; [|by intros ?%Hfull].
  intros b. rewrite Ha. intros ->%list_elem_of_singleton. eexists. split; [exact Hop|]. cbn. by rewrite decide_True.
Qed.

Lemma push_request_spec (x : Exec K) h r q :
  let m2 := k_async (k_async (x_mach x)) in
  at_queues (view m2) q -> sq_tail (m_shm m2) = sq_tail (m_shm (k_async (x_mach x))) -> NoDup (req_addrs r) ->
  exists m' heap' ok, push_request (place_ops x h r) r = Some (mkExec m' (x_state x) heap' (x_phase x) (x_resumed x), ok) /\
    published m2 m' q (pushed r ok) /\ (forall a, a ∉ req_addrs r -> heap' !! a = x_heap x !! a) /\
    (ok = true -> ops_placed h r heap') /\
    (ok = false -> sq_ringEntries (m_shm m2) < zlen (q_pend q) + zlen (req_addrs r)).
Proof.
  intros m2 Hat Htail Hn. pose proof (place_other x h r) as Hother.
  destruct r as [a fd n off|a fd|a1 a2 fd mem iovs off ex].
  1: destruct (push_single x h (ReqRead a fd n off) a (readvSqe fd n off) q Hat Htail) as (m' & ok & E & ? & ? & ?); [done..|].
  2: destruct (push_single x h (ReqSync a fd) a (syncSqe fd) q Hat Htail) as (m' & ok & E & ? & ? & ?); [done..|].
  1, 2: eexists m', _, ok; split; [exact E|]; done.
  set (r := ReqWrite a1 a2 fd mem iovs off ex) in *.
  assert (a1 <> a2) as Hne by (apply NoDup_cons in Hn as [Hne _]; by rewrite list_elem_of_singleton in Hne).
  destruct (pushLinked_spec (place_ops x h r) a1 a2 (mkOperation (writevSqe fd mem iovs off) None 0)
    (mkOperation (syncSqe fd) (Some h) 0) q Hat Htail Hne) as (m' & heap' & ok & E & Hp & Hheap & Hfull);
    [apply place_mine; [done|repeat constructor]..|].
  exists m', heap', ok. split; [exact E|]. split; [exact Hp|]. split; [|split; [|exact Hfull]].
  - intros b Hb. rewrite <- (Hother b Hb), Hheap. destruct ok; [|done]. cbn in Hb.
    apply not_elem_of_cons in Hb as [? Hb]. rewrite list_elem_of_singleton in Hb. by rewrite !lookup_insert_ne by done.
  - intros -> b Hb. rewrite Hheap. cbn in Hb. apply elem_of_cons in Hb as [->| ->%list_elem_of_singleton].
    + rewrite lookup_insert_ne, lookup_insert_eq by done. eexists. split; [done|]. cbn. rewrite decide_False; [done|]. congruence.
    + rewrite lookup_insert_eq. eexists. split; [done|]. cbn. by rewrite decide_True.
Qed.
(** *** The invariant of the system *)

(** How many requests the holder of [sqMutex] may have in the ring. *)
Definition lock_room (cs : gmap Z (request * call_state)) (lock : option Z) : nat :=
  match (h ← lock; cs !! h) with Some (r, _) => length (req_addrs r) | None => 0 end.

Record sys_inv (f0 : file) (poll : bool) (s : ESys K) (q : queues) : Prop := {
  si_mach : mach_inv (e_calls s) (x_heap (e_x s)) (x_resumed (e_x s)) f0 (view (x_mach (e_x s))) q (e_log s);
  si_phase : x_phase (e_x s) <> Exited;
  si_stop : stopping (x_state (e_x s)) = false;
  si_poll : sqPollEnabled (x_state (e_x s)) = poll;
  si_kpoll : k_polls (m_kern (x_mach (e_x s))) = poll;
  si_entries : 2 <= sq_ringEntries (m_shm (x_mach (e_x s)));
  si_lock : poll = true \/ (length (q_pend q) <= lock_room (e_calls s) (e_lock s))%nat;
}.

Lemma sys_inv_start x fd poll : quiet x fd poll -> x_resumed x = [] ->
  sys_inv (m_file (x_mach x)) poll (start x) (mkQueues [] [] [] (userbuf (m_shm (x_mach x))) (m_file (x_mach x))).
Proof.
  intros [Hr Hi He _ Hs Hp Hpo Hk] Hres. split; try done; [|right; cbn; lia]. cbn. rewrite Hres. split.
  - split; [done|]. by rewrite Hi.
  - apply calls_inv_empty.
  - constructor.
Qed.

(** *** The completion thread *)

(** One round of the inner loop, on the queues. *)
Definition taken (q : queues) : queues :=
  mkQueues (q_pend q) (q_infl q) (tl (q_ready q)) (q_buf q) (q_file q).

Lemma drain_round cs f0 (x : Exec K) q l : x_phase x = AtDrain -> stopping (x_state x) = false ->
  let m2 := k_async (k_async (x_mach x)) in
  mach_inv cs (x_heap x) (x_resumed x) f0 (view m2) q l ->
  exists x', completionLoop x = Some x' /\
    mach_inv cs (x_heap x') (x_resumed x') f0 (view (x_mach x')) (taken q) l /\
    x_phase x' = (if decide (q_ready q = []) then AtEnter else AtDrain) /\
    stopping (x_state x') = false /\ sqPollEnabled (x_state x') = sqPollEnabled (x_state x) /\
    m_kern (x_mach x') = m_kern m2 /\ sq_ringEntries (m_shm (x_mach x')) = sq_ringEntries (m_shm m2) /\
    x_resumed x `prefix_of` x_resumed x'.
Proof.
  intros Hph Hst m2 [Hat Hc Hh]. pose proof Hat as (Hr & HI & Hb & Hf). unfold completionLoop, loadAcquire. rewrite Hph. fold m2.
  pose proof (same_cq_head _ _ (ksteps_same _ _ (async_steps (k_async (x_mach x))))) as Hcq. cbn [fst snd] in Hcq.
  rewrite <- Hcq. fold m2.
  destruct q as [P fl R b f]. cbn [q_pend q_infl q_ready q_buf q_file] in *. destruct R as [|c R].
  - destruct (Z.eqb_spec (cq_head (m_shm m2)) (cq_tail (m_shm m2))) as [_|Hne]; [|by apply (ring_ready_iff Hr) in Hne].
    eexists. split; [done|]. by split.
  - destruct (Z.eqb_spec (cq_head (m_shm m2)) (cq_tail (m_shm m2))) as [Heq|_].
    { assert (c :: R <> []) as Hne by done. by apply (ring_ready_iff Hr) in Hne. }
    destruct (ring_drain c Hr) as [-> Hr']. cbn [mbind option_bind].
    destruct (drain_inv _ _ _ _ _ _ _ Hc) as (Hz & op & Hop & Hc'). destruct (Z.eqb_spec (cqe_user_data c) 0); [done|].
    rewrite Hop. cbn [mbind option_bind]. eexists. split; [done|].
    cbn [x_mach x_heap x_resumed x_phase x_state stopping sqPollEnabled]. split.
    + split; [done| |done]. unfold todo, hand_over in *. cbn in *. destruct (op_continuation op); [exact Hc'|].
      cbn in Hc'. by rewrite app_nil_r in Hc'.
    + repeat split; try done. destruct (op_continuation op); [by apply prefix_app_r|done].
Qed.

Lemma enter_round (x : Exec K) : x_phase x = AtEnter -> stopping (x_state x) = false ->
  exists ph, completionLoop x = Some (mkExec (loop_kernel x) (x_state x) (x_heap x) ph (x_resumed x)) /\ ph <> Exited /\
    ((k_enter (x_mach x) 0 1 IORING_ENTER_GETEVENTS).2 < 0 -> ph = AtEnter) /\
    (0 <= (k_enter (x_mach x) 0 1 IORING_ENTER_GETEVENTS).2 -> ph = AtDrain).
Proof.
  intros Hph Hst. unfold completionLoop, loop_kernel. rewrite Hph, Hst.
  destruct (k_enter (x_mach x) 0 1 IORING_ENTER_GETEVENTS) as [m' ret]. cbn [fst snd].
  destruct (Z.ltb_spec ret 0).
  - exists AtEnter. split; [by destruct (k_errno m' =? EINTR)|]. split; [done|]. split; [done|lia].
  - exists AtDrain. split; [done|]. split; [done|]. split; [lia|done].
Qed.

(** *** The kernel is told *)

Lemma kick_spec `{!KernelReliable K} (m m' : mach K) st n what s poll q : at_queues (view m) q ->
  k_polls (m_kern m) = poll -> sqPollEnabled st = poll -> poll = true \/ zlen (q_pend q) <= n ->
  kick m st n what = (m', s) ->
  s = Status.Ok /\ rtc kstep (view m) (view m') /\ k_polls (m_kern m') = poll /\
  (poll = true \/ sq_head (m_shm m') = sq_tail (m_shm m')).
Proof.
  intros (Hr & _) Hk Hst Hn H. unfold kick in H. rewrite Hst in H. destruct poll.
  - unfold wakeSqPollIfNeeded, loadAcquire in H. rewrite Hst in H. cbn [negb] in H.
    pose proof (async_steps m) as Hs1. pose proof (async_polls m) as Hp1. rewrite Hk in Hp1.
    destruct (Z.land _ _ =? 0); [simplify_eq; auto|].
    destruct (k_enter (k_async m) 0 0 IORING_ENTER_SQ_WAKEUP) as [m2 ret] eqn:He.
    pose proof (enter_wakes _ _ _ He). destruct (Z.ltb_spec ret 0); [lia|]. simplify_eq. split; [done|].
    split; [etrans; [exact Hs1|by eapply enter_steps]|]. split; [|by left]. by rewrite (enter_polls _ _ _ _ _ _ He).
  - destruct Hn as [?|Hn]; [done|]. destruct (k_enter m n 0 0) as [m2 ret] eqn:He.
    destruct (enter_submits _ _ _ _ He Hk) as [Hret Heq]; [by eauto|by rewrite (shape_count (ro_sq _ _ _ Hr))|].
    destruct (Z.ltb_spec ret 0); [lia|]. simplify_eq. split; [done|]. split; [by eapply enter_steps|].
    split; [by rewrite (enter_polls _ _ _ _ _ _ He)|by right].
Qed.
(** *** Every step keeps it *)

(** Steps of the kernel alone. *)
Lemma moves_spec cs heap resumed f0 (m : mach K) l (m' : mach K) l' q :
  mach_inv cs heap resumed f0 (view m) q l -> moves m l m' l' ->
  exists q', mach_inv cs heap resumed f0 (view m') q' l' /\ forward q q' /\
    same_app (m_shm m) (m_shm m').
Proof.
  intros H Hm. destruct (klsteps_inv _ _ _ _ _ _ _ _ _ H Hm) as (q' & H' & Hl). exists q'. split; [done|]. split; [done|].
  exact (ksteps_same _ _ (klsteps_ksteps _ _ Hm)).
Qed.

Lemma async_tail (m : mach K) : sq_tail (m_shm (k_async (k_async m))) = sq_tail (m_shm (k_async m)).
Proof. exact (same_tail _ _ (ksteps_same _ _ (async_steps (k_async m)))). Qed.

Lemma lock_room_same cs lock h r st st' : cs !! h = Some (r, st) ->
  lock_room (<[h := (r, st')]> cs) lock = lock_room cs lock.
Proof.
  intros Hh. unfold lock_room. destruct lock as [h'|]; [|done]. cbn [mbind option_bind].
  destruct (decide (h' = h)) as [->|]; [by rewrite lookup_insert_eq, Hh|by rewrite lookup_insert_ne by done].
Qed.

Lemma push_sys_inv f0 poll x cs l h r x' ok l' q : sys_inv f0 poll (mkESys x cs None l) q -> fresh cs h r ->
  moves (x_mach x) l (k_async (k_async (x_mach x))) l' -> push_request (place_ops x h r) r = Some (x', ok) ->
  exists q', sys_inv f0 poll
    (if ok then mkESys x' (<[h := (r, Waiting)]> cs) (Some h) l'
     else mkESys (drop_ops x' r) (<[h := (r, Answered (req_outcome r true []))]> cs) None l') q'.
Proof.
  intros [Hmi Hph Hst Hpo Hkp Hen Hlk] Hf Hm E. cbn [e_x e_calls e_lock e_log] in *.
  destruct (moves_spec _ _ _ _ _ _ _ _ _ Hmi Hm) as (q2 & [Hat Hc Hh] & [Hl2 _ _] & Hsa).
  destruct (push_request_spec x h r q2 Hat (async_tail _) (fresh_nodup _ _ _ Hf))
    as (m' & heap' & ok' & E' & [Hpb Hpk Hpe] & Hother & Hops & _).
  rewrite E in E'. injection E' as -> <-.
  assert (forall heap2, (forall a, a ∉ req_addrs r -> heap2 !! a = x_heap x !! a) -> (ok = true -> ops_placed h r heap2) ->
    mach_inv (<[h := (r, pushed_state r ok)]> cs) heap2 (x_resumed x) f0 (view m') (push_q q2 (pushed r ok)) l') as Hmi'.
  { intros heap2 H1 H2. split; [exact Hpb| |exact Hh]. cbn [push_q q_ready]. unfold todo, push_q. cbn [q_infl q_pend].
    rewrite app_assoc. apply (push_inv Hc Hf H1 ok H2). }
  assert (k_polls (m_kern m') = poll) as Hkp' by (by rewrite Hpk, !async_polls).
  assert (2 <= sq_ringEntries (m_shm m')) as Hen' by (rewrite Hpe; by destruct Hsa as [_ _ -> _]).
  exists (push_q q2 (pushed r ok)). destruct ok.
  - split; cbn [e_x e_calls e_lock e_log x_heap x_resumed x_mach x_phase x_state]; try done; [by apply Hmi'; auto|].
    destruct Hlk as [?|Hlk]; [by left|right]. cbn in Hlk. unfold lock_room. cbn. rewrite lookup_insert_eq, length_app.
    rewrite <- req_user_data, length_fmap. lia.
  - split; cbn [e_x e_calls e_lock e_log drop_ops with_heap x_heap x_resumed x_mach x_phase x_state]; try done.
    + apply Hmi'; [|done]. intros a Ha. rewrite delete_other by done. by apply Hother.
    + destruct Hlk as [?|Hlk]; [by left|right]. cbn in *. rewrite app_nil_r. lia.
Qed.

Lemma round_sys_inv f0 poll x cs lk l l' q : sys_inv f0 poll (mkESys x cs lk l) q ->
  moves (x_mach x) l (loop_kernel x) l' ->
  exists x' q2, completionLoop x = Some x' /\ forward q q2 /\
    sys_inv f0 poll (mkESys x' cs lk l') (match x_phase x with AtDrain => taken q2 | _ => q2 end) /\
    m_kern (x_mach x') = m_kern (loop_kernel x) /\
    (x_phase x = AtDrain -> x_phase x' = if decide (q_ready q2 = []) then AtEnter else AtDrain) /\
    at_queues (view (loop_kernel x)) q2.
Proof.
  intros [Hmi Hph Hst Hpo Hkp Hen Hlk] Hm. cbn [e_x e_calls e_lock e_log] in *.
  destruct (moves_spec _ _ _ _ _ _ _ _ _ Hmi Hm) as (q2 & Hmi2 & Hfw & Hsa). pose proof (fw_pend _ _ Hfw).
  assert (poll = true \/ (length (q_pend q2) <= lock_room cs lk)%nat) as Hlk2 by (destruct Hlk; [by left|right; lia]).
  destruct (x_phase x) eqn:Ep; [| |done].
  - destruct (enter_round x Ep Hst) as (ph & E & Hne & _). eexists _, q2. split; [exact E|]. split; [done|].
    split; [|split; [done|split; [done|apply Hmi2]]].
    split; cbn [e_x e_calls e_lock e_log x_heap x_resumed x_mach x_phase x_state]; try done.
    + unfold loop_kernel. rewrite Ep. destruct (k_enter _ _ _ _) as [m' ret] eqn:He. cbn. by rewrite (enter_polls _ _ _ _ _ _ He).
    + by destruct Hsa as [_ _ -> _].
  - assert (loop_kernel x = k_async (k_async (x_mach x))) as Elk by (unfold loop_kernel; by rewrite Ep). rewrite Elk in *.
    destruct (drain_round cs f0 x q2 l' Ep Hst Hmi2) as (x' & E & Hmi' & Hp' & Hs' & Hpo' & Hk' & He' & _).
    exists x', q2. split; [done|]. split; [done|]. split; [|split; [done|split; [done|apply Hmi2]]].
    split; cbn [e_x e_calls e_lock e_log]; try done.
    + rewrite Hp'. by case_decide.
    + congruence.
    + by rewrite Hk', !async_polls.
    + rewrite He'. by destruct Hsa as [_ _ -> _].
Qed.

Context `{!KernelReliable K}.

Lemma kick_sys_inv f0 poll x cs l h r st m' s l' q : sys_inv f0 poll (mkESys x cs (Some h) l) q ->
  cs !! h = Some (r, st) -> kick_request (x_mach x) (x_state x) r = (m', s) -> moves (x_mach x) l m' l' ->
  s = Status.Ok /\ exists q', sys_inv f0 poll (mkESys (with_mach x m') cs None l') q'.
Proof.
  intros [Hmi Hph Hst Hpo Hkp Hen Hlk] Hh E Hm. cbn [e_x e_calls e_lock e_log] in *.
  destruct (moves_spec _ _ _ _ _ _ _ _ _ Hmi Hm) as (q2 & Hmi2 & _ & Hsa).
  assert (exists n what, kick (x_mach x) (x_state x) n what = (m', s) /\ n = zlen (req_addrs r)) as (n & what & E' & ->)
    by (destruct r; by eexists _, _).
  assert (lock_room cs (Some h) = length (req_addrs r)) as Hroom by (unfold lock_room; cbn; by rewrite Hh).
  assert (poll = true \/ zlen (q_pend q) <= zlen (req_addrs r)) as Hn by (rewrite Hroom in Hlk; destruct Hlk; [by left|right; lia]).
  destruct (kick_spec _ _ _ _ _ _ poll q (mi_at _ _ _ _ _ _ _ Hmi) Hkp Hpo Hn E')
    as (-> & _ & Hk & Hempty). split; [done|]. exists q2.
  split; cbn [e_x e_calls e_lock e_log with_mach x_heap x_resumed x_mach x_phase x_state]; try done.
  - by destruct Hsa as [_ _ -> _].
  - destruct Hempty as [?|Heq]; [by left|right]. destruct Hmi2 as [(Hr & _) _ _].
    apply (shape_empty (ro_sq _ _ _ Hr)) in Heq. cbn. lia.
Qed.

Lemma cstep_inv f0 poll s s' q : sys_inv f0 poll s q -> cstep s s' -> exists q', sys_inv f0 poll s' q'.
Proof.
  intros Hi Hs. destruct Hs as [x cs l h r x' l' Hf Hm E|x cs l h r x' l' Hf Hm E|x cs l h r st m' s l' Hh E Hm Hok|
    x cs l h r st m' s l' Hh E Hm Hok|x cs lk l x' l' E Hm|x cs lk l h r rs Hh Hres E|x cs lk l l' Hm].
  - by apply (push_sys_inv _ _ _ _ _ _ _ _ true _ _ Hi Hf Hm E).
  - by apply (push_sys_inv _ _ _ _ _ _ _ _ false _ _ Hi Hf Hm E).
  - by destruct (kick_sys_inv _ _ _ _ _ _ _ _ _ _ _ _ Hi Hh E Hm) as [_ ?].
  - by destruct (kick_sys_inv _ _ _ _ _ _ _ _ _ _ _ _ Hi Hh E Hm) as [-> _].
  - destruct (round_sys_inv _ _ _ _ _ _ _ _ Hi Hm) as (x2 & q2 & E2 & _ & Hi' & _). rewrite E in E2. injection E2 as <-. by eexists.
  - destruct Hi as [[Hat Hc Hhi] Hph Hst Hpo Hkp Hen Hlk]. cbn [e_x e_calls e_lock e_log] in *. exists q.
    split; cbn [e_x e_calls e_lock e_log drop_ops with_heap x_heap x_resumed x_mach x_phase x_state]; try done.
    + split; [done| |done]. by apply return_inv.
    + by rewrite (lock_room_same _ _ _ _ _ _ Hh).
  - destruct Hi as [Hmi Hph Hst Hpo Hkp Hen Hlk]. cbn [e_x e_calls e_lock e_log] in *.
    destruct (moves_spec _ _ _ _ _ _ _ _ _ Hmi Hm) as (q2 & Hmi2 & [Hl2 _ _] & Hsa). exists q2.
    split; cbn [e_x e_calls e_lock e_log with_mach x_heap x_resumed x_mach x_phase x_state]; try done.
    + by rewrite async_polls.
    + by destruct Hsa as [_ _ -> _].
    + destruct Hlk; [by left|right; lia].
Qed.

Lemma csteps_inv f0 poll s s' q : sys_inv f0 poll s q -> rtc cstep s s' -> exists q', sys_inv f0 poll s' q'.
Proof.
  intros Hi Hs. revert q Hi. induction Hs as [s|s s1 s' H1 _ IH]; intros q Hi; [by eauto|].
  destruct (cstep_inv _ _ _ _ _ Hi H1) as (q1 & Hi1). by apply (IH q1).
Qed.
(** *** Writes that return OK *)

Lemma history_event f0 l f e : history f0 l f -> e ∈ l ->
  exists f1 f2 b b', completes (ev_sqe e) (ev_cancelled e) (ev_res e) f1 f2 b b'.
Proof.
  induction 1 as [|l f f' _ IH _|l f f' s c r b b' _ IH Hco]; [by intros ?%not_elem_of_nil|done|].
  intros [He| ->%list_elem_of_singleton]%elem_of_app; [by apply IH|]. by exists f, f', b, b'.
Qed.

(** The events of a call are of its own requests. *)
Lemma event_sqe cs heap resumed R T l h r st e s : calls_inv cs heap resumed R T l -> cs !! h = Some (r, st) ->
  e ∈ l -> s ∈ req_sqes r -> user_data (ev_sqe e) = user_data s -> ev_sqe e = s.
Proof.
  intros H Hh He Hs Eu. destruct (c_log H e He) as (h' & r' & st' & Hh' & Hr').
  destruct (same_call H h r st h' r' st' (user_data s) Hh Hh') as (-> & -> & _);
    [by apply req_sqe_addr|rewrite <- Eu; by apply req_sqe_addr|].
  eapply req_sqe_unique; [apply (c_wf H _ _ _ Hh)|done..].
Qed.

(** Another call's writes, as seen by a region of the file. *)
Definition apart (off : Z) (len : nat) (l : list event) (r : request) : Prop :=
  match r with
  | ReqWrite a1 _ _ mem iovs off' _ =>
      off + Z.of_nat len <= off' \/
      (0 <= off' /\ Forall (fun v => 0 <= v) (results l a1) /\
       exists data', materializeIovecs mem iovs = Some data' /\ off' + zlen data' <= off)
  | _ => True
  end.

Lemma apart_away off len l r e : 0 <= off -> apart off len l r -> e ∈ l -> ev_sqe e ∈ req_sqes r -> away off len e.
Proof.
  intros Ho Hap He Hs Hop. destruct r as [| |a1 a2 fd mem iovs off' ex]; cbn in Hs.
  1, 2: apply list_elem_of_singleton in Hs; rewrite Hs in Hop; done.
  apply elem_of_cons in Hs as [Hs|Hs]; [|apply list_elem_of_singleton in Hs; rewrite Hs in Hop; done].
  rewrite Hs. cbn. destruct Hap as [Hap|(Ho' & Hpos & d & Hd & Hap)]; [left; lia|right]. split.
  - rewrite Forall_forall in Hpos. apply Hpos. apply list_elem_of_split in He as (l1 & l2 & ->).
    destruct (results_here l1 e l2) as (rs1 & rs2 & E & _). rewrite Hs in E. cbn in E. rewrite E. apply elem_of_app. right. constructor.
  - intros mem' iovs' d' [= <- <-] Hd'. simplify_eq. lia.
Qed.

Lemma linkedResult_ok r1 r2 ex : linkedResult false r1 r2 ex = Status.Ok -> 0 <= r1 /\ u64 r1 = ex /\ 0 <= r2.
Proof.
  unfold linkedResult. destruct (Z.ltb_spec r1 0); [done|]. destruct (Z.eqb_spec (u64 r1) ex); [|done]. cbn [negb].
  by destruct (Z.ltb_spec r2 0).
Qed.

Lemma full_write s c r f f' b b' mem iovs data : completes s c r f f' b b' -> opcode s = IORING_OP_WRITEV ->
  sqe_addr s = IovecArray mem iovs -> materializeIovecs mem iovs = Some data -> 0 <= r -> u64 r = zlen data ->
  c = false /\ r = zlen data.
Proof.
  intros H Ho Ha Hd Hr Hu. destruct c; [destruct H as (-> & _); by unfold ECANCELED in Hr|]. split; [done|]. cbn in H.
  inversion H as [|? ? ? ? _ Hneg|? ? ? mem' iovs' d _ Ha' _ Hd' Hr'|? ? ? ? Ho'|? ? Ho'|? ? Ho']; subst;
    try (by rewrite Ho in Ho'); try lia.
  rewrite Ha in Ha'. simplify_eq. pose proof (u64_range r). rewrite u64_small in Hu; lia.
Qed.

(** The history of a write that returned OK: its write, all of it, and behind it its sync. *)
Lemma write_ok_events cs heap resumed R T l f0 f h a1 a2 fd mem iovs off data :
  let r := ReqWrite a1 a2 fd mem iovs off (zlen data) in
  calls_inv cs heap resumed R T l -> history f0 l f -> cs !! h = Some (r, Answered (OStatus Status.Ok)) ->
  materializeIovecs mem iovs = Some data ->
  exists l1 e1 l2, l = l1 ++ e1 :: l2 /\ wrote off data e1 /\ Exists synced l2 /\ user_data (ev_sqe e1) = a1 /\
    results l2 a1 = [].
Proof.
  intros r H Hhist Hh Hd. destruct (c_done H h r _ Hh) as [(_ & rs & Hrs & Ho)|(_ & _ & Ho)]; [|done].
  destruct rs as [|r1 [|r2 []]]; try (by inversion Hrs; simplify_eq; repeat match goal with X : Forall2 _ _ _ |- _ => inversion X; clear X end).
  apply Forall2_cons in Hrs as [R1 Hrs]. apply Forall2_cons in Hrs as [R2 _]. cbn in Ho. injection Ho as Ho. symmetry in Ho.
  destruct (linkedResult_ok _ _ _ Ho) as (P1 & U1 & P2).
  set (s1 := with_user_data (link_sqe (writevSqe fd mem iovs off)) a1). set (s2 := with_user_data (syncSqe fd) a2).
  assert (s1 ∈ req_sqes r) as Hs1 by constructor. assert (s2 ∈ req_sqes r) as Hs2 by repeat constructor.
  destruct (results_elem l a2 r2) as (e2 & He2 & E2 & V2); [rewrite R2; constructor|].
  pose proof (event_sqe _ _ _ _ _ _ h r _ e2 s2 H Hh He2 Hs2 E2) as Q2.
  apply list_elem_of_split in He2 as (lA & lB & El).
  pose proof (c_log_order H h r _ s1 s2 lA e2 lB Hh eq_refl El Q2) as (e1 & Q1 & He1)%list_elem_of_fmap.
  apply list_elem_of_split in He1 as (l1 & lC & ->). rewrite <- app_assoc in El. cbn in El.
  destruct (results_here l1 e1 (lC ++ e2 :: lB)) as (rs1 & rs2 & Er & Ers). rewrite <- El, <- Q1 in Er. cbn in Er. rewrite R1 in Er.
  assert (rs1 = [] /\ ev_res e1 = r1 /\ rs2 = []) as (-> & V1 & ->) by (destruct rs1 as [|? []]; simplify_eq/=; done).
  destruct (history_event f0 l f e1 Hhist) as (f1 & f2 & b & b' & Hco); [rewrite El; apply elem_of_app; right; constructor|].
  rewrite <- Q1, V1 in Hco. destruct (full_write _ _ _ _ _ _ _ mem iovs data Hco eq_refl eq_refl Hd P1 U1) as [Ec Er1].
  exists l1, e1, (lC ++ e2 :: lB). split; [done|]. split; [|split; [|split]].
  - unfold wrote. rewrite <- Q1. cbn. rewrite V1. eauto 8.
  - apply Exists_app. right. apply Exists_cons. left. unfold synced. rewrite Q2, V2. done.
  - by rewrite <- Q1.
  - rewrite <- Q1 in Ers. by symmetry.
Qed.

Lemma write_ok_stored cs heap resumed R T l f0 f h a1 a2 fd mem iovs off data :
  calls_inv cs heap resumed R T l -> history f0 l f ->
  cs !! h = Some (ReqWrite a1 a2 fd mem iovs off (zlen data), Answered (OStatus Status.Ok)) ->
  materializeIovecs mem iovs = Some data -> 0 <= off ->
  (forall h' r st, h' <> h -> cs !! h' = Some (r, st) -> apart off (length data) l r) -> stored f off data.
Proof.
  intros H Hhist Hh Hd Ho Hap.
  destruct (write_ok_events _ _ _ _ _ _ _ _ _ _ _ _ _ _ _ _ H Hhist Hh Hd) as (l1 & e1 & l2 & El & Hw & Hs & E1 & Hnone).
  destruct (history_stored f0 off data l f Hhist l1 e1 l2 El Hw) as [_ Hst]; [|by apply Hst].
  apply Forall_forall. intros e He. assert (e ∈ l) as Hel by (rewrite El; apply elem_of_app; right; by constructor).
  destruct (c_log H e Hel) as (h' & r' & st & Hh' & Hr'). destruct (decide (h' = h)) as [->|Hne].
  - rewrite Hh in Hh'. injection Hh' as <- <-. intros Hop. exfalso. cbn in Hr'.
    apply elem_of_cons in Hr' as [Hs1|Hs2]; [|apply list_elem_of_singleton in Hs2; by rewrite Hs2 in Hop].
    apply list_elem_of_split in He as (l3 & l4 & ->). destruct (results_here l3 e l4) as (rs1 & rs2 & E & _).
    rewrite Hs1 in E. cbn in E. rewrite Hnone in E. by destruct rs1.
  - by eapply apart_away; [|eapply Hap| |].
Qed.
(** *** Everything submitted is completed *)

Fixpoint run_loop (n : nat) (x : Exec K) : option (Exec K) :=
  match n with
  | O => Some x
  | S n => x ← completionLoop x; run_loop n x
  end.

Definition open_count (q : queues) : nat := length (q_ready q) + length (todo q).

(** An upper bound on the rounds the completion thread still needs. *)
Definition rounds_left (x : Exec K) (q : queues) : nat :=
  3 * open_count q + k_patience (m_kern (x_mach x)) +
  match x_phase x, q_ready q with
  | AtEnter, _ => 1
  | AtDrain, [] => 2
  | _, _ => 0
  end.

(** While something is outstanding there is something to wait for. *)
Lemma open_live f0 poll x cs l q : sys_inv f0 poll (mkESys x cs None l) q -> open_count q <> 0%nat ->
  can_complete (k_inflight (m_kern (x_mach x))) (k_polls (m_kern (x_mach x))) (m_shm (x_mach x)).
Proof.
  intros [[(Hr & HI & _) _ _] _ _ _ Hkp _ Hlk] Hc. cbn [e_x e_calls e_lock] in *. unfold open_count, todo in Hc.
  rewrite length_app, length_fmap, HI in Hc. unfold can_complete. rewrite Hkp.
  destruct (q_ready q) as [|c R] eqn:ER; [|right; left; by apply (ring_ready_iff Hr)].
  destruct (k_inflight (m_kern (x_mach x))) as [|i fl]; [|by left]. right. right. cbn in Hc, Hlk.
  destruct Hlk as [->|Hlk]; [|lia]. split; [done|]. intros E%(shape_empty (ro_sq _ _ _ Hr)). lia.
Qed.

Lemma loop_moves (x : Exec K) l : exists l', moves (x_mach x) l (loop_kernel x) l'.
Proof.
  apply ksteps_klsteps. unfold loop_kernel. destruct (x_phase x); [| |apply rtc_refl].
  - destruct (k_enter _ _ _ _) as [m' ret] eqn:He. by eapply enter_steps.
  - etrans; apply async_steps.
Qed.

Lemma loop_progress f0 poll x cs l q : sys_inv f0 poll (mkESys x cs None l) q -> open_count q <> 0%nat ->
  exists x' l' q', completionLoop x = Some x' /\ sys_inv f0 poll (mkESys x' cs None l') q' /\
    (rounds_left x' q' < rounds_left x q)%nat.
Proof.
  intros Hi Hc. pose proof (open_live _ _ _ _ _ _ Hi Hc) as Hlive. destruct (loop_moves x l) as [l' Hm].
  destruct (round_sys_inv _ _ _ _ _ _ _ _ Hi Hm) as (x' & q2 & E & [_ Hrdy Hcount] & Hi' & Hk & Hp & Hat).
  exists x', l', (match x_phase x with AtDrain => taken q2 | _ => q2 end). split; [done|]. split; [done|].
  unfold rounds_left. rewrite Hk. unfold open_count in *. destruct (x_phase x) eqn:Ep; [| |by destruct (si_phase _ _ _ _ Hi)].
  - destruct (enter_round x Ep (si_stop _ _ _ _ Hi)) as (ph & E' & _ & Hneg & Hpos). rewrite E in E'. injection E' as ->.
    cbn [x_phase]. unfold loop_kernel in *. rewrite Ep in *. destruct (k_enter _ _ _ _) as [m' ret] eqn:He. cbn [fst snd] in *.
    destruct (enter_waits _ _ _ He (ex_intro _ _ (ex_intro _ _ (proj1 (mi_at _ _ _ _ _ _ _ (si_mach _ _ _ _ Hi))))) Hlive)
      as [[Hr Hless]|[Hr Hready]].
    + rewrite (Hneg Hr). lia.
    + rewrite (Hpos Hr). pose proof (enter_patience _ _ _ _ _ _ He). destruct Hat as (Hring & _).
      apply (ring_ready_iff Hring) in Hready. destruct (q_ready q2); [done|]. lia.
  - rewrite (Hp eq_refl). unfold loop_kernel in *. rewrite Ep in *. pose proof (async_patience2 (x_mach x)).
    unfold taken, todo in *. cbn [q_ready q_infl q_pend]. destruct (q_ready q2) as [|c R]; cbn [length tl] in *.
    + rewrite decide_True by done. destruct (q_ready q); cbn [length] in *; lia.
    + rewrite decide_False by done. destruct R, (q_ready q); cbn [length] in *; lia.
Qed.

Lemma loop_finishes f0 poll cs n : forall x l q, sys_inv f0 poll (mkESys x cs None l) q -> (rounds_left x q <= n)%nat ->
  exists k x' l' q', (k <= n)%nat /\ run_loop k x = Some x' /\ sys_inv f0 poll (mkESys x' cs None l') q' /\ open_count q' = 0%nat.
Proof.
  induction n as [|n IH]; intros x l q Hi Hn.
  - exists 0%nat, x, l, q. split; [lia|]. split; [done|]. split; [done|]. unfold rounds_left in Hn. lia.
  - destruct (decide (open_count q = 0%nat)) as [E|E]; [exists 0%nat, x, l, q; split; [lia|done]|].
    destruct (loop_progress _ _ _ _ _ _ Hi E) as (x1 & l1 & q1 & E1 & Hi1 & Hless).
    destruct (IH x1 l1 q1 Hi1) as (k & x' & l' & q' & Hk & E' & Hi' & Hz); [lia|].
    exists (S k), x', l', q'. split; [lia|]. cbn [run_loop]. by rewrite E1.
Qed.



End System.
