(* ===== verification/UringSim.v ===== *)
(** * A kernel for the examples

    A kernel that takes what is submitted and completes everything in order when it is
    waited for. It behaves as documented, so the properties of the executor are about
    something; a variant that refuses some submissions shows what the executor does then. *)

From stdpp Require Import relations.
From S2P Require Import Prelude Status Coding Crc32c WriteBatch Wal Io UringExecutor UringKernel UringFacts UringTheorems.
From S2P Require Import UringLifecycle UringIo DbOpen.

(** [refuse]: for each submission to come, whether it is refused; ignored by a [reliable]
    kernel. *)
Record simk (reliable : bool) := mkSimk {
  sk_inflight : list (sqe * bool);
  sk_refuse : list bool;
  sk_time : Z;
  sk_fds : gset Z;
  sk_maps : gmap Z Z;
  sk_threads : bool;
}.
Arguments mkSimk {reliable} sk_inflight sk_refuse sk_time sk_fds sk_maps sk_threads.
Arguments sk_threads {reliable} s.
Arguments sk_fds {reliable} s.
Arguments sk_maps {reliable} s.
Arguments sk_inflight {reliable} s.
Arguments sk_refuse {reliable} s.
Arguments sk_time {reliable} s.

(** One request, run. *)
Definition exec_op (s : sqe) (f : file) (b : bytes) : Z * file * bytes :=
  if opcode s =? IORING_OP_WRITEV then
    match sqe_addr s with
    | IovecArray mem iovs =>
        match materializeIovecs mem iovs with
        | Some data =>
            if sqe_len s =? zlen iovs
            then (zlen data, mkFile (pwrite (content f) (sqe_off s) (take (Z.to_nat (zlen data)) data)) (durable f), b)
            else (-22, f, b)
        | None => (-14, f, b)
        end
    | _ => (-22, f, b)
    end
  else if opcode s =? IORING_OP_READV then
    match sqe_addr s with
    | BufferIovec n =>
        if 0 <=? n then
          let r := Z.min n (zlen (drop (Z.to_nat (sqe_off s)) (content f))) in
          (r, f, take (Z.to_nat r) (drop (Z.to_nat (sqe_off s)) (content f)) ++ drop (Z.to_nat r) b)
        else (-22, f, b)
    | _ => (-22, f, b)
    end
  else if opcode s =? IORING_OP_FSYNC then (0, mkFile (content f) (content f), b)
  else if opcode s =? IORING_OP_NOP then (0, f, b)
  else (-22, f, b).

(** Everything in flight, in order, while there is room for the completions. *)
Fixpoint complete_all (sv : bool) (infl : list (sqe * bool)) (m : Shm) (f : file) : list (sqe * bool) * Shm * file :=
  match infl with
  | [] => ([], m, f)
  | (s, c) :: post =>
      let c := c || sv in
      let '(r, f', b') := if c then (- ECANCELED, f, userbuf m) else exec_op s f (userbuf m) in
      match post_cqe m (mkCqe (user_data s) r) b' with
      | None => (sever sv infl, m, f)
      | Some m' => complete_all (linked s && (c || severs s r)) post m' f'
      end
  end.

(** Up to [n] requests from the ring. *)
Fixpoint consume (n : nat) (infl : list (sqe * bool)) (m : Shm) : list (sqe * bool) * Shm :=
  match n with
  | O => (infl, m)
  | S n =>
      if sq_head m =? sq_tail m then (infl, m) else
      match sq_slot m (sq_head m) with
      | None => (infl, m)
      | Some s => consume n (infl ++ [(s, false)]) (set_sq_head m (u32 (sq_head m + 1)))
      end
  end.

Section Simk.
Context {reliable : bool}.

Definition simk_enter (m : mach (simk reliable)) (n c fl : Z) : mach (simk reliable) * Z :=
  let k := m_kern m in
  if c =? 1 then
    let '(infl, shm, f) := complete_all false (sk_inflight k) (m_shm m) (m_file m) in
    (mkMach (mkSimk infl (sk_refuse k) (sk_time k) (sk_fds k) (sk_maps k) (sk_threads k)) shm f, 0)
  else
    let k' := mkSimk (sk_inflight k) (tl (sk_refuse k)) (sk_time k) (sk_fds k) (sk_maps k) (sk_threads k) in
    if negb reliable && hd false (sk_refuse k) && (0 <? n) then (mkMach k' (m_shm m) (m_file m), -1) else
    let '(infl, shm) := consume (Z.to_nat n) (sk_inflight k) (m_shm m) in
    (mkMach (mkSimk infl (tl (sk_refuse k)) (sk_time k) (sk_fds k) (sk_maps k) (sk_threads k)) shm (m_file m), n).

#[global] Instance simk_Kernel : Kernel (simk reliable) := {|
  k_async := fun m => m;
  k_enter := simk_enter;
  k_errno := fun _ => 11;
|}.

Lemma exec_op_done s f b r f' b' : exec_op s f b = (r, f', b') -> op_done s r f f' b b'.
Proof.
  unfold exec_op. intros H. assert (forall off, same_below off f f) as Hsb by done.
  destruct (Z.eqb_spec (opcode s) IORING_OP_WRITEV) as [Ew|Ew].
  - destruct (sqe_addr s) as [|mem iovs|n] eqn:Ea; [simplify_eq; by apply done_write_fail| |simplify_eq; by apply done_write_fail].
    destruct (materializeIovecs mem iovs) as [data|] eqn:Em; [|simplify_eq; by apply done_write_fail].
    destruct (Z.eqb_spec (sqe_len s) (zlen iovs)) as [El|]; simplify_eq; [|by apply done_write_fail].
    eapply done_write; eauto. lia.
  - destruct (Z.eqb_spec (opcode s) IORING_OP_READV) as [Er|Er].
    + destruct (sqe_addr s) as [| |n] eqn:Ea; [simplify_eq; by apply done_fail..|].
      destruct (Z.leb_spec 0 n); simplify_eq; [|by apply done_fail].
      eapply done_read; eauto; lia.
    + destruct (Z.eqb_spec (opcode s) IORING_OP_FSYNC); simplify_eq; [by apply done_sync|].
      destruct (Z.eqb_spec (opcode s) IORING_OP_NOP); simplify_eq; [by apply done_nop|by apply done_fail].
Qed.

Lemma complete_all_steps infl : forall sv m f infl' m' f', complete_all sv infl m f = (infl', m', f') ->
  rtc kstep (sever sv infl, m, f) (infl', m', f').
Proof.
  induction infl as [|[s c] post IH]; intros sv m f infl' m' f' H; cbn [complete_all] in H.
  - simplify_eq. destruct sv; apply rtc_refl.
  - assert (sever sv ((s, c) :: post) = (s, c || sv) :: post) as Hsv by (destruct sv, c; done).
    destruct (if c || sv then _ else _) as [[r f1] b1] eqn:Ex.
    destruct (post_cqe m (mkCqe (user_data s) r) b1) as [m1|] eqn:Hp; [|simplify_eq; apply rtc_refl].
    rewrite Hsv. eapply rtc_l; [|by apply IH]. apply (k_complete [] s (c || sv) post m m1 f f1 b1 r); [done| |done].
    unfold completes. destruct (c || sv); [by simplify_eq|]. by apply exec_op_done.
Qed.

Lemma consume_steps n : forall infl m infl' m' f, consume n infl m = (infl', m') -> rtc kstep (infl, m, f) (infl', m', f).
Proof.
  induction n as [|n IH]; intros infl m infl' m' f H; cbn [consume] in H; [simplify_eq; apply rtc_refl|].
  destruct (Z.eqb_spec (sq_head m) (sq_tail m)) as [|Hne]; [simplify_eq; apply rtc_refl|].
  destruct (sq_slot m (sq_head m)) as [s|] eqn:Hs; [|simplify_eq; apply rtc_refl].
  eapply rtc_l; [by apply (k_consume infl m f s)|]. by apply IH.
Qed.

Lemma simk_steps (m m' : mach (simk reliable)) n c fl ret : simk_enter m n c fl = (m', ret) ->
  rtc kstep (sk_inflight (m_kern m), m_shm m, m_file m) (sk_inflight (m_kern m'), m_shm m', m_file m').
Proof.
  unfold simk_enter. intros H. destruct (c =? 1).
  - destruct (complete_all _ _ _ _) as [[infl shm] f] eqn:E. simplify_eq. by apply complete_all_steps in E.
  - destruct (_ && (0 <? n)); [simplify_eq; apply rtc_refl|].
    destruct (consume _ _ _) as [infl shm] eqn:E. simplify_eq. eapply consume_steps. exact E.
Qed.

(** Completing in order leaves something to read. *)
Lemma complete_all_ready infl : forall sv m f infl' m' f' P R, ring_ok m P R ->
  complete_all sv infl m f = (infl', m', f') -> infl <> [] \/ R <> [] -> cq_head m' <> cq_tail m'.
Proof.
  induction infl as [|[s c] post IH]; intros sv m f infl' m' f' P R Hr H Hne; cbn [complete_all] in H.
  - simplify_eq. apply (ring_ready_iff Hr). by destruct Hne.
  - destruct (if c || sv then _ else _) as [[r f1] b1].
    destruct (post_cqe m (mkCqe (user_data s) r) b1) as [m1|] eqn:Hp.
    + destruct (ring_post _ _ _ Hr Hp) as [Hr1 _]. eapply IH; [exact Hr1|exact H|]. right. by destruct R.
    + simplify_eq. apply (ring_ready_iff Hr). intros ->. unfold post_cqe in Hp.
      rewrite (shape_count (ro_cq _ _ _ Hr)) in Hp. pose proof (shape_bounds (ro_cq _ _ _ Hr)).
      destruct (Z.ltb_spec (zlen ([] : list cqe)) (cq_ringEntries m')); [|cbn in *; lia].
      destruct (vec_set_some (cqes m') (Z.land (cq_tail m') (cq_ringMask m')) (mkCqe (user_data s) r)) as (cs & E & _);
        [rewrite (ro_cqes _ _ _ Hr); apply (shape_index_range (ro_cq _ _ _ Hr))|]. by rewrite E in Hp.
Qed.

#[global] Instance simk_KernelSpec : KernelSpec (simk reliable).
Proof.
  refine {| k_inflight := sk_inflight; k_polls := fun _ => false; k_patience := fun _ => 0%nat |}; try done.
  - intros. by eapply simk_steps.
  - intros m m' ret H (P & R & Hr) Hl. cbn in H. unfold simk_enter in H. cbn [Z.eqb Pos.eqb] in H.
    destruct (complete_all _ _ _ _) as [[infl shm] f] eqn:E. simplify_eq. right. split; [done|].
    eapply complete_all_ready; [exact Hr|exact E|].
    destruct Hl as [|[Hc|[? _]]]; [by left|right; by apply (ring_ready_iff Hr)|done].
Defined.

(** Taking as many requests as there are empties the ring. *)
Lemma consume_empties n : forall P infl m infl' m' R, ring_ok m P R -> (length P <= n)%nat ->
  consume n infl m = (infl', m') -> sq_head m' = sq_tail m'.
Proof.
  induction n as [|n IH]; intros [|s P] infl m infl' m' R Hr Hn H; cbn [consume length] in *; [|lia|..].
  - simplify_eq. by apply (shape_empty (ro_sq _ _ _ Hr)).
  - destruct (Z.eqb_spec (sq_head m) (sq_tail m)) as [He|Hne]; [by simplify_eq|].
    by destruct Hne; apply (shape_empty (ro_sq _ _ _ Hr)).
  - destruct (Z.eqb_spec (sq_head m) (sq_tail m)) as [He|_];
      [apply (shape_empty (ro_sq _ _ _ Hr)) in He; len|].
    destruct (ring_pop s Hr) as [Hs Hr']. rewrite Hs in H. eapply IH; [exact Hr'|lia|exact H].
Qed.

End Simk.

#[global] Instance simk_reliable : KernelReliable (simk true).
Proof.
  split.
  - intros m n m' ret H _ (P & R & Hr) Hn. cbn in H. unfold simk_enter in H. cbn [Z.eqb negb andb] in H.
    destruct (consume _ _ _) as [infl shm] eqn:E. simplify_eq. cbn [m_shm].
    rewrite (shape_count (ro_sq _ _ _ Hr)) in Hn. split; [lia|]. eapply consume_empties; [exact Hr| |exact E]. lia.
  - intros m m' ret H. cbn in H. unfold simk_enter in H. cbn [Z.eqb negb andb] in H.
    destruct (consume _ _ _) as [infl shm]. by simplify_eq.
Qed.

#[global] Instance simk_Posix {reliable} : Posix (simk reliable) := {|
  p_now k := (mkSimk (sk_inflight k) (sk_refuse k) (sk_time k + 1000) (sk_fds k) (sk_maps k) (sk_threads k), sk_time k);
  p_fstat k f := (k, Some (zlen (content f)));
  p_ftruncate k f n := (k, mkFile (truncate (content f) n) (durable f), true);
  p_errno _ := 0;
  p_frame _ := mkFrame 4096 8192 77;
|}.

#[global] Instance simk_PosixSpec {reliable} : PosixSpec (simk reliable).
Proof.
  split.
  - intros k k' t H. cbn in H. by simplify_eq.
  - intros k f k' r H. cbn in H. simplify_eq. split; [done|]. by intros n [= <-].
  - intros k f n k' f' ok Hn H. cbn in H. simplify_eq. split; [done|]. split; [done|].
    split; [|done]. cbn [content]. unfold truncate. by rewrite take_take, Nat.min_id, take_app_le by lia.
  - done.
Qed.

(** Descriptor 5, if it is free, for a ring of at most eight entries without polling, and
    mappings at multiples of a page. *)
Definition sim_params : io_uring_params :=
  mkParams 8 16 IORING_FEAT_SINGLE_MMAP 0 4 8 12 16 (64 + 16 * sizeof_cqe) 20 24 28 32 64.

Definition with_resources {reliable} (k : simk reliable) (fds : gset Z) (maps : gmap Z Z) : simk reliable :=
  mkSimk (sk_inflight k) (sk_refuse k) (sk_time k) fds maps (sk_threads k).

#[global] Instance simk_Setup {reliable} : Setup (simk reliable) := {|
  sys_setup k n fl idle :=
    if bool_decide (5 ∈ sk_fds k) || (n >? 8) || negb (fl =? 0) then (k, -1, sim_params)
    else (mkSimk [] (sk_refuse k) (sk_time k) ({[5]} ∪ sk_fds k) (sk_maps k) (sk_threads k), 5, sim_params);
  sys_mmap k sz fd off :=
    let p := 4096 * (1 + Z.of_nat (size (sk_maps k))) in
    match sk_maps k !! p with
    | None => (with_resources k (sk_fds k) (<[p := sz]> (sk_maps k)), p)
    | Some _ => (k, MAP_FAILED)
    end;
  sys_munmap k p sz := with_resources k (sk_fds k) (delete p (sk_maps k));
  sys_close k fd := with_resources k (sk_fds k ∖ {[fd]}) (sk_maps k);
  sys_errno _ := 12;
  sys_thread k := sk_threads k;
|}.

#[global] Instance simk_SetupSpec {reliable} : SetupSpec (simk reliable).
Proof.
  refine {| k_fds := sk_fds; k_maps := sk_maps |}; try done.
  - intros k n fl idle k' fd p H. cbn in H. rewrite Z.gtb_ltb in H. case_bool_decide; cbn in H; [by simplify_eq|].
    destruct (Z.ltb_spec 8 n); cbn in H; [by simplify_eq|]. destruct (fl =? 0); simplify_eq/=; [|done].
    split; [done|]. split; [done|]. split; [done|].
    split; cbn; repeat (apply Forall_cons; split); try apply Forall_nil; try done.
  - intros k sz fd off k' p H. cbn in H. destruct (sk_maps k !! _) eqn:E; simplify_eq/=; [done|]. split; [done|].
    destruct (Z.eqb_spec (4096 * (1 + Z.of_nat (size (sk_maps k)))) MAP_FAILED); [unfold MAP_FAILED in *; lia|].
    split; [lia|done].
  - intros m n c fl m' ret H. cbn in H. unfold simk_enter in H. destruct (c =? 1).
    + destruct (complete_all _ _ _ _) as [[infl shm] f]. by simplify_eq.
    + destruct (_ && (0 <? n)); [by simplify_eq|]. destruct (consume _ _ _) as [infl shm]. by simplify_eq.
Defined.

(** Rings of eight and sixteen entries, both about to wrap around. *)
Definition sim_shm : Shm :=
  mkShm (2 ^ 32 - 1) (2 ^ 32 - 1) 7 8 0 (replicate 8 0) (replicate 8 sqe_zero)
    (2 ^ 32 - 1) (2 ^ 32 - 1) 15 16 (replicate 16 (mkCqe 0 0)) [].

Lemma sim_shm_ok : ring_ok sim_shm [] [].
Proof.
  split; cbn; try done.
  - split; cbn; try done. by exists 3.
  - split; cbn; try done. by exists 4.
Qed.

(** The log is descriptor 3, if it is free. *)
#[global] Instance simk_OpenFile {reliable} : OpenFile (simk reliable) := {|
  fs_create_directories k := (k, true);
  fs_open k := if bool_decide (3 ∈ sk_fds k) then (k, -1) else (with_resources k ({[3]} ∪ sk_fds k) (sk_maps k), 3);
  fs_close k fd := with_resources k (sk_fds k ∖ {[fd]}) (sk_maps k);
  ring_memory _ _ := sim_shm;
|}.

#[global] Instance simk_OpenSpec {L : Libc} {reliable} : OpenSpec (simk reliable).
Proof.
  split.
  - by intros k k' ok [= <- _].
  - intros k k' fd H. cbn in H. case_bool_decide; by simplify_eq/=.
  - done.
  - intros k0 o k st H. split; [apply sim_shm_ok|]. unfold Create, init in H. cbn in H. rewrite Z.gtb_ltb in H.
    case_bool_decide; cbn in H; [done|]. destruct (Z.ltb_spec 8 (entries o)); cbn in H; [done|].
    destruct (sqPoll o); cbn in H; [done|]. repeat case_match; simplify_eq/=; done.
  - intros k k' t H. cbn in H. by simplify_eq.
  - intros k f k' r H. cbn in H. by simplify_eq.
  - intros k f n k' f' ok H. cbn in H. by simplify_eq.
Qed.

(** ** One operation on this kernel

    It completes with what [exec_op] returns; so a read returns all it was asked for. *)
Section OneOperation.
Context {L : Libc}.

(** The completion is posted: there is room in an empty ring. *)
Lemma post_empty m P c b : ring_ok m P [] -> exists m', post_cqe m c b = Some m'.
Proof.
  intros Hr. unfold post_cqe. rewrite (shape_count (ro_cq _ _ _ Hr)). pose proof (shape_bounds (ro_cq _ _ _ Hr)).
  destruct (Z.ltb_spec (zlen ([] : list cqe)) (cq_ringEntries m)); [|cbn in *; lia].
  destruct (vec_set_some (cqes m) (Z.land (cq_tail m) (cq_ringMask m)) c) as (cs & -> & _);
    [rewrite (ro_cqes _ _ _ Hr); apply (shape_index_range (ro_cq _ _ _ Hr))|]. by eexists.
Qed.

(** The thread waits for the request that was taken, and resumes its coroutine. *)
Lemma simk_waits fuel (x : Exec (simk true)) s c op r f' b' :
  ring_ok (m_shm (x_mach x)) [] [] -> sk_inflight (m_kern (x_mach x)) = [(s, false)] ->
  exec_op s (m_file (x_mach x)) (userbuf (m_shm (x_mach x))) = (r, f', b') -> user_data s <> 0 ->
  x_heap x !! user_data s = Some op -> op_continuation op = Some c -> x_resumed x = [] ->
  x_phase x = AtEnter -> (2 <= fuel)%nat ->
  exists x', runUntilResumed fuel c x = Some x' /\ userbuf (m_shm (x_mach x')) = b' /\
    op_result <$> x_heap x' !! user_data s = Some r.
Proof.
  intros Hr Hi Hex Hud Hop Hc Hres Hph Hf. destruct fuel as [|[|fuel]]; [lia..|].
  destruct (post_empty _ _ (mkCqe (user_data s) r) b' Hr) as [m1 Hp]. destruct (ring_post _ _ _ Hr Hp) as [Hr1 Hb].
  destruct (ring_drain _ Hr1) as [Hg _]. assert (cq_head m1 <> cq_tail m1) as Hne by (by apply (ring_ready_iff Hr1)).
  apply Z.eqb_neq in Hne, Hud. cbn [runUntilResumed]. rewrite Hres, bool_decide_false by apply not_elem_of_nil.
  assert (exists k, completionLoop x = Some (mkExec (mkMach k m1 f') (x_state x) (x_heap x) AtDrain [])) as [k ->].
  { unfold completionLoop. rewrite Hph. cbn [k_enter simk_Kernel]. unfold simk_enter. cbn [Z.eqb Pos.eqb]. rewrite Hi.
    cbn [complete_all orb andb]. rewrite Hex, Hp, Hres. by eexists. }
  cbn [mbind option_bind x_resumed]. rewrite bool_decide_false by apply not_elem_of_nil.
  unfold completionLoop, loadAcquire. cbn [k_async simk_Kernel x_mach m_shm x_phase x_heap x_state x_resumed].
  rewrite Hne, Hg. cbn [mbind option_bind cqe_user_data cqe_res]. rewrite Hud, Hop. cbn [mbind option_bind]. rewrite Hc.
  eexists. split.
  - destruct fuel; cbn [runUntilResumed x_resumed app]; rewrite bool_decide_true by set_solver; reflexivity.
  - cbn. rewrite lookup_insert_eq. by split.
Qed.

(** It may have some draining to do first, and finds nothing. *)
Lemma simk_resumes fuel (x : Exec (simk true)) s c op r f' b' :
  ring_ok (m_shm (x_mach x)) [] [] -> sk_inflight (m_kern (x_mach x)) = [(s, false)] ->
  exec_op s (m_file (x_mach x)) (userbuf (m_shm (x_mach x))) = (r, f', b') -> user_data s <> 0 ->
  x_heap x !! user_data s = Some op -> op_continuation op = Some c -> x_resumed x = [] ->
  x_phase x <> Exited -> (3 <= fuel)%nat ->
  exists x', runUntilResumed fuel c x = Some x' /\ userbuf (m_shm (x_mach x')) = b' /\
    op_result <$> x_heap x' !! user_data s = Some r.
Proof.
  intros Hr Hi Hex Hud Hop Hc Hres Hph Hf. destruct (x_phase x) eqn:Hp; [|clear Hph|done].
  { eapply simk_waits; eauto. lia. }
  destruct fuel as [|fuel]; [lia|]. cbn [runUntilResumed]. rewrite Hres, bool_decide_false by apply not_elem_of_nil.
  unfold completionLoop, loadAcquire. rewrite Hp. cbn [k_async simk_Kernel].
  destruct (Z.eqb_spec (cq_head (m_shm (x_mach x))) (cq_tail (m_shm (x_mach x)))) as [_|Hne];
    [|by apply (ring_ready_iff Hr) in Hne].
  cbn [mbind option_bind]. eapply simk_waits; eauto. lia.
Qed.

Lemma simk_single fr (x : Exec (simk true)) fd poll s e1 e2 fuel r f' b' :
  quiet x fd poll -> addr1 fr <> 0 -> exec_op s (m_file (x_mach x)) (userbuf (m_shm (x_mach x))) = (r, f', b') ->
  (3 <= fuel)%nat ->
  exists x', awaitSingle fuel fr x s e1 e2 = Some (x', singleResult false r e1 e2) /\ userbuf (m_shm (x_mach x')) = b'.
Proof.
  intros [Hr Hi Hen [Hfd Hfd0] _ Hph Hpo Hkp] Ha Hex Hf. cbn in Hkp. subst poll. unfold awaitSingle, submit. cbn [x_state x_heap orb].
  destruct (Z.ltb_spec (ringFd (x_state x)) 0); [lia|]. rewrite lookup_singleton_eq. cbn [mbind option_bind op_sqe x_mach].
  unfold submitRaw, loadAcquire. cbn [k_async simk_Kernel]. rewrite (shape_count (ro_sq _ _ _ Hr)), Z.geb_leb.
  destruct (Z.leb_spec (sq_ringEntries (m_shm (x_mach x))) (zlen ([] : list sqe))) as [Hz|_]; [cbn in Hz; lia|].
  destruct (ring_push (with_user_data s (addr1 fr)) Hr) as (es & array & -> & -> & Hr1); [cbn; lia|]. cbn [mbind option_bind].
  rewrite <- Hkp. cbn [k_enter simk_Kernel]. unfold simk_enter. cbn [Z.eqb negb andb with_shm m_kern m_shm m_file]. rewrite (Hi : sk_inflight _ = []).
  destruct (ring_pop _ Hr1) as [Hs Hr2]. change (Z.to_nat 1) with 1%nat. cbn [consume].
  set (m1 := set_sq _ _ _ _) in *.
  destruct (Z.eqb_spec (sq_head m1) (sq_tail m1)) as [He|_]; [apply (shape_empty (ro_sq _ _ _ Hr1)) in He; cbn in He; lia|].
  rewrite Hs. cbn [consume app mbind option_bind Z.ltb Z.compare negb Status.ok].
  cbn [x_heap x_phase x_resumed x_state]. set (x1 := mkExec (mkMach _ _ _) _ _ _ _).
  destruct (simk_resumes fuel x1 (with_user_data s (addr1 fr)) (handle fr) (mkOperation s (Some (handle fr)) 0) r f' b')
    as (x' & -> & Hb & Hop); try done; [apply lookup_singleton_eq|].
  cbn [mbind option_bind]. cbn [with_user_data user_data] in Hop. apply fmap_Some in Hop as (op & -> & ->). by eexists.
Qed.
Lemma simk_reads_in_full f : zlen (content f) < 2 ^ 62 -> reads_in_full (E := UringSys (simk true)) f.
Proof.
  intros Hlen e e' f' bs He Hread. cbn [ReadAt uring_Io] in Hread. unfold uring_ReadAt in Hread.
  set (b := replicate _ _) in Hread. destruct (uring_quiet e f b He) as (fd & poll & Hq).
  edestruct (simk_single (p_frame (u_kern e)) (to_exec e f b) fd poll (readvSqe (u_walFd e) (zlen (content f)) 0)
    "io_uring readv submit failed" "io_uring readv failed" (run_fuel e)) as (x' & E1 & Hb);
    [exact Hq|done| |unfold run_fuel; lia|].
  { unfold exec_op. cbn. destruct (Z.leb_spec 0 (zlen (content f))); [reflexivity|lia]. }
  rewrite E1 in Hread. cbn [mbind option_bind] in Hread. rewrite drop_0, Z.min_id in *. unfold singleResult in Hread.
  destruct (Z.ltb_spec (zlen (content f)) 0); [lia|]. injection Hread as _ _ <-.
  rewrite u64_small, Hb, Nat2Z.id, firstn_all by lia. by rewrite take_app_length.
Qed.

End OneOperation.
