(* ===== verification/Stack.v ===== *)
(** * The executor and the database together

    What the executor's operations do when run to completion, the database on top of the
    executor, and runs on the simulated kernel. *)

From stdpp Require Import relations.
From S2P Require Import Prelude Status Coding Crc32c WriteBatch Wal MemTable Io Db.
From S2P Require Import UringExecutor UringKernel UringFacts UringTheorems UringLifecycle UringIo DbOpen UringSim.
From S2P Require Import WriterQueue WriterQueueFacts.

Section Stack.
Context {L : Libc} {C : Cpu} `{!CpuSpec C}.
Context {K : Type} `{!Kernel K, !KernelSpec K, !Posix K, !KernelReliable K, !PosixSpec K}.


(** Reading and syncing. With nothing in flight, [ReadAt] and [FDataSync] always
    return, leave the file's contents and what is durable of it alone, and leave nothing in
    flight; a read returns bytes of the file from the offset on, possibly fewer than asked
    for, and a sync that returns OK leaves the device with the file's contents. *)
Theorem uring_read_and_sync fr (x : Exec K) fd poll walFd n off fuel :
  quiet x fd poll -> addr1 fr <> 0 -> 0 <= n < 2 ^ 62 -> (8 + k_patience (m_kern (x_mach x)) <= fuel)%nat ->
  (exists x' r, uring_ReadAt fuel fr x walFd n off = Some (x', r) /\ quiet x' fd poll /\
     keeps (m_file (x_mach x)) (m_file (x_mach x')) /\
     match r with
     | RValue r => take (Z.to_nat r) (userbuf (m_shm (x_mach x')))
         `prefix_of` take (Z.to_nat n) (drop (Z.to_nat off) (content (m_file (x_mach x))))
     | RStatus s => Status.ok s = false
     end) /\
  (exists x' s, uring_FDataSync fuel fr x walFd = Some (x', s) /\ quiet x' fd poll /\
     keeps (m_file (x_mach x)) (m_file (x_mach x')) /\
     (Status.ok s = true -> durable (m_file (x_mach x')) = content (m_file (x_mach x)))).
Proof. intros. split; [by apply read_quiet|by apply sync_quiet]. Qed.


End Stack.

(** ** Examples *)

#[local] Existing Instance reference_libc.
#[local] Existing Instance reference_cpu.

Definition sim_exec {reliable} (refuse : list bool) (f : file) : Exec (simk reliable) :=
  mkExec (mkMach (mkSimk [] refuse 0 ∅ ∅ true) sim_shm f) (mkUState 5 false 0 false) ∅ AtEnter [].

Lemma sim_quiet refuse f : quiet (sim_exec (reliable := true) refuse f) 5 false.
Proof. split; try done. apply sim_shm_ok. Qed.

Definition sim_frame : frame := mkFrame 4096 8192 77.

Definition hello_iovecs : list iovec := [mkIovec (FixedPtr 0) 3; mkIovec (DataPtr (str "lo")) 2].



Lemma uring_read_and_sync_witness :
  exists x' r, uring_ReadAt 8 sim_frame (sim_exec (reliable := true) [] (mkFile (str "contents") [])) 3 4 2 = Some (x', r).
Proof.
  destruct (uring_read_and_sync sim_frame (sim_exec (reliable := true) [] (mkFile (str "contents") [])) 5 false 3 4 2 8)
    as [(x' & r & E1 & _) _].
  - apply sim_quiet.
  - discriminate.
  - vm_compute. split; congruence.
  - repeat constructor.
  - exists x', r. exact E1.
Defined.

Definition sim_system : UringSys (simk true) :=
  mkUring (mkSimk [] [] 0 ∅ ∅ true) sim_shm (mkUState 5 false 0 false) AtEnter 3.


(** What is left in the submission ring: the addresses the requests carry. *)
Definition pending_addresses {K} (x : Exec K) : list Z :=
  let m := m_shm (x_mach x) in
  (fun j => default 0 (user_data <$> sq_slot m (u32 (sq_head m + Z.of_nat j))))
    <$> seq 0 (Z.to_nat (u32 (sq_tail m - sq_head m))).

Definition refused_then_retried : option (StatusT * list Z * bool) :=
  '(x, s) ← uring_WritevAndFDataSync 20 (mkFrame 4096 8192 77) (sim_exec (reliable := false) [true] empty_file) 3
    (str "hel") hello_iovecs 0 5;
  let retry := uring_WritevAndFDataSync 20 (mkFrame 12288 16384 78) x 3 (str "hel") hello_iovecs 0 5 in
  Some (s, pending_addresses x, bool_decide (is_Some ((fun p => p.2) <$> retry))).


(** ** Setting up and taking down *)

Definition sim_k0 : simk true := mkSimk [] [] 0 {[0; 1; 2]} ∅ true.

Definition sim_created : simk true * Outcome RState := Create sim_k0 default_UringOptions.

Definition sim_ring : RState :=
  match sim_created.2 with Returned (RValue st) => st | _ => mkRState (mkUState 0 false 0 false) null_ptrs 0 0 0 0 0 0 false false end.

Lemma sim_create : Create sim_k0 default_UringOptions = (sim_created.1, Returned (RValue sim_ring)).
Proof. vm_compute. reflexivity. Qed.

Lemma executor_setup_is_clean_witness :
  owns sim_k0 sim_created.1 sim_ring /\ exists nsq ncq, 8 <= nsq /\ ptrs_ok sim_ring nsq ncq.
Proof. exact (executor_setup_is_clean sim_k0 default_UringOptions _ _ sim_create). Defined.

Lemma executor_shutdown_releases_witness :
  exists x' k, closeRing 3 (mkExec (mkMach sim_created.1 sim_shm empty_file) (mkUState 5 false 0 false) ∅ AtEnter [])
    sim_ring = Some (x', k) /\ x_phase x' = Exited /\ k_fds k = k_fds sim_k0 /\ k_maps k = k_maps sim_k0 /\
    keeps empty_file (m_file (x_mach x')).
Proof.
  apply (executor_shutdown_releases sim_k0) with (fd := 5) (poll := false).
  - split; try done. apply sim_shm_ok.
  - exact (proj1 (Create_spec sim_k0 default_UringOptions _ _ sim_create)).
  - vm_compute. reflexivity.
  - vm_compute. reflexivity.
  - repeat constructor.
Defined.

(** A log with one record, and the remains of another. *)
Definition sample_log : bytes :=
  record_bytes 1 [mkEntry kPut (str "k") (str "v")] ++ take 7 (record_bytes 2 [mkEntry kPut (str "k") (str "w")]).


(** [Open] can lose the log's descriptor. When the completion thread cannot be
    started, [Create] throws; its executor gives the ring back, but [Open] holds the log's
    descriptor as a number, and the exception leaves it open. *)
Theorem open_loses_log_descriptor :
  exists k0 k f, @DB_Open reference_libc reference_cpu (simk true) _ _ _ _ _ k0 f default_Options = Some (k, f, Threw) /\
    k_fds k = ({[3]} ∪ k_fds k0) /\ (3 ∉ k_fds k0).
Proof.
  exists (mkSimk [] [] 0 {[0; 1; 2]} ∅ false), (mkSimk [] [] 0 {[3; 0; 1; 2]} ∅ false), empty_file.
  split; [vm_compute; reflexivity|]. split; [vm_compute; reflexivity|].
  refine (bool_decide_unpack _ _). vm_compute. exact I.
Qed.

Definition sim_opened : DB (simk true) :=
  DB_new 3 (Create (fs_open sim_k0).1 default_UringOptions).1 empty_file
    (match (Create (fs_open sim_k0).1 default_UringOptions).2 with Returned (RValue st) => st | _ => sim_ring end) default_Options.

Lemma sim_opened_owned : db_owns sim_k0 sim_opened /\ uring_inv (w_io (db_world sim_opened)).
Proof.
  apply (new_owned sim_k0 (fs_open sim_k0).1).
  - vm_compute. reflexivity.
  - lia.
  - vm_compute. reflexivity.
  - vm_compute. congruence.
Qed.


Lemma debug_stats_count_events_witness :
  exists s : QSys (World (UringSys (simk true))), s_came s = [1; 2] /\
    ds_asyncWriterSuspensions (DebugStatsForTest (mkDB (s_world s) sim_ring default_Options (s_q s) 1 true)) = u64 (zlen (s_came s)).
Proof.
  eexists. split.
  2:{ refine (proj1 (debug_stats_count_events default_Options (db_world sim_opened) _ sim_ring _)).
      eapply rtc_l; [right; by eapply (EnqueueInline _ 1 (build_batch [BDelete (str "k")]) (Some 11))|].
      eapply rtc_l; [right; by eapply (EnqueueQueued _ 2 (build_batch [BDelete (str "k")]) (Some 12))|].
      apply rtc_refl. }
  reflexivity.
Defined.
