(* ===== verification/BenchMain.v ===== *)
(** * The benchmark program (benchmarks/storage_engine_bench.cc)

    [openFreshDb], [runBenchmark] and [main]: from the command line to the executor, with the
    benchmarks of [Bench] and [BenchThreads] in between. What is printed is left out. *)

From stdpp Require Import relations.
From S2P Require Import Prelude Status Coding Crc32c WriteBatch Wal MemTable Io Db DbTheorems.
From S2P Require Import WriterQueue WriterQueueFacts DbConcurrent DbClient Bench BenchThreads.
From S2P Require Import UringExecutor UringKernel UringFacts UringTheorems UringLifecycle UringIo DbOpen DbSession UringSim Stack.

(** [remove_all] and [create_directories], which may throw ([false]). *)
Class BenchFs (K : Type) := {
  fs_remove_all : K -> bytes -> K * bool;
  fs_make_directories : K -> bytes -> K * bool;
}.

(** The paths [openFreshDb] refuses. *)
Definition refused_path (db : bytes) : bool := bool_decide (db = []) || bool_decide (db = str "/").

Definition benchmark_names : list bytes :=
  [str "fillseq"; str "fillrandom"; str "readrandom"; str "overwrite"; str "concurrent_fillseq"; str "concurrent_readrandom"].

Section Program.
Context {L : Libc} {C : Cpu} {K : Type} `{!Kernel K, !KernelSpec K, !Setup K, !Posix K, !OpenFile K, !BenchFs K}.
Context (fuel : nat) (o : BenchOptions).

(** [nullptr]; an exception, which nobody catches; a database. *)
Inductive fresh_db := NoDatabase | Uncaught | Database (d : DB K).

Definition openFreshDb (k : K) : option (K * fresh_db) :=
  if refused_path (bo_db o) then Some (k, NoDatabase) else
  let '(k, removed) := fs_remove_all k (bo_db o) in
  if negb removed then Some (k, Uncaught) else
  let '(k, made) := fs_make_directories k (bo_db o) in
  if negb made then Some (k, Uncaught) else
  '(k, _, r) ← DB_Open k empty_file (db_options_of o);
  Some (k, match r with
           | Threw => Uncaught
           | Returned (RStatus _) => NoDatabase
           | Returned (RValue d) => Database d
           end).

(** What the benchmark of this name does with a database: the queue and the world it leaves,
    and whether it returns [true]. The generators and the interleavings are any. *)
Inductive bench_on (d : DB K) : bytes -> Client (E := UringSys K) -> bool -> Prop :=
  | OnFillSeq c r : benchFillSeq fuel (db_client d) o = Some (c, r) ->
      bench_on d (str "fillseq") c (bool_decide (is_Some r))
  | OnFillRandom rng c r : benchFillRandom fuel (db_client d) o rng = Some (c, r) ->
      bench_on d (str "fillrandom") c (bool_decide (is_Some r))
  | OnReadRandom rng c r : benchReadRandom fuel (db_client d) o rng = Some (c, r) ->
      bench_on d (str "readrandom") c (match r with Some _ => true | None => false end)
  | OnOverwrite rng c r : benchOverwrite fuel (db_client d) o rng = Some (c, r) ->
      bench_on d (str "overwrite") c (bool_decide (is_Some r))
  | OnConcurrentFillSeq s r : fill_reachable (db_options_of o) fuel o (db_world d) s ->
      benchConcurrentFillSeq o s = Some r ->
      bench_on d (str "concurrent_fillseq") (mkClient (s_q (f_db s)) (s_world (f_db s))) (bool_decide (is_Some r))
  | OnConcurrentReadRandom c rng s m ok : preload fuel (db_client d) o = Some (c, true) ->
      rtc (read_step c o rng) (read_start o) s -> benchConcurrentReadRandom o s = Some (m, ok) ->
      bench_on d (str "concurrent_readrandom") c ok
  | OnPreloadFails c : preload fuel (db_client d) o = Some (c, false) ->
      bench_on d (str "concurrent_readrandom") c false.

(** How a benchmark, and the program, comes to its end. *)
Inductive bench_exit := Finishes (ok : bool) | Terminates.

(** [runBenchmark]: the database is destroyed when the benchmark returns. *)
Inductive runBenchmark (k : K) (name : bytes) : K -> bench_exit -> Prop :=
  | BenchNoDatabase k' : name ∈ benchmark_names -> openFreshDb k = Some (k', NoDatabase) ->
      runBenchmark k name k' (Finishes false)
  | BenchUncaught k' : name ∈ benchmark_names -> openFreshDb k = Some (k', Uncaught) -> runBenchmark k name k' Terminates
  | BenchRuns k1 d c ok k2 f : openFreshDb k = Some (k1, Database d) -> bench_on d name c ok ->
      DB_destroy (with_client d c) = Some (k2, f) -> runBenchmark k name k2 (Finishes ok)
  | BenchUnknown : name ∉ benchmark_names -> runBenchmark k name k (Finishes false).

(** The loop of [main]. *)
Inductive run_all (k : K) : list bytes -> K -> bench_exit -> Prop :=
  | AllDone : run_all k [] k (Finishes true)
  | OneMore name names k1 k2 e : runBenchmark k name k1 (Finishes true) -> run_all k1 names k2 e -> run_all k (name :: names) k2 e
  | OneFails name names k1 : runBenchmark k name k1 (Finishes false) -> run_all k (name :: names) k1 (Finishes false)
  | OneTerminates name names k1 : runBenchmark k name k1 Terminates -> run_all k (name :: names) k1 Terminates.

End Program.

(** [main]; [Finishes true] is the exit code 0 and [Finishes false] 1. *)
Inductive bench_main {L : Libc} {C : Cpu} {K : Type} `{!Kernel K, !KernelSpec K, !Setup K, !Posix K, !OpenFile K, !BenchFs K}
    (fuel : nat) (k : K) (args : list bytes) : K -> bench_exit -> Prop :=
  | MainUsage : parseArgs args default_BenchOptions = None -> bench_main fuel k args k (Finishes false)
  | MainRuns o names k' e : parseArgs args default_BenchOptions = Some o -> split (bo_benchmarks o) (z2b 44) = Some names ->
      run_all fuel o k names k' e -> bench_main fuel k args k' e.

(** ** Facts *)

(** Neither call opens or closes anything. *)
Class BenchFsSpec (K : Type) `{!Libc, !Kernel K, !KernelSpec K, !Setup K, !SetupSpec K, !BenchFs K} : Prop := {
  remove_all_spec : forall k p k' ok, fs_remove_all k p = (k', ok) -> same_resources k k';
  make_directories_spec : forall k p k' ok, fs_make_directories k p = (k', ok) -> same_resources k k';
}.

Section ProgramFacts.
Context {L : Libc} {C : Cpu} {K : Type} `{!Kernel K, !KernelSpec K, !Setup K, !SetupSpec K, !Posix K, !OpenFile K, !BenchFs K}.
Context `{!KernelReliable K, !PosixSpec K, !OpenSpec K, !BenchFsSpec K, !CpuSpec C}.
Context (fuel : nat) (o : BenchOptions).

Lemma recover_empty (e : UringSys K) w s : uring_inv e -> recover (mkWorld e empty_file DBCore_new) = Some (w, s) ->
  Status.ok s = true -> exists e', uring_inv e' /\ w = mkWorld e' empty_file DBCore_new.
Proof.
  intros He Hr Hs. assert (io_inv e) as Hio by exact He. unfold recover, fileSize in Hr. cbn [w_io w_file w_db] in Hr.
  destruct (io_fstat e empty_file) as [e' [n|]] eqn:Ef; apply fstat_spec in Ef as [He' Hn]; try done; [|by injection Hr as <- <-].
  rewrite (Hn n eq_refl) in Hr. cbn in Hr. injection Hr as <- <-. by exists e'.
Qed.

(** What [openFreshDb] returns. *)
Lemma openFreshDb_spec k0 : exists k r, openFreshDb o k0 = Some (k, r) /\
  match r with
  | NoDatabase => same_resources k0 k
  | Uncaught => True
  | Database d => exists k1 e, same_resources k0 k1 /\ db_owns k1 d /\ uring_inv e /\
      db_queue d = Queue_new /\ db_world d = mkWorld e empty_file DBCore_new
  end.
Proof.
  unfold openFreshDb. destruct (refused_path (bo_db o)); [by do 2 eexists|].
  destruct (fs_remove_all k0 (bo_db o)) as [k1 removed] eqn:E1. apply remove_all_spec in E1.
  destruct removed; cbn [negb]; [|by do 2 eexists].
  destruct (fs_make_directories k1 (bo_db o)) as [k2 made] eqn:E2. apply make_directories_spec in E2.
  destruct made; cbn [negb]; [|by do 2 eexists]. pose proof (same_trans _ _ _ E1 E2) as E3.
  destruct (open_cases k2 empty_file (db_options_of o)) as (k & f & r & -> & Hr); [done|cbn; lia|]. cbn [mbind option_bind].
  do 2 eexists. split; [reflexivity|]. destruct r as [[d|s]|]; [|destruct Hr as (_ & ? & ?); by eapply same_trans|done].
  destruct Hr as (Hown & _ & _ & Hq & _ & _ & e & s & He & Hrec & Hs).
  destruct (recover_empty e _ s He Hrec Hs) as (e' & He' & Hw). by exists k2, e'.
Qed.

(** A client of [d] that can still write [n] rounds. *)
Record bench_client (k0 : K) (d : DB K) (c : Client (E := UringSys K)) (n : Z) : Prop := {
  bc_owns : db_owns k0 (with_client d c);
  bc_inv : exists imgs ds, db_inv (c_world c) imgs ds;
  bc_idle : idle (c_queue c);
  bc_offset : walOffset_ (w_db (c_world c)) + n * (50 + bo_keySize o + bo_valueSize o) < 2 ^ 62;
  bc_next : nextSequence_ (w_db (c_world c)) + n < 2 ^ 64;
}.

Hypothesis Hok : sizes_ok fuel o.

(** One round, whether its write succeeds or not. *)
Lemma put_kept k0 d c n p : bench_client k0 d c n -> 0 < n -> words p ->
  exists c' s, DB_Put c (makeKey p.1 (bo_keySize o)) (bench_value fuel o p.2) = Some (c', s) /\ bench_client k0 d c' (n - 1).
Proof.
  intros [Hown (imgs & ds & Hinv) Hidle Hoff Hnext] Hn [Hp1 Hp2]. destruct (Hok) as [_ Hkey Hval _ _].
  destruct (bench_value_spec fuel o p.2 Hok Hp2) as [_ Hlen]. destruct (makeKey_spec p.1 (bo_keySize o)) as (_ & _ & Hk & _); [lia..|].
  pose proof (Z.mul_le_mono_nonneg_r 1 n (50 + bo_keySize o + bo_valueSize o) ltac:(lia) ltac:(lia)).
  set (key := makeKey _ _) in *. set (v := bench_value _ _ _) in *. set (b := WriteBatch.Put WriteBatch.new key v).
  assert (zlen (entries_bytes (all_entries [b])) = 9 + zlen key + zlen v /\ all_entries [b] = [mkEntry kPut key v]) as [Hes Hen]
    by (split; [cbn; len|done]).
  destruct (run_groups_spec [[b]] (c_world c) imgs ds Hinv) as (w & ss & imgs' & ds' & E1 & _ & Hinv' & _ & Hn' & Ho' & _).
  { apply Forall_singleton. split; [apply Forall_singleton, Put_wf, new_wf|]. unfold encodable. lia. }
  { cbn [groups_bytes fold_right]. lia. }
  { cbn [groups_entries fold_right]. rewrite Hen. cbn. lia. }
  cbn [groups_bytes groups_entries fold_right] in Hn', Ho'. rewrite Hen in Hn'. cbn [length] in Hn'.
  unfold DB_Put. fold b. destruct (Write_idle c b Hidle) as (q & Hq & ->). change (await_ready b) with false.
  cbn [run_groups] in E1. destruct (writeGroup (c_world c) [b]) as [[w' s]|] eqn:Ew; [|done]. cbn [mbind option_bind] in E1 |- *.
  injection E1 as <- _. do 2 eexists. split; [done|]. split; cbn [c_world c_queue]; [|by eauto|done|lia|lia].
  destruct Hown as (k1 & kref & fd & HA1 & HA2 & HA3 & HA4 & HA5 & HA6 & HA7). exists k1, kref, fd.
  do 6 (split; [done|]). by eapply writeGroup_keeps; [apply holds_kept| |].
Qed.

Lemma bench_client_less k0 d c n m : bench_client k0 d c n -> m <= n -> bench_client k0 d c m.
Proof.
  intros [Hown Hinv Hidle Hoff Hnext] Hm. destruct (Hok) as [_ Hkey Hval _ _]. split; try done; [|lia].
  pose proof (Z.mul_le_mono_nonneg_r m n (50 + bo_keySize o + bo_valueSize o) ltac:(lia) Hm). lia.
Qed.

(** A loop of [n] rounds. *)
Lemma putLoop_kept k0 d pick n : (forall i, 0 <= i < 2 ^ 64 -> words (pick i)) -> forall m i total c, 0 <= m -> 0 <= i < 2 ^ 64 ->
  bench_client k0 d c (Z.of_nat n + m) ->
  exists c' r, putLoop n fuel c o pick i total = Some (c', r) /\ bench_client k0 d c' m.
Proof.
  intros Hw m. induction n as [|n IH]; intros i total c Hm Hi Hc; cbn [putLoop]; [by do 2 eexists|].
  destruct (Hw i Hi) as [Hk Hv]. destruct (bench_value_spec fuel o (pick i).2 Hok Hv) as [-> _]. cbn [mbind option_bind].
  destruct (put_kept k0 d c _ (pick i) Hc) as (c' & s & -> & Hc'); [lia|by apply Hw|]. cbn [mbind option_bind].
  destruct (Status.ok s); cbn [negb].
  - apply IH; [done|apply u64_range|]. eapply bench_client_less; [done|lia].
  - do 2 eexists. split; [done|]. eapply bench_client_less; [done|lia].
Qed.

Hypothesis Hnum : 0 < bo_num o.

Lemma putRounds_kept k0 d c pick m : (forall i, 0 <= i < 2 ^ 64 -> words (pick i)) -> 0 <= m -> bench_client k0 d c (bo_num o + m) ->
  exists c' r, putRounds fuel c o pick = Some (c', r) /\ bench_client k0 d c' m.
Proof.
  intros Hw Hm Hc. destruct (putLoop_kept k0 d pick (Z.to_nat (bo_num o)) Hw m 0 0 c Hm) as (c' & r & E1 & Hc'); [done|..].
  { by rewrite Z2Nat.id by lia. }
  unfold putRounds. rewrite E1. cbn [mbind option_bind]. by do 2 eexists.
Qed.

Lemma preload_kept k0 d c m : 0 <= m -> bench_client k0 d c (bo_num o + m) ->
  exists c' b, preload fuel c o = Some (c', b) /\ bench_client k0 d c' m.
Proof.
  intros Hm Hc. destruct (putLoop_kept k0 d (fun i => (i, i)) (Z.to_nat (bo_num o)) ltac:(done) m 0 0 c Hm) as (c' & r & E1 & Hc'); [done|..].
  { by rewrite Z2Nat.id by lia. }
  unfold preload. rewrite (preloadLoop_putLoop _ _ _ _ _ 0), E1. by do 2 eexists.
Qed.

(** The client [openFreshDb] gives, for all the benchmarks write. *)
Lemma fresh_kept k0 (d : DB K) e : db_owns k0 d -> uring_inv e -> db_queue d = Queue_new ->
  db_world d = mkWorld e empty_file DBCore_new -> bench_client k0 d (db_client d) (bo_num o + bo_num o).
Proof.
  intros Hown He Hq Hw. destruct (Hok) as [Hn _ _ _ Hlog].
  split; [by replace (with_client d (db_client d)) with d by (by destruct d)|..]; unfold db_client; cbn [c_world c_queue];
    rewrite ?Hq, ?Hw; try done.
  - exists [], []. by apply (new_inv e).
  - cbn. lia.
  - cbn. lia.
Qed.

Hypothesis Hthreads : 0 < bo_threads o < 2 ^ 31 /\ bo_threads o * (29 + bo_keySize o + bo_valueSize o) + 12 < 2 ^ 32.

(** What a benchmark leaves can be destroyed. *)
Lemma bench_on_kept k0 d e name c ok : db_owns k0 d -> uring_inv e -> db_queue d = Queue_new ->
  db_world d = mkWorld e empty_file DBCore_new -> bench_on fuel o d name c ok ->
  db_owns k0 (with_client d c) /\ uring_inv (w_io (c_world c)).
Proof.
  intros Hown He Hq Hw Hb. pose proof (fresh_kept k0 d e Hown He Hq Hw) as Hc.
  assert (forall c' m, bench_client k0 d c' m -> db_owns k0 (with_client d c') /\ uring_inv (w_io (c_world c'))) as Hend.
  { intros c' m [Ho (imgs & ds & Hi) _ _ _]. split; [done|]. apply (inv_io _ _ _ Hi). }
  assert (forall rng i, 0 <= rng mod bo_num o < 2 ^ 64 /\ (0 <= i < 2 ^ 64 -> words (rng mod bo_num o, i))) as Hrng.
  { intros rng i. pose proof (Z.mod_pos_bound rng (bo_num o) Hnum). destruct (Hok) as [Hn _ _ _ _]. split; [lia|]. split; cbn; lia. }
  destruct (preload_kept k0 d (db_client d) (bo_num o) ltac:(lia) Hc) as (c0 & b0 & Hp & Hc0).
  destruct Hb as [c r Hb|rng c r Hb|rng c r Hb|rng c r Hb|s r Hs Hr|c rng s m ok Hb _ _|c Hb].
  - destruct (putRounds_kept k0 d _ (fun i => (i, i)) (bo_num o) ltac:(done) ltac:(lia) Hc) as (c' & r' & E1 & Hc').
    unfold benchFillSeq in Hb. rewrite E1 in Hb. injection Hb as <- <-. eauto.
  - destruct (putRounds_kept k0 d _ (fun i => (rng (Z.to_nat i) mod bo_num o, i)) (bo_num o) ltac:(intros; by apply Hrng) ltac:(lia) Hc)
      as (c' & r' & E1 & Hc').
    unfold benchFillRandom in Hb. rewrite E1 in Hb. injection Hb as <- <-. eauto.
  - unfold benchReadRandom in Hb. rewrite Hp in Hb. cbn [mbind option_bind] in Hb. destruct b0; cbn [negb] in Hb;
      [|injection Hb as <- <-; eauto]. destruct (readRandom _ _ _) as [[]|]; [|done]. injection Hb as <- <-. eauto.
  - unfold benchOverwrite in Hb. rewrite Hp in Hb. cbn [mbind option_bind] in Hb. destruct b0; cbn [negb] in Hb;
      [|injection Hb as <- <-; eauto].
    destruct (putRounds_kept k0 d c0 (fun i => (rng (Z.to_nat i) mod bo_num o, u64 (i + bo_num o))) 0) as (c' & r' & E1 & Hc');
      [intros; apply Hrng, u64_range|done|by rewrite Z.add_0_r|]. rewrite E1 in Hb. injection Hb as <- <-. eauto.
  - rewrite Hw in Hs. assert (io_inv e) as Hio by exact He.
    assert (fill_inv (db_options_of o) fuel o e s) as Hi by exact (fill_reachable_inv (db_options_of o) fuel o e Hok (proj1 Hthreads) s Hs).
    destruct (fill_run (db_options_of o) fuel o e Hok (proj1 Hthreads) (proj2 Hthreads) Hio s Hi) as (imgs & ds & Hrun & Hinv & _).
    split; [|apply (inv_io _ _ _ Hinv)].
    destruct Hown as (k1 & kref & fd & HA1 & HA2 & HA3 & HA4 & HA5 & HA6 & HA7). exists k1, kref, fd. do 6 (split; [done|]).
    rewrite Hw in HA7. by eapply run_groups_keeps; [apply holds_kept| |exact Hrun].
  - rewrite Hp in Hb. simplify_eq. eauto.
  - rewrite Hp in Hb. simplify_eq. eauto.
Qed.

Lemma runBenchmark_kept k name k' ok : runBenchmark fuel o k name k' (Finishes ok) -> same_resources k k'.
Proof.
  destruct (openFreshDb_spec k) as (k1 & r & Ho & Hr).
  inversion 1 as [k2 Hn Ho'| |k2 d c ok' k3 f Ho' Hb Hd|Hn]; subst; [| |done]; rewrite Ho in Ho'; injection Ho' as -> ->; [done|].
  destruct Hr as (k4 & e & Hs & Hown & He & Hq & Hw). destruct (bench_on_kept k4 d e name c ok Hown He Hq Hw Hb) as [Hown' He'].
  destruct (destroy_spec k4 (with_client d c) Hown' He') as (k5 & f' & Hd' & F & M & _). rewrite Hd in Hd'. injection Hd' as <- <-.
  by eapply same_trans.
Qed.

Lemma run_all_kept k names k' ok : run_all fuel o k names k' (Finishes ok) -> same_resources k k'.
Proof.
  intros Hr. remember (Finishes ok) as x eqn:Hx. induction Hr; simplify_eq; [done|..].
  - eapply same_trans; [by eapply runBenchmark_kept|]. by apply IHHr.
  - by eapply runBenchmark_kept.
Qed.

Lemma reads_end k0 d c n : bench_client k0 d c n -> forall rng st, exists st', foldM (readRound c o) st rng = Some st'.
Proof.
  intros [_ (imgs & ds & Hinv) _ _ _] rng. induction rng as [|x rng IH]; intros [hits total]; cbn [foldM]; [by eexists|].
  unfold readRound at 1. destruct (Z.eqb_spec (bo_num o) 0); [lia|]. unfold client_Get. rewrite (DB_Get_inv _ _ _ _ Hinv).
  cbn [mbind option_bind]. destruct (kv_get _ _); apply IH.
Qed.

(** A benchmark without threads ends. *)
Lemma bench_on_ends k0 d e name : db_owns k0 d -> uring_inv e -> db_queue d = Queue_new ->
  db_world d = mkWorld e empty_file DBCore_new -> name ∈ take 4 benchmark_names -> exists c ok, bench_on fuel o d name c ok.
Proof.
  intros Hown He Hq Hw Hn. pose proof (fresh_kept k0 d e Hown He Hq Hw) as Hc.
  assert (0 mod bo_num o = 0) as H0 by (apply Z.mod_0_l; lia).
  destruct (preload_kept k0 d (db_client d) (bo_num o) ltac:(lia) Hc) as (c0 & b0 & Hp & Hc0).
  repeat (apply elem_of_cons in Hn as [->|Hn]); [..|by apply not_elem_of_nil in Hn].
  - destruct (putRounds_kept k0 d (db_client d) (fun i => (i, i)) (bo_num o) ltac:(done) ltac:(lia) Hc) as (c' & r' & E1 & _).
    do 2 eexists. by eapply OnFillSeq.
  - destruct (putRounds_kept k0 d (db_client d) (fun i => (0 mod bo_num o, i)) (bo_num o)) as (c' & r' & E1 & _);
      [intros i Hi; rewrite H0; split; cbn; lia|lia|done|]. do 2 eexists. eapply OnFillRandom with (rng := fun _ => 0). exact E1.
  - destruct (reads_end k0 d c0 _ Hc0 ((fun _ => 0) <$> seq 0 (Z.to_nat (bo_reads o))) (0, 0)) as [[hits total] Hr].
    destruct b0; do 2 eexists; eapply OnReadRandom with (rng := fun _ => 0); unfold benchReadRandom; rewrite Hp;
      cbn [mbind option_bind negb]; [|reflexivity]. unfold readRandom. rewrite Hr. reflexivity.
  - destruct (putRounds_kept k0 d c0 (fun i => (0 mod bo_num o, u64 (i + bo_num o))) 0) as (c' & r' & E1 & _);
      [intros i Hi; rewrite H0; split; [cbn; lia|apply u64_range]|done|by rewrite Z.add_0_r|].
    destruct b0; do 2 eexists; eapply OnOverwrite with (rng := fun _ => 0); unfold benchOverwrite; rewrite Hp;
      cbn [mbind option_bind negb]; [exact E1|reflexivity].
Qed.

Lemma runBenchmark_ends k name : name ∈ take 4 benchmark_names -> exists k' x, runBenchmark fuel o k name k' x.
Proof.
  intros Hn. assert (name ∈ benchmark_names) as Hn' by (rewrite <- (take_drop 4 benchmark_names); apply elem_of_app; by left).
  destruct (openFreshDb_spec k) as (k1 & r & Ho & Hr). destruct r as [| |d].
  - do 2 eexists. by eapply BenchNoDatabase.
  - do 2 eexists. by eapply BenchUncaught.
  - destruct Hr as (k4 & e & Hs & Hown & He & Hq & Hw). destruct (bench_on_ends k4 d e name Hown He Hq Hw Hn) as (c & ok & Hb).
    destruct (bench_on_kept k4 d e name c ok Hown He Hq Hw Hb) as [Hown' He'].
    destruct (destroy_spec k4 (with_client d c) Hown' He') as (k5 & f' & Hd' & _). do 2 eexists. by eapply BenchRuns.
Qed.

Lemma run_all_ends names : Forall (fun name => name ∈ take 4 benchmark_names \/ name ∉ benchmark_names) names ->
  forall k, exists k' x, run_all fuel o k names k' x.
Proof.
  induction 1 as [|name names Hn _ IH]; intros k; [do 2 eexists; constructor|].
  assert (exists k1 x, runBenchmark fuel o k name k1 x) as (k1 & x & Hx).
  { destruct Hn as [Hn|Hn]; [by apply runBenchmark_ends|]. do 2 eexists. by apply BenchUnknown. }
  destruct x as [[]|].
  - destruct (IH k1) as (k2 & x & Hall). do 2 eexists. by eapply OneMore.
  - do 2 eexists. by eapply OneFails.
  - do 2 eexists. by eapply OneTerminates.
Qed.

End ProgramFacts.

(** The benchmark program gives back what it takes. For any arguments whose sizes fit the
    log: if [main] returns, after whatever benchmarks, failures and interleavings, the
    process holds the descriptors and mappings it started with. It always returns or ends by an
    uncaught exception if it was asked for no benchmark with threads. *)
Theorem bench_program_gives_back {L : Libc} {C : Cpu} {K : Type}
    `{!Kernel K, !KernelSpec K, !Setup K, !SetupSpec K, !Posix K, !OpenFile K, !BenchFs K}
    `{!KernelReliable K, !PosixSpec K, !OpenSpec K, !BenchFsSpec K, !CpuSpec C} fuel (k : K) args :
  (forall o, parseArgs args default_BenchOptions = Some o ->
    sizes_ok fuel o /\ 0 < bo_num o /\ 0 < bo_threads o < 2 ^ 31 /\
    bo_threads o * (29 + bo_keySize o + bo_valueSize o) + 12 < 2 ^ 32) ->
  (forall k' ok, bench_main fuel k args k' (Finishes ok) -> same_resources k k') /\
  ((forall o names, parseArgs args default_BenchOptions = Some o -> split (bo_benchmarks o) (z2b 44) = Some names ->
     Forall (fun name => name ∈ take 4 benchmark_names \/ name ∉ benchmark_names) names) ->
   exists k' x, bench_main fuel k args k' x).
Proof.
  intros Ho. split.
  - inversion 1 as [|o names k2 x Hp Hs Hr]; subst; [done|]. destruct (Ho o Hp) as (H1 & H2 & H3). by eapply run_all_kept.
  - intros Hn. destruct (parseArgs args default_BenchOptions) as [o|] eqn:Hp; [|do 2 eexists; by apply MainUsage].
    destruct (Ho o eq_refl) as (H1 & H2 & H3). 
    destruct (splitLoop_spec (z2b 44) (bo_benchmarks o) (S (length (bo_benchmarks o))) 0 []) as (names & Hs & _); [lia..|].
    destruct (run_all_ends fuel o H1 H2 H3 names (Hn o names eq_refl Hs) k) as (k' & x & Hr). do 2 eexists. by eapply MainRuns.
Qed.

(** ** The guard of [openFreshDb] *)

(** The directory an absolute path names, when no symbolic link is on it: the names from
    the root on, empty ones and dots skipped, two dots going back. *)
Definition path_step (dir : list bytes) (part : bytes) : list bytes :=
  if bool_decide (part = []) || bool_decide (part = str ".") then dir
  else if bool_decide (part = str "..") then take (length dir - 1) dir
  else dir ++ [part].

Definition resolve_path (p : bytes) : option (list bytes) :=
  parts ← split p (z2b 47);
  match parts with [] :: parts => Some (fold_left path_step parts []) | _ => None end.

(** It refuses the root by one of its names only: under the others, which the command line
    accepts, the root is removed with everything below it. *)
Lemma root_is_removed : Forall (fun arg => exists o, parseArgs [str "--db=" ++ arg] default_BenchOptions = Some o /\
    bo_db o = arg /\ refused_path (bo_db o) = false /\ resolve_path (bo_db o) = Some [])
  [str "///"; str "/."; str "/tmp/.."] /\ refused_path (str "/") = true /\ resolve_path (str "/") = Some [].
Proof.
  split; [|by vm_compute]. repeat (apply Forall_cons; split; [eexists; split; [vm_compute; reflexivity|by vm_compute]|]).
  apply Forall_nil. exact I.
Qed.

(** ** A run *)

#[local] Existing Instance reference_libc.
#[local] Existing Instance reference_cpu.

#[global] Instance simk_BenchFs {reliable} : BenchFs (simk reliable) := {|
  fs_remove_all k _ := (k, true);
  fs_make_directories k _ := (k, true);
|}.

#[global] Instance simk_BenchFsSpec {L : Libc} {reliable} : BenchFsSpec (simk reliable).
Proof. split; by intros k p k' ok [= <- _]. Qed.

Definition sample_args : list bytes := [str "--benchmarks=fillseq"; str "--num=2"; str "--value_size=8"].

Definition sample_options : BenchOptions := default default_BenchOptions (parseArgs sample_args default_BenchOptions).

Definition sample_filled : DB (simk true) * Client (E := UringSys (simk true)) :=
  match openFreshDb sample_options sim_k0 with
  | Some (_, Database d) => (d, default (db_client d) (fst <$> benchFillSeq 8 (db_client d) sample_options))
  | _ => (sim_opened, db_client sim_opened)
  end.

Lemma sample_bench_runs : exists k, bench_main 8 sim_k0 sample_args k (Finishes true).
Proof.
  eexists. eapply (MainRuns 8 sim_k0 sample_args sample_options [str "fillseq"]); [vm_compute; reflexivity|vm_compute; reflexivity|].
  eapply OneMore; [|apply AllDone].
  eapply (BenchRuns 8 sample_options sim_k0 (str "fillseq") _ sample_filled.1 sample_filled.2 true);
    [vm_compute; reflexivity| |vm_compute; reflexivity].
  apply (OnFillSeq 8 sample_options sample_filled.1 sample_filled.2 (Some (mkMetrics 2 48))). vm_compute. reflexivity.
Qed.

Lemma bench_program_gives_back_witness :
  (exists k, bench_main 8 sim_k0 sample_args k (Finishes true) /\ same_resources sim_k0 k) /\
  exists k x, bench_main 8 sim_k0 sample_args k x.
Proof.
  destruct (bench_program_gives_back 8 sim_k0 sample_args) as [H1 H2].
  - intros o Ho. vm_compute in Ho. injection Ho as <-. split; [split; cbn; lia|]. cbn. lia.
  - split.
    + destruct sample_bench_runs as [k Hk]. exists k. split; [exact Hk|exact (H1 k true Hk)].
    + apply H2. intros o names Ho Hs. vm_compute in Ho. injection Ho as <-. vm_compute in Hs. injection Hs as <-.
      constructor; [left; left|constructor].
Defined.
