(* ===== verification/UringConcurrentRuns.v ===== *)
(** * Runs with several operations in flight

    The steps of [UringConcurrent] as a function of what happens next, and runs of it on
    the simulated kernel. *)

From stdpp Require Import relations.
From S2P Require Import Prelude Status Coding Crc32c WriteBatch Wal Io UringExecutor UringKernel UringFacts.
From S2P Require Import UringTheorems UringConcurrent UringHistory UringConcurrentFacts UringConcurrentTheorems.
From S2P Require Import UringLifecycle UringIo DbOpen UringSim.

#[global] Instance fresh_dec cs h r : Decision (fresh cs h r).
Proof.
  destruct (decide (cs !! h = None /\ NoDup (req_addrs r) /\ Forall (fun a => a <> 0) (req_addrs r) /\
    map_Forall (fun _ (c : request * call_state) => Forall (fun a => a ∉ req_addrs c.1) (req_addrs r)) cs)) as [H|H].
  - left. destruct H as (H1 & H2 & H3 & H4). split; try done. intros h' r' st a Hh' Ha.
    specialize (H4 h' (r', st) Hh'). rewrite Forall_forall in H4. by apply H4.
  - right. intros [H1 H2 H3 H4]. apply H. split; [done|]. split; [done|]. split; [done|].
    intros h' [r' st] Hh'. apply Forall_forall. intros a Ha. by eapply H2.
Defined.

Inductive action := DoPush (h : Z) (r : request) | DoKick | DoRound | DoReturn (h : Z) | DoAsync.

Section Runs.
Context {L : Libc} {K : Type} `{!Kernel K}.

Abbreviation config := (Exec K * gmap Z (request * call_state) * option Z)%type.

Definition act (c : config) (a : action) : option config :=
  let '(x, cs, lk) := c in
  match a, lk with
  | DoPush h r, None =>
      if decide (fresh cs h r) then
        '(x', ok) ← push_request (place_ops x h r) r;
        Some (if ok : bool then (x', <[h := (r, Waiting)]> cs, Some h)
              else (drop_ops x' r, <[h := (r, Answered (req_outcome r true []))]> cs, None))
      else None
  | DoKick, Some h =>
      '(r, _) ← cs !! h;
      let '(m', s) := kick_request (x_mach x) (x_state x) r in
      Some (if Status.ok s then (with_mach x m', cs, None)
            else (drop_ops (with_mach x m') r, <[h := (r, Answered (req_outcome r true []))]> cs, None))
  | DoRound, _ => x' ← completionLoop x; Some (x', cs, lk)
  | DoReturn h, _ =>
      '(r, st) ← cs !! h;
      rs ← mapM (fun a => op_result <$> x_heap x !! a) (req_addrs r);
      match st with
      | Waiting => if decide (h ∈ x_resumed x) then Some (drop_ops x r, <[h := (r, Answered (req_outcome r false rs))]> cs, lk) else None
      | Answered _ => None
      end
  | DoAsync, _ => Some (with_mach x (k_async (x_mach x)), cs, lk)
  | _, _ => None
  end.

Context `{!KernelSpec K}.

Definition with_log (c : config) (l : list event) : ESys K := let '(x, cs, lk) := c in mkESys x cs lk l.

Lemma act_cstep c a c' l : act c a = Some c' -> exists l', cstep (with_log c l) (with_log c' l').
Proof.
  destruct c as [[x cs] lk]. unfold act. cbn [with_log]. intros H. destruct a as [h r| | |h|], lk as [h'|]; try done.
  - case_decide; [|done]. destruct (push_request _ _) as [[x' ok]|] eqn:E; [|done]. cbn in H. injection H as <-.
    destruct (ksteps_klsteps (view (x_mach x)) (view (k_async (k_async (x_mach x)))) l) as [l' Hm].
    { etrans; apply async_steps. }
    exists l'. destruct ok; [by eapply Push|by eapply PushFull].
  - destruct (cs !! h') as [[r st]|] eqn:Eh; [|done]. cbn in H. destruct (kick_request _ _ _) as [m' s] eqn:E. injection H as <-.
    assert (rtc kstep (view (x_mach x)) (view m')) as Hs.
    { assert (exists n what, kick (x_mach x) (x_state x) n what = (m', s)) as (n & what & Ek) by (destruct r; by eexists _, _).
      unfold kick, wakeSqPollIfNeeded, loadAcquire in Ek. destruct (sqPollEnabled _); cbn [negb] in Ek.
      - pose proof (async_steps (x_mach x)) as Ha. destruct (Z.land _ _ =? 0); [by simplify_eq|].
        destruct (k_enter _ _ _ _) as [m2 ret] eqn:He. destruct (ret <? 0); simplify_eq; (etrans; [exact Ha|by eapply enter_steps]).
      - destruct (k_enter _ _ _ _) as [m2 ret] eqn:He. simplify_eq. by eapply enter_steps. }
    destruct (ksteps_klsteps _ _ l Hs) as [l' Hm]. exists l'. destruct (Status.ok s) eqn:Es; [by eapply Kick|by eapply KickFails].
  - destruct (completionLoop x) as [x'|] eqn:E; [|done]. cbn in H. injection H as <-. destruct (loop_moves x l) as [l' Hm].
    exists l'. by eapply Round.
  - destruct (completionLoop x) as [x'|] eqn:E; [|done]. cbn in H. injection H as <-. destruct (loop_moves x l) as [l' Hm].
    exists l'. by eapply Round.
  - destruct (cs !! h) as [[r st]|] eqn:Eh; [|done]. cbn in H. destruct (mapM _ _) as [rs|] eqn:E; [|done]. cbn in H.
    destruct st; [|done]. case_decide; [|done]. injection H as <-. exists l. by eapply Return_.
  - destruct (cs !! h) as [[r st]|] eqn:Eh; [|done]. cbn in H. destruct (mapM _ _) as [rs|] eqn:E; [|done]. cbn in H.
    destruct st; [|done]. case_decide; [|done]. injection H as <-. exists l. by eapply Return_.
  - injection H as <-. destruct (ksteps_klsteps _ _ l (async_steps (x_mach x))) as [l' Hm]. exists l'. by eapply Async.
  - injection H as <-. destruct (ksteps_klsteps _ _ l (async_steps (x_mach x))) as [l' Hm]. exists l'. by eapply Async.
Qed.

Lemma acts_csteps acts : forall c c' l, foldM act c acts = Some c' -> exists l', rtc cstep (with_log c l) (with_log c' l').
Proof.
  induction acts as [|a acts IH]; intros c c' l H; cbn in H; [simplify_eq; by eexists|].
  destruct (act c a) as [c1|] eqn:E; [|done]. cbn in H. destruct (act_cstep c a c1 l E) as [l1 H1].
  destruct (IH c1 c' l1 H) as [l' H']. exists l'. by eapply rtc_l.
Qed.
End Runs.

(** ** Two writes and a read at once *)

#[local] Existing Instance reference_libc.
#[local] Existing Instance reference_cpu.

Definition run_exec : Exec (simk true) :=
  mkExec (mkMach (mkSimk [] [] 0 ∅ ∅ true) sim_shm empty_file) (mkUState 5 false 0 false) ∅ AtEnter [].

Lemma run_exec_quiet : quiet run_exec 5 false.
Proof. split; try done. apply sim_shm_ok. Qed.

Definition write_low : request := ReqWrite 4096 4160 3 (str "hel") [mkIovec (FixedPtr 0) 3; mkIovec (DataPtr (str "lo")) 2] 0 5.
Definition write_high : request := ReqWrite 8192 8256 3 (str "world") [mkIovec (FixedPtr 0) 5] 5 5.
Definition read_all : request := ReqRead 12288 3 16 0.

(** All three are submitted before the completion thread runs; the second to be submitted
    returns first. *)
Definition three_calls : list action :=
  [DoPush 1 write_low; DoKick; DoPush 2 write_high; DoKick; DoPush 3 read_all; DoKick] ++
  replicate 6 DoRound ++ [DoReturn 2; DoReturn 3; DoReturn 1].

Definition after_three : option (Exec (simk true) * gmap Z (request * call_state) * option Z) :=
  foldM act (with_heap run_exec ∅, ∅, None) three_calls.

Lemma three_calls_return : exists x cs, after_three = Some (x, cs, None) /\
  cs = <[1 := (write_low, Answered (OStatus Status.Ok))]> (<[3 := (read_all, Answered (OCount (RValue 10)))]>
    (<[2 := (write_high, Answered (OStatus Status.Ok))]> ∅)) /\
  x_resumed x = [1; 2; 3] /\ content (m_file (x_mach x)) = str "helloworld".
Proof. eexists _, _. split; [vm_compute; reflexivity|]. vm_compute. auto. Qed.

Lemma three_reached : exists x cs l, rtc cstep (start run_exec) (mkESys x cs None l) /\
  cs = <[1 := (write_low, Answered (OStatus Status.Ok))]> (<[3 := (read_all, Answered (OCount (RValue 10)))]>
    (<[2 := (write_high, Answered (OStatus Status.Ok))]> ∅)).
Proof.
  destruct three_calls_return as (x & cs & E & Hcs & _). destruct (acts_csteps three_calls _ _ [] E) as [l Hl].
  exists x, cs, l. split; [exact Hl|exact Hcs].
Qed.

(** The same calls, before the completion thread has done anything. *)
Lemma three_waiting : exists x cs l, rtc cstep (start run_exec) (mkESys x cs None l) /\
  cs = <[3 := (read_all, Waiting)]> (<[2 := (write_high, Waiting)]> (<[1 := (write_low, Waiting)]> ∅)).
Proof.
  destruct (foldM act (with_heap run_exec ∅, ∅, None) (take 6 three_calls)) as [[[x cs] lk]|] eqn:E; [|by vm_compute in E].
  destruct (acts_csteps _ _ _ [] E) as [l Hl]. vm_compute in E. injection E as <- <- <-. do 3 eexists. split; [exact Hl|done].
Qed.



