(* ===== verification/Tests.v ===== *)
(** * The tests (tests/test_db.cc)

    The tests of the repository as definitions, and what can be said of them: which ones pass
    on every system, which on some schedule, and what is left of them in a build without
    assertions. *)

From stdpp Require Import relations.
From S2P Require Import Prelude Task TaskNest Status Coding Crc32c WriteBatch Wal MemTable Io Db DbTheorems.
From S2P Require Import WriterQueue WriterQueueFacts DbConcurrent DbClient Bench.
From S2P Require Import UringExecutor UringKernel UringFacts UringTheorems UringLifecycle UringIo DbOpen DbSession UringSim Stack.

(** ** Scripts

    The tests of the database's contents are sequences of these statements. In a build
    with [NDEBUG] what is inside an [assert] is not executed. *)
Inductive statement :=
  | AssertOk (o : call)                       (** [assert(db->Put(...).ok())] and the like *)
  | GetValue (key value : bytes)              (** [auto v = db->Get(key).value();] and [assert(v == value)] later *)
  | AssertValue (key value : bytes)           (** [assert(db->Get(key).value() == value)] *)
  | AssertNotFound (key : bytes)              (** [assert(db->Get(key).error().code() == kNotFound)] *)
  | NewSession (tail : bytes).                (** the block ends, [tail] is appended to the log, [Open] again *)

(** What a [Get] has to return. *)
Inductive expectation := ExpectValue (value : bytes) | ExpectNotFound | ExpectNothing.

Definition meets (e : expectation) (r : Result bytes) : bool :=
  match e, r with
  | ExpectValue v, RValue v' => bool_decide (v' = v)
  | ExpectNotFound, RStatus s => bool_decide (Status.code s = kNotFound)
  | ExpectNothing, _ => true
  | _, _ => false
  end.

Section Scripts.
Context {L : Libc} {C : Cpu} {K : Type} `{!Kernel K, !KernelSpec K, !Setup K, !Posix K, !OpenFile K}.

Definition statement_events (ndebug : bool) (t : statement) : list (event (K := K)) :=
  match t with
  | AssertOk o => if ndebug then [] else [Call o]
  | GetValue key _ => [Read key]
  | AssertValue key _ | AssertNotFound key => if ndebug then [] else [Read key]
  | NewSession tail => [Restart tail default_Options]
  end.

Definition statement_expects (ndebug : bool) (t : statement) : list expectation :=
  match t with
  | AssertOk _ | NewSession _ => []
  | GetValue _ value => [if ndebug then ExpectNothing else ExpectValue value]
  | AssertValue _ value => if ndebug then [] else [ExpectValue value]
  | AssertNotFound _ => if ndebug then [] else [ExpectNotFound]
  end.

Definition script_events (ndebug : bool) (t : list statement) : list event := concat (statement_events ndebug <$> t).
Definition script_expects (ndebug : bool) (t : list statement) : list expectation := concat (statement_expects ndebug <$> t).

(** A value that is not the expected one fails the test; if the system refuses an [Open] or
    a write, the test stops for that reason. *)
Inductive verdict := Passed | Failed | NoSystem.

Fixpoint all_meet (es : list expectation) (rs : list (Result bytes)) : bool :=
  match es, rs with
  | [], [] => true
  | e :: es, r :: rs => meets e r && all_meet es rs
  | _, _ => false
  end.

(** The verdict, and the log the test leaves. *)
Definition run_script (ndebug : bool) (k : K) (t : list statement) : option (verdict * file) :=
  '(_, f, a) ← lifetime k default_Options (script_events ndebug t);
  Some (match a with
        | Refused _ => NoSystem
        | Answered rs => if all_meet (script_expects ndebug t) rs then Passed else Failed
        end, f).

End Scripts.

Definition testPutGetAndRecover : list statement :=
  [AssertOk (CallPut (str "alpha") (str "one")); AssertOk (CallPut (str "beta") (str "two"));
   GetValue (str "alpha") (str "one"); GetValue (str "beta") (str "two");
   NewSession [];
   GetValue (str "alpha") (str "one"); GetValue (str "beta") (str "two")].

Definition testDeleteSurvivesRecovery : list statement :=
  [AssertOk (CallPut (str "key") (str "value")); AssertOk (CallDelete (str "key")); AssertNotFound (str "key");
   NewSession [];
   AssertNotFound (str "key")].

Definition testWriteBatchIsAtomic : list statement :=
  let batch := WriteBatch.new in
  let batch := WriteBatch.Put batch (str "a") (str "1") in
  let batch := WriteBatch.Put batch (str "b") (str "2") in
  let batch := WriteBatch.Delete batch (str "a") in
  [AssertOk (CallWrite batch); AssertNotFound (str "a"); AssertValue (str "b") (str "2")].

Definition testRecoveryTruncatesTornWalTailBeforeAppending : list statement :=
  [AssertOk (CallPut (str "stable") (str "value"));
   NewSession (str "torn");
   AssertValue (str "stable") (str "value"); AssertOk (CallPut (str "after_torn") (str "new_value"));
   NewSession [];
   AssertValue (str "stable") (str "value"); AssertValue (str "after_torn") (str "new_value")].

Definition content_tests : list (list statement) :=
  [testPutGetAndRecover; testDeleteSurvivesRecovery; testWriteBatchIsAtomic;
   testRecoveryTruncatesTornWalTailBeforeAppending].

(** [prefix + std::to_string(i)]. *)
Definition numbered_text (prefix : string) (i : nat) : bytes := str prefix ++ to_string (Z.of_nat i).

(** The events of a script given in full. *)
Ltac check_event :=
  lazymatch goal with
  | |- event_ok (Call _) => split; [repeat first [apply Put_wf|apply Delete_wf|apply new_wf]|vm_compute; reflexivity]
  | |- event_ok (Read _) => exact I
  | |- event_ok _ => split; [vm_compute; reflexivity|vm_compute; congruence]
  end.

(** ** On every system

    The kernel behaves as documented and a file of half a kilobyte is read by one request. *)
Section AnySystem.
Context {L : Libc} {C : Cpu} {K : Type} `{!Kernel K, !KernelSpec K, !Setup K, !SetupSpec K, !Posix K, !OpenFile K}.
Context `{!KernelReliable K, !PosixSpec K, !OpenSpec K, !CpuSpec C}.
Context (Hfull : forall f, zlen (content f) <= 512 -> reads_in_full (E := UringSys K) f).

(** A script passes if its expectations are a map's. *)
Lemma script_passes (k0 : K) t :
  Forall event_ok (script_events (K := K) false t) -> events_bytes (script_events (K := K) false t) <= 512 ->
  events_sequences (script_events (K := K) false t) < 2 ^ 63 ->
  all_meet (script_expects false t) (map_answers ∅ (script_events (K := K) false t)) = true ->
  exists v f, run_script false k0 t = Some (v, f) /\ v <> Failed.
Proof.
  intros Hok Hb Hn Hmeet. set (es := script_events false t) in *. pose proof (events_nonneg es) as [? ?].
  destruct (start_followed 512 ltac:(lia) Hfull es k0 empty_file default_Options [] [] [] 0) as (k & f & a & E1 & Ha);
    try done; cbn; try lia.
  { apply live_spec; [lia|done]. }
  unfold run_script, lifetime. fold es. rewrite E1. cbn [mbind option_bind]. do 2 eexists. split; [reflexivity|].
  destruct a as [rs|]; [|done]. destruct Ha as [-> _]. change (visible (replay [])) with (∅ : gmap bytes bytes). by rewrite Hmeet.
Qed.

Lemma content_events t : t ∈ content_tests -> Forall event_ok (script_events (K := K) false t).
Proof.
  intros Ht. repeat (apply elem_of_cons in Ht as [->|Ht]); [..|by apply not_elem_of_nil in Ht];
    repeat (apply Forall_cons; split; [check_event|]); apply Forall_nil; exact I.
Qed.

(** The tests of the contents, built with assertions, pass on every system that behaves as
    documented, unless it refuses an [Open] or a write. *)
Theorem content_tests_pass (k0 : K) t : t ∈ content_tests ->
  exists v f, run_script false k0 t = Some (v, f) /\ v <> Failed.
Proof.
  intros Ht. apply script_passes; [by apply content_events|..];
    repeat (apply elem_of_cons in Ht as [->|Ht]); try (by apply not_elem_of_nil in Ht); vm_compute; congruence.
Qed.

(** *** Eight threads

    [testConcurrentWritesRecover]: the batches its threads write, in any order, and what it
    checks after the restart. *)
Definition concurrent_puts : list WriteBatchT :=
  (fun i => WriteBatch.Put WriteBatch.new (numbered_text "key_" i) (numbered_text "value_" i)) <$> seq 0 8.

Definition testConcurrentWritesRecover (d : DB K) : bool :=
  forallb (fun i => match db_Get d (numbered_text "key_" i) with
                    | Some r => meets (ExpectValue (numbered_text "value_" i)) r
                    | None => false
                    end) (seq 0 8).

Lemma concurrent_test_passes (k0 : K) k f d s bs :
  DB_Open k0 empty_file default_Options = Some (k, f, Returned (RValue d)) ->
  reachable writeGroup default_Options (db_world d) s -> finished s -> s_loop s = LGone ->
  Forall (fun g => Status.ok (done_status g) = true) (s_written s) ->
  batches_of (s_heap s) (s_came s) = Some bs -> bs ≡ₚ concurrent_puts ->
  exists k1 f1 k2 f2 r, DB_destroy (with_client d (mkClient (s_q s) (s_world s))) = Some (k1, f1) /\
    DB_Open k1 f1 default_Options = Some (k2, f2, r) /\
    match r with
    | Returned (RValue d2) => testConcurrentWritesRecover d2 = true
    | Returned (RStatus st) => Status.ok st = false
    | Threw => True
    end.
Proof.
  intros Ho Hr Hfin Hgone Hok Hbs Hperm.
  assert (all_entries bs ≡ₚ all_entries concurrent_puts) as He by (unfold all_entries; by rewrite Hperm).
  destruct (threads_find_their_keys 512 ltac:(lia) Hfull k0 default_Options k f d s bs default_Options)
    as (k1 & f1 & k2 & f2 & r & Hd & Ho2 & Hget); try done.
  - rewrite Hperm. apply Forall_fmap, Forall_forall. intros i _. apply Put_wf, new_wf.
  - rewrite He. apply (bool_decide_unpack _). vm_compute. exact I.
  - rewrite (entries_bytes_perm _ _ He). rewrite Hperm. vm_compute. congruence.
  - exists k1, f1, k2, f2, r. do 2 (split; [done|]). destruct r as [[d2|]|]; [|done..].
    apply forallb_forall. intros i Hi%list_elem_of_In. set (e := mkEntry kPut (numbered_text "key_" i) (numbered_text "value_" i)).
    assert (e ∈ all_entries bs) as Hin; 
      [rewrite He|apply Hget in Hin; cbn [e entry_key entry_type entry_value] in Hin; rewrite Hin; by apply bool_decide_eq_true].
    apply list_elem_of_In, in_concat. exists [e]. split; [|by left]. apply list_elem_of_In, list_elem_of_fmap.
    exists (WriteBatch.Put WriteBatch.new (numbered_text "key_" i) (numbered_text "value_" i)). split; [done|].
    by apply (list_elem_of_fmap_2 (fun i => WriteBatch.Put WriteBatch.new (numbered_text "key_" i) (numbered_text "value_" i))).
Qed.

End AnySystem.

(** ** The statistics

    Tests that look at [DebugStatsForTest]. *)
Section Statistics.
Context {L : Libc} {C : Cpu} {K : Type} `{!Kernel K, !KernelSpec K, !Setup K, !Posix K, !OpenFile K}.

(** [DB::Open(dir).value()] on a fresh directory. *)
Definition open_fresh (k : K) : option (DB K) :=
  '(_, _, r) ← DB_Open k empty_file default_Options;
  match r with Returned r => result_value r | Threw => None end.

(** A call whose status is asserted to be OK. *)
Definition call_ok (d : DB K) (o : call) : option (DB K) :=
  '(d, s) ← db_call d o;
  if Status.ok s then Some d else None.

Definition get_is (d : DB K) (key : bytes) (e : expectation) : bool :=
  match db_Get d key with Some r => meets e r | None => false end.

Definition testAsyncWriteUsesCoroutineCompletionAndPersistentUring (k : K) : option bool :=
  db ← open_fresh k;
  let batch := WriteBatch.Put WriteBatch.new (str "async_key") (str "async_value") in
  db ← call_ok db (CallWrite batch);
  let stats := DebugStatsForTest db in
  Some (get_is db (str "async_key") (ExpectValue (str "async_value")) &&
        (ds_uringExecutorCreations stats =? 1) && (ds_asyncWriterSuspensions stats =? 1) &&
        (ds_uringCompletionLoopCompletions stats >=? 2) && (ds_memtableReservedBuckets stats >=? 4096) &&
        (ds_inlineWriterDrains stats >? 0) && (ds_writerThreadDrains stats =? 0) && negb (ds_uringSqPollEnabled stats)).

Definition testWalEncodeBuffersAreReusedAcrossWrites (k : K) : option bool :=
  db ← open_fresh k;
  db ← call_ok db (CallPut (str "first") (str "value"));
  db ← call_ok db (CallPut (str "second") (str "value"));
  let stats := DebugStatsForTest db in
  Some ((ds_walEncodeFixedCapacity stats >? 0) && (ds_walEncodeIovecCapacity stats >? 0) &&
        (ds_walEncodeBufferReuses stats >? 0) && (ds_writeGroupTimingSamples stats >=? 2) &&
        (ds_writeGroupTotalMicros stats >? 0) && (ds_writeGroupWalEncodeMicros stats >? 0) &&
        (ds_writeGroupDurableWaitMicros stats >? 0) && (ds_writeGroupMemtableApplyMicros stats >? 0)).

Definition testMemtableShardsAndScratchAreUsed (k : K) : option bool :=
  db ← open_fresh k;
  let batch := fold_left (fun b i => WriteBatch.Put b (numbered_text "key_" i) (numbered_text "value_" i)) (seq 0 128) WriteBatch.new in
  let batch := WriteBatch.Delete batch (str "key_7") in
  db ← call_ok db (CallWrite batch);
  db ← call_ok db (CallPut (str "key_129") (str "value_129"));
  let stats := DebugStatsForTest db in
  Some (forallb (fun i => get_is db (numbered_text "key_" i)
                   (if (i =? 7)%nat then ExpectNotFound else ExpectValue (numbered_text "value_" i))) (seq 0 128) &&
        get_is db (str "key_129") (ExpectValue (str "value_129")) &&
        (ds_memtableShardCount stats >? 1) && (ds_memtableEntries stats =? 129) &&
        (ds_memtableApplyShardLocks stats >? 1) && (ds_writeGroupScratchReuses stats >? 0)).

(** What [testConcurrentWritesUseGroupCommitWindow] asserts once its threads are done. *)
Definition kThreads : Z := 16.

Definition group_commit_calls : list call :=
  (fun i => CallPut (numbered_text "group_key_" i) (str "value")) <$> seq 0 (Z.to_nat kThreads).

Definition testConcurrentWritesUseGroupCommitWindow (stats : DebugStats) : bool :=
  (ds_groupCommitWaits stats >? 0) && (ds_maxWriteGroupSize stats >? 1) &&
  (ds_memtableApplyLocks stats >? 0) && (ds_memtableApplyLocks stats <? kThreads) &&
  (ds_groupCommitTargetSize stats =? 8) && (ds_groupCommitWindowMicros stats =? 100) &&
  ds_adaptiveGroupCommitEnabled stats && (ds_highPressureGroupCommitTargetSize stats =? 16) &&
  (ds_highPressureGroupCommitWindowMicros stats =? 200) &&
  (ds_highPressureGroupCommitQueueThreshold stats =? 10) && (ds_adaptiveGroupCommitWaits stats >? 0).

End Statistics.

(** ** The log's format, batches and tasks *)

Section Formats.
Context {L : Libc} {C : Cpu}.

Definition first_and_second : list WriteBatchT :=
  [WriteBatch.Delete (WriteBatch.Put WriteBatch.new (str "alpha") (str "one")) (str "beta");
   WriteBatch.Put WriteBatch.new (str "gamma") (str "three")].

Definition testWalEncodedBatchSizeMatchesRecord : option bool :=
  let batches := first_and_second in
  encoded ← EncodeBatchInto 42 batches;
  decoded ← DecodeLog encoded;
  r ← result_value decoded;
  Some ((EncodedBatchSize batches =? zlen encoded) && (validBytes r =? zlen encoded) &&
        match Wal.batches r with
        | [b] => (baseSequence b =? 42) && (zlen (WriteBatch.entries (batch b)) =? 3)
        | _ => false
        end).

Definition testWalCrc32cMatchesStandardVector : bool := Crc32C (str "123456789") =? 0xe3069283.

Definition testWriteBatchCopyKeepsIndependentEntries : bool :=
  let batch := WriteBatch.Put WriteBatch.new (str "alpha") (str "one") in
  let copy := WriteBatch.copy batch in
  let batch := WriteBatch.Put batch (str "beta") (str "two") in
  match WriteBatch.entries copy with
  | [e] => bool_decide (entry_key e = str "alpha") && bool_decide (entry_value e = str "one")
  | _ => false
  end && (zlen (WriteBatch.entries batch) =? 2).

Definition testWalFragmentEncodingMatchesContiguousRecord : option bool :=
  let batches := first_and_second in
  contiguous ← EncodeBatchInto 7 batches;
  fragmented ← EncodeBatchFragmentsInto 7 batches (mkFragments vector_new vector_new 0);
  bytes ← materializeIovecs (items (fixed fragmented)) (items (iovecs fragmented));
  Some ((encoded_size fragmented =? zlen contiguous) && (zlen (items (iovecs fragmented)) >? 1) && bool_decide (bytes = contiguous)).

End Formats.

Definition immediateValue : body (T := Z) (Exn := Z) := Ret 7.

Definition nestedImmediateValue : body (T := Z) (Exn := Z) :=
  let child := immediateValue in
  Await child (fun r => match r with inl v => Ret v | inr e => Raise e end).

Definition testNestedInlineTaskCompletesOnce : bool :=
  match run_task 100 nestedImmediateValue with
  | Some (inl v, _, _) => v =? 7
  | _ => false
  end.

(** ** On the simulated kernel *)

#[local] Existing Instance reference_libc.
#[local] Existing Instance reference_cpu.

(** The tests that need no scheduling, in [main]'s order. *)
Theorem suite_passes :
  ((fun t => fst <$> run_script false sim_k0 t) <$> content_tests) = replicate 4 (Some Passed) /\
  testAsyncWriteUsesCoroutineCompletionAndPersistentUring sim_k0 = Some true /\
  testWalEncodeBuffersAreReusedAcrossWrites sim_k0 = Some true /\
  testMemtableShardsAndScratchAreUsed sim_k0 = Some true /\
  testWalEncodedBatchSizeMatchesRecord = Some true /\
  testWalCrc32cMatchesStandardVector = true /\
  testWriteBatchCopyKeepsIndependentEntries = true /\
  testWalFragmentEncodingMatchesContiguousRecord = Some true /\
  testNestedInlineTaskCompletesOnce = true.
Proof. repeat split; vm_compute; reflexivity. Qed.

(** Built with [NDEBUG], as the [Release] build of the README is, the same tests write
    nothing: the calls are inside the assertions. They pass and leave an empty log. *)
Theorem release_tests_write_nothing :
  ((fun t => run_script true sim_k0 t) <$> content_tests) = replicate 4 (Some (Passed, empty_file)).
Proof. vm_compute. reflexivity. Qed.

Definition sim_db : DB (simk true) := default (DB_new 3 sim_k0 empty_file sim_ring default_Options) (open_fresh sim_k0).

(** The sixteen threads of the group commit test, each done before the next one starts. *)
Definition one_after_the_other : Client (E := UringSys (simk true)) * list StatusT :=
  default (db_client sim_db, []) (do_calls (db_client sim_db) group_commit_calls).

(** That is an execution in which every write succeeds, and no group has two writers: the
    test's assertions on group commit do not hold of every execution. *)
Theorem group_commit_test_depends_on_schedule : exists s : QSys (World (UringSys (simk true))),
  reachable writeGroup default_Options (db_world sim_db) s /\ Forall (fun st => Status.ok st = true) one_after_the_other.2 /\
  length one_after_the_other.2 = 16%nat /\
  testConcurrentWritesUseGroupCommitWindow (DebugStatsForTest (with_client sim_db (mkClient (s_q s) (s_world s)))) = false.
Proof.
  destruct (do_calls_simulated default_Options group_commit_calls (QSys_new (db_world sim_db)) 0
    one_after_the_other.1 one_after_the_other.2) as (s & Hr & Hq & Hw).
  - repeat (split; [done|]). intros w' _. apply lookup_empty.
  - vm_compute. reflexivity.
  - exists s. split; [exact Hr|]. rewrite Hq, Hw. split; [apply (bool_decide_unpack _); vm_compute; exact I|].
    split; vm_compute; reflexivity.
Qed.

(** ** Examples *)

(** Two writers, as in [two_writers], and then the destructor stops the writer thread. *)
Lemma two_writers_stopped {W : Type} (write : W -> list WriteBatchT -> option (W * StatusT)) w0 w1 w2 :
  write w0 [first_batch] = Some (w1, Status.Ok) -> write w1 [second_batch] = Some (w2, Status.Ok) ->
  exists s, reachable write default_Options w0 s /\ s_came s = [1; 2] /\
    mapM (fun d => batches_of (s_heap s) (done_group d)) (s_written s) = Some [[first_batch]; [second_batch]] /\
    finished s /\ s_loop s = LGone /\ done_status <$> s_written s = [Status.Ok; Status.Ok].
Proof.
  intros H1 H2. eexists. split.
  - take_step ltac:(right; by eapply (EnqueueInline _ 1 first_batch (Some 11))).
    take_step ltac:(right; by eapply (EnqueueQueued _ 2 second_batch (Some 12))).
    take_step ltac:(left; eapply (InlineWrite _ _ _ 1); [reflexivity|reflexivity|exact H1]).
    take_step ltac:(left; eapply (Notify _ _ _ 0); reflexivity).
    take_step ltac:(left; eapply LoopCollect; reflexivity).
    take_step ltac:(left; eapply (LoopDrainWindow _ _ _ _ _ true); reflexivity).
    take_step ltac:(left; eapply (LoopWrite _ _ _ [2]); [reflexivity|reflexivity|exact H2]).
    take_step ltac:(left; eapply LoopResumeOne; reflexivity).
    take_step ltac:(left; eapply (LoopResumed _ _ _ _ 7); reflexivity).
    take_step ltac:(right; eapply Stop; reflexivity).
    take_step ltac:(left; eapply (Notify _ _ _ 0); reflexivity).
    take_step ltac:(left; eapply LoopReturn; reflexivity).
    apply rtc_refl.
  - repeat split. by right.
Qed.


Lemma sim_db_opens :
  DB_Open sim_k0 empty_file default_Options =
    Some (u_kern (w_io (db_world sim_db)), w_file (db_world sim_db), Returned (RValue sim_db)).
Proof. vm_compute. reflexivity. Qed.

Definition sim_after (w : World (UringSys (simk true))) (g : list WriteBatchT) : World (UringSys (simk true)) :=
  default w (fst <$> writeGroup w g).

Lemma sim_writes :
  writeGroup (db_world sim_db) [first_batch] = Some (sim_after (db_world sim_db) [first_batch], Status.Ok) /\
  writeGroup (sim_after (db_world sim_db) [first_batch]) [second_batch] =
    Some (sim_after (sim_after (db_world sim_db) [first_batch]) [second_batch], Status.Ok).
Proof. split; vm_compute; reflexivity. Qed.


Lemma content_tests_pass_witness : exists v f, run_script false sim_k0 testPutGetAndRecover = Some (v, f) /\ v <> Failed.
Proof.
  apply (content_tests_pass (K := simk true)).
  - intros f Hf. apply simk_reads_in_full. lia.
  - left.
Defined.
